(* ===== verification/_CoqProject ===== *)
-Q . S2P
Prelude.v
Codec.v
KvInterface.v
KvStore.v
FilePersistence.v
FileSnapshot.v
RaftTypes.v
DurableStorage.v
StorageProperties.v
KvThreads.v
RaftLog.v
RaftNode.v
RaftBehaviour.v
RaftInvariant.v
RuntimeConfig.v
Grpc.v
Runtime.v
RuntimeProperties.v
RaftProtocol.v
RaftSimulation.v
RaftCluster.v
RaftSafety.v
RaftProperties.v
RaftReplication.v
RaftElection.v
RaftRecovery.v
RaftFaults.v
GrpcProperties.v
Deployment.v
Process.v
Main.v
