(* ===== verification/Prelude.v ===== *)
(** * Fault-tolerant key-value store: verification library

    This library models the C++ sources of the fault-tolerant key-value store and
    proves what makes them correct.  This file is its root: it holds this overview
    and the notions every other file shares.

    ** The program

    A node is one process.  [main.cpp] reads the configuration from the environment
    and runs a [NodeRuntime], which owns a [RaftNode] (the consensus core, a passive
    state machine driven by [tick], [step] and [handle_request]), a key-value store,
    a gRPC server and one gRPC client per peer.  A ticker thread drives the timer
    and moves the node's outgoing messages to a queue; worker threads take them from
    the queue, call the peers and feed the answers back to the node; the server
    feeds the peers' requests to the node and the users' requests to the key-value
    store.  Both the Raft state and the key-value map are kept in snapshot files
    that are replaced atomically.

    ** The files

    - [Prelude]: bytes, 64-bit integers, exceptions, the state-and-exception monad
      [M] with its weakest preconditions [wp], list and quorum lemmas.
    - [Codec]: little-endian integers (the byte loops of [storage/kv_store.cpp] and
      [node/node_runtime.cpp]).
    - [KvInterface]: the interfaces [KeyValueStore] and [Persistence] as classes of
      operations with classes of laws, and [InMemoryKeyValueStore]
      ([include/ftkv/store], [store/in_memory_key_value_store.cpp]).
    - [KvStore]: class [KvStore] over any [Persistence] ([storage/kv_store.cpp]).
    - [FilePersistence], [FileSnapshot]: class [FilePersistence] and the helpers that
      read and write snapshot files, over a file system in which every call may fail
      or be the last one of the process, with the buffer of the output stream.
    - [RaftTypes]: the types of [raft/raft.h], the [RaftStorage] interface and its
      laws, [InMemoryRaftStorage], and random engines.
    - [DurableStorage]: [encode_state], [decode_state] and [DurableRaftStorage] of
      [node/node_runtime.cpp]; it meets the laws of [RaftStorage] over any
      [Persistence].
    - [StorageProperties]: the theorems on storage; [KvThreads]: the methods of
      [KvStore] line by line on several threads, with the shared mutex.
    - [RaftLog], [RaftNode]: every method of [raft/raft_node.cpp].
    - [RaftBehaviour], [RaftInvariant]: what each method does, as weakest
      preconditions, and the invariant of a single node.
    - [RuntimeConfig]: the configuration from the environment
      ([node/node_runtime.cpp]).
    - [Grpc]: the services, the client with its retry loop and the life cycle of the
      server ([grpc/grpc_server.cpp], [grpc/grpc_client.cpp]); [GrpcProperties]: the
      theorems on them.
    - [Runtime]: [NodeRuntime] as threads with program counters, a queue, a mutex
      and a condition variable ([node/node_runtime.cpp]); [RuntimeProperties]: the
      theorems on it.
    - [RaftProtocol]: an abstract Raft protocol, without messages or storage, and
      its safety by rule induction; [RaftSimulation]: every method of [RaftNode] is
      a run of it; [RaftCluster]: nodes, stopped processes and a network that loses,
      repeats, delays and reorders messages; [RaftSafety]: the safety theorems.
    - [RaftProperties]: the functional behaviour of the methods of [RaftNode];
      [RaftFaults]: what a node does that survives a failed save, why a handler
      throws, which accepted logs do not load, and the end of the 64-bit terms.
    - [RaftReplication], [RaftElection]: the exchanges between a leader and its
      followers, and between a candidate and its voters, and that they succeed;
      [RaftRecovery]: these exchanges as schedules of the cluster, and how a majority
      recovers.
    - [Deployment]: one [NodeRuntime] per member, composed over the wire.
    - [Process]: [run_node] and the signal handler over the threads of the runtime;
      [Main]: the command line ([main.cpp]).

    ** What the theorems show

    - Storage.  A save replaces the snapshot or leaves it alone, whatever write,
      flush, close or rename fails or is the last (C23); snapshots and Raft states
      read back as they were written and nothing else is accepted (C25, C26, C30);
      the durable store is one finite map across failed operations, a death and a
      restart (C29; [memory_store_history] for the other store); concurrent calls
      are linearizable, free of races and never all stuck (C27, C28); the Raft
      storage keeps the promise the consensus core relies on (C24).
    - One node.  No call has undefined behaviour (C21), terms, votes and the
      committed log only move forward (C20), what a call answers is durable
      (C19), a vote is queued only once it is saved (C17), and [append_entries], [request_vote], the commit rule and [tick] do
      what their specifications say (C16 to C18, C31).
    - The cluster is safe.  It refines the abstract protocol (C5); state machine
      safety, election safety, leader completeness, log matching, leader append-only
      and durability of what was published (C1 to C4, C8, C14); every event has an
      outcome and leaves everything committed applied (C9), every stopped node can
      restart (C10), and the defensive branches of the matching loop are dead (C15).
    - The cluster makes progress.  From any reachable state, any majority whose
      storage works can elect a leader and commit a new command by its own steps
      (C11); a node that reaches a majority is elected (C13), and a leader that
      reaches a majority repairs its followers' logs and commits its own (C12).
      These are statements about the exchanges a schedule contains, not about timing.
    - The running system.  Every run of threads, queues, retries and handlers is a run
      of the cluster unless a handler keeps a node whose save threw or a ticker steps
      in the last 64-bit term (C6), and without such a step it is safe (C7); a signal
      ends the process under every schedule (C22).
    - The RPC layer.  Calls between peers reach the node unchanged (C36); the retry
      loop keeps its schedule (C37); the store behaves as documented over a lossy
      network (C38).
    - Configuration and command line (C39, C40).
    - Defects of the code: what every node does that is kept after a failed save (C32,
      C33), the logs it accepts and cannot load (C34), a start that hangs (C35), and
      the lemmas [erase_retry_misreports], [election_term_wraps],
      [largest_command_never_saved] and [read_error_hides_trailing_data].

    ** Modelling decisions

    A [std::uint64_t] is an [N] with its wrap-around written out; signed durations
    are [Z] whose overflow is undefined behaviour.  A function gives a value, an
    exception, the death of the process, or undefined behaviour; mutations before a
    [throw] stay.  A method that holds a mutex for its whole body is atomic; for the
    store, whose readers share the lock, C27 proves it.  Loops are structural (the
    candidate index of [advance_loop], the attempts left of [retry_loop]) or carry
    fuel that the theorems show to be enough: the number of entries left to apply
    ([apply_loop]) and the rest of the text ([parse_items]), where a run that is out
    of fuel is undefined, so that a theorem without undefined behaviour shows that the
    loop ends; and the length of the leader's log ([exchange]: every rejection lowers
    the next index), where it answers false.

    Parameters: the random engine (any engine whose draws stay in range), the
    iteration order of [std::unordered_map] (any enumeration of the map), the gRPC
    library (an attempt gives any status and response), the texts of the exceptions
    the standard library throws by itself, the environment, and the faults of the
    file system.

    Assumptions of the cluster theorems: the members agree on the configuration, the
    term of a node that ticks is below 2^64 - 1, and a node whose call throws stops.
    The last one holds for the ticker and the workers, whose exceptions end the
    process; the server's [run_handler] keeps such a node.  [Deployment] contains these
    runs too, and its theorems name the step from which on they say nothing;
    [RaftFaults] shows that this step can only be a failed save, and what the node
    does after it.

    ** Not modelled

    The protobuf encoding and the gRPC transport (generated and third-party code),
    power failures that lose what the operating system has not written, log output,
    tests and build files.  That an election happens at all, or that two candidates
    do not keep splitting the votes, is not stated: it depends on timing and on the
    random draws. *)

From Stdlib Require Import NArith ZArith Lia.
From Stdlib Require Import Strings.Byte Strings.String.
From stdpp Require Import base tactics numbers list gmap countable functions strings.

#[global] Set Default Goal Selector "!".

(** ** Bytes

    A [std::string] holds arbitrary bytes, so both the key-value store and the
    Raft log work on [list byte]. *)

Abbreviation byte := Byte.byte.
Abbreviation bytes := (list Byte.byte).

#[export] Instance byte_eq_dec : EqDecision byte := Byte.byte_eq_dec.

#[export] Instance byte_countable : Countable byte :=
  inj_countable Byte.to_N Byte.of_N Byte.of_to_N.

Declare Scope ftkv_scope.
Delimit Scope ftkv_scope with ftkv.

(** [bytes_of "..."] is a C++ string literal. *)
Definition bytes_of (s : string) : bytes := String.list_byte_of_string s.

(** ** Machine integers

    [std::uint64_t] and [std::size_t] are [N] with the wrap-around written out;
    [std::chrono::milliseconds::rep] is a signed 64-bit integer, a [Z] whose
    overflow is undefined behaviour. *)

Abbreviation u64_modulus := 18446744073709551616%N.
Abbreviation u64_max := 18446744073709551615%N.

Definition u64_add (a b : N) : N := ((a + b) mod u64_modulus)%N.
Definition u64_sub (a b : N) : N := ((a + u64_modulus - b) mod u64_modulus)%N.
Definition u64_mul (a b : N) : N := ((a * b) mod u64_modulus)%N.
Definition is_u64 (a : N) : Prop := (a < u64_modulus)%N.

Abbreviation i64_min := (-9223372036854775808)%Z.
Abbreviation i64_max := 9223372036854775807%Z.

Definition is_i64 (z : Z) : Prop := (i64_min <= z <= i64_max)%Z.
Definition i64_ok (z : Z) : bool := ((i64_min <=? z) && (z <=? i64_max))%Z.

(** The largest number of elements a [std::vector] holds: the distance of its
    iterators is a [std::ptrdiff_t]. *)
Abbreviation vector_max := 9223372036854775807%N.

Notation "a '+u' b" := (u64_add a b) (at level 50, left associativity) : ftkv_scope.
Notation "a '-u' b" := (u64_sub a b) (at level 50, left associativity) : ftkv_scope.

Lemma u64_add_small (a b : N) : (a + b < u64_modulus)%N -> u64_add a b = (a + b)%N.
Proof. intros H. unfold u64_add. by apply N.mod_small. Qed.

Lemma u64_sub_small (a b : N) :
  (b <= a)%N -> (a < u64_modulus)%N -> u64_sub a b = (a - b)%N.
Proof.
  intros H1 H2. unfold u64_sub.
  replace (a + u64_modulus - b)%N with ((a - b) + 1 * u64_modulus)%N by lia.
  rewrite N.Div0.mod_add. apply N.mod_small. lia.
Qed.

Lemma u64_add_is_u64 (a b : N) : is_u64 (u64_add a b).
Proof. apply N.mod_lt. lia. Qed.

(** Proofs use the lemmas above; evaluation ([vm_compute]) is not affected. *)
#[global] Opaque u64_add u64_sub u64_mul.

Lemma i64_ok_spec (z : Z) : i64_ok z = true <-> is_i64 z.
Proof. unfold i64_ok, is_i64. lia. Qed.

(** ** Exceptions and outcomes

    The exception classes the sources throw.  [Crash] is the death of the
    process: no handler catches it. *)
Inductive exn :=
| InvalidArgument (what : string)
| LogicError (what : string)
| OutOfRange
| LengthError
| RuntimeError (what : string)
| RaftError (what : string)
| StorageError (what : string)
| GrpcErrorExn (what : string) (code attempts : N).

#[export] Instance exn_eq_dec : EqDecision exn.
Proof. solve_decision. Defined.

Inductive failure :=
| Exn (e : exn)
| Crash.

#[export] Instance failure_eq_dec : EqDecision failure.
Proof. solve_decision. Defined.

(** What running a C++ function gives: a value, a failure, or undefined
    behaviour (an index out of range, signed overflow). *)
Inductive outcome (A : Type) :=
| Ret (a : A)
| Fail (f : failure)
| Undefined.
Arguments Ret {A} a.
Arguments Fail {A} f.
Arguments Undefined {A}.

#[export] Instance outcome_eq_dec `{EqDecision A} : EqDecision (outcome A).
Proof. solve_decision. Defined.

#[export] Instance outcome_ret : MRet outcome := fun A a => Ret a.

#[export] Instance outcome_bind : MBind outcome := fun A B f m =>
  match m with
  | Ret a => f a
  | Fail x => Fail x
  | Undefined => Undefined
  end.

(** ** The state-and-exception monad

    A method of an object with state [S]: mutations made before a [throw] stay,
    as they do in C++. *)
Definition M (S A : Type) : Type := S -> S * outcome A.

#[export] Instance M_ret {S} : MRet (M S) := fun A a s => (s, Ret a).

#[export] Instance M_bind {S} : MBind (M S) := fun A B f m s =>
  match m s with
  | (s', Ret a) => f a s'
  | (s', Fail x) => (s', Fail x)
  | (s', Undefined) => (s', Undefined)
  end.

Section operations.
Context {S : Type}.

Definition get : M S S := fun s => (s, Ret s).
Definition gets {A} (f : S -> A) : M S A := fun s => (s, Ret (f s)).
Definition modify (f : S -> S) : M S unit := fun s => (f s, Ret tt).
Definition fail {A} (x : failure) : M S A := fun s => (s, Fail x).
Definition throw {A} (e : exn) : M S A := fail (Exn e).
Definition undefined {A} : M S A := fun s => (s, Undefined).
Definition lift {A} (o : outcome A) : M S A := fun s => (s, o).
Definition when (b : bool) (m : M S unit) : M S unit := if b then m else mret tt.

(** [v[i]] on a vector: out of range is undefined behaviour. *)
Definition at_index {A} (l : list A) (i : N) : M S A :=
  match l !! N.to_nat i with
  | Some x => mret x
  | None => undefined
  end.

(** Signed arithmetic: overflow is undefined behaviour. *)
Definition i64_add (a b : Z) : M S Z := if i64_ok (a + b) then mret (a + b)%Z else undefined.
Definition i64_sub (a b : Z) : M S Z := if i64_ok (a - b) then mret (a - b)%Z else undefined.

(** A range-based [for]. *)
Fixpoint for_each {A} (l : list A) (body : A -> M S unit) : M S unit :=
  match l with
  | [] => mret tt
  | x :: l => body x;; for_each l body
  end.

(** [try m catch (...) { h; throw; }]: a crash is not caught. *)
Definition try_finally {A} (m : M S A) (h : M S unit) : M S A := fun s =>
  match m s with
  | (s', Fail (Exn e)) => (h;; throw e) s'
  | r => r
  end.
End operations.

(** Run a method for its effect on the object. *)
Definition exec {S} (m : M S unit) (s : S) : outcome S :=
  match m s with
  | (s', Ret _) => Ret s'
  | (_, Fail f) => Fail f
  | (_, Undefined) => Undefined
  end.

(** Run a method of a member object inside its owner. *)
Definition zoom {S T A} (proj : S -> T) (put : T -> S -> S) (m : M T A) : M S A := fun s =>
  match m (proj s) with (t, o) => (put t s, o) end.

(** ** Weakest preconditions

    [wp m s Q X]: running [m] from [s] has no undefined behaviour, a normal
    return satisfies [Q] and a failure satisfies [X]. *)
Definition wp {S A} (m : M S A) (s : S) (Q : A -> S -> Prop) (X : failure -> S -> Prop) : Prop :=
  match m s with
  | (s', Ret a) => Q a s'
  | (s', Fail f) => X f s'
  | (_, Undefined) => False
  end.

Create HintDb ftkv.

Section wp_rules.
Context {S : Type}.
Implicit Types (s : S) (X : failure -> S -> Prop).

Lemma wp_mono {A} (m : M S A) s (Q Q' : A -> S -> Prop) X X' :
  wp m s Q X -> (forall a s', Q a s' -> Q' a s') -> (forall f s', X f s' -> X' f s') ->
  wp m s Q' X'.
Proof. unfold wp. destruct (m s) as [s' []]; naive_solver. Qed.

Lemma wp_ret {A} (a : A) s (Q : A -> S -> Prop) X : Q a s -> wp (mret a) s Q X.
Proof. done. Qed.

Lemma wp_bind {A B} (m : M S A) (f : A -> M S B) s Q X :
  wp m s (fun a s' => wp (f a) s' Q X) X -> wp (m ≫= f) s Q X.
Proof. unfold wp, mbind, M_bind. destruct (m s) as [s' []]; done. Qed.

Lemma wp_get s (Q : S -> S -> Prop) X : Q s s -> wp get s Q X.
Proof. done. Qed.

Lemma wp_gets {A} (f : S -> A) s (Q : A -> S -> Prop) X : Q (f s) s -> wp (gets f) s Q X.
Proof. done. Qed.

Lemma wp_modify f s (Q : unit -> S -> Prop) X : Q tt (f s) -> wp (modify f) s Q X.
Proof. done. Qed.

Lemma wp_throw {A} e s (Q : A -> S -> Prop) X : X (Exn e) s -> wp (throw e) s Q X.
Proof. done. Qed.

Lemma wp_when b m s (Q : unit -> S -> Prop) X :
  (b = true -> wp m s Q X) -> (b = false -> Q tt s) -> wp (when b m) s Q X.
Proof. destruct b; naive_solver. Qed.

Lemma wp_at_index {A} (l : list A) i s (Q : A -> S -> Prop) X x :
  l !! N.to_nat i = Some x -> Q x s -> wp (at_index l i) s Q X.
Proof. unfold at_index. by intros ->. Qed.

Lemma wp_i64_add a b s (Q : Z -> S -> Prop) X :
  is_i64 (a + b) -> Q (a + b)%Z s -> wp (i64_add a b) s Q X.
Proof. unfold i64_add. by intros ->%i64_ok_spec. Qed.

Lemma wp_i64_sub a b s (Q : Z -> S -> Prop) X :
  is_i64 (a - b) -> Q (a - b)%Z s -> wp (i64_sub a b) s Q X.
Proof. unfold i64_sub. by intros ->%i64_ok_spec. Qed.

Lemma wp_try_finally {A} (m : M S A) (h : M S unit) s (Q : A -> S -> Prop) X :
  wp m s Q (fun f s' => match f with
                        | Exn e => wp h s' (fun _ s'' => X (Exn e) s'') X
                        | Crash => X Crash s'
                        end) ->
  wp (try_finally m h) s Q X.
Proof.
  unfold wp, try_finally, mbind, M_bind. destruct (m s) as [s' [a|[e|]|]]; [done| |done|done].
  by destruct (h s') as [s'' []].
Qed.

(** Loop rule: an invariant on the elements still to visit. *)
Lemma wp_for_each {A} (I : list A -> S -> Prop) (l : list A) body s (Q : unit -> S -> Prop) X :
  I l s ->
  (forall x l' s', I (x :: l') s' -> wp (body x) s' (fun _ s'' => I l' s'') X) ->
  (forall s', I [] s' -> Q tt s') ->
  wp (for_each l body) s Q X.
Proof.
  intros HI Hbody Hend. revert s HI. induction l as [|x l IH]; intros s HI; simpl.
  - apply wp_ret; auto.
  - apply wp_bind. eapply wp_mono; [by apply Hbody| |done]. simpl. auto.
Qed.

(** Two preconditions of one run. *)
Lemma wp_conj {A} (m : M S A) s (Q Q' : A -> S -> Prop) X X' :
  wp m s Q X -> wp m s Q' X' ->
  wp m s (fun a s' => Q a s' /\ Q' a s') (fun f s' => X f s' /\ X' f s').
Proof. unfold wp. by destruct (m s) as [s' []]. Qed.

(** A failure with the run it ends. *)
Lemma wp_run {A} (m : M S A) s (Q : A -> S -> Prop) X :
  wp m s Q X -> wp m s Q (fun f s' => X f s' /\ m s = (s', Fail f)).
Proof. unfold wp. by destruct (m s) as [s' []]. Qed.

(** Reading a run off a precondition. *)
Lemma wp_elim {A} (m : M S A) s (Q : A -> S -> Prop) X s' o :
  wp m s Q X -> m s = (s', o) ->
  match o with Ret a => Q a s' | Fail f => X f s' | Undefined => False end.
Proof. unfold wp. intros H E. by rewrite E in H. Qed.
End wp_rules.

Lemma wp_exec {S} (m : M S unit) s (Q : S -> Prop) (X : failure -> Prop) :
  wp m s (fun _ s' => Q s') (fun f _ => X f) ->
  match exec m s with Ret s' => Q s' | Fail f => X f | Undefined => False end.
Proof. unfold wp, exec. by destruct (m s) as [s' []]. Qed.

Lemma wp_zoom {S T A} (proj : S -> T) (put : T -> S -> S) (m : M T A) s Q X :
  wp m (proj s) (fun a t => Q a (put t s)) (fun f t => X f (put t s)) ->
  wp (zoom proj put m) s Q X.
Proof. unfold wp, zoom. destruct (m (proj s)) as [t []]; done. Qed.

(** ** Shared list and set lemmas *)

Lemma list_to_set_size_nodup `{Countable A} (l : list A) :
  NoDup l -> size (list_to_set l : gset A) = length l.
Proof.
  induction 1 as [|x l Hx Hl IH]; [done|]. simpl.
  rewrite size_union, size_singleton, IH; [done|]. set_solver.
Qed.

Section prefixes.
Context {A : Type}.
Implicit Types l k : list A.

Lemma prefix_take_eq l k n : l `prefix_of` k -> n <= length l -> take n k = take n l.
Proof. intros [r ->] Hn. by apply take_app_le. Qed.

Lemma prefix_is_take l k : l `prefix_of` k -> l = take (length l) k.
Proof. intros [r ->]. by rewrite take_app_length. Qed.

Lemma take_prefix_mono l n m : n <= m -> take n l `prefix_of` take m l.
Proof. intros Hn. rewrite <- (Nat.min_l n m), <- take_take by done. apply prefix_take. Qed.

Lemma take_prefix_of_take l k n m :
  take n l `prefix_of` k -> m <= n -> take m l `prefix_of` k.
Proof. intros Hp Hm. etrans; [by apply take_prefix_mono|done]. Qed.

Lemma take_eq_le l k n m : take n l = take n k -> m <= n -> take m l = take m k.
Proof.
  intros H Hm. rewrite <- (Nat.min_l m n) by done. rewrite <- !take_take. by rewrite H.
Qed.

Lemma take_eq_lookup l k n i : take n l = take n k -> i < n -> l !! i = k !! i.
Proof. intros H Hi. rewrite <- (lookup_take_lt l n), <- (lookup_take_lt k n) by done. by rewrite H. Qed.

Lemma take_prefix_lookup l k n i x :
  l !! i = Some x -> take n l `prefix_of` k -> i < n -> k !! i = Some x.
Proof. intros Hx Hp Hi. eapply prefix_lookup_Some, Hp. by rewrite lookup_take_lt. Qed.
End prefixes.

(** Two majorities of the same set share an element. *)
Lemma majorities_intersect `{Countable A} (X Q1 Q2 : gset A) :
  Q1 ⊆ X -> Q2 ⊆ X -> size X / 2 + 1 <= size Q1 -> size X / 2 + 1 <= size Q2 ->
  exists x, x ∈ Q1 /\ x ∈ Q2.
Proof.
  intros H1 H2 Hs1 Hs2.
  destruct (decide (Q1 ∩ Q2 ≡ ∅)) as [He|Hne].
  - exfalso. assert (size (Q1 ∪ Q2) <= size X) as Hle by (apply subseteq_size; set_solver).
    rewrite size_union in Hle by set_solver.
    pose proof (Nat.div_mod_eq (size X) 2) as Hd.
    pose proof (Nat.mod_upper_bound (size X) 2). lia.
  - apply set_choose in Hne as [x Hx]. exists x. set_solver.
Qed.
