(* ===== verification/Codec.v ===== *)
(** * Little-endian integers and byte streams

    The byte-level helpers of [src/src/storage/kv_store.cpp] ([write_uint64],
    [read_exact], [read_uint64]) and of [src/src/node/node_runtime.cpp]
    ([append_uint64], [read_uint64]).  Both files encode a [std::uint64_t] as
    eight bytes, least significant first; they differ in how they read. *)

From Stdlib Require Import NArith Lia Strings.Byte.
From stdpp Require Import base tactics numbers list strings.
From S2P Require Import Prelude.

(** [static_cast<unsigned char>(value)]. *)
Definition byte_of_N (x : N) : byte := default Byte.x00 (Byte.of_N (N.land x 255)).

(** The loop of [write_uint64] and of [append_uint64]. *)
Definition uint64_bytes (value : N) : bytes :=
  (fun index => byte_of_N (N.land (N.shiftr value (N.of_nat index * 8)) 255)) <$> seq 0 8.

(** The loop of both [read_uint64]: byte [index] goes to bits [8 * index] and up. *)
Fixpoint uint64_loop (bs : bytes) (index : N) (value : N) : N :=
  match bs with
  | [] => value
  | b :: bs => uint64_loop bs (index + 1) (N.lor value (N.shiftl (Byte.to_N b) (index * 8)))
  end.

Definition uint64_of_bytes (bs : bytes) : N := uint64_loop bs 0 0.

(** ** Round trips *)

Lemma to_N_byte_of_N x : Byte.to_N (byte_of_N x) = N.land x 255.
Proof.
  unfold byte_of_N. change 255%N with (N.ones 8). rewrite N.land_ones.
  assert (x mod 2 ^ 8 < 2 ^ 8)%N as Hlt by (apply N.mod_lt; lia).
  destruct (Byte.of_N (x mod 2 ^ 8)) as [b|] eqn:Hb; simpl.
  - by apply Byte.to_of_N in Hb.
  - apply Byte.of_N_None_iff in Hb. change (2 ^ 8)%N with 256%N in *. lia.
Qed.

Lemma byte_of_to_N b : byte_of_N (Byte.to_N b) = b.
Proof. by destruct b. Qed.

Lemma length_uint64_bytes v : length (uint64_bytes v) = 8.
Proof. done. Qed.

(** Adding the next byte of [v] to its low bytes. *)
Lemma low_bytes v k :
  N.lor (v mod 2 ^ (k * 8)) (N.shiftl (N.land (N.shiftr v (k * 8)) 255) (k * 8)) = (v mod 2 ^ ((k + 1) * 8))%N.
Proof.
  apply N.bits_inj. intros i. rewrite N.lor_spec. change 255%N with (N.ones 8).
  destruct (N.lt_ge_cases i (k * 8)) as [Hlow|Hhigh].
  - rewrite N.mod_pow2_bits_low by done. rewrite N.shiftl_spec_low by done.
    rewrite N.mod_pow2_bits_low by lia. by rewrite orb_false_r.
  - rewrite N.mod_pow2_bits_high by done. rewrite N.shiftl_spec_high' by done.
    rewrite N.land_spec, N.shiftr_spec'. replace (i - k * 8 + k * 8)%N with i by lia.
    destruct (N.lt_ge_cases i ((k + 1) * 8)) as [Hin|Hout].
    + rewrite N.ones_spec_low by lia. rewrite N.mod_pow2_bits_low by done. by rewrite andb_true_r.
    + rewrite N.ones_spec_high by lia. rewrite N.mod_pow2_bits_high by done. by rewrite andb_false_r.
Qed.

Lemma uint64_roundtrip v : is_u64 v -> uint64_of_bytes (uint64_bytes v) = v.
Proof.
  intros Hv. unfold uint64_of_bytes, uint64_bytes. cbn [seq fmap list_fmap uint64_loop].
  rewrite !to_N_byte_of_N, <- !N.land_assoc.
  change (N.land 255 255) with 255%N.
  replace 0%N with (v mod 2 ^ (0 * 8))%N at 1 by (by rewrite N.mod_1_r).
  repeat (rewrite low_bytes; cbn [N.add N.of_nat Pos.of_succ_nat Pos.add Pos.succ]).
  apply N.mod_small. exact Hv.
Qed.

Lemma to_N_lt b : (Byte.to_N b < 256)%N.
Proof. pose proof (Byte.to_N_bounded b). lia. Qed.

Lemma lor_lt_pow2 a b k : (a < 2 ^ k -> b < 2 ^ k -> N.lor a b < 2 ^ k)%N.
Proof.
  intros Ha Hb. assert (N.lor a b = N.lor a b mod 2 ^ k)%N as ->;
    [|apply N.mod_lt; by apply N.pow_nonzero].
  apply N.bits_inj. intros i. destruct (N.lt_ge_cases i k) as [Hi|Hi].
  - by rewrite N.mod_pow2_bits_low.
  - rewrite N.mod_pow2_bits_high by done.
    rewrite N.lor_spec, <- (N.mod_small a (2 ^ k)), <- (N.mod_small b (2 ^ k)) by done.
    by rewrite !N.mod_pow2_bits_high.
Qed.

Lemma uint64_loop_lt bs k v :
  (v < 2 ^ (k * 8))%N -> (uint64_loop bs k v < 2 ^ ((k + N.of_nat (length bs)) * 8))%N.
Proof.
  revert k v. induction bs as [|b bs IH]; intros k v Hv; simpl.
  - by rewrite N.add_0_r.
  - replace (k + N.of_nat (S (length bs)))%N with (k + 1 + N.of_nat (length bs))%N by lia.
    apply IH. pose proof (to_N_lt b). replace ((k + 1) * 8)%N with (k * 8 + 8)%N by lia.
    apply lor_lt_pow2; rewrite N.pow_add_r.
    + change (2 ^ 8)%N with 256%N. lia.
    + rewrite N.shiftl_mul_pow2. change (2 ^ 8)%N with 256%N.
      pose proof (N.pow_nonzero 2 (k * 8)). nia.
Qed.

Lemma uint64_of_bytes_u64 bs : length bs = 8 -> is_u64 (uint64_of_bytes bs).
Proof.
  intros Hlen. unfold is_u64, uint64_of_bytes.
  pose proof (uint64_loop_lt bs 0 0 ltac:(done)) as H. rewrite Hlen in H. exact H.
Qed.

(** Reading and writing are inverse to each other: the encoding is canonical. *)

Lemma lor_shiftl_add a b k : (a < 2 ^ k)%N -> N.lor a (N.shiftl b k) = (a + 2 ^ k * b)%N.
Proof.
  intros Ha. assert (N.land a (N.shiftl b k) = 0)%N as Hland.
  { apply N.bits_inj. intros i. rewrite N.land_spec, N.bits_0.
    destruct (N.lt_ge_cases i k) as [Hi|Hi].
    - by rewrite N.shiftl_spec_low, andb_false_r.
    - rewrite <- (N.mod_small a (2 ^ k)) by done. by rewrite N.mod_pow2_bits_high. }
  rewrite <- N.lxor_lor, <- N.add_nocarry_lxor by done. rewrite N.shiftl_mul_pow2. lia.
Qed.

Lemma uint64_loop_add bs k v :
  (v < 2 ^ (k * 8))%N -> uint64_loop bs k v = (v + 2 ^ (k * 8) * uint64_of_bytes bs)%N.
Proof.
  revert k v. assert (forall k, 2 ^ ((k + 1) * 8) = 2 ^ (k * 8) * 256)%N as Hpow.
  { intros k. replace ((k + 1) * 8)%N with (k * 8 + 8)%N by lia. by rewrite N.pow_add_r. }
  induction bs as [|b bs IH]; intros k v Hv; [unfold uint64_of_bytes; simpl; lia|].
  pose proof (to_N_lt b) as Hb. unfold uint64_of_bytes. cbn [uint64_loop].
  rewrite (lor_shiftl_add v) by done.
  rewrite (IH (k + 1)%N) by (rewrite Hpow; nia).
  rewrite (IH (0 + 1)%N); [|rewrite Hpow, N.shiftl_0_r, N.lor_0_l; simpl; lia].
  rewrite !Hpow, N.lor_0_l, N.shiftl_0_r. simpl. lia.
Qed.

Lemma uint64_of_bytes_cons b bs :
  uint64_of_bytes (b :: bs) = (Byte.to_N b + 256 * uint64_of_bytes bs)%N.
Proof.
  pose proof (to_N_lt b). unfold uint64_of_bytes at 1. cbn [uint64_loop].
  rewrite N.lor_0_l, N.shiftl_0_r. rewrite uint64_loop_add by (simpl; lia). done.
Qed.

Definition low_bytes_of (n : nat) (v : N) : bytes :=
  (fun index => byte_of_N (N.land (N.shiftr v (N.of_nat index * 8)) 255)) <$> seq 0 n.

Lemma low_bytes_of_S n v :
  low_bytes_of (S n) v = byte_of_N v :: low_bytes_of n (v / 256).
Proof.
  unfold low_bytes_of. cbn [seq]. rewrite fmap_cons. f_equal.
  - cbn [N.of_nat N.mul]. rewrite N.shiftr_0_r. unfold byte_of_N. by rewrite <- N.land_assoc.
  - rewrite <- seq_shift, <- list_fmap_compose. apply list_fmap_ext. intros i x _. simpl.
    f_equal. f_equal. rewrite !N.shiftr_div_pow2.
    replace (N.of_nat (S x) * 8)%N with (8 + N.of_nat x * 8)%N by lia.
    rewrite N.pow_add_r, <- N.Div0.div_div. done.
Qed.

Lemma low_bytes_of_bytes bs : low_bytes_of (length bs) (uint64_of_bytes bs) = bs.
Proof.
  induction bs as [|b bs IH]; [done|]. cbn [length]. rewrite low_bytes_of_S, uint64_of_bytes_cons.
  pose proof (to_N_lt b) as Hb.
  replace ((Byte.to_N b + 256 * uint64_of_bytes bs) / 256)%N with (uint64_of_bytes bs)
    by (apply (N.div_unique _ _ _ (Byte.to_N b)); lia).
  rewrite IH. f_equal. rewrite <- (byte_of_to_N b) at 2. unfold byte_of_N. do 2 f_equal.
  change 255%N with (N.ones 8). rewrite !N.land_ones. change (2 ^ 8)%N with 256%N.
  rewrite N.mul_comm, N.Div0.mod_add. done.
Qed.

Lemma uint64_bytes_of_bytes bs : length bs = 8 -> uint64_bytes (uint64_of_bytes bs) = bs.
Proof. intros Hlen. rewrite <- (low_bytes_of_bytes bs) at 2. by rewrite Hlen. Qed.
