(* ===== verification/KvInterface.v ===== *)
(** * The key-value store contract and its in-memory implementation

    Models [src/include/ftkv/store/key_value_store.hpp] (the [KeyValueStore]
    interface), [src/include/ftkv/store/in_memory_key_value_store.hpp] with
    [src/src/store/in_memory_key_value_store.cpp], and the [Persistence] interface
    of [src/src/storage/kv_store.h].  Each interface is a class of operations and a
    class of laws; clients are proved against the laws. *)

From Stdlib Require Import NArith Lia.
From stdpp Require Import base tactics numbers list gmap strings.
From S2P Require Import Prelude.

(** [std::unordered_map<std::string, std::string>]. *)
Abbreviation EntryMap := (gmap bytes bytes).

(** ** [KeyValueStore] *)
Class KeyValueStore (S : Type) := {
  kv_put : bytes -> bytes -> M S unit;
  kv_get : bytes -> M S (option bytes);
  kv_erase : bytes -> M S bool
}.

(** A store is a finite map.  An operation that throws leaves the map alone. *)
Class KeyValueStoreSpec (S : Type) `{KeyValueStore S} := {
  kv_inv : S -> Prop;
  kv_entries : S -> EntryMap;
  kv_put_spec : forall k v s, kv_inv s ->
    wp (kv_put k v) s
      (fun _ s' => kv_inv s' /\ kv_entries s' = <[k := v]> (kv_entries s))
      (fun f s' => f <> Crash -> kv_inv s' /\ kv_entries s' = kv_entries s);
  kv_get_spec : forall k s, kv_inv s ->
    wp (kv_get k) s (fun r s' => s' = s /\ r = kv_entries s !! k) (fun _ _ => False);
  kv_erase_spec : forall k s, kv_inv s ->
    wp (kv_erase k) s
      (fun b s' => kv_inv s' /\ kv_entries s' = delete k (kv_entries s) /\
         b = bool_decide (is_Some (kv_entries s !! k)))
      (fun f s' => f <> Crash -> kv_inv s' /\ kv_entries s' = kv_entries s)
}.

(** ** [InMemoryKeyValueStore] *)
Record InMemoryKeyValueStore := mkInMemoryStore { mem_entries_ : EntryMap }.

Definition mem_put (key value : bytes) : M InMemoryKeyValueStore unit :=
  modify (fun s => mkInMemoryStore (<[key := value]> (mem_entries_ s))).

Definition mem_get (key : bytes) : M InMemoryKeyValueStore (option bytes) :=
  gets (fun s => mem_entries_ s !! key).

(** [unordered_map::erase] returns the number of elements it removed. *)
Definition mem_erase (key : bytes) : M InMemoryKeyValueStore bool :=
  s ← get;
  modify (fun s => mkInMemoryStore (delete key (mem_entries_ s)));;
  mret (bool_decide (is_Some (mem_entries_ s !! key))).

#[export] Instance InMemory_kv : KeyValueStore InMemoryKeyValueStore := {
  kv_put := mem_put;
  kv_get := mem_get;
  kv_erase := mem_erase
}.

#[export, refine] Instance InMemory_kv_spec : KeyValueStoreSpec InMemoryKeyValueStore := {
  kv_inv := fun _ => True;
  kv_entries := mem_entries_
}.
Proof. all: by intros. Defined.

(** ** [Persistence] *)
Class Persistence (P : Type) := {
  p_load : M P EntryMap;
  p_save : EntryMap -> M P unit
}.

(** [p_content] is the last snapshot that was saved.  A save that throws leaves
    it alone; a process that dies during a save leaves the old or the new one. *)
Class PersistenceSpec (P : Type) `{Persistence P} := {
  p_ok : P -> Prop;
  p_content : P -> EntryMap;
  p_load_spec : forall s, p_ok s ->
    wp p_load s
      (fun m s' => p_ok s' /\ p_content s' = p_content s /\ m = p_content s)
      (fun _ s' => p_ok s' /\ p_content s' = p_content s);
  p_save_spec : forall m s, p_ok s ->
    wp (p_save m) s
      (fun _ s' => p_ok s' /\ p_content s' = m)
      (fun f s' => p_ok s' /\
         match f with
         | Exn _ => p_content s' = p_content s
         | Crash => p_content s' = p_content s \/ p_content s' = m
         end)
}.
