(* ===== verification/KvStore.v ===== *)
(** * The durable key-value store

    Models class [KvStore] of [src/src/storage/kv_store.h] and
    [src/src/storage/kv_store.cpp] over any [Persistence]: every update is saved
    before it becomes visible. *)

From Stdlib Require Import NArith Lia.
From stdpp Require Import base tactics numbers list gmap strings.
From S2P Require Import Prelude KvInterface.

Section kv_store.
Context {P : Type} `{HP : Persistence P}.

Record KvStore := mkKvStore {
  persistence_ : P;
  entries_ : EntryMap
}.

Definition set_persistence_ (p : P) (s : KvStore) : KvStore := mkKvStore p (entries_ s).

Definition save_entries (m : EntryMap) : M KvStore unit :=
  zoom persistence_ set_persistence_ (p_save m).

(** The constructor; [None] is a null pointer. *)
Definition open_store (p : option P) : option P * outcome KvStore :=
  match p with
  | None => (None, Fail (Exn (InvalidArgument "persistence must not be null")))
  | Some p =>
    match p_load p with
    | (p', Ret m) => (Some p', Ret (mkKvStore p' m))
    | (p', Fail f) => (Some p', Fail f)
    | (p', Undefined) => (Some p', Undefined)
    end
  end.

Definition put (key value : bytes) : M KvStore unit :=
  s ← get;
  let updated_entries := <[key := value]> (entries_ s) in
  save_entries updated_entries;;
  modify (fun s => mkKvStore (persistence_ s) updated_entries).

Definition get_value (key : bytes) : M KvStore (option bytes) :=
  gets (fun s => entries_ s !! key).

Definition erase (key : bytes) : M KvStore bool :=
  s ← get;
  match entries_ s !! key with
  | None => mret false
  | Some _ =>
    let updated_entries := delete key (entries_ s) in
    save_entries updated_entries;;
    modify (fun s => mkKvStore (persistence_ s) updated_entries);;
    mret true
  end.

#[export] Instance KvStore_kv : KeyValueStore KvStore := {
  kv_put := put;
  kv_get := get_value;
  kv_erase := erase
}.

Context `{HSpec : !PersistenceSpec P}.

(** The visible map is the saved one. *)
Definition store_inv (s : KvStore) : Prop :=
  p_ok (persistence_ s) /\ entries_ s = p_content (persistence_ s).

(** ** Every update is all or nothing, on the medium and in memory *)

Lemma wp_save_entries m s (Q : unit -> KvStore -> Prop) (X : failure -> KvStore -> Prop) :
  p_ok (persistence_ s) ->
  (forall p, p_ok p -> p_content p = m -> Q tt (mkKvStore p (entries_ s))) ->
  (forall f p, p_ok p ->
     match f with
     | Exn _ => p_content p = p_content (persistence_ s)
     | Crash => p_content p = p_content (persistence_ s) \/ p_content p = m
     end -> X f (mkKvStore p (entries_ s))) ->
  wp (save_entries m) s Q X.
Proof.
  intros Hs HQ HX. apply wp_zoom. eapply wp_mono; [by apply p_save_spec| |].
  - intros [] p [Hp Hm]. by apply HQ.
  - intros f p [Hp Hf]. by apply HX.
Qed.

(** What an update to [m] may leave behind. *)
Definition updated (s : KvStore) (m : EntryMap) (f : failure) (s' : KvStore) : Prop :=
  p_ok (persistence_ s') /\ entries_ s' = entries_ s /\
  match f with
  | Exn _ => p_content (persistence_ s') = p_content (persistence_ s)
  | Crash => p_content (persistence_ s') = p_content (persistence_ s) \/
             p_content (persistence_ s') = m
  end.

Lemma wp_put k v s :
  store_inv s ->
  wp (put k v) s
    (fun _ s' => store_inv s' /\ entries_ s' = <[k := v]> (entries_ s))
    (updated s (<[k := v]> (entries_ s))).
Proof.
  intros [Hok Heq]. unfold put. apply wp_bind, wp_get, wp_bind. apply wp_save_entries; [done| |].
  - intros p Hp Hm. by apply wp_modify.
  - intros f p Hp Hf. by split_and!.
Qed.

Lemma wp_erase k s :
  store_inv s ->
  wp (erase k) s
    (fun b s' => store_inv s' /\ entries_ s' = delete k (entries_ s) /\
       b = bool_decide (is_Some (entries_ s !! k)) /\ (b = false -> s' = s))
    (updated s (delete k (entries_ s))).
Proof.
  intros [Hok Heq]. unfold erase. apply wp_bind, wp_get.
  destruct (entries_ s !! k) as [v|] eqn:Hk.
  - apply wp_bind, wp_save_entries; [done| |].
    + intros p Hp Hm. apply wp_bind, wp_modify, wp_ret. by rewrite bool_decide_eq_true_2.
    + intros f p Hp Hf. by split_and!.
  - apply wp_ret. rewrite delete_id by done. by rewrite bool_decide_eq_false_2 by (by intros []).
Qed.

(** The durable store meets the contract of [KeyValueStore]. *)
#[export, refine] Instance KvStore_kv_spec : KeyValueStoreSpec KvStore := {
  kv_inv := store_inv;
  kv_entries := entries_
}.
Proof.
  - intros k v s Hs. eapply wp_mono; [by apply wp_put|done|].
    intros f s' (Hok & He & Hf) Hne. destruct f as [e|]; [|done]. destruct Hs as [_ Hs].
    split; [|done]. split; [done|]. congruence.
  - by intros k s Hs.
  - intros k s Hs. eapply wp_mono; [by apply wp_erase| |].
    + intros b s' (? & ? & ? & _). done.
    + intros f s' (Hok & He & Hf) Hne. destruct f as [e|]; [|done]. destruct Hs as [_ Hs].
      split; [|done]. split; [done|]. congruence.
Defined.

(** Reopening after any history gives the content of the medium. *)
Lemma open_store_spec p :
  p_ok p ->
  match open_store (Some p) with
  | (Some p', Ret s) => store_inv s /\ persistence_ s = p' /\ entries_ s = p_content p
  | (Some p', Fail _) => p_ok p' /\ p_content p' = p_content p
  | _ => False
  end.
Proof.
  intros Hp. pose proof (p_load_spec p Hp) as H. unfold wp in H. simpl.
  destruct (p_load p) as [p' [m|f|]]; [|done|done]. destruct H as (Hok & Hc & ->).
  split; [|done]. by split; simpl.
Qed.
End kv_store.

Arguments KvStore P : clear implicits.
