(* ===== verification/FilePersistence.v ===== *)
(** * Snapshots in a file

    Models class [FilePersistence] of [src/src/storage/kv_store.h] and
    [src/src/storage/kv_store.cpp]: the file format, its validation on load, and
    the save through a temporary file that replaces the old snapshot by a rename.

    The operating system is a finite map from paths to contents, a set of
    directories, and a plan that says of each call whether it works, fails, or is
    where the process dies.  A rename happens or does not; everything else may
    happen in part.  The output stream buffers what it is given: bytes reach the
    file when the buffer spills, on [flush] and on [close], each of which may fail
    and lose the rest.  Losing data the operating system has accepted (a power
    failure) is outside the model: the code calls no [fsync]. *)

From Stdlib Require Import NArith Lia Strings.Byte Strings.String.
From stdpp Require Import base tactics numbers list gmap strings.
From S2P Require Import Prelude Codec KvInterface.

Abbreviation path := bytes (only parsing).

(** ** The file system *)

(** What happens to a call.  [k] is the number of bytes that still reach the file:
    of a buffered write that works, those the buffer spills early; of a call that
    fails or dies, those that got out before. *)
Inductive fault := Fine (k : nat) | Error (k : nat) | Death (k : nat).

Record Fs := mkFs {
  fs_files : gmap path bytes;
  fs_dirs : gset path;
  fs_plan : list fault
}.

Definition set_files (f : gmap path bytes -> gmap path bytes) (fs : Fs) : Fs :=
  mkFs (f (fs_files fs)) (fs_dirs fs) (fs_plan fs).

(** What the plan says about the next call; an empty plan has no faults. *)
Definition next_fault : M Fs fault := fun fs =>
  match fs_plan fs with
  | [] => (fs, Ret (Fine 0))
  | x :: plan => (mkFs (fs_files fs) (fs_dirs fs) plan, Ret x)
  end.

(** [std::filesystem::path::parent_path] on POSIX paths. *)
Definition slash : byte := Byte.x2f.

Fixpoint drop_while (f : byte -> bool) (l : bytes) : bytes :=
  match l with
  | [] => []
  | b :: l' => if f b then drop_while f l' else l
  end.

Definition parent_path (p : path) : path :=
  let is_slash b := bool_decide (b = slash) in
  match drop_while (fun b => negb (is_slash b)) (reverse p) with
  | [] => []
  | rest => match drop_while is_slash rest with [] => [slash] | dir => reverse dir end
  end.

(** A directory and everything above it. *)
Fixpoint ancestors (fuel : nat) (p : path) : list path :=
  match fuel with
  | O => [p]
  | S fuel => p :: (if decide (parent_path p = [] \/ parent_path p = p) then []
                    else ancestors fuel (parent_path p))
  end.

Definition dir_exists (p : path) (fs : Fs) : bool :=
  bool_decide (p = []) || bool_decide (p = [slash]) || bool_decide (p ∈ fs_dirs fs).

(** [std::filesystem::exists] with an error code: [None] is an error. *)
Definition exists_file (p : path) : M Fs (option bool) :=
  x ← next_fault;
  match x with
  | Fine _ => gets (fun fs => Some (bool_decide (is_Some (fs_files fs !! p))))
  | Error _ => mret None
  | Death _ => fail Crash
  end.

(** [std::ifstream]: [None] is not open. *)
Definition open_read (p : path) : M Fs (option bytes) :=
  x ← next_fault;
  match x with
  | Fine _ => gets (fun fs => fs_files fs !! p)
  | Error _ => mret None
  | Death _ => fail Crash
  end.

(** What the reads of an open file get.  To the stream a read error after [k] bytes
    is like the end of the file: [read] fails, and [peek] gives [eof]. *)
Definition read_stream (data : bytes) : M Fs bytes :=
  x ← next_fault;
  match x with
  | Fine _ => mret data
  | Error k => mret (take k data)
  | Death _ => fail Crash
  end.

Definition create_directories (p : path) : M Fs bool :=
  x ← next_fault;
  match x with
  | Fine _ =>
      modify (fun fs => mkFs (fs_files fs)
        (list_to_set (ancestors (List.length p) p) ∪ fs_dirs fs) (fs_plan fs));;
      mret true
  | Error _ => mret false
  | Death _ => fail Crash
  end.

(** [std::ofstream] with [std::ios::trunc]. *)
Definition open_trunc (p : path) : M Fs bool :=
  x ← next_fault;
  match x with
  | Fine _ =>
      fs ← get;
      if dir_exists (parent_path p) fs
      then modify (set_files (insert p []));; mret true
      else mret false
  | Error _ => mret false
  | Death O => fail Crash
  | Death (S _) => modify (set_files (insert p []));; fail Crash
  end.

Definition append_file (p : path) (data : bytes) (fs : Fs) : Fs :=
  set_files (alter (fun old => old ++ data) p) fs.

Definition move_file (p q : path) (files : gmap path bytes) : gmap path bytes :=
  match files !! p with
  | Some data => <[q := data]> (delete p files)
  | None => files
  end.

Definition rename_file (p q : path) : M Fs bool :=
  x ← next_fault;
  match x with
  | Fine _ =>
      fs ← get;
      match fs_files fs !! p with
      | Some _ => modify (set_files (move_file p q));; mret true
      | None => mret false
      end
  | Error _ => mret false
  | Death O => fail Crash
  | Death (S _) => modify (set_files (move_file p q));; fail Crash
  end.

(** [remove_if_present]: errors are ignored. *)
Definition remove_if_present (p : path) : M Fs unit :=
  x ← next_fault;
  match x with
  | Fine _ => modify (set_files (delete p))
  | Error _ => mret tt
  | Death O => fail Crash
  | Death (S _) => modify (set_files (delete p));; fail Crash
  end.

(** ** The file format *)

Definition kFileMagic : bytes := bytes_of "FTKVSTR1".
Definition kMaximumEntries : N := 1000000.
Definition kMaximumFieldBytes : N := 64 * 1024 * 1024.

Definition error_message (action : string) (p : path) : string :=
  (action ++ ": " ++ String.string_of_list_byte p)%string.

(** Reading: the stream is what is left of the file. *)
Definition read_exact (size : N) : M bytes bytes := fun input =>
  if (N.of_nat (List.length input) <? size)%N
  then ([], Fail (Exn (StorageError "storage snapshot is truncated")))
  else (drop (N.to_nat size) input, Ret (take (N.to_nat size) input)).

Definition read_uint64 : M bytes N := bs ← read_exact 8; mret (uint64_of_bytes bs).

Definition read_field : M bytes bytes :=
  size ← read_uint64;
  if (kMaximumFieldBytes <? size)%N || (u64_max <? size)%N
  then throw (StorageError "invalid key or value size in storage snapshot")
  else read_exact size.

Fixpoint read_entries (file_path : path) (count : nat) (entries : EntryMap) : M bytes EntryMap :=
  match count with
  | O => mret entries
  | S count =>
    key ← read_field;
    value ← read_field;
    match entries !! key with
    | Some _ => throw (StorageError (error_message "duplicate key in storage file" file_path))
    | None => read_entries file_path count (<[key := value]> entries)
    end
  end.

(** [load] after the file is open. *)
Definition read_snapshot (file_path : path) : M bytes EntryMap :=
  magic ← read_exact 8;
  if decide (magic <> kFileMagic)
  then throw (StorageError (error_message "unsupported storage file format" file_path))
  else
    entry_count ← read_uint64;
    if (kMaximumEntries <? entry_count)%N
    then throw (StorageError (error_message "invalid entry count in storage file" file_path))
    else
      entries ← read_entries file_path (N.to_nat entry_count) ∅;
      rest ← get;
      if decide (rest <> [])
      then throw (StorageError (error_message "unexpected data at end of storage file" file_path))
      else mret entries.

(** ** [FilePersistence] *)

Definition make_persistence (file_path : path) : outcome path :=
  if decide (file_path = []) then Fail (Exn (InvalidArgument "storage file path must not be empty"))
  else Ret file_path.

Definition load_file (file_path : path) : M Fs EntryMap :=
  present ← exists_file file_path;
  match present with
  | None => throw (StorageError (error_message "failed to inspect storage file" file_path))
  | Some false => mret ∅
  | Some true =>
    input ← open_read file_path;
    match input with
    | None => throw (StorageError (error_message "failed to open storage file" file_path))
    | Some data => stream ← read_stream data; lift (read_snapshot file_path stream).2
    end
  end.

(** ** [std::ofstream]

    The stream owns a buffer of bytes it has accepted but not handed to the file,
    and a state that stays bad after the first error; [if (!output)] tests it. *)
Record Writer := mkWriter {
  w_fs : Fs;
  w_path : path;
  w_open : bool;
  w_pending : bytes;
  w_good : bool
}.

Definition set_w_fs (fs : Fs) (w : Writer) : Writer :=
  mkWriter fs (w_path w) (w_open w) (w_pending w) (w_good w).
Definition set_w_open (b : bool) (w : Writer) : Writer :=
  mkWriter (w_fs w) (w_path w) b (w_pending w) (w_good w).
Definition set_w_good (b : bool) (w : Writer) : Writer :=
  mkWriter (w_fs w) (w_path w) (w_open w) (w_pending w) b.

(** [data] enters the buffer. *)
Definition buffer (data : bytes) (w : Writer) : Writer :=
  mkWriter (w_fs w) (w_path w) (w_open w) (w_pending w ++ data) (w_good w).

(** The first [k] bytes of the buffer go to the file, the rest stays. *)
Definition spill (k : nat) (w : Writer) : Writer :=
  mkWriter (append_file (w_path w) (take k (w_pending w)) (w_fs w)) (w_path w) (w_open w)
    (drop k (w_pending w)) (w_good w).

Definition spill_all (w : Writer) : Writer := spill (List.length (w_pending w)) w.

(** A call on the file system next to the stream. *)
Definition on_fs {A} (m : M Fs A) : M Writer A := zoom w_fs set_w_fs m.

(** [output.write]: nothing is written to a stream in a bad state. *)
Definition stream_write (data : bytes) : M Writer unit :=
  good ← gets w_good;
  when good
    (modify (buffer data);;
     x ← on_fs next_fault;
     match x with
     | Fine k => modify (spill k)
     | Error k => modify (spill k);; modify (set_w_good false)
     | Death k => modify (spill k);; fail Crash
     end).

(** [output.flush] *)
Definition stream_flush : M Writer unit :=
  good ← gets w_good;
  when good
    (x ← on_fs next_fault;
     match x with
     | Fine _ => modify spill_all
     | Error k => modify (spill k);; modify (set_w_good false)
     | Death k => modify (spill k);; fail Crash
     end).

(** [output.close]: the file is closed even when the buffer cannot be written, and
    closing itself may report an error after everything was written. *)
Definition stream_close : M Writer unit :=
  x ← on_fs next_fault;
  match x with
  | Fine _ => modify spill_all;; modify (set_w_open false)
  | Error k => modify (spill k);; modify (set_w_open false);; modify (set_w_good false)
  | Death k => modify (spill k);; fail Crash
  end.

(** The destructor closes a stream that is still open and ignores errors. *)
Definition stream_destroy : M Writer unit :=
  is_open ← gets w_open;
  when is_open stream_close.

(** The scope of a local [std::ofstream output] that was opened or not: it is
    destroyed when the block ends, by a return or by an exception. *)
Definition scope_output (p : path) (is_open : bool) (body : M Writer unit) : M Fs unit := fun fs =>
  let '(w, o) := (try_finally body stream_destroy;; stream_destroy) (mkWriter fs p is_open [] is_open) in
  (w_fs w, o).

Definition with_output (p : path) (body : M Writer unit) : M Fs unit :=
  is_open ← open_trunc p;
  scope_output p is_open body.

(** A boolean result that must be true. *)
Definition require {S} (ok : M S bool) (message : string) : M S unit :=
  b ← ok; if (b : bool) then mret tt else throw (StorageError message).

Definition write_exact (data : bytes) : M Writer unit :=
  stream_write data;;
  require (gets w_good) "failed to write storage snapshot".

Definition write_uint64 (value : N) : M Writer unit :=
  write_exact (uint64_bytes value).

Definition write_field (field : bytes) : M Writer unit :=
  if (kMaximumFieldBytes <? N.of_nat (List.length field))%N
  then throw (StorageError "key or value exceeds the storage size limit")
  else write_uint64 (N.of_nat (List.length field));; write_exact field.

(** The order in which [std::unordered_map] is traversed is not specified: every
    order that visits each entry once. *)
Class IterationOrder := {
  iteration : EntryMap -> list (bytes * bytes);
  iteration_perm : forall m, iteration m ≡ₚ map_to_list m
}.

#[export, refine] Instance any_order : IterationOrder := { iteration := map_to_list }.
Proof. done. Defined.

Section save.
Context `{HO : IterationOrder}.

Definition temporary (file_path : path) : path := file_path ++ bytes_of ".tmp".

(** The body of the [try] block of [save]. *)
Definition write_snapshot (file_path : path) (entries : EntryMap) : M Fs unit :=
  let tmp := temporary file_path in
  with_output tmp
    (require (gets w_open) (error_message "failed to open temporary storage file" tmp);;
     write_exact kFileMagic;;
     write_uint64 (N.of_nat (size entries));;
     for_each (iteration entries) (fun kv => write_field kv.1;; write_field kv.2);;
     stream_flush;;
     require (gets w_good) (error_message "failed to flush storage file" tmp);;
     stream_close;;
     require (gets w_good) (error_message "failed to close storage file" tmp);;
     require (on_fs (rename_file tmp file_path)) (error_message "failed to replace storage file" file_path)).

Definition save_file (file_path : path) (entries : EntryMap) : M Fs unit :=
  if (kMaximumEntries <? N.of_nat (size entries))%N
  then throw (StorageError "entry count exceeds the storage size limit")
  else
    let parent := parent_path file_path in
    when (bool_decide (parent <> []))
      (require (create_directories parent)
         (error_message "failed to create storage directory" parent));;
    try_finally (write_snapshot file_path entries) (remove_if_present (temporary file_path)).
End save.
