(* ===== verification/FileSnapshot.v ===== *)
(** * Correctness of the snapshot file

    The file format round-trips; a save that returns has replaced the snapshot;
    a save that throws has left it alone and cleaned up; and a process that dies
    anywhere leaves the old or the new snapshot.  So [FilePersistence] meets the
    contract of [Persistence]. *)

From Stdlib Require Import NArith Lia Strings.Byte.
From stdpp Require Import base tactics numbers list gmap strings.
From S2P Require Import Prelude Codec KvInterface FilePersistence.

(** ** The format as a function *)

Definition field_bytes (f : bytes) : bytes := uint64_bytes (N.of_nat (length f)) ++ f.

Definition entry_bytes (kv : bytes * bytes) : bytes := field_bytes kv.1 ++ field_bytes kv.2.

Definition snapshot_bytes (l : list (bytes * bytes)) : bytes :=
  kFileMagic ++ uint64_bytes (N.of_nat (length l)) ++ concat (entry_bytes <$> l).

Definition field_fits (f : bytes) : Prop := (N.of_nat (length f) <= kMaximumFieldBytes)%N.

(** A map within the limits of the format. *)
Definition fits (m : EntryMap) : Prop :=
  (N.of_nat (size m) <= kMaximumEntries)%N /\
  forall k v, m !! k = Some v -> field_fits k /\ field_fits v.

Lemma read_exact_app data rest size :
  size = N.of_nat (length data) -> read_exact size (data ++ rest) = (rest, Ret data).
Proof.
  intros ->. unfold read_exact. rewrite length_app.
  destruct (N.ltb_spec (N.of_nat (length data + length rest)) (N.of_nat (length data))); [lia|].
  rewrite Nat2N.id. by rewrite take_app_length, drop_app_length.
Qed.

Lemma read_uint64_app v rest : is_u64 v -> read_uint64 (uint64_bytes v ++ rest) = (rest, Ret v).
Proof.
  intros Hv. unfold read_uint64, mbind, M_bind. rewrite read_exact_app by done.
  unfold mret, M_ret. by rewrite uint64_roundtrip.
Qed.

Lemma read_field_app f rest : field_fits f -> read_field (field_bytes f ++ rest) = (rest, Ret f).
Proof.
  intros Hf. unfold field_fits, kMaximumFieldBytes in Hf.
  unfold read_field, field_bytes, mbind, M_bind. rewrite <- app_assoc.
  rewrite read_uint64_app by (unfold is_u64; lia).
  unfold kMaximumFieldBytes.
  destruct (N.ltb_spec (64 * 1024 * 1024) (N.of_nat (length f))); [lia|].
  destruct (N.ltb_spec u64_max (N.of_nat (length f))); [lia|]. simpl. by apply read_exact_app.
Qed.

Lemma read_entries_app p l acc rest :
  NoDup l.*1 -> (forall k, k ∈ l.*1 -> acc !! k = None) ->
  Forall (fun kv => field_fits kv.1 /\ field_fits kv.2) l ->
  read_entries p (length l) acc (concat (entry_bytes <$> l) ++ rest) =
    (rest, Ret (list_to_map l ∪ acc)).
Proof.
  revert acc. induction l as [|[k v] l IH]; intros acc Hnd Hacc Hfit.
  - simpl. by rewrite (left_id_L ∅ (∪)).
  - apply NoDup_cons in Hnd as [Hk Hnd]. apply Forall_cons in Hfit as [[Hfk Hfv] Hfit].
    assert (concat (entry_bytes <$> (k, v) :: l) ++ rest =
      field_bytes k ++ field_bytes v ++ concat (entry_bytes <$> l) ++ rest) as ->
      by (rewrite fmap_cons; cbn [concat]; unfold entry_bytes at 1; by rewrite <- !app_assoc).
    cbn [length read_entries]. unfold mbind, M_bind.
    rewrite read_field_app by done. rewrite read_field_app by done.
    rewrite Hacc by set_solver. rewrite IH; [|done| |done].
    + cbn [list_to_map foldr fst snd]. f_equal. f_equal. rewrite <- insert_union_r by (by apply not_elem_of_list_to_map_1).
      by rewrite insert_union_l.
    + intros k' Hk'. rewrite lookup_insert_ne by set_solver. apply Hacc. set_solver.
Qed.

Section order.
Context `{HO : IterationOrder}.

Lemma iteration_length m : length (iteration m) = size m.
Proof. rewrite iteration_perm. by rewrite length_map_to_list. Qed.

Lemma iteration_fits m :
  (forall k v, m !! k = Some v -> field_fits k /\ field_fits v) ->
  Forall (fun kv => field_fits kv.1 /\ field_fits kv.2) (iteration m).
Proof.
  intros Hf. apply Forall_forall. intros [k v] Hkv. rewrite iteration_perm in Hkv.
  apply elem_of_map_to_list in Hkv. by apply Hf.
Qed.

Lemma fits_of_iteration m :
  Forall (fun kv => field_fits kv.1 /\ field_fits kv.2) (iteration m) ->
  forall k v, m !! k = Some v -> field_fits k /\ field_fits v.
Proof.
  intros Hfit k v Hkv. apply elem_of_map_to_list in Hkv. rewrite <- iteration_perm in Hkv.
  rewrite Forall_forall in Hfit. exact (Hfit _ Hkv).
Qed.

Lemma snapshot_bytes_read p m :
  fits m -> read_snapshot p (snapshot_bytes (iteration m)) = ([], Ret m).
Proof.
  intros [Hsize Hf]. unfold kMaximumEntries in Hsize. unfold read_snapshot, snapshot_bytes.
  unfold mbind, M_bind. rewrite read_exact_app by done.
  destruct (decide (kFileMagic <> kFileMagic)); [done|].
  rewrite iteration_length. rewrite read_uint64_app by (unfold is_u64; lia).
  unfold kMaximumEntries.
  destruct (N.ltb_spec 1000000 (N.of_nat (size m))); [lia|].
  rewrite Nat2N.id, <- iteration_length.
  rewrite <- (app_nil_r (concat _)), read_entries_app.
  - simpl. rewrite (right_id_L ∅ (∪)).
    assert (list_to_map (iteration m) = m) as ->; [|done].
    rewrite <- (list_to_map_to_list m) at 2. apply list_to_map_proper; [|apply iteration_perm].
    rewrite iteration_perm. apply NoDup_fst_map_to_list.
  - rewrite iteration_perm. apply NoDup_fst_map_to_list.
  - done.
  - by apply iteration_fits.
Qed.
End order.

(** ** Saving *)

(** Only [tmp] may differ. *)
Definition others (tmp : bytes) (fs fs' : Fs) : Prop :=
  forall p, p <> tmp -> fs_files fs' !! p = fs_files fs !! p.

Lemma others_trans tmp fs1 fs2 fs3 : others tmp fs1 fs2 -> others tmp fs2 fs3 -> others tmp fs1 fs3.
Proof. intros H1 H2 p Hp. by rewrite H2, H1. Qed.

(** The plan decides, and is the only thing that changes. *)
Lemma wp_next_fault fs (Q : fault -> Fs -> Prop) X :
  (forall x plan, Q x (mkFs (fs_files fs) (fs_dirs fs) plan)) -> wp next_fault fs Q X.
Proof. intros HQ. unfold wp, next_fault. destruct fs as [files dirs [|x plan]]; apply HQ. Qed.

Ltac fs_step :=
  lazymatch goal with
  | |- wp (mbind _ _) _ _ _ => apply wp_bind
  | |- wp next_fault _ _ _ => apply wp_next_fault; intros [?|[|?]|[|?]] ?
  | |- wp get _ _ _ => apply wp_get
  | |- wp (gets _) _ _ _ => apply wp_gets
  | |- wp (on_fs _) _ _ _ => apply wp_zoom
  | |- wp (modify _) _ _ _ => apply wp_modify
  | |- wp (mret _) _ _ _ => apply wp_ret
  | |- wp (throw _) _ _ _ => apply wp_throw
  | |- wp (fail _) _ _ _ => red
  end.
Ltac fs_steps := repeat fs_step; try done.

(** [touched]: only the temporary file may differ, however a call on the stream ended.
    [writing]: the stream is in order, and the file and the buffer hold [data]. *)
Definition touched (fs0 : Fs) (tmp : bytes) (w : Writer) : Prop :=
  w_path w = tmp /\ others tmp fs0 (w_fs w).

Record writing (fs0 : Fs) (tmp data : bytes) (w : Writer) : Prop := {
  wr_touched : touched fs0 tmp w;
  wr_open : w_open w = true;
  wr_good : w_good w = true;
  wr_data : exists out, fs_files (w_fs w) !! tmp = Some out /\ out ++ w_pending w = data
}.

Section writer.
Context (fs0 : Fs) (tmp : bytes).
Implicit Types (w : Writer) (X : failure -> Writer -> Prop).

Lemma touched_spill k w : touched fs0 tmp w -> touched fs0 tmp (spill k w).
Proof. intros [Hp Ho]. split; [done|]. intros p Hne. simpl. rewrite Hp, lookup_alter_ne by done. by apply Ho. Qed.

Lemma writing_buffer data d w : writing fs0 tmp data w -> writing fs0 tmp (data ++ d) (buffer d w).
Proof. intros [Ht Ho Hg (out & Hout & <-)]. split; [done..|]. exists out. simpl. by rewrite app_assoc. Qed.

Lemma writing_spill data k w : writing fs0 tmp data w -> writing fs0 tmp data (spill k w).
Proof.
  intros [Ht Ho Hg (out & Hout & <-)]. split; [by apply touched_spill|done..|].
  exists (out ++ take k (w_pending w)). destruct Ht as [Hp _]. simpl. rewrite Hp.
  by rewrite lookup_alter_eq, Hout, <- app_assoc, take_drop.
Qed.

(** A spill of the whole buffer leaves everything in the file. *)
Lemma writing_spill_all data w :
  writing fs0 tmp data w -> fs_files (w_fs (spill_all w)) !! tmp = Some data.
Proof.
  intros [[Hp _] _ _ (out & Hout & <-)]. unfold spill_all. simpl. rewrite Hp.
  by rewrite lookup_alter_eq, Hout, firstn_all.
Qed.

(** The rules of a stream call: how it goes on and how it fails. *)
Lemma wp_writer_fault data w (Q : fault -> Writer -> Prop) X :
  writing fs0 tmp data w -> (forall x w', writing fs0 tmp data w' -> Q x w') ->
  wp (on_fs next_fault) w Q X.
Proof. intros [? ? ? ?] HQ. apply wp_zoom, wp_next_fault. intros x plan. by apply HQ. Qed.

Lemma wp_check_good msg w (Q : unit -> Writer -> Prop) X :
  (w_good w = true -> Q tt w) -> (forall e, X (Exn e) w) -> wp (require (gets w_good) msg) w Q X.
Proof. intros HQ HX. unfold require. do 2 fs_step. destruct (w_good w); fs_steps; auto. Qed.

Lemma wp_write_exact data d w (Q : unit -> Writer -> Prop) X :
  writing fs0 tmp data w ->
  (forall w', writing fs0 tmp (data ++ d) w' -> Q tt w') -> (forall f w', touched fs0 tmp w' -> X f w') ->
  wp (write_exact d) w Q X.
Proof.
  intros Hw HQ HX. unfold write_exact, stream_write. do 3 fs_step. rewrite (wr_good _ _ _ _ Hw).
  cbn [when]. do 2 fs_step. fs_step. eapply wp_writer_fault; [by apply writing_buffer|].
  intros x w1 Hw1. destruct x as [k|k|k]; pose proof (writing_spill _ k _ Hw1) as Hs; repeat fs_step;
    [|apply wp_check_good; [done|]; intros e|]; try (by apply HX, Hs).
  apply wp_check_good; [by intros _; apply HQ|]. intros e. apply HX, Hs.
Qed.

Lemma wp_write_field data d w (Q : unit -> Writer -> Prop) X :
  writing fs0 tmp data w ->
  (forall w', field_fits d -> writing fs0 tmp (data ++ field_bytes d) w' -> Q tt w') ->
  (forall f w', touched fs0 tmp w' -> X f w') ->
  wp (write_field d) w Q X.
Proof.
  intros Hw HQ HX. unfold write_field.
  destruct (N.ltb_spec kMaximumFieldBytes (N.of_nat (length d))) as [|Hfit].
  { apply wp_throw, HX, Hw. }
  apply wp_bind. unfold write_uint64. eapply wp_write_exact; [done| |done].
  intros w1 H1. eapply wp_write_exact; [done| |done].
  intros w2 H2. apply HQ; [done|]. unfold field_bytes. by rewrite app_assoc.
Qed.

Lemma wp_write_entries l data w (Q : unit -> Writer -> Prop) X :
  writing fs0 tmp data w ->
  (forall w', Forall (fun kv => field_fits kv.1 /\ field_fits kv.2) l ->
     writing fs0 tmp (data ++ concat (entry_bytes <$> l)) w' -> Q tt w') ->
  (forall f w', touched fs0 tmp w' -> X f w') ->
  wp (for_each l (fun kv => write_field kv.1;; write_field kv.2)) w Q X.
Proof.
  intros Hw HQ HX. revert data w Hw HQ. induction l as [|kv l IH]; intros data w Hw HQ; simpl.
  - apply wp_ret, HQ; [constructor|]. by rewrite app_nil_r.
  - apply wp_bind, wp_bind. eapply wp_write_field; [done| |done]. intros w1 Hf1 H1.
    eapply wp_write_field; [done| |done]. intros w2 Hf2 H2.
    eapply IH; [done|]. intros w3 Hf3 H3. apply HQ; [by constructor|].
    rewrite fmap_cons. cbn [concat]. unfold entry_bytes at 1. by rewrite <- !app_assoc in *.
Qed.

(** A flush puts everything into the file, or the stream is bad. *)
Lemma wp_flush data w (Q : unit -> Writer -> Prop) X :
  writing fs0 tmp data w ->
  (forall w', touched fs0 tmp w' -> (w_good w' = true -> writing fs0 tmp data w') -> Q tt w') ->
  (forall f w', touched fs0 tmp w' -> X f w') ->
  wp stream_flush w Q X.
Proof.
  intros Hw HQ HX. unfold stream_flush. do 2 fs_step. rewrite (wr_good _ _ _ _ Hw).
  cbn [when]. fs_step. eapply wp_writer_fault; [done|]. intros x w1 Hw1.
  pose proof (fun k => writing_spill _ k _ Hw1) as Hs. unfold spill_all.
  destruct x as [k|k|k]; repeat fs_step; try (by apply HX, Hs); by apply HQ; [apply Hs|].
Qed.

(** A close leaves exactly the data in the file, or the stream is bad. *)
Lemma wp_close data w (Q : unit -> Writer -> Prop) X :
  writing fs0 tmp data w ->
  (forall w', touched fs0 tmp w' -> w_open w' = false ->
     (w_good w' = true -> fs_files (w_fs w') !! tmp = Some data) -> Q tt w') ->
  (forall f w', touched fs0 tmp w' -> X f w') ->
  wp stream_close w Q X.
Proof.
  intros Hw HQ HX. unfold stream_close. fs_step. eapply wp_writer_fault; [done|].
  intros x w1 Hw1. pose proof (fun k => touched_spill k _ (wr_touched _ _ _ _ Hw1)) as Hs.
  destruct x as [k|k|k]; repeat fs_step; try (by apply HX); apply HQ; try done; try apply Hs.
  intros _. by apply writing_spill_all.
Qed.

(** The destructor. *)
Lemma wp_destroy w (Q : unit -> Writer -> Prop) X :
  touched fs0 tmp w ->
  (forall w', touched fs0 tmp w' -> Q tt w') -> (forall f w', touched fs0 tmp w' -> X f w') ->
  wp stream_destroy w Q X.
Proof.
  intros [Hp Ho] HQ HX. unfold stream_destroy. do 2 fs_step. apply wp_when; intros _; [|by apply HQ].
  unfold stream_close. fs_step. apply wp_zoom, wp_next_fault. intros x plan.
  set (w1 := set_w_fs _ w). assert (touched fs0 tmp w1) as Hw1 by done.
  pose proof (fun k => touched_spill k _ Hw1) as Hs. clearbody w1.
  destruct x as [k|k|k]; fs_steps; (apply HQ || apply HX); apply Hs.
Qed.
End writer.

(** The file at [path] holds the snapshot of [m], all else is as before. *)
Definition replaced `{IterationOrder} (path : bytes) (m : EntryMap) (fs fs' : Fs) : Prop :=
  fs_files fs' !! path = Some (snapshot_bytes (iteration m)) /\
  fs_files fs' !! temporary path = None /\
  (forall p, p <> path -> p <> temporary path -> fs_files fs' !! p = fs_files fs !! p) /\
  forall k v, m !! k = Some v -> field_fits k /\ field_fits v.

Lemma temporary_ne path : path <> temporary path.
Proof.
  unfold temporary. intros H%(f_equal length). rewrite length_app in H. simpl in H. lia.
Qed.

Section save.
Context `{HO : IterationOrder}.

Lemma moved_replaced path m fs fs' :
  others (temporary path) fs fs' ->
  (forall k v, m !! k = Some v -> field_fits k /\ field_fits v) ->
  fs_files fs' !! temporary path = Some (snapshot_bytes (iteration m)) ->
  forall fs'', fs_files fs'' = move_file (temporary path) path (fs_files fs') ->
  replaced path m fs fs''.
Proof.
  intros Ho Hfit Hd fs'' Heq. unfold replaced. rewrite Heq. unfold move_file. rewrite Hd.
  pose proof (temporary_ne path). split; [by rewrite lookup_insert_eq|].
  split; [by rewrite lookup_insert_ne, lookup_delete_eq|]. split; [|done].
  intros p Hp Hp'. rewrite lookup_insert_ne, lookup_delete_ne by done. by apply Ho.
Qed.

(** The stream is destroyed before the handler runs. *)
Lemma wp_scope_output tmp is_open body fs0 fs (Q : unit -> Fs -> Prop) (X : failure -> Fs -> Prop) :
  wp body (mkWriter fs tmp is_open [] is_open)
    (fun _ w => w_open w = false /\ Q tt (w_fs w))
    (fun f w => touched fs0 tmp w \/ f = Crash /\ X Crash (w_fs w)) ->
  (forall f fs', others tmp fs0 fs' -> X f fs') ->
  wp (scope_output tmp is_open body) fs Q X.
Proof.
  intros Hbody HX.
  assert (wp (try_finally body stream_destroy;; stream_destroy) (mkWriter fs tmp is_open [] is_open)
    (fun _ w => Q tt (w_fs w)) (fun f w => X f (w_fs w))) as H.
  { apply wp_bind, wp_try_finally. eapply wp_mono; [exact Hbody| |].
    - intros [] w [Hcl HQ]. unfold stream_destroy. do 2 fs_step. by rewrite Hcl.
    - intros [e|] w [Ht|[Hf HC]]; [|done|apply HX, Ht|done].
      eapply wp_destroy; [done|intros w' [_ ?]; by apply HX|intros f w' [_ ?]; by apply HX]. }
  unfold scope_output, wp in *. clear Hbody.
  by destruct ((try_finally body stream_destroy;; stream_destroy) _) as [w [[]|f|]].
Qed.

(** Opening truncates the temporary file. *)
Lemma wp_open_trunc tmp fs (Q : bool -> Fs -> Prop) (X : failure -> Fs -> Prop) :
  (forall fs', others tmp fs fs' -> fs_files fs' !! tmp = Some [] -> Q true fs') ->
  (forall fs', others tmp fs fs' -> Q false fs') -> (forall fs', others tmp fs fs' -> X Crash fs') ->
  wp (open_trunc tmp) fs Q X.
Proof.
  intros HQ HF HX. unfold open_trunc.
  assert (forall plan, others tmp fs (set_files (insert tmp []) (mkFs (fs_files fs) (fs_dirs fs) plan))) as Ho
    by (intros plan p Hp; simpl; by rewrite lookup_insert_ne).
  fs_steps; try (by apply HF); try (by apply HX).
  destruct (dir_exists _ _); fs_steps; [|by apply HF].
  apply HQ; [apply Ho|]. simpl. by rewrite lookup_insert_eq.
Qed.

Lemma wp_rename_snapshot path m fs0 fs (Q : bool -> Fs -> Prop) (X : failure -> Fs -> Prop) :
  others (temporary path) fs0 fs -> fs_files fs !! temporary path = Some (snapshot_bytes (iteration m)) ->
  (forall k v, m !! k = Some v -> field_fits k /\ field_fits v) ->
  (forall fs', replaced path m fs0 fs' -> Q true fs' /\ X Crash fs') ->
  (forall fs', others (temporary path) fs0 fs' -> Q false fs' /\ X Crash fs') ->
  wp (rename_file (temporary path) path) fs Q X.
Proof.
  intros Ho Hd Hfit HQ HF. unfold rename_file.
  fs_steps; try (by apply HF).
  - simpl. rewrite Hd. fs_steps. apply HQ. by eapply moved_replaced.
  - apply HQ. by eapply moved_replaced.
Qed.

Lemma wp_write_snapshot path m fs (Q : unit -> Fs -> Prop) (X : failure -> Fs -> Prop) :
  (forall fs', replaced path m fs fs' -> Q tt fs') ->
  (forall f fs', others (temporary path) fs fs' -> X f fs') ->
  (forall fs', replaced path m fs fs' -> X Crash fs') ->
  wp (write_snapshot path m) fs Q X.
Proof.
  intros HQ HX HC. unfold write_snapshot, with_output. apply wp_bind, wp_open_trunc; [| |by apply HX];
    intros fs1 Ho1; [intros H1|]; (eapply wp_scope_output; [|exact HX]); apply wp_bind; unfold require at 1;
    do 2 fs_step; simpl; fs_steps; [|by left].
  assert (writing fs (temporary path) [] (mkWriter fs1 (temporary path) true [] true)) as Hw
    by (split; [done..|by exists []]).
  revert Hw. generalize (mkWriter fs1 (temporary path) true [] true). intros w Hw.
  assert (forall (f : failure) w', touched fs (temporary path) w' ->
    touched fs (temporary path) w' \/ f = Crash /\ X Crash (w_fs w')) as HT by auto.
  eapply wp_write_exact; [done| |exact HT]. clear w Hw. intros w Hw. apply wp_bind.
  unfold write_uint64. eapply wp_write_exact; [done| |exact HT]. clear w Hw. intros w Hw. apply wp_bind.
  eapply wp_write_entries; [done| |exact HT]. clear w Hw. intros w Hfit Hw. apply wp_bind.
  pose proof (fits_of_iteration m Hfit) as Hfits.
  eapply wp_flush; [done| |exact HT]. clear w Hw. intros w Ht Hw. apply wp_bind, wp_check_good; [|by auto].
  intros Hg. specialize (Hw Hg). apply wp_bind.
  eapply wp_close; [done| |exact HT]. clear w Ht Hw Hg. intros w [Hp Ho] Hcl Hd.
  apply wp_bind, wp_check_good; [|by left]. intros Hg. specialize (Hd Hg).
  rewrite <- !app_assoc in Hd. unfold require. apply wp_bind, wp_zoom. eapply (wp_rename_snapshot path m fs).
  - done.
  - rewrite Hd. unfold snapshot_bytes. by rewrite iteration_length.
  - done.
  - intros fs' Hr. split; [|by right; auto]. by split; [|apply HQ].
  - intros fs' Hr. split; [|by left]. by left.
Qed.

Lemma wp_remove p fs (Q : unit -> Fs -> Prop) (X : failure -> Fs -> Prop) :
  (forall fs', others p fs fs' -> Q tt fs') -> (forall fs', others p fs fs' -> X Crash fs') ->
  wp (remove_if_present p) fs Q X.
Proof.
  intros HQ HX. unfold remove_if_present. fs_steps; try (by apply HQ); try (by apply HX).
  - apply HQ. intros q Hq. simpl. by rewrite lookup_delete_ne.
  - apply HX. intros q Hq. simpl. by rewrite lookup_delete_ne.
Qed.

(** What a save leaves, however it ends. *)
Lemma wp_save_file path m fs :
  wp (save_file path m) fs
    (fun _ fs' => fits m /\ replaced path m fs fs')
    (fun f fs' => others (temporary path) fs fs' \/ f = Crash /\ fits m /\ replaced path m fs fs').
Proof.
  unfold save_file.
  destruct (N.ltb_spec kMaximumEntries (N.of_nat (size m))) as [|Hsize].
  { apply wp_throw. left. by intros p. }
  apply wp_bind.
  apply (wp_mono _ _ (fun _ fs1 => fs_files fs1 = fs_files fs) _
    (fun _ fs1 => fs_files fs1 = fs_files fs)).
  { apply wp_when; intros _; [|done]. unfold require, create_directories. fs_steps. }
  2:{ intros f fs1 H1. left. intros p _. by rewrite H1. }
  intros [] fs1 H1.
  assert (forall fs', replaced path m fs1 fs' -> fits m /\ replaced path m fs fs') as Hrep.
  { intros fs' (? & ? & Hp & ?). rewrite H1 in Hp. by split; [split|split_and!]. }
  assert (forall fs', others (temporary path) fs1 fs' -> others (temporary path) fs fs') as Hoth.
  { intros fs' Ho p Hp. rewrite <- H1. by apply Ho. }
  apply wp_try_finally. apply wp_write_snapshot.
  - done.
  - intros f fs2 Ho%Hoth. destruct f as [e|]; [|by left].
    apply wp_remove; intros fs3 Ho3; left; by eapply others_trans.
  - intros fs2 Hr%Hrep. by right.
Qed.
End save.

(** ** Loading accepts nothing but snapshots *)

Lemma read_exact_inv size input rest data :
  read_exact size input = (rest, Ret data) ->
  input = data ++ rest /\ N.of_nat (length data) = size.
Proof.
  unfold read_exact. destruct (N.ltb_spec (N.of_nat (length input)) size); [done|].
  intros [= <- <-]. split; [by rewrite take_drop|]. rewrite length_take. lia.
Qed.

Lemma read_uint64_inv input rest v :
  read_uint64 input = (rest, Ret v) -> input = uint64_bytes v ++ rest.
Proof.
  unfold read_uint64, mbind, M_bind. destruct (read_exact 8 input) as [r [bs|f|]] eqn:Hr; [|done|done].
  apply read_exact_inv in Hr as [-> Hlen]. intros [= <- <-].
  rewrite uint64_bytes_of_bytes by lia. done.
Qed.

Lemma read_field_inv input rest f :
  read_field input = (rest, Ret f) -> input = field_bytes f ++ rest /\ field_fits f.
Proof.
  unfold read_field, mbind, M_bind. destruct (read_uint64 input) as [r [n|x|]] eqn:Hr; [|done|done].
  apply read_uint64_inv in Hr as ->. destruct (_ || _) eqn:Hb; [done|].
  apply orb_false_iff in Hb as [Hb%N.ltb_ge _]. intros [-> Hlen]%read_exact_inv.
  unfold field_bytes, field_fits. rewrite Hlen. by rewrite <- app_assoc.
Qed.

Lemma read_entries_inv p count acc input rest m :
  read_entries p count acc input = (rest, Ret m) ->
  exists l, length l = count /\ NoDup l.*1 /\ (forall k, k ∈ l.*1 -> acc !! k = None) /\
    Forall (fun kv => field_fits kv.1 /\ field_fits kv.2) l /\
    input = concat (entry_bytes <$> l) ++ rest /\ m = list_to_map l ∪ acc.
Proof.
  revert acc input. induction count as [|count IH]; intros acc input; cbn [read_entries].
  - intros [= <- <-]. exists []. split_and!; try done; [constructor|set_solver|].
    simpl. by rewrite (left_id_L ∅ (∪)).
  - unfold mbind, M_bind. destruct (read_field input) as [r1 [k|x|]] eqn:Hk; [|done|done].
    apply read_field_inv in Hk as [-> Hfk].
    destruct (read_field r1) as [r2 [v|x|]] eqn:Hv; [|done|done].
    apply read_field_inv in Hv as [-> Hfv].
    destruct (acc !! k) as [?|] eqn:Hacc; [done|].
    intros (l & Hlen & Hnd & Hni & Hf & -> & ->)%IH. exists ((k, v) :: l).
    assert (k ∉ l.*1) as Hkl by (intros Hin; specialize (Hni k Hin); by rewrite lookup_insert_eq in Hni).
    split; [by simpl; rewrite Hlen|]. split; [by constructor|]. split.
    { intros k' [->|Hk']%elem_of_cons; [done|]. specialize (Hni k' Hk').
      by apply lookup_insert_None in Hni as [? _]. }
    split; [by constructor|]. split.
    + rewrite fmap_cons. cbn [concat]. unfold entry_bytes at 2. by rewrite <- !app_assoc.
    + cbn [list_to_map foldr fst snd]. rewrite <- insert_union_r by (by apply not_elem_of_list_to_map_1).
      by rewrite insert_union_l.
Qed.

(** The list behind an accepted file. *)
Definition snapshot_of (m : EntryMap) (l : list (bytes * bytes)) : Prop :=
  NoDup l.*1 /\ list_to_map l = m /\ (N.of_nat (length l) <= kMaximumEntries)%N /\
  Forall (fun kv => field_fits kv.1 /\ field_fits kv.2) l.

Lemma read_snapshot_inv p data rest m :
  read_snapshot p data = (rest, Ret m) ->
  rest = [] /\ exists l, snapshot_of m l /\ data = snapshot_bytes l.
Proof.
  unfold read_snapshot, mbind, M_bind.
  destruct (read_exact 8 data) as [r1 [magic|x|]] eqn:H1; [|done|done].
  apply read_exact_inv in H1 as [-> _].
  destruct (decide (magic <> kFileMagic)) as [|Hm]; [done|]. apply dec_stable in Hm as ->.
  destruct (read_uint64 r1) as [r2 [n|x|]] eqn:H2; [|done|done]. apply read_uint64_inv in H2 as ->.
  destruct (N.ltb_spec kMaximumEntries n) as [|Hn]; [done|].
  destruct (read_entries p (N.to_nat n) ∅ r2) as [r3 [m'|x|]] eqn:H3; [|done|done].
  apply read_entries_inv in H3 as (l & Hlen & Hnd & _ & Hf & -> & ->).
  unfold get. destruct (decide (r3 <> [])) as [|Hr]; [done|]. apply dec_stable in Hr as ->.
  intros [= <- <-]. split; [done|]. exists l. unfold snapshot_bytes, snapshot_of.
  rewrite (right_id_L ∅ (∪)), app_nil_r. split; [split_and!; try done; lia|].
  rewrite Hlen, N2Nat.id. done.
Qed.

(** Nothing may follow a snapshot. *)
Lemma read_snapshot_app p l m rest :
  snapshot_of m l ->
  read_snapshot p (snapshot_bytes l ++ rest) =
    (rest, if decide (rest <> [])
           then Fail (Exn (StorageError (error_message "unexpected data at end of storage file" p)))
           else Ret m).
Proof.
  intros (Hnd & <- & Hlen & Hf). unfold kMaximumEntries in Hlen. unfold read_snapshot, snapshot_bytes.
  unfold mbind, M_bind. rewrite <- !app_assoc, read_exact_app by done.
  destruct (decide (kFileMagic <> kFileMagic)); [done|].
  rewrite read_uint64_app by (unfold is_u64; lia). unfold kMaximumEntries.
  destruct (N.ltb_spec 1000000 (N.of_nat (length l))); [lia|].
  rewrite Nat2N.id, read_entries_app by done. unfold get. rewrite (right_id_L ∅ (∪)).
  by destruct (decide (rest <> [])).
Qed.

(** A snapshot that was read in part is rejected, not taken for another one. *)
Lemma read_prefix p data k m m' :
  read_snapshot p data = ([], Ret m) -> (read_snapshot p (take k data)).2 = Ret m' -> m' = m.
Proof.
  intros Hd Hk. destruct (read_snapshot p (take k data)) as [rest o] eqn:Hr. cbn [snd] in Hk. subst o.
  apply read_snapshot_inv in Hr as [-> (l & Hl & Ht)].
  rewrite <- (take_drop k data), Ht, (read_snapshot_app p l m') in Hd by done.
  by destruct (decide (drop k data <> [])); simplify_eq/=.
Qed.

(** ** [FilePersistence] is a [Persistence] *)

Record FilePersistence := mkFilePersistence {
  file_path_ : bytes;
  file_system : Fs
}.

Definition set_file_system (fs : Fs) (s : FilePersistence) : FilePersistence :=
  mkFilePersistence (file_path_ s) fs.

Section instance.
Context `{HO : IterationOrder}.

#[export] Instance File_persistence : Persistence FilePersistence := {
  p_load := p ← gets file_path_; zoom file_system set_file_system (load_file p);
  p_save := fun m => p ← gets file_path_; zoom file_system set_file_system (save_file p m)
}.

(** The file is missing or holds a readable snapshot. *)
Definition file_ok (s : FilePersistence) : Prop :=
  match fs_files (file_system s) !! file_path_ s with
  | None => True
  | Some data => exists m, read_snapshot (file_path_ s) data = ([], Ret m)
  end.

Definition file_content (s : FilePersistence) : EntryMap :=
  match fs_files (file_system s) !! file_path_ s with
  | None => ∅
  | Some data => match (read_snapshot (file_path_ s) data).2 with Ret m => m | _ => ∅ end
  end.

(** Both only look at the snapshot file itself. *)
Lemma file_same s fs' :
  fs_files fs' !! file_path_ s = fs_files (file_system s) !! file_path_ s ->
  file_ok s -> file_ok (set_file_system fs' s) /\ file_content (set_file_system fs' s) = file_content s.
Proof. intros Heq. unfold file_ok, file_content. simpl. by rewrite Heq. Qed.

Lemma file_replaced s m fs' :
  fits m -> replaced (file_path_ s) m (file_system s) fs' ->
  file_ok (set_file_system fs' s) /\ file_content (set_file_system fs' s) = m.
Proof.
  intros Hfit (Hd & _). unfold file_ok, file_content. simpl. rewrite Hd.
  rewrite snapshot_bytes_read by done. split; [by eexists|done].
Qed.

(** Reading throws or returns, nothing else. *)
Lemma read_exact_defined size input : wp (read_exact size) input (fun _ _ => True) (fun _ _ => True).
Proof. unfold wp, read_exact. by destruct (_ <? _)%N. Qed.

Lemma read_field_defined input : wp read_field input (fun _ _ => True) (fun _ _ => True).
Proof.
  unfold read_field, read_uint64. apply wp_bind, wp_bind.
  eapply wp_mono; [apply read_exact_defined| |done]. intros bs r _. apply wp_ret.
  destruct (_ || _); [by apply wp_throw|apply read_exact_defined].
Qed.

Lemma read_entries_defined p count acc input :
  wp (read_entries p count acc) input (fun _ _ => True) (fun _ _ => True).
Proof.
  revert acc input. induction count as [|count IH]; intros acc input; cbn [read_entries]; [by apply wp_ret|].
  apply wp_bind. eapply wp_mono; [apply read_field_defined| |done]. intros k r1 _.
  apply wp_bind. eapply wp_mono; [apply read_field_defined| |done]. intros v r2 _.
  destruct (acc !! k); [by apply wp_throw|apply IH].
Qed.

Lemma read_snapshot_defined p input : wp (read_snapshot p) input (fun _ _ => True) (fun _ _ => True).
Proof.
  unfold read_snapshot. apply wp_bind.
  eapply wp_mono; [apply read_exact_defined| |done]. intros magic r1 _.
  destruct (decide _); [by apply wp_throw|]. unfold read_uint64. apply wp_bind, wp_bind.
  eapply wp_mono; [apply read_exact_defined| |done]. intros bs r2 _. apply wp_ret.
  destruct (_ <? _)%N; [by apply wp_throw|]. apply wp_bind.
  eapply wp_mono; [apply read_entries_defined| |done]. intros m r3 _. apply wp_bind, wp_get.
  destruct (decide _); [by apply wp_throw|by apply wp_ret].
Qed.

Lemma wp_load_file p fs :
  wp (load_file p) fs
    (fun m fs' => fs_files fs' = fs_files fs /\
       match fs_files fs !! p with
       | None => m = ∅
       | Some data => exists k, (read_snapshot p (take k data)).2 = Ret m
       end)
    (fun _ fs' => fs_files fs' = fs_files fs).
Proof.
  unfold load_file, exists_file. fs_steps.
  destruct (fs_files fs !! p) as [data|] eqn:Hp; simpl; rewrite Hp.
  2:{ rewrite bool_decide_eq_false_2 by (by intros []). by apply wp_ret. }
  rewrite bool_decide_eq_true_2 by done. unfold open_read. fs_steps.
  simpl. rewrite Hp.
  assert (forall k plan', wp (lift (read_snapshot p (take k data)).2) (mkFs (fs_files fs) (fs_dirs fs) plan')
    (fun m fs' => fs_files fs' = fs_files fs /\ exists k, (read_snapshot p (take k data)).2 = Ret m)
    (fun _ fs' => fs_files fs' = fs_files fs)) as Hread.
  { intros n plan'. pose proof (read_snapshot_defined p (take n data)) as Hdef.
    unfold wp, lift in *. destruct (read_snapshot p (take n data)) as [r [m|f|]] eqn:Hr; [|done|done].
    split; [done|]. exists n. by rewrite Hr. }
  unfold read_stream. fs_steps; [|apply Hread..]. rewrite <- (firstn_all data) at 1. apply Hread.
Qed.

(** Without faults the whole file is read. *)
Lemma load_file_works p fs data :
  fs_plan fs = [] -> fs_files fs !! p = Some data -> load_file p fs = (fs, (read_snapshot p data).2).
Proof.
  intros Hplan Hd. unfold load_file, exists_file, open_read, read_stream, next_fault, gets, mbind, M_bind.
  rewrite Hplan, Hd, bool_decide_eq_true_2 by done. rewrite Hplan, Hd, Hplan. unfold lift, mret, M_ret.
  by destruct (read_snapshot p data).2.
Qed.

#[export, refine] Instance File_persistence_spec : PersistenceSpec FilePersistence := {
  p_ok := file_ok;
  p_content := file_content
}.
Proof.
  - intros s Hok. unfold p_load, File_persistence. apply wp_bind, wp_gets, wp_zoom.
    eapply wp_mono; [apply wp_load_file| |].
    + intros m fs' [Hfs Hm]. destruct (file_same s fs') as [? Hc]; [by rewrite Hfs|done|].
      split; [done|]. split; [done|]. unfold file_content.
      unfold p_ok, file_ok in Hok. destruct (fs_files (file_system s) !! file_path_ s) as [data|]; [|done].
      destruct Hok as [m0 Hm0]. destruct Hm as [k Hk]. rewrite Hm0. by eapply read_prefix.
    + intros f fs' Hfs. apply file_same; [by rewrite Hfs|done].
  - intros m s Hok. unfold p_save, File_persistence. apply wp_bind, wp_gets, wp_zoom.
    eapply wp_mono; [apply wp_save_file| |].
    + intros [] fs' [Hfit Hr]. by apply file_replaced.
    + intros f fs' [Ho|(-> & Hfit & Hr)].
      * destruct (file_same s fs') as [? Hc]; [apply Ho, temporary_ne|done|].
        split; [done|]. destruct f; [done|by left].
      * destruct (file_replaced s m fs' Hfit Hr) as [? Hc]. split; [done|by right].
Defined.
End instance.
