(* ===== verification/RaftTypes.v ===== *)
(** * Raft data types and the two interfaces of the Raft core

    Models [src/src/raft/raft.h] and [src/src/raft/raft.cpp]: log entries, RPC
    messages, the configuration, the persistent state, the [RaftStorage]
    interface with its in-memory implementation, and the random engine that
    draws election timeouts. *)

From Stdlib Require Import NArith ZArith Lia.
From stdpp Require Import base tactics numbers list gmap.
From S2P Require Import Prelude.

Abbreviation NodeId := N (only parsing).
Abbreviation Term := N (only parsing).
Abbreviation LogIndex := N (only parsing).

Inductive NodeState := follower | candidate | leader.

#[export] Instance NodeState_eq_dec : EqDecision NodeState.
Proof. solve_decision. Defined.

Record LogEntry := mkEntry {
  term : Term;
  command : bytes;
  is_no_op : bool
}.

#[export] Instance LogEntry_eq_dec : EqDecision LogEntry.
Proof. solve_decision. Defined.

(** [LogEntry{}]: the value-initialised entry, used as the log's sentinel. *)
Definition default_entry : LogEntry := mkEntry 0 [] false.

Record CommittedEntry := mkCommitted {
  ce_index : LogIndex;
  ce_term : Term;
  ce_command : bytes
}.

#[export] Instance CommittedEntry_eq_dec : EqDecision CommittedEntry.
Proof. solve_decision. Defined.

Record NodeSnapshot := mkSnapshot {
  ns_node_id : NodeId;
  ns_state : NodeState;
  ns_current_term : Term;
  ns_leader_id : option NodeId;
  ns_commit_index : LogIndex;
  ns_last_applied : LogIndex;
  ns_last_log_index : LogIndex
}.

Record RequestVoteRequest := mkVoteRequest {
  rv_term : Term;
  rv_candidate_id : NodeId;
  rv_last_log_index : LogIndex;
  rv_last_log_term : Term
}.

Record RequestVoteResponse := mkVoteResponse {
  rvr_term : Term;
  rvr_vote_granted : bool
}.

Record AppendEntriesRequest := mkAppendRequest {
  ae_term : Term;
  ae_leader_id : NodeId;
  ae_previous_log_index : LogIndex;
  ae_previous_log_term : Term;
  ae_entries : list LogEntry;
  ae_leader_commit : LogIndex;
  ae_request_id : N
}.

Record AppendEntriesResponse := mkAppendResponse {
  aer_term : Term;
  aer_success : bool;
  aer_match_index : LogIndex;
  aer_conflict_index : LogIndex;
  aer_conflict_term : option Term;
  aer_request_id : N
}.

Inductive Rpc :=
| VoteRequest (r : RequestVoteRequest)
| VoteResponse (r : RequestVoteResponse)
| AppendRequest (r : AppendEntriesRequest)
| AppendResponse (r : AppendEntriesResponse).

#[export] Instance RequestVoteRequest_eq_dec : EqDecision RequestVoteRequest.
Proof. solve_decision. Defined.
#[export] Instance RequestVoteResponse_eq_dec : EqDecision RequestVoteResponse.
Proof. solve_decision. Defined.
#[export] Instance AppendEntriesRequest_eq_dec : EqDecision AppendEntriesRequest.
Proof. solve_decision. Defined.
#[export] Instance AppendEntriesResponse_eq_dec : EqDecision AppendEntriesResponse.
Proof. solve_decision. Defined.
#[export] Instance Rpc_eq_dec : EqDecision Rpc.
Proof. solve_decision. Defined.

Record Message := mkMessage {
  from : NodeId;
  to : NodeId;
  rpc : Rpc
}.

#[export] Instance Message_eq_dec : EqDecision Message.
Proof. solve_decision. Defined.

Definition message_term (message : Message) : Term :=
  match rpc message with
  | VoteRequest r => rv_term r
  | VoteResponse r => rvr_term r
  | AppendRequest r => ae_term r
  | AppendResponse r => aer_term r
  end.

Record RaftConfig := mkConfig {
  node_id : NodeId;
  peers : list NodeId;
  election_timeout_min : Z;
  election_timeout_max : Z;
  heartbeat_interval : Z;
  random_seed : N
}.

(** The default member initialisers of [RaftConfig]. *)
Definition default_config : RaftConfig := mkConfig 0 [] 150 300 50 0x72616674.

Record PersistentState := mkPersistent {
  ps_current_term : Term;
  ps_voted_for : option NodeId;
  ps_log : list LogEntry
}.

#[export] Instance PersistentState_eq_dec : EqDecision PersistentState.
Proof. solve_decision. Defined.

Definition default_persistent : PersistentState := mkPersistent 0 None [].

(** Every field is a 64-bit value: the type invariant of the C++ struct. *)
Definition wf_entry (e : LogEntry) : Prop := is_u64 (term e).

Definition wf_persistent (ps : PersistentState) : Prop :=
  is_u64 (ps_current_term ps) /\
  (forall v, ps_voted_for ps = Some v -> is_u64 v) /\
  Forall wf_entry (ps_log ps).

(** ** The [RaftStorage] interface

    [storage_reopen] is what a process restart does: it builds a new storage
    object over the medium the previous process left. *)
Class RaftStorage (St : Type) := {
  storage_load : St -> outcome PersistentState;
  storage_save : PersistentState -> M St unit;
  storage_reopen : M St unit
}.

(** What the Raft core relies on.  [durable] is the content a restarted node
    would find.  A save that throws leaves it alone; a crash during a save
    leaves either the old or the new content, never a mixture. *)
Class RaftStorageSpec (St : Type) `{RaftStorage St} := {
  storage_inv : St -> Prop;
  medium_ok : St -> Prop;
  durable : St -> PersistentState;
  storage_inv_medium : forall s, storage_inv s -> medium_ok s;
  durable_wf : forall s, medium_ok s -> wf_persistent (durable s);
  storage_load_spec : forall s, storage_inv s -> storage_load s = Ret (durable s);
  storage_save_spec : forall ps s, storage_inv s -> wf_persistent ps ->
    wp (storage_save ps) s
      (fun _ s' => storage_inv s' /\ durable s' = ps)
      (fun f s' => match f with
                   | Exn _ => storage_inv s' /\ durable s' = durable s
                   | Crash => medium_ok s' /\ (durable s' = durable s \/ durable s' = ps)
                   end);
  storage_reopen_spec : forall s, medium_ok s ->
    wp storage_reopen s
      (fun _ s' => storage_inv s' /\ durable s' = durable s)
      (fun _ s' => medium_ok s' /\ durable s' = durable s)
}.

(** ** [InMemoryRaftStorage] *)
Record InMemoryRaftStorage := mkInMemory { mem_state_ : PersistentState }.

Definition in_memory_load (s : InMemoryRaftStorage) : outcome PersistentState :=
  Ret (mem_state_ s).

Definition in_memory_save (ps : PersistentState) : M InMemoryRaftStorage unit :=
  modify (fun _ => mkInMemory ps).

#[export] Instance InMemory_storage : RaftStorage InMemoryRaftStorage := {
  storage_load := in_memory_load;
  storage_save := in_memory_save;
  storage_reopen := mret tt
}.

#[export, refine] Instance InMemory_storage_spec : RaftStorageSpec InMemoryRaftStorage := {
  storage_inv := fun s => wf_persistent (mem_state_ s);
  medium_ok := fun s => wf_persistent (mem_state_ s);
  durable := mem_state_
}.
Proof. all: by intros. Defined.

(** A storage whose operations do not fail. *)
Class ReliableStorage (St : Type) `{RaftStorage St} : Prop := {
  save_reliable : forall ps s s' x, storage_save ps s <> (s', Fail x);
  reopen_reliable : forall s s' x, storage_reopen s <> (s', Fail x)
}.

#[export] Instance InMemory_reliable : ReliableStorage InMemoryRaftStorage.
Proof. by split. Qed.

(** ** The random engine

    [std::mt19937_64] seeded once, and [std::uniform_int_distribution], whose
    algorithm the standard leaves open: all it promises is the range. *)
Class RandomEngine (E : Type) := {
  seed_engine : N -> E;
  uniform_int : Z -> Z -> E -> Z * E;
  uniform_int_range : forall lo hi e, (lo <= hi)%Z ->
    (lo <= (uniform_int lo hi e).1 <= hi)%Z
}.

(** An engine that counts its draws and always returns the lower bound. *)
#[export, refine] Instance low_engine : RandomEngine N := {
  seed_engine := fun s => s;
  uniform_int := fun lo _ e => (lo, (e + 1)%N)
}.
Proof. intros. simpl. lia. Defined.
