(* ===== verification/DurableStorage.v ===== *)
(** * The durable Raft storage

    Models the Raft-state encoding and class [DurableRaftStorage] of
    [src/src/node/node_runtime.cpp]: the persistent state of a node is one value
    of a [KvStore], so it inherits the atomicity of the snapshot file.

    The instance [Durable_storage_spec] is the link between the storage and the
    Raft halves of the program: the durable storage meets the contract
    [RaftStorageSpec] all Raft theorems rely on. *)

From Stdlib Require Import NArith Lia Strings.Byte.
From stdpp Require Import base tactics numbers list gmap strings.
From S2P Require Import Prelude Codec KvInterface KvStore FilePersistence FileSnapshot RaftTypes.

Definition kRaftStateKey : bytes := bytes_of "raft-hard-state".
Definition kRaftStateMagic : bytes := bytes_of "FTKVRAFT1".
Definition kMaximumLogEntries : N := 1000000.
Definition kMaximumCommandBytes : N := 64 * 1024 * 1024.

(** ** Decoding

    The state of a reader is its offset into the input.  Offsets stay at or below
    the size of a string, far from the end of [std::size_t]. *)

Definition size_of (input : bytes) : N := N.of_nat (length input).

Definition state_read_uint64 (input : bytes) : M N N :=
  offset ← get;
  if (size_of input <? offset)%N || (size_of input - offset <? 8)%N
  then throw (RaftError "persisted Raft state is truncated")
  else
    modify (fun o => o + 8)%N;;
    mret (uint64_of_bytes (take 8 (drop (N.to_nat offset) input))).

(** [bytes[offset++] != '\0'], guarded. *)
Definition read_flag (input : bytes) : M N bool :=
  offset ← get;
  if (size_of input <=? offset)%N then throw (RaftError "persisted Raft state is truncated")
  else
    b ← at_index input offset;
    modify (fun o => o + 1)%N;;
    mret (bool_decide (b <> Byte.x00)).

Definition decode_entry (input : bytes) : M N LogEntry :=
  term ← state_read_uint64 input;
  is_no_op ← read_flag input;
  command_size ← state_read_uint64 input;
  offset ← get;
  if (kMaximumCommandBytes <? command_size)%N || (size_of input <? offset)%N ||
     (size_of input - offset <? command_size)%N
  then throw (RaftError "persisted Raft command has an invalid size")
  else
    modify (fun o => o + command_size)%N;;
    mret (mkEntry term (take (N.to_nat command_size) (drop (N.to_nat offset) input)) is_no_op).

Fixpoint decode_log (input : bytes) (count : nat) (log : list LogEntry) : M N (list LogEntry) :=
  match count with
  | O => mret log
  | S count => e ← decode_entry input; decode_log input count (log ++ [e])
  end.

(** The vote, present when its flag is set. *)
Definition read_vote (input : bytes) : M N (option NodeId) :=
  has_vote ← read_flag input;
  if (has_vote : bool) then v ← state_read_uint64 input; mret (Some v) else mret None.

Definition decode_fields (input : bytes) : M N PersistentState :=
  current_term ← state_read_uint64 input;
  voted_for ← read_vote input;
  entry_count ← state_read_uint64 input;
  if (kMaximumLogEntries <? entry_count)%N
  then throw (RaftError "persisted Raft log exceeds the entry limit")
  else
    log ← decode_log input (N.to_nat entry_count) [];
    offset ← get;
    if decide (offset <> size_of input)
    then throw (RaftError "persisted Raft state contains trailing data")
    else mret (mkPersistent current_term voted_for log).

Definition decode_state (input : bytes) : outcome PersistentState :=
  if decide (kRaftStateMagic `prefix_of` input)
  then (decode_fields input (size_of kRaftStateMagic)).2
  else Fail (Exn (RaftError "persisted Raft state has an unsupported format")).

(** ** Encoding *)

Definition flag_byte (b : bool) : byte := if b then Byte.x01 else Byte.x00.

Definition append_uint64 (output : bytes) (value : N) : bytes := output ++ uint64_bytes value.

Fixpoint encode_log (log : list LogEntry) (output : bytes) : outcome bytes :=
  match log with
  | [] => Ret output
  | e :: log =>
    if (kMaximumCommandBytes <? size_of (command e))%N
    then Fail (Exn (RaftError "Raft command exceeds the persistence size limit"))
    else
      let output := append_uint64 output (term e) ++ [flag_byte (is_no_op e)] in
      encode_log log (append_uint64 output (size_of (command e)) ++ command e)
  end.

Definition vote_bytes (voted_for : option NodeId) : bytes :=
  flag_byte (bool_decide (is_Some voted_for)) ::
  match voted_for with Some v => uint64_bytes v | None => [] end.

Definition encode_state (state : PersistentState) : outcome bytes :=
  if (kMaximumLogEntries <? N.of_nat (length (ps_log state)))%N
  then Fail (Exn (RaftError "Raft log exceeds the persistence entry limit"))
  else
    let output := append_uint64 kRaftStateMagic (ps_current_term state) ++ vote_bytes (ps_voted_for state) in
    encode_log (ps_log state) (append_uint64 output (N.of_nat (length (ps_log state)))).

(** ** Round trip *)

Definition entry_encoding (e : LogEntry) : bytes :=
  uint64_bytes (term e) ++ [flag_byte (is_no_op e)] ++ uint64_bytes (size_of (command e)) ++ command e.

Lemma encode_log_inv log output bs :
  encode_log log output = Ret bs ->
  bs = output ++ concat (entry_encoding <$> log) /\
  Forall (fun e => (size_of (command e) <= kMaximumCommandBytes)%N) log.
Proof.
  revert output. induction log as [|e log IH]; intros output; simpl.
  - intros [= <-]. by rewrite app_nil_r.
  - destruct (N.ltb_spec kMaximumCommandBytes (size_of (command e))) as [|Hle]; [done|].
    intros [-> Hf]%IH. split; [|by constructor]. unfold entry_encoding at 2, append_uint64.
    by rewrite <- !app_assoc.
Qed.

Lemma drop_size a b : drop (N.to_nat (size_of a)) (a ++ b) = b.
Proof. unfold size_of. by rewrite Nat2N.id, drop_app_length. Qed.

Lemma take_size a b : take (N.to_nat (size_of a)) (a ++ b) = a.
Proof. unfold size_of. by rewrite Nat2N.id, take_app_length. Qed.

(** Reading what lies at the offset. *)
Lemma state_read_at pre v post :
  is_u64 v ->
  state_read_uint64 (pre ++ uint64_bytes v ++ post) (size_of pre) =
    (size_of (pre ++ uint64_bytes v), Ret v).
Proof.
  intros Hv. unfold state_read_uint64, size_of, mbind, M_bind, get, modify, mret, M_ret.
  rewrite !length_app, length_uint64_bytes.
  destruct (N.ltb_spec (N.of_nat (length pre + (8 + length post))) (N.of_nat (length pre))); [lia|].
  destruct (N.ltb_spec (N.of_nat (length pre + (8 + length post)) - N.of_nat (length pre)) 8); [lia|].
  cbn [orb]. f_equal; [lia|]. rewrite Nat2N.id, drop_app_length.
  rewrite <- (length_uint64_bytes v), take_app_length, uint64_roundtrip by done. done.
Qed.

Lemma read_flag_at pre b post :
  read_flag (pre ++ [flag_byte b] ++ post) (size_of pre) = (size_of (pre ++ [flag_byte b]), Ret b).
Proof.
  unfold read_flag, size_of, mbind, M_bind, get, modify, mret, M_ret, at_index.
  rewrite !length_app. cbn [length].
  destruct (N.leb_spec (N.of_nat (length pre + (1 + length post))) (N.of_nat (length pre))); [lia|].
  rewrite Nat2N.id, lookup_app_r, Nat.sub_diag by lia. simpl. f_equal; [lia|]. by destruct b.
Qed.

Lemma decode_entry_at pre e post :
  wf_entry e -> (size_of (command e) <= kMaximumCommandBytes)%N ->
  decode_entry (pre ++ entry_encoding e ++ post) (size_of pre) =
    (size_of (pre ++ entry_encoding e), Ret e).
Proof.
  intros Hwf Hsize. unfold decode_entry, entry_encoding, mbind, M_bind.
  rewrite <- !app_assoc, state_read_at by done. rewrite (app_assoc pre), read_flag_at.
  rewrite (app_assoc (pre ++ _)).
  rewrite state_read_at by (unfold is_u64, kMaximumCommandBytes in *; lia).
  unfold get, modify. set (p := (pre ++ uint64_bytes (term e)) ++ [flag_byte (is_no_op e)]).
  destruct (N.ltb_spec kMaximumCommandBytes (size_of (command e))); [lia|].
  assert (size_of (p ++ uint64_bytes (size_of (command e)) ++ command e ++ post) =
    size_of (p ++ uint64_bytes (size_of (command e))) + size_of (command e) + size_of post)%N as ->
    by (unfold size_of; rewrite !length_app; lia).
  destruct (N.ltb_spec (size_of (p ++ uint64_bytes (size_of (command e))) + size_of (command e) + size_of post)
    (size_of (p ++ uint64_bytes (size_of (command e))))); [lia|].
  destruct (N.ltb_spec (size_of (p ++ uint64_bytes (size_of (command e))) + size_of (command e) + size_of post -
    size_of (p ++ uint64_bytes (size_of (command e)))) (size_of (command e))); [lia|].
  cbn [orb]. unfold mret, M_ret. f_equal.
  - unfold p, size_of. rewrite !length_app. lia.
  - rewrite (app_assoc p), drop_size, take_size. by destruct e.
Qed.

Lemma decode_log_at pre log acc post :
  Forall wf_entry log -> Forall (fun e => (size_of (command e) <= kMaximumCommandBytes)%N) log ->
  decode_log (pre ++ concat (entry_encoding <$> log) ++ post) (length log) acc (size_of pre) =
    (size_of (pre ++ concat (entry_encoding <$> log)), Ret (acc ++ log)).
Proof.
  revert pre acc. induction log as [|e log IH]; intros pre acc Hwf Hsize.
  - simpl. by rewrite !app_nil_r.
  - apply Forall_cons in Hwf as [He Hwf], Hsize as [Hs Hsize].
    rewrite fmap_cons. cbn [concat length decode_log]. unfold mbind, M_bind.
    rewrite <- !app_assoc, decode_entry_at by done.
    rewrite (app_assoc pre), IH by done. by rewrite <- !app_assoc.
Qed.

Lemma read_vote_at pre v post :
  (forall x, v = Some x -> is_u64 x) ->
  read_vote (pre ++ vote_bytes v ++ post) (size_of pre) = (size_of (pre ++ vote_bytes v), Ret v).
Proof.
  intros Hv. unfold read_vote, vote_bytes, mbind, M_bind.
  set (b := bool_decide (is_Some v)). set (rest := match v with Some x => _ | None => _ end).
  change (flag_byte b :: rest) with ([flag_byte b] ++ rest). rewrite <- app_assoc, read_flag_at.
  unfold b, rest. destruct v as [x|].
  - rewrite bool_decide_eq_true_2 by done. rewrite (app_assoc pre), state_read_at by (by apply Hv).
    by rewrite <- app_assoc.
  - rewrite bool_decide_eq_false_2 by (by intros []). by rewrite app_nil_r.
Qed.

Lemma state_roundtrip ps bs :
  wf_persistent ps -> encode_state ps = Ret bs -> decode_state bs = Ret ps.
Proof.
  intros (Ht & Hv & Hl). unfold encode_state.
  destruct (N.ltb_spec kMaximumLogEntries (N.of_nat (length (ps_log ps)))) as [|Hlen]; [done|].
  intros [-> Hsize]%encode_log_inv. unfold decode_state, append_uint64.
  rewrite decide_True by (rewrite <- !app_assoc; by eexists).
  rewrite <- !app_assoc. unfold decode_fields, mbind, M_bind.
  rewrite state_read_at by done. rewrite (app_assoc kRaftStateMagic), read_vote_at by done.
  rewrite (app_assoc (kRaftStateMagic ++ _)).
  rewrite state_read_at by (unfold is_u64, kMaximumLogEntries in *; lia).
  destruct (N.ltb_spec kMaximumLogEntries (N.of_nat (length (ps_log ps)))); [lia|].
  rewrite Nat2N.id. rewrite (app_assoc (_ ++ vote_bytes _)), <- (app_nil_r (concat _)), decode_log_at by done.
  unfold get. rewrite app_nil_r. rewrite decide_False by (intros []; done). by destruct ps.
Qed.

(** Decoding only produces 64-bit values. *)
Lemma take_drop_length (input : bytes) offset k :
  (offset <= size_of input)%N -> (k <= size_of input - offset)%N ->
  length (take (N.to_nat k) (drop (N.to_nat offset) input)) = N.to_nat k.
Proof. unfold size_of. intros. rewrite length_take, length_drop. lia. Qed.

Lemma wp_state_read input o :
  wp (state_read_uint64 input) o (fun v _ => is_u64 v) (fun f _ => f <> Crash).
Proof.
  unfold state_read_uint64. apply wp_bind, wp_get.
  destruct (_ || _) eqn:Hb; [by apply wp_throw|].
  apply orb_false_iff in Hb as [H1%N.ltb_ge H2%N.ltb_ge].
  apply wp_bind, wp_modify, wp_ret, uint64_of_bytes_u64.
  change 8 with (N.to_nat 8). by apply take_drop_length.
Qed.

Lemma wp_read_flag input o : wp (read_flag input) o (fun _ _ => True) (fun f _ => f <> Crash).
Proof.
  unfold read_flag. apply wp_bind, wp_get. unfold size_of.
  destruct (N.leb_spec (N.of_nat (length input)) o); [by apply wp_throw|].
  destruct (lookup_lt_is_Some_2 input (N.to_nat o)) as [b Hb]; [lia|].
  apply wp_bind. eapply wp_at_index; [done|]. by apply wp_bind, wp_modify, wp_ret.
Qed.

Lemma wp_decode_entry input o :
  wp (decode_entry input) o (fun e _ => wf_entry e) (fun f _ => f <> Crash).
Proof.
  unfold decode_entry. apply wp_bind. eapply wp_mono; [apply wp_state_read| |done]. intros t o1 Ht.
  apply wp_bind. eapply wp_mono; [apply wp_read_flag| |done]. intros b o2 _.
  apply wp_bind. eapply wp_mono; [apply wp_state_read| |done]. intros n o3 _.
  apply wp_bind, wp_get. destruct (_ || _); [by apply wp_throw|]. by apply wp_bind, wp_modify, wp_ret.
Qed.

Lemma wp_decode_log input count log o :
  Forall wf_entry log ->
  wp (decode_log input count log) o (fun log' _ => Forall wf_entry log') (fun f _ => f <> Crash).
Proof.
  revert log o. induction count as [|count IH]; intros log o Hl; cbn [decode_log]; [by apply wp_ret|].
  apply wp_bind. eapply wp_mono; [apply wp_decode_entry| |done]. intros e o1 He.
  apply IH. apply Forall_app. by split; [|apply Forall_singleton].
Qed.

Lemma decode_state_wf input :
  match decode_state input with
  | Ret ps => wf_persistent ps
  | Fail f => f <> Crash
  | Undefined => False
  end.
Proof.
  unfold decode_state. destruct (decide _); [|done].
  assert (wp (decode_fields input) (size_of kRaftStateMagic) (fun ps _ => wf_persistent ps)
    (fun f _ => f <> Crash)) as H; [|unfold wp in H; by destruct (decode_fields _ _) as [o []]].
  unfold decode_fields. apply wp_bind. eapply wp_mono; [apply wp_state_read| |done]. intros t o1 Ht.
  apply wp_bind. apply (wp_mono _ _ (fun v _ => forall x, v = Some x -> is_u64 x) _ (fun f _ => f <> Crash));
    [| |done].
  { unfold read_vote. apply wp_bind. eapply wp_mono; [apply wp_read_flag| |done]. intros [] o2 _.
    - apply wp_bind. eapply wp_mono; [apply wp_state_read| |done]. intros v o3 Hv. apply wp_ret.
      by intros x [= <-].
    - by apply wp_ret. }
  intros v o2 Hv. apply wp_bind. eapply wp_mono; [apply wp_state_read| |done]. intros n o3 _.
  destruct (_ <? _)%N; [by apply wp_throw|]. apply wp_bind.
  eapply wp_mono; [by apply wp_decode_log| |done]. intros log o4 Hlog. apply wp_bind, wp_get.
  destruct (decide _); [by apply wp_throw|by apply wp_ret].
Qed.

(** ** [DurableRaftStorage] *)

Section durable.
Context {P : Type} `{HP : Persistence P}.
Abbreviation DurableRaftStorage := (KvStore P).

Definition durable_load (s : DurableRaftStorage) : outcome PersistentState :=
  encoded ← (get_value kRaftStateKey s).2;
  match encoded with
  | Some bs => decode_state bs
  | None => Ret default_persistent
  end.

Definition durable_save (state : PersistentState) : M DurableRaftStorage unit :=
  bs ← lift (encode_state state);
  put kRaftStateKey bs.

(** A new process: the old object is gone, a new one is built over its file. *)
Definition durable_reopen : M DurableRaftStorage unit := fun s =>
  match open_store (Some (persistence_ s)) with
  | (_, Ret s') => (s', Ret tt)
  | (Some p, Fail f) => (set_persistence_ p s, Fail f)
  | (None, Fail f) => (s, Fail f)
  | (_, Undefined) => (s, Undefined)
  end.

#[export] Instance Durable_storage : RaftStorage DurableRaftStorage := {
  storage_load := durable_load;
  storage_save := durable_save;
  storage_reopen := durable_reopen
}.

Context `{HPSpec : !PersistenceSpec P}.

(** The state a snapshot stands for. *)
Definition state_of (m : EntryMap) : outcome PersistentState :=
  match m !! kRaftStateKey with
  | Some bs => decode_state bs
  | None => Ret default_persistent
  end.

Definition readable (m : EntryMap) : Prop := exists ps, state_of m = Ret ps.

Definition state_in (m : EntryMap) : PersistentState :=
  match state_of m with Ret ps => ps | _ => default_persistent end.

Lemma default_persistent_wf : wf_persistent default_persistent.
Proof. split; [done|]. split; [done|constructor]. Qed.

Lemma state_in_wf m : readable m -> wf_persistent (state_in m).
Proof.
  intros [ps Hps]. unfold state_in. rewrite Hps. unfold state_of in Hps.
  destruct (m !! kRaftStateKey) as [bs|].
  - pose proof (decode_state_wf bs) as H. by rewrite Hps in H.
  - injection Hps as <-. apply default_persistent_wf.
Qed.

Lemma encode_state_no_crash ps f : encode_state ps = Fail f -> f <> Crash.
Proof.
  unfold encode_state. destruct (_ <? _)%N; [by intros [= <-]|]. generalize (ps_log ps) at 1. intros l.
  revert l. assert (forall l o, encode_log l o = Fail f -> f <> Crash) as H; [|intros l; apply H].
  induction l as [|e l IH]; intros o; simpl; [done|]. destruct (_ <? _)%N; [by intros [= <-]|apply IH].
Qed.

Lemma encode_state_defined ps : encode_state ps <> Undefined.
Proof.
  unfold encode_state. destruct (_ <? _)%N; [done|]. generalize (ps_log ps) at 1. intros l.
  revert l. assert (forall l o, encode_log l o <> Undefined) as H; [|intros l; apply H].
  induction l as [|e l IH]; intros o; simpl; [done|]. destruct (_ <? _)%N; [done|apply IH].
Qed.

Lemma state_in_insert m ps bs :
  wf_persistent ps -> encode_state ps = Ret bs ->
  readable (<[kRaftStateKey := bs]> m) /\ state_in (<[kRaftStateKey := bs]> m) = ps.
Proof.
  intros Hwf Henc. unfold readable, state_in, state_of. rewrite lookup_insert_eq.
  rewrite (state_roundtrip ps bs) by done. split; [by eexists|done].
Qed.

Lemma durable_save_spec ps s :
  store_inv s /\ readable (entries_ s) -> wf_persistent ps ->
  wp (durable_save ps) s
    (fun _ s' => (store_inv s' /\ readable (entries_ s')) /\
       state_in (p_content (persistence_ s')) = ps)
    (fun f s' => match f with
                 | Exn _ => (store_inv s' /\ readable (entries_ s')) /\
                     state_in (p_content (persistence_ s')) = state_in (p_content (persistence_ s))
                 | Crash => (p_ok (persistence_ s') /\ readable (p_content (persistence_ s'))) /\
                     (state_in (p_content (persistence_ s')) = state_in (p_content (persistence_ s)) \/
                      state_in (p_content (persistence_ s')) = ps)
                 end).
Proof.
  intros [[Hok Heq] Hrd] Hwf. unfold durable_save.
  destruct (encode_state ps) as [bs|f|] eqn:Henc.
  - destruct (state_in_insert (entries_ s) ps bs Hwf Henc) as [Hrd' Hst].
    apply wp_bind. apply (wp_mono _ _ (fun b s' => b = bs /\ s' = s) _ (fun _ _ => False)); [done| |done].
    intros b s' [-> ->]. eapply wp_mono; [by apply (wp_put kRaftStateKey bs s)| |].
    + intros [] s' [[Hok' Heq'] He]. rewrite <- Heq', He. split; [|done]. split; [|done].
      split; [done|]. congruence.
    + intros f s' (Hok' & He & Hf). destruct f as [e|].
      * rewrite Hf. split; [|done]. split; [|by rewrite He]. split; [done|]. congruence.
      * rewrite Heq in *. split; [split; [done|]|]; destruct Hf as [-> | ->]; auto.
  - pose proof (encode_state_no_crash ps f Henc) as Hf. apply wp_bind. unfold wp, lift.
    destruct f as [e|]; [|done]. by split_and!.
  - by destruct (encode_state_defined ps).
Qed.

#[export, refine] Instance Durable_storage_spec : RaftStorageSpec DurableRaftStorage := {
  storage_inv := fun s => store_inv s /\ readable (entries_ s);
  medium_ok := fun s => p_ok (persistence_ s) /\ readable (p_content (persistence_ s));
  durable := fun s => state_in (p_content (persistence_ s))
}.
Proof.
  - intros s [[Hok Heq] Hrd]. split; [done|]. by rewrite <- Heq.
  - intros s [_ Hrd]. by apply state_in_wf.
  - intros s [[Hok Heq] Hrd]. rewrite <- Heq. unfold storage_load, Durable_storage, durable_load. simpl.
    destruct Hrd as [ps Hps]. unfold state_in. rewrite Hps. exact Hps.
  - intros ps s Hs Hwf. by apply durable_save_spec.
  - intros s [Hok Hrd]. unfold wp, storage_reopen, Durable_storage, durable_reopen.
    pose proof (open_store_spec (persistence_ s) Hok) as H.
    destruct (open_store (Some (persistence_ s))) as [[p|] [s'|f|]]; try done.
    + destruct H as (Hinv & Hp & He). split; [split; [done|by rewrite He]|].
      destruct Hinv as [_ Heq]. by rewrite <- Heq, He.
    + destruct H as [Hok' Hc]. simpl. rewrite Hc. by split_and!.
Defined.
End durable.
