(* ===== verification/StorageProperties.v ===== *)
(** * Theorems about the storage stack

    Crash atomicity and round trips of the snapshot file, the key-value stores as
    a map, and the durable Raft state on top of both, for every plan of faults of
    the file system. *)

From Stdlib Require Import NArith Lia Strings.Byte.
From stdpp Require Import base tactics numbers list gmap strings.
From S2P Require Import Prelude Codec KvInterface KvStore FilePersistence FileSnapshot RaftTypes.
From S2P Require Import DurableStorage.

(** ** The snapshot file *)

Section snapshot.
Context `{HO : IterationOrder}.

(** C23: crash atomicity of a save.  Whatever system calls fail and wherever the
    process dies: if [save] returns, the file holds exactly the new snapshot and no
    temporary file is left; if it throws, the file is untouched; if the process
    dies, the file holds the old snapshot or the new one.  No other file changes,
    the temporary one apart. *)
Theorem save_file_atomic path m fs fs' o :
  save_file path m fs = (fs', o) ->
  let old := fs_files fs' !! path = fs_files fs !! path in
  let new := fs_files fs' !! path = Some (snapshot_bytes (iteration m)) in
  match o with
  | Ret _ => new /\ fs_files fs' !! temporary path = None
  | Fail (Exn _) => old
  | Fail Crash => old \/ new
  | Undefined => False
  end /\
  forall p, p <> path -> p <> temporary path -> fs_files fs' !! p = fs_files fs !! p.
Proof.
  intros Hrun old new. pose proof (wp_elim _ _ _ _ _ _ (wp_save_file path m fs) Hrun) as H.
  pose proof (temporary_ne path) as Hne.
  destruct o as [[]|[e|]|]; [| | |done].
  - destruct H as [_ (Hnew & Htmp & Ho & _)]. by split.
  - destruct H as [Ho|[? _]]; [|done]. split; [by apply Ho|]. intros p _ Hp. by apply Ho.
  - destruct H as [Ho|(_ & _ & Hnew & _ & Ho & _)]; [|by split; [right|]].
    split; [left; by apply Ho|]. intros p _ Hp. by apply Ho.
Qed.

(** C25: round trip.  A snapshot that was saved loads back as the same map. *)
Theorem save_load_roundtrip path m fs fs' :
  save_file path m fs = (fs', Ret tt) -> fs_plan fs' = [] -> load_file path fs' = (fs', Ret m).
Proof.
  intros Hrun Hplan. pose proof (wp_elim _ _ _ _ _ _ (wp_save_file path m fs) Hrun) as [Hfit (Hnew & _)].
  rewrite (load_file_works _ _ _ Hplan Hnew). by rewrite snapshot_bytes_read.
Qed.

(** C26: validation.  [load] accepts nothing but a complete snapshot: if it returns
    a map from an existing file, the file begins with the encoding of a list of
    distinct entries within the limits whose map is the result, even when a read of
    the file failed in the middle; if no read failed, nothing follows it. *)
Theorem load_accepts_only_snapshots path fs fs' m data :
  fs_files fs !! path = Some data -> load_file path fs = (fs', Ret m) ->
  exists l rest, snapshot_of m l /\ data = snapshot_bytes l ++ rest /\ (fs_plan fs = [] -> rest = []).
Proof.
  intros Hdata Hrun. destruct (fs_plan fs) as [|x plan] eqn:Hplan.
  - rewrite (load_file_works path fs data Hplan Hdata) in Hrun.
    destruct (read_snapshot path data) as [r o] eqn:Hr. simpl in Hrun. injection Hrun as <- ->.
    apply read_snapshot_inv in Hr as [_ (l & Hl & ->)]. exists l, []. by rewrite app_nil_r.
  - pose proof (wp_elim _ _ _ _ _ _ (wp_load_file path fs) Hrun) as [_ H]. rewrite Hdata in H.
    destruct H as [k Hk]. destruct (read_snapshot path (take k data)) as [r o] eqn:Hr. simpl in Hk. subst o.
    apply read_snapshot_inv in Hr as [_ (l & Hl & Ht)]. exists l, (drop k data).
    split; [done|]. split; [by rewrite <- Ht, take_drop|done].
Qed.

Lemma parent_temporary path : parent_path (temporary path) = parent_path path.
Proof. unfold parent_path, temporary. by rewrite reverse_app. Qed.

Lemma dir_exists_created path fs :
  dir_exists (parent_path path)
    (mkFs (fs_files fs) (list_to_set (ancestors (length (parent_path path)) (parent_path path)) ∪ fs_dirs fs)
       (fs_plan fs)) = true.
Proof.
  unfold dir_exists. rewrite !orb_true_iff. right. apply bool_decide_eq_true. simpl.
  destruct (length (parent_path path)); set_solver.
Qed.

Lemma no_fault fs : fs_plan fs = [] -> next_fault fs = (fs, Ret (Fine 0)).
Proof. intros H. unfold next_fault. by rewrite H. Qed.

Lemma require_works {S} (m : M S bool) msg s s' :
  m s = (s', Ret true) -> require m msg s = (s', Ret tt).
Proof. intros H. unfold require, mbind, M_bind. by rewrite H. Qed.

(** A stream in order on a file system without faults. *)
Definition calm (w : Writer) : Prop := w_good w = true /\ fs_plan (w_fs w) = [].

Lemma write_exact_works data w :
  calm w -> exists w', write_exact data w = (w', Ret tt) /\ calm w' /\ w_path w' = w_path w /\
    (is_Some (fs_files (w_fs w) !! w_path w) -> is_Some (fs_files (w_fs w') !! w_path w)).
Proof.
  intros [Hg Hp]. unfold write_exact, stream_write, on_fs, zoom, gets, modify, mbind, M_bind.
  rewrite Hg. cbn [when w_fs buffer]. rewrite no_fault by done.
  eexists. split; [apply require_works; by unfold gets; cbn; rewrite Hg|]. split; [done|]. split; [done|].
  cbn. by rewrite lookup_alter_eq, fmap_is_Some.
Qed.

Lemma write_field_works data w :
  calm w -> field_fits data ->
  exists w', write_field data w = (w', Ret tt) /\ calm w' /\ w_path w' = w_path w /\
    (is_Some (fs_files (w_fs w) !! w_path w) -> is_Some (fs_files (w_fs w') !! w_path w)).
Proof.
  intros H Hf. unfold write_field.
  destruct (N.ltb_spec kMaximumFieldBytes (N.of_nat (length data))); [unfold field_fits in Hf; lia|].
  unfold write_uint64, mbind, M_bind.
  destruct (write_exact_works (uint64_bytes (N.of_nat (length data))) w H) as (w1 & -> & H1 & Hp1 & Hs1).
  destruct (write_exact_works data w1 H1) as (w2 & -> & H2 & Hp2 & Hs2).
  exists w2. split; [done|]. split; [done|]. rewrite Hp2, Hp1 in *. auto.
Qed.

Lemma write_entries_work l w :
  calm w -> Forall (fun kv => field_fits kv.1 /\ field_fits kv.2) l ->
  exists w', for_each l (fun kv => write_field kv.1;; write_field kv.2) w = (w', Ret tt) /\
    calm w' /\ w_path w' = w_path w /\
    (is_Some (fs_files (w_fs w) !! w_path w) -> is_Some (fs_files (w_fs w') !! w_path w)).
Proof.
  intros H Hl. revert w H. induction Hl as [|kv l [Hk Hv] _ IH]; intros w H; simpl; [eauto|].
  destruct (write_field_works kv.1 w H Hk) as (w1 & H1 & Hc1 & Hp1 & Hs1).
  destruct (write_field_works kv.2 w1 Hc1 Hv) as (w2 & H2 & Hc2 & Hp2 & Hs2).
  destruct (IH w2 Hc2) as (w3 & H3 & Hc3 & Hp3 & Hs3). exists w3. rewrite Hp2, Hp1 in *.
  split; [|split_and!; [done|done|by auto]]. unfold mbind, M_bind in *. by rewrite H1, H2.
Qed.

(** Flush and close of such a stream. *)
Lemma flush_works w :
  calm w -> stream_flush w = (spill_all w, Ret tt).
Proof.
  intros [Hg Hp]. unfold stream_flush, on_fs, zoom, gets, modify, mbind, M_bind.
  rewrite Hg. cbn [when]. rewrite no_fault by done. by destruct w.
Qed.

Lemma close_works w :
  calm w -> stream_close w = (set_w_open false (spill_all w), Ret tt).
Proof.
  intros [Hg Hp]. unfold stream_close, on_fs, zoom, gets, modify, mbind, M_bind.
  rewrite no_fault by done. by destruct w.
Qed.

Lemma good_works w msg : w_good w = true -> require (gets w_good) msg w = (w, Ret tt).
Proof. intros H. apply require_works. unfold gets. by rewrite H. Qed.

(** The block that writes the temporary file. *)
Lemma write_snapshot_succeeds path m fs :
  fs_plan fs = [] -> dir_exists (parent_path path) fs = true ->
  (forall k v, m !! k = Some v -> field_fits k /\ field_fits v) ->
  exists fs', write_snapshot path m fs = (fs', Ret tt) /\ fs_plan fs' = [].
Proof.
  intros Hpl Hdir Hfit. unfold write_snapshot, with_output. set (tmp := temporary path).
  set (fs2 := set_files (insert tmp []) fs). set (w2 := mkWriter fs2 tmp true [] true).
  assert (open_trunc tmp fs = (fs2, Ret true)) as H2.
  { unfold open_trunc, mbind, M_bind. rewrite no_fault by done. unfold get.
    unfold tmp. rewrite parent_temporary. by rewrite Hdir. }
  destruct (write_exact_works kFileMagic w2) as (w3 & H3 & Hc3 & Hp3 & Hs3); [done|].
  destruct (write_exact_works (uint64_bytes (N.of_nat (size m))) w3 Hc3) as (w4 & H4 & Hc4 & Hp4 & Hs4).
  destruct (write_entries_work (iteration m) w4 Hc4 (iteration_fits m Hfit)) as (w5 & H5 & Hc5 & Hp5 & Hs5).
  rewrite Hp4, Hp3 in *. destruct Hs5 as [d Hd].
  { apply Hs4, Hs3. simpl. by rewrite lookup_insert_eq. }
  set (w6 := spill_all w5). assert (calm w6) as Hc6 by done.
  set (w7 := set_w_open false (spill_all w6)).
  exists (set_files (move_file tmp path) (w_fs w7)). split; [|apply Hc5].
  unfold mbind, M_bind at 1. rewrite H2. unfold scope_output. fold w2.
  unfold try_finally, mbind, M_bind.
  rewrite (require_works (gets w_open) _ w2 w2) by done. rewrite H3. unfold write_uint64. rewrite H4.
  unfold mbind, M_bind in H5. rewrite H5, flush_works by done. fold w6.
  rewrite good_works by apply Hc6. rewrite close_works by done. fold w7. rewrite good_works by apply Hc6.
  rewrite (require_works _ _ w7 (set_w_fs (set_files (move_file tmp path) (w_fs w7)) w7)); [done|].
  unfold on_fs, zoom, rename_file, mbind, M_bind. rewrite no_fault by apply Hc5.
  change (w_path w2) with tmp in *. unfold get. assert (is_Some (fs_files (w_fs w7) !! tmp)) as [d' ->]; [|done].
  simpl. rewrite Hp5, !lookup_alter_eq, Hd. by eexists.
Qed.

(** A save without faults succeeds.  Every map within the limits of the format
    is saved, in a directory that need not exist yet. *)
Theorem save_file_succeeds path m fs :
  fs_plan fs = [] -> fits m -> exists fs', save_file path m fs = (fs', Ret tt) /\ fs_plan fs' = [].
Proof.
  intros Hplan [Hsize Hfit]. unfold save_file.
  destruct (N.ltb_spec kMaximumEntries (N.of_nat (size m))); [lia|].
  assert (exists fs1, when (bool_decide (parent_path path <> [])) (require (create_directories (parent_path path))
    (error_message "failed to create storage directory" (parent_path path))) fs = (fs1, Ret tt) /\
    fs_plan fs1 = [] /\ dir_exists (parent_path path) fs1 = true) as (fs1 & H1 & Hpl1 & Hdir).
  { unfold when. case_bool_decide as Hpar.
    - unfold require, create_directories, mbind, M_bind. rewrite no_fault by done. eexists.
      split; [done|]. split; [done|]. apply dir_exists_created.
    - exists fs. split; [done|]. split; [done|]. unfold dir_exists. by rewrite Hpar. }
  destruct (write_snapshot_succeeds path m fs1 Hpl1 Hdir Hfit) as (fs2 & H2 & Hpl2).
  exists fs2. split; [|done]. unfold mbind, M_bind at 1. rewrite H1. unfold try_finally. by rewrite H2.
Qed.
End snapshot.

(** ** The key-value store is a map *)

Inductive KvOp := OpPut (k v : bytes) | OpGet (k : bytes) | OpErase (k : bytes).
Inductive KvResult := RDone | RValue (v : option bytes) | RErased (b : bool) | RThrew (e : exn).

Section store_ops.
Context {S : Type} `{HS : KeyValueStore S}.

Definition run_op (op : KvOp) : M S KvResult :=
  match op with
  | OpPut k v => kv_put k v;; mret RDone
  | OpGet k => v ← kv_get k; mret (RValue v)
  | OpErase k => b ← kv_erase k; mret (RErased b)
  end.

(** How a client ends that runs a list of operations and catches exceptions. *)
Inductive ending := Ended | DiedIn (op : KvOp) | UndefinedIn (op : KvOp).

Fixpoint session (ops : list KvOp) (s : S) : S * list KvResult * ending :=
  match ops with
  | [] => (s, [], Ended)
  | op :: ops =>
    match run_op op s with
    | (s', Ret r) => let '(s'', rs, e) := session ops s' in (s'', r :: rs, e)
    | (s', Fail (Exn x)) => let '(s'', rs, e) := session ops s' in (s'', RThrew x :: rs, e)
    | (s', Fail Crash) => (s', [], DiedIn op)
    | (s', Undefined) => (s', [], UndefinedIn op)
    end
  end.
End store_ops.

(** The specification: one map.  Only an operation that changes the map may throw,
    and then it does nothing. *)
Definition map_op (op : KvOp) (m : EntryMap) : EntryMap * KvResult :=
  match op with
  | OpPut k v => (<[k := v]> m, RDone)
  | OpGet k => (m, RValue (m !! k))
  | OpErase k => (delete k m, RErased (bool_decide (is_Some (m !! k))))
  end.

Definition updates (op : KvOp) (m : EntryMap) : Prop :=
  match op with OpPut _ _ => True | OpGet _ => False | OpErase k => is_Some (m !! k) end.

Inductive map_ops : EntryMap -> list KvOp -> list KvResult -> EntryMap -> Prop :=
| mo_nil m : map_ops m [] [] m
| mo_done m op ops r rs m' m'' :
    map_op op m = (m', r) -> map_ops m' ops rs m'' -> map_ops m (op :: ops) (r :: rs) m''
| mo_threw m op ops e rs m' :
    updates op m -> map_ops m ops rs m' -> map_ops m (op :: ops) (RThrew e :: rs) m'.

(** The in-memory store is the map: nothing throws and every answer is the map's. *)
Theorem memory_store_history ops m :
  exists rs m', session ops (mkInMemoryStore m) = (mkInMemoryStore m', rs, Ended) /\
    map_ops m ops rs m' /\ forall e, RThrew e ∉ rs.
Proof.
  revert m. induction ops as [|op ops IH]; intros m; simpl.
  { exists [], m. split; [done|]. split; [constructor|set_solver]. }
  assert (run_op op (mkInMemoryStore m) = (mkInMemoryStore (map_op op m).1, Ret (map_op op m).2)) as Hop
    by (by destruct op).
  destruct (IH (map_op op m).1) as (rs & m' & Hs & Hm & Hnt). rewrite Hop, Hs.
  exists ((map_op op m).2 :: rs), m'. split; [done|]. split; [by econstructor; [apply surjective_pairing|]|].
  intros e [He|He]%elem_of_cons; [by destruct op|by apply (Hnt e)].
Qed.

Section durable_store.
Context {P : Type} `{HP : Persistence P} `{HPS : !PersistenceSpec P}.

(** One operation of the durable store, however it ends. *)
Lemma wp_run_op op (s : KvStore P) :
  store_inv s ->
  wp (run_op op) s
    (fun r s' => store_inv s' /\ map_op op (entries_ s) = (entries_ s', r))
    (fun f s' => updates op (entries_ s) /\ updated s (map_op op (entries_ s)).1 f s').
Proof.
  intros Hs. destruct op as [k v|k|k]; simpl; apply wp_bind.
  - eapply wp_mono; [by apply wp_put| |done]. intros [] s' [Hi He]. apply wp_ret. by rewrite He.
  - by apply wp_gets, wp_ret.
  - apply (wp_mono _ _ (fun b s' => store_inv s' /\ entries_ s' = delete k (entries_ s) /\
      b = bool_decide (is_Some (entries_ s !! k))) _
      (fun f s' => is_Some (entries_ s !! k) /\ updated s (delete k (entries_ s)) f s')); 
      [|intros b s' (Hi & He & ->); apply wp_ret; by rewrite He|done].
    destruct (entries_ s !! k) as [v|] eqn:Hk.
    + eapply wp_mono; [by apply wp_erase|rewrite Hk; by intros b s' (? & ? & ? & _)|by split].
    + unfold kv_erase, KvStore_kv, erase. apply wp_bind, wp_get. rewrite Hk. apply wp_ret.
      rewrite delete_id by done. by rewrite bool_decide_eq_false_2 by (by intros []).
Qed.

(** Reopening a medium in order gives its content. *)
Lemma reopen_content (p : P) s o :
  p_ok p -> open_store (Some p) = (o, Ret s) -> store_inv s /\ entries_ s = p_content p.
Proof.
  intros Hok Hopen. pose proof (open_store_spec p Hok) as Ho. rewrite Hopen in Ho.
  destruct o; [|done]. by destruct Ho as (? & _ & ?).
Qed.

(** What a session leaves on the medium. *)
Lemma session_history ops (s s' : KvStore P) rs e :
  store_inv s -> session ops s = (s', rs, e) ->
  exists m, map_ops (entries_ s) (take (length rs) ops) rs m /\ p_ok (persistence_ s') /\
  match e with
  | Ended => length rs = length ops /\ entries_ s' = m /\ p_content (persistence_ s') = m
  | DiedIn op => ops !! length rs = Some op /\
      (p_content (persistence_ s') = m \/ p_content (persistence_ s') = (map_op op m).1)
  | UndefinedIn _ => False
  end.
Proof.
  revert s rs. induction ops as [|op ops IH]; intros s rs Hs; simpl.
  { intros [= <- <- <-]. exists (entries_ s). split; [constructor|]. by destruct Hs as [? ->]. }
  pose proof (wp_run_op op s Hs) as H. unfold wp in H.
  destruct (run_op op s) as [s1 [r|[x|]|]]; [| | |done].
  - destruct H as [Hs1 Hop]. destruct (session ops s1) as [[s2 rs2] e2] eqn:Hr. intros [= <- <- <-].
    destruct (IH s1 rs2 Hs1 Hr) as (m & Hm & Hok & Hend). exists m.
    split; [by econstructor|]. split; [done|]. destruct e2; [|done..]. destruct Hend as [? Hend].
    split; [simpl; congruence|done].
  - destruct H as [Hu (Hok1 & He1 & Hc1)]. destruct (session ops s1) as [[s2 rs2] e2] eqn:Hr. intros [= <- <- <-].
    assert (store_inv s1) as Hs1 by (destruct Hs as [_ Hs]; split; congruence).
    destruct (IH s1 rs2 Hs1 Hr) as (m & Hm & Hok & Hend). exists m. rewrite He1 in Hm.
    split; [by constructor|]. split; [done|]. destruct e2; [|done..]. destruct Hend as [? Hend].
    split; [simpl; congruence|done].
  - destruct H as [Hu (Hok1 & He1 & Hc1)]. intros [= <- <- <-]. exists (entries_ s).
    split; [constructor|]. split; [done|]. split; [done|]. destruct Hs as [_ Hs]. rewrite Hs in *. done.
Qed.

(** C29: the durable store is one map, across operations, exceptions and a death.
    A client opens a [KvStore] on a medium in order and runs any list of operations,
    catching exceptions.  Up to where it ends, every answer is the one a finite map
    gives that began with the content of the medium, where an operation that throws
    is one that changes the map and has no effect.  Opening the medium again gives
    the final map; if the process died in an operation, the map with or without it. *)
Theorem durable_store_history ops p o (s s' : KvStore P) rs e o' s'' :
  p_ok p -> open_store (Some p) = (o, Ret s) -> session ops s = (s', rs, e) ->
  open_store (Some (persistence_ s')) = (o', Ret s'') ->
  exists m, map_ops (p_content p) (take (length rs) ops) rs m /\
  match e with
  | Ended => length rs = length ops /\ entries_ s' = m /\ entries_ s'' = m
  | DiedIn op => ops !! length rs = Some op /\ (entries_ s'' = m \/ entries_ s'' = (map_op op m).1)
  | UndefinedIn _ => False
  end.
Proof.
  intros Hok Hopen Hrun Hre. destruct (reopen_content p s o Hok Hopen) as [Hs He].
  destruct (session_history ops s s' rs e Hs Hrun) as (m & Hm & Hok' & Hend).
  destruct (reopen_content _ s'' o' Hok' Hre) as [_ Hc]. exists m. rewrite <- He, Hc.
  split; [done|]. destruct e; [|done..]. by destruct Hend as (? & ? & ?).
Qed.

(** Save before publish.  After [put], however it ends, a process that reopens
    the store finds the map with the new value if [put] returned, the old map if it
    threw (which is also what the running process keeps showing), and one of the two
    if the process died. *)
Theorem put_then_reopen k v (s s' : KvStore P) o p' s'' :
  store_inv s -> put k v s = (s', o) -> open_store (Some (persistence_ s')) = (p', Ret s'') ->
  match o with
  | Ret _ => entries_ s'' = <[k := v]> (entries_ s) /\ entries_ s' = <[k := v]> (entries_ s)
  | Fail (Exn _) => entries_ s'' = entries_ s /\ entries_ s' = entries_ s
  | Fail Crash => entries_ s'' = entries_ s \/ entries_ s'' = <[k := v]> (entries_ s)
  | Undefined => False
  end.
Proof.
  intros Hs Hrun Hopen. pose proof (wp_elim _ _ _ _ _ _ (wp_put k v s Hs) Hrun) as H.
  assert (p_ok (persistence_ s') -> entries_ s'' = p_content (persistence_ s')) as Hre.
  { intros Hok. pose proof (open_store_spec (persistence_ s') Hok) as Ho. rewrite Hopen in Ho.
    destruct p'; [|done]. apply Ho. }
  destruct Hs as [Hok Heq]. destruct o as [[]|[e|]|]; [| | |done].
  - destruct H as [[Hok' Heq'] He]. rewrite Hre by done. by rewrite <- Heq'.
  - destruct H as (Hok' & He & Hc). rewrite Hre by done. rewrite Hc, He. by split.
  - destruct H as (Hok' & He & Hc). rewrite Hre by done. rewrite Heq in *.
    destruct Hc as [->| ->]; auto.
Qed.

(** C24: the durable Raft state.  After [DurableRaftStorage::save], however it
    ends, a process that reopens the storage loads the new state if [save]
    returned, the old one if it threw, and one of the two if the process died. *)
Theorem raft_state_survives_restart ps (s s' s'' : KvStore P) o :
  storage_inv s -> wf_persistent ps -> durable_save ps s = (s', o) ->
  durable_reopen s' = (s'', Ret tt) ->
  match o with
  | Ret _ => durable_load s'' = Ret ps
  | Fail (Exn _) => durable_load s'' = durable_load s
  | Fail Crash => durable_load s'' = durable_load s \/ durable_load s'' = Ret ps
  | Undefined => False
  end.
Proof.
  intros Hs Hwf Hrun Hopen.
  pose proof (wp_elim _ _ _ _ _ _ (storage_save_spec ps s Hs Hwf) Hrun) as H.
  pose proof (storage_load_spec s Hs) as Hload. simpl in Hload.
  assert (medium_ok s' -> durable_load s'' = Ret (durable s')) as Hre.
  { intros Hm. pose proof (wp_elim _ _ _ _ _ _ (storage_reopen_spec s' Hm) Hopen) as [Hi Hd].
    pose proof (storage_load_spec s'' Hi) as Hl. simpl in Hl, Hd. by rewrite Hl, Hd. }
  destruct o as [[]|[e|]|]; [| | |done].
  - destruct H as [Hi Hd]. rewrite Hre by (by apply storage_inv_medium). by rewrite Hd.
  - destruct H as [Hi Hd]. rewrite Hre by (by apply storage_inv_medium). by rewrite Hd, Hload.
  - destruct H as [Hm Hd]. rewrite Hre by done. destruct Hd as [->| ->]; auto.
Qed.
End durable_store.

(** C30: round trip of the Raft state encoding: whatever [encode_state] produces,
    [decode_state] reads back. *)
Theorem raft_state_roundtrip ps bs :
  wf_persistent ps -> encode_state ps = Ret bs -> decode_state bs = Ret ps.
Proof. apply state_roundtrip. Qed.

(** Decoding is total.  On any bytes whatever [decode_state] returns a state
    whose numbers fit their 64 bits or throws; no read is out of bounds. *)
Theorem decode_state_total input :
  match decode_state input with
  | Ret ps => wf_persistent ps
  | Fail f => f <> Crash
  | Undefined => False
  end.
Proof. apply decode_state_wf. Qed.

Lemma encode_log_size log output bs e :
  encode_log log output = Ret bs -> e ∈ log -> (size_of output + size_of (command e) < size_of bs)%N.
Proof.
  revert output. induction log as [|x log IH]; intros output; cbn [encode_log]; [set_solver|].
  destruct (_ <? _)%N; [done|]. intros Henc [->|Hin]%elem_of_cons.
  - apply encode_log_inv in Henc as [-> _]. unfold size_of, append_uint64.
    rewrite !length_app, !length_uint64_bytes. cbn [length]. lia.
  - specialize (IH _ Henc Hin). unfold size_of, append_uint64 in *. rewrite !length_app in IH. lia.
Qed.

(** the command limit cannot be reached.  [encode_state] accepts commands of up
    to [kMaximumCommandBytes], but the encoded state is one field of the snapshot,
    limited to the same number of bytes: a log with a command of that size is never
    saved. *)
Theorem largest_command_never_saved `{IterationOrder} ps e (s s' : KvStore FilePersistence) :
  e ∈ ps_log ps -> size_of (command e) = kMaximumCommandBytes -> durable_save ps s <> (s', Ret tt).
Proof.
  intros He Hsize Hrun. unfold durable_save, lift, mbind, M_bind in Hrun.
  destruct (encode_state ps) as [bs|f|] eqn:Henc; [|done|done].
  assert (kMaximumFieldBytes < size_of bs)%N as Hbig.
  { unfold encode_state in Henc. destruct (_ <? _)%N; [done|].
    pose proof (encode_log_size _ _ _ e Henc He). unfold kMaximumFieldBytes, kMaximumCommandBytes in *. lia. }
  unfold put, save_entries, zoom, mbind, M_bind, get, p_save, File_persistence, gets in Hrun.
  simpl in Hrun.
  pose proof (wp_save_file (file_path_ (persistence_ s)) (<[kRaftStateKey := bs]> (entries_ s))
    (file_system (persistence_ s))) as Hw. unfold wp in Hw.
  unfold zoom, mbind, M_bind in Hrun. destruct (save_file _ _ _) as [fs' [[]|f|]]; [|done|done].
  destruct Hw as [[_ Hfit] _]. destruct (Hfit kRaftStateKey bs) as [_ Hf]; [by rewrite lookup_insert_eq|].
  unfold field_fits, size_of in *. lia.
Qed.

(** ** Witnesses *)

Section demo.
Definition demo_path : bytes := bytes_of "data/raft.snapshot".
Definition demo_map : EntryMap := {[ bytes_of "a" := bytes_of "1"; bytes_of "b" := bytes_of "2" ]}.
Definition demo_fs (plan : list fault) : Fs := mkFs ∅ ∅ plan.

(** The thirteenth call of this save is the flush, the fourteenth the close and the
    fifteenth the rename. *)
Definition demo_saved (plan : list fault) : Fs := (save_file demo_path demo_map (demo_fs plan)).1.
End demo.

Ltac eval_refl := vm_compute; reflexivity.

(** The flush gets three bytes out and fails, the close in the destructor fails
    too, and the temporary file cannot be removed. *)
Definition demo_lost : list fault := replicate 12 (Fine 3) ++ [Error 3; Error 0; Error 0].

Lemma save_file_atomic_witness :
  fs_files (demo_saved demo_lost) !! demo_path = fs_files (demo_fs demo_lost) !! demo_path.
Proof.
  destruct (save_file_atomic demo_path demo_map (demo_fs demo_lost) (demo_saved demo_lost)
    (Fail (Exn (StorageError (error_message "failed to flush storage file" (temporary demo_path))))))
    as [H _]; [eval_refl|exact H].
Defined.

Lemma save_load_roundtrip_witness :
  load_file demo_path (demo_saved []) = (demo_saved [], Ret demo_map).
Proof. apply (save_load_roundtrip demo_path demo_map (demo_fs [])); eval_refl. Defined.

Lemma load_accepts_only_snapshots_witness :
  exists l rest, snapshot_of demo_map l /\ snapshot_bytes (iteration demo_map) = snapshot_bytes l ++ rest /\
    (fs_plan (demo_saved []) = [] -> rest = []).
Proof.
  apply (load_accepts_only_snapshots demo_path (demo_saved []) (demo_saved [])); eval_refl.
Defined.

(** A read error after the last entry hides what follows it. *)
Definition loads_despite (plan : list fault) : bool :=
  let data := snapshot_bytes (iteration demo_map) ++ [Byte.x00] in
  match (load_file demo_path (mkFs {[ demo_path := data ]} ∅ plan)).2 with
  | Ret m => bool_decide (m = demo_map)
  | _ => false
  end.

Lemma read_error_hides_trailing_data :
  loads_despite [] = false /\
  loads_despite [Fine 0; Fine 0; Error (length (snapshot_bytes (iteration demo_map)))] = true.
Proof. split; eval_refl. Qed.

Lemma save_file_succeeds_witness :
  exists fs', save_file demo_path demo_map (demo_fs []) = (fs', Ret tt) /\ fs_plan fs' = [].
Proof.
  apply save_file_succeeds; [reflexivity|]. split; [vm_compute; discriminate|].
  unfold demo_map. intros k v [[<- <-]|[_ [<- <-]%lookup_singleton_Some]]%lookup_insert_Some;
    split; vm_compute; discriminate.
Defined.

(** A store over a file whose next save fails at its first write. *)
Definition demo_store (plan : list fault) : KvStore FilePersistence :=
  mkKvStore (mkFilePersistence demo_path (demo_fs plan)) ∅.

Definition demo_put (plan : list fault) : KvStore FilePersistence :=
  (put (bytes_of "a") (bytes_of "1") (demo_store plan)).1.

(** The first [put] is saved in eleven calls, the second dies in its rename. *)
Definition demo_ops : list KvOp :=
  [OpPut (bytes_of "a") (bytes_of "1"); OpErase (bytes_of "b"); OpGet (bytes_of "a");
   OpPut (bytes_of "a") (bytes_of "2"); OpGet (bytes_of "a")].

Definition demo_medium : FilePersistence :=
  mkFilePersistence demo_path (demo_fs (replicate 1 (Fine 0) ++ replicate 11 (Fine 2) ++ replicate 10 (Fine 0) ++ [Death 1])).

Definition demo_opened : KvStore FilePersistence :=
  match (open_store (Some demo_medium)).2 with Ret s => s | _ => demo_store [] end.

Definition demo_died : KvStore FilePersistence := (session demo_ops demo_opened).1.1.

Definition demo_reopened : KvStore FilePersistence :=
  match (open_store (Some (persistence_ demo_died))).2 with Ret s => s | _ => demo_store [] end.

Lemma durable_store_history_witness :
  exists m, map_ops (file_content demo_medium) (take 3 demo_ops) [RDone; RErased false; RValue (Some (bytes_of "1"))] m /\
    demo_ops !! 3 = Some (OpPut (bytes_of "a") (bytes_of "2")) /\
    (entries_ demo_reopened = m \/ entries_ demo_reopened = <[bytes_of "a" := bytes_of "2"]> m).
Proof.
  destruct (durable_store_history demo_ops demo_medium (open_store (Some demo_medium)).1 demo_opened demo_died
    [RDone; RErased false; RValue (Some (bytes_of "1"))] (DiedIn (OpPut (bytes_of "a") (bytes_of "2")))
    (open_store (Some (persistence_ demo_died))).1 demo_reopened) as (m & Hm & Hend);
    [exact I|eval_refl|eval_refl|eval_refl|exists m; split; [exact Hm|exact Hend]].
Defined.

Lemma put_then_reopen_witness :
  entries_ (demo_put []) = <[bytes_of "a" := bytes_of "1"]> ∅.
Proof.
  destruct (put_then_reopen (bytes_of "a") (bytes_of "1") (demo_store []) (demo_put []) (Ret tt)
    (Some (persistence_ (demo_put []))) (demo_put [])) as [_ H];
    [split; reflexivity|eval_refl|eval_refl|exact H].
Defined.

Definition demo_state : PersistentState :=
  mkPersistent 3 (Some 2%N) [mkEntry 1 [] true; mkEntry 3 (bytes_of "x=1") false].

Definition demo_state_saved : KvStore FilePersistence :=
  (durable_save demo_state (demo_store [Fine 0; Fine 0; Fine 0; Error 3])).1.

Lemma raft_state_survives_restart_witness :
  durable_load demo_state_saved = durable_load (demo_store []).
Proof.
  apply (raft_state_survives_restart demo_state (demo_store [Fine 0; Fine 0; Fine 0; Error 3]) demo_state_saved
    demo_state_saved (Fail (Exn (StorageError "failed to write storage snapshot"))));
    [split; [split; reflexivity|by eexists]| |eval_refl|eval_refl].
  split; [reflexivity|]. split; [by intros v [= <-]|repeat constructor].
Defined.

Definition demo_state_bytes : bytes :=
  match encode_state demo_state with Ret bs => bs | _ => [] end.

Lemma raft_state_roundtrip_witness : decode_state demo_state_bytes = Ret demo_state.
Proof.
  apply raft_state_roundtrip; [|eval_refl].
  split; [reflexivity|]. split; [by intros v [= <-]|repeat constructor].
Defined.

Definition largest_command : bytes := replicate (N.to_nat kMaximumCommandBytes) Byte.x00.

Lemma largest_command_never_saved_witness :
  durable_save (mkPersistent 1 None [mkEntry 1 largest_command false]) (demo_store []) <> (demo_store [], Ret tt).
Proof.
  apply (largest_command_never_saved _ (mkEntry 1 largest_command false)); [constructor|].
  unfold size_of, largest_command. cbn [command]. rewrite length_replicate. apply N2Nat.id.
Defined.
