(* ===== verification/KvThreads.v ===== *)
(** * The store under concurrent calls

    The server runs the handlers of [KeyValueService] on several threads, which
    share one [KvStore].  This file models the methods of
    [src/src/storage/kv_store.cpp] line by line on any number of threads: the
    [std::shared_mutex], the copy of the map, its update, the save, the swap and
    the two reads of [get] are separate steps.  Every concurrent history is one of
    a store whose methods take effect at a single point between call and return,
    which is how the rest of the development treats them. *)

From Stdlib Require Import NArith Lia.
From stdpp Require Import base tactics numbers list gmap functions relations strings.
From S2P Require Import Prelude KvInterface KvStore FilePersistence FileSnapshot StorageProperties.

(** ** The lock *)

(** [std::shared_mutex]: one writer, or readers. *)
Record SharedMutex := mkMutex {
  lk_writer : option nat;
  lk_readers : gset nat
}.

Definition unlocked : SharedMutex := mkMutex None ∅.

(** [get] takes the lock shared, [put] and [erase] exclusively. *)
Definition is_shared (op : KvOp) : bool := match op with OpGet _ => true | _ => false end.

(** [None] while the lock is not available. *)
Definition acquire (op : KvOp) (t : nat) (l : SharedMutex) : option SharedMutex :=
  match lk_writer l with
  | Some _ => None
  | None =>
    if is_shared op then Some (mkMutex None ({[t]} ∪ lk_readers l))
    else if decide (lk_readers l = ∅) then Some (mkMutex (Some t) ∅)
    else None
  end.

Definition release (op : KvOp) (t : nat) (l : SharedMutex) : SharedMutex :=
  if is_shared op then mkMutex (lk_writer l) (lk_readers l ∖ {[t]}) else mkMutex None (lk_readers l).

(** ** The threads *)

(** Where a thread is; the line it stands before. *)
Inductive Pc :=
| Idle
| Called (op : KvOp)                        (* the constructor of the lock *)
| Locked (op : KvOp)                        (* [auto updated_entries = entries_], or [find] *)
| Copied (op : KvOp) (updated : EntryMap)   (* [insert_or_assign], or [erase] on the copy *)
| Ready (op : KvOp) (updated : EntryMap)    (* [persistence_->save(updated_entries)] *)
| Saved (op : KvOp) (updated : EntryMap)    (* [entries_.swap(updated_entries)] *)
| Found (key : bytes)                       (* [return entry->second] *)
| Leaving (op : KvOp) (r : KvResult)        (* the destructor of the lock *)
| Returned (r : KvResult).

Section threads.
Context {P : Type} `{HP : Persistence P}.

Record Threads := mkThreads {
  th_store : KvStore P;
  th_lock : SharedMutex;
  th_pcs : nat -> Pc
}.
Implicit Types (x : Threads) (t : nat).

Definition set_pc t (pc : Pc) x : Threads := mkThreads (th_store x) (th_lock x) (<[t := pc]> (th_pcs x)).

Inductive Next := Blocked | Moves (x : Threads) | Dies (p : P) | Undef.

(** What a method that changed the map returns. *)
Definition success (op : KvOp) : KvResult := match op with OpErase _ => RErased true | _ => RDone end.

Definition save_line t (op : KvOp) (updated : EntryMap) x : Next :=
  match save_entries updated (th_store x) with
  | (s, Ret _) => Moves (mkThreads s (th_lock x) (<[t := Saved op updated]> (th_pcs x)))
  | (s, Fail (Exn e)) => Moves (mkThreads s (th_lock x) (<[t := Leaving op (RThrew e)]> (th_pcs x)))
  | (s, Fail Crash) => Dies (persistence_ s)
  | (_, Undefined) => Undef
  end.

(** The next line of the method thread [t] is in. *)
Definition thread_step t x : Next :=
  match th_pcs x t with
  | Idle | Returned _ => Blocked
  | Called op =>
    match acquire op t (th_lock x) with
    | Some l => Moves (mkThreads (th_store x) l (<[t := Locked op]> (th_pcs x)))
    | None => Blocked
    end
  | Locked (OpGet key) =>
    match entries_ (th_store x) !! key with
    | Some _ => Moves (set_pc t (Found key) x)
    | None => Moves (set_pc t (Leaving (OpGet key) (RValue None)) x)
    end
  | Locked op => Moves (set_pc t (Copied op (entries_ (th_store x))) x)
  | Copied (OpPut key value) updated => Moves (set_pc t (Ready (OpPut key value) (<[key := value]> updated)) x)
  | Copied (OpErase key) updated =>
    match updated !! key with
    | Some _ => Moves (set_pc t (Ready (OpErase key) (delete key updated)) x)
    | None => Moves (set_pc t (Leaving (OpErase key) (RErased false)) x)
    end
  | Copied (OpGet _) _ => Blocked
  | Ready op updated => save_line t op updated x
  | Saved op updated =>
      Moves (mkThreads (mkKvStore (persistence_ (th_store x)) updated) (th_lock x)
               (<[t := Leaving op (success op)]> (th_pcs x)))
  | Found key =>
    match entries_ (th_store x) !! key with
    | Some value => Moves (set_pc t (Leaving (OpGet key) (RValue (Some value))) x)
    | None => Undef
    end
  | Leaving op r => Moves (mkThreads (th_store x) (release op t (th_lock x)) (<[t := Returned r]> (th_pcs x)))
  end.

(** ** Histories *)

Inductive Label := LCall (t : nat) (op : KvOp) | LReturn (t : nat) (r : KvResult) | LDeath.

(** The process runs, or only its snapshot is left. *)
Inductive System (A : Type) := Running (x : A) | Dead (p : P).
Arguments Running {A} x.
Arguments Dead {A} p.

Inductive exec {A} (step : A -> option Label -> A -> Prop) : A -> list Label -> A -> Prop :=
| exec_nil s : exec step s [] s
| exec_step s l s' h s'' : step s l s' -> exec step s' h s'' -> exec step s (option_list l ++ h) s''.

(** Threads in any order; the process may be killed at any line. *)
Inductive thread_moves : System Threads -> option Label -> System Threads -> Prop :=
| tm_call x t op : th_pcs x t = Idle -> thread_moves (Running x) (Some (LCall t op)) (Running (set_pc t (Called op) x))
| tm_line x t x' : thread_step t x = Moves x' -> thread_moves (Running x) None (Running x')
| tm_return x t r :
    th_pcs x t = Returned r -> thread_moves (Running x) (Some (LReturn t r)) (Running (set_pc t Idle x))
| tm_crash x t p : thread_step t x = Dies p -> thread_moves (Running x) (Some LDeath) (Dead p)
| tm_kill x : thread_moves (Running x) (Some LDeath) (Dead (persistence_ (th_store x))).

Definition threads_start (s : KvStore P) : System Threads := Running (mkThreads s unlocked (fun _ => Idle)).

(** ** The specification: methods that take effect at once *)

Inductive APc := AIdle | APending (op : KvOp) | ADone (r : KvResult).

Record Atomic := mkAtomic {
  at_store : KvStore P;
  at_pcs : nat -> APc
}.

Inductive atomic_moves : System Atomic -> option Label -> System Atomic -> Prop :=
| am_call a t op :
    at_pcs a t = AIdle ->
    atomic_moves (Running a) (Some (LCall t op)) (Running (mkAtomic (at_store a) (<[t := APending op]> (at_pcs a))))
| am_done a t op s r :
    at_pcs a t = APending op -> run_op op (at_store a) = (s, Ret r) ->
    atomic_moves (Running a) None (Running (mkAtomic s (<[t := ADone r]> (at_pcs a))))
| am_threw a t op s e :
    at_pcs a t = APending op -> run_op op (at_store a) = (s, Fail (Exn e)) ->
    atomic_moves (Running a) None (Running (mkAtomic s (<[t := ADone (RThrew e)]> (at_pcs a))))
| am_return a t r :
    at_pcs a t = ADone r ->
    atomic_moves (Running a) (Some (LReturn t r)) (Running (mkAtomic (at_store a) (<[t := AIdle]> (at_pcs a))))
| am_crash a t op s :
    at_pcs a t = APending op -> run_op op (at_store a) = (s, Fail Crash) ->
    atomic_moves (Running a) (Some LDeath) (Dead (persistence_ s))
| am_kill a : atomic_moves (Running a) (Some LDeath) (Dead (persistence_ (at_store a))).

Definition atomic_start (s : KvStore P) : System Atomic := Running (mkAtomic s (fun _ => AIdle)).
End threads.

Arguments Threads P : clear implicits.
Arguments Atomic P : clear implicits.
Arguments System P A : clear implicits.
Arguments Next P : clear implicits.
Arguments Running {P A} x.
Arguments Dead {P A} p.

(** ** What the lock protects *)

(** The call of a thread that holds the lock. *)
Definition inside (pc : Pc) : option KvOp :=
  match pc with
  | Locked op | Copied op _ | Ready op _ | Saved op _ | Leaving op _ => Some op
  | Found key => Some (OpGet key)
  | Idle | Called _ | Returned _ => None
  end.

Definition holds (shared : bool) (pc : Pc) : Prop := exists op, inside pc = Some op /\ is_shared op = shared.

Lemma holds_not shared op pc : inside pc = Some op -> is_shared op <> shared -> ~ holds shared pc.
Proof. intros Hi Hne (op' & Hi' & Hs). congruence. Qed.

Record lock_inv (l : SharedMutex) (pcs : nat -> Pc) : Prop := {
  li_readers : forall t, t ∈ lk_readers l <-> holds true (pcs t);
  li_writer : forall t, lk_writer l = Some t <-> holds false (pcs t);
  li_exclusive : is_Some (lk_writer l) -> lk_readers l = ∅
}.

Lemma lock_inv_stay l pcs t pc :
  lock_inv l pcs -> inside pc = inside (pcs t) -> lock_inv l (<[t := pc]> pcs).
Proof.
  intros [H1 H2 H3] Hpc.
  assert (forall b t', holds b (<[t := pc]> pcs t') <-> holds b (pcs t')) as Hsame.
  { intros b t'. destruct (decide (t = t')) as [<-|Hne]; [|by rewrite fn_lookup_insert_ne].
    rewrite fn_lookup_insert. unfold holds. by rewrite Hpc. }
  split; [|..|done]; intros t'; by rewrite Hsame.
Qed.

Lemma lock_inv_enter l l' pcs t op :
  lock_inv l pcs -> inside (pcs t) = None -> acquire op t l = Some l' ->
  lock_inv l' (<[t := Locked op]> pcs).
Proof.
  intros [H1 H2 H3] Hout Hacq. unfold acquire in Hacq.
  assert (forall b t', holds b (<[t := Locked op]> pcs t') <-> t' = t /\ is_shared op = b \/ holds b (pcs t')) as Hin.
  { intros b t'. destruct (decide (t = t')) as [<-|Hne].
    - rewrite fn_lookup_insert. unfold holds. rewrite Hout. simpl. naive_solver.
    - rewrite fn_lookup_insert_ne by done. naive_solver. }
  destruct (lk_writer l) as [w|] eqn:Hw; [done|]. assert (forall t', ~ holds false (pcs t')) as Hno.
  { intros t' Ht'%H2. done. }
  destruct (is_shared op) eqn:Hs.
  - injection Hacq as <-. split; simpl.
    + intros t'. rewrite Hin, elem_of_union, elem_of_singleton, H1. naive_solver.
    + intros t'. rewrite Hin. naive_solver.
    + by intros [? ?].
  - destruct (decide (lk_readers l = ∅)) as [He|]; [|done]. injection Hacq as <-. split; simpl.
    + intros t'. rewrite Hin, <- H1, He. set_solver.
    + intros t'. rewrite Hin. naive_solver.
    + done.
Qed.

Lemma lock_inv_leave l pcs t op r :
  lock_inv l pcs -> inside (pcs t) = Some op -> lock_inv (release op t l) (<[t := Returned r]> pcs).
Proof.
  intros [H1 H2 H3] Hin.
  assert (forall b t', holds b (<[t := Returned r]> pcs t') <-> t' <> t /\ holds b (pcs t')) as Hout.
  { intros b t'. destruct (decide (t = t')) as [<-|Hne].
    - rewrite fn_lookup_insert. unfold holds. simpl. naive_solver.
    - rewrite fn_lookup_insert_ne by done. naive_solver. }
  unfold release. destruct (is_shared op) eqn:Hs; split; simpl.
  - intros t'. rewrite Hout, elem_of_difference, elem_of_singleton, H1. naive_solver.
  - intros t'. rewrite Hout, H2. split; [|naive_solver]. intros Hh. split; [|done]. intros ->.
    by apply (holds_not false op _ Hin); [rewrite Hs|].
  - intros Hw. rewrite (H3 Hw). set_solver.
  - intros t'. rewrite Hout, H1. split; [|naive_solver]. intros Hh. split; [|done]. intros ->.
    by apply (holds_not true op _ Hin); [rewrite Hs|].
  - intros t'. rewrite Hout. split; [done|]. intros [Hne Ht']. destruct Hne.
    apply H2 in Ht'. assert (lk_writer l = Some t) as Hw by (apply H2; by exists op). congruence.
  - by intros [? ?].
Qed.

(** A thread that holds the lock exclusively is alone. *)
Lemma writer_alone l pcs t op t' :
  lock_inv l pcs -> inside (pcs t) = Some op -> is_shared op = false -> t' <> t -> inside (pcs t') = None.
Proof.
  intros [H1 H2 H3] Hin Hs Hne. assert (lk_writer l = Some t) as Hw by (apply H2; by exists op).
  destruct (inside (pcs t')) as [op'|] eqn:Hin'; [exfalso|done]. destruct (is_shared op') eqn:Hs'.
  - assert (t' ∈ lk_readers l) as Hr by (apply H1; by exists op').
    rewrite H3 in Hr by (by rewrite Hw). by apply not_elem_of_empty in Hr.
  - assert (lk_writer l = Some t') by (apply H2; by exists op'). congruence.
Qed.

(** What a thread knows of the shared map while it holds the lock. *)
Definition changes (op : KvOp) (m u : EntryMap) : Prop :=
  match op with
  | OpPut k v => u = <[k := v]> m
  | OpErase k => is_Some (m !! k) /\ u = delete k m
  | OpGet _ => False
  end.

Definition pc_ok (m : EntryMap) (pc : Pc) : Prop :=
  match pc with
  | Copied op u => is_shared op = false /\ u = m
  | Ready op u => changes op m u
  | Saved op u => is_shared op = false
  | Found k => is_Some (m !! k)
  | _ => True
  end.

Lemma pc_ok_outside m pc : inside pc = None -> pc_ok m pc.
Proof. by destruct pc. Qed.

(** ** Linearization *)

Section linearization.
Context {P : Type} `{HP : Persistence P}.
Implicit Types (x : Threads P) (a : Atomic P) (t : nat).

(** A method takes effect when it reads the map for the last time, or saves. *)
Definition abs_pc (pc : Pc) : APc :=
  match pc with
  | Idle => AIdle
  | Called op | Locked op | Copied op _ | Ready op _ => APending op
  | Found key => APending (OpGet key)
  | Saved op _ => ADone (success op)
  | Leaving _ r | Returned r => ADone r
  end.

Definition unsaved (pc : Pc) : Prop := forall op u, pc <> Saved op u.

(** The effect of a writer is visible from its save on. *)
Record linearizes x a : Prop := {
  ln_lock : lock_inv (th_lock x) (th_pcs x);
  ln_pcs : forall t, pc_ok (entries_ (th_store x)) (th_pcs x t);
  ln_abs : forall t, at_pcs a t = abs_pc (th_pcs x t);
  ln_persistence : persistence_ (at_store a) = persistence_ (th_store x);
  ln_saved : forall t op u, th_pcs x t = Saved op u -> entries_ (at_store a) = u;
  ln_entries : (forall t, unsaved (th_pcs x t)) -> entries_ (at_store a) = entries_ (th_store x)
}.

Lemma lookup_pc {A} (pcs : nat -> A) t pc t' :
  t' = t /\ <[t := pc]> pcs t' = pc \/ t' <> t /\ <[t := pc]> pcs t' = pcs t'.
Proof.
  destruct (decide (t = t')) as [<-|Hne]; [left|right].
  - by rewrite fn_lookup_insert.
  - by rewrite fn_lookup_insert_ne.
Qed.

Ltac pc_case t' := match goal with
  | |- context [<[?t := ?pc]> ?pcs t'] => destruct (lookup_pc pcs t pc t') as [[-> ->]|[? ->]]
  end.

(** Nobody is between save and swap while another thread holds the lock. *)
Lemma inside_unsaved x a t op :
  linearizes x a -> inside (th_pcs x t) = Some op -> unsaved (th_pcs x t) -> forall t', unsaved (th_pcs x t').
Proof.
  intros Hl Hin Hun t' op' u Hs. destruct (decide (t' = t)) as [->|Hne]; [by eapply Hun|].
  pose proof (ln_pcs x a Hl t') as Hok. rewrite Hs in Hok.
  rewrite (writer_alone _ _ t' op' t (ln_lock x a Hl)) in Hin; [done|by rewrite Hs|done|done].
Qed.

Lemma inside_store x a t op :
  linearizes x a -> inside (th_pcs x t) = Some op -> unsaved (th_pcs x t) -> at_store a = th_store x.
Proof.
  intros Hl Hin Hun. pose proof (ln_entries x a Hl (inside_unsaved x a t op Hl Hin Hun)) as He.
  pose proof (ln_persistence x a Hl) as Hp. destruct (at_store a), (th_store x). simpl in *. by subst.
Qed.

(** A thread moves on; the store stays. *)
Lemma shift x a t pc l :
  linearizes x a -> lock_inv l (<[t := pc]> (th_pcs x)) -> pc_ok (entries_ (th_store x)) pc ->
  unsaved (th_pcs x t) -> unsaved pc ->
  linearizes (mkThreads (th_store x) l (<[t := pc]> (th_pcs x)))
    (mkAtomic (at_store a) (<[t := abs_pc pc]> (at_pcs a))).
Proof.
  intros [H1 H2 H3 H4 H5 H6] Hl Hok Hun Hun'. split; simpl; [done| | |done| |].
  - intros t'. by pc_case t'.
  - intros t'. destruct (lookup_pc (th_pcs x) t pc t') as [[-> ->]|[Hne ->]].
    + by rewrite fn_lookup_insert.
    + by rewrite fn_lookup_insert_ne.
  - intros t' op u. pc_case t'; [intros Hs; by destruct (Hun' op u)|apply H5].
  - intros Hno. apply H6. intros t'. destruct (decide (t' = t)) as [->|Hne]; [done|].
    specialize (Hno t'). by rewrite fn_lookup_insert_ne in Hno.
Qed.

Lemma linearizes_ext x a a' :
  at_store a = at_store a' -> (forall t, at_pcs a t = at_pcs a' t) -> linearizes x a' -> linearizes x a.
Proof.
  intros Hs Hp [H1 H2 H3 H4 H5 H6]. split; try (rewrite Hs); try done. intros t. by rewrite Hp.
Qed.

(** ... and nothing happened yet. *)
Lemma stutter x a t pc l :
  linearizes x a -> lock_inv l (<[t := pc]> (th_pcs x)) -> pc_ok (entries_ (th_store x)) pc ->
  unsaved (th_pcs x t) -> unsaved pc -> abs_pc pc = abs_pc (th_pcs x t) ->
  linearizes (mkThreads (th_store x) l (<[t := pc]> (th_pcs x))) a.
Proof.
  intros Hl Hli Hok Hun Hun' Habs. eapply linearizes_ext; [| |by apply (shift x a t pc l)]; [done|].
  intros t'. simpl. pc_case t'; [|done]. by rewrite Habs, (ln_abs x a Hl).
Qed.

Definition simulated x' a : Prop :=
  exists a', (a' = a \/ atomic_moves (Running a) None (Running a')) /\ linearizes x' a'.

(** A method that only looks at the map takes effect. *)
Lemma looks x a t op r pc :
  linearizes x a -> abs_pc (th_pcs x t) = APending op ->
  inside (th_pcs x t) = Some op -> unsaved (th_pcs x t) -> pc = Leaving op r ->
  run_op op (th_store x) = (th_store x, Ret r) -> simulated (set_pc t pc x) a.
Proof.
  intros Hl Habs Hin Hun -> Hrun. pose proof (inside_store x a t op Hl Hin Hun) as Hs.
  exists (mkAtomic (at_store a) (<[t := ADone r]> (at_pcs a))). split.
  - right. apply (am_done a t op); [by rewrite (ln_abs x a Hl)|by rewrite Hs].
  - apply (shift x a t (Leaving op r)); [done| |done|done|done].
    apply lock_inv_stay; [apply Hl|done].
Qed.

(** The copy of the map is the map. *)
Lemma change_runs op (s : KvStore P) u :
  changes op (entries_ s) u ->
  run_op op s =
    match save_entries u s with
    | (s', Ret _) => (mkKvStore (persistence_ s') u, Ret (success op))
    | (s', Fail x) => (s', Fail x)
    | (s', Undefined) => (s', Undefined)
    end.
Proof.
  unfold changes, run_op, kv_put, kv_erase, KvStore_kv, put, erase, mbind, M_bind, get, modify.
  destruct op as [k v|k|k]; [|done|].
  - intros ->. by destruct (save_entries _ s) as [s' []].
  - intros [[v Hv] ->]. rewrite Hv. by destruct (save_entries _ s) as [s' []].
Qed.

Lemma save_entries_entries u (s : KvStore P) : entries_ (save_entries u s).1 = entries_ s.
Proof. unfold save_entries, zoom. by destruct (p_save u (persistence_ s)). Qed.

(** Changing the store while alone inside. *)
Lemma writer_moves x a t op pc (s : KvStore P) (r : KvResult) (s' : KvStore P) :
  linearizes x a -> inside (th_pcs x t) = Some op -> is_shared op = false ->
  inside pc = Some op -> pc_ok (entries_ s) pc -> abs_pc pc = ADone r ->
  persistence_ s' = persistence_ s ->
  entries_ s' = match pc with Saved _ u => u | _ => entries_ s end ->
  linearizes (mkThreads s (th_lock x) (<[t := pc]> (th_pcs x))) (mkAtomic s' (<[t := ADone r]> (at_pcs a))).
Proof.
  intros Hl Hin Hsh Hpc Hok Habs Hp He.
  assert (forall t', t' <> t -> inside (th_pcs x t') = None) as Halone
    by (intros t' Hne; by eapply writer_alone; [apply Hl|..]).
  split; simpl.
  - apply lock_inv_stay; [apply Hl|congruence].
  - intros t'. pc_case t'; [done|]. by apply pc_ok_outside, Halone.
  - intros t'. destruct (lookup_pc (th_pcs x) t pc t') as [[-> ->]|[Hne ->]].
    + by rewrite fn_lookup_insert.
    + rewrite fn_lookup_insert_ne by done. apply Hl.
  - done.
  - intros t' op' u. destruct (lookup_pc (th_pcs x) t pc t') as [[-> ->]|[Hne ->]].
    + intros ->. done.
    + intros Hs. specialize (Halone t' Hne). by rewrite Hs in Halone.
  - intros Hno. specialize (Hno t). rewrite fn_lookup_insert in Hno. rewrite He.
    destruct pc; try done. by destruct (Hno op0 updated).
Qed.

Lemma save_simulates x a t op u x' :
  linearizes x a -> th_pcs x t = Ready op u -> save_line t op u x = Moves x' -> simulated x' a.
Proof.
  intros Hl Hpc Hsave. pose proof (ln_pcs x a Hl t) as Hch. rewrite Hpc in Hch. simpl in Hch.
  assert (inside (th_pcs x t) = Some op) as Hin by (by rewrite Hpc).
  assert (unsaved (th_pcs x t)) as Hun by (rewrite Hpc; done).
  assert (is_shared op = false) as Hsh by (by destruct op).
  pose proof (inside_store x a t op Hl Hin Hun) as Hs. pose proof (change_runs op (th_store x) u Hch) as Hrun.
  assert (at_pcs a t = APending op) as Ha by (by rewrite (ln_abs x a Hl), Hpc).
  unfold save_line in Hsave. pose proof (save_entries_entries u (th_store x)) as He.
  destruct (save_entries u (th_store x)) as [s [[]|[e|]|]]; simplify_eq/=.
  - exists (mkAtomic (mkKvStore (persistence_ s) u) (<[t := ADone (success op)]> (at_pcs a))). split.
    + right. apply (am_done a t op); [done|]. by rewrite Hs.
    + by apply (writer_moves x a t op).
  - exists (mkAtomic s (<[t := ADone (RThrew e)]> (at_pcs a))). split.
    + right. apply (am_threw a t op); [done|]. by rewrite Hs.
    + by apply (writer_moves x a t op).
Qed.

Lemma swap_simulates x a t op u :
  linearizes x a -> th_pcs x t = Saved op u ->
  linearizes (mkThreads (mkKvStore (persistence_ (th_store x)) u) (th_lock x)
    (<[t := Leaving op (success op)]> (th_pcs x))) a.
Proof.
  intros Hl Hpc. pose proof (ln_pcs x a Hl t) as Hsh. rewrite Hpc in Hsh. simpl in Hsh.
  apply (linearizes_ext _ _ (mkAtomic (at_store a) (<[t := ADone (success op)]> (at_pcs a)))); [done| |].
  - intros t'. simpl. pc_case t'; [|done]. by rewrite (ln_abs x a Hl), Hpc.
  - apply (writer_moves x a t op); try done; [by rewrite Hpc|apply Hl|].
    simpl. by apply (ln_saved x a Hl t op).
Qed.

Lemma line_simulates x a t x' : linearizes x a -> thread_step t x = Moves x' -> simulated x' a.
Proof.
  intros Hl Hstep. pose proof (ln_pcs x a Hl t) as Hok. unfold thread_step in Hstep.
  assert (forall pc, inside pc = inside (th_pcs x t) -> pc_ok (entries_ (th_store x)) pc ->
    unsaved (th_pcs x t) -> unsaved pc -> abs_pc pc = abs_pc (th_pcs x t) -> simulated (set_pc t pc x) a) as Hstay.
  { intros pc Hin Hpc Hun Hun' Habs. exists a. split; [by left|].
    apply (stutter x a t pc); try done. apply lock_inv_stay; [apply Hl|done]. }
  destruct (th_pcs x t) as [|op|op|op u|op u|op u|k|op r|r] eqn:Hpc; try done.
  - destruct (acquire op t (th_lock x)) as [l|] eqn:Hacq; [|done]. injection Hstep as <-.
    exists a. split; [by left|]. apply (stutter x a t (Locked op) l); rewrite ?Hpc; try done.
    apply (lock_inv_enter (th_lock x)); [apply Hl|by rewrite Hpc|done].
  - destruct op as [k v|k|k].
    + injection Hstep as <-. by apply Hstay.
    + destruct (entries_ (th_store x) !! k) as [v|] eqn:Hk; injection Hstep as <-.
      * apply Hstay; try done. simpl. by rewrite Hk.
      * apply (looks x a t (OpGet k) (RValue None)); rewrite ?Hpc; try done.
        unfold run_op, kv_get, KvStore_kv, get_value, mbind, M_bind, gets. by rewrite Hk.
    + injection Hstep as <-. by apply Hstay.
  - destruct Hok as [Hsh ->]. destruct op as [k v|k|k]; [injection Hstep as <-; by apply Hstay|done|].
    destruct (entries_ (th_store x) !! k) as [v|] eqn:Hk; injection Hstep as <-.
    + by apply Hstay.
    + apply (looks x a t (OpErase k) (RErased false)); rewrite ?Hpc; try done.
      unfold run_op, kv_erase, KvStore_kv, erase, mbind, M_bind, get. by rewrite Hk.
  - by apply (save_simulates x a t op u).
  - injection Hstep as <-. exists a. split; [by left|]. by apply swap_simulates.
  - destruct (entries_ (th_store x) !! k) as [v|] eqn:Hk; [|done]. injection Hstep as <-.
    apply (looks x a t (OpGet k) (RValue (Some v))); rewrite ?Hpc; try done.
    unfold run_op, kv_get, KvStore_kv, get_value, mbind, M_bind, gets. by rewrite Hk.
  - injection Hstep as <-. exists a. split; [by left|].
    apply (stutter x a t (Returned r)); rewrite ?Hpc; try done.
    apply lock_inv_leave; [apply Hl|by rewrite Hpc].
Qed.

Lemma crash_simulates x a t p :
  linearizes x a -> thread_step t x = Dies p -> atomic_moves (Running a) (Some LDeath) (Dead p).
Proof.
  intros Hl Hstep. pose proof (ln_pcs x a Hl t) as Hok. unfold thread_step in Hstep.
  destruct (th_pcs x t) as [|op|op|op u|op u|op u|k|op r|r] eqn:Hpc; try done.
  - by destruct (acquire op t (th_lock x)).
  - destruct op as [| k|]; try done. by destruct (entries_ (th_store x) !! k).
  - destruct op as [| |k]; try done. by destruct (u !! k).
  - unfold save_line in Hstep. pose proof (change_runs op (th_store x) u Hok) as Hrun.
    destruct (save_entries u (th_store x)) as [s [|[e|]|]]; simplify_eq/=.
    apply (am_crash a t op); [by rewrite (ln_abs x a Hl), Hpc|].
    rewrite (inside_store x a t op Hl); [done|by rewrite Hpc|by rewrite Hpc].
  - by destruct (entries_ (th_store x) !! k).
Qed.

Definition related (y : System P (Threads P)) (b : System P (Atomic P)) : Prop :=
  match y, b with
  | Running x, Running a => linearizes x a
  | Dead p, Dead p' => p = p'
  | _, _ => False
  end.

Lemma move_simulates y l y' b :
  related y b -> thread_moves y l y' -> exists b', related y' b' /\ (b' = b /\ l = None \/ atomic_moves b l b').
Proof.
  intros Hrel Hm. destruct Hm as [x t op Hpc|x t x' Hs|x t r Hpc|x t p Hs|x]; destruct b as [a|]; try done;
    simpl in Hrel.
  - exists (Running (mkAtomic (at_store a) (<[t := APending op]> (at_pcs a)))). split.
    + apply (shift x a t (Called op)); rewrite ?Hpc; try done. apply lock_inv_stay; [apply Hrel|by rewrite Hpc].
    + right. apply am_call. by rewrite (ln_abs x a Hrel), Hpc.
  - destruct (line_simulates x a t x' Hrel Hs) as (a' & Ha & Hl). exists (Running a'). split; [done|].
    destruct Ha as [->|Ha]; [by left|by right].
  - exists (Running (mkAtomic (at_store a) (<[t := AIdle]> (at_pcs a)))). split.
    + apply (shift x a t Idle); rewrite ?Hpc; try done. apply lock_inv_stay; [apply Hrel|by rewrite Hpc].
    + right. apply am_return. by rewrite (ln_abs x a Hrel), Hpc.
  - exists (Dead p). split; [done|]. right. by eapply crash_simulates.
  - exists (Dead (persistence_ (th_store x))). split; [done|]. right.
    rewrite <- (ln_persistence x a Hrel). apply am_kill.
Qed.

Lemma exec_simulates y h y' b :
  related y b -> exec thread_moves y h y' -> exists b', exec atomic_moves b h b' /\ related y' b'.
Proof.
  intros Hrel He. revert b Hrel. induction He as [y|y l y1 h y2 Hm _ IH]; intros b Hrel.
  { exists b. split; [constructor|done]. }
  destruct (move_simulates y l y1 b Hrel Hm) as (b1 & Hrel1 & Hb).
  destruct (IH b1 Hrel1) as (b2 & He2 & Hrel2). exists b2. split; [|done].
  destruct Hb as [[-> ->]|Hb]; [done|by econstructor].
Qed.

Lemma start_related (s : KvStore P) : related (threads_start s) (atomic_start s).
Proof.
  split; simpl; try done. split; simpl; [| |done].
  - intros t. split; [set_solver|]. by intros (op & ? & _).
  - intros t. split; [done|]. by intros (op & ? & _).
Qed.

(** C27: linearizability.  Whatever any number of threads call at the same time, and
    however their lines interleave, what they observe (the calls, the results and
    exceptions, the death of the process) is a history of a store on which each
    method runs as one step between its call and its return.  The snapshot file is
    at every moment the one of that store, and whenever no call is under way the
    map in memory is too. *)
Theorem store_linearizable (s : KvStore P) h y :
  exec thread_moves (threads_start s) h y ->
  exists b, exec atomic_moves (atomic_start s) h b /\
    match y, b with
    | Running x, Running a =>
        persistence_ (th_store x) = persistence_ (at_store a) /\
        ((forall t, th_pcs x t = Idle) -> th_store x = at_store a)
    | Dead p, Dead p' => p = p'
    | _, _ => False
    end.
Proof.
  intros He. destruct (exec_simulates _ _ _ _ (start_related s) He) as (b & Hb & Hrel).
  exists b. split; [done|]. destruct y as [x|p], b as [a|p']; try done. simpl in Hrel.
  pose proof (ln_persistence x a Hrel) as Hp. split; [done|]. intros Hidle.
  pose proof (ln_entries x a Hrel) as Hen. destruct (th_store x), (at_store a). simpl in *.
  rewrite Hp, Hen; [done|]. intros t. by rewrite Hidle.
Qed.
End linearization.

(** ** Progress *)

Section progress.
Context {P : Type} `{HP : Persistence P} `{HPS : !PersistenceSpec P}.
Implicit Types (x : Threads P) (t : nat).

(** The next line reads or writes [entries_]. *)
Definition touches (pc : Pc) : bool := match pc with Locked _ | Found _ | Saved _ _ => true | _ => false end.
Definition writes (pc : Pc) : bool := match pc with Saved _ _ => true | _ => false end.

Lemma save_line_ok t op u x :
  p_ok (persistence_ (th_store x)) ->
  match save_line t op u x with
  | Moves x' => p_ok (persistence_ (th_store x'))
  | Blocked | Undef => False
  | Dies _ => True
  end.
Proof.
  intros Hp. pose proof (p_save_spec u _ Hp) as Hs. unfold save_line, save_entries, zoom, wp in *.
  destruct (p_save u (persistence_ (th_store x))) as [p [[]|[e|]|]]; naive_solver.
Qed.

Lemma line_keeps_ok t x x' :
  p_ok (persistence_ (th_store x)) -> thread_step t x = Moves x' -> p_ok (persistence_ (th_store x')).
Proof.
  intros Hp. unfold thread_step.
  destruct (th_pcs x t) as [|op|op|op u|op u|op u|k|op r|r]; try done.
  - destruct (acquire _ _ _); [|done]. by intros [= <-].
  - destruct op as [k v|k|k]; [by intros [= <-]| |by intros [= <-]].
    destruct (_ !! _); by intros [= <-].
  - destruct op as [k v|k|k]; [by intros [= <-]|done|]. destruct (_ !! _); by intros [= <-].
  - intros Hs. pose proof (save_line_ok t op u x Hp) as Hok. by rewrite Hs in Hok.
  - by intros [= <-].
  - destruct (_ !! _); [by intros [= <-]|done].
  - by intros [= <-].
Qed.

Lemma exec_keeps_ok y h y' :
  exec thread_moves y h y' ->
  forall x, y' = Running x -> (forall z, y = Running z -> p_ok (persistence_ (th_store z))) ->
  p_ok (persistence_ (th_store x)).
Proof.
  induction 1 as [y|y l y1 h y2 Hm _ IH]; intros x Hx Hok; [by apply Hok|]. apply IH; [done|].
  intros z Hz. destruct Hm as [w t op Hpc|w t w' Hs|w t r Hpc|w t p Hs|w]; simplify_eq/=;
    [by apply (Hok w)| |by apply (Hok w)].
  eapply line_keeps_ok; [by apply (Hok w)|done].
Qed.

(** A thread that holds the lock can go on, and does nothing undefined. *)
Lemma inside_goes_on x a t op :
  linearizes x a -> p_ok (persistence_ (th_store x)) -> inside (th_pcs x t) = Some op ->
  thread_step t x <> Blocked /\ thread_step t x <> Undef.
Proof.
  intros Hl Hp Hin. pose proof (ln_pcs x a Hl t) as Hok. unfold thread_step.
  destruct (th_pcs x t) as [|op'|op'|op' u|op' u|op' u|k|op' r|r] eqn:Hpc; try done.
  - destruct op' as [k v|k|k]; [done| |done]. by destruct (_ !! _).
  - destruct op' as [k v|k|k]; [done| |by destruct (_ !! _)]. by destruct Hok.
  - pose proof (save_line_ok t op' u x Hp) as Hs. by destruct (save_line t op' u x).
  - destruct Hok as [v Hv]. by rewrite Hv.
Qed.

(** C28: thread safety.  At every moment of every concurrent run, no thread is about
    to do something undefined (such as following an iterator that another thread
    invalidated), no thread is about to read or write the map while another one
    writes it, and as long as a call has not returned some thread can go on. *)
Theorem store_threads_go_on (s : KvStore P) h x :
  store_inv s -> exec thread_moves (threads_start s) h (Running x) ->
  (forall t, thread_step t x <> Undef) /\
  (forall t t', writes (th_pcs x t) = true -> touches (th_pcs x t') = true -> t' = t) /\
  ((exists t, th_pcs x t <> Idle) ->
     exists t, thread_step t x <> Blocked \/ exists r, th_pcs x t = Returned r).
Proof.
  intros [Hp _] He. destruct (exec_simulates _ _ _ _ (start_related s) He) as ([a|] & _ & Hl); [|done].
  simpl in Hl. assert (p_ok (persistence_ (th_store x))) as Hok.
  { eapply (exec_keeps_ok _ _ _ He); [done|]. by intros z [= <-]. }
  split; [|split].
  - intros t. destruct (inside (th_pcs x t)) as [op|] eqn:Hin; [by eapply inside_goes_on|].
    unfold thread_step. destruct (th_pcs x t); try done. by destruct (acquire _ _ _).
  - intros t t' Hw Ht. destruct (decide (t' = t)) as [|Hne]; [done|exfalso].
    destruct (th_pcs x t) as [| | | | |op u| | |] eqn:Hpc; try done.
    pose proof (ln_pcs x a Hl t) as Hsh. rewrite Hpc in Hsh.
    assert (inside (th_pcs x t') = None) as Hout by (eapply writer_alone; [apply Hl|by rewrite Hpc|done|done]).
    by destruct (th_pcs x t').
  - intros [t Hni]. destruct (inside (th_pcs x t)) as [op|] eqn:Hin.
    { exists t. left. by eapply inside_goes_on. }
    destruct (th_pcs x t) as [|op| | | | | | |r] eqn:Hpc; try done; [|exists t; right; by exists r].
    destruct (acquire op t (th_lock x)) as [l|] eqn:Hacq.
    { exists t. left. unfold thread_step. by rewrite Hpc, Hacq. }
    assert (exists t' op', inside (th_pcs x t') = Some op') as (t' & op' & Hin');
      [|exists t'; left; by eapply inside_goes_on].
    unfold acquire in Hacq. destruct (lk_writer (th_lock x)) as [w|] eqn:Hw.
    + apply (li_writer _ _ (ln_lock x a Hl)) in Hw as (op' & Hin' & _). by exists w, op'.
    + destruct (is_shared op); [done|]. destruct (decide (lk_readers (th_lock x) = ∅)) as [|Hne]; [done|].
      apply set_choose_L in Hne as [t' Ht'].
      apply (li_readers _ _ (ln_lock x a Hl)) in Ht' as (op' & Hin' & _). by exists t', op'.
Qed.
End progress.

(** ** A concrete history *)

(** A schedule: who calls, who takes the next line, who returns. *)
Inductive Turn := TCall (t : nat) (op : KvOp) | TLine (t : nat) | TReturn (t : nat).

Section schedule.
Context {P : Type} `{HP : Persistence P}.
Implicit Types (x : Threads P).

Definition take_turn (turn : Turn) x : option (Threads P * option Label) :=
  match turn with
  | TCall t op =>
    match th_pcs x t with Idle => Some (set_pc t (Called op) x, Some (LCall t op)) | _ => None end
  | TLine t => match thread_step t x with Moves x' => Some (x', None) | _ => None end
  | TReturn t =>
    match th_pcs x t with Returned r => Some (set_pc t Idle x, Some (LReturn t r)) | _ => None end
  end.

Fixpoint take_turns (turns : list Turn) x : option (Threads P * list Label) :=
  match turns with
  | [] => Some (x, [])
  | turn :: turns =>
    '(x1, l) ← take_turn turn x; '(x2, h) ← take_turns turns x1; Some (x2, option_list l ++ h)
  end.

Lemma take_turns_exec turns x x' h :
  take_turns turns x = Some (x', h) -> exec thread_moves (Running x) h (Running x').
Proof.
  revert x h. induction turns as [|turn turns IH]; intros x h; simpl; [intros [= <- <-]; constructor|].
  destruct (take_turn turn x) as [[x1 l]|] eqn:Hturn; [|done]. simpl.
  destruct (take_turns turns x1) as [[x2 h2]|] eqn:Hrest; [|done]. intros [= <- <-].
  apply (exec_step thread_moves _ l (Running x1)); [|by apply IH]. destruct turn as [t op|t|t]; simpl in Hturn.
  - destruct (th_pcs x t) eqn:Hpc; try done. injection Hturn as <- <-. by constructor.
  - destruct (thread_step t x) as [|y| |] eqn:Hs; try done. injection Hturn as <- <-. by apply (tm_line x t).
  - destruct (th_pcs x t) eqn:Hpc; try done. injection Hturn as <- <-. by constructor.
Qed.
End schedule.

(** Thread 0 puts a value; thread 1 calls [get] before the save and gets the lock
    after the swap; thread 0 returns last. *)
Definition demo_turns : list Turn :=
  [TCall 0 (OpPut (bytes_of "a") (bytes_of "1")); TLine 0; TLine 0; TCall 1 (OpGet (bytes_of "a"));
   TLine 0; TLine 0; TLine 0; TLine 0; TLine 1; TLine 1; TLine 1; TLine 1; TReturn 1; TReturn 0].

Definition demo_threads : Threads FilePersistence := mkThreads (demo_store []) unlocked (fun _ => Idle).

Definition demo_after (n : nat) : Threads FilePersistence * list Label :=
  default (demo_threads, []) (take_turns (take n demo_turns) demo_threads).

Definition demo_history : list Label :=
  [LCall 0 (OpPut (bytes_of "a") (bytes_of "1")); LCall 1 (OpGet (bytes_of "a"));
   LReturn 1 (RValue (Some (bytes_of "1"))); LReturn 0 RDone].

Lemma demo_after_exec n :
  match take_turns (take n demo_turns) demo_threads with Some _ => true | None => false end = true ->
  exec thread_moves (threads_start (demo_store [])) (demo_after n).2 (Running (demo_after n).1).
Proof.
  unfold demo_after. destruct (take_turns _ _) as [[x h]|] eqn:Hx; [intros _|done].
  by apply (take_turns_exec (take n demo_turns)).
Qed.

Lemma store_linearizable_witness :
  exists b, exec atomic_moves (atomic_start (demo_store [])) demo_history b /\
    match Running (demo_after 14).1, b with
    | Running x, Running a =>
        persistence_ (th_store x) = persistence_ (at_store a) /\
        ((forall t, th_pcs x t = Idle) -> th_store x = at_store a)
    | Dead p, Dead p' => p = p'
    | _, _ => False
    end.
Proof.
  assert ((demo_after 14).2 = demo_history) as <- by eval_refl.
  apply (store_linearizable (demo_store []) (demo_after 14).2 (Running (demo_after 14).1)).
  apply demo_after_exec. eval_refl.
Defined.

(** Thread 1 waits while thread 0 is about to swap. *)
Lemma store_threads_go_on_witness :
  let x := (demo_after 7).1 in
  (forall t, thread_step t x <> Undef) /\
  (forall t t', writes (th_pcs x t) = true -> touches (th_pcs x t') = true -> t' = t) /\
  ((exists t, th_pcs x t <> Idle) ->
     exists t, thread_step t x <> Blocked \/ exists r, th_pcs x t = Returned r).
Proof.
  apply (store_threads_go_on (demo_store []) (demo_after 7).2); [split; reflexivity|].
  apply demo_after_exec. eval_refl.
Defined.
