(* ===== verification/RaftLog.v ===== *)
(** * Logs as values

    The vocabulary the protocol and the node share for a log without its
    sentinel: entry [k] (counted from 1, as in the source) is [l !! (k - 1)],
    and "the first [k] entries" is [take k l]. *)

From Stdlib Require Import NArith Lia.
From stdpp Require Import base tactics numbers list.
From S2P Require Import Prelude RaftTypes.

Definition last_term (l : list LogEntry) : Term :=
  match last l with Some e => term e | None => 0%N end.

(** The voting rule: [lc] is at least as up to date as [lv]. *)
Definition up_to_date (lc lv : list LogEntry) : Prop :=
  (last_term lv < last_term lc)%N \/
  last_term lc = last_term lv /\ length lv <= length lc.

(** Terms never decrease along a log. *)
Definition sorted (l : list LogEntry) : Prop :=
  forall i j a b, i <= j -> l !! i = Some a -> l !! j = Some b -> (term a <= term b)%N.

(** Every term is positive and at most [T]. *)
Definition terms_le (T : Term) (l : list LogEntry) : Prop :=
  forall k e, l !! k = Some e -> (0 < term e <= T)%N.

(** Entry [k], counted from 1, has term [T]. *)
Definition at_term (l : list LogEntry) (k : nat) (T : Term) : Prop :=
  0 < k /\ exists e, l !! (k - 1) = Some e /\ term e = T.

(** Accepting [es] after the first [p] entries.  Entries already there are kept,
    so a stale request never shortens the log; otherwise the request decides
    everything after [p]. *)
Definition merge (l : list LogEntry) (p : nat) (es : list LogEntry) : list LogEntry :=
  if decide (es `prefix_of` drop p l) then l else take p l ++ es.

Lemma length_merge l p es : p <= length l -> p + length es <= length (merge l p es).
Proof.
  intros Hp. unfold merge. destruct (decide _) as [Hpre|Hpre].
  - apply prefix_length in Hpre. rewrite length_drop in Hpre. lia.
  - rewrite length_app, length_take. lia.
Qed.

Lemma at_term_le l k T : at_term l k T -> k <= length l.
Proof. intros (Hk & e & He & _). apply lookup_lt_Some in He. lia. Qed.

Lemma at_term_take l l' k T : take k l = take k l' -> at_term l k T -> at_term l' k T.
Proof.
  intros Heq (Hk & e & He & Ht). split; [done|]. exists e. split; [|done].
  rewrite <- He. symmetry. by apply (take_eq_lookup _ _ k); [|lia].
Qed.

Lemma last_term_lookup l :
  l <> [] -> exists e, l !! (length l - 1) = Some e /\ term e = last_term l.
Proof.
  intros Hl. destruct (last l) as [e|] eqn:He; [|by apply last_None in He].
  exists e. split; [by rewrite Nat.sub_1_r, <- last_lookup|]. unfold last_term. by rewrite He.
Qed.

Lemma last_term_nil : last_term [] = 0%N.
Proof. done. Qed.

Lemma sorted_last l k e :
  sorted l -> l !! k = Some e -> (term e <= last_term l)%N.
Proof.
  intros Hs He. destruct (last_term_lookup l) as (b & Hb & <-); [by intros ->|].
  apply (Hs k (length l - 1)); [|done|done]. apply lookup_lt_Some in He. lia.
Qed.

Lemma sorted_prefix l l' : l `prefix_of` l' -> sorted l' -> sorted l.
Proof.
  intros Hp Hs i j a b Hij Ha Hb.
  apply (Hs i j); [done|by eapply prefix_lookup_Some|by eapply prefix_lookup_Some].
Qed.

Lemma terms_le_prefix T l l' : l `prefix_of` l' -> terms_le T l' -> terms_le T l.
Proof. intros Hp Ht k e He. eapply Ht. by eapply prefix_lookup_Some. Qed.

Lemma terms_le_mono T T' l : (T <= T')%N -> terms_le T l -> terms_le T' l.
Proof. intros HT Hl k e He. specialize (Hl k e He). lia. Qed.

Lemma sorted_snoc T l e : sorted l -> terms_le T l -> term e = T -> sorted (l ++ [e]).
Proof.
  intros Hs Hl He i j a b Hij Ha Hb.
  apply lookup_app_Some in Hb as [Hb|[Hlen Hb]].
  - rewrite lookup_app_l in Ha by (apply lookup_lt_Some in Hb; lia). by eapply Hs.
  - apply list_lookup_singleton_Some in Hb as [Hj <-].
    apply lookup_app_Some in Ha as [Ha|[_ Ha]].
    + rewrite He. apply (Hl _ _ Ha).
    + apply list_lookup_singleton_Some in Ha as [_ <-]. done.
Qed.

Lemma terms_le_snoc T l e : terms_le T l -> (0 < T)%N -> term e = T -> terms_le T (l ++ [e]).
Proof.
  intros Hl HT He k a Ha. apply lookup_app_Some in Ha as [Ha|[_ Ha]]; [by eapply Hl|].
  apply list_lookup_singleton_Some in Ha as [_ <-]. lia.
Qed.
