(* ===== verification/RaftNode.v ===== *)
(** * The Raft node

    Models [src/src/raft/raft_node.h] and [src/src/raft/raft_node.cpp]: one
    definition per method of [RaftNode], in the order of the source.  A method
    is a computation in [M RaftNode]; [log_] keeps the source's sentinel at
    index 0, indexes and terms are 64-bit values with wrap-around, an access out
    of range and a signed overflow are [Undefined]. *)

From Stdlib Require Import NArith ZArith Lia.
From stdpp Require Import base tactics numbers list gmap strings.
From S2P Require Import Prelude RaftTypes.

Open Scope ftkv_scope.

(** [validate_config]: the timing windows, then uniqueness of the members. *)
Fixpoint insert_members (members : gset NodeId) (ps : list NodeId) : outcome (gset NodeId) :=
  match ps with
  | [] => Ret members
  | p :: ps =>
    if decide (p ∈ members) then Fail (Exn (InvalidArgument "Raft members must be unique"))
    else insert_members ({[p]} ∪ members) ps
  end.

Definition validate_config (config : RaftConfig) : outcome unit :=
  if ((heartbeat_interval config <=? 0) || (election_timeout_min config <=? 0) ||
      (election_timeout_max config <? election_timeout_min config) ||
      (election_timeout_min config <=? heartbeat_interval config))%Z
  then Fail (Exn (InvalidArgument "invalid Raft timing configuration"))
  else _ ← insert_members {[node_id config]} (peers config); Ret tt.

(** [std::vector::resize] on the log. *)
Definition vector_resize (l : list LogEntry) (n : N) : list LogEntry :=
  take (N.to_nat n) l ++ replicate (N.to_nat n - length l) default_entry.

Section raft_node.
Context {St E : Type}.

(** The data members of [RaftNode]; the mutex is modelled by every public
    method being one atomic step. *)
Record RaftNode := mkNode {
  config_ : RaftConfig;
  storage_ : St;
  random_ : E;
  state_ : NodeState;
  current_term_ : Term;
  voted_for_ : option NodeId;
  leader_id_ : option NodeId;
  log_ : list LogEntry;
  commit_index_ : LogIndex;
  last_applied_ : LogIndex;
  election_elapsed_ : Z;
  election_timeout_ : Z;
  heartbeat_elapsed_ : Z;
  members_ : gset NodeId;
  votes_received_ : gset NodeId;
  next_index_ : gmap NodeId LogIndex;
  match_index_ : gmap NodeId LogIndex;
  append_request_id_ : gmap NodeId N;
  outbox_ : list Message;
  committed_entries_ : list CommittedEntry
}.

(** Assignments to the data members. *)
Definition set_storage_ (v : St) (n : RaftNode) : RaftNode :=
  mkNode (config_ n) v (random_ n) (state_ n) (current_term_ n) (voted_for_ n)
  (leader_id_ n) (log_ n) (commit_index_ n) (last_applied_ n) (election_elapsed_ n)
  (election_timeout_ n) (heartbeat_elapsed_ n) (members_ n) (votes_received_ n)
  (next_index_ n) (match_index_ n) (append_request_id_ n) (outbox_ n)
  (committed_entries_ n).
Definition set_random_ (v : E) (n : RaftNode) : RaftNode :=
  mkNode (config_ n) (storage_ n) v (state_ n) (current_term_ n) (voted_for_ n)
  (leader_id_ n) (log_ n) (commit_index_ n) (last_applied_ n) (election_elapsed_ n)
  (election_timeout_ n) (heartbeat_elapsed_ n) (members_ n) (votes_received_ n)
  (next_index_ n) (match_index_ n) (append_request_id_ n) (outbox_ n)
  (committed_entries_ n).
Definition set_state_ (v : NodeState) (n : RaftNode) : RaftNode :=
  mkNode (config_ n) (storage_ n) (random_ n) v (current_term_ n) (voted_for_ n)
  (leader_id_ n) (log_ n) (commit_index_ n) (last_applied_ n) (election_elapsed_ n)
  (election_timeout_ n) (heartbeat_elapsed_ n) (members_ n) (votes_received_ n)
  (next_index_ n) (match_index_ n) (append_request_id_ n) (outbox_ n)
  (committed_entries_ n).
Definition set_current_term_ (v : Term) (n : RaftNode) : RaftNode :=
  mkNode (config_ n) (storage_ n) (random_ n) (state_ n) v (voted_for_ n) (leader_id_ n)
  (log_ n) (commit_index_ n) (last_applied_ n) (election_elapsed_ n) (election_timeout_ n)
  (heartbeat_elapsed_ n) (members_ n) (votes_received_ n) (next_index_ n) (match_index_ n)
  (append_request_id_ n) (outbox_ n) (committed_entries_ n).
Definition set_voted_for_ (v : option NodeId) (n : RaftNode) : RaftNode :=
  mkNode (config_ n) (storage_ n) (random_ n) (state_ n) (current_term_ n) v
  (leader_id_ n) (log_ n) (commit_index_ n) (last_applied_ n) (election_elapsed_ n)
  (election_timeout_ n) (heartbeat_elapsed_ n) (members_ n) (votes_received_ n)
  (next_index_ n) (match_index_ n) (append_request_id_ n) (outbox_ n)
  (committed_entries_ n).
Definition set_leader_id_ (v : option NodeId) (n : RaftNode) : RaftNode :=
  mkNode (config_ n) (storage_ n) (random_ n) (state_ n) (current_term_ n) (voted_for_ n)
    v (log_ n) (commit_index_ n) (last_applied_ n) (election_elapsed_ n)
  (election_timeout_ n) (heartbeat_elapsed_ n) (members_ n) (votes_received_ n)
  (next_index_ n) (match_index_ n) (append_request_id_ n) (outbox_ n)
  (committed_entries_ n).
Definition set_log_ (v : list LogEntry) (n : RaftNode) : RaftNode :=
  mkNode (config_ n) (storage_ n) (random_ n) (state_ n) (current_term_ n) (voted_for_ n)
  (leader_id_ n) v (commit_index_ n) (last_applied_ n) (election_elapsed_ n)
  (election_timeout_ n) (heartbeat_elapsed_ n) (members_ n) (votes_received_ n)
  (next_index_ n) (match_index_ n) (append_request_id_ n) (outbox_ n)
  (committed_entries_ n).
Definition set_commit_index_ (v : LogIndex) (n : RaftNode) : RaftNode :=
  mkNode (config_ n) (storage_ n) (random_ n) (state_ n) (current_term_ n) (voted_for_ n)
  (leader_id_ n) (log_ n) v (last_applied_ n) (election_elapsed_ n) (election_timeout_ n)
  (heartbeat_elapsed_ n) (members_ n) (votes_received_ n) (next_index_ n) (match_index_ n)
  (append_request_id_ n) (outbox_ n) (committed_entries_ n).
Definition set_last_applied_ (v : LogIndex) (n : RaftNode) : RaftNode :=
  mkNode (config_ n) (storage_ n) (random_ n) (state_ n) (current_term_ n) (voted_for_ n)
  (leader_id_ n) (log_ n) (commit_index_ n) v (election_elapsed_ n) (election_timeout_ n)
  (heartbeat_elapsed_ n) (members_ n) (votes_received_ n) (next_index_ n) (match_index_ n)
  (append_request_id_ n) (outbox_ n) (committed_entries_ n).
Definition set_election_elapsed_ (v : Z) (n : RaftNode) : RaftNode :=
  mkNode (config_ n) (storage_ n) (random_ n) (state_ n) (current_term_ n) (voted_for_ n)
  (leader_id_ n) (log_ n) (commit_index_ n) (last_applied_ n) v (election_timeout_ n)
  (heartbeat_elapsed_ n) (members_ n) (votes_received_ n) (next_index_ n) (match_index_ n)
  (append_request_id_ n) (outbox_ n) (committed_entries_ n).
Definition set_election_timeout_ (v : Z) (n : RaftNode) : RaftNode :=
  mkNode (config_ n) (storage_ n) (random_ n) (state_ n) (current_term_ n) (voted_for_ n)
  (leader_id_ n) (log_ n) (commit_index_ n) (last_applied_ n) (election_elapsed_ n) v
  (heartbeat_elapsed_ n) (members_ n) (votes_received_ n) (next_index_ n) (match_index_ n)
  (append_request_id_ n) (outbox_ n) (committed_entries_ n).
Definition set_heartbeat_elapsed_ (v : Z) (n : RaftNode) : RaftNode :=
  mkNode (config_ n) (storage_ n) (random_ n) (state_ n) (current_term_ n) (voted_for_ n)
  (leader_id_ n) (log_ n) (commit_index_ n) (last_applied_ n) (election_elapsed_ n)
  (election_timeout_ n) v (members_ n) (votes_received_ n) (next_index_ n)
  (match_index_ n) (append_request_id_ n) (outbox_ n) (committed_entries_ n).
Definition set_votes_received_ (v : gset NodeId) (n : RaftNode) : RaftNode :=
  mkNode (config_ n) (storage_ n) (random_ n) (state_ n) (current_term_ n) (voted_for_ n)
  (leader_id_ n) (log_ n) (commit_index_ n) (last_applied_ n) (election_elapsed_ n)
  (election_timeout_ n) (heartbeat_elapsed_ n) (members_ n) v (next_index_ n)
  (match_index_ n) (append_request_id_ n) (outbox_ n) (committed_entries_ n).
Definition set_next_index_ (v : gmap NodeId LogIndex) (n : RaftNode) : RaftNode :=
  mkNode (config_ n) (storage_ n) (random_ n) (state_ n) (current_term_ n) (voted_for_ n)
  (leader_id_ n) (log_ n) (commit_index_ n) (last_applied_ n) (election_elapsed_ n)
  (election_timeout_ n) (heartbeat_elapsed_ n) (members_ n) (votes_received_ n) v
  (match_index_ n) (append_request_id_ n) (outbox_ n) (committed_entries_ n).
Definition set_match_index_ (v : gmap NodeId LogIndex) (n : RaftNode) : RaftNode :=
  mkNode (config_ n) (storage_ n) (random_ n) (state_ n) (current_term_ n) (voted_for_ n)
  (leader_id_ n) (log_ n) (commit_index_ n) (last_applied_ n) (election_elapsed_ n)
  (election_timeout_ n) (heartbeat_elapsed_ n) (members_ n) (votes_received_ n)
  (next_index_ n) v (append_request_id_ n) (outbox_ n) (committed_entries_ n).
Definition set_append_request_id_ (v : gmap NodeId N) (n : RaftNode) : RaftNode :=
  mkNode (config_ n) (storage_ n) (random_ n) (state_ n) (current_term_ n) (voted_for_ n)
  (leader_id_ n) (log_ n) (commit_index_ n) (last_applied_ n) (election_elapsed_ n)
  (election_timeout_ n) (heartbeat_elapsed_ n) (members_ n) (votes_received_ n)
  (next_index_ n) (match_index_ n) v (outbox_ n) (committed_entries_ n).
Definition set_outbox_ (v : list Message) (n : RaftNode) : RaftNode :=
  mkNode (config_ n) (storage_ n) (random_ n) (state_ n) (current_term_ n) (voted_for_ n)
  (leader_id_ n) (log_ n) (commit_index_ n) (last_applied_ n) (election_elapsed_ n)
  (election_timeout_ n) (heartbeat_elapsed_ n) (members_ n) (votes_received_ n)
  (next_index_ n) (match_index_ n) (append_request_id_ n) v (committed_entries_ n).
Definition set_committed_entries_ (v : list CommittedEntry) (n : RaftNode) : RaftNode :=
  mkNode (config_ n) (storage_ n) (random_ n) (state_ n) (current_term_ n) (voted_for_ n)
  (leader_id_ n) (log_ n) (commit_index_ n) (last_applied_ n) (election_elapsed_ n)
  (election_timeout_ n) (heartbeat_elapsed_ n) (members_ n) (votes_received_ n)
  (next_index_ n) (match_index_ n) (append_request_id_ n) (outbox_ n) v.

Context `{!RaftStorage St} `{!RandomEngine E}.
Abbreviation MN := (M RaftNode).

(** [map[k]] on an [unordered_map]: a missing key is inserted with value 0. *)
Definition subscript (proj : RaftNode -> gmap NodeId N)
    (put : gmap NodeId N -> RaftNode -> RaftNode) (k : NodeId) : MN N :=
  n ← get;
  match proj n !! k with
  | Some v => mret v
  | None => modify (put (<[k := 0%N]> (proj n)));; mret 0%N
  end.

(** ** Small helpers (end of the source file) *)

Definition send_locked (peer : NodeId) (r : Rpc) : MN unit :=
  modify (fun n => set_outbox_ (outbox_ n ++ [mkMessage (node_id (config_ n)) peer r]) n).

Definition last_log_index (n : RaftNode) : LogIndex := N.of_nat (length (log_ n)) -u 1.

Definition last_log_index_locked : MN LogIndex := gets last_log_index.

Definition last_log_term_locked : MN Term :=
  n ← get;
  match last (log_ n) with
  | Some e => mret (term e)
  | None => undefined
  end.

Definition quorum_size (n : RaftNode) : N := N.of_nat (size (members_ n)) / 2 + 1.

Definition is_peer (n : RaftNode) (id : NodeId) : bool :=
  bool_decide (id <> node_id (config_ n)) && bool_decide (id ∈ members_ n).

Definition candidate_log_is_current_locked (request : RequestVoteRequest) : MN bool :=
  local_term ← last_log_term_locked;
  last_index ← last_log_index_locked;
  mret ((local_term <? rv_last_log_term request)%N ||
        ((rv_last_log_term request =? local_term)%N &&
         (last_index <=? rv_last_log_index request)%N)).

(** [log_.push_back]: a full vector throws [std::length_error]. *)
Definition log_push_back (e : LogEntry) : MN unit :=
  n ← get;
  if (N.of_nat (length (log_ n)) <? vector_max)%N
  then modify (set_log_ (log_ n ++ [e]))
  else throw LengthError.

(** [log_.insert(log_.end(), ...)]. *)
Definition log_append (es : list LogEntry) : MN unit :=
  n ← get;
  if (N.of_nat (length (log_ n) + length es) <=? vector_max)%N
  then modify (set_log_ (log_ n ++ es))
  else throw LengthError.

(** ** Timers and persistence *)

Definition reset_election_timeout_locked : MN unit :=
  n ← get;
  let minimum := election_timeout_min (config_ n) in
  let maximum := election_timeout_max (config_ n) in
  if (maximum <? minimum)%Z then undefined
  else
    let draw := uniform_int minimum maximum (random_ n) in
    modify (fun n => set_election_elapsed_ 0 (set_election_timeout_ draw.1 (set_random_ draw.2 n))).

Definition persist_locked : MN unit :=
  n ← get;
  match log_ n with
  | [] => undefined
  | _ :: log =>
    zoom storage_ set_storage_
      (storage_save (mkPersistent (current_term_ n) (voted_for_ n) log))
  end.

(** ** Applying committed entries *)

(** The loop has at most [fuel] rounds.  A run that needs more has no outcome: it is
    [undefined] here, so that a theorem that excludes [Undefined] shows that the
    loop ends. *)
Fixpoint apply_loop (fuel : nat) : MN unit :=
  n ← get;
  if (last_applied_ n <? commit_index_ n)%N then
    match fuel with
    | O => undefined
    | S fuel =>
      modify (set_last_applied_ (last_applied_ n +u 1));;
      entry ← at_index (log_ n) (last_applied_ n +u 1);
      when (negb (is_no_op entry))
        (modify (fun n' => set_committed_entries_
           (committed_entries_ n' ++ [mkCommitted (last_applied_ n') (term entry) (command entry)]) n'));;
      apply_loop fuel
    end
  else mret tt.

Definition apply_committed_entries_locked : MN unit :=
  n ← get; apply_loop (N.to_nat (commit_index_ n - last_applied_ n)).

(** ** Advancing the commit index *)

Fixpoint count_replicated (ps : list NodeId) (candidate replicated : N) : MN N :=
  match ps with
  | [] => mret replicated
  | p :: ps =>
    m ← subscript match_index_ set_match_index_ p;
    count_replicated ps candidate (if (candidate <=? m)%N then replicated + 1 else replicated)%N
  end.

Fixpoint advance_loop (candidate : nat) : MN bool :=
  match candidate with
  | O => mret false
  | S below =>
    n ← get;
    if (commit_index_ n <? N.of_nat candidate)%N then
      entry ← at_index (log_ n) (N.of_nat candidate);
      if (term entry =? current_term_ n)%N then
        replicated ← count_replicated (peers (config_ n)) (N.of_nat candidate) 1;
        if (quorum_size n <=? replicated)%N then
          modify (set_commit_index_ (N.of_nat candidate));;
          apply_committed_entries_locked;;
          mret true
        else advance_loop below
      else advance_loop below
    else mret false
  end.

Definition advance_commit_index_locked : MN bool :=
  last_index ← last_log_index_locked; advance_loop (N.to_nat last_index).

(** ** Sending entries *)

Definition send_append_entries_locked (peer : NodeId) : MN unit :=
  n ← get;
  match next_index_ n !! peer with
  | None => throw OutOfRange
  | Some next_index =>
    let previous_index := next_index -u 1 in
    if (N.of_nat (length (log_ n)) <? next_index)%N then undefined
    else
      let entries := drop (N.to_nat next_index) (log_ n) in
      old_id ← subscript append_request_id_ set_append_request_id_ peer;
      let request_id := old_id +u 1 in
      modify (fun n => set_append_request_id_ (<[peer := request_id]> (append_request_id_ n)) n);;
      previous ← at_index (log_ n) previous_index;
      send_locked peer (AppendRequest
        (mkAppendRequest (current_term_ n) (node_id (config_ n)) previous_index
           (term previous) entries (commit_index_ n) request_id))
  end.

Definition broadcast_append_entries_locked : MN unit :=
  n ← get; for_each (peers (config_ n)) send_append_entries_locked.

(** ** Role changes *)

Definition become_follower_locked (new_term : Term) (new_leader : option NodeId) : MN unit :=
  n ← get;
  let term_changed := (current_term_ n <? new_term)%N in
  when term_changed (modify (fun n => set_voted_for_ None (set_current_term_ new_term n)));;
  modify (fun n =>
    set_heartbeat_elapsed_ 0 (set_append_request_id_ ∅ (set_match_index_ ∅
      (set_next_index_ ∅ (set_votes_received_ ∅ (set_leader_id_ new_leader
        (set_state_ follower n)))))));;
  reset_election_timeout_locked;;
  when term_changed persist_locked.

Definition become_leader_locked : MN unit :=
  modify (fun n => set_heartbeat_elapsed_ 0
    (set_leader_id_ (Some (node_id (config_ n))) (set_state_ leader n)));;
  n ← get;
  let next_index := last_log_index n +u 1 in
  for_each (peers (config_ n)) (fun peer => modify (fun n =>
    set_append_request_id_ (<[peer := 0%N]> (append_request_id_ n))
      (set_match_index_ (<[peer := 0%N]> (match_index_ n))
        (set_next_index_ (<[peer := next_index]> (next_index_ n)) n))));;
  n ← get;
  log_push_back (mkEntry (current_term_ n) [] true);;
  persist_locked;;
  _ ← advance_commit_index_locked;
  broadcast_append_entries_locked.

Definition start_election_locked : MN unit :=
  modify (fun n => set_leader_id_ None (set_state_ candidate n));;
  modify (fun n => set_current_term_ (current_term_ n +u 1) n);;
  modify (fun n => set_votes_received_ {[node_id (config_ n)]}
    (set_voted_for_ (Some (node_id (config_ n))) n));;
  reset_election_timeout_locked;;
  persist_locked;;
  n ← get;
  if (quorum_size n <=? N.of_nat (size (votes_received_ n)))%N then become_leader_locked
  else
    last_index ← last_log_index_locked;
    last_term ← last_log_term_locked;
    let request := mkVoteRequest (current_term_ n) (node_id (config_ n)) last_index last_term in
    for_each (peers (config_ n)) (fun peer => send_locked peer (VoteRequest request)).

(** ** RPC handlers *)

Definition handle_request_vote_locked (sender : NodeId) (request : RequestVoteRequest) : MN unit :=
  n ← get;
  if bool_decide (rv_candidate_id request <> sender) || (rv_term request <? current_term_ n)%N
  then send_locked sender (VoteResponse (mkVoteResponse (current_term_ n) false))
  else
    let can_vote := bool_decide (voted_for_ n = None) ||
                    bool_decide (voted_for_ n = Some (rv_candidate_id request)) in
    grant_vote ← (if can_vote then candidate_log_is_current_locked request else mret false);
    when grant_vote
      (when (bool_decide (voted_for_ n <> Some (rv_candidate_id request)))
         (modify (set_voted_for_ (Some (rv_candidate_id request)));; persist_locked);;
       reset_election_timeout_locked);;
    n ← get;
    send_locked sender (VoteResponse (mkVoteResponse (current_term_ n) grant_vote)).

Definition handle_request_vote_response_locked (sender : NodeId)
    (response : RequestVoteResponse) : MN unit :=
  n ← get;
  if bool_decide (state_ n <> candidate) || negb (rvr_term response =? current_term_ n)%N ||
     negb (rvr_vote_granted response)
  then mret tt
  else
    modify (fun n => set_votes_received_ ({[sender]} ∪ votes_received_ n) n);;
    n ← get;
    when (quorum_size n <=? N.of_nat (size (votes_received_ n)))%N become_leader_locked.

(** The [reject] lambda of [handle_append_entries_locked]. *)
Definition reject (sender : NodeId) (request : AppendEntriesRequest)
    (conflict_index : LogIndex) (conflict_term : option Term) : MN unit :=
  n ← get;
  send_locked sender (AppendResponse (mkAppendResponse (current_term_ n) false 0
    conflict_index conflict_term (ae_request_id request))).

(** The inner [while]: walk back to the first entry of the conflicting term. *)
Fixpoint conflict_scan (log : list LogEntry) (conflict_term : Term) (conflict_index : nat)
    : MN LogIndex :=
  match conflict_index with
  | O => mret 0%N
  | S below =>
    if (1 <? N.of_nat conflict_index)%N then
      e ← at_index log (N.of_nat below);
      if (term e =? conflict_term)%N then conflict_scan log conflict_term below
      else mret (N.of_nat conflict_index)
    else mret (N.of_nat conflict_index)
  end.

(** The matching loop over the incoming entries.  [None]: the handler rejected
    and returned; [Some (changed, rest)]: it left the loop with [rest] still to
    append, after truncating the log if [changed]. *)
Fixpoint merge_loop (sender : NodeId) (request : AppendEntriesRequest)
    (incoming : list LogEntry) (entry_index : LogIndex)
    : MN (option (bool * list LogEntry)) :=
  match incoming with
  | [] => mret (Some (false, []))
  | incoming_entry :: rest =>
    n ← get;
    if (entry_index <=? last_log_index n)%N then
      local_entry ← at_index (log_ n) entry_index;
      if negb (term local_entry =? term incoming_entry)%N then
        if (entry_index <=? commit_index_ n)%N then
          reject sender request entry_index (Some (term local_entry));; mret None
        else
          modify (set_log_ (vector_resize (log_ n) entry_index));;
          mret (Some (true, incoming))
      else if decide (local_entry = incoming_entry) then
        merge_loop sender request rest (entry_index +u 1)
      else throw (RaftError "log matching invariant violated")
    else mret (Some (false, incoming))
  end.

Definition entry_term_invalid (request : AppendEntriesRequest) (e : LogEntry) : bool :=
  (term e =? 0)%N || (ae_term request <? term e)%N.

(** The end of [handle_append_entries_locked], after the matching loop: append
    what is left, make the change durable, follow the leader's commit index and
    answer. *)
Definition finish_append (sender : NodeId) (request : AppendEntriesRequest)
    (truncated : bool) (rest : list LogEntry) : MN unit :=
  when (bool_decide (rest <> [])) (log_append rest);;
  when (truncated || bool_decide (rest <> [])) persist_locked;;
  n ← get;
  when (commit_index_ n <? ae_leader_commit request)%N
    (modify (set_commit_index_ (N.min (ae_leader_commit request) (last_log_index n)));;
     apply_committed_entries_locked);;
  n ← get;
  let match_index := ae_previous_log_index request +u N.of_nat (length (ae_entries request)) in
  send_locked sender (AppendResponse (mkAppendResponse (current_term_ n) true
    match_index (match_index +u 1) None (ae_request_id request))).

Definition accept_entries (sender : NodeId) (request : AppendEntriesRequest) : MN unit :=
  merged ← merge_loop sender request (ae_entries request) (ae_previous_log_index request +u 1);
  match merged with
  | None => mret tt
  | Some (truncated, rest) => finish_append sender request truncated rest
  end.

(** The consistency check on the previous entry, and what follows it. *)
Definition append_from_leader (sender : NodeId) (request : AppendEntriesRequest) : MN unit :=
  n ← get;
  let previous := ae_previous_log_index request in
  if (last_log_index n <? previous)%N then reject sender request (last_log_index n +u 1) None
  else
    conflict ← (if (0 <? previous)%N then
                  e ← at_index (log_ n) previous;
                  mret (if (term e =? ae_previous_log_term request)%N then None else Some (term e))
                else mret None);
    match conflict with
    | Some conflict_term =>
      conflict_index ← conflict_scan (log_ n) conflict_term (N.to_nat previous);
      reject sender request conflict_index (Some conflict_term)
    | None => accept_entries sender request
    end.

Definition handle_append_entries_locked (sender : NodeId) (request : AppendEntriesRequest) : MN unit :=
  n ← get;
  if bool_decide (ae_leader_id request <> sender) || (ae_term request <? current_term_ n)%N
  then reject sender request (last_log_index n +u 1) None
  else if existsb (entry_term_invalid request) (ae_entries request)
  then reject sender request (last_log_index n +u 1) None
  else
    (if bool_decide (state_ n <> follower) ||
        bool_decide (leader_id_ n <> Some (ae_leader_id request))
     then become_follower_locked (current_term_ n) (Some (ae_leader_id request))
     else reset_election_timeout_locked);;
    append_from_leader sender request.

(** The search for the last entry of the follower's conflicting term. *)
Fixpoint conflict_term_scan (log : list LogEntry) (conflict_term : Term) (index : nat)
    : MN (option LogIndex) :=
  match index with
  | O => mret None
  | S below =>
    e ← at_index log (N.of_nat index);
    if (term e =? conflict_term)%N then mret (Some (N.of_nat index))
    else conflict_term_scan log conflict_term below
  end.

(** The success branch of [handle_append_entries_response_locked]. *)
Definition on_append_success (sender : NodeId) (response : AppendEntriesResponse) : MN unit :=
  n ← get;
  if (last_log_index n <? aer_match_index response)%N then mret tt
  else
    old_match ← subscript match_index_ set_match_index_ sender;
    modify (fun n => set_match_index_
      (<[sender := N.max old_match (aer_match_index response)]> (match_index_ n)) n);;
    old_next ← subscript next_index_ set_next_index_ sender;
    modify (fun n => set_next_index_
      (<[sender := N.max old_next (aer_match_index response +u 1)]> (next_index_ n)) n);;
    advanced ← advance_commit_index_locked;
    if (advanced : bool) then broadcast_append_entries_locked
    else
      new_match ← subscript match_index_ set_match_index_ sender;
      n ← get;
      when (new_match <? last_log_index n)%N (send_append_entries_locked sender).

(** The end of the failure branch: [std::clamp] the new next index (undefined
    when the bounds are crossed), keep it above the match index, resend. *)
Definition retry_from (sender : NodeId) (next_index : LogIndex) : MN unit :=
  n ← get;
  let high := last_log_index n +u 1 in
  if (high <? 1)%N then undefined
  else
    let next_index := N.min (N.max next_index 1) high in
    old_match ← subscript match_index_ set_match_index_ sender;
    modify (fun n => set_next_index_
      (<[sender := N.max next_index (old_match +u 1)]> (next_index_ n)) n);;
    send_append_entries_locked sender.

(** The failure branch. *)
Definition on_append_failure (sender : NodeId) (response : AppendEntriesResponse) : MN unit :=
  request_id ← subscript append_request_id_ set_append_request_id_ sender;
  if negb (request_id =? aer_request_id response)%N then mret tt
  else
    n ← get;
    found ← (match aer_conflict_term response with
             | Some ct => conflict_term_scan (log_ n) ct (N.to_nat (last_log_index n))
             | None => mret None
             end);
    retry_from sender (match found with
                       | Some index => index +u 1
                       | None => aer_conflict_index response
                       end).

Definition handle_append_entries_response_locked (sender : NodeId)
    (response : AppendEntriesResponse) : MN unit :=
  n ← get;
  if bool_decide (state_ n <> leader) || negb (aer_term response =? current_term_ n)%N
  then mret tt
  else if aer_success response then on_append_success sender response
  else on_append_failure sender response.

(** ** The public interface *)

Definition step_locked (message : Message) : MN bool :=
  n ← get;
  if negb (to message =? node_id (config_ n))%N || negb (is_peer n (from message))
  then mret false
  else
    let incoming_term := message_term message in
    when (current_term_ n <? incoming_term)%N (become_follower_locked incoming_term None);;
    match rpc message with
    | VoteRequest r => handle_request_vote_locked (from message) r
    | VoteResponse r => handle_request_vote_response_locked (from message) r
    | AppendRequest r => handle_append_entries_locked (from message) r
    | AppendResponse r => handle_append_entries_response_locked (from message) r
    end;;
    mret true.

Definition step (message : Message) : MN bool := step_locked message.

Definition tick (elapsed : Z) : MN unit :=
  if (elapsed <? 0)%Z then throw (InvalidArgument "elapsed time must not be negative")
  else
    n ← get;
    if decide (state_ n = leader) then
      remaining ← i64_sub (heartbeat_interval (config_ n)) (heartbeat_elapsed_ n);
      if (remaining <=? elapsed)%Z then
        modify (set_heartbeat_elapsed_ 0);; broadcast_append_entries_locked
      else
        total ← i64_add (heartbeat_elapsed_ n) elapsed;
        modify (set_heartbeat_elapsed_ total)
    else
      remaining ← i64_sub (election_timeout_ n) (election_elapsed_ n);
      if (remaining <=? elapsed)%Z then start_election_locked
      else
        total ← i64_add (election_elapsed_ n) elapsed;
        modify (set_election_elapsed_ total).

(** The test of [handle_request]'s loop: does [candidate_message] answer [message]? *)
Definition answers (message candidate_message : Message) : bool :=
  (to candidate_message =? from message)%N &&
  match rpc message, rpc candidate_message with
  | VoteRequest _, VoteResponse _ => true
  | AppendRequest request, AppendResponse response =>
      (aer_request_id response =? ae_request_id request)%N
  | _, _ => false
  end.

(** Remove the first answer from the messages sent since [before]. *)
Fixpoint extract_answer (message : Message) (before new : list Message)
    : option (Message * list Message) :=
  match new with
  | [] => None
  | m :: new =>
    if answers message m then Some (m, before ++ new)
    else extract_answer message (before ++ [m]) new
  end.

Definition handle_request (message : Message) : MN (option Message) :=
  match rpc message with
  | VoteRequest _ | AppendRequest _ =>
    n ← get;
    let first_new_message := length (outbox_ n) in
    accepted ← step_locked message;
    if (accepted : bool) then
      n ← get;
      match extract_answer message (take first_new_message (outbox_ n))
              (drop first_new_message (outbox_ n)) with
      | Some (response, rest) => modify (set_outbox_ rest);; mret (Some response)
      | None => mret None
      end
    else mret None
  | _ => throw (InvalidArgument "Raft message must contain a request")
  end.

Definition propose (cmd : bytes) : MN (option LogIndex) :=
  n ← get;
  if decide (state_ n <> leader) then mret None
  else if (N.of_nat (length (log_ n)) =? u64_max)%N
  then throw (RaftError "Raft log index overflow")
  else
    log_push_back (mkEntry (current_term_ n) cmd false);;
    persist_locked;;
    index ← last_log_index_locked;
    _ ← advance_commit_index_locked;
    broadcast_append_entries_locked;;
    mret (Some index).

Definition take_messages : MN (list Message) :=
  n ← get; modify (set_outbox_ []);; mret (outbox_ n).

Definition take_committed_entries : MN (list CommittedEntry) :=
  n ← get; modify (set_committed_entries_ []);; mret (committed_entries_ n).

Definition log_entries : MN (list LogEntry) :=
  n ← get; match log_ n with [] => undefined | _ :: log => mret log end.

Definition snapshot (n : RaftNode) : NodeSnapshot :=
  mkSnapshot (node_id (config_ n)) (state_ n) (current_term_ n) (leader_id_ n)
    (commit_index_ n) (last_applied_ n) (last_log_index n).

(** ** The constructor *)

Fixpoint check_log (current previous : Term) (entries : list LogEntry) : outcome unit :=
  match entries with
  | [] => Ret tt
  | e :: entries =>
    if ((term e =? 0) || (current <? term e) || (term e <? previous))%N
    then Fail (Exn (RaftError "persisted Raft log is invalid"))
    else check_log current (term e) entries
  end.

Definition engine_seed (config : RaftConfig) : N :=
  N.lxor (random_seed config) (u64_mul (node_id config) 0x9e3779b97f4a7c15).

Definition make_node (config : RaftConfig) (storage : option St) : outcome RaftNode :=
  _ ← validate_config config;
  match storage with
  | None => Fail (Exn (InvalidArgument "Raft storage must not be null"))
  | Some storage =>
    let members : gset NodeId := {[node_id config]} ∪ list_to_set (peers config) in
    persisted ← storage_load storage;
    let vote_ok := match ps_voted_for persisted with
                   | Some v => bool_decide (v ∈ members)
                   | None => true
                   end in
    if negb vote_ok then Fail (Exn (RaftError "persisted vote references a non-member"))
    else
      _ ← check_log (ps_current_term persisted) 0 (ps_log persisted);
      if (vector_max <? N.of_nat (S (length (ps_log persisted))))%N then Fail (Exn LengthError)
      else
        exec reset_election_timeout_locked
          (mkNode config storage (seed_engine (engine_seed config)) follower
             (ps_current_term persisted) (ps_voted_for persisted) None
             (default_entry :: ps_log persisted) 0 0 0 0 0 members ∅ ∅ ∅ ∅ [] [])
  end.
End raft_node.

Arguments RaftNode St E : clear implicits.

(** ** The accessors

    Each takes the lock for itself; only [snapshot] reads the fields together. *)
Module Accessors.
Section accessors.
Context {St E : Type}.
Abbreviation MN := (M (RaftNode St E)).

Definition id (n : RaftNode St E) : NodeId := node_id (config_ n).
Definition state : MN NodeState := gets state_.
Definition current_term : MN Term := gets current_term_.
Definition leader_id : MN (option NodeId) := gets leader_id_.
Definition commit_index : MN LogIndex := gets commit_index_.
Definition last_applied : MN LogIndex := gets last_applied_.
End accessors.
End Accessors.
