(* ===== verification/RaftBehaviour.v ===== *)
(** * What the methods of a Raft node do

    The well-formedness invariant [node_inv] of a node, and the behaviour of the
    private methods of [RaftNode] as [wp] rules: every way the method can end,
    with the exact node it leaves.  Under [node_inv] no access is out of range,
    no signed operation overflows and [next_index_.at] never throws.  The public
    methods are treated in [RaftInvariant]. *)

From Stdlib Require Import NArith ZArith Lia.
From stdpp Require Import base tactics numbers list gmap strings.
From S2P Require Import Prelude RaftTypes RaftLog RaftNode.

Open Scope ftkv_scope.

(** Reduce projections of assignments. *)
Ltac node_simpl :=
  cbn [config_ storage_ random_ state_ current_term_ voted_for_ leader_id_ log_ commit_index_
       last_applied_ election_elapsed_ election_timeout_ heartbeat_elapsed_ members_
       votes_received_ next_index_ match_index_ append_request_id_ outbox_ committed_entries_
       set_storage_ set_random_ set_state_ set_current_term_ set_voted_for_ set_leader_id_
       set_log_ set_commit_index_ set_last_applied_ set_election_elapsed_ set_election_timeout_
       set_heartbeat_elapsed_ set_votes_received_ set_next_index_ set_match_index_
       set_append_request_id_ set_outbox_ set_committed_entries_] in *.

(** One step of symbolic execution through the pure part of a method. *)
Ltac wp_step :=
  lazymatch goal with
  | |- wp (mbind _ _) _ _ _ => apply wp_bind
  | |- wp get _ _ _ => apply wp_get
  | |- wp (gets _) _ _ _ => apply wp_gets
  | |- wp (modify _) _ _ _ => apply wp_modify
  | |- wp (mret _) _ _ _ => apply wp_ret
  | |- wp (throw _) _ _ _ => apply wp_throw
  end; cbv beta; node_simpl.
Ltac wp_steps := repeat wp_step.

Section invariant.
Context {St E : Type} `{HSt : RaftStorage St} `{HSpec : !RaftStorageSpec St} `{HE : RandomEngine E}.
Abbreviation Node := (RaftNode St E).
Implicit Types n : Node.

(** The constraints [validate_config] checks, with the ranges of the C++ types. *)
Record config_ok (c : RaftConfig) : Prop := {
  cfg_heartbeat : (0 < heartbeat_interval c)%Z;
  cfg_min : (heartbeat_interval c < election_timeout_min c)%Z;
  cfg_max : (election_timeout_min c <= election_timeout_max c)%Z;
  cfg_i64 : (election_timeout_max c <= i64_max)%Z;
  cfg_nodup : NoDup (node_id c :: peers c);
  cfg_ids : Forall is_u64 (node_id c :: peers c)
}.

(** What a leader keeps for each peer: [0 <= match < next <= log size]. *)
Definition leader_maps n : Prop :=
  forall p, p ∈ peers (config_ n) -> exists m k,
    match_index_ n !! p = Some m /\ next_index_ n !! p = Some k /\
    (m < k)%N /\ (k <= N.of_nat (length (log_ n)))%N.

Record node_inv n : Prop := {
  inv_config : config_ok (config_ n);
  inv_members : members_ n = {[node_id (config_ n)]} ∪ list_to_set (peers (config_ n));
  inv_log : exists l, log_ n = default_entry :: l /\ Forall wf_entry l;
  inv_length : (N.of_nat (length (log_ n)) <= vector_max)%N;
  inv_commit : (commit_index_ n < N.of_nat (length (log_ n)))%N;
  inv_applied : last_applied_ n = commit_index_ n;
  inv_election : (0 <= election_elapsed_ n <= election_timeout_ n)%Z;
  inv_timeout : (election_timeout_min (config_ n) <= election_timeout_ n <=
    election_timeout_max (config_ n))%Z;
  inv_heartbeat : (0 <= heartbeat_elapsed_ n <= heartbeat_interval (config_ n))%Z;
  inv_term : is_u64 (current_term_ n);
  inv_vote : forall v, voted_for_ n = Some v -> is_u64 v;
  inv_storage : storage_inv (storage_ n);
  inv_leader : state_ n = leader -> leader_maps n
}.

(** A failure that is not the death of the process keeps the invariant. *)
Definition fail_inv (f : failure) n : Prop := f <> Crash -> node_inv n.

(** ** Helper methods *)

Lemma last_log_index_eq n :
  log_ n <> [] -> (N.of_nat (length (log_ n)) <= vector_max)%N ->
  last_log_index n = (N.of_nat (length (log_ n)) - 1)%N.
Proof.
  intros Hne Hlen. unfold last_log_index.
  assert (0 < length (log_ n)) by (destruct (log_ n); [done|cbn [length]; lia]).
  apply u64_sub_small; lia.
Qed.

Lemma inv_log_ne n : node_inv n -> log_ n <> [].
Proof. intros Hn. destruct (inv_log n Hn) as (l & -> & _). done. Qed.

Lemma inv_last n : node_inv n -> last_log_index n = (N.of_nat (length (log_ n)) - 1)%N.
Proof. intros Hn. apply last_log_index_eq; [by apply inv_log_ne|by apply inv_length]. Qed.

Lemma inv_log_pos n : node_inv n -> (0 < length (log_ n))%nat.
Proof. intros Hn. destruct (inv_log n Hn) as (l & -> & _). simpl. lia. Qed.

Lemma log_lookup_lt n (i : N) :
  (i < N.of_nat (length (log_ n)))%N -> exists e, log_ n !! N.to_nat i = Some e.
Proof. intros Hi. apply lookup_lt_is_Some. lia. Qed.

Lemma wp_subscript proj put k n (Q : N -> Node -> Prop) X v :
  proj n !! k = Some v -> Q v n -> wp (subscript proj put k) n Q X.
Proof. intros Hv HQ. unfold subscript. wp_steps. rewrite Hv. by apply wp_ret. Qed.

Lemma wp_reset n (Q : unit -> Node -> Prop) X :
  (election_timeout_min (config_ n) <= election_timeout_max (config_ n))%Z ->
  (forall t r, (election_timeout_min (config_ n) <= t <= election_timeout_max (config_ n))%Z ->
     Q tt (set_election_elapsed_ 0 (set_election_timeout_ t (set_random_ r n)))) ->
  wp reset_election_timeout_locked n Q X.
Proof.
  intros Hle HQ. unfold reset_election_timeout_locked. wp_steps.
  destruct (Z.ltb_spec (election_timeout_max (config_ n)) (election_timeout_min (config_ n))); [lia|].
  wp_steps. apply HQ. by apply uniform_int_range.
Qed.

(** A storage left behind by a save that failed. *)
Definition broken_save (f : failure) (st : St) : Prop :=
  medium_ok st /\ exists ps st0, storage_save ps st0 = (st, Fail f).

Lemma wp_persist n l (Q : unit -> Node -> Prop) (X : failure -> Node -> Prop) :
  log_ n = default_entry :: l -> storage_inv (storage_ n) ->
  wf_persistent (mkPersistent (current_term_ n) (voted_for_ n) l) ->
  (forall st, storage_inv st -> durable st = mkPersistent (current_term_ n) (voted_for_ n) l ->
     Q tt (set_storage_ st n)) ->
  (forall e st, storage_inv st -> broken_save (Exn e) st -> durable st = durable (storage_ n) ->
     X (Exn e) (set_storage_ st n)) ->
  (forall st, broken_save Crash st ->
     durable st = durable (storage_ n) \/
     durable st = mkPersistent (current_term_ n) (voted_for_ n) l ->
     X Crash (set_storage_ st n)) ->
  wp persist_locked n Q X.
Proof.
  intros Hl Hst Hwf HQ HE' HC. unfold persist_locked. wp_steps. rewrite Hl.
  apply wp_zoom. eapply wp_mono; [by apply wp_run, storage_save_spec| |].
  - intros [] st [? ?]. by apply HQ.
  - intros [e|] st [[Hm ?] Hrun]; [apply HE'|apply HC]; try done; (split; [|by eexists _, _]); [|done].
    by apply storage_inv_medium.
Qed.

(** [apply_committed_entries_locked]: everything up to the commit index is
    published once, in order, no-ops skipped. *)
Definition publish (log : list LogEntry) (start count : nat) : list CommittedEntry :=
  omap (fun i => match log !! i with
                 | Some e => if is_no_op e then None
                             else Some (mkCommitted (N.of_nat i) (term e) (command e))
                 | None => None
                 end) (seq start count).

Lemma publish_cons log start count e :
  log !! start = Some e ->
  publish log start (S count) =
    (if is_no_op e then [] else [mkCommitted (N.of_nat start) (term e) (command e)])
      ++ publish log (S start) count.
Proof. intros He. unfold publish. simpl. rewrite He. by destruct (is_no_op e). Qed.

Lemma wp_apply_loop fuel n (Q : unit -> Node -> Prop) X :
  fuel = N.to_nat (commit_index_ n - last_applied_ n) ->
  (last_applied_ n <= commit_index_ n)%N ->
  (commit_index_ n < N.of_nat (length (log_ n)))%N ->
  (N.of_nat (length (log_ n)) <= vector_max)%N ->
  Q tt (set_committed_entries_
          (committed_entries_ n ++ publish (log_ n) (S (N.to_nat (last_applied_ n))) fuel)
          (set_last_applied_ (commit_index_ n) n)) ->
  wp (apply_loop fuel) n Q X.
Proof.
  revert n. induction fuel as [|fuel IH]; intros n Hf Hle Hlt Hlen HQ; cbn [apply_loop].
  - wp_steps. rewrite (proj2 (N.ltb_ge _ _)) by lia. wp_steps.
    replace (commit_index_ n) with (last_applied_ n) in HQ by lia.
    unfold publish in HQ. simpl in HQ. rewrite app_nil_r in HQ. by destruct n.
  - wp_steps. rewrite (proj2 (N.ltb_lt _ _)) by lia.
    assert (last_applied_ n +u 1 = last_applied_ n + 1)%N as Hadd by (apply u64_add_small; lia).
    rewrite Hadd. wp_steps.
    destruct (log_lookup_lt n (last_applied_ n + 1)) as [e He]; [lia|].
    eapply wp_at_index; [done|]. wp_steps.
    rewrite (publish_cons _ _ _ e) in HQ
      by (rewrite <- He; f_equal; lia).
    replace (N.of_nat (S (N.to_nat (last_applied_ n)))) with (last_applied_ n + 1)%N in HQ by lia.
    replace (S (S (N.to_nat (last_applied_ n)))) with (S (N.to_nat (last_applied_ n + 1))) in HQ
      by lia.
    destruct (is_no_op e); cbn [negb when]; unfold when; wp_steps; apply IH; node_simpl; try lia.
    + exact HQ.
    + by rewrite app_assoc in HQ.
Qed.

Lemma wp_apply n (Q : unit -> Node -> Prop) X :
  (last_applied_ n <= commit_index_ n)%N ->
  (commit_index_ n < N.of_nat (length (log_ n)))%N ->
  (N.of_nat (length (log_ n)) <= vector_max)%N ->
  Q tt (set_committed_entries_
          (committed_entries_ n ++ publish (log_ n) (S (N.to_nat (last_applied_ n)))
             (N.to_nat (commit_index_ n - last_applied_ n)))
          (set_last_applied_ (commit_index_ n) n)) ->
  wp apply_committed_entries_locked n Q X.
Proof.
  intros. unfold apply_committed_entries_locked. wp_steps. by apply wp_apply_loop.
Qed.

(** The node after its commit index moved to [c] and the new entries were
    published. *)
Definition commit_to (c : N) n : Node :=
  set_committed_entries_
    (committed_entries_ n ++ publish (log_ n) (S (N.to_nat (last_applied_ n)))
       (N.to_nat (c - last_applied_ n)))
    (set_last_applied_ c (set_commit_index_ c n)).

Lemma wp_commit_to c n (Q : unit -> Node -> Prop) X :
  node_inv n -> (commit_index_ n <= c)%N -> (c < N.of_nat (length (log_ n)))%N ->
  Q tt (commit_to c n) ->
  wp (modify (set_commit_index_ c);; apply_committed_entries_locked) n Q X.
Proof.
  intros Hn Hle Hlt HQ. wp_steps.
  pose proof (inv_applied n Hn). pose proof (inv_length n Hn).
  apply wp_apply; node_simpl; try lia. exact HQ.
Qed.

(** How many of [ps] are known to hold entry [c]. *)
Definition replicas (m : gmap NodeId LogIndex) (ps : list NodeId) (c : N) : list NodeId :=
  filter (fun p => (c <= default 0%N (m !! p))%N) ps.

Lemma wp_count ps c r n (Q : N -> Node -> Prop) X :
  (forall p, p ∈ ps -> is_Some (match_index_ n !! p)) ->
  Q (r + N.of_nat (length (replicas (match_index_ n) ps c)))%N n ->
  wp (count_replicated ps c r) n Q X.
Proof.
  revert r. induction ps as [|p ps IH]; intros r Hm HQ; cbn [count_replicated].
  - wp_steps. by rewrite N.add_0_r in HQ.
  - wp_steps. destruct (Hm p) as [m Hp]; [left|].
    eapply wp_subscript; [done|]. apply IH; [intros; apply Hm; by right|].
    unfold replicas in HQ. destruct (decide (c <= m)%N) as [Hc|Hc].
    + rewrite filter_cons_True in HQ by (by rewrite Hp).
      rewrite (proj2 (N.leb_le c m)) by done.
      cbn [length] in HQ. by rewrite Nat2N.inj_succ, <- N.add_1_l, N.add_assoc in HQ.
    + rewrite filter_cons_False in HQ by (by rewrite Hp).
      by rewrite (proj2 (N.leb_gt c m)) by lia.
Qed.

(** [c] is an entry of the current term held by a majority. *)
Record quorum_holds (c : N) n : Prop := {
  qh_new : (commit_index_ n < c)%N;
  qh_in_log : (c < N.of_nat (length (log_ n)))%N;
  qh_term : exists e, log_ n !! N.to_nat c = Some e /\ term e = current_term_ n;
  qh_quorum : (quorum_size n <=
    1 + N.of_nat (length (replicas (match_index_ n) (peers (config_ n)) c)))%N
}.

Lemma leader_maps_match n :
  leader_maps n -> forall p, p ∈ peers (config_ n) -> is_Some (match_index_ n !! p).
Proof. intros Hl p Hp. destruct (Hl p Hp) as (m & k & -> & _). eauto. Qed.

(** The scan goes down from the end of the log, so it finds the largest such
    entry, or there is none. *)
Lemma wp_advance_loop i n (Q : bool -> Node -> Prop) X :
  node_inv n -> state_ n = leader -> (i < length (log_ n))%nat ->
  (forall c, (N.of_nat i < c)%N -> ~ quorum_holds c n) ->
  ((forall c, ~ quorum_holds c n) -> Q false n) ->
  (forall c, quorum_holds c n -> (forall c', quorum_holds c' n -> (c' <= c)%N) ->
     Q true (commit_to c n)) ->
  wp (advance_loop i) n Q X.
Proof.
  intros Hn Hs Hi Hab Hf Ht. induction i as [|i IH]; cbn [advance_loop]; wp_steps.
  { apply Hf. intros c Hc. apply (Hab c); [|done]. pose proof (qh_new _ _ Hc). lia. }
  destruct (N.ltb_spec (commit_index_ n) (N.of_nat (S i))).
  2:{ wp_steps. apply Hf. intros c Hc. apply (Hab c); [|done]. pose proof (qh_new _ _ Hc). lia. }
  assert (~ quorum_holds (N.of_nat (S i)) n -> forall c, (N.of_nat i < c)%N -> ~ quorum_holds c n) as Hlow.
  { intros Hno c Hc Hq. destruct (decide (c = N.of_nat (S i))) as [->|]; [done|].
    apply (Hab c); [lia|done]. }
  destruct (log_lookup_lt n (N.of_nat (S i))) as [e He]; [lia|].
  wp_steps. eapply wp_at_index; [done|].
  destruct (N.eqb_spec (term e) (current_term_ n)) as [Het|Het].
  2:{ apply IH; [lia|]. apply Hlow. intros [_ _ (e' & He' & Ht') _]. congruence. }
  wp_steps. apply wp_count; [by apply leader_maps_match, inv_leader|].
  destruct (N.leb_spec (quorum_size n)
    (1 + N.of_nat (length (replicas (match_index_ n) (peers (config_ n)) (N.of_nat (S i)))))) as [|Hlt].
  2:{ apply IH; [lia|]. apply Hlow. intros [_ _ _ Hq]. lia. }
  assert (quorum_holds (N.of_nat (S i)) n) as Hq by (split; eauto with lia).
  pose proof (inv_applied n Hn). pose proof (inv_length n Hn).
  wp_steps. apply wp_apply; node_simpl; try lia. wp_steps. apply (Ht _ Hq).
  intros c' Hc'. apply N.le_ngt. intros Hgt. by apply (Hab c').
Qed.

Lemma wp_advance_exact n (Q : bool -> Node -> Prop) X :
  node_inv n -> state_ n = leader ->
  ((forall c, ~ quorum_holds c n) -> Q false n) ->
  (forall c, quorum_holds c n -> (forall c', quorum_holds c' n -> (c' <= c)%N) ->
     Q true (commit_to c n)) ->
  wp advance_commit_index_locked n Q X.
Proof.
  intros Hn Hs Hf Ht. unfold advance_commit_index_locked, last_log_index_locked. wp_steps.
  pose proof (inv_log_pos n Hn). rewrite inv_last by done.
  apply wp_advance_loop; auto; [lia|]. intros c Hc Hq. pose proof (qh_in_log _ _ Hq). lia.
Qed.

Lemma wp_advance n (Q : bool -> Node -> Prop) X :
  node_inv n -> state_ n = leader -> Q false n ->
  (forall c, quorum_holds c n -> Q true (commit_to c n)) ->
  wp advance_commit_index_locked n Q X.
Proof. intros Hn Hs Hf Ht. apply wp_advance_exact; auto. Qed.

(** ** Sending entries *)

(** The request [send_append_entries_locked] builds: the whole suffix of the
    log from the peer's next index. *)
Definition append_message n (p : NodeId) (k : N) (e : LogEntry) (rid : N) : Message :=
  mkMessage (node_id (config_ n)) p (AppendRequest
    (mkAppendRequest (current_term_ n) (node_id (config_ n)) (k - 1) (term e)
       (drop (N.to_nat k) (log_ n)) (commit_index_ n) rid)).

Definition is_append_message n (m : Message) : Prop :=
  exists p k e rid, p ∈ peers (config_ n) /\ next_index_ n !! p = Some k /\
    (0 < k)%N /\ (k <= N.of_nat (length (log_ n)))%N /\
    log_ n !! N.to_nat (k - 1) = Some e /\ m = append_message n p k e rid.

(** The request id of a message is the one the leader keeps for its receiver. *)
Definition request_id (m : Message) : option N :=
  match rpc m with AppendRequest q => Some (ae_request_id q) | _ => None end.

Definition tagged (r : gmap NodeId N) (m : Message) : Prop := r !! to m = request_id m.

Lemma wp_send_tagged p n (Q : unit -> Node -> Prop) X :
  node_inv n -> state_ n = leader -> p ∈ peers (config_ n) ->
  (forall m r, is_append_message n m -> to m = p -> tagged r m ->
     (forall p', p' <> p -> r !! p' = append_request_id_ n !! p') ->
     Q tt (set_outbox_ (outbox_ n ++ [m]) (set_append_request_id_ r n))) ->
  wp (send_append_entries_locked p) n Q X.
Proof.
  intros Hn Hs Hp HQ. unfold send_append_entries_locked. wp_steps.
  destruct (inv_leader n Hn Hs p Hp) as (m & k & _ & Hk & Hmk & Hkl). rewrite Hk.
  pose proof (inv_length n Hn). rewrite u64_sub_small by lia.
  rewrite (proj2 (N.ltb_ge _ _)) by lia.
  destruct (log_lookup_lt n (k - 1)) as [e He]; [lia|].
  assert (forall rid, is_append_message n (append_message n p k e rid)) as Hm
    by (intros rid; exists p, k, e, rid; repeat split; auto; lia).
  unfold subscript. wp_steps.
  destruct (append_request_id_ n !! p) as [v|]; wp_steps;
    (eapply wp_at_index; [done|]); unfold send_locked; wp_steps; apply (HQ _ _ (Hm _)); try done;
    try (by apply lookup_insert_eq); intros p' Hne; by rewrite !lookup_insert_ne by done.
Qed.

Lemma wp_send_append p n (Q : unit -> Node -> Prop) X :
  node_inv n -> state_ n = leader -> p ∈ peers (config_ n) ->
  (forall m r, is_append_message n m -> to m = p ->
     Q tt (set_outbox_ (outbox_ n ++ [m]) (set_append_request_id_ r n))) ->
  wp (send_append_entries_locked p) n Q X.
Proof. intros Hn Hs Hp HQ. apply wp_send_tagged; auto. Qed.

(** [broadcast_append_entries_locked] sends one such request to each peer, in
    the order of the configuration. *)
Lemma wp_broadcast_tagged n (Q : unit -> Node -> Prop) X :
  node_inv n -> state_ n = leader ->
  (forall ms r, Forall (is_append_message n) ms -> to <$> ms = peers (config_ n) ->
     Forall (tagged r) ms ->
     Q tt (set_outbox_ (outbox_ n ++ ms) (set_append_request_id_ r n))) ->
  wp broadcast_append_entries_locked n Q X.
Proof.
  intros Hn Hs HQ. unfold broadcast_append_entries_locked. wp_steps.
  pose proof (cfg_nodup _ (inv_config n Hn)) as [_ Hnd]%NoDup_cons.
  apply (wp_for_each (fun ps n' => exists done ms r,
    peers (config_ n) = done ++ ps /\ to <$> ms = done /\ Forall (is_append_message n) ms /\
    Forall (tagged r) ms /\ n' = set_outbox_ (outbox_ n ++ ms) (set_append_request_id_ r n))).
  - exists [], [], (append_request_id_ n). repeat split; auto. by destruct n; rewrite app_nil_r.
  - intros p ps n' (dn & ms & r & Hps & Hto & Hms & Htag & ->).
    apply wp_send_tagged; node_simpl.
    + by destruct Hn; constructor.
    + done.
    + rewrite Hps. set_solver.
    + intros m r' Hm Hmp Hmt Hkeep. exists (dn ++ [p]), (ms ++ [m]), r'. split_and!.
      * by rewrite <- app_assoc.
      * rewrite fmap_app, Hto. simpl. by rewrite Hmp.
      * apply Forall_app; split; [done|]. by constructor.
      * apply Forall_app; split; [|by constructor]. apply Forall_forall. intros x Hx.
        rewrite Forall_forall in Htag. unfold tagged in *. rewrite Hkeep; [by apply Htag|].
        intros Hxp. rewrite Hps in Hnd. apply NoDup_app in Hnd as (_ & Hdis & _).
        apply (Hdis p); [|left]. rewrite <- Hto, <- Hxp. by apply list_elem_of_fmap_2.
      * by rewrite <- app_assoc.
  - intros n' (dn & ms & r & Hps & Hto & Hms & Htag & ->). apply HQ; [done| |done].
    by rewrite Hps, app_nil_r.
Qed.

Lemma wp_broadcast n (Q : unit -> Node -> Prop) X :
  node_inv n -> state_ n = leader ->
  (forall ms r, Forall (is_append_message n) ms -> to <$> ms = peers (config_ n) ->
     Q tt (set_outbox_ (outbox_ n ++ ms) (set_append_request_id_ r n))) ->
  wp broadcast_append_entries_locked n Q X.
Proof. intros Hn Hs HQ. apply wp_broadcast_tagged; auto. Qed.

(** ** Updates that keep the invariant *)

Ltac keep_inv := 
  let H := fresh "Hinv" in
  intros H; destruct H; constructor; node_simpl; auto.

Lemma inv_outbox n o r : node_inv n -> node_inv (set_outbox_ o (set_append_request_id_ r n)).
Proof. keep_inv. Qed.

Lemma inv_sent n o : node_inv n -> node_inv (set_outbox_ o n).
Proof. keep_inv. Qed.

Lemma inv_set_storage n st : storage_inv st -> node_inv n -> node_inv (set_storage_ st n).
Proof. intros Hst. keep_inv. Qed.

Lemma inv_reset n t r :
  (election_timeout_min (config_ n) <= t <= election_timeout_max (config_ n))%Z ->
  node_inv n -> node_inv (set_election_elapsed_ 0 (set_election_timeout_ t (set_random_ r n))).
Proof. intros Ht Hn. pose proof (inv_config n Hn) as []. revert Hn. keep_inv; lia. Qed.

Lemma inv_commit_to c n :
  (commit_index_ n <= c)%N -> (c < N.of_nat (length (log_ n)))%N ->
  node_inv n -> node_inv (commit_to c n).
Proof. intros ? ?. unfold commit_to. keep_inv. Qed.

Lemma inv_wf_persistent n l :
  node_inv n -> log_ n = default_entry :: l ->
  wf_persistent (mkPersistent (current_term_ n) (voted_for_ n) l).
Proof.
  intros Hn Hl. destruct (inv_log n Hn) as (l' & Hl' & Hwf).
  split; [|split]; simpl; [apply Hn|apply Hn|congruence].
Qed.

Lemma inv_push_back n e :
  node_inv n -> wf_entry e -> (N.of_nat (length (log_ n)) < vector_max)%N ->
  node_inv (set_log_ (log_ n ++ [e]) n).
Proof.
  intros Hn He Hlt. pose proof (length_app (log_ n) [e]) as Hlen. cbn [length] in Hlen.
  destruct Hn; constructor; node_simpl; auto; try lia.
  - destruct inv_log0 as (l & -> & Hl). exists (l ++ [e]). split; [done|].
    apply Forall_app; auto.
  - intros Hs p Hp. destruct (inv_leader0 Hs p Hp) as (m & k & ? & ? & ? & ?).
    exists m, k. repeat split; auto. node_simpl. lia.
Qed.

(** The node [n'] is [n0] after a save that failed; an exception left the durable
    state [ps] as it was. *)
Definition unsaved n0 (ps : PersistentState) (f : failure) n' : Prop :=
  n' = set_storage_ (storage_ n') n0 /\ (f <> Crash -> durable (storage_ n') = ps).

Lemma inv_persist_exact n (Q : unit -> Node -> Prop) (X : failure -> Node -> Prop) l :
  node_inv n -> log_ n = default_entry :: l ->
  (forall st, durable st = mkPersistent (current_term_ n) (voted_for_ n) l ->
     node_inv (set_storage_ st n) -> Q tt (set_storage_ st n)) ->
  (forall f st, broken_save f st ->
     durable st = durable (storage_ n) \/
     durable st = mkPersistent (current_term_ n) (voted_for_ n) l ->
     (f <> Crash -> node_inv (set_storage_ st n)) ->
     unsaved n (durable (storage_ n)) f (set_storage_ st n) -> X f (set_storage_ st n)) ->
  wp persist_locked n Q X.
Proof.
  intros Hn Hl HQ HX. eapply wp_persist; [done|apply Hn|by apply inv_wf_persistent| | |].
  - intros st Hst Hd. by apply HQ, inv_set_storage.
  - intros e st Hst Hb Hd. apply HX; [done|by left| |by split]. intros _. by apply inv_set_storage.
  - intros st Hst Hd. by apply HX.
Qed.

Lemma inv_persist n (Q : unit -> Node -> Prop) (X : failure -> Node -> Prop) l :
  node_inv n -> log_ n = default_entry :: l ->
  (forall st, durable st = mkPersistent (current_term_ n) (voted_for_ n) l ->
     node_inv (set_storage_ st n) -> Q tt (set_storage_ st n)) ->
  (forall f st, broken_save f st ->
     durable st = durable (storage_ n) \/
     durable st = mkPersistent (current_term_ n) (voted_for_ n) l ->
     (f <> Crash -> node_inv (set_storage_ st n)) -> X f (set_storage_ st n)) ->
  wp persist_locked n Q X.
Proof. intros Hn Hl HQ HX. eapply inv_persist_exact; [done|done|done|]. intros. by apply HX. Qed.

(** ** Role changes *)

Lemma wp_init_peers n next (Q : unit -> Node -> Prop) X :
  (forall nx mt rq,
     (forall p, p ∈ peers (config_ n) -> nx !! p = Some next /\ mt !! p = Some 0%N) ->
     Q tt (set_append_request_id_ rq (set_match_index_ mt (set_next_index_ nx n)))) ->
  wp (for_each (peers (config_ n)) (fun peer => modify (fun n =>
    set_append_request_id_ (<[peer := 0%N]> (append_request_id_ n))
      (set_match_index_ (<[peer := 0%N]> (match_index_ n))
        (set_next_index_ (<[peer := next]> (next_index_ n)) n))))) n Q X.
Proof.
  intros HQ.
  apply (wp_for_each (fun ps n' => exists done nx mt rq,
    peers (config_ n) = done ++ ps /\
    (forall p, p ∈ done -> nx !! p = Some next /\ mt !! p = Some 0%N) /\
    n' = set_append_request_id_ rq (set_match_index_ mt (set_next_index_ nx n)))).
  - exists [], (next_index_ n), (match_index_ n), (append_request_id_ n).
    repeat split; try set_solver. by destruct n.
  - intros p ps n' (dn & nx & mt & rq & Hps & Hd & ->). wp_steps.
    eexists (dn ++ [p]), (<[p := next]> nx), (<[p := 0%N]> mt), _. split; [|split; [|done]].
    + by rewrite <- app_assoc.
    + intros q Hq. destruct (decide (p = q)) as [->|Hne].
      * by rewrite !lookup_insert_eq.
      * rewrite !lookup_insert_ne by done. apply Hd. set_solver.
  - intros n' (dn & nx & mt & rq & Hps & Hd & ->). apply HQ. intros p Hp. apply Hd.
    by rewrite Hps, app_nil_r in Hp.
Qed.

(** The common tail of [become_leader_locked] and [propose]: try to commit, then
    replicate. *)
Definition maybe_committed n n1 : Prop :=
  n1 = n \/ exists c, quorum_holds c n /\ n1 = commit_to c n.

Lemma inv_maybe_committed n n1 : node_inv n -> maybe_committed n n1 -> node_inv n1.
Proof.
  intros Hn [->|(c & Hc & ->)]; [done|].
  apply inv_commit_to; [|apply Hc|done]. pose proof (qh_new _ _ Hc). lia.
Qed.

Lemma wp_commit_and_broadcast n (Q : unit -> Node -> Prop) X :
  node_inv n -> state_ n = leader ->
  (forall n1 ms r, maybe_committed n n1 -> node_inv n1 -> Forall (is_append_message n1) ms ->
     to <$> ms = peers (config_ n) ->
     Q tt (set_outbox_ (outbox_ n1 ++ ms) (set_append_request_id_ r n1))) ->
  wp advance_commit_index_locked n (fun _ n1 => wp broadcast_append_entries_locked n1 Q X) X.
Proof.
  intros Hn Hs HQ. apply wp_advance; [done|done| |].
  - apply wp_broadcast; [done|done|]. intros ms r Hms Hto. apply HQ; auto. by left.
  - intros c Hc. assert (maybe_committed n (commit_to c n)) as Hm by (right; eauto).
    pose proof (inv_maybe_committed _ _ Hn Hm).
    apply wp_broadcast; [done|done|]. intros ms r Hms Hto. by apply HQ.
Qed.

(** The candidate at the point of [become_leader_locked] where the peers' indexes
    are initialised and the no-op is in the log. *)
Definition promoted n nx mt rq : Node :=
  set_log_ (log_ n ++ [mkEntry (current_term_ n) [] true])
    (set_append_request_id_ rq (set_match_index_ mt (set_next_index_ nx
      (set_heartbeat_elapsed_ 0 (set_leader_id_ (Some (node_id (config_ n)))
        (set_state_ leader n)))))).

Lemma wp_become_leader n l (Q : unit -> Node -> Prop) (X : failure -> Node -> Prop) :
  node_inv n -> log_ n = default_entry :: l ->
  (forall nx mt rq st n1 ms r,
     let np := promoted n nx mt rq in
     (forall p, p ∈ peers (config_ n) ->
        nx !! p = Some (N.of_nat (length (log_ n))) /\ mt !! p = Some 0%N) ->
     durable st = mkPersistent (current_term_ n) (voted_for_ n)
       (l ++ [mkEntry (current_term_ n) [] true]) ->
     node_inv (set_storage_ st np) -> maybe_committed (set_storage_ st np) n1 ->
     node_inv n1 -> Forall (is_append_message n1) ms ->
     Q tt (set_outbox_ (outbox_ n1 ++ ms) (set_append_request_id_ r n1))) ->
  ((vector_max <= N.of_nat (length (log_ n)))%N ->
   forall n', node_inv n' -> storage_ n' = storage_ n -> X (Exn LengthError) n') ->
  (forall f n', broken_save f (storage_ n') ->
     durable (storage_ n') = durable (storage_ n) \/
     durable (storage_ n') = mkPersistent (current_term_ n) (voted_for_ n)
       (l ++ [mkEntry (current_term_ n) [] true]) ->
     (f <> Crash -> node_inv n') -> X f n') ->
  wp become_leader_locked n Q X.
Proof.
  intros Hn Hl HQ HL HX. unfold become_leader_locked. wp_steps.
  set (n0 := set_heartbeat_elapsed_ _ _).
  change (peers (config_ n)) with (peers (config_ n0)).
  apply wp_init_peers. intros nx mt rq Hmaps. subst n0. wp_steps.
  pose proof (inv_log_pos n Hn). pose proof (inv_length n Hn).
  assert (last_log_index (set_heartbeat_elapsed_ 0 (set_leader_id_ (Some (node_id (config_ n)))
    (set_state_ leader n))) +u 1 = N.of_nat (length (log_ n)))%N as Hnext.
  { change (last_log_index n +u 1 = N.of_nat (length (log_ n)))%N.
    rewrite inv_last, u64_add_small by (done || lia). lia. }
  rewrite Hnext in Hmaps. clear Hnext.
  assert (node_inv (set_append_request_id_ rq (set_match_index_ mt (set_next_index_ nx
    (set_heartbeat_elapsed_ 0 (set_leader_id_ (Some (node_id (config_ n)))
      (set_state_ leader n))))))) as Hn1.
  { destruct Hn as [[]]; constructor; node_simpl; auto; [by constructor|lia|].
    intros _ p Hp. destruct (Hmaps p Hp). exists 0%N, (N.of_nat (length (log_ n))).
    node_simpl. repeat split; auto; lia. }
  unfold log_push_back. wp_steps.
  destruct (N.ltb_spec (N.of_nat (length (log_ n))) vector_max) as [Hlt|]; wp_steps; [|by apply HL].
  assert (node_inv (promoted n nx mt rq)) as Hnp.
  { exact (inv_push_back _ (mkEntry (current_term_ n) [] true) Hn1 (inv_term n Hn) Hlt). }
  eapply (inv_persist (promoted n nx mt rq) _ _ (l ++ [mkEntry (current_term_ n) [] true]));
    [done|by unfold promoted; node_simpl; rewrite Hl| |].
  - intros st Hd Hst. wp_steps. apply wp_commit_and_broadcast; [done|done|].
    intros n1 ms r Hm Hn1' Hms _. eapply HQ; eauto.
  - intros f st Hmed Hd Hinv. apply HX; auto.
Qed.

(** The node after the volatile part of [become_follower_locked]. *)
Definition demoted n (new_leader : option NodeId) (t : Z) (r : E) : Node :=
  set_election_elapsed_ 0 (set_election_timeout_ t (set_random_ r
    (set_heartbeat_elapsed_ 0 (set_append_request_id_ ∅ (set_match_index_ ∅
      (set_next_index_ ∅ (set_votes_received_ ∅ (set_leader_id_ new_leader
        (set_state_ follower n))))))))).

Definition adopt n (T : Term) : Node := set_voted_for_ None (set_current_term_ T n).

Lemma inv_demoted n nl t r :
  node_inv n -> (election_timeout_min (config_ n) <= t <= election_timeout_max (config_ n))%Z ->
  node_inv (demoted n nl t r).
Proof.
  intros Hn Ht. unfold demoted. apply inv_reset; [done|].
  pose proof (inv_config n Hn) as []. revert Hn. keep_inv; [lia|done].
Qed.

Lemma inv_adopt n T : node_inv n -> is_u64 T -> node_inv (adopt n T).
Proof. intros Hn HT. revert Hn. unfold adopt. keep_inv. done. Qed.

Lemma wp_become_follower n T nl l (Q : unit -> Node -> Prop) (X : failure -> Node -> Prop) :
  node_inv n -> is_u64 T -> log_ n = default_entry :: l ->
  ((T <= current_term_ n)%N -> forall t r, node_inv (demoted n nl t r) -> Q tt (demoted n nl t r)) ->
  ((current_term_ n < T)%N -> forall t r st, durable st = mkPersistent T None l ->
     node_inv (set_storage_ st (demoted (adopt n T) nl t r)) ->
     Q tt (set_storage_ st (demoted (adopt n T) nl t r))) ->
  ((current_term_ n < T)%N -> forall f n', broken_save f (storage_ n') ->
     durable (storage_ n') = durable (storage_ n) \/
     durable (storage_ n') = mkPersistent T None l ->
     (f <> Crash -> node_inv n') -> X f n') ->
  wp (become_follower_locked T nl) n Q X.
Proof.
  intros Hn HT Hl Hsame Hnew Hfail. unfold become_follower_locked. wp_steps.
  pose proof (cfg_max _ (inv_config n Hn)) as Hcfg.
  destruct (N.ltb_spec (current_term_ n) T); unfold when; wp_steps;
    (apply wp_reset; node_simpl; [done|]); intros t r Ht; wp_steps.
  - pose proof (inv_demoted (adopt n T) nl t r (inv_adopt n T Hn HT) Ht) as Hd.
    eapply (inv_persist (demoted (adopt n T) nl t r)); [done|done|auto|].
    intros f st ? ? ?. by apply Hfail.
  - apply (Hsame ltac:(lia) t r). by apply inv_demoted.
Qed.

(** The candidate right after the assignments of [start_election_locked]. *)
Definition campaigning n (t : Z) (r : E) : Node :=
  set_election_elapsed_ 0 (set_election_timeout_ t (set_random_ r
    (set_votes_received_ {[node_id (config_ n)]} (set_voted_for_ (Some (node_id (config_ n)))
      (set_current_term_ (current_term_ n +u 1) (set_leader_id_ None
        (set_state_ candidate n))))))).

Lemma inv_campaigning n t r :
  node_inv n -> (election_timeout_min (config_ n) <= t <= election_timeout_max (config_ n))%Z ->
  node_inv (campaigning n t r).
Proof.
  intros Hn Ht. unfold campaigning. apply inv_reset; [done|].
  pose proof (cfg_ids _ (inv_config n Hn)) as Hids. apply Forall_cons in Hids as [Hid _].
  revert Hn. keep_inv; [apply u64_add_is_u64|congruence|done].
Qed.

Lemma last_log n l :
  log_ n = default_entry :: l -> exists e, last (log_ n) = Some e.
Proof. intros ->. destruct (last (default_entry :: l)) eqn:H; [eauto|]. by apply last_None in H. Qed.

Lemma wp_last_term n (Q : N -> Node -> Prop) X e :
  last (log_ n) = Some e -> Q (term e) n -> wp last_log_term_locked n Q X.
Proof. intros He HQ. unfold last_log_term_locked. wp_steps. rewrite He. by wp_steps. Qed.

Definition vote_requests n (e : LogEntry) : list Message :=
  (fun p => mkMessage (node_id (config_ n)) p (VoteRequest
     (mkVoteRequest (current_term_ n) (node_id (config_ n)) (last_log_index n) (term e))))
    <$> peers (config_ n).

Lemma wp_send_all n (r : Rpc) ps ms (Q : unit -> Node -> Prop) X :
  ms = (fun p => mkMessage (node_id (config_ n)) p r) <$> ps ->
  Q tt (set_outbox_ (outbox_ n ++ ms) n) ->
  wp (for_each ps (fun p => send_locked p r)) n Q X.
Proof.
  intros ->. revert n. induction ps as [|p ps IH]; intros n HQ; cbn [for_each]; wp_steps.
  - rewrite app_nil_r in HQ. by destruct n.
  - unfold send_locked. wp_steps. apply IH. node_simpl. rewrite <- app_assoc. exact HQ.
Qed.

(** [start_election_locked] up to the durable vote for itself, and how it goes
    on. *)
Lemma wp_start_election n l (Q : unit -> Node -> Prop) (X : failure -> Node -> Prop) :
  node_inv n -> log_ n = default_entry :: l ->
  (forall t r st, let n1 := set_storage_ st (campaigning n t r) in
     durable st = mkPersistent (current_term_ n +u 1) (Some (node_id (config_ n))) l ->
     node_inv n1 -> (quorum_size n1 <= 1)%N -> wp become_leader_locked n1 Q X) ->
  (forall t r st e, let n1 := set_storage_ st (campaigning n t r) in
     durable st = mkPersistent (current_term_ n +u 1) (Some (node_id (config_ n))) l ->
     node_inv n1 -> last (log_ n) = Some e ->
     Q tt (set_outbox_ (outbox_ n1 ++ vote_requests n1 e) n1)) ->
  (forall f n', broken_save f (storage_ n') ->
     durable (storage_ n') = durable (storage_ n) \/
     durable (storage_ n') = mkPersistent (current_term_ n +u 1) (Some (node_id (config_ n))) l ->
     (f <> Crash -> node_inv n') -> X f n') ->
  wp start_election_locked n Q X.
Proof.
  intros Hn Hl Hwin Hsend Hfail. unfold start_election_locked. wp_steps.
  pose proof (cfg_max _ (inv_config n Hn)) as Hcfg.
  apply wp_reset; node_simpl; [done|]. intros t r Ht. wp_steps.
  pose proof (inv_campaigning n t r Hn Ht) as Hc.
  eapply (inv_persist (campaigning n t r)); [done|done| |].
  - intros st Hd Hn1. wp_steps.
    assert (votes_received_ (campaigning n t r) = {[node_id (config_ n)]}) as -> by done.
    rewrite size_singleton.
    destruct (N.leb_spec (quorum_size (set_storage_ st (campaigning n t r))) 1) as [Hq|Hq].
    + rewrite (proj2 (N.leb_le _ (N.of_nat 1))) by (cbn; lia). by apply Hwin.
    + rewrite (proj2 (N.leb_gt _ (N.of_nat 1))) by (cbn; lia).
      unfold last_log_index_locked. wp_steps.
      destruct (last_log n l Hl) as [e He]. 
      apply (wp_last_term (set_storage_ st (campaigning n t r)) _ _ e He). wp_steps.
      eapply wp_send_all; [|exact (Hsend t r st e Hd Hn1 He)]. reflexivity.
  - intros f st ? ? ?. by apply Hfail.
Qed.

(** ** Receiving entries *)

(** The message [reject] puts into the outbox. *)
Definition rejection n (sender : NodeId) (request : AppendEntriesRequest) (ci : N)
    (ct : option N) : Message :=
  mkMessage (node_id (config_ n)) sender (AppendResponse
    (mkAppendResponse (current_term_ n) false 0 ci ct (ae_request_id request))).

Lemma wp_reject n sender request ci ct (Q : unit -> Node -> Prop) X :
  Q tt (set_outbox_ (outbox_ n ++ [rejection n sender request ci ct]) n) ->
  wp (reject sender request ci ct) n Q X.
Proof. intros HQ. unfold reject, send_locked. by wp_steps. Qed.

(** [o] entries of [es] agree with the log from index [i] on. *)
Definition agree (log es : list LogEntry) (i o : nat) : Prop :=
  take o es = take o (drop i log) /\ o <= length es /\ i + o <= length log.

Lemma agree_cons log es i o e :
  log !! i = Some e -> agree log es (S i) o -> agree log (e :: es) i (S o).
Proof.
  intros He (Ht & Ho & Hi). unfold agree. rewrite (drop_S _ e) by done.
  split; [|split]; simpl; [by rewrite Ht|lia|lia].
Qed.

Lemma vector_resize_shrink l i :
  (i <= N.of_nat (length l))%N -> vector_resize l i = take (N.to_nat i) l.
Proof.
  intros Hi. unfold vector_resize.
  replace (N.to_nat i - length l) with 0 by lia. simpl. apply app_nil_r.
Qed.

(** All the ways the matching loop ends. *)
Lemma wp_merge_loop sender request es i n (Q : option (bool * list LogEntry) -> Node -> Prop)
    (X : failure -> Node -> Prop) :
  node_inv n -> (1 <= i)%nat -> (i <= length (log_ n))%nat ->
  (forall o, agree (log_ n) es i o -> drop o es = [] \/ (i + o = length (log_ n))%nat ->
     Q (Some (false, drop o es)) n) ->
  (forall o a b, agree (log_ n) es i o -> log_ n !! (i + o)%nat = Some a -> es !! o = Some b ->
     term a <> term b -> (commit_index_ n < N.of_nat (i + o))%N ->
     Q (Some (true, drop o es)) (set_log_ (take (i + o) (log_ n)) n)) ->
  (forall o a b, agree (log_ n) es i o -> log_ n !! (i + o)%nat = Some a -> es !! o = Some b ->
     term a <> term b -> (N.of_nat (i + o) <= commit_index_ n)%N ->
     Q None (set_outbox_ (outbox_ n ++
       [rejection n sender request (N.of_nat (i + o)) (Some (term a))]) n)) ->
  (forall o a b, agree (log_ n) es i o -> log_ n !! (i + o)%nat = Some a -> es !! o = Some b ->
     term a = term b -> a <> b ->
     X (Exn (RaftError "log matching invariant violated")) n) ->
  wp (merge_loop sender request es (N.of_nat i)) n Q X.
Proof.
  intros Hn. pose proof (inv_length n Hn) as Hlen. pose proof (inv_log_pos n Hn) as Hpos.
  revert i Q. induction es as [|b es IH]; intros i Q Hi1 Hi Hend Htrunc Hrej Hbad;
    cbn [merge_loop]; wp_steps.
  { apply (Hend 0); [|by left]. repeat split; simpl; lia. }
  assert (agree (log_ n) (b :: es) i 0) as H0 by (repeat split; simpl; lia).
  rewrite inv_last by done.
  destruct (N.leb_spec (N.of_nat i) (N.of_nat (length (log_ n)) - 1)); wp_steps.
  2: { apply (Hend 0 H0). right. lia. }
  destruct (log_lookup_lt n (N.of_nat i)) as [a Ha]; [lia|].
  eapply wp_at_index; [done|]. rewrite Nat2N.id in Ha.
  destruct (N.eqb_spec (term a) (term b)) as [Heq|Hne]; cbn [negb].
  2: { specialize (Htrunc 0 a b H0). specialize (Hrej 0 a b H0).
       rewrite Nat.add_0_r in Htrunc, Hrej. destruct (N.leb_spec (N.of_nat i) (commit_index_ n)).
       - wp_steps. apply wp_reject. wp_steps. by apply Hrej.
       - wp_steps. rewrite vector_resize_shrink, Nat2N.id by lia. by apply Htrunc. }
  destruct (decide (a = b)) as [<-|Hab]; wp_steps.
  2: { apply (Hbad 0 a b H0); auto. by rewrite Nat.add_0_r. }
  rewrite u64_add_small by lia.
  replace (N.of_nat i + 1)%N with (N.of_nat (S i)) by lia.
  apply IH; [lia|lia| | | |]; intros o;
    replace (S i + o) with (i + S o) by lia.
  - intros Hag. apply (Hend (S o)). by apply agree_cons.
  - intros a' b' Hag. apply (Htrunc (S o)). by apply agree_cons.
  - intros a' b' Hag. apply (Hrej (S o)). by apply agree_cons.
  - intros a' b' Hag. apply (Hbad (S o)). by apply agree_cons.
Qed.

Lemma merge_extends l p es o :
  agree (default_entry :: l) es (S p) o -> drop o es <> [] ->
  (S p + o = S (length l) \/ exists a b, (default_entry :: l) !! (S p + o) = Some a /\
     es !! o = Some b /\ term a <> term b) ->
  take (p + o) l ++ drop o es = merge l p es.
Proof.
  intros (Ht & Ho & Hl) Hne Hwhy. cbn [drop length] in *. unfold merge. rewrite decide_False.
  - rewrite <- take_take_drop, <- app_assoc, <- Ht. by rewrite take_drop.
  - intros Hp. destruct Hwhy as [Hend|(a & b & Ha & Hb & Hab)].
    + apply prefix_length in Hp. rewrite length_drop in Hp.
      apply Hne, drop_ge. lia.
    + apply Hab. f_equal. rewrite Nat.add_succ_l in Ha. simpl in Ha.
      apply (prefix_lookup_Some _ _ _ _ Hb) in Hp. rewrite lookup_drop in Hp. congruence.
Qed.

Lemma merge_same l p es o :
  agree (default_entry :: l) es (S p) o -> drop o es = [] -> merge l p es = l.
Proof.
  intros (Ht & Ho & Hl) He. unfold merge. rewrite decide_True; [done|].
  cbn [drop] in Ht. rewrite <- (take_drop o es), He, app_nil_r, Ht. apply prefix_take.
Qed.

Lemma merge_keeps l p es o c :
  agree (default_entry :: l) es (S p) o -> c <= p + o -> take c (take (p + o) l ++ drop o es) = take c l.
Proof.
  intros (_ & _ & Hl) Hc. cbn [length] in Hl.
  rewrite take_app_le by (rewrite length_take; lia). rewrite take_take. f_equal. lia.
Qed.

(** The node that holds the merged log, durably. *)
Definition with_log n (l : list LogEntry) (st : St) : Node :=
  set_storage_ st (set_log_ (default_entry :: l) n).

Definition follower_commit (lc : N) n : Node :=
  if (commit_index_ n <? lc)%N then commit_to (N.min lc (last_log_index n)) n else n.

Definition acceptance n (sender : NodeId) (request : AppendEntriesRequest) : Message :=
  let m := (ae_previous_log_index request + N.of_nat (length (ae_entries request)))%N in
  mkMessage (node_id (config_ n)) sender (AppendResponse
    (mkAppendResponse (current_term_ n) true m (m + 1) None (ae_request_id request))).

Lemma inv_with_log n l st l0 :
  node_inv n -> log_ n = default_entry :: l0 -> Forall wf_entry l -> storage_inv st ->
  (N.of_nat (S (length l)) <= vector_max)%N ->
  (N.to_nat (commit_index_ n) <= length l) -> state_ n = follower ->
  node_inv (with_log n l st).
Proof.
  intros Hn Hl Hwf Hst Hlen Hc Hs. revert Hn. unfold with_log.
  keep_inv; cbn [length]; try lia; [eauto|]. congruence.
Qed.

Lemma inv_follower_commit lc n : node_inv n -> node_inv (follower_commit lc n).
Proof.
  intros Hn. unfold follower_commit. destruct (N.ltb_spec (commit_index_ n) lc); [|done].
  pose proof (inv_commit n Hn). pose proof (inv_log_pos n Hn). rewrite inv_last by done.
  apply inv_commit_to; [lia|lia|done].
Qed.

Lemma with_log_same n l : log_ n = default_entry :: l -> with_log n l (storage_ n) = n.
Proof. intros H. unfold with_log. rewrite <- H. by destruct n. Qed.

Lemma wp_follower_commit lc n (Q : unit -> Node -> Prop) X :
  node_inv n -> Q tt (follower_commit lc n) ->
  wp (when (commit_index_ n <? lc)%N
        (modify (set_commit_index_ (N.min lc (last_log_index n)));; apply_committed_entries_locked))
     n Q X.
Proof.
  intros Hn HQ. unfold follower_commit in HQ. apply wp_when; intros Hlt; rewrite Hlt in HQ; [|done].
  apply N.ltb_lt in Hlt. pose proof (inv_commit n Hn). pose proof (inv_log_pos n Hn).
  apply wp_commit_to; [done| | |done]; rewrite inv_last by done; lia.
Qed.

(** [k] is the first index of the run of [ct]-entries that ends at [i]. *)
Definition run_start (log : list LogEntry) (ct : Term) (i k : nat) : Prop :=
  1 <= k <= i /\
  (forall j, k <= j <= i -> exists e, log !! j = Some e /\ term e = ct) /\
  (k = 1 \/ exists e, log !! (k - 1) = Some e /\ term e <> ct).

Lemma wp_conflict_scan log ct i n (Q : N -> Node -> Prop) X e :
  1 <= i -> log !! i = Some e -> term e = ct ->
  (forall k, run_start log ct i k -> Q (N.of_nat k) n) ->
  wp (conflict_scan log ct i) n Q X.
Proof.
  revert e Q. induction i as [|i IH]; intros e Q Hi He Hct HQ; [lia|]. cbn [conflict_scan].
  assert (forall j, S i <= j <= S i -> exists e, log !! j = Some e /\ term e = ct) as Hself.
  { intros j Hj. replace j with (S i) by lia. eauto. }
  destruct (N.ltb_spec 1 (N.of_nat (S i))); wp_steps.
  2: { apply HQ. split; [lia|]. split; [done|]. left. lia. }
  destruct (lookup_lt_is_Some_2 log i) as [a Ha]; [apply lookup_lt_Some in He; lia|].
  eapply wp_at_index; [by rewrite Nat2N.id|].
  destruct (N.eqb_spec (term a) ct) as [Hac|Hac]; wp_steps.
  - apply (IH a); [lia|done|done|]. intros k (Hk & Hrun & Hstart). apply HQ.
    split; [lia|]. split; [|done]. intros j Hj.
    destruct (decide (j = S i)) as [->|]; [eauto|]. apply Hrun. lia.
  - apply HQ. split; [lia|]. split; [done|]. right. exists a.
    by rewrite Nat.sub_succ, Nat.sub_0_r.
Qed.

(** The consistency check on the entry before the new ones. *)
Definition prev_matches n (request : AppendEntriesRequest) : Prop :=
  (ae_previous_log_index request < N.of_nat (length (log_ n)))%N /\
  (ae_previous_log_index request = 0%N \/
   exists e, log_ n !! N.to_nat (ae_previous_log_index request) = Some e /\
             term e = ae_previous_log_term request).

(** Same index, same term, different content. *)
Definition mismatch n (request : AppendEntriesRequest) : Prop :=
  exists o a b, (default_entry :: tail (log_ n)) !! (S (N.to_nat (ae_previous_log_index request)) + o)
                  = Some a /\
    ae_entries request !! o = Some b /\ term a = term b /\ a <> b.

Lemma inv_truncate n l i :
  node_inv n -> log_ n = default_entry :: l -> state_ n = follower ->
  (commit_index_ n < N.of_nat (S i))%N -> i <= length l ->
  node_inv (set_log_ (default_entry :: take i l) n).
Proof.
  intros Hn Hl Hs Hc Hi. destruct (inv_log n Hn) as (l' & Hl' & Hwf).
  pose proof (inv_length n Hn) as Hlen. rewrite Hl in Hlen, Hl'. simplify_eq.
  apply (inv_with_log n (take i l') (storage_ n) l'); auto.
  - by apply Forall_take.
  - apply Hn.
  - rewrite length_take. cbn [length] in Hlen. lia.
  - rewrite length_take. lia.
Qed.

Lemma wp_finish_append n lt rest truncated sender request (Q : unit -> Node -> Prop)
    (X : failure -> Node -> Prop) :
  let lm := lt ++ rest in
  node_inv n -> state_ n = follower -> log_ n = default_entry :: lt -> Forall wf_entry rest ->
  N.to_nat (ae_previous_log_index request) + length (ae_entries request) <= length lm ->
  ((vector_max < N.of_nat (S (length lm)))%N ->
   forall n', node_inv n' -> storage_ n' = storage_ n -> X (Exn LengthError) n') ->
  (forall st, truncated = false /\ rest = [] /\ st = storage_ n \/
     (truncated = true \/ rest <> []) /\ durable st = mkPersistent (current_term_ n) (voted_for_ n) lm ->
     let n1 := follower_commit (ae_leader_commit request) (with_log n lm st) in
     node_inv (with_log n lm st) -> node_inv n1 ->
     Q tt (set_outbox_ (outbox_ n1 ++ [acceptance n1 sender request]) n1)) ->
  (truncated = true \/ rest <> [] -> forall f n', broken_save f (storage_ n') ->
     durable (storage_ n') = durable (storage_ n) \/
     durable (storage_ n') = mkPersistent (current_term_ n) (voted_for_ n) lm ->
     (f <> Crash -> node_inv n') ->
     unsaved (with_log n lm (storage_ n)) (durable (storage_ n)) f n' -> X f n') ->
  wp (finish_append sender request truncated rest) n Q X.
Proof.
  intros lm Hn Hs Hl Hwf Hlen Hlong Hok Hfail.
  assert (forall st, node_inv (with_log n lm st) -> truncated = false /\ rest = [] /\ st = storage_ n \/
     (truncated = true \/ rest <> []) /\ durable st = mkPersistent (current_term_ n) (voted_for_ n) lm ->
     wp (n' ← get;
         when (commit_index_ n' <? ae_leader_commit request)%N
           (modify (set_commit_index_ (N.min (ae_leader_commit request) (last_log_index n')));;
            apply_committed_entries_locked);;
         n' ← get;
         let match_index := ae_previous_log_index request +u N.of_nat (length (ae_entries request)) in
         send_locked sender (AppendResponse (mkAppendResponse (current_term_ n') true
           match_index (match_index +u 1) None (ae_request_id request)))) (with_log n lm st) Q X)
    as Htail.
  { intros st Hst Hd. wp_steps. apply wp_follower_commit; [done|].
    pose proof (inv_length _ Hst) as Hlm. unfold with_log in Hlm. node_simpl. cbn [length] in Hlm.
    rewrite !u64_add_small by (rewrite ?u64_add_small; lia).
    unfold send_locked. wp_steps. apply Hok; auto. by apply inv_follower_commit. }
  unfold finish_append. wp_steps.
  apply (wp_mono _ _ (fun _ n2 => n2 = with_log n lm (storage_ n) /\ node_inv n2)
    _ (fun f n2 => f = Exn LengthError /\ n2 = n /\ (vector_max < N.of_nat (S (length lm)))%N)).
  - apply wp_when; intros Hr%bool_decide_eq_true || intros Hr%bool_decide_eq_false.
    + unfold log_append. wp_steps.
      destruct (N.leb_spec (N.of_nat (length (log_ n) + length rest)) vector_max) as [Hle|Hgt];
        wp_steps; [|rewrite Hl in Hgt; unfold lm; rewrite length_app; cbn [length] in Hgt; split_and!; (done || lia)].
      assert (set_log_ (log_ n ++ rest) n = with_log n lm (storage_ n)) as ->
        by (unfold with_log, lm; rewrite Hl; by destruct n).
      split; [done|]. destruct (inv_log n Hn) as (lt' & Hl' & Hlt). rewrite Hl in Hl'. simplify_eq.
      pose proof (inv_commit n Hn) as Hc. rewrite Hl in Hle, Hc. cbn [length] in Hle, Hc.
      apply (inv_with_log n lm (storage_ n) lt'); auto; unfold lm.
      * by apply Forall_app.
      * apply Hn.
      * rewrite length_app. lia.
      * rewrite length_app. lia.
    + assert (rest = []) as -> by (destruct rest; [done|]; by destruct Hr).
      unfold lm. rewrite app_nil_r, with_log_same; auto.
  - intros _ n2 [-> Hn2]. wp_steps. apply wp_when; intros Hch; cbv beta.
    + assert (truncated = true \/ rest <> []) as Hwhy
        by (apply orb_true_iff in Hch as [->|Hch%bool_decide_eq_true]; auto).
      eapply inv_persist_exact; [exact Hn2|done| |].
      * intros st Hd Hst. change (set_storage_ st (with_log n lm (storage_ n)))
          with (with_log n lm st) in *. apply Htail; [done|]. by right.
      * intros f st Hmed Hd Hinv Hun. apply Hfail; auto.
    + apply orb_false_iff in Hch as [-> Hr%bool_decide_eq_false].
      apply Htail; [done|]. left. split; [done|]. split; [|done].
      destruct rest; [done|]. by destruct Hr.
  - intros f n2 (-> & -> & Hgt). by apply Hlong.
Qed.

(** Why a follower rejects, with what it tells the leader: its log is too short;
    the previous entry has another term, then the first index of the run of that
    term; or an incoming entry contradicts a committed one. *)
Inductive reject_reason n (request : AppendEntriesRequest) : N -> option N -> Prop :=
| rr_short :
    (last_log_index n < ae_previous_log_index request)%N ->
    reject_reason n request (N.of_nat (length (log_ n))) None
| rr_conflict e k :
    (0 < ae_previous_log_index request)%N ->
    log_ n !! N.to_nat (ae_previous_log_index request) = Some e ->
    term e <> ae_previous_log_term request ->
    run_start (log_ n) (term e) (N.to_nat (ae_previous_log_index request)) k ->
    reject_reason n request (N.of_nat k) (Some (term e))
| rr_committed o a b :
    prev_matches n request ->
    log_ n !! (S (N.to_nat (ae_previous_log_index request)) + o) = Some a ->
    ae_entries request !! o = Some b -> term a <> term b ->
    (N.of_nat (S (N.to_nat (ae_previous_log_index request)) + o) <= commit_index_ n)%N ->
    reject_reason n request (N.of_nat (S (N.to_nat (ae_previous_log_index request)) + o))
      (Some (term a)).

Section receive.
Context (n : Node) (l : list LogEntry) (sender : NodeId) (request : AppendEntriesRequest).
Context (Q : unit -> Node -> Prop) (X : failure -> Node -> Prop).
Abbreviation p := (N.to_nat (ae_previous_log_index request)).
Abbreviation es := (ae_entries request).
Abbreviation lm := (merge l p es).
Context (Hn : node_inv n) (Hs : state_ n = follower) (Hl : log_ n = default_entry :: l).
Context (Hwf : Forall wf_entry es).
Context (Hrej : forall ci ct, reject_reason n request ci ct ->
  Q tt (set_outbox_ (outbox_ n ++ [rejection n sender request ci ct]) n)).
Context (Hbad : prev_matches n request -> mismatch n request ->
  X (Exn (RaftError "log matching invariant violated")) n).
Context (Hlong : (vector_max < N.of_nat (S p + length es))%N ->
  forall n', node_inv n' -> storage_ n' = storage_ n -> X (Exn LengthError) n').
Context (Hok : prev_matches n request ->
  take (N.to_nat (commit_index_ n)) lm = take (N.to_nat (commit_index_ n)) l ->
  forall st, lm = l /\ st = storage_ n \/
             lm <> l /\ durable st = mkPersistent (current_term_ n) (voted_for_ n) lm ->
  let n1 := follower_commit (ae_leader_commit request) (with_log n lm st) in
  node_inv (with_log n lm st) -> node_inv n1 ->
  Q tt (set_outbox_ (outbox_ n1 ++ [acceptance n1 sender request]) n1)).
Context (Hfail : prev_matches n request -> lm <> l -> forall f n', broken_save f (storage_ n') ->
  durable (storage_ n') = durable (storage_ n) \/
  durable (storage_ n') = mkPersistent (current_term_ n) (voted_for_ n) lm ->
  (f <> Crash -> node_inv n') ->
  unsaved (with_log n lm (storage_ n)) (durable (storage_ n)) f n' -> X f n').

Lemma wp_extend_log o :
  prev_matches n request -> agree (default_entry :: l) es (S p) o ->
  drop o es = [] \/ S p + o = S (length l) ->
  wp (finish_append sender request false (drop o es)) n Q X.
Proof.
  intros Hpm Hag Hend. pose proof Hpm as [Hp _]. pose proof (inv_commit n Hn) as Hc.
  rewrite Hl in Hp, Hc. cbn [length] in Hp, Hc.
  destruct (decide (drop o es = [])) as [He|He].
  - rewrite He. assert (lm = l) as Hlm by (by eapply merge_same).
    apply (wp_finish_append n l [] false); auto; rewrite ?app_nil_r.
    + pose proof (length_merge l p es) as Hm. rewrite Hlm in Hm. apply Hm. lia.
    + pose proof (inv_length n Hn) as Hmax. rewrite Hl in Hmax. cbn [length] in Hmax. lia.
    + intros st Hst. rewrite Hlm in Hok. apply Hok; [done|done|naive_solver].
    + by intros [?|?].
  - destruct Hend as [|Hend]; [done|].
    assert (take (p + o) l ++ drop o es = lm) as Hlm by (apply merge_extends; [done|done|by left]).
    rewrite take_ge in Hlm by lia.
    assert (lm <> l) as Hne.
    { rewrite <- Hlm. intros Hx%(f_equal length). rewrite length_app in Hx. by destruct (drop o es); [|simpl in Hx; lia]. }
    apply (wp_finish_append n l); auto; rewrite ?Hlm.
    + by apply Forall_drop.
    + apply length_merge. lia.
    + destruct Hag as (_ & Ho & _). rewrite <- Hlm, length_app, length_drop. intros Hlt. apply Hlong. lia.
    + intros st Hst. apply Hok; [done| |].
      * rewrite <- Hlm. apply take_app_le. lia.
      * destruct Hst as [(_ & ? & _)|[_ Hst]]; [done|]. by right.
    + intros _. by apply Hfail.
Qed.

Lemma wp_replace_log o a b :
  prev_matches n request -> agree (default_entry :: l) es (S p) o ->
  (default_entry :: l) !! (S p + o) = Some a -> es !! o = Some b -> term a <> term b ->
  (commit_index_ n < N.of_nat (S p + o))%N ->
  wp (finish_append sender request true (drop o es)) (set_log_ (take (S p + o) (default_entry :: l)) n) Q X.
Proof.
  intros Hpm Hag Ha Hb Hab Hco. pose proof Hpm as [Hp _]. rewrite Hl in Hp. cbn [length] in Hp.
  assert (take (p + o) l ++ drop o es = lm) as Hlm.
  { apply merge_extends; [done| |right; eauto].
    intros He%(f_equal length). rewrite length_drop in He. cbn [length] in He.
    apply lookup_lt_Some in Hb. lia. }
  assert (p + o <= length l) as Hpo by (destruct Hag as (_ & _ & Hag); cbn [length] in Hag; lia).
  assert (lm <> l) as Hne.
  { intros Hx. apply Hab. f_equal. change (l !! (p + o) = Some a) in Ha.
    rewrite <- Hx, <- Hlm, lookup_app_r, lookup_drop in Ha by (rewrite length_take; lia).
    rewrite length_take_le in Ha by done. replace (o + (p + o - (p + o))) with o in Ha by lia. congruence. }
  change (take (S p + o) (default_entry :: l)) with (default_entry :: take (p + o) l).
  apply (wp_finish_append (set_log_ (default_entry :: take (p + o) l) n)
    (take (p + o) l)); node_simpl; auto; rewrite ?Hlm.
  - apply inv_truncate; auto.
  - by apply Forall_drop.
  - apply length_merge. lia.
  - destruct Hag as (_ & Ho & _). rewrite <- Hlm, length_app, length_drop, length_take_le by done.
    intros Hlt. apply Hlong. lia.
  - intros st Hst. apply (Hok Hpm ltac:(rewrite <- Hlm; apply merge_keeps; [done|lia]) st).
    right. by destruct Hst as [(? & _)|[_ Hst]].
  - intros _. by apply Hfail.
Qed.

Lemma wp_accept_entries : prev_matches n request -> wp (accept_entries sender request) n Q X.
Proof.
  intros Hpm. pose proof Hpm as [Hp _]. pose proof (inv_length n Hn) as Hlen.
  unfold accept_entries. wp_steps. rewrite u64_add_small by lia.
  replace (ae_previous_log_index request + 1)%N with (N.of_nat (S p)) by lia.
  apply wp_merge_loop; [done|lia|lia| | | |].
  - intros o. rewrite Hl. by apply wp_extend_log.
  - intros o a b. rewrite Hl. by apply wp_replace_log.
  - intros o a b Hag Ha Hb Hab Hco. wp_steps. apply Hrej. by eapply rr_committed.
  - intros o a b Hag Ha Hb Hab Hne. rewrite Hl in Ha. apply Hbad; [done|]. exists o, a, b. by rewrite Hl.
Qed.

Lemma wp_append_from_leader : wp (append_from_leader sender request) n Q X.
Proof.
  pose proof (inv_length n Hn) as Hlen. pose proof (inv_log_pos n Hn) as Hpos0.
  unfold append_from_leader. wp_steps.
  destruct (N.ltb_spec (last_log_index n) (ae_previous_log_index request)) as [Hshort|Hlong']; wp_steps.
  { apply wp_reject.
    replace (last_log_index n +u 1) with (N.of_nat (length (log_ n)));
      [apply Hrej; by constructor|]. rewrite inv_last by done. rewrite u64_add_small; lia. }
  rewrite inv_last in Hlong' by done.
  destruct (N.ltb_spec 0 (ae_previous_log_index request)) as [Hpos|Hz]; wp_steps.
  2: { apply wp_accept_entries. split; [lia|left; lia]. }
  destruct (log_lookup_lt n (ae_previous_log_index request)) as [e He]; [lia|].
  eapply wp_at_index; [done|]. wp_steps.
  destruct (N.eqb_spec (term e) (ae_previous_log_term request)) as [Heq|Hneq].
  - apply wp_accept_entries. split; [lia|right; eauto].
  - wp_steps. eapply wp_conflict_scan; [lia|done|done|]. intros k Hk. apply wp_reject, Hrej.
    by eapply rr_conflict.
Qed.
End receive.

(** ** Receiving answers *)

Definition acked n (p : NodeId) (m k : N) : Node :=
  set_next_index_ (<[p := k]> (next_index_ n)) (set_match_index_ (<[p := m]> (match_index_ n)) n).

Lemma inv_acked n p m k :
  node_inv n -> (m < k)%N -> (k <= N.of_nat (length (log_ n)))%N -> node_inv (acked n p m k).
Proof.
  intros Hn Hm Hk. destruct Hn; constructor; node_simpl; auto. unfold acked; node_simpl.
  intros Hs q Hq. destruct (decide (p = q)) as [->|Hne].
  - exists m, k. node_simpl. rewrite !lookup_insert_eq. auto.
  - destruct (inv_leader0 Hs q Hq) as (m' & k' & H1 & H2 & ?). exists m', k'. node_simpl.
    rewrite !lookup_insert_ne by done. auto.
Qed.

Lemma set_request_same n : set_outbox_ (outbox_ n ++ []) (set_append_request_id_ (append_request_id_ n) n) = n.
Proof. rewrite app_nil_r. by destruct n. Qed.

Lemma wp_conflict_term_scan log ct i n (Q : option N -> Node -> Prop) X :
  i < length log ->
  (forall k e, 1 <= k <= i -> log !! k = Some e -> term e = ct -> Q (Some (N.of_nat k)) n) ->
  Q None n -> wp (conflict_term_scan log ct i) n Q X.
Proof.
  intros Hi HS HN. induction i as [|i IH]; cbn [conflict_term_scan]; wp_steps; [done|].
  destruct (lookup_lt_is_Some_2 log (S i)) as [a Ha]; [done|].
  eapply wp_at_index; [by rewrite Nat2N.id|].
  destruct (N.eqb_spec (term a) ct); wp_steps; [apply (HS _ a); [lia|done|done]|].
  apply IH; [lia|]. intros k e Hk. apply HS. lia.
Qed.

Lemma wp_append_success n sender response (Q : unit -> Node -> Prop) X :
  node_inv n -> state_ n = leader -> sender ∈ peers (config_ n) ->
  ((N.of_nat (length (log_ n)) <= aer_match_index response)%N -> Q tt n) ->
  ((aer_match_index response < N.of_nat (length (log_ n)))%N ->
   forall m k n2 ms rq, match_index_ n !! sender = Some m ->
     let n1 := acked n sender (N.max m (aer_match_index response)) k in
     node_inv n1 -> maybe_committed n1 n2 -> node_inv n2 -> Forall (is_append_message n2) ms ->
     (forall c, quorum_holds c n1 -> (c <= commit_index_ n2)%N) ->
     Q tt (set_outbox_ (outbox_ n2 ++ ms) (set_append_request_id_ rq n2))) ->
  wp (on_append_success sender response) n Q X.
Proof.
  intros Hn Hs Hp Hign Hsucc. unfold on_append_success. wp_steps.
  pose proof (inv_length n Hn) as Hlen. pose proof (inv_log_pos n Hn) as Hpos.
  destruct (inv_leader n Hn Hs sender Hp) as (m & k & Hm & Hk & Hmk & Hkl).
  rewrite inv_last by done.
  destruct (N.ltb_spec (N.of_nat (length (log_ n)) - 1) (aer_match_index response)); wp_steps; [apply Hign; lia|].
  eapply wp_subscript; [done|]. wp_steps. eapply wp_subscript; [done|]. wp_steps.
  rewrite u64_add_small by lia.
  set (m1 := N.max m (aer_match_index response)) in *.
  set (k1 := N.max k (aer_match_index response + 1)).
  fold (acked n sender m1 k1).
  assert (node_inv (acked n sender m1 k1)) as Hn1 by (apply inv_acked; [done|lia|lia]).
  specialize (Hsucc ltac:(lia) m k1). cbv zeta in Hsucc. fold m1 in Hsucc.
  apply wp_advance_exact; [done|done| |].
  - intros Hno. wp_steps. eapply (wp_subscript _ _ _ _ _ _ m1); [apply lookup_insert_eq|].
    wp_steps. apply wp_when; intros Hlt.
    + apply wp_send_append; [done|done|done|]. intros msg rq Hmsg _.
      apply Hsucc; auto; [by left|]. intros c Hc. by destruct (Hno c).
    + rewrite <- (set_request_same (acked n sender m1 k1)). apply Hsucc; auto; [by left|].
      intros c Hc. by destruct (Hno c).
  - intros c Hc Hmax. assert (maybe_committed (acked n sender m1 k1)
      (commit_to c (acked n sender m1 k1))) as Hmc by (right; eauto).
    pose proof (inv_maybe_committed _ _ Hn1 Hmc) as Hn2.
    apply wp_broadcast; [done|done|]. intros ms rq Hms _. by apply Hsucc.
Qed.

(** The next index [retry_from] settles on. *)
Definition retry_index n (m k0 : N) : N :=
  N.max (N.min (N.max k0 1) (N.of_nat (length (log_ n)))) (m + 1).

Lemma wp_retry n sender k0 (Q : unit -> Node -> Prop) X :
  node_inv n -> state_ n = leader -> sender ∈ peers (config_ n) ->
  (forall m msg rq, match_index_ n !! sender = Some m ->
     let n1 := acked n sender m (retry_index n m k0) in
     node_inv n1 -> is_append_message n1 msg -> to msg = sender -> tagged rq msg ->
     Q tt (set_outbox_ (outbox_ n1 ++ [msg]) (set_append_request_id_ rq n1))) ->
  wp (retry_from sender k0) n Q X.
Proof.
  intros Hn Hs Hp HQ. unfold retry_from. wp_steps.
  pose proof (inv_length n Hn) as Hlen. pose proof (inv_log_pos n Hn) as Hpos.
  destruct (inv_leader n Hn Hs sender Hp) as (m & k & Hm & Hk & Hmk & Hkl).
  rewrite inv_last, u64_add_small by (done || lia).
  rewrite (proj2 (N.ltb_ge _ _)) by lia. wp_steps.
  eapply wp_subscript; [done|]. wp_steps. rewrite u64_add_small by lia.
  replace (N.of_nat (length (log_ n)) - 1 + 1)%N with (N.of_nat (length (log_ n))) by lia.
  fold (retry_index n m k0). specialize (HQ m).
  assert (retry_index n m k0 <= N.of_nat (length (log_ n)))%N by (unfold retry_index; lia).
  assert (m < retry_index n m k0)%N by (unfold retry_index; lia).
  set (k1 := retry_index n m k0) in *.
  assert (set_next_index_ (<[sender := k1]> (next_index_ n)) n = acked n sender m k1) as ->.
  { unfold acked. rewrite (insert_id (match_index_ n)) by done. by destruct n. }
  assert (node_inv (acked n sender m k1)) as Hn1 by (apply inv_acked; done).
  apply wp_send_tagged; [done|done|done|]. intros msg rq Hmsg Hto Htag _. by apply HQ.
Qed.

(** Where the leader may resume after a rejection: after an entry of its own with
    the conflicting term, or at the index the follower proposes. *)
Definition resume_point n (response : AppendEntriesResponse) (k0 : N) : Prop :=
  k0 = aer_conflict_index response \/
  exists ct k e, aer_conflict_term response = Some ct /\ 1 <= k /\ log_ n !! k = Some e /\
    term e = ct /\ k0 = (N.of_nat k + 1)%N.

Lemma wp_append_failure n sender response (Q : unit -> Node -> Prop) X :
  node_inv n -> state_ n = leader -> sender ∈ peers (config_ n) ->
  (append_request_id_ n !! sender <> Some (aer_request_id response) ->
   forall rq, Q tt (set_append_request_id_ rq n)) ->
  (forall m k0 msg rq rq', match_index_ n !! sender = Some m -> resume_point n response k0 ->
     let n1 := acked (set_append_request_id_ rq' n) sender m (retry_index n m k0) in
     node_inv n1 -> is_append_message n1 msg -> to msg = sender -> tagged rq msg ->
     Q tt (set_outbox_ (outbox_ n1 ++ [msg]) (set_append_request_id_ rq n1))) ->
  wp (on_append_failure sender response) n Q X.
Proof.
  intros Hn Hs Hp Hign Hfail. unfold on_append_failure. wp_steps.
  apply (wp_mono _ _ (fun rid n' => (append_request_id_ n !! sender = Some (aer_request_id response) ->
    rid = aer_request_id response) /\ exists rq, n' = set_append_request_id_ rq n) _ (fun _ _ => False));
    [|intros rid n' [Hrid [rq ->]]|done].
  { unfold subscript. wp_steps. destruct (append_request_id_ n !! sender); wp_steps;
      (split; [congruence|]); [exists (append_request_id_ n); by destruct n|eauto]. }
  assert (node_inv (set_append_request_id_ rq n)) as Hn' by (revert Hn; keep_inv).
  destruct (N.eqb_spec rid (aer_request_id response)); cbn [negb]; wp_steps; [|apply Hign; auto].
  assert (forall k0, resume_point n response k0 ->
    wp (retry_from sender k0) (set_append_request_id_ rq n) Q X) as Hretry.
  { intros k0 Hk0. apply wp_retry; [done|done|done|]. intros m msg rq' Hm n1 Hn1 Hmsg Hto Htag.
    by apply (Hfail m k0). }
  pose proof (inv_log_pos n Hn) as Hpos. pose proof (inv_length n Hn) as Hlen.
  destruct (aer_conflict_term response) as [ct|] eqn:Hct; wp_steps; [|apply Hretry; by left].
  rewrite inv_last by done.
  apply wp_conflict_term_scan; node_simpl; [lia| |apply Hretry; by left].
  intros k a Hk Ha Hta. rewrite u64_add_small by lia. apply Hretry. right. exists ct, k, a. split_and!; (done || lia).
Qed.

(** ** Votes *)

Definition vote_answer n (sender : NodeId) (granted : bool) : Message :=
  mkMessage (node_id (config_ n)) sender (VoteResponse (mkVoteResponse (current_term_ n) granted)).

(** The candidate's log is at least as up to date as the local one. *)
Definition candidate_current n (request : RequestVoteRequest) : Prop :=
  exists e, last (log_ n) = Some e /\
    ((term e < rv_last_log_term request)%N \/
     rv_last_log_term request = term e /\ (last_log_index n <= rv_last_log_index request)%N).

Definition voted n (c : NodeId) (st : St) (t : Z) (r : E) : Node :=
  set_election_elapsed_ 0 (set_election_timeout_ t (set_random_ r
    (set_storage_ st (set_voted_for_ (Some c) n)))).

Lemma wp_candidate_current n l request (Q : bool -> Node -> Prop) X :
  log_ n = default_entry :: l ->
  (candidate_current n request -> Q true n) -> (~ candidate_current n request -> Q false n) ->
  wp (candidate_log_is_current_locked request) n Q X.
Proof.
  intros Hl Ht Hf. unfold candidate_log_is_current_locked. wp_steps.
  destruct (last_log n l Hl) as [e He]. eapply wp_last_term; [done|].
  unfold last_log_index_locked. wp_steps.
  destruct (N.ltb_spec (term e) (rv_last_log_term request)); cbn [orb].
  { apply Ht. exists e. auto. }
  destruct (N.eqb_spec (rv_last_log_term request) (term e)); cbn [andb].
  2: { apply Hf. intros (e' & He' & [?|[? ?]]); rewrite He in He'; simplify_eq; lia. }
  destruct (N.leb_spec (last_log_index n) (rv_last_log_index request)).
  - apply Ht. exists e. auto.
  - apply Hf. intros (e' & He' & [?|[? ?]]); rewrite He in He'; simplify_eq; lia.
Qed.

(** When a node grants its vote. *)
Definition may_grant n (sender : NodeId) (request : RequestVoteRequest) : Prop :=
  rv_candidate_id request = sender /\ (current_term_ n <= rv_term request)%N /\
  (voted_for_ n = None \/ voted_for_ n = Some sender) /\ candidate_current n request.

Lemma inv_voted n c st t r :
  node_inv n -> is_u64 c -> storage_inv st ->
  (election_timeout_min (config_ n) <= t <= election_timeout_max (config_ n))%Z ->
  node_inv (voted n c st t r).
Proof.
  intros Hn Hc Hst Ht. unfold voted. apply inv_reset; [done|]. apply inv_set_storage; [done|].
  revert Hn. keep_inv. congruence.
Qed.

Lemma peer_is_u64 n p : node_inv n -> p ∈ peers (config_ n) -> is_u64 p.
Proof.
  intros Hn Hp. pose proof (cfg_ids _ (inv_config n Hn)) as H.
  rewrite Forall_forall in H. apply H. by right.
Qed.

Lemma wp_request_vote n l sender request (Q : unit -> Node -> Prop) (X : failure -> Node -> Prop) :
  node_inv n -> sender ∈ peers (config_ n) -> log_ n = default_entry :: l ->
  (~ may_grant n sender request ->
     Q tt (set_outbox_ (outbox_ n ++ [vote_answer n sender false]) n)) ->
  (rv_candidate_id request = sender -> (current_term_ n <= rv_term request)%N ->
   candidate_current n request ->
   forall st t r, voted_for_ n = Some sender /\ st = storage_ n \/
       voted_for_ n = None /\ durable st = mkPersistent (current_term_ n) (Some sender) l ->
     let n1 := voted n sender st t r in
     node_inv n1 -> Q tt (set_outbox_ (outbox_ n ++ [vote_answer n sender true]) n1)) ->
  (rv_candidate_id request = sender -> (current_term_ n <= rv_term request)%N ->
   voted_for_ n = None -> candidate_current n request ->
   forall f n', broken_save f (storage_ n') ->
     durable (storage_ n') = durable (storage_ n) \/
     durable (storage_ n') = mkPersistent (current_term_ n) (Some sender) l ->
     (f <> Crash -> node_inv n') ->
     unsaved (set_voted_for_ (Some sender) n) (durable (storage_ n)) f n' -> X f n') ->
  wp (handle_request_vote_locked sender request) n Q X.
Proof.
  intros Hn Hp Hl Hdeny Hgrant Hfail. unfold handle_request_vote_locked. wp_steps.
  pose proof (peer_is_u64 n sender Hn Hp) as Hu64.
  pose proof (cfg_max _ (inv_config n Hn)) as Hcfg.
  destruct (decide (rv_candidate_id request = sender)) as [Hc|Hc].
  2: { rewrite bool_decide_eq_true_2 by done. cbn [orb]. unfold send_locked. wp_steps.
       apply Hdeny. by intros (? & _). }
  rewrite bool_decide_eq_false_2 by (intros []; done). cbn [orb]. rewrite Hc in *.
  destruct (N.ltb_spec (rv_term request) (current_term_ n)) as [|Hterm]; wp_steps.
  { unfold send_locked. wp_steps. apply Hdeny. intros (_ & ? & _). lia. }
  assert (forall v, voted_for_ n = v -> v <> None -> v <> Some sender ->
    wp (mret false) n (fun a s' => wp (when a (when (bool_decide (v <> Some sender))
      (modify (set_voted_for_ (Some sender));; persist_locked);; reset_election_timeout_locked);;
      n0 ← get; send_locked sender (VoteResponse (mkVoteResponse (current_term_ n0) a))) s' Q X) X) as Hno.
  { intros v Hv Hv1 Hv2. wp_steps. unfold when. wp_steps. unfold send_locked. wp_steps.
    apply Hdeny. intros (_ & _ & [?|?] & _); congruence. }
  destruct (voted_for_ n) as [v|] eqn:Hv; [destruct (decide (v = sender)) as [->|Hne]|].
  - rewrite bool_decide_eq_false_2 by done. rewrite bool_decide_eq_true_2 by done. cbn [orb].
    eapply wp_candidate_current; [done| |].
    + intros Hcur. unfold when. wp_steps. rewrite bool_decide_eq_false_2 by (intros []; done). wp_steps.
      apply wp_reset; [done|]. intros t r Ht. wp_steps. unfold send_locked. wp_steps.
      assert (voted n sender (storage_ n) t r =
        set_election_elapsed_ 0 (set_election_timeout_ t (set_random_ r n))) as Heq
        by (unfold voted; rewrite <- Hv; by destruct n).
      rewrite <- Heq. apply (Hgrant eq_refl Hterm Hcur); [auto|].
      apply inv_voted; auto. apply Hn.
    + intros Hnc. unfold when. wp_steps. unfold send_locked. wp_steps.
      apply Hdeny. by intros (_ & _ & _ & ?).
  - rewrite !bool_decide_eq_false_2 by congruence. cbn [orb]. by apply Hno; congruence.
  - rewrite bool_decide_eq_true_2 by done. cbn [orb].
    eapply wp_candidate_current; [done| |].
    + intros Hcur. unfold when. wp_steps. rewrite bool_decide_eq_true_2 by done. wp_steps.
      assert (node_inv (set_voted_for_ (Some sender) n)) as Hn1.
      { clear Hgrant Hfail Hno. revert Hn. keep_inv. congruence. }
      eapply (inv_persist_exact (set_voted_for_ (Some sender) n)); [done|done| |].
      * intros st Hd Hst. apply wp_reset; [done|]. intros t r Ht. wp_steps.
        unfold send_locked. wp_steps. apply (Hgrant eq_refl Hterm Hcur); [auto|].
        apply inv_voted; auto. apply (inv_storage _ Hst).
      * intros f st ? ? ? ?. by apply (Hfail eq_refl Hterm eq_refl Hcur).
    + intros Hnc. unfold when. wp_steps. unfold send_locked. wp_steps.
      apply Hdeny. by intros (_ & _ & _ & ?).
Qed.

Lemma wp_vote_response n sender response (Q : unit -> Node -> Prop) (X : failure -> Node -> Prop) :
  (~ (state_ n = candidate /\ rvr_term response = current_term_ n /\ rvr_vote_granted response = true) ->
   Q tt n) ->
  (state_ n = candidate -> rvr_term response = current_term_ n -> rvr_vote_granted response = true ->
   let n1 := set_votes_received_ ({[sender]} ∪ votes_received_ n) n in
   ((quorum_size n <= N.of_nat (size (votes_received_ n1)))%N -> wp become_leader_locked n1 Q X) /\
   ((N.of_nat (size (votes_received_ n1)) < quorum_size n)%N -> Q tt n1)) ->
  wp (handle_request_vote_response_locked sender response) n Q X.
Proof.
  intros Hign Hvote. unfold handle_request_vote_response_locked. wp_steps.
  destruct (decide (state_ n = candidate)) as [Hs|];
    [rewrite bool_decide_eq_false_2 by (intros []; done)
    |rewrite bool_decide_eq_true_2 by done; wp_steps; apply Hign; naive_solver].
  destruct (N.eqb_spec (rvr_term response) (current_term_ n)); cbn [negb orb];
    [|wp_steps; apply Hign; naive_solver].
  destruct (rvr_vote_granted response); cbn [negb]; [|wp_steps; apply Hign; naive_solver].
  destruct (Hvote Hs e eq_refl) as [Hwin Hwait].
  wp_steps. apply wp_when; [intros Hq%N.leb_le; by apply Hwin|intros Hq%N.leb_gt; by apply Hwait].
Qed.
End invariant.
