(* ===== verification/RaftInvariant.v ===== *)
(** * The public methods of a Raft node

    Every public method keeps [node_inv], for any message whatever and whether
    it returns or throws, so that no sequence of calls reaches undefined
    behaviour; a call that returns leaves the storage holding the node's term,
    vote and log; and the node only moves forward ([evolves]). *)

From Stdlib Require Import NArith ZArith Lia.
From stdpp Require Import base tactics numbers list gmap strings.
From S2P Require Import Prelude RaftTypes RaftLog RaftNode RaftBehaviour.

Open Scope ftkv_scope.

Ltac solve_failed := intros; intros ?; auto.

Section public.
Context {St E : Type} `{HSt : RaftStorage St} `{HSpec : !RaftStorageSpec St} `{HE : RandomEngine E}.
Abbreviation Node := (RaftNode St E).
Implicit Types n : Node.

(** ** Statements *)

(** The storage holds the node's persistent state. *)
Definition persisted n : Prop :=
  durable (storage_ n) = mkPersistent (current_term_ n) (voted_for_ n) (tail (log_ n)).

(** A node moves forward: its term and commit index never decrease, a vote is
    never changed within a term, and the committed prefix of the log never
    changes. *)
Record evolves n n' : Prop := {
  ev_config : config_ n' = config_ n;
  ev_term : (current_term_ n <= current_term_ n')%N;
  ev_vote : forall c, current_term_ n' = current_term_ n -> voted_for_ n = Some c ->
    voted_for_ n' = Some c;
  ev_commit : (commit_index_ n <= commit_index_ n')%N;
  ev_log : take (S (N.to_nat (commit_index_ n))) (log_ n') =
           take (S (N.to_nat (commit_index_ n))) (log_ n)
}.

#[export] Instance evolves_refl : Reflexive evolves.
Proof. intros n. by split. Qed.

#[export] Instance evolves_trans : Transitive evolves.
Proof.
  intros n1 n2 n3 H1 H2. split.
  - by rewrite (ev_config _ _ H2), (ev_config _ _ H1).
  - etrans; [apply H1|apply H2].
  - intros c Ht Hv. pose proof (ev_term _ _ H1). pose proof (ev_term _ _ H2).
    apply (ev_vote _ _ H2); [lia|]. apply (ev_vote _ _ H1); [lia|done].
  - etrans; [apply H1|apply H2].
  - rewrite <- (ev_log _ _ H1). eapply take_eq_le; [apply H2|].
    pose proof (ev_commit _ _ H1). lia.
Qed.

Definition ok n n' : Prop := node_inv n' /\ (persisted n -> persisted n') /\ evolves n n'.

Lemma ok_refl n : node_inv n -> ok n n.
Proof. intros Hn. split; [done|]. by split. Qed.

Lemma ok_trans n1 n2 n3 : ok n1 n2 -> ok n2 n3 -> ok n1 n3.
Proof. intros (? & ? & ?) (? & ? & ?). split; [done|]. split; [auto|by etrans]. Qed.

(** A failed call keeps the invariant unless the process died. *)
Definition failed (f : failure) n : Prop := f <> Crash -> node_inv n.

(** Only fields outside [node_inv]'s persistent and committed part change. *)
Lemma evolves_frame n n' :
  config_ n' = config_ n -> current_term_ n' = current_term_ n -> voted_for_ n' = voted_for_ n ->
  commit_index_ n' = commit_index_ n -> log_ n' = log_ n ->
  evolves n n'.
Proof.
  intros Hc Ht Hv Hci Hl. split; rewrite ?Hc, ?Ht, ?Hv, ?Hci, ?Hl; try done.
Qed.

Lemma ok_frame n n' :
  node_inv n' -> storage_ n' = storage_ n ->
  config_ n' = config_ n -> current_term_ n' = current_term_ n -> voted_for_ n' = voted_for_ n ->
  commit_index_ n' = commit_index_ n -> log_ n' = log_ n ->
  ok n n'.
Proof.
  intros Hn Hs Hc Ht Hv Hci Hl. split; [done|]. split; [|by apply evolves_frame].
  unfold persisted. by rewrite Hs, Ht, Hv, Hl.
Qed.

Lemma ok_sent n n1 o r :
  ok n n1 -> ok n (set_outbox_ o (set_append_request_id_ r n1)).
Proof. intros H. eapply ok_trans; [done|]. apply ok_frame; try done. apply inv_outbox, H. Qed.

Lemma ok_outbox n n1 o : ok n n1 -> ok n (set_outbox_ o n1).
Proof. intros H. eapply ok_trans; [done|]. apply ok_frame; try done. apply inv_sent, H. Qed.

Lemma ok_commit_to n c :
  node_inv n -> (commit_index_ n <= c)%N -> (c < N.of_nat (length (log_ n)))%N ->
  ok n (commit_to c n).
Proof.
  intros Hn Hc Hlt. split; [by apply inv_commit_to|]. split; [done|].
  by split; unfold commit_to; node_simpl.
Qed.

Lemma ok_maybe_committed n n1 : node_inv n -> maybe_committed n n1 -> ok n n1.
Proof.
  intros Hn [->|(c & Hc & ->)]; [by apply ok_refl|].
  pose proof (qh_new _ _ Hc). apply ok_commit_to; [done|lia|apply Hc].
Qed.

(** A new durable state: the term and the vote moved forward, the committed part
    of the log is untouched. *)
Lemma ok_durable n n' l' :
  node_inv n' -> log_ n' = default_entry :: l' ->
  durable (storage_ n') = mkPersistent (current_term_ n') (voted_for_ n') l' ->
  evolves n n' -> ok n n'.
Proof.
  intros Hn Hl Hd He. split; [done|]. split; [|done]. intros _. unfold persisted. by rewrite Hl.
Qed.

(** ** The private methods *)

Lemma ok_become_leader n :
  node_inv n -> wp become_leader_locked n (fun _ n' => ok n n') failed.
Proof.
  intros Hn. destruct (inv_log n Hn) as (l & Hl & _).
  pose proof (inv_commit n Hn) as Hc.
  eapply wp_become_leader; [done|done| |solve_failed|solve_failed].
  intros nx mt rq st n1 ms r np Hmaps Hd Hnp Hmc Hn1 Hms.
  apply ok_sent. eapply ok_trans; [|by apply (ok_maybe_committed _ _ Hnp Hmc)].
  eapply ok_durable; [done|by unfold np, promoted; node_simpl; rewrite Hl|done|].
  split; unfold np, promoted; node_simpl; try done. apply take_app_le. lia.
Qed.

Lemma ok_demoted n nl t r : node_inv (demoted n nl t r) -> ok n (demoted n nl t r).
Proof. intros Hn. by apply ok_frame. Qed.

Lemma ok_become_follower n T nl :
  node_inv n -> is_u64 T ->
  wp (become_follower_locked T nl) n
    (fun _ n' => ok n n' /\ state_ n' = follower /\ outbox_ n' = outbox_ n /\
       (T <= current_term_ n')%N /\ ((current_term_ n < T)%N -> current_term_ n' = T))
    failed.
Proof.
  intros Hn HT. destruct (inv_log n Hn) as (l & Hl & _).
  eapply wp_become_follower; [done|done|done| | |solve_failed].
  - intros Hle t r Hd. split; [by apply ok_demoted|]. unfold demoted; node_simpl.
    repeat split; auto; lia.
  - intros Hlt t r st Hd Hst. split; [|by repeat split].
    eapply ok_durable; [done|done|done|].
    split; unfold demoted, adopt; node_simpl; try done; lia.
Qed.

Lemma ok_start_election n :
  node_inv n ->
  wp start_election_locked n
    (fun _ n' => node_inv n' /\ ((current_term_ n < u64_max)%N -> ok n n')) failed.
Proof.
  intros Hn. destruct (inv_log n Hn) as (l & Hl & _).
  assert (forall st t r, node_inv (set_storage_ st (campaigning n t r)) ->
    durable st = mkPersistent (current_term_ n +u 1) (Some (node_id (config_ n))) l ->
    (current_term_ n < u64_max)%N -> ok n (set_storage_ st (campaigning n t r))) as Hok.
  { intros st t r Hn1 Hd Hlt. eapply ok_durable; [done|done|done|].
    split; unfold campaigning; node_simpl; try done;
      rewrite u64_add_small by lia; [lia|]. intros; lia. }
  eapply wp_start_election; [done|done| | |solve_failed].
  - intros t r st n1 Hd Hn1 _. eapply wp_mono; [by apply ok_become_leader| |done].
    intros [] n2 Hn2. split; [apply Hn2|]. intros Hlt. eapply ok_trans; [|exact Hn2]. by apply Hok.
  - intros t r st e n1 Hd Hn1 _. split; [by apply inv_sent|]. intros Hlt.
    apply ok_outbox. by apply Hok.
Qed.

Lemma ok_request_vote n sender request :
  node_inv n -> sender ∈ peers (config_ n) ->
  wp (handle_request_vote_locked sender request) n
    (fun _ n' => ok n n' /\ exists b, outbox_ n' = outbox_ n ++ [vote_answer n sender b]) failed.
Proof.
  intros Hn Hp. destruct (inv_log n Hn) as (l & Hl & _).
  eapply wp_request_vote; [done|done|done| | |solve_failed].
  - intros _. split; [|by eexists]. apply ok_outbox. by apply ok_refl.
  - intros Hc Ht Hcur st t r Hwhy n1 Hn1. split; [|by eexists]. apply ok_outbox.
    assert (evolves n n1) as Hev.
    { destruct Hwhy as [[Hv _]|[Hv _]]; split; unfold n1, voted; node_simpl; try done; congruence. }
    destruct Hwhy as [[Hv ->]|[Hv Hd]].
    + split; [done|]. split; [|done]. unfold persisted, n1, voted. node_simpl. by rewrite Hv.
    + by eapply ok_durable.
Qed.

Lemma ok_vote_response n sender response :
  node_inv n ->
  wp (handle_request_vote_response_locked sender response) n (fun _ n' => ok n n') failed.
Proof.
  intros Hn. apply wp_vote_response; [intros _; by apply ok_refl|]. intros Hs Ht Hg n1.
  assert (node_inv n1) as Hn1 by (unfold n1; destruct Hn; by constructor).
  assert (ok n n1) as Hok by (by apply ok_frame).
  split; [|done]. intros _. eapply wp_mono; [by apply ok_become_leader| |done].
  intros [] n2 Hn2. by eapply ok_trans.
Qed.

(** Entries that pass the handler's check are 64-bit values. *)
Lemma valid_entries_wf request :
  is_u64 (ae_term request) -> existsb (entry_term_invalid request) (ae_entries request) = false ->
  Forall wf_entry (ae_entries request).
Proof.
  intros HT Hv. apply Forall_forall. intros e He.
  destruct (entry_term_invalid request e) eqn:Hinv.
  - assert (existsb (entry_term_invalid request) (ae_entries request) = true) as Ht; [|congruence].
    apply existsb_exists. exists e. split; [by apply list_elem_of_In|done].
  - apply orb_false_iff in Hinv as [_ Hle%N.ltb_ge]. unfold wf_entry, is_u64 in *. lia.
Qed.

Lemma ok_follower_commit n lc : node_inv n -> ok n (follower_commit lc n).
Proof.
  intros Hn. unfold follower_commit. destruct (N.ltb_spec (commit_index_ n) lc); [|by apply ok_refl].
  pose proof (inv_commit n Hn). pose proof (inv_log_pos n Hn).
  rewrite inv_last by done. apply ok_commit_to; [done|lia|lia].
Qed.

Lemma ok_append_from_leader n sender request :
  node_inv n -> state_ n = follower -> Forall wf_entry (ae_entries request) ->
  wp (append_from_leader sender request) n
    (fun _ n' => ok n n' /\ exists a, outbox_ n' = outbox_ n ++
       [mkMessage (node_id (config_ n)) sender (AppendResponse a)] /\
       aer_request_id a = ae_request_id request) failed.
Proof.
  intros Hn Hs Hwf. destruct (inv_log n Hn) as (l & Hl & _).
  eapply wp_append_from_leader; [done|done|done|done| |solve_failed|solve_failed| |solve_failed].
  - intros ci ct _. split; [|by eexists]. apply ok_outbox. by apply ok_refl.
  - intros Hpm Hkeep st Hwhy n1 Hn0 Hn1.
    assert (outbox_ n1 = outbox_ n /\ node_id (config_ n1) = node_id (config_ n)) as [Ho Hid].
    { unfold n1, follower_commit. by destruct (commit_index_ _ <? _)%N. }
    split; [|exists (mkAppendResponse (current_term_ n1) true
        (ae_previous_log_index request + N.of_nat (length (ae_entries request)))
        (ae_previous_log_index request + N.of_nat (length (ae_entries request)) + 1) None
        (ae_request_id request)); node_simpl; unfold acceptance; by rewrite Ho, Hid].
    apply ok_outbox. eapply ok_trans; [|by apply (ok_follower_commit _ _ Hn0)].
    assert (evolves n (with_log n (merge l (N.to_nat (ae_previous_log_index request))
      (ae_entries request)) st)) as Hev.
    { split; unfold with_log; node_simpl; try done. rewrite Hl. simpl. by rewrite Hkeep. }
    destruct Hwhy as [[Hm ->]|[_ Hd]]; [|by eapply ok_durable].
    rewrite Hm in *. by rewrite with_log_same in * by done.
Qed.

Lemma ok_append_entries n sender request :
  node_inv n -> is_u64 (ae_term request) ->
  wp (handle_append_entries_locked sender request) n
    (fun _ n' => ok n n' /\ exists a, outbox_ n' = outbox_ n ++
       [mkMessage (node_id (config_ n)) sender (AppendResponse a)] /\
       aer_request_id a = ae_request_id request) failed.
Proof.
  intros Hn HT. unfold handle_append_entries_locked. wp_steps.
  assert (forall ci ct, wp (reject sender request ci ct) n (fun _ n' => ok n n' /\
    exists a, outbox_ n' = outbox_ n ++ [mkMessage (node_id (config_ n)) sender (AppendResponse a)] /\
      aer_request_id a = ae_request_id request) failed) as Hrej.
  { intros ci ct. apply wp_reject. split; [|by eexists]. apply ok_outbox. by apply ok_refl. }
  destruct (_ || _); [apply Hrej|].
  destruct (existsb _ _) eqn:Hv; [apply Hrej|].
  pose proof (valid_entries_wf request HT Hv) as Hwf.
  pose proof (cfg_max _ (inv_config n Hn)) as Hcfg.
  assert (forall n1, ok n n1 -> state_ n1 = follower -> outbox_ n1 = outbox_ n ->
    wp (append_from_leader sender request) n1 (fun _ n' => ok n n' /\
    exists a, outbox_ n' = outbox_ n ++ [mkMessage (node_id (config_ n)) sender (AppendResponse a)] /\
      aer_request_id a = ae_request_id request) failed) as Hgo.
  { intros n1 Hok Hs Ho. eapply wp_mono; [apply ok_append_from_leader; [apply Hok|done|done]| |done].
    intros _ n' [Hok' (a & Ha & Hr)]. split; [by eapply ok_trans|]. exists a.
    destruct Hok as (_ & _ & Hev). rewrite Ha, Ho, (ev_config _ _ Hev). done. }
  wp_steps. destruct (bool_decide (state_ n <> follower) || _) eqn:Hb.
  - eapply wp_mono; [apply ok_become_follower; [done|apply (inv_term n Hn)]| |done].
    intros _ n1 (Hok & Hs & Ho & _). by apply Hgo.
  - apply orb_false_iff in Hb as [Hs%bool_decide_eq_false _].
    apply wp_reset; [done|]. intros t r Ht.
    apply Hgo; [|by apply dec_stable|done]. apply ok_frame; try done. by apply inv_reset.
Qed.

Lemma ok_append_response n sender response :
  node_inv n -> sender ∈ peers (config_ n) ->
  wp (handle_append_entries_response_locked sender response) n (fun _ n' => ok n n') failed.
Proof.
  intros Hn Hp. unfold handle_append_entries_response_locked. wp_steps.
  destruct (_ || _) eqn:Hb; [wp_steps; by apply ok_refl|].
  apply orb_false_iff in Hb as [Hs%bool_decide_eq_false _].
  assert (state_ n = leader) as Hlead by (by apply dec_stable).
  destruct (aer_success response).
  - apply wp_append_success; auto; [intros _; by apply ok_refl|].
    intros Hle m k n2 ms rq Hm n1 Hn1 Hmc Hn2 Hms _. apply ok_sent.
    eapply ok_trans; [|by apply (ok_maybe_committed _ _ Hn1 Hmc)]. by apply ok_frame.
  - apply wp_append_failure; auto.
    + intros _ rq. apply ok_frame; try done. destruct Hn; by constructor.
    + intros m k0 msg rq rq' Hm _ n1 Hn1 Hmsg _ _. apply ok_sent. by apply ok_frame.
Qed.

Lemma is_peer_spec n p : node_inv n -> is_peer n p = true -> p ∈ peers (config_ n).
Proof.
  intros Hn Hp. apply andb_true_iff in Hp as [Hne%bool_decide_eq_true Hin%bool_decide_eq_true].
  rewrite (inv_members n Hn) in Hin. set_solver.
Qed.

Definition is_request (m : Message) : bool :=
  match rpc m with VoteRequest _ | AppendRequest _ => true | _ => false end.

Lemma ok_step n m :
  node_inv n -> is_u64 (message_term m) ->
  wp (step_locked m) n
    (fun b n' => ok n n' /\ (b = false -> n' = n) /\
       (b = true -> is_request m = true ->
          exists a, outbox_ n' = outbox_ n ++ [a] /\ answers m a = true)) failed.
Proof.
  intros Hn HT. unfold step_locked. wp_steps.
  destruct (negb _ || _) eqn:Hguard; [wp_steps; by split; [apply ok_refl|]|].
  apply orb_false_iff in Hguard as [_ Hp%negb_false_iff%is_peer_spec]; [|done].
  wp_steps.
  apply (wp_mono _ _ (fun _ n1 => ok n n1 /\ outbox_ n1 = outbox_ n) _ failed); [| |done].
  { apply wp_when; intros _; [|by split; [apply ok_refl|]].
    eapply wp_mono; [by apply ok_become_follower| |done]. naive_solver. }
  intros [] n1 [Hok1 Ho1]. pose proof Hok1 as (Hn1 & _ & Hev1).
  pose proof (ev_config _ _ Hev1) as Hcfg. rewrite <- Hcfg in Hp.
  wp_steps. unfold is_request, answers, message_term in *.
  destruct (rpc m) as [r|r|r|r] eqn:Hm; wp_steps.
  - eapply wp_mono; [by apply ok_request_vote| |done].
    intros [] n2 [Hok2 [b Hb]]. split; [by eapply ok_trans|]. split; [done|]. intros _ _.
    eexists. rewrite Hb, Ho1. split; [done|]. unfold vote_answer. simpl. by rewrite N.eqb_refl.
  - eapply wp_mono; [by apply ok_vote_response| |done].
    intros [] n2 Hok2. split; [by eapply ok_trans|done].
  - eapply wp_mono; [by apply ok_append_entries| |done].
    intros [] n2 [Hok2 (a & Ha & Hr)]. split; [by eapply ok_trans|]. split; [done|]. intros _ _.
    eexists. rewrite Ha, Ho1. split; [done|]. simpl. by rewrite Hr, !N.eqb_refl.
  - eapply wp_mono; [by apply ok_append_response| |done].
    intros [] n2 Hok2. split; [by eapply ok_trans|done].
Qed.

Lemma ok_tick n elapsed :
  node_inv n ->
  wp (tick elapsed) n
    (fun _ n' => node_inv n' /\ ((current_term_ n < u64_max)%N -> ok n n')) failed.
Proof.
  intros Hn. unfold tick. destruct (Z.ltb_spec elapsed 0) as [|Hpos]; wp_steps; [by intros _|].
  pose proof (inv_config n Hn) as []. pose proof (inv_heartbeat n Hn).
  pose proof (inv_election n Hn). pose proof (inv_timeout n Hn).
  assert (forall n', ok n n' -> node_inv n' /\ ((current_term_ n < u64_max)%N -> ok n n')) as Hboth
    by (intros n' H'; split; [apply H'|done]).
  destruct (decide (state_ n = leader)) as [Hs|Hs]; wp_steps.
  - apply wp_i64_sub; [unfold is_i64; lia|].
    destruct (Z.leb_spec (heartbeat_interval (config_ n) - heartbeat_elapsed_ n) elapsed); wp_steps.
    + assert (node_inv (set_heartbeat_elapsed_ 0 n)) as Hn1
        by (destruct Hn; constructor; node_simpl; auto; lia).
      apply wp_broadcast; [done|done|]. intros ms r _ _.
      apply Hboth, ok_sent. by apply ok_frame.
    + apply wp_i64_add; [unfold is_i64; lia|]. wp_steps. apply Hboth. apply ok_frame; try done.
      destruct Hn; constructor; node_simpl; auto; lia.
  - apply wp_i64_sub; [unfold is_i64; lia|].
    destruct (Z.leb_spec (election_timeout_ n - election_elapsed_ n) elapsed); wp_steps.
    + by apply ok_start_election.
    + apply wp_i64_add; [unfold is_i64; lia|]. wp_steps. apply Hboth. apply ok_frame; try done.
      destruct Hn; constructor; node_simpl; auto; lia.
Qed.

Lemma ok_propose n cmd :
  node_inv n ->
  wp (propose cmd) n
    (fun r n' => ok n n' /\
       match r with
       | None => state_ n <> leader /\ n' = n
       | Some i => state_ n = leader /\
           log_ n' = log_ n ++ [mkEntry (current_term_ n) cmd false] /\
           i = N.of_nat (length (log_ n))
       end) failed.
Proof.
  intros Hn. unfold propose. wp_steps. destruct (inv_log n Hn) as (l & Hl & _).
  destruct (decide (state_ n <> leader)) as [Hs|Hs]; wp_steps; [by split; [apply ok_refl|]|].
  apply dec_stable in Hs. destruct (_ =? _)%N; wp_steps; [by intros _|].
  unfold log_push_back. wp_steps.
  destruct (N.ltb_spec (N.of_nat (length (log_ n))) vector_max) as [Hlt|]; wp_steps; [|by intros _].
  set (e := mkEntry (current_term_ n) cmd false).
  pose proof (inv_push_back n e Hn (inv_term n Hn) Hlt) as Hn1.
  eapply (inv_persist _ _ _ (l ++ [e])); [done|by node_simpl; rewrite Hl| |solve_failed].
  intros st Hd Hst. unfold last_log_index_locked. wp_steps.
  eapply wp_mono; [|intros b n1 Hb; apply wp_bind; exact Hb|intros f n1 Hf; exact Hf].
  apply wp_commit_and_broadcast; [done|done|].
  intros n1 ms r Hmc Hn1' Hms _. wp_steps.
  assert (log_ n1 = log_ n ++ [e]) as Hlog1 by (by destruct Hmc as [->|(c & _ & ->)]).
  split.
  - apply ok_sent. eapply ok_trans; [|by apply (ok_maybe_committed _ _ Hst Hmc)].
    eapply ok_durable; [done|by node_simpl; rewrite Hl|done|].
    split; node_simpl; try done. apply take_app_le. pose proof (inv_commit n Hn). lia.
  - split; [done|]. split; [done|]. rewrite (inv_last _ Hst). node_simpl.
    rewrite length_app. cbn [length]. lia.
Qed.

(** The answer is the one new message, so extraction restores the outbox. *)
Lemma extract_single m before a :
  answers m a = true -> extract_answer m before [a] = Some (a, before).
Proof. intros Ha. simpl. by rewrite Ha, app_nil_r. Qed.

Lemma ok_handle_request n m :
  node_inv n -> is_u64 (message_term m) ->
  wp (handle_request m) n
    (fun r n' => ok n n' /\ outbox_ n' = outbox_ n /\
       match r with
       | Some a => answers m a = true
       | None => n' = n
       end)
    failed.
Proof.
  intros Hn HT. unfold handle_request. destruct (is_request m) eqn:Hreq.
  2: { unfold is_request in Hreq. destruct (rpc m); try done; wp_steps; by intros _. }
  assert (wp (n ← get;
    let first_new_message := length (outbox_ n) in
    accepted ← step_locked m;
    if (accepted : bool) then
      n ← get;
      match extract_answer m (take first_new_message (outbox_ n))
              (drop first_new_message (outbox_ n)) with
      | Some (response, rest) => modify (set_outbox_ rest);; mret (Some response)
      | None => mret None
      end
    else mret None) n (fun r n' => ok n n' /\ outbox_ n' = outbox_ n /\
       match r with Some a => answers m a = true | None => n' = n end) failed) as H.
  - wp_steps. eapply wp_mono; [by apply ok_step| |done].
    intros [] n1 (Hok & Hsame & Hans); wp_steps.
    + destruct Hans as (a & Ho & Ha); [done|done|]. rewrite Ho.
      rewrite take_app_length, drop_app_length, extract_single by done. wp_steps.
      split; [by apply ok_outbox|done].
    + rewrite Hsame by done. split; [by apply ok_refl|done].
  - unfold is_request in Hreq. by destruct (rpc m).
Qed.

(** ** The constructor *)

(** The ranges the C++ types give a configuration. *)
Definition config_typed (c : RaftConfig) : Prop :=
  (election_timeout_max c <= i64_max)%Z /\ Forall is_u64 (node_id c :: peers c).

Lemma insert_members_nodup ms ps r :
  insert_members ms ps = Ret r -> NoDup ps /\ (forall p, p ∈ ps -> p ∉ ms).
Proof.
  revert ms. induction ps as [|p ps IH]; intros ms; simpl.
  - intros _. split; [constructor|set_solver].
  - destruct (decide (p ∈ ms)); [done|]. intros [Hnd Hni]%IH. split.
    + constructor; [|done]. intros Hp. apply (Hni p Hp). set_solver.
    + intros q Hq. set_solver.
Qed.

Lemma validate_config_ok c :
  config_typed c -> validate_config c = Ret tt -> config_ok c.
Proof.
  intros [Hmax Hids]. unfold validate_config.
  destruct (_ || _)%Z eqn:Hb; [done|].
  apply orb_false_iff in Hb as [Hb H4%Z.leb_gt]. apply orb_false_iff in Hb as [Hb H3%Z.ltb_ge].
  apply orb_false_iff in Hb as [H1%Z.leb_gt H2%Z.leb_gt].
  destruct (insert_members _ _) eqn:Hi; try done. intros _.
  apply insert_members_nodup in Hi as [Hnd Hni].
  split; auto. constructor; [|done]. intros Hin. apply (Hni _ Hin). set_solver.
Qed.

Lemma check_log_terms current prev entries :
  check_log current prev entries = Ret tt -> Forall (fun e => (term e <= current)%N) entries.
Proof.
  revert prev. induction entries as [|e es IH]; intros prev; simpl; [by constructor|].
  destruct (_ || _)%N eqn:Hb; [done|]. intros Hr. apply orb_false_iff in Hb as [Hb _].
  apply orb_false_iff in Hb as [_ Hb%N.ltb_ge]. constructor; [done|]. by eapply IH.
Qed.

(** The checks of the constructor throw or pass: nothing else. *)
Definition checks {A} (o : outcome A) : Prop :=
  match o with Ret _ => True | Fail f => f <> Crash | Undefined => False end.

Lemma insert_members_checks ms ps : checks (insert_members ms ps).
Proof.
  revert ms. induction ps as [|p ps IH]; intros ms; simpl; [done|]. by destruct (decide _).
Qed.

Lemma validate_config_checks c : checks (validate_config c).
Proof.
  unfold validate_config. destruct (_ || _)%Z; [done|].
  pose proof (insert_members_checks {[node_id c]} (peers c)) as H.
  by destruct (insert_members _ _).
Qed.

Lemma check_log_checks current prev entries : checks (check_log current prev entries).
Proof.
  revert prev. induction entries as [|e es IH]; intros prev; simpl; [done|]. by destruct (_ || _)%N.
Qed.

Lemma make_node_cases config st :
  config_typed config -> storage_inv st ->
  match make_node config (Some st) with
  | Ret n => node_inv n /\ persisted n /\ config_ n = config /\ storage_ n = st /\
             state_ n = follower /\ commit_index_ n = 0%N /\ outbox_ n = [] /\
             committed_entries_ n = []
  | Fail f => f <> Crash
  | Undefined => False
  end.
Proof.
  intros Htyped Hst. unfold make_node.
  pose proof (validate_config_checks config) as Hvc.
  destruct (validate_config config) as [[]|f|] eqn:Hv; simpl; [|done|done].
  pose proof (validate_config_ok _ Htyped Hv) as Hcfg.
  rewrite storage_load_spec by done. simpl.
  pose proof (durable_wf st (storage_inv_medium st Hst)) as (Hterm & Hvote & Hlogwf).
  destruct (negb _); [done|].
  pose proof (check_log_checks (ps_current_term (durable st)) 0 (ps_log (durable st))) as Hcc.
  destruct (check_log _ _ _) as [[]|f|]; simpl; [|done|done].
  destruct (_ <? _)%N eqn:Hlen; [done|]. apply N.ltb_ge in Hlen.
  pose proof (cfg_max _ Hcfg). pose proof (cfg_heartbeat _ Hcfg). pose proof (cfg_min _ Hcfg).
  apply wp_exec, wp_reset; node_simpl; [done|]. intros t r Ht. node_simpl.
  split; [|split; [|by repeat split]].
  - constructor; simpl; auto; try lia; try done. eexists. by split.
  - unfold persisted. simpl. by destruct (durable st).
Qed.

(** ** Calls from outside *)

(** A call of a public mutating method by the runtime or the RPC server. *)
Inductive Call :=
| Tick (elapsed : Z)
| Step (m : Message)
| HandleRequest (m : Message)
| Propose (cmd : bytes)
| TakeMessages
| TakeCommittedEntries.

Definition run_call (c : Call) : M Node unit :=
  match c with
  | Tick elapsed => tick elapsed
  | Step m => _ ← step m; mret tt
  | HandleRequest m => _ ← handle_request m; mret tt
  | Propose cmd => _ ← propose cmd; mret tt
  | TakeMessages => _ ← take_messages; mret tt
  | TakeCommittedEntries => _ ← take_committed_entries; mret tt
  end.

(** The term of a message is a 64-bit value. *)
Definition call_typed (c : Call) : Prop :=
  match c with
  | Step m | HandleRequest m => is_u64 (message_term m)
  | _ => True
  end.

(** Calls one after the other; the callers catch exceptions and go on, a crash
    ends the run.  [None] is undefined behaviour. *)
Fixpoint run_calls (cs : list Call) n : option Node :=
  match cs with
  | [] => Some n
  | c :: cs =>
    match run_call c n with
    | (n', Ret _) | (n', Fail (Exn _)) => run_calls cs n'
    | (n', Fail Crash) => Some n'
    | (_, Undefined) => None
    end
  end.

Lemma ok_call n c :
  node_inv n -> call_typed c ->
  wp (run_call c) n
    (fun _ n' => node_inv n' /\ ((current_term_ n < u64_max)%N -> ok n n')) failed.
Proof.
  intros Hn Hc.
  assert (forall n', ok n n' -> node_inv n' /\ ((current_term_ n < u64_max)%N -> ok n n')) as Hboth
    by (intros n' H'; split; [apply H'|done]).
  destruct c; simpl in Hc; unfold run_call, step.
  - by apply ok_tick.
  - wp_steps. eapply wp_mono; [by apply ok_step| |done].
    intros b n' (Hok & _). wp_steps. by apply Hboth.
  - wp_steps. eapply wp_mono; [by apply ok_handle_request| |done].
    intros b n' (Hok & _). wp_steps. by apply Hboth.
  - wp_steps. eapply wp_mono; [by apply ok_propose| |done].
    intros b n' (Hok & _). wp_steps. by apply Hboth.
  - unfold take_messages. wp_steps. apply Hboth, ok_outbox. by apply ok_refl.
  - unfold take_committed_entries. wp_steps. apply Hboth, ok_frame; try done.
    destruct Hn; by constructor.
Qed.

Lemma run_calls_inv cs n :
  node_inv n -> Forall call_typed cs -> is_Some (run_calls cs n).
Proof.
  intros Hn Hcs. revert n Hn. induction Hcs as [|c cs Hc Hcs IH]; intros n Hn; simpl; [eauto|].
  pose proof (ok_call n c Hn Hc) as H. unfold wp in H.
  destruct (run_call c n) as [n' [a|[e|]|]]; [| |eauto|done].
  - apply IH, (proj1 H).
  - apply IH, H. done.
Qed.
End public.
