(* ===== verification/RuntimeConfig.v ===== *)
(** * Configuration from the environment

    Models the parsing half of [src/src/node/node_runtime.cpp] and
    [src/src/node/node_runtime.h]: [parse_integer] over [std::from_chars],
    [parse_peers], [NodeRuntimeConfig::from_environment] and [raft_config]. *)

From Stdlib Require Import NArith ZArith Lia Strings.Byte Strings.String.
From stdpp Require Import base tactics numbers list gmap sorting strings.
From S2P Require Import Prelude RaftTypes RaftNode RaftBehaviour RaftInvariant.

(** ** Integers in decimal *)

Definition digit_value (b : byte) : option N :=
  let x := Byte.to_N b in
  if ((48 <=? x) && (x <=? 57))%N then Some (x - 48)%N else None.

(** The longest run of digits, with its value and what follows. *)
Fixpoint scan_digits (s : bytes) (value : N) : N * bytes :=
  match s with
  | [] => (value, [])
  | b :: s' => match digit_value b with
               | Some d => scan_digits s' (10 * value + d)%N
               | None => (value, s)
               end
  end.

(** [std::from_chars] on an unsigned 64-bit integer: the value and the rest, or
    an error (no digits, or out of range).  Neither sign is accepted. *)
Definition from_chars_u64 (s : bytes) : option (N * bytes) :=
  match s with
  | b :: _ => match digit_value b with
              | Some _ => let '(v, rest) := scan_digits s 0 in
                          if (v <? u64_modulus)%N then Some (v, rest) else None
              | None => None
              end
  | [] => None
  end.

(** On a signed 64-bit integer: a minus sign may precede the digits. *)
Definition from_chars_i64 (s : bytes) : option (Z * bytes) :=
  let negative := match s with b :: _ => bool_decide (b = Byte.x2d) | [] => false end in
  let digits := if negative then tail s else s in
  match digits with
  | b :: _ => match digit_value b with
              | Some _ => let '(v, rest) := scan_digits digits 0 in
                          let z := if negative then (- Z.of_N v)%Z else Z.of_N v in
                          if i64_ok z then Some (z, rest) else None
              | None => None
              end
  | [] => None
  end.

(** [parse_integer]: the whole text must be consumed. *)
Definition parse_integer {A} (from_chars : bytes -> option (A * bytes)) (value : bytes)
    (name : string) : outcome A :=
  match from_chars value with
  | Some (result, []) => Ret result
  | _ => Fail (Exn (InvalidArgument ("invalid integer for " ++ name)))
  end.

(** ** The environment *)

Definition Env := string -> option bytes.

Definition require_environment (env : Env) (name : string) : outcome bytes :=
  match env name with
  | None | Some [] => Fail (Exn (InvalidArgument ("missing environment variable: " ++ name)))
  | Some value => Ret value
  end.

Definition environment_duration (env : Env) (name : string) (fallback : Z) : outcome Z :=
  match env name with
  | None => Ret fallback
  | Some value => parse_integer from_chars_i64 value name
  end.

(** ** Peers *)

(** [find] from the start of a text: what precedes the first [c] and what
    follows it. *)
Fixpoint split_at (c : byte) (s : bytes) : option (bytes * bytes) :=
  match s with
  | [] => None
  | b :: s' => if decide (b = c) then Some ([], s')
               else match split_at c s' with
                    | Some (before, after) => Some (b :: before, after)
                    | None => None
                    end
  end.

Definition comma : byte := Byte.x2c.
Definition equals : byte := Byte.x3d.

(** One [id=host:port] item. *)
Definition parse_peer (item : bytes) (local_id : NodeId) (peers : gmap NodeId bytes)
    : outcome (gmap NodeId bytes) :=
  match split_at equals item with
  | None | Some ([], _) | Some (_, []) =>
      Fail (Exn (InvalidArgument "FTKV_PEERS must use id=host:port entries"))
  | Some (id, endpoint) =>
    peer_id ← parse_integer from_chars_u64 id "FTKV_PEERS";
    if bool_decide (peer_id = local_id) || bool_decide (is_Some (peers !! peer_id))
    then Fail (Exn (InvalidArgument "FTKV_PEERS contains a duplicate or local node ID"))
    else Ret (<[peer_id := endpoint]> peers)
  end.

(** The [while] loop; [rest] is the text from [offset] on, which every round
    shortens, so [length rest] is fuel enough. *)
Fixpoint parse_items (fuel : nat) (rest : bytes) (local_id : NodeId) (peers : gmap NodeId bytes)
    : outcome (gmap NodeId bytes) :=
  match rest, fuel with
  | [], _ => Ret peers
  | _, O => Undefined
  | _, S fuel =>
    match split_at comma rest with
    | None => parse_peer rest local_id peers
    | Some (item, rest') =>
      peers' ← parse_peer item local_id peers; parse_items fuel rest' local_id peers'
    end
  end.

Definition parse_peers (value : bytes) (local_id : NodeId) : outcome (gmap NodeId bytes) :=
  peers ← parse_items (List.length value) value local_id ∅;
  if decide (peers = ∅)
  then Fail (Exn (InvalidArgument "FTKV_PEERS must contain at least one peer"))
  else Ret peers.

(** ** [NodeRuntimeConfig] *)

Record NodeRuntimeConfig := mkRuntimeConfig {
  rc_node_id : NodeId;
  rc_listen_address : bytes;
  rc_data_directory : bytes;
  rc_peers : gmap NodeId bytes;
  rc_election_timeout_min : Z;
  rc_election_timeout_max : Z;
  rc_heartbeat_interval : Z
}.

Definition from_environment (env : Env) : outcome NodeRuntimeConfig :=
  id ← require_environment env "FTKV_NODE_ID";
  node_id ← parse_integer from_chars_u64 id "FTKV_NODE_ID";
  listen_address ← require_environment env "FTKV_LISTEN_ADDRESS";
  data_directory ← require_environment env "FTKV_DATA_DIR";
  peer_text ← require_environment env "FTKV_PEERS";
  peers ← parse_peers peer_text node_id;
  timeout_min ← environment_duration env "FTKV_ELECTION_TIMEOUT_MIN_MS" 300;
  timeout_max ← environment_duration env "FTKV_ELECTION_TIMEOUT_MAX_MS" 500;
  heartbeat ← environment_duration env "FTKV_HEARTBEAT_INTERVAL_MS" 100;
  Ret (mkRuntimeConfig node_id listen_address data_directory peers timeout_min timeout_max heartbeat).

(** [std::map] is traversed in the order of its keys. *)
Definition peer_ids (peers : gmap NodeId bytes) : list NodeId := merge_sort N.le (map_to_list peers).*1.

Definition raft_config (config : NodeRuntimeConfig) : RaftConfig :=
  mkConfig (rc_node_id config) (peer_ids (rc_peers config)) (rc_election_timeout_min config)
    (rc_election_timeout_max config) (rc_heartbeat_interval config)
    (N.lxor (random_seed default_config) (rc_node_id config)).

(** ** Correctness *)

(** The value of a decimal numeral. *)
Definition decimal (digits : list N) : N := foldl (fun v d => 10 * v + d)%N 0%N digits.

Lemma scan_digits_spec s v r rest :
  scan_digits s v = (r, rest) ->
  exists ds, mapM digit_value (take (List.length ds) s) = Some ds /\ s = take (List.length ds) s ++ rest /\
    r = foldl (fun v d => 10 * v + d)%N v ds.
Proof.
  revert v. induction s as [|b s IH]; intros v; simpl.
  - intros [= <- <-]. by exists [].
  - destruct (digit_value b) as [d|] eqn:Hd.
    + intros (ds & Hm & Hs & Hr)%IH. exists (d :: ds). simpl. rewrite Hd. simpl. rewrite Hm. simpl.
      split; [done|]. split; [by rewrite <- Hs|done].
    + intros [= <- <-]. by exists [].
Qed.

Lemma scan_digits_all s v ds :
  mapM digit_value s = Some ds -> scan_digits s v = (foldl (fun v d => 10 * v + d)%N v ds, []).
Proof.
  revert v ds. induction s as [|b s IH]; intros v ds; simpl.
  - by intros [= <-].
  - destruct (digit_value b) as [d|]; [|done]. simpl.
    destruct (mapM digit_value s) as [ds'|] eqn:Hm; [|done]. simpl. intros [= <-]. simpl. by apply IH.
Qed.

(** [parse_integer<NodeId>] accepts exactly the non-empty strings of decimal digits
    whose value fits 64 bits. *)
Lemma parse_u64_exact s name n :
  parse_integer from_chars_u64 s name = Ret n <->
  s <> [] /\ is_u64 n /\ exists ds, mapM digit_value s = Some ds /\ n = decimal ds.
Proof.
  unfold parse_integer, from_chars_u64. destruct s as [|b s]; [naive_solver|].
  destruct (digit_value b) as [d|] eqn:Hd.
  2:{ split; [done|]. intros (_ & _ & ds & Hm & _). simpl in Hm. by rewrite Hd in Hm. }
  destruct (scan_digits (b :: s) 0) as [v rest] eqn:Hs. split.
  - destruct (N.ltb_spec v u64_modulus) as [Hlt|]; [|done]. destruct rest as [|x rest]; [|done].
    intros [= <-]. split; [done|]. split; [done|].
    apply scan_digits_spec in Hs as (ds & Hm & Heq & ->). rewrite app_nil_r in Heq. rewrite <- Heq in Hm.
    by exists ds.
  - intros (_ & Hu & ds & Hm & ->). rewrite (scan_digits_all _ _ _ Hm) in Hs. injection Hs as <- <-.
    unfold is_u64, decimal in Hu. destruct (N.ltb_spec (foldl (fun v d => 10 * v + d)%N 0%N ds) u64_modulus); [done|lia].
Qed.

Lemma parse_i64_range s name z : parse_integer from_chars_i64 s name = Ret z -> is_i64 z.
Proof.
  unfold parse_integer, from_chars_i64. set (neg := match s with [] => _ | _ => _ end).
  destruct (if neg then tail s else s) as [|b digits]; [done|].
  destruct (digit_value b); [|done]. destruct (scan_digits _ _) as [v rest].
  destruct (i64_ok (if neg then (- Z.of_N v)%Z else Z.of_N v)) eqn:Hok; [|done].
  destruct rest; [|done]. intros [= <-]. by apply i64_ok_spec.
Qed.

Lemma split_at_length c s before after :
  split_at c s = Some (before, after) -> List.length after < List.length s.
Proof.
  revert before. induction s as [|b s IH]; intros before; simpl; [done|].
  destruct (decide (b = c)); [intros [= <- <-]; lia|].
  destruct (split_at c s) as [[x y]|] eqn:Hs; [|done]. intros [= <- <-]. specialize (IH x eq_refl). lia.
Qed.

(** What the loop keeps about the peers found so far. *)
Definition peers_ok (local_id : NodeId) (peers : gmap NodeId bytes) : Prop :=
  peers !! local_id = None /\ forall p e, peers !! p = Some e -> is_u64 p /\ e <> [].

Definition checked {A} (o : outcome A) (Q : A -> Prop) : Prop :=
  match o with Ret a => Q a | Fail f => f <> Crash | Undefined => False end.

Lemma parse_integer_checked {A} (fc : bytes -> option (A * bytes)) s name :
  checked (parse_integer fc s name) (fun _ => True).
Proof. unfold parse_integer. destruct (fc s) as [[r [|b rest]]|]; done. Qed.

Lemma parse_peer_checked item local_id peers :
  peers_ok local_id peers -> checked (parse_peer item local_id peers) (peers_ok local_id).
Proof.
  intros [Hloc Hp]. unfold parse_peer. destruct (split_at equals item) as [[[|b id] [|e endpoint]]|]; try done.
  pose proof (parse_integer_checked from_chars_u64 (b :: id) "FTKV_PEERS") as Hc.
  destruct (parse_integer from_chars_u64 (b :: id) "FTKV_PEERS") as [n|f|] eqn:Hn; simpl; [|done|done].
  apply parse_u64_exact in Hn as (_ & Hu & _).
  destruct (bool_decide (n = local_id) || _) eqn:Hb; [done|]. simpl.
  apply orb_false_iff in Hb as [Hne%bool_decide_eq_false Hnone%bool_decide_eq_false].
  split; [by rewrite lookup_insert_ne|]. intros p e0 [[<- <-]|[_ Hpe]]%lookup_insert_Some; [done|by eapply Hp].
Qed.

Lemma parse_items_checked fuel rest local_id peers :
  List.length rest <= fuel -> peers_ok local_id peers ->
  checked (parse_items fuel rest local_id peers) (peers_ok local_id).
Proof.
  revert rest peers. induction fuel as [|fuel IH]; intros [|b rest] peers Hlen Hok; simpl in *; try done; [lia|].
  destruct (decide (b = comma)) as [->|Hb].
  - pose proof (parse_peer_checked [] local_id peers Hok) as Hp.
    destruct (parse_peer [] local_id peers) as [peers'|f|]; simpl; [|done|done].
    apply IH; [lia|done].
  - destruct (split_at comma rest) as [[before after]|] eqn:Hs; [|by apply parse_peer_checked].
    apply split_at_length in Hs.
    pose proof (parse_peer_checked (b :: before) local_id peers Hok) as Hp.
    destruct (parse_peer (b :: before) local_id peers) as [peers'|f|]; simpl; [|done|done].
    apply IH; [lia|done].
Qed.

Lemma parse_peers_checked value local_id :
  checked (parse_peers value local_id) (fun peers => peers_ok local_id peers /\ peers <> ∅).
Proof.
  unfold parse_peers. pose proof (parse_items_checked (List.length value) value local_id ∅) as H.
  destruct (parse_items _ _ _ _) as [peers|f|]; simpl in *.
  - destruct (decide (peers = ∅)); [done|]. split; [apply H|done]; [done|]. by split.
  - apply H; [done|]. by split.
  - apply H; [done|]. by split.
Qed.

Lemma peer_ids_perm peers : peer_ids peers ≡ₚ (map_to_list peers).*1.
Proof. apply merge_sort_Permutation. Qed.

Lemma peer_ids_elem peers p : p ∈ peer_ids peers <-> is_Some (peers !! p).
Proof.
  rewrite peer_ids_perm, list_elem_of_fmap. split.
  - intros ([q e] & -> & Hq%elem_of_map_to_list). by eexists.
  - intros [e He]. exists (p, e). split; [done|]. by apply elem_of_map_to_list.
Qed.

Lemma peer_ids_nodup peers : NoDup (peer_ids peers).
Proof. rewrite peer_ids_perm. apply NoDup_fst_map_to_list. Qed.

Lemma insert_members_unique ms ps :
  NoDup ps -> (forall p, p ∈ ps -> p ∉ ms) -> exists r, insert_members ms ps = Ret r.
Proof.
  revert ms. induction ps as [|p ps IH]; intros ms Hnd Hni; simpl; [by eexists|].
  apply NoDup_cons in Hnd as [Hp Hnd]. rewrite decide_False by (apply Hni; set_solver).
  apply IH; [done|]. intros q Hq. specialize (Hni q). set_solver.
Qed.

(** The timing half of [validate_config]. *)
Definition timing_ok (config : NodeRuntimeConfig) : Prop :=
  (0 < rc_heartbeat_interval config < rc_election_timeout_min config)%Z /\
  (rc_election_timeout_min config <= rc_election_timeout_max config)%Z.

Lemma duration_checked env name fallback :
  is_i64 fallback -> checked (environment_duration env name fallback) is_i64.
Proof.
  intros Hf. unfold environment_duration. destruct (env name) as [v|]; [|done].
  pose proof (parse_integer_checked from_chars_i64 v name) as Hc.
  destruct (parse_integer from_chars_i64 v name) eqn:Hp; [|done|done]. by apply parse_i64_range in Hp.
Qed.

Lemma require_checked env name : checked (require_environment env name) (fun v => v <> []).
Proof. unfold require_environment. destruct (env name) as [[|b v]|]; done. Qed.

(** Sequencing of checked computations. *)
Lemma checked_bind {A B} (m : outcome A) (f : A -> outcome B) (Q : A -> Prop) (R : B -> Prop) :
  checked m Q -> (forall a, m = Ret a -> Q a -> checked (f a) R) -> checked (m ≫= f) R.
Proof. intros Hm Hf. destruct m as [a|x|]; simpl in *; [by apply Hf|done|done]. Qed.

(** What a configuration from the environment satisfies. *)
Definition runtime_ok (config : NodeRuntimeConfig) : Prop :=
  is_u64 (rc_node_id config) /\ rc_listen_address config <> [] /\ rc_data_directory config <> [] /\
  peers_ok (rc_node_id config) (rc_peers config) /\ rc_peers config <> ∅ /\
  is_i64 (rc_election_timeout_min config) /\ is_i64 (rc_election_timeout_max config) /\
  is_i64 (rc_heartbeat_interval config).

Lemma from_environment_checked env : checked (from_environment env) runtime_ok.
Proof.
  unfold from_environment. eapply checked_bind; [apply require_checked|]. intros id _ _.
  eapply checked_bind; [apply parse_integer_checked|]. intros n Hn _. apply parse_u64_exact in Hn as (_ & Hu & _).
  eapply checked_bind; [apply require_checked|]. intros la _ Hla.
  eapply checked_bind; [apply require_checked|]. intros dd _ Hdd.
  eapply checked_bind; [apply require_checked|]. intros pt _ _.
  eapply checked_bind; [apply parse_peers_checked|]. intros ps _ [Hps Hne].
  eapply checked_bind; [by apply duration_checked|]. intros tmin _ Hmin.
  eapply checked_bind; [by apply duration_checked|]. intros tmax _ Hmax.
  eapply checked_bind; [by apply duration_checked|]. intros hb _ Hhb.
  by split_and!.
Qed.

(** The Raft configuration stays in the ranges of the C++ types. *)
Lemma raft_config_typed config : runtime_ok config -> config_typed (raft_config config).
Proof.
  intros (Hid & _ & _ & [_ Hps] & _ & _ & Hmax & _). split; simpl; [apply Hmax|]. constructor; [done|].
  apply Forall_forall. intros p Hp. apply peer_ids_elem in Hp as [e He]. by apply (Hps p e).
Qed.

(** C39: configuration.  [from_environment] throws or returns, whatever the
    environment; and what it returns makes a Raft configuration in the ranges of
    the C++ types with at least one peer, distinct peers in increasing order and
    the node itself not among them, which the constructor of [RaftNode] accepts
    exactly when the timing constraints hold. *)
Theorem environment_config_valid env :
  match from_environment env with
  | Ret config =>
      config_typed (raft_config config) /\ peers (raft_config config) <> [] /\
      NoDup (node_id (raft_config config) :: peers (raft_config config)) /\
      Sorted N.le (peers (raft_config config)) /\
      (validate_config (raft_config config) = Ret tt <-> timing_ok config)
  | Fail f => f <> Crash
  | Undefined => False
  end.
Proof.
  pose proof (from_environment_checked env) as H.
  destruct (from_environment env) as [config|f|]; [|done|done].
  pose proof (raft_config_typed config H) as Hty. destruct H as (Hid & _ & _ & [Hloc Hps] & Hne & Hmin & Hmax & Hhb).
  assert (rc_node_id config ∉ peer_ids (rc_peers config)) as Hni
    by (rewrite peer_ids_elem, Hloc; by intros []).
  assert (NoDup (rc_node_id config :: peer_ids (rc_peers config))) as Hnd
    by (constructor; [done|apply peer_ids_nodup]).
  split_and!; simpl.
  - done.
  - intros Hnil. apply Hne, map_eq. intros p. rewrite lookup_empty.
    destruct (rc_peers config !! p) as [e|] eqn:He; [|done]. exfalso.
    assert (p ∈ peer_ids (rc_peers config)) as Hp by (apply peer_ids_elem; by eexists).
    rewrite Hnil in Hp. set_solver.
  - done.
  - apply Sorted_merge_sort. intros x y. lia.
  - unfold validate_config, timing_ok. simpl.
    destruct (insert_members_unique {[rc_node_id config]} (peer_ids (rc_peers config))) as [r Hr];
      [apply peer_ids_nodup|intros p Hp; set_solver|]. rewrite Hr. simpl.
    destruct (Z.leb_spec (rc_heartbeat_interval config) 0), (Z.leb_spec (rc_election_timeout_min config) 0),
      (Z.ltb_spec (rc_election_timeout_max config) (rc_election_timeout_min config)),
      (Z.leb_spec (rc_election_timeout_min config) (rc_heartbeat_interval config)); simpl;
      (split; [intros Hx; try done; lia|intros Hx; try done; lia]).
Qed.
