(* ===== verification/Grpc.v ===== *)
(** * The RPC layer

    Models [src/src/grpc/grpc_client.h], [src/src/grpc/grpc_client.cpp],
    [src/src/grpc/grpc_server.h] and [src/src/grpc/grpc_server.cpp]: the services
    over a key-value store and a Raft node, the translation of exceptions to status
    codes, the client's conversions and its retry loop, and the life cycle of the
    server.  The gRPC library is a parameter: one attempt of a call is any
    computation that yields a status and a response. *)

From Stdlib Require Import NArith ZArith Lia Strings.Byte Strings.String.
From stdpp Require Import base tactics numbers list gmap pretty strings.
From S2P Require Import Prelude KvInterface RaftTypes RaftNode.

(** ** Status *)

Inductive StatusCode :=
| OK | CANCELLED | UNKNOWN | INVALID_ARGUMENT | DEADLINE_EXCEEDED | NOT_FOUND | ALREADY_EXISTS
| PERMISSION_DENIED | RESOURCE_EXHAUSTED | FAILED_PRECONDITION | ABORTED | OUT_OF_RANGE
| UNIMPLEMENTED | INTERNAL | UNAVAILABLE | DATA_LOSS | UNAUTHENTICATED.

#[export] Instance StatusCode_eq_dec : EqDecision StatusCode.
Proof. solve_decision. Defined.

(** The numbers of [grpc::StatusCode]. *)
Definition status_number (c : StatusCode) : N :=
  match c with
  | OK => 0 | CANCELLED => 1 | UNKNOWN => 2 | INVALID_ARGUMENT => 3 | DEADLINE_EXCEEDED => 4
  | NOT_FOUND => 5 | ALREADY_EXISTS => 6 | PERMISSION_DENIED => 7 | RESOURCE_EXHAUSTED => 8
  | FAILED_PRECONDITION => 9 | ABORTED => 10 | OUT_OF_RANGE => 11 | UNIMPLEMENTED => 12
  | INTERNAL => 13 | UNAVAILABLE => 14 | DATA_LOSS => 15 | UNAUTHENTICATED => 16
  end.

Record Status := mkStatus { error_code : StatusCode; status_text : string }.

Definition status_ok (s : Status) : bool := bool_decide (error_code s = OK).

(** ** The messages of [proto/kvstore.proto] *)

Record WireEntry := mkWireEntry { we_term : N; we_command : bytes; we_is_no_op : bool }.

Record WireVoteRequest := mkWireVoteRequest {
  wvq_term : N; wvq_candidate_id : N; wvq_last_log_index : N; wvq_last_log_term : N
}.
Record WireVoteResponse := mkWireVoteResponse { wvr_term : N; wvr_vote_granted : bool }.

Record WireAppendRequest := mkWireAppendRequest {
  waq_term : N; waq_leader_id : N; waq_previous_log_index : N; waq_previous_log_term : N;
  waq_entries : list WireEntry; waq_leader_commit : N; waq_request_id : N
}.
Record WireAppendResponse := mkWireAppendResponse {
  war_term : N; war_success : bool; war_match_index : N; war_conflict_index : N;
  war_has_conflict_term : bool; war_conflict_term : N; war_request_id : N
}.

Inductive NodeRole := ROLE_UNSPECIFIED | ROLE_FOLLOWER | ROLE_CANDIDATE | ROLE_LEADER.

Record WireStatus := mkWireStatus {
  ws_node_id : N; ws_role : NodeRole; ws_current_term : N; ws_has_leader : bool; ws_leader_id : N;
  ws_commit_index : N; ws_last_applied : N; ws_last_log_index : N
}.

Record WireGetResponse := mkWireGetResponse { wg_found : bool; wg_value : bytes }.

(** ** The server *)

(** The texts of the exceptions that the standard library throws by itself; the
    language leaves [what] of those open. *)
Class LibraryTexts := {
  out_of_range_text : string;
  length_error_text : string
}.

(** One choice, for concrete runs. *)
Definition example_texts : LibraryTexts :=
  {| out_of_range_text := "map::at"; length_error_text := "vector::_M_range_insert" |}.

(** The [catch] clauses of [run_handler]. *)
Definition exn_status `{LibraryTexts} (e : exn) : Status :=
  match e with
  | InvalidArgument what => mkStatus INVALID_ARGUMENT what
  | RaftError what => mkStatus FAILED_PRECONDITION what
  | LogicError what | RuntimeError what | StorageError what | GrpcErrorExn what _ _ => mkStatus INTERNAL what
  | OutOfRange => mkStatus INTERNAL out_of_range_text
  | LengthError => mkStatus INTERNAL length_error_text
  end.

Section handler.
Context `{LT : LibraryTexts} {S R : Type}.

(** [run_handler]; the response of a call that does not end well is not used. *)
Definition run_handler (cancelled_before cancelled_after : bool) (operation : M S R)
    : M S (Status * option R) := fun s =>
  if cancelled_before then (s, Ret (mkStatus CANCELLED "request was cancelled", None))
  else
    match operation s with
    | (s', Ret r) =>
        if cancelled_after then (s', Ret (mkStatus CANCELLED "request deadline elapsed", None))
        else (s', Ret (mkStatus OK "", Some r))
    | (s', Fail (Exn e)) => (s', Ret (exn_status e, None))
    | (s', Fail Crash) => (s', Fail Crash)
    | (s', Undefined) => (s', Undefined)
    end.
End handler.

(** [KeyValueService]. *)
Section key_value_service.
Context {S : Type} `{HS : KeyValueStore S}.

Definition service_Get (key : bytes) : M S WireGetResponse :=
  value ← kv_get key;
  mret (match value with
        | Some v => mkWireGetResponse true v
        | None => mkWireGetResponse false []
        end).

Definition service_Put (key value : bytes) : M S unit := kv_put key value.

Definition service_Delete (key : bytes) : M S bool := kv_erase key.
End key_value_service.

(** [RaftService]. *)
Section raft_service.
Context {St E : Type} `{HSt : RaftStorage St} `{HE : RandomEngine E}.
Abbreviation Node := (RaftNode St E).

Definition vote_request_of_wire (q : WireVoteRequest) : RequestVoteRequest :=
  mkVoteRequest (wvq_term q) (wvq_candidate_id q) (wvq_last_log_index q) (wvq_last_log_term q).

Definition service_RequestVote (q : WireVoteRequest) : M Node WireVoteResponse :=
  n ← get;
  message ← handle_request (mkMessage (wvq_candidate_id q) (node_id (config_ n))
                              (VoteRequest (vote_request_of_wire q)));
  match message with
  | None => throw (InvalidArgument "RequestVote sender is not a cluster member")
  | Some m =>
    match rpc m with
    | VoteResponse r => mret (mkWireVoteResponse (rvr_term r) (rvr_vote_granted r))
    | _ => throw (LogicError "Raft node did not produce a RequestVote response")
    end
  end.

Definition entry_of_wire (e : WireEntry) : LogEntry := mkEntry (we_term e) (we_command e) (we_is_no_op e).

Definition append_request_of_wire (q : WireAppendRequest) : AppendEntriesRequest :=
  mkAppendRequest (waq_term q) (waq_leader_id q) (waq_previous_log_index q) (waq_previous_log_term q)
    (entry_of_wire <$> waq_entries q) (waq_leader_commit q) (waq_request_id q).

Definition wire_append_response (r : AppendEntriesResponse) : WireAppendResponse :=
  mkWireAppendResponse (aer_term r) (aer_success r) (aer_match_index r) (aer_conflict_index r)
    (bool_decide (is_Some (aer_conflict_term r))) (default 0%N (aer_conflict_term r)) (aer_request_id r).

Definition service_AppendEntries (q : WireAppendRequest) : M Node WireAppendResponse :=
  n ← get;
  message ← handle_request (mkMessage (waq_leader_id q) (node_id (config_ n))
                              (AppendRequest (append_request_of_wire q)));
  match message with
  | None => throw (InvalidArgument "AppendEntries sender is not a cluster member")
  | Some m =>
    match rpc m with
    | AppendResponse r => mret (wire_append_response r)
    | _ => throw (LogicError "Raft node did not produce an AppendEntries response")
    end
  end.

Definition role_of_state (s : NodeState) : NodeRole :=
  match s with follower => ROLE_FOLLOWER | candidate => ROLE_CANDIDATE | leader => ROLE_LEADER end.

Definition service_GetStatus : M Node WireStatus :=
  s ← gets snapshot;
  mret (mkWireStatus (ns_node_id s) (role_of_state (ns_state s)) (ns_current_term s)
          (bool_decide (is_Some (ns_leader_id s))) (default 0%N (ns_leader_id s))
          (ns_commit_index s) (ns_last_applied s) (ns_last_log_index s)).
End raft_service.

(** The life cycle of [GrpcServer]; [build] is what [BuildAndStart] gives: the
    bound port, or nothing. *)
Record GrpcServer := mkServer {
  listen_address_ : bytes;
  server_running : bool;
  bound_port_ : N
}.

(** The constructors of [KeyValueService] and [RaftService]. *)
Definition make_key_value_service (store_null : bool) : outcome unit :=
  if store_null then Fail (Exn (InvalidArgument "key-value store must not be null")) else Ret tt.

Definition make_raft_service (node_null : bool) : outcome unit :=
  if node_null then Fail (Exn (InvalidArgument "Raft node must not be null")) else Ret tt.

Definition make_server (listen_address : bytes) (store_null node_null : bool) : outcome GrpcServer :=
  _ ← make_key_value_service store_null;
  _ ← make_raft_service node_null;
  if decide (listen_address = [])
  then Fail (Exn (InvalidArgument "gRPC listen address must not be empty"))
  else Ret (mkServer listen_address false 0).

Definition server_start (build : option N) : M GrpcServer unit :=
  s ← get;
  if server_running s then throw (LogicError "gRPC server is already running")
  else
    match build with
    | Some port => modify (fun s => mkServer (listen_address_ s) true port)
    | None =>
        modify (fun s => mkServer (listen_address_ s) false 0);;
        throw (RuntimeError ("failed to start gRPC server on " ++
                             String.string_of_list_byte (listen_address_ s)))
    end.

Definition server_shutdown : M GrpcServer unit :=
  modify (fun s => mkServer (listen_address_ s) false (bound_port_ s)).

(** [rfind(':')]: the text up to and including the last colon. *)
(** The destructor. *)
Definition destroy_server : M GrpcServer unit := server_shutdown.

Definition bound_port : M GrpcServer N := gets bound_port_.

Fixpoint up_to_colon (s : bytes) : option bytes :=
  match s with
  | [] => None
  | b :: s' => match up_to_colon s' with
               | Some pre => Some (b :: pre)
               | None => if decide (b = Byte.x3a) then Some [b] else None
               end
  end.

Definition endpoint : M GrpcServer bytes :=
  s ← get;
  if (bound_port_ s =? 0)%N then throw (LogicError "gRPC server has not been started")
  else mret (match up_to_colon (listen_address_ s) with
             | None => listen_address_ s
             | Some pre => pre ++ bytes_of (pretty (bound_port_ s))
             end).

(** ** The client *)

Record GrpcClientOptions := mkOptions {
  timeout : Z;
  max_attempts : N;
  initial_backoff : Z;
  maximum_backoff : Z
}.

Definition default_options : GrpcClientOptions := mkOptions 500 3 10 100.

Definition is_retryable (c : StatusCode) : bool :=
  match c with
  | UNAVAILABLE | DEADLINE_EXCEEDED | RESOURCE_EXHAUSTED | ABORTED => true
  | _ => false
  end.

Definition validate_options (o : GrpcClientOptions) : outcome unit :=
  if ((timeout o <=? 0)%Z || (max_attempts o =? 0)%N || (initial_backoff o <? 0)%Z ||
      (maximum_backoff o <? 0)%Z || (maximum_backoff o <? initial_backoff o)%Z)
  then Fail (Exn (InvalidArgument "invalid gRPC client options"))
  else Ret tt.

(** The constructor over a channel. *)
Definition make_channel_client (channel_null : bool) (options : GrpcClientOptions)
    : outcome GrpcClientOptions :=
  _ ← validate_options options;
  if channel_null then Fail (Exn (InvalidArgument "gRPC channel must not be null")) else Ret options.

(** The constructor over a target: [make_channel], which never gives a null
    channel, then the constructor above. *)
Definition make_client (target : bytes) (options : GrpcClientOptions) : outcome GrpcClientOptions :=
  if decide (target = []) then Fail (Exn (InvalidArgument "gRPC target must not be empty"))
  else make_channel_client false options.

Definition error_text (operation : string) (status : Status) (attempts : N) : string :=
  operation +:+ " failed after " +:+ pretty attempts +:+ " attempt(s)" +:+
  (if decide (status_text status = "") then "" else ": " +:+ status_text status).

(** [throw GrpcError{operation, status, attempts}]. *)
Definition grpc_error (operation : string) (status : Status) (attempts : N) : exn :=
  GrpcErrorExn (error_text operation status attempts) (status_number (error_code status)) attempts.

(** [slept] records the pauses between the attempts. *)
Record InvocationResult (R : Type) := mkResult {
  ir_status : Status;
  ir_response : option R;
  ir_attempts : N;
  slept : list Z
}.
Arguments mkResult {R}.
Arguments ir_status {R}.
Arguments ir_response {R}.
Arguments ir_attempts {R}.
Arguments slept {R}.

Section client.
Context {T R : Type}.

Definition i64_double (z : Z) : M T Z := if i64_ok (z * 2) then mret (z * 2)%Z else undefined.

(** The [for] loop of [invoke_with_retry]; [remaining] counts the attempts left. *)
Fixpoint retry_loop (options : GrpcClientOptions) (operation : M T (Status * option R))
    (remaining : nat) (attempt : N) (backoff : Z) (pauses : list Z) : M T (InvocationResult R) :=
  match remaining with
  | O => throw (LogicError "gRPC retry loop terminated unexpectedly")
  | S remaining =>
    r ← operation;
    if status_ok r.1 || negb (is_retryable (error_code r.1)) || (attempt =? max_attempts options)%N
    then mret (mkResult r.1 r.2 attempt pauses)
    else
      doubled ← i64_double backoff;
      retry_loop options operation remaining (attempt + 1)
        (Z.min (maximum_backoff options) doubled) (pauses ++ [backoff])
  end.

Definition invoke_with_retry (options : GrpcClientOptions) (operation : M T (Status * option R))
    : M T (InvocationResult R) :=
  retry_loop options operation (N.to_nat (max_attempts options)) 1 (initial_backoff options) [].

(** The status check after every call.  A response that was cleared and not
    filled has the default values. *)
Definition call (options : GrpcClientOptions) (name : string) (cleared : R)
    (operation : M T (Status * option R)) : M T R :=
  result ← invoke_with_retry options operation;
  if status_ok (ir_status result) then mret (default cleared (ir_response result))
  else throw (grpc_error name (ir_status result) (ir_attempts result)).
End client.

Section methods.
Context {T : Type}.

Definition client_get (options : GrpcClientOptions)
    (stub_Get : bytes -> M T (Status * option WireGetResponse)) (key : bytes) : M T (option bytes) :=
  response ← call options "Get" (mkWireGetResponse false []) (stub_Get key);
  mret (if wg_found response then Some (wg_value response) else None).

Definition client_put (options : GrpcClientOptions)
    (stub_Put : bytes -> bytes -> M T (Status * option unit)) (key value : bytes) : M T unit :=
  call options "Put" tt (stub_Put key value).

Definition client_erase (options : GrpcClientOptions)
    (stub_Delete : bytes -> M T (Status * option bool)) (key : bytes) : M T bool :=
  call options "Delete" false (stub_Delete key).

Definition client_status (options : GrpcClientOptions)
    (stub_GetStatus : M T (Status * option WireStatus)) : M T NodeSnapshot :=
  result ← invoke_with_retry options stub_GetStatus;
  if status_ok (ir_status result) then
    let r := default (mkWireStatus 0 ROLE_UNSPECIFIED 0 false 0 0 0 0) (ir_response result) in
    state ← (match ws_role r with
             | ROLE_FOLLOWER => mret follower
             | ROLE_CANDIDATE => mret candidate
             | ROLE_LEADER => mret leader
             | ROLE_UNSPECIFIED =>
                 throw (grpc_error "GetStatus" (mkStatus DATA_LOSS "server returned an unknown Raft role")
                          (ir_attempts result))
             end);
    mret (mkSnapshot (ws_node_id r) state (ws_current_term r)
            (if ws_has_leader r then Some (ws_leader_id r) else None)
            (ws_commit_index r) (ws_last_applied r) (ws_last_log_index r))
  else throw (grpc_error "GetStatus" (ir_status result) (ir_attempts result)).

Definition wire_vote_request (q : RequestVoteRequest) : WireVoteRequest :=
  mkWireVoteRequest (rv_term q) (rv_candidate_id q) (rv_last_log_index q) (rv_last_log_term q).

Definition client_request_vote (options : GrpcClientOptions)
    (stub_RequestVote : WireVoteRequest -> M T (Status * option WireVoteResponse))
    (sender : NodeId) (request : RequestVoteRequest) : M T RequestVoteResponse :=
  if decide (rv_candidate_id request <> sender)
  then throw (InvalidArgument "RequestVote sender must match candidate ID")
  else
    r ← call options "RequestVote" (mkWireVoteResponse 0 false)
          (stub_RequestVote (wire_vote_request request));
    mret (mkVoteResponse (wvr_term r) (wvr_vote_granted r)).

Definition wire_entry (e : LogEntry) : WireEntry := mkWireEntry (term e) (command e) (is_no_op e).

Definition wire_append_request (q : AppendEntriesRequest) : WireAppendRequest :=
  mkWireAppendRequest (ae_term q) (ae_leader_id q) (ae_previous_log_index q) (ae_previous_log_term q)
    (wire_entry <$> ae_entries q) (ae_leader_commit q) (ae_request_id q).

Definition append_response_of_wire (r : WireAppendResponse) : AppendEntriesResponse :=
  mkAppendResponse (war_term r) (war_success r) (war_match_index r) (war_conflict_index r)
    (if war_has_conflict_term r then Some (war_conflict_term r) else None) (war_request_id r).

Definition client_append_entries (options : GrpcClientOptions)
    (stub_AppendEntries : WireAppendRequest -> M T (Status * option WireAppendResponse))
    (sender : NodeId) (request : AppendEntriesRequest) : M T AppendEntriesResponse :=
  if decide (ae_leader_id request <> sender)
  then throw (InvalidArgument "AppendEntries sender must match leader ID")
  else
    r ← call options "AppendEntries" (mkWireAppendResponse 0 false 0 0 false 0 0)
          (stub_AppendEntries (wire_append_request request));
    mret (append_response_of_wire r).
End methods.

(** ** The wire format loses nothing *)

Lemma entries_of_wire (es : list LogEntry) : entry_of_wire <$> (wire_entry <$> es) = es.
Proof. induction es as [|[t c b] es IH]; [done|]. rewrite !fmap_cons, IH. done. Qed.

Lemma append_request_wire q : append_request_of_wire (wire_append_request q) = q.
Proof. destruct q. unfold append_request_of_wire. simpl. by rewrite entries_of_wire. Qed.

Lemma append_response_wire r : append_response_of_wire (wire_append_response r) = r.
Proof. destruct r as [? ? ? ? [t|] ?]; done. Qed.

Lemma vote_request_wire q : vote_request_of_wire (wire_vote_request q) = q.
Proof. by destruct q. Qed.
