(* ===== verification/Runtime.v ===== *)
(** * The node runtime

    Models class [NodeRuntime] of [src/src/node/node_runtime.h] and
    [src/src/node/node_runtime.cpp]: the constructor, [start] and [stop], the
    ticker, the workers, the message queue with its mutex and its condition
    variable, and the server's calls into the node.  Each thread is a program
    counter; an action is one step of one thread.

    A critical section on [queue_mutex_] is one step, except that a worker which
    found nothing to do keeps the mutex between the test of the wait predicate
    and going to sleep ([WChecked]): [running_] and [notify_all] are not protected
    by the mutex.  The methods of [RaftNode] are atomic under its own mutex.  An
    exception that leaves a thread function ends the process. *)

From Stdlib Require Import NArith ZArith Lia Strings.Byte Strings.String.
From stdpp Require Import base tactics numbers list gmap relations strings.
From S2P Require Import Prelude RaftTypes RaftNode RuntimeConfig Grpc.

(** ** Threads *)

(** [worker_loop]. *)
Inductive WorkerPc :=
| WTop                     (* about to lock [queue_mutex_] *)
| WChecked                 (* holds the mutex, found nothing to do *)
| WAsleep                  (* blocked on [queue_ready_] *)
| WSending (m : Message)   (* in [send_message] *)
| WDone.

(** [ticker_loop]; [TNone]: the thread does not exist. *)
Inductive TickerPc :=
| TNone
| TLoop                          (* at the test of the [while] *)
| TSleep                         (* in [sleep_for], then the second test *)
| TTick                          (* about to call [tick] *)
| TTake                          (* about to call [take_messages] *)
| TEnqueue (ms : list Message)   (* in [enqueue_messages], before the mutex *)
| TNotify                        (* about to call [notify_all] *)
| TDone.

(** The thread that owns the runtime, in [start] or [stop]. *)
Inductive ControlPc :=
| CIdle                (* not started, or stopped *)
| CStartServer
| CSpawn (k : nat)     (* [k] workers to create *)
| CSpawnTicker
| CStarted
| CClear               (* [stop]: [running_] is false, about to clear the queue *)
| CNotify
| CCatch               (* [start]: in the [catch] block *)
| CCatchNotify
| CJoinTicker
| CJoinWorkers
| CShutdown.

#[export] Instance ControlPc_eq_dec : EqDecision ControlPc.
Proof. solve_decision. Defined.

(** The options of the peer clients. *)
Definition peer_options : GrpcClientOptions := mkOptions 150 2 10 25.

Section runtime.
Context {St E : Type} `{HSt : RaftStorage St} `{HE : RandomEngine E} `{LT : LibraryTexts}.
Abbreviation Node := (RaftNode St E).

Record NodeRuntime := mkRuntime {
  rt_config : NodeRuntimeConfig;
  raft_node_ : Node;
  server_ : GrpcServer;
  running_ : bool;
  message_queue_ : list Message;
  ticker_ : TickerPc;
  workers_ : list WorkerPc;
  control_ : ControlPc
}.
Implicit Types r : NodeRuntime.

Definition set_node (n : Node) r : NodeRuntime :=
  mkRuntime (rt_config r) n (server_ r) (running_ r) (message_queue_ r) (ticker_ r) (workers_ r) (control_ r).
Definition set_server (s : GrpcServer) r : NodeRuntime :=
  mkRuntime (rt_config r) (raft_node_ r) s (running_ r) (message_queue_ r) (ticker_ r) (workers_ r) (control_ r).
Definition set_running (b : bool) r : NodeRuntime :=
  mkRuntime (rt_config r) (raft_node_ r) (server_ r) b (message_queue_ r) (ticker_ r) (workers_ r) (control_ r).
Definition set_queue (q : list Message) r : NodeRuntime :=
  mkRuntime (rt_config r) (raft_node_ r) (server_ r) (running_ r) q (ticker_ r) (workers_ r) (control_ r).
Definition set_ticker (t : TickerPc) r : NodeRuntime :=
  mkRuntime (rt_config r) (raft_node_ r) (server_ r) (running_ r) (message_queue_ r) t (workers_ r) (control_ r).
Definition set_workers (ws : list WorkerPc) r : NodeRuntime :=
  mkRuntime (rt_config r) (raft_node_ r) (server_ r) (running_ r) (message_queue_ r) (ticker_ r) ws (control_ r).
Definition set_control (c : ControlPc) r : NodeRuntime :=
  mkRuntime (rt_config r) (raft_node_ r) (server_ r) (running_ r) (message_queue_ r) (ticker_ r) (workers_ r) c.
Definition set_worker (w : nat) (pc : WorkerPc) r : NodeRuntime := set_workers (<[w := pc]> (workers_ r)) r.

(** ** The constructor *)

(** [kv] is what opening [kv.snapshot] gives; [storage] is the opened
    [raft.snapshot]. *)
Definition make_runtime (config : NodeRuntimeConfig) (storage : St) (kv : outcome unit) : outcome NodeRuntime :=
  node ← make_node (raft_config config) (Some storage);
  _ ← kv;
  server ← make_server (rc_listen_address config) false false;
  _ ← foldr (fun endpoint rest => _ ← make_client endpoint peer_options; rest) (Ret tt)
        ((map_to_list (rc_peers config)).*2);
  Ret (mkRuntime config node server false [] TNone [] CIdle).

(** ** Steps *)

(** What is left of the process after a step. *)
Inductive Outcome := Alive (r : NodeRuntime) | Died (st : St).

(** The outcome of a step, and the messages it hands to the network.  [None]: the
    step is not possible, or its behaviour is undefined. *)
Abbreviation StepResult := (option (Outcome * list Message)).

Definition moved r : StepResult := Some (Alive r, []).

(** A call of the node from a thread of the runtime. *)
Definition on_node {A} (m : M Node A) r (k : A -> NodeRuntime -> StepResult) : StepResult :=
  match m (raft_node_ r) with
  | (n, Ret a) => k a (set_node n r)
  | (n, Fail _) => Some (Died (storage_ n), [])
  | (_, Undefined) => None
  end.

Definition is_checked (pc : WorkerPc) : bool := match pc with WChecked => true | _ => false end.

(** Nobody holds [queue_mutex_]. *)
Definition lock_free r : bool := negb (existsb is_checked (workers_ r)).

Definition wake (pc : WorkerPc) : WorkerPc := match pc with WAsleep => WTop | _ => pc end.

(** [queue_ready_.notify_all()]. *)
Definition notify_all r : NodeRuntime := set_workers (wake <$> workers_ r) r.

(** [ticker_loop] and [enqueue_messages]; [elapsed] is the time since the last
    round, which a steady clock makes non-negative. *)
Definition ticker_step (elapsed : N) r : StepResult :=
  match ticker_ r with
  | TLoop => moved (set_ticker (if running_ r then TSleep else TDone) r)
  | TSleep => moved (set_ticker (if running_ r then TTick else TDone) r)
  | TTick => on_node (tick (Z.of_N elapsed)) r (fun _ r => moved (set_ticker TTake r))
  | TTake => on_node take_messages r (fun ms r =>
      Some (Alive (set_ticker (match ms with [] => TLoop | _ => TEnqueue ms end) r), ms))
  | TEnqueue ms =>
      if lock_free r then moved (set_ticker TNotify (set_queue (message_queue_ r ++ ms) r)) else None
  | TNotify => moved (set_ticker TLoop (notify_all r))
  | TNone | TDone => None
  end.

(** [send_message] finds a client for the destination and a request to send. *)
Definition is_call r (m : Message) : bool :=
  bool_decide (is_Some (rc_peers (rt_config r) !! to m)) &&
  match rpc m with VoteRequest _ | AppendRequest _ => true | _ => false end.

(** [worker_loop], but for the answer to a call. *)
Definition worker_step (w : nat) r : StepResult :=
  match workers_ r !! w with
  | Some WTop =>
      if lock_free r then
        match message_queue_ r with
        | m :: queue => moved (set_worker w (WSending m) (set_queue queue r))
        | [] => moved (set_worker w (if running_ r then WChecked else WDone) r)
        end
      else None
  | Some WChecked => moved (set_worker w WAsleep r)
  | Some (WSending m) => if is_call r m then None else moved (set_worker w WTop r)
  | _ => None
  end.

(** The sender the client insists on. *)
Definition request_sender (x : Rpc) : option NodeId :=
  match x with
  | VoteRequest q => Some (rv_candidate_id q)
  | AppendRequest q => Some (ae_leader_id q)
  | _ => None
  end.

(** The kind of answer the client returns, with a 64-bit term. *)
Definition answer_fits (request reply : Rpc) : bool :=
  match request, reply with
  | VoteRequest _, VoteResponse a => (rvr_term a <? u64_modulus)%N
  | AppendRequest _, AppendResponse a => (aer_term a <? u64_modulus)%N
  | _, _ => false
  end.

(** The client call of [send_message] ends: with an answer, or with a
    [GrpcError] ([None]).  A sender that is not the node makes the client throw
    [std::invalid_argument], which nobody catches. *)
Definition worker_reply (w : nat) (reply : option Rpc) r : StepResult :=
  match workers_ r !! w with
  | Some (WSending m) =>
      if is_call r m then
        if decide (request_sender (rpc m) <> Some (rc_node_id (rt_config r)))
        then Some (Died (storage_ (raft_node_ r)), [])
        else
          match reply with
          | None => moved (set_worker w WTop r)
          | Some a =>
              if answer_fits (rpc m) a then
                on_node (step (mkMessage (to m) (rc_node_id (rt_config r)) a)) r
                  (fun _ r => moved (set_worker w WTop r))
              else None
          end
      else None
  | _ => None
  end.

(** A condition variable may wake a thread for no reason. *)
Definition spurious (w : nat) r : StepResult :=
  match workers_ r !! w with
  | Some WAsleep => moved (set_worker w WTop r)
  | _ => None
  end.

(** [start] on a running node throws, [stop] on a stopped one returns. *)
Definition begin_start r : StepResult :=
  match control_ r with
  | CIdle => moved (set_control CStartServer (set_running true r))
  | CStarted => moved r
  | _ => None
  end.

Definition begin_stop r : StepResult :=
  match control_ r with
  | CStarted => moved (set_control CClear (set_running false r))
  | CIdle => moved r
  | _ => None
  end.

(** The destructor. *)
Definition destroy_runtime r : StepResult := begin_stop r.

Definition finished (t : TickerPc) : bool := match t with TNone | TDone => true | _ => false end.
Definition worker_done (w : WorkerPc) : bool := match w with WDone => true | _ => false end.

(** The rest of [start] and [stop]; [build] is what [BuildAndStart] gives,
    [created] whether the thread could be created. *)
Definition control_step (build : option N) (created : bool) r : StepResult :=
  match control_ r with
  | CIdle | CStarted => None
  | CStartServer =>
      match server_start build (server_ r) with
      | (s, Ret _) => moved (set_control (CSpawn (size (rc_peers (rt_config r)))) (set_server s r))
      | (s, Fail _) => moved (set_control CCatch (set_server s r))
      | (_, Undefined) => None
      end
  | CSpawn (S k) =>
      if created then moved (set_control (CSpawn k) (set_workers (workers_ r ++ [WTop]) r))
      else moved (set_control CCatch r)
  | CSpawn O => moved (set_control CSpawnTicker r)
  | CSpawnTicker =>
      if created then moved (set_control CStarted (set_ticker TLoop r)) else moved (set_control CCatch r)
  | CClear => if lock_free r then moved (set_control CNotify (set_queue [] r)) else None
  | CNotify => moved (set_control CJoinTicker (notify_all r))
  | CCatch => moved (set_control CCatchNotify (set_running false r))
  | CCatchNotify => moved (set_control CJoinTicker (notify_all r))
  | CJoinTicker =>
      if finished (ticker_ r) then moved (set_control CJoinWorkers (set_ticker TNone r)) else None
  | CJoinWorkers =>
      if forallb worker_done (workers_ r) then moved (set_control CShutdown (set_workers [] r)) else None
  | CShutdown =>
      match server_shutdown (server_ r) with
      | (s, Ret _) => moved (set_control CIdle (set_server s r))
      | _ => None
      end
  end.

(** One call of the Raft service with the wire form of a request. *)
Definition serve_request (before after : bool) (m : Message) : M Node (Status * option Rpc) :=
  match rpc m with
  | VoteRequest q =>
      x ← run_handler before after (service_RequestVote (wire_vote_request q));
      mret (x.1, (fun w => VoteResponse (mkVoteResponse (wvr_term w) (wvr_vote_granted w))) <$> x.2)
  | AppendRequest q =>
      x ← run_handler before after (service_AppendEntries (wire_append_request q));
      mret (x.1, (fun w => AppendResponse (append_response_of_wire w)) <$> x.2)
  | _ => mret (mkStatus UNIMPLEMENTED "", None)
  end.

(** The answer goes to the sender the request names. *)
Definition serve (before after : bool) (m : Message) r : StepResult :=
  if server_running (server_ r) then
    on_node (serve_request before after m) r (fun x r =>
      Some (Alive r, match x.2, request_sender (rpc m) with
                     | Some a, Some sender => [mkMessage (rc_node_id (rt_config r)) sender a]
                     | _, _ => []
                     end))
  else None.

Inductive Action :=
| TickerStep (elapsed : N)
| WorkerStep (w : nat)
| WorkerReply (w : nat) (reply : option Rpc)
| Spurious (w : nat)
| BeginStart
| BeginStop
| ControlStep (build : option N) (created : bool)
| Serve (before after : bool) (m : Message).

Definition perform (a : Action) r : StepResult :=
  match a with
  | TickerStep elapsed => ticker_step elapsed r
  | WorkerStep w => worker_step w r
  | WorkerReply w reply => worker_reply w reply r
  | Spurious w => spurious w r
  | BeginStart => begin_start r
  | BeginStop => begin_stop r
  | ControlStep build created => control_step build created r
  | Serve before after m => serve before after m r
  end.

(** Actions one after the other, until the process dies. *)
Fixpoint perform_all (actions : list Action) r : option Outcome :=
  match actions with
  | [] => Some (Alive r)
  | a :: actions =>
    match perform a r with
    | Some (Alive r', _) => perform_all actions r'
    | Some (Died st, _) => Some (Died st)
    | None => None
    end
  end.
End runtime.

Arguments NodeRuntime St E : clear implicits.
Arguments Outcome St E : clear implicits.
