(* ===== verification/RuntimeProperties.v ===== *)
(** * Properties of the node runtime

    [stop] always completes: whatever the threads are doing when it is called,
    every schedule of their steps ends with all of them joined.  The [catch] block
    of [start] has no such guarantee. *)

From Stdlib Require Import NArith ZArith Lia Strings.Byte Strings.String.
From stdpp Require Import base tactics numbers list gmap relations strings.
From S2P Require Import Prelude RaftTypes RaftNode RaftBehaviour RaftInvariant RuntimeConfig Grpc Runtime.

(** ** Lexicographic descent *)

Definition lex3 (x y : nat * nat * nat) : Prop :=
  let '(a, b, c) := x in let '(a', b', c') := y in
  a < a' \/ (a = a' /\ (b < b' \/ (b = b' /\ c < c'))).

Lemma lex3_wf x : Acc lex3 x.
Proof.
  destruct x as [[a b] c]. revert b c. induction (lt_wf a) as [a _ IHa]. intros b.
  induction (lt_wf b) as [b _ IHb]. intros c. induction (lt_wf c) as [c _ IHc].
  constructor. intros [[a' b'] c'] [Ha|[-> [Hb|[-> Hc]]]]; [by apply IHa|by apply IHb|by apply IHc].
Qed.

Lemma sn_lex3 {A} (R : relation A) (I : A -> Prop) (f : A -> nat * nat * nat) :
  (forall x y, I x -> R x y -> I y /\ lex3 (f y) (f x)) -> forall x, I x -> sn R x.
Proof.
  intros HR x. remember (f x) as m eqn:Hm. revert x Hm. induction (lex3_wf m) as [m _ IH].
  intros x -> HI. constructor. intros y Hy. destruct (HR x y HI Hy) as [HIy Hlt]. by eapply IH.
Qed.

(** ** Requests from peers *)
Section serving.
Context {St E : Type} `{HSt : RaftStorage St} `{HSpec : !RaftStorageSpec St} `{HE : RandomEngine E} `{LT : LibraryTexts}.
Abbreviation Node := (RaftNode St E).
Implicit Types n : Node.

(** What serving a request does, from what [handle_request] does. *)
Definition handled (after : bool) (m : Message) (sender : NodeId) n : Prop :=
  match handle_request (mkMessage sender (node_id (config_ n)) (rpc m)) n with
  | (n', Ret (Some a)) => exists st,
      serve_request false after m n = (n', Ret (st, if after then None else Some (rpc a)))
  | (n', Ret None) => n' = n /\ exists st, serve_request false after m n = (n, Ret (st, None))
  | (n', Fail (Exn e)) => exists st, serve_request false after m n = (n', Ret (st, None))
  | (n', Fail Crash) => serve_request false after m n = (n', Fail Crash)
  | (_, Undefined) => False
  end.

Lemma serve_request_handled after m sender n :
  node_inv n -> is_u64 (message_term m) -> request_sender (rpc m) = Some sender ->
  handled after m sender n.
Proof.
  intros Hn HT Hs. pose proof (ok_handle_request n (mkMessage sender (node_id (config_ n)) (rpc m)) Hn) as H.
  assert (message_term (mkMessage sender (node_id (config_ n)) (rpc m)) = message_term m) as Ht by (by destruct m).
  rewrite Ht in H. specialize (H HT). unfold wp in H. unfold handled, serve_request.
  destruct (rpc m) as [q| |q|] eqn:Hm; try done; simpl in Hs; injection Hs as <-.
  - unfold mbind, M_bind, run_handler, service_RequestVote, mbind, M_bind. cbn [get wire_vote_request wvq_candidate_id].
    rewrite vote_request_wire.
    destruct (handle_request _ n) as [n' [[a|]|[e|]|]]; [| | by eexists|done|done].
    + destruct H as (_ & _ & Ha). unfold answers in Ha. apply andb_true_iff in Ha as [_ Ha]. simpl in Ha.
      destruct (rpc a) as [|[t g]| |]; try done. destruct after; by eexists.
    + destruct H as (_ & _ & ->). split; [done|]. by eexists.
  - unfold mbind, M_bind, run_handler, service_AppendEntries, mbind, M_bind.
    cbn [get wire_append_request waq_leader_id].
    rewrite append_request_wire.
    destruct (handle_request _ n) as [n' [[a|]|[e|]|]]; [| | by eexists|done|done].
    + destruct H as (_ & _ & Ha). unfold answers in Ha. apply andb_true_iff in Ha as [_ Ha]. simpl in Ha.
      destruct (rpc a) as [| | |[? ? ? ? [t|] ?]]; try done; destruct after; by eexists.
    + destruct H as (_ & _ & ->). split; [done|]. by eexists.
Qed.

(** A request leaves a well-formed node, or the process dies with it. *)
Lemma serve_request_inv before after m n :
  node_inv n -> is_u64 (message_term m) ->
  wp (serve_request before after m) n (fun _ n' => node_inv n') (fun f _ => f = Crash).
Proof.
  intros Hn HT. destruct before.
  - unfold wp, serve_request. destruct (rpc m); done.
  - destruct (request_sender (rpc m)) as [sender|] eqn:Hs.
    2:{ unfold wp, serve_request. by destruct (rpc m). }
    pose proof (serve_request_handled after m sender n Hn HT Hs) as Hh. unfold handled in Hh.
    pose proof (ok_handle_request n (mkMessage sender (node_id (config_ n)) (rpc m)) Hn) as H.
    assert (message_term (mkMessage sender (node_id (config_ n)) (rpc m)) = message_term m) as Ht by (by destruct m).
    rewrite Ht in H. specialize (H HT). unfold wp in *.
    destruct (handle_request _ n) as [n' [[a|]|[e|]|]]; [| | | |done].
    + destruct Hh as [st ->]. apply H.
    + by destruct Hh as [-> [st ->]].
    + destruct Hh as [st ->]. by apply H.
    + by rewrite Hh.
Qed.
End serving.

(** ** [stop] *)
Section stopping.
Context {St E : Type} `{HSt : RaftStorage St} `{HSpec : !RaftStorageSpec St} `{HE : RandomEngine E} `{LT : LibraryTexts}.
Implicit Types r : NodeRuntime St E.

(** A step of a thread of the runtime, as opposed to a call from outside. *)
Definition thread_action (a : Action) : bool :=
  match a with BeginStart | BeginStop | Serve _ _ _ => false | _ => true end.

(** A request of a peer is handled by the server; its fields are 64-bit values. *)
Definition serve_step r r' : Prop := exists before after m ms,
  is_u64 (message_term m) /\ perform (Serve before after m) r = Some (Alive r', ms).

(** A step of a thread, after any number of requests. *)
Definition stop_step r r' : Prop := exists r0 a ms,
  rtc serve_step r r0 /\ thread_action a = true /\ perform a r0 = Some (Alive r', ms).

(** *** What holds while [stop] runs *)

Definition blocked (pc : WorkerPc) : bool := match pc with WChecked | WAsleep => true | _ => false end.

Record stop_inv r : Prop := {
  si_running : running_ r = false;
  si_node : node_inv (raft_node_ r);
  si_phase :
    match control_ r with
    | CClear => True
    | CNotify => lock_free r = true
    | CJoinTicker => existsb blocked (workers_ r) = false
    | CJoinWorkers => existsb blocked (workers_ r) = false /\ ticker_ r = TNone
    | CShutdown => workers_ r = [] /\ ticker_ r = TNone
    | CIdle => workers_ r = [] /\ ticker_ r = TNone /\ server_running (server_ r) = false
    | _ => False
    end
}.

(** *** What decreases *)

Definition ticker_rank (t : TickerPc) : nat :=
  match t with
  | TNone | TDone => 0 | TLoop | TSleep => 1 | TNotify => 2 | TEnqueue _ => 3 | TTake => 4 | TTick => 5
  end.

Definition worker_rank (w : WorkerPc) : nat :=
  match w with WDone => 0 | WTop => 1 | WAsleep | WSending _ => 2 | WChecked => 3 end.

Definition control_rank (c : ControlPc) : nat :=
  match c with
  | CClear => 5 | CNotify => 4 | CJoinTicker => 3 | CJoinWorkers => 2 | CShutdown => 1 | _ => 0
  end.

Fixpoint workers_rank (ws : list WorkerPc) : nat :=
  match ws with [] => 0 | w :: ws => worker_rank w + workers_rank ws end.

Definition stop_rank r : nat * nat * nat :=
  (ticker_rank (ticker_ r), length (message_queue_ r), workers_rank (workers_ r) + control_rank (control_ r)).

Lemma workers_rank_insert ws w pc pc' :
  ws !! w = Some pc -> workers_rank (<[w := pc']> ws) + worker_rank pc = workers_rank ws + worker_rank pc'.
Proof.
  revert w. induction ws as [|x ws IH]; intros [|w]; simpl; try done.
  - intros [= ->]. lia.
  - intros H%IH. lia.
Qed.

Lemma workers_rank_wake ws : workers_rank (wake <$> ws) <= workers_rank ws.
Proof. induction ws as [|x ws IH]; [done|]. rewrite fmap_cons. destruct x; cbn; lia. Qed.

Lemma wake_not_checked ws : existsb is_checked (wake <$> ws) = existsb is_checked ws.
Proof. induction ws as [|x ws IH]; [done|]. rewrite fmap_cons. by destruct x; cbn; rewrite ?IH. Qed.

Lemma wake_not_blocked ws : existsb is_checked ws = false -> existsb blocked (wake <$> ws) = false.
Proof. induction ws as [|x ws IH]; [done|]. rewrite fmap_cons. by destruct x. Qed.

Lemma blocked_checked ws : existsb blocked ws = false -> existsb is_checked ws = false.
Proof. induction ws as [|[] ws IH]; simpl; done. Qed.

(** A worker that gets no more to wait for stays awake. *)
Lemma existsb_insert (P : WorkerPc -> bool) ws w pc :
  existsb P ws = false -> P pc = false -> existsb P (<[w := pc]> ws) = false.
Proof.
  intros Hws Hpc. revert w. induction ws as [|x ws IH]; intros [|w]; simpl in *; try done.
  - apply orb_false_iff in Hws as [_ ->]. by rewrite Hpc.
  - apply orb_false_iff in Hws as [-> Hws]. by apply IH.
Qed.

Lemma existsb_lookup (P : WorkerPc -> bool) ws w pc :
  existsb P ws = false -> ws !! w = Some pc -> P pc = false.
Proof.
  intros Hws. revert w. induction ws as [|x ws IH]; intros [|w]; simpl in *; try done;
    apply orb_false_iff in Hws as [Hx Hws]; [by intros [= <-]|by apply IH].
Qed.

(** *** Every step keeps the invariant and descends *)

Definition descends r r' : Prop := stop_inv r' /\ lex3 (stop_rank r') (stop_rank r).

Lemma inv_node r n : stop_inv r -> node_inv n -> stop_inv (set_node n r).
Proof. by intros [] Hn; split. Qed.

Lemma inv_queue r q : stop_inv r -> stop_inv (set_queue q r).
Proof. by intros []; split. Qed.

Lemma inv_ticker r t : stop_inv r -> ticker_ r <> TNone -> stop_inv (set_ticker t r).
Proof. intros [Hr Hn Hp] Ht. split; [done|done|]. simpl in *. destruct (control_ r); naive_solver. Qed.

Lemma inv_worker r w pc pc' :
  stop_inv r -> workers_ r !! w = Some pc -> is_checked pc' = false ->
  (blocked pc' = true -> blocked pc = true) -> stop_inv (set_worker w pc' r).
Proof.
  intros [Hr Hn Hp] Hw Hc Hb. split; [done|done|]. unfold lock_free in *. simpl in *.
  assert (existsb blocked (workers_ r) = false -> existsb blocked (<[w:=pc']> (workers_ r)) = false) as Hkeep.
  { intros Hx. apply existsb_insert; [done|]. pose proof (existsb_lookup _ _ _ _ Hx Hw).
    destruct (blocked pc'); [|done]. rewrite Hb in *; done. }
  assert (workers_ r <> []) as Hne by (by intros Hnil; rewrite Hnil in Hw).
  destruct (control_ r); try done.
  - by destruct Hne, Hp.
  - apply negb_true_iff in Hp. by rewrite existsb_insert.
  - by apply Hkeep.
  - destruct Hp as [Hp Ht]. split; [by apply Hkeep|done].
  - by destruct Hne, Hp.
Qed.

Lemma inv_notify r : stop_inv r -> stop_inv (notify_all r).
Proof.
  intros [Hr Hn Hp]. split; [done|done|]. unfold lock_free in *. simpl in *. rewrite wake_not_checked.
  destruct (control_ r); try done.
  - by destruct Hp as [-> ?].
  - by apply wake_not_blocked, blocked_checked.
  - destruct Hp as [Hp Ht]. split; [|done]. by apply wake_not_blocked, blocked_checked.
  - by destruct Hp as [-> ?].
Qed.

Lemma worker_descends r w pc pc' :
  stop_inv r -> workers_ r !! w = Some pc -> is_checked pc' = false ->
  (blocked pc' = true -> blocked pc = true) -> worker_rank pc' < worker_rank pc ->
  descends r (set_worker w pc' r).
Proof.
  intros Hr Hw Hc Hb Hlt. split; [by eapply inv_worker|]. simpl.
  pose proof (workers_rank_insert _ w pc pc' Hw). right. split; [done|]. right. split; [done|]. lia.
Qed.

Lemma ticker_descends r elapsed r' ms :
  stop_inv r -> ticker_step elapsed r = Some (Alive r', ms) -> descends r r'.
Proof.
  intros Hr. pose proof (si_running r Hr) as Hrun. pose proof (si_node r Hr) as Hn.
  unfold ticker_step, on_node, moved.
  destruct (ticker_ r) as [| | | | |ms'| |] eqn:Ht; try done; rewrite ?Hrun.
  - intros [= <- <-]. split; [by apply inv_ticker; [|rewrite Ht]|]. simpl. rewrite Ht. simpl. lia.
  - intros [= <- <-]. split; [by apply inv_ticker; [|rewrite Ht]|]. simpl. rewrite Ht. simpl. lia.
  - pose proof (ok_tick (raft_node_ r) (Z.of_N elapsed) Hn) as Hok. unfold wp in Hok.
    destruct (tick _ _) as [n [[]|f|]]; [|done|done]. intros [= <- <-]. destruct Hok as [Hn' _].
    split; [apply inv_ticker; [by apply inv_node|simpl; by rewrite Ht]|]. simpl. rewrite Ht. simpl. lia.
  - pose proof (ok_call (raft_node_ r) TakeMessages Hn I) as Hok. unfold wp, run_call, mbind, M_bind in Hok.
    destruct (take_messages _) as [n [xs|f|]]; [|done|done]. intros [= <- <-]. destruct Hok as [Hn' _].
    split; [apply inv_ticker; [by apply inv_node|simpl; by rewrite Ht]|]. simpl. rewrite Ht.
    destruct xs; simpl; lia.
  - destruct (lock_free r); [|done]. intros [= <- <-].
    split; [apply inv_ticker; [by apply inv_queue|simpl; by rewrite Ht]|]. simpl. rewrite Ht. simpl. lia.
  - intros [= <- <-]. split; [apply inv_ticker; [by apply inv_notify|simpl; by rewrite Ht]|].
    simpl. rewrite Ht. simpl. lia.
Qed.

Lemma worker_step_descends r w r' ms :
  stop_inv r -> worker_step w r = Some (Alive r', ms) -> descends r r'.
Proof.
  intros Hr. pose proof (si_running r Hr) as Hrun. unfold worker_step, moved.
  destruct (workers_ r !! w) as [[| | |m|]|] eqn:Hw; try done.
  - destruct (lock_free r); [|done]. destruct (message_queue_ r) as [|m q] eqn:Hq; rewrite ?Hrun.
    + intros [= <- <-]. eapply worker_descends; try done. simpl. lia.
    + intros [= <- <-]. split; [eapply (inv_worker (set_queue q r) w WTop); try done; by apply inv_queue|].
      simpl. rewrite Hq. simpl. lia.
  - intros [= <- <-]. eapply worker_descends; try done. simpl. lia.
  - destruct (is_call r m); [done|]. intros [= <- <-]. eapply worker_descends; try done. simpl. lia.
Qed.

Lemma worker_reply_descends r w reply r' ms :
  stop_inv r -> worker_reply w reply r = Some (Alive r', ms) -> descends r r'.
Proof.
  intros Hr. unfold worker_reply, on_node, moved.
  destruct (workers_ r !! w) as [[| | |m|]|] eqn:Hw; try done.
  destruct (is_call r m); [|done]. destruct (decide _) as [|_]; [done|]. destruct reply as [a|].
  - destruct (answer_fits (rpc m) a) eqn:Hfit; [|done].
    assert (is_u64 (message_term (mkMessage (to m) (rc_node_id (rt_config r)) a))) as Hu.
    { unfold answer_fits in Hfit. by destruct (rpc m), a; try done; apply N.ltb_lt in Hfit. }
    pose proof (ok_step (raft_node_ r) _ (si_node r Hr) Hu) as Hok. unfold wp in Hok. unfold step.
    destruct (step_locked _ _) as [n [b|f|]]; [|done|done]. intros [= <- <-]. destruct Hok as ([Hn' _] & _).
    eapply (worker_descends (set_node n r)); try done; [by apply inv_node|simpl; lia].
  - intros [= <- <-]. eapply worker_descends; try done. simpl. lia.
Qed.

Lemma spurious_descends r w r' ms : stop_inv r -> spurious w r = Some (Alive r', ms) -> descends r r'.
Proof.
  intros Hr. unfold spurious, moved. destruct (workers_ r !! w) as [[]|] eqn:Hw; try done.
  intros [= <- <-]. eapply worker_descends; try done. simpl. lia.
Qed.

Lemma control_descends r build created r' ms :
  stop_inv r -> control_step build created r = Some (Alive r', ms) -> descends r r'.
Proof.
  intros Hr. pose proof (inv_notify r Hr) as Hnot. destruct Hr as [Hrun Hn Hp].
  unfold control_step, moved. destruct (control_ r) eqn:Hc; try done.
  - destruct (lock_free r) eqn:Hl; [|done]. intros [= <- <-]. split; [by split|]. simpl. rewrite Hc. simpl.
    destruct (message_queue_ r); simpl; lia.
  - intros [= <- <-]. split; [split; [done|done|]; simpl|].
    + apply wake_not_blocked. by apply negb_true_iff in Hp.
    + simpl. rewrite Hc. pose proof (workers_rank_wake (workers_ r)). simpl. lia.
  - destruct (ticker_ r) eqn:Ht; try done; intros [= <- <-];
      (split; [by split|]; simpl; rewrite Hc, Ht; simpl; lia).
  - destruct (forallb worker_done (workers_ r)); [|done]. intros [= <- <-]. destruct Hp as [_ Ht].
    split; [by split|]. simpl. rewrite Hc, Ht. simpl. lia.
  - destruct Hp as [Hw Ht]. intros [= <- <-]. split; [by split|]. simpl. rewrite Hc, Ht, Hw. simpl. lia.
Qed.

Lemma thread_descends r a r' ms :
  stop_inv r -> thread_action a = true -> perform a r = Some (Alive r', ms) -> descends r r'.
Proof.
  intros Hr Ha. destruct a; try done; simpl.
  - by apply ticker_descends.
  - by apply worker_step_descends.
  - by apply worker_reply_descends.
  - by apply spurious_descends.
  - by apply control_descends.
Qed.

Lemma serve_keeps r r' : stop_inv r -> serve_step r r' -> stop_inv r' /\ stop_rank r' = stop_rank r.
Proof.
  intros Hr (before & after & m & ms & Hu & Hs). simpl in Hs. unfold serve, on_node in Hs.
  destruct (server_running (server_ r)); [|done].
  pose proof (serve_request_inv before after m (raft_node_ r) (si_node r Hr) Hu) as H. unfold wp in H.
  destruct (serve_request _ _ _ _) as [n [x|f|]]; [|done|done]. injection Hs as <- _.
  split; [by apply inv_node|done].
Qed.

(** *** Some thread can always go on *)

(** A step that the runtime does not have to be lucky to see. *)
Definition can_go_on r : Prop := exists a o ms,
  thread_action a = true /\ (forall w, a <> Spurious w) /\ perform a r = Some (o, ms).

Lemma existsb_witness (P : WorkerPc -> bool) ws : existsb P ws = true -> exists w pc, ws !! w = Some pc /\ P pc = true.
Proof.
  intros (pc & Hin & HP)%existsb_exists. apply list_elem_of_In, list_elem_of_lookup in Hin as [w Hw]. eauto.
Qed.

(** The mutex is free, or its holder is about to release it. *)
Lemma lock_released r : lock_free r = true \/ can_go_on r.
Proof.
  unfold lock_free. destruct (existsb is_checked (workers_ r)) eqn:Hx; [right|by left].
  apply existsb_witness in Hx as (w & [] & Hw & ?); try done.
  eexists (WorkerStep w), _, _. split_and!; [done|done|]. simpl. unfold worker_step. by rewrite Hw.
Qed.

Lemma ticker_goes_on r : node_inv (raft_node_ r) -> finished (ticker_ r) = false -> can_go_on r.
Proof.
  intros Hn Hf. destruct (lock_released r) as [Hl|]; [|done].
  assert (is_Some (ticker_step 0 r)) as [[o ms] Ho].
  { unfold ticker_step, on_node. destruct (ticker_ r); try done; try by eexists.
    - pose proof (ok_tick (raft_node_ r) 0 Hn) as Hok. unfold wp in Hok. simpl.
      destruct (tick _ _) as [n [[]|f|]]; [by eexists|by eexists|done].
    - rewrite Hl. by eexists. }
  by eexists (TickerStep 0), _, _.
Qed.

Lemma worker_goes_on r w pc :
  running_ r = false -> workers_ r !! w = Some pc -> blocked pc = false -> worker_done pc = false -> can_go_on r.
Proof.
  intros Hr Hw Hb Hd. destruct (lock_released r) as [Hl|]; [|done]. destruct pc as [| | |m|]; try done.
  - assert (is_Some (worker_step w r)) as [[o ms] Ho].
    { unfold worker_step. rewrite Hw, Hl. destruct (message_queue_ r); by eexists. }
    by eexists (WorkerStep w), _, _.
  - destruct (is_call r m) eqn:Hc.
    + assert (is_Some (worker_reply w None r)) as [[o ms] Ho].
      { unfold worker_reply. rewrite Hw, Hc. destruct (decide _); by eexists. }
      by eexists (WorkerReply w None), _, _.
    + eexists (WorkerStep w), _, _. split_and!; [done|done|]. simpl. unfold worker_step. by rewrite Hw, Hc.
Qed.

Lemma stop_progress r : stop_inv r -> control_ r <> CIdle -> can_go_on r.
Proof.
  intros Hr Hc. pose proof Hr as [Hrun Hn Hp].
  assert (is_Some (control_step None true r) -> can_go_on r) as Hctl.
  { intros [[o ms] Ho]. by eexists (ControlStep None true), _, _. }
  unfold control_step in Hctl. destruct (control_ r) eqn:Heq; try done.
  - destruct (lock_released r) as [Hl|]; [|done]. rewrite Hl in Hctl. apply Hctl. by eexists.
  - apply Hctl. by eexists.
  - destruct (finished (ticker_ r)) eqn:Hf; [apply Hctl; by eexists|by apply ticker_goes_on].
  - destruct Hp as [Hb _]. destruct (forallb worker_done (workers_ r)) eqn:Hall; [apply Hctl; by eexists|].
    assert (existsb (fun pc => negb (worker_done pc)) (workers_ r) = true) as (w & pc & Hw & Hd)%existsb_witness.
    { clear -Hall. induction (workers_ r) as [|x ws IH]; [done|]. simpl in *. by destruct (worker_done x); auto. }
    apply negb_true_iff in Hd. eapply worker_goes_on; try done. by eapply existsb_lookup.
  - apply Hctl. by eexists.
Qed.

Lemma stop_step_descends r r' : stop_inv r -> stop_step r r' -> stop_inv r' /\ lex3 (stop_rank r') (stop_rank r).
Proof.
  intros Hr (r0 & a & ms & Hserves & Ha & Hp).
  assert (stop_inv r0 /\ stop_rank r0 = stop_rank r) as [H0 <-].
  { revert Hr. clear Hp. induction Hserves as [r|r r1 r2 Hs _ IH]; intros Hr; [done|].
    destruct (serve_keeps r r1 Hr Hs) as [H1 H1']. rewrite <- H1'. by apply IH. }
  by eapply thread_descends.
Qed.

(** [stop] completes.  From the moment [stop] has cleared [running_],
    whatever the ticker and the workers are doing and whatever requests the server
    still handles: no schedule of the threads goes on for ever, and as long as
    [stop] has not returned some thread can take a step without relying on a
    spurious wake-up (or the process dies of an uncaught exception).  When nothing
    is left to do every thread has been joined and the server is down. *)
Lemma stop_completes r :
  control_ r = CClear -> running_ r = false -> node_inv (raft_node_ r) ->
  sn stop_step r /\
  forall r', rtc stop_step r r' ->
    can_go_on r' \/
    (control_ r' = CIdle /\ running_ r' = false /\ workers_ r' = [] /\ ticker_ r' = TNone /\
     server_running (server_ r') = false).
Proof.
  intros Hc Hrun Hn.
  assert (stop_inv r) as Hr by (split; [done|done|by rewrite Hc]). split.
  - by eapply (sn_lex3 _ stop_inv stop_rank); [apply stop_step_descends|].
  - intros r' Hsteps.
    assert (stop_inv r') as Hr'.
    { clear -Hr Hsteps. induction Hsteps as [|x y z Hxy _ IH]; [done|]. apply IH. by eapply stop_step_descends. }
    destruct (decide (control_ r' = CIdle)) as [He|Hne]; [right|left; by apply stop_progress].
    destruct Hr' as [Hrun' _ Hp']. rewrite He in Hp'. naive_solver.
Qed.
End stopping.

(** ** The constructor *)
Section constructing.
Context {St E : Type} `{HSt : RaftStorage St} `{HSpec : !RaftStorageSpec St} `{HE : RandomEngine E} `{LT : LibraryTexts}.

Lemma clients_made (endpoints : list bytes) :
  Forall (fun e => e <> []) endpoints ->
  foldr (fun endpoint rest => _ ← make_client endpoint peer_options; rest) (Ret tt) endpoints = Ret tt.
Proof.
  induction 1 as [|e es He Hes IH]; [done|]. simpl. rewrite IH. unfold make_client. by rewrite decide_False.
Qed.

(** With a configuration from the environment only the storage can stop the
    constructor of [NodeRuntime]: the server and the clients are always made. *)
Lemma make_runtime_cases env config (st : St) kv :
  from_environment env = Ret config -> storage_inv st ->
  make_runtime (E:=E) config st kv =
    (n ← make_node (raft_config config) (Some st); _ ← kv;
     Ret (mkRuntime config n (mkServer (rc_listen_address config) false 0) false [] TNone [] CIdle)).
Proof.
  intros He Hst. pose proof (from_environment_checked env) as H. rewrite He in H.
  destruct H as (_ & Hla & _ & [_ Hps] & _). unfold make_runtime.
  destruct (make_node _ _); [simpl|done|done]. destruct kv; [simpl|done|done].
  unfold make_server. rewrite decide_False by done. simpl. rewrite clients_made; [done|].
  apply Forall_fmap, Forall_forall. intros [p e] Hpe%elem_of_map_to_list. by apply (Hps p e).
Qed.
End constructing.

(** ** A concrete runtime *)

#[local] Existing Instance example_texts.

Definition demo_runtime_config : NodeRuntimeConfig :=
  mkRuntimeConfig 1 (bytes_of "127.0.0.1:0") (bytes_of "data")
    {[ 2%N := bytes_of "b:1"; 3%N := bytes_of "c:1" ]} 150 300 50.

Definition demo_boot : outcome (NodeRuntime InMemoryRaftStorage N) :=
  make_runtime demo_runtime_config (mkInMemory default_persistent) (Ret tt).

(** The runtime after some actions. *)
Definition demo_after (actions : list Action) : option (NodeRuntime InMemoryRaftStorage N) :=
  match demo_boot with
  | Ret r => match perform_all actions r with Some (Alive r') => Some r' | _ => None end
  | _ => None
  end.

Definition demo_started : list Action :=
  [BeginStart; ControlStep (Some 7%N) true; ControlStep None true; ControlStep None true;
   ControlStep None true; ControlStep None true].

(** One worker sleeps, the other holds the mutex and is about to sleep, the ticker
    sleeps in its loop, and [stop] is called. *)
Definition demo_stopping : list Action :=
  demo_started ++ [WorkerStep 0; WorkerStep 0; WorkerStep 1; TickerStep 0; BeginStop].

Lemma demo_boot_node r actions r' :
  demo_boot = Ret r -> perform_all actions r = Some (Alive r') ->
  raft_node_ r' = raft_node_ r -> node_inv (raft_node_ r').
Proof.
  intros Hr _ ->. unfold demo_boot, make_runtime in Hr.
  pose proof (make_node_cases (E:=N) (raft_config demo_runtime_config) (mkInMemory default_persistent)) as H.
  destruct (make_node _ _) as [n|f|]; [|done|done]. injection Hr as <-. apply H.
  - assert (node_id (raft_config demo_runtime_config) :: peers (raft_config demo_runtime_config) = [1; 2; 3]%N)
      as Hids by (vm_compute; reflexivity).
    split; [simpl; lia|]. rewrite Hids. repeat (constructor; [reflexivity|]). constructor.
  - repeat split; done.
Qed.

(** C35: a failing [start] can hang.  The [catch] block of [start] clears
    [running_] and notifies without taking [queue_mutex_].  If creating the second
    worker fails while the first is between the test of its wait predicate and its
    sleep, the notification is lost: [start] waits for a worker that sleeps, and no
    thread can take a step any more. *)
Theorem start_failure_can_hang :
  exists r, demo_after [BeginStart; ControlStep (Some 7%N) true; ControlStep None true; WorkerStep 0;
      ControlStep None false; ControlStep None true; ControlStep None true; WorkerStep 0;
      ControlStep None true] = Some r /\
    control_ r = CJoinWorkers /\ running_ r = false /\ workers_ r = [WAsleep] /\ ~ can_go_on r.
Proof.
  eexists. split; [vm_compute; reflexivity|]. split_and!; [done|done|done|].
  intros (a & o & ms & Ha & Hsp & Hp). destruct a as [el|w|w reply|w| | |build created|]; try done; simpl in Hp.
  - destruct w as [|w]; done.
  - destruct w as [|w]; done.
  - by destruct (Hsp w).
Qed.

(** [stop] from such a moment ends well. *)
Lemma stop_completes_witness :
  exists r, demo_after demo_stopping = Some r /\ workers_ r = [WAsleep; WChecked] /\ sn stop_step r.
Proof.
  eexists. split; [vm_compute; reflexivity|]. split; [reflexivity|].
  refine (proj1 (stop_completes _ _ _ _)); [reflexivity|reflexivity|].
  destruct demo_boot as [r| |] eqn:Hr; [|by vm_compute in Hr|by vm_compute in Hr].
  eapply (demo_boot_node r [] r) in Hr as Hn; [|done|done]. vm_compute in Hr. injection Hr as <-. exact Hn.
Defined.
