(* ===== verification/RaftProtocol.v ===== *)
(** * The Raft protocol, abstractly

    The specification the nodes are proved to implement.  A protocol state keeps,
    for every node, its term and log, and as history: every vote cast, the log
    each candidate campaigned with, the log of the leader of each term, and how
    much of that log each node acknowledged.  The seven rules of [pstep] are what
    the handlers of [raft_node.cpp] do to this state; crashes, lost, duplicated
    and reordered messages do not appear, because none of them changes it.

    [PInv] is the inductive invariant, [committed] what a leader may commit, and
    the last section derives agreement on the chosen entries. *)

From Stdlib Require Import NArith Lia.
From stdpp Require Import base tactics numbers list gmap functions relations.
From S2P Require Import Prelude RaftTypes RaftLog.

Record Protocol := mkProtocol {
  p_term : NodeId -> Term;
  p_vote : NodeId * Term -> option NodeId;
  p_log : NodeId -> list LogEntry;
  p_clog : Term * NodeId -> option (list LogEntry);
  p_tlog : Term -> option (NodeId * list LogEntry);
  p_ack : NodeId * Term -> nat
}.

Definition pinit : Protocol :=
  mkProtocol (fun _ => 0%N) (fun _ => None) (fun _ => []) (fun _ => None) (fun _ => None)
    (fun _ => 0).

Section protocol.
Context (members : gset NodeId).
Implicit Types (s : Protocol) (i j c : NodeId) (T : Term) (L : list LogEntry).

Definition is_quorum (Q : gset NodeId) : Prop :=
  Q ⊆ members /\ size members / 2 + 1 <= size Q.

(** A new leader, or a leader with a longer log: its own log counts as
    acknowledged by itself. *)
Definition lead s c T L : Protocol :=
  mkProtocol (p_term s) (p_vote s) (<[c := L]> (p_log s)) (p_clog s)
    (<[T := Some (c, L)]> (p_tlog s)) (<[(c, T) := length L]> (p_ack s)).

Inductive pstep : Protocol -> Protocol -> Prop :=
(** Adopt a higher term. *)
| p_adopt s i T :
    (p_term s i < T)%N ->
    pstep s (mkProtocol (<[i := T]> (p_term s)) (p_vote s) (p_log s) (p_clog s) (p_tlog s) (p_ack s))
(** Start an election in a new term with a vote for oneself. *)
| p_campaign s c T :
    c ∈ members -> (p_term s c < T)%N ->
    pstep s (mkProtocol (<[c := T]> (p_term s)) (<[(c, T) := Some c]> (p_vote s)) (p_log s)
               (<[(T, c) := Some (p_log s c)]> (p_clog s)) (p_tlog s) (p_ack s))
(** Grant the vote of the current term to an up-to-date candidate. *)
| p_grant s i c T L :
    i ∈ members -> p_term s i = T -> p_vote s (i, T) = None ->
    p_clog s (T, c) = Some L -> up_to_date L (p_log s i) ->
    pstep s (mkProtocol (p_term s) (<[(i, T) := Some c]> (p_vote s)) (p_log s)
               (p_clog s) (p_tlog s) (p_ack s))
(** Win an election: the log gets an entry of the new term. *)
| p_elect s c T Q L e :
    p_term s c = T -> is_quorum Q -> (forall i, i ∈ Q -> p_vote s (i, T) = Some c) ->
    p_clog s (T, c) = Some L -> p_log s c = L -> (forall L', p_tlog s T <> Some (c, L')) ->
    term e = T ->
    pstep s (lead s c T (L ++ [e]))
(** The leader of a term appends an entry of that term. *)
| p_append s c T L e :
    p_term s c = T -> p_tlog s T = Some (c, L) -> term e = T ->
    pstep s (lead s c T (L ++ [e]))
(** Accept a piece [es] of the leader's log after [p] matching entries. *)
| p_accept s i c T L p es :
    i ∈ members -> i <> c -> p_term s i = T -> p_tlog s T = Some (c, L) ->
    take p L ++ es `prefix_of` L -> p <= length L ->
    p = 0 \/ (exists a b, p_log s i !! (p - 1) = Some a /\ L !! (p - 1) = Some b /\ term a = term b) ->
    pstep s (mkProtocol (p_term s) (p_vote s) (<[i := merge (p_log s i) p es]> (p_log s))
               (p_clog s) (p_tlog s)
               (<[(i, T) := Nat.max (p_ack s (i, T)) (p + length es)]> (p_ack s))).

(** ** Invariant *)

(** Log matching, against the log of the leader of each entry's term. *)
Definition matches s L : Prop :=
  forall k e, L !! k = Some e ->
    exists c L', p_tlog s (term e) = Some (c, L') /\ take (S k) L `prefix_of` L'.

(** No majority can ever acknowledge entry [k] of term [T] any more. *)
Definition dead s T k : Prop :=
  forall Q, is_quorum Q -> exists j, j ∈ Q /\ (T < p_term s j)%N /\ p_ack s (j, T) < k.

(** [L] contains the first [k] entries of [P], or these cannot be committed in
    term [T]. *)
Definition safe s T k (P L : list LogEntry) : Prop :=
  take k P `prefix_of` L \/ dead s T k.

Definition good s T L : Prop := matches s L /\ sorted L /\ terms_le T L.

Record PInv s : Prop := {
  pi_vote : forall i T c, p_vote s (i, T) = Some c ->
    (0 < T <= p_term s i)%N /\ i ∈ members /\ exists L, p_clog s (T, c) = Some L;
  pi_clog : forall T c L, p_clog s (T, c) = Some L ->
    p_vote s (c, T) = Some c /\ good s T L /\ forall k e, L !! k = Some e -> (term e < T)%N;
  pi_tlog : forall T c L, p_tlog s T = Some (c, L) ->
    good s T L /\ exists Q, is_quorum Q /\ forall i, i ∈ Q -> p_vote s (i, T) = Some c;
  pi_leader : forall T c L, p_tlog s T = Some (c, L) -> p_term s c = T -> p_log s c = L;
  pi_log : forall i, good s (p_term s i) (p_log s i);
  pi_ack : forall i T, 0 < p_ack s (i, T) ->
    (T <= p_term s i)%N /\ exists c L, p_tlog s T = Some (c, L) /\ p_ack s (i, T) <= length L;
  pi_node : forall i T c L k, p_tlog s T = Some (c, L) -> at_term L k T -> k <= p_ack s (i, T) ->
    safe s T k L (p_log s i);
  pi_ballot : forall i c T T' L c' L' k, p_vote s (i, T') = Some c -> p_clog s (T', c) = Some L' ->
    (T < T')%N -> p_tlog s T = Some (c', L) -> at_term L k T -> k <= p_ack s (i, T) ->
    safe s T k L L';
  pi_elected : forall c c' T T' L L' k, (T < T')%N -> p_tlog s T = Some (c, L) ->
    p_tlog s T' = Some (c', L') -> at_term L k T -> safe s T k L L';
  pi_held : forall i T c L, p_tlog s T = Some (c, L) -> p_term s i = T ->
    take (p_ack s (i, T)) L `prefix_of` p_log s i;
  pi_last : forall T c L, p_tlog s T = Some (c, L) -> last_term L = T
}.

Lemma quorum_intersect Q Q' : is_quorum Q -> is_quorum Q' -> exists j, j ∈ Q /\ j ∈ Q'.
Proof. intros [H1 H2] [H3 H4]. by eapply majorities_intersect. Qed.

Lemma pinit_inv : PInv pinit.
Proof.
  split; simpl; try done. lia.
Qed.

(** ** Growth *)

(** What never changes: votes, candidate logs, acknowledgements of past terms;
    and what only grows. *)
Record grows s s' : Prop := {
  gr_term : forall i, (p_term s i <= p_term s' i)%N;
  gr_vote : forall i T c, p_vote s (i, T) = Some c -> p_vote s' (i, T) = Some c;
  gr_clog : forall T c L, p_clog s (T, c) = Some L -> p_clog s' (T, c) = Some L;
  gr_tlog : forall T c L, p_tlog s T = Some (c, L) ->
    exists L', p_tlog s' T = Some (c, L') /\ L `prefix_of` L';
  gr_ack : forall i T, p_ack s (i, T) <= p_ack s' (i, T);
  gr_frozen : forall i T, (T < p_term s i)%N -> p_ack s' (i, T) = p_ack s (i, T)
}.

Lemma matches_grows s s' L : grows s s' -> matches s L -> matches s' L.
Proof.
  intros Hg Hm k e He. destruct (Hm k e He) as (c & L' & Ht & Hp).
  destruct (gr_tlog _ _ Hg _ _ _ Ht) as (L'' & Ht' & Hp'). exists c, L''. split; [done|by etrans].
Qed.

Lemma good_grows s s' T L : grows s s' -> good s T L -> good s' T L.
Proof. intros Hg [Hm Hr]. split; [by eapply matches_grows|done]. Qed.

Lemma dead_grows s s' T k : grows s s' -> dead s T k -> dead s' T k.
Proof.
  intros Hg Hd Q HQ. destruct (Hd Q HQ) as (j & Hj & Ht & Ha). exists j.
  split; [done|]. rewrite (gr_frozen _ _ Hg) by done. pose proof (gr_term _ _ Hg j). split; [lia|done].
Qed.

Lemma safe_grows s s' T k P P' L :
  grows s s' -> take k P' = take k P -> safe s T k P L -> safe s' T k P' L.
Proof.
  intros Hg Ht [Hp|Hd]; [left; by rewrite Ht|right; by eapply dead_grows].
Qed.

Lemma safe_extend s T k P L L' : safe s T k P L -> L `prefix_of` L' -> safe s T k P L'.
Proof. intros [Hp|Hd] HL; [left; by etrans|by right]. Qed.

(** ** Facts used by every rule *)

Section facts.
Context (s : Protocol) (Hs : PInv s).

Lemma tlog_voter T c L :
  p_tlog s T = Some (c, L) -> p_vote s (c, T) = Some c /\ (0 < T <= p_term s c)%N.
Proof.
  intros Ht. destruct (pi_tlog s Hs T c L Ht) as (_ & Q & HQ & Hv).
  destruct (quorum_intersect Q Q HQ HQ) as (j & Hj & _).
  destruct (pi_vote s Hs _ _ _ (Hv j Hj)) as (_ & _ & L' & Hc).
  apply (pi_clog s Hs) in Hc as [Hvc _]. split; [done|]. apply (pi_vote s Hs _ _ _ Hvc).
Qed.

(** A node holds what it acknowledged of the log of a term it has not left. *)
Lemma held i T c L :
  p_tlog s T = Some (c, L) -> (p_term s i <= T)%N -> take (p_ack s (i, T)) L `prefix_of` p_log s i.
Proof.
  intros Ht Hle. destruct (decide (p_term s i = T)) as [HT|HT]; [by eapply (pi_held s Hs)|].
  destruct (decide (p_ack s (i, T) = 0)) as [->|Hpos]; [apply prefix_nil|].
  destruct (pi_ack s Hs i T); [lia|]. lia.
Qed.

(** Log matching against a leader: a term both logs contain decides everything up
    to there. *)
Lemma term_agrees i T c L k k' a b :
  p_tlog s T = Some (c, L) -> p_log s i !! k = Some a -> L !! k' = Some b -> term a = term b ->
  k <= k' -> L !! k = Some a.
Proof.
  intros HL Ha Hb Hab Hle. destruct (pi_log s Hs i) as (Hm & _).
  destruct (pi_tlog s Hs _ _ _ HL) as [(HmL & _) _].
  destruct (Hm _ _ Ha) as (c1 & L1 & Ht1 & Hp1). destruct (HmL _ _ Hb) as (c2 & L2 & Ht2 & Hp2).
  rewrite <- Hab, Ht1 in Ht2. injection Ht2 as <- <-.
  apply (take_prefix_lookup _ _ _ _ _ Ha) in Hp1; [|lia].
  destruct (lookup_lt_is_Some_2 L k) as [x Hx]; [apply lookup_lt_Some in Hb; lia|].
  apply (take_prefix_lookup _ _ _ _ _ Hx) in Hp2; [|lia]. congruence.
Qed.

(** Votes are unique, so two majorities of one term elect the same candidate. *)
Lemma elected_unique T c c' L Q :
  p_tlog s T = Some (c, L) -> is_quorum Q -> (forall i, i ∈ Q -> p_vote s (i, T) = Some c') -> c = c'.
Proof.
  intros Ht HQ Hv. destruct (pi_tlog s Hs T c L Ht) as (_ & Q' & HQ' & Hv').
  destruct (quorum_intersect Q Q' HQ HQ') as (j & Hj & Hj'). apply Hv in Hj. apply Hv' in Hj'.
  congruence.
Qed.

(** Once a later term has a leader, an entry nobody beyond the term holds is dead. *)
Lemma late_dead T T' c' L' k :
  p_tlog s T' = Some (c', L') -> (T < T')%N ->
  (forall i, (T < p_term s i)%N -> p_ack s (i, T) < k) -> dead s T k.
Proof.
  intros Ht HT Hack Q HQ. destruct (pi_tlog s Hs T' c' L' Ht) as (_ & Q' & HQ' & Hv).
  destruct (quorum_intersect Q Q' HQ HQ') as (j & Hj & Hj').
  destruct (pi_vote s Hs _ _ _ (Hv j Hj')) as ([_ Hle] & _).
  exists j. split; [done|]. assert (T < p_term s j)%N as Hlt by lia. split; [done|by apply Hack].
Qed.

(** The acknowledged part of a leader's log, before and after a step. *)
Lemma ack_before s' i T c' L' k :
  grows s s' -> p_tlog s' T = Some (c', L') -> at_term L' k T -> k <= p_ack s (i, T) ->
  exists c L, p_tlog s T = Some (c, L) /\ at_term L k T /\ take k L' = take k L.
Proof.
  intros Hg Ht' Hat Hk. assert (0 < p_ack s (i, T)) as Hpos by (destruct Hat; lia).
  destruct (pi_ack s Hs i T Hpos) as (_ & c & L & Ht & Hlen).
  destruct (gr_tlog _ _ Hg _ _ _ Ht) as (L'' & Ht'' & Hp). rewrite Ht' in Ht''. simplify_eq.
  assert (take k L'' = take k L) as Heq by (apply prefix_take_eq; [done|lia]).
  exists c, L. split; [done|]. split; [|done]. by apply (at_term_take L'' L).
Qed.

Lemma node_before s' i T c L k :
  grows s s' -> p_tlog s' T = Some (c, L) -> at_term L k T -> k <= p_ack s (i, T) ->
  safe s' T k L (p_log s i).
Proof.
  intros Hg Ht Hat Hk. destruct (ack_before s' i T c L k Hg Ht Hat Hk) as (c0 & L0 & Ht0 & Hat0 & Heq).
  eapply safe_grows; [done|done|]. by eapply (pi_node s Hs).
Qed.

(** A ballot cast before the step keeps its guarantee. *)
Lemma ballot_before s' i c T T' L c' L' k :
  grows s s' -> p_vote s (i, T') = Some c -> p_clog s' (T', c) = Some L' -> (T < T')%N ->
  p_tlog s' T = Some (c', L) -> at_term L k T -> k <= p_ack s' (i, T) -> safe s' T k L L'.
Proof.
  intros Hg Hv Hc HT Ht Hat Hk.
  destruct (pi_vote s Hs _ _ _ Hv) as ([_ Hle] & _ & L0 & Hc0).
  pose proof (gr_clog _ _ Hg _ _ _ Hc0) as Hc0'. rewrite Hc in Hc0'. simplify_eq.
  rewrite (gr_frozen _ _ Hg) in Hk by lia.
  destruct (ack_before s' i T c' L k Hg Ht Hat Hk) as (c1 & L1 & Ht1 & Hat1 & Heq).
  eapply safe_grows; [done|done|]. by eapply (pi_ballot s Hs).
Qed.

(** Two leaders elected before the step. *)
Lemma elected_before s' c c' T T' L L' L0 k :
  grows s s' -> (T < T')%N -> p_tlog s T = Some (c, L0) -> k <= length L0 ->
  p_tlog s' T = Some (c, L) -> L0 `prefix_of` L -> p_tlog s T' = Some (c', L') ->
  at_term L k T -> safe s' T k L L'.
Proof.
  intros Hg HT Ht0 Hk Ht Hp Ht' Hat.
  assert (take k L = take k L0) as Heq by (by apply prefix_take_eq).
  eapply safe_grows; [done|done|]. eapply (pi_elected s Hs); [done|done|done|].
  by apply (at_term_take L).
Qed.

(** The voting rule: a voter that acknowledged entry [k] of an earlier term only
    votes for candidates that hold it. *)
Lemma up_to_date_safe i T T' c L Lc k :
  p_tlog s T = Some (c, L) -> at_term L k T -> k <= p_ack s (i, T) ->
  (T < T')%N -> good s T' Lc -> (forall k e, Lc !! k = Some e -> (term e < T')%N) ->
  up_to_date Lc (p_log s i) -> safe s T k L Lc.
Proof.
  intros Ht Hat Hk HT (Hm & Hsort & _) Hlt Hup.
  destruct (pi_node s Hs i T c L k Ht Hat Hk) as [Hp|]; [|by right].
  destruct Hat as (Hpos & e & He & Hte).
  assert (p_log s i !! (k - 1) = Some e) as Hie.
  { eapply prefix_lookup_Some; [|done]. rewrite lookup_take_lt by lia. done. }
  pose proof (sorted_last _ _ _ (proj1 (proj2 (pi_log s Hs i))) Hie) as Hlast. rewrite Hte in Hlast.
  assert (0 < T)%N as HT0 by (destruct (tlog_voter T c L Ht); lia).
  assert (Lc <> []) as Hne.
  { intros ->. destruct Hup as [Hup|[Hup _]]; rewrite last_term_nil in Hup; lia. }
  destruct (last_term_lookup Lc Hne) as (b & Hb & Hbt).
  destruct (Hm _ _ Hb) as (c1 & L1 & Ht1 & Hp1).
  pose proof (lookup_lt_Some _ _ _ Hb) as Hlen.
  rewrite take_ge in Hp1 by lia.
  destruct (decide (term b = T)) as [HbT|HbT].
  - left. rewrite HbT, Ht in Ht1. simplify_eq.
    rewrite (prefix_is_take _ _ Hp1). apply take_prefix_mono.
    apply lookup_lt_Some in Hie. destruct Hup as [Hup|[_ Hup]]; lia.
  - assert (T < term b)%N as HTb by (destruct Hup as [Hup|[Hup _]]; lia).
    destruct (pi_elected s Hs _ _ _ _ _ _ k HTb Ht Ht1) as [Hp2|]; [| |by right].
    { split; [done|]. eauto. }
    left. apply (prefix_weak_total _ _ _ Hp2) in Hp1 as [Hp1|Hp1]; [done|].
    exfalso. apply (prefix_lookup_Some _ _ _ _ Hb) in Hp1.
    assert (sorted (take k L)) as Hsk.
    { eapply sorted_prefix; [apply prefix_take|]. apply (pi_tlog s Hs T c L Ht). }
    assert (term b <= term e)%N; [|lia].
    apply lookup_take_Some in Hp1 as [Hp1 Hlt1].
    destruct (pi_tlog s Hs T c L Ht) as [(_ & HsL & _) _].
    eapply (HsL (length Lc - 1) (k - 1)); [lia|done|done].
Qed.
End facts.

(** ** The rules preserve the invariant *)

Ltac at_key a b :=
  destruct (decide (a = b)) as [?|?];
  [simplify_eq; rewrite ?fn_lookup_insert in *; simplify_eq
  |rewrite ?fn_lookup_insert_ne in * by congruence; rewrite ?fn_lookup_insert_ne by congruence].

(** Rules that only touch terms, votes and candidate logs. *)
Lemma vote_rule_inv s s' :
  PInv s -> grows s s' ->
  p_log s' = p_log s -> p_tlog s' = p_tlog s -> p_ack s' = p_ack s ->
  (forall i T c, p_vote s' (i, T) = Some c -> p_vote s (i, T) = Some c \/
     (0 < T <= p_term s' i)%N /\ i ∈ members /\ (exists L, p_clog s' (T, c) = Some L /\ up_to_date L (p_log s i)) ) ->
  (forall T c L, p_clog s' (T, c) = Some L -> p_clog s (T, c) = Some L \/
     p_vote s' (c, T) = Some c /\ L = p_log s c /\ (p_term s c < T)%N) ->
  PInv s'.
Proof.
  intros Hs Hg Hlog Htlog Hack Hvote Hclog.
  assert (forall T c L, p_clog s' (T, c) = Some L ->
    p_vote s' (c, T) = Some c /\ good s' T L /\ forall k e, L !! k = Some e -> (term e < T)%N) as Hcl.
  { intros T c L Hc. destruct (Hclog T c L Hc) as [Hold|(Hv & -> & HT)].
    - destruct (pi_clog s Hs _ _ _ Hold) as (Hv & Hgood & Hlt).
      split; [by eapply gr_vote|]. split; [by eapply good_grows|done].
    - destruct (pi_log s Hs c) as (Hm & Hso & Hle). split; [done|]. split.
      + split; [by eapply matches_grows|]. split; [done|]. eapply terms_le_mono; [|done]. lia.
      + intros k e He. specialize (Hle k e He). lia. }
  split.
  - intros i T c Hv. destruct (Hvote i T c Hv) as [Hold|(HT & Hi & L & HL & _)]; [|eauto].
    destruct (pi_vote s Hs _ _ _ Hold) as (? & ? & L & HL). pose proof (gr_term _ _ Hg i).
    split; [lia|]. split; [done|]. exists L. by eapply gr_clog.
  - done.
  - intros T c L Ht. rewrite Htlog in Ht. destruct (pi_tlog s Hs _ _ _ Ht) as (Hgood & Q & HQ & Hv).
    split; [by eapply good_grows|]. exists Q. split; [done|]. intros i Hi. by eapply gr_vote; [|apply Hv].
  - intros T c L Ht Hc. rewrite Htlog in Ht. rewrite Hlog. eapply (pi_leader s Hs); [done|].
    pose proof (gr_term _ _ Hg c). destruct (tlog_voter s Hs _ _ _ Ht). lia.
  - intros i. rewrite Hlog. eapply good_grows; [done|].
    destruct (pi_log s Hs i) as (? & ? & Hle). split; [done|]. split; [done|].
    eapply terms_le_mono; [|done]. apply Hg.
  - intros i T. rewrite Hack, Htlog. intros Hpos. destruct (pi_ack s Hs i T Hpos) as (? & ?).
    pose proof (gr_term _ _ Hg i). split; [lia|done].
  - intros i T c L k Ht Hat Hk. rewrite Hlog. rewrite Hack in Hk. by eapply node_before.
  - intros i c T T' L c' L' k Hv Hc HT Ht Hat Hk.
    destruct (Hvote i T' c Hv) as [Hold|(_ & _ & L0 & HL0 & Hup)]; [by eapply ballot_before|].
    rewrite Hc in HL0. simplify_eq. rewrite Htlog in Ht. rewrite Hack in Hk.
    eapply safe_grows; [done|done|].
    destruct (Hclog T' c L0 Hc) as [Hold|(_ & -> & HT')].
    + destruct (pi_clog s Hs _ _ _ Hold) as (_ & Hgood & Hlt). by eapply up_to_date_safe.
    + destruct (pi_log s Hs c) as (Hm & Hso & Hle). eapply up_to_date_safe; try done.
      * split; [done|]. split; [done|]. eapply terms_le_mono; [|done]. lia.
      * intros k0 e He. specialize (Hle k0 e He). lia.
  - intros c c' T T' L L' k HT Ht Ht' Hat. rewrite Htlog in Ht, Ht'.
    eapply (elected_before s Hs s' c c' T T' L L' L); try done.
    + by eapply at_term_le.
    + by rewrite Htlog.
  - intros i T c L Ht HT. rewrite Hack, Hlog. rewrite Htlog in Ht.
    eapply held; [done|done|]. rewrite <- HT. apply (gr_term _ _ Hg).
  - rewrite Htlog. apply (pi_last s Hs).
Qed.

Lemma adopt_grows s i T :
  PInv s -> (p_term s i < T)%N ->
  grows s (mkProtocol (<[i := T]> (p_term s)) (p_vote s) (p_log s) (p_clog s) (p_tlog s) (p_ack s)).
Proof. intros Hs HT. split; simpl; eauto. intros j. at_key i j; lia. Qed.

Lemma campaign_grows s c T :
  PInv s -> (p_term s c < T)%N ->
  grows s (mkProtocol (<[c := T]> (p_term s)) (<[(c, T) := Some c]> (p_vote s)) (p_log s)
             (<[(T, c) := Some (p_log s c)]> (p_clog s)) (p_tlog s) (p_ack s)).
Proof.
  intros Hs HT. split; simpl; eauto.
  - intros j. at_key c j; lia.
  - intros j T' c' Hv. at_key (c, T) (j, T'); [|done].
    destruct (pi_vote s Hs _ _ _ Hv). lia.
  - intros T' c' L HL. at_key (T, c) (T', c'); [|done].
    apply (pi_clog s Hs) in HL as [Hv _]. destruct (pi_vote s Hs _ _ _ Hv). lia.
Qed.

Lemma grant_grows s i c T :
  PInv s -> p_vote s (i, T) = None ->
  grows s (mkProtocol (p_term s) (<[(i, T) := Some c]> (p_vote s)) (p_log s)
             (p_clog s) (p_tlog s) (p_ack s)).
Proof.
  intros Hs HT. split; simpl; eauto. intros j T' c' Hv. at_key (i, T) (j, T'); congruence.
Qed.

Lemma lead_grows s c T L L0 :
  PInv s -> p_term s c = T -> L0 `prefix_of` L ->
  p_tlog s T = None \/ p_tlog s T = Some (c, L0) ->
  grows s (lead s c T L).
Proof.
  intros Hs HT Hp Ht. split; simpl; eauto.
  - intros T' c' L' Ht'. at_key T T'; [|eauto].
    destruct Ht as [Ht|Ht]; [congruence|]. simplify_eq. by exists L.
  - intros i T'. at_key (c, T) (i, T'); [|done].
    destruct (decide (0 < p_ack s (i, p_term s i))) as [Hpos|]; [|lia].
    destruct (pi_ack s Hs _ _ Hpos) as (_ & c' & L' & Ht' & Hle). apply prefix_length in Hp.
    destruct Ht as [Ht|Ht]; rewrite Ht in Ht'; simplify_eq. lia.
  - intros i T' HT'. at_key (c, T) (i, T'); [lia|done].
Qed.

(** How a node comes to extend its log as the leader of [T]. *)
Definition may_lead s c T L0 : Prop :=
  p_tlog s T = Some (c, L0) \/
  p_tlog s T = None /\ p_clog s (T, c) = Some L0 /\
  exists Q, is_quorum Q /\ forall i, i ∈ Q -> p_vote s (i, T) = Some c.

Section lead.
Context (s : Protocol) (Hs : PInv s).
Context (c : NodeId) (T : Term) (L0 : list LogEntry) (e : LogEntry).
Context (HT : p_term s c = T) (Hlog : p_log s c = L0) (Hlead : may_lead s c T L0) (He : term e = T).
Abbreviation L := (L0 ++ [e]).
Abbreviation s' := (lead s c T L).

Lemma lead_pos : (0 < T)%N.
Proof.
  destruct Hlead as [Ht|(_ & Hc & _)].
  - apply (tlog_voter s Hs _ _ _ Ht).
  - apply (pi_clog s Hs) in Hc as [Hv _]. apply (pi_vote s Hs _ _ _ Hv).
Qed.

Lemma lead_grows' : grows s s'.
Proof.
  apply (lead_grows s c T L L0); [done|done|by exists [e]|].
  destruct Hlead as [Ht|[Ht _]]; auto.
Qed.

Lemma lead_good : good s' T L.
Proof.
  destruct (pi_log s Hs c) as (Hm & Hso & Hle). rewrite Hlog in *. rewrite HT in Hle.
  split; [|split; [by eapply sorted_snoc|eapply terms_le_snoc; [done|apply lead_pos|done]]].
  intros k a Ha. apply lookup_app_Some in Ha as [Ha|[Hk Ha]].
  - destruct (matches_grows _ _ _ lead_grows' Hm k a Ha) as (c1 & L1 & Ht1 & Hp1).
    exists c1, L1. split; [done|]. apply lookup_lt_Some in Ha.
    by rewrite take_app_le by lia.
  - apply list_lookup_singleton_Some in Ha as [_ <-]. exists c, L. simpl.
    rewrite He, fn_lookup_insert. split; [done|apply prefix_take].
Qed.

Lemma lead_ack_bound i : p_ack s (i, T) <= length L0.
Proof.
  destruct (decide (0 < p_ack s (i, T))) as [Hpos|]; [|lia].
  destruct (pi_ack s Hs _ _ Hpos) as (_ & c1 & L1 & Ht1 & Hle).
  destruct Hlead as [Ht|[Ht _]]; rewrite Ht in Ht1; by simplify_eq.
Qed.

(** The new leader, or the leader with a longer log, contains what earlier terms
    committed. *)
Lemma lead_contains T1 c1 L1 k :
  (T1 < T)%N -> p_tlog s T1 = Some (c1, L1) -> at_term L1 k T1 -> safe s' T1 k L1 L.
Proof.
  intros HT1 Ht1 Hat. apply (safe_extend _ _ _ _ L0); [|by exists [e]].
  eapply safe_grows; [apply lead_grows'|done|].
  destruct Hlead as [Ht|(Ht & Hc & Q & HQ & Hv)]; [by eapply (pi_elected s Hs)|].
  destruct (decide (Exists (fun i => k <= p_ack s (i, T1)) (elements Q))) as [Hex|Hno].
  - apply Exists_exists in Hex as (i & Hi%elem_of_elements & Hk).
    eapply (pi_ballot s Hs); [by apply Hv|done|done|done|done|done].
  - right. intros Q' HQ'. destruct (quorum_intersect Q Q' HQ HQ') as (j & Hj & Hj').
    exists j. split; [done|]. destruct (pi_vote s Hs _ _ _ (Hv j Hj)) as ([_ Hle] & _).
    split; [lia|]. apply Nat.lt_nge. intros Hk. apply Hno, Exists_exists.
    exists j. split; [by apply elem_of_elements|done].
Qed.

(** A stale leader's new entries are dead as soon as a later term has a leader. *)
Lemma lead_contained T2 c2 L2 k :
  (T < T2)%N -> p_tlog s T2 = Some (c2, L2) -> at_term L k T -> safe s' T k L L2.
Proof.
  intros HT2 Ht2 Hat. pose proof (at_term_le _ _ _ Hat) as Hk.
  rewrite length_app in Hk. cbn [length] in Hk.
  assert (L0 `prefix_of` L) as Hp by (by exists [e]).
  destruct (decide (k <= length L0)) as [Hle|Hgt].
  - destruct Hlead as [Ht|(Ht & Hc & _)].
    + eapply (elected_before s Hs s'); [apply lead_grows'|done|done|done| |done|done|done].
      simpl. by rewrite fn_lookup_insert.
    + exfalso. apply (at_term_take _ L0) in Hat as (_ & a & Ha & Hta); [|by apply prefix_take_eq].
      destruct (pi_clog s Hs _ _ _ Hc) as (_ & _ & Hlt). specialize (Hlt _ _ Ha). lia.
  - right. eapply dead_grows; [apply lead_grows'|]. eapply late_dead; [done|done|done|].
    intros i _. pose proof (lead_ack_bound i). lia.
Qed.

Lemma lead_inv : PInv s'.
Proof.
  pose proof lead_grows' as Hg. pose proof lead_good as Hgood.
  pose proof lead_contains as Hcontains. pose proof lead_contained as Hcontained. split.
  - intros i T1 c1 Hv. apply (pi_vote s Hs _ _ _ Hv).
  - intros T1 c1 L1 Hc. destruct (pi_clog s Hs _ _ _ Hc) as (? & ? & ?).
    split; [done|]. split; [by eapply good_grows|done].
  - intros T1 c1 L1 Ht. simpl in Ht. at_key T T1.
    + split; [exact Hgood|]. destruct Hlead as [Ht0|(_ & _ & HQ)]; [|done].
      apply (pi_tlog s Hs _ _ _ Ht0).
    + destruct (pi_tlog s Hs _ _ _ Ht) as [? ?]. split; [by eapply good_grows|done].
  - intros T1 c1 L1 Ht Hc. simpl in *. destruct (decide (T = T1)) as [<-|Hne].
    + rewrite fn_lookup_insert in Ht. injection Ht as <- <-. by rewrite fn_lookup_insert.
    + rewrite fn_lookup_insert_ne in Ht by done. rewrite fn_lookup_insert_ne by congruence.
      by eapply (pi_leader s Hs).
  - intros i. simpl. at_key c i; [exact Hgood|]. eapply good_grows; [done|apply (pi_log s Hs)].
  - intros i T1. simpl. intros Hpos. at_key (c, T) (i, T1).
    + split; [done|]. by eexists _, _.
    + destruct (pi_ack s Hs _ _ Hpos) as (Hle & c1 & L1 & Ht1 & Hlen). split; [done|].
      destruct (gr_tlog _ _ Hg _ _ _ Ht1) as (L1' & Ht1' & Hp). exists c1, L1'.
      split; [done|]. rewrite ?fn_lookup_insert_ne by congruence. apply prefix_length in Hp. lia.
  - intros i T1 c1 L1 k Ht Hat Hk. simpl in Hk. at_key (c, T) (i, T1).
    + left. simpl in *. rewrite fn_lookup_insert in Ht. rewrite fn_lookup_insert.
      simplify_eq. apply prefix_take.
    + pose proof (node_before s Hs s' i T1 c1 L1 k Hg Ht Hat Hk) as Hn. simpl. at_key c i; [|done].
      eapply safe_extend; [done|]. by exists [e].
  - intros i c1 T1 T2 L1 c2 L2 k Hv Hc HT12 Ht Hat Hk. by eapply (ballot_before s Hs s').
  - intros c1 c2 T1 T2 L1 L2 k HT12 Ht1 Ht2 Hat. pose proof Ht1 as Ht1'. simpl in Ht1, Ht2.
    at_key T T2.
    + rewrite fn_lookup_insert_ne in Ht1 by lia. by eapply Hcontains.
    + at_key T T1; [by eapply Hcontained|].
      eapply (elected_before s Hs s'); try done. by eapply at_term_le.
  - intros i T1 c1 L1 Ht HT1. simpl in *. destruct (decide (c = i)) as [<-|Hne].
    + replace T1 with T in * by congruence. rewrite !fn_lookup_insert in *. injection Ht as <- <-.
      apply prefix_take.
    + rewrite !fn_lookup_insert_ne by congruence. destruct (decide (T = T1)) as [<-|HneT].
      * rewrite fn_lookup_insert in Ht. injection Ht as <- <-.
        pose proof (lead_ack_bound i) as Hb. rewrite take_app_le by done.
        destruct Hlead as [Ht0|[Ht0 _]]; [by eapply (pi_held s Hs)|].
        destruct (decide (p_ack s (i, T) = 0)) as [->|Hpos]; [apply prefix_nil|].
        destruct (pi_ack s Hs i T) as (_ & c0 & L1 & Ht1 & _); [lia|congruence].
      * rewrite fn_lookup_insert_ne in Ht by done. by eapply (pi_held s Hs).
  - intros T1 c1 L1 Ht. simpl in Ht. at_key T T1; [|by eapply (pi_last s Hs)].
    unfold last_term. by rewrite last_snoc.
Qed.
End lead.

Section accept.
Context (s : Protocol) (Hs : PInv s).
Context (i c : NodeId) (T : Term) (L : list LogEntry) (p : nat) (es : list LogEntry).
Context (Hmem : i ∈ members) (Hic : i <> c) (HT : p_term s i = T) (Ht : p_tlog s T = Some (c, L)).
Context (Hes : take p L ++ es `prefix_of` L) (Hp : p <= length L).
Context (Hprev : p = 0 \/ exists a b,
  p_log s i !! (p - 1) = Some a /\ L !! (p - 1) = Some b /\ term a = term b).
Abbreviation l := (p_log s i).
Abbreviation l' := (merge (p_log s i) p es).
Abbreviation s' := (mkProtocol (p_term s) (p_vote s) (<[i := merge (p_log s i) p es]> (p_log s))
  (p_clog s) (p_tlog s) (<[(i, T) := Nat.max (p_ack s (i, T)) (p + length es)]> (p_ack s))).

Lemma accept_grows : grows s s'.
Proof.
  split; simpl; eauto.
  - intros j T1. at_key (i, T) (j, T1); lia.
  - intros j T1 HT1. at_key (i, T) (j, T1); [lia|done].
Qed.

(** Log matching: the entry before the piece decides everything before it. *)
Lemma accept_prev : take p l = take p L.
Proof.
  destruct Hprev as [Hp0|(a & b & Ha & Hb & Hab)]; [by rewrite Hp0|].
  destruct (decide (p = 0)) as [Hp0|Hp0]; [by rewrite Hp0|].
  destruct (pi_log s Hs i) as (Hm & _). destruct (pi_tlog s Hs _ _ _ Ht) as [(HmL & _) _].
  destruct (Hm _ _ Ha) as (c1 & L1 & Ht1 & Hp1). destruct (HmL _ _ Hb) as (c2 & L2 & Ht2 & Hp2).
  rewrite <- Hab, Ht1 in Ht2. simplify_eq.
  replace (S (p - 1)) with p in * by lia. apply lookup_lt_Some in Ha.
  apply prefix_is_take in Hp1, Hp2. rewrite length_take_le in Hp1, Hp2 by lia. congruence.
Qed.

Lemma accept_len : p + length es <= length L.
Proof. apply prefix_length in Hes. rewrite length_app, length_take_le in Hes by done. done. Qed.

Lemma accept_piece : take p L ++ es = take (p + length es) L.
Proof.
  rewrite (prefix_is_take _ _ Hes) at 1. by rewrite length_app, length_take_le by done.
Qed.

(** The new log holds the piece, and is the old log or a prefix of the leader's. *)
Lemma accept_cases :
  l' = l /\ take (p + length es) L `prefix_of` l \/
  l' = take (p + length es) L /\ ~ take (p + length es) L `prefix_of` l.
Proof.
  rewrite <- accept_piece, <- accept_prev. unfold merge.
  destruct (decide (es `prefix_of` drop p l)) as [Hpre|Hpre].
  - left. split; [done|]. rewrite <- (take_drop p l) at 2. by apply prefix_app.
  - right. split; [done|]. rewrite <- (take_drop p l) at 2. intros Hx. by apply prefix_app_inv in Hx.
Qed.

Lemma accept_holds : take (p + length es) L `prefix_of` l'.
Proof. by destruct accept_cases as [[-> ?]|[-> ?]]. Qed.

(** What the follower shares with the leader is never removed. *)
Lemma accept_keeps X : X `prefix_of` l -> X `prefix_of` L -> X `prefix_of` l'.
Proof.
  intros HXl HXL. destruct accept_cases as [[-> ?]|[-> Hno]]; [done|].
  pose proof (prefix_take L (p + length es)) as Hpre.
  destruct (prefix_weak_total _ _ _ HXL Hpre) as [?|Hx]; [done|].
  destruct Hno. by etrans.
Qed.

Lemma accept_good : good s' T l'.
Proof.
  eapply good_grows; [apply accept_grows|].
  destruct accept_cases as [[-> _]|[-> _]]; [rewrite <- HT; apply (pi_log s Hs)|].
  destruct (pi_tlog s Hs _ _ _ Ht) as [(Hm & Hso & Hle) _].
  split; [|split; [by eapply sorted_prefix, Hso; apply prefix_take|
                   by eapply terms_le_prefix, Hle; apply prefix_take]].
  intros k e He. apply lookup_take_Some in He as [He Hk].
  destruct (Hm k e He) as (c1 & L1 & Ht1 & Hp1). exists c1, L1. split; [done|].
  rewrite take_take. by rewrite Nat.min_l by lia.
Qed.

Lemma accept_inv : PInv s'.
Proof.
  pose proof accept_grows as Hg. pose proof accept_good as Hgood. split.
  - intros j T1 c1 Hv. apply (pi_vote s Hs _ _ _ Hv).
  - intros T1 c1 L1 Hc. destruct (pi_clog s Hs _ _ _ Hc) as (? & ? & ?).
    split; [done|]. split; [by eapply good_grows|done].
  - intros T1 c1 L1 Ht1. destruct (pi_tlog s Hs _ _ _ Ht1) as [? ?]. split; [by eapply good_grows|done].
  - intros T1 c1 L1 Ht1 Hc. simpl in *. rewrite fn_lookup_insert_ne; [by eapply (pi_leader s Hs)|].
    intros <-. congruence.
  - intros j. simpl. destruct (decide (i = j)) as [<-|Hne].
    + rewrite fn_lookup_insert, HT. exact Hgood.
    + rewrite fn_lookup_insert_ne by done. eapply good_grows; [done|apply (pi_log s Hs)].
  - intros j T1 Hpos. simpl in *. destruct (decide ((i, T) = (j, T1))) as [[= <- <-]|Hne].
    + rewrite fn_lookup_insert. split; [by rewrite HT|]. exists c, L. split; [done|].
      pose proof accept_len. destruct (decide (0 < p_ack s (i, T))) as [Hpos0|]; [|lia].
      destruct (pi_ack s Hs _ _ Hpos0) as (_ & c1 & L1 & Ht1 & Hlen). rewrite Ht in Ht1. simplify_eq. lia.
    + rewrite fn_lookup_insert_ne in * by done. by apply (pi_ack s Hs).
  - intros j T1 c1 L1 k Ht1 Hat Hk. simpl in Ht1, Hk |- *.
    destruct (decide (i = j)) as [<-|Hne].
    2:{ rewrite fn_lookup_insert_ne in Hk by congruence. rewrite fn_lookup_insert_ne by done.
        by eapply (node_before s Hs s'). }
    rewrite fn_lookup_insert. destruct (decide (T = T1)) as [<-|HneT].
    + rewrite fn_lookup_insert in Hk. rewrite Ht in Ht1. injection Ht1 as <- <-.
      destruct (decide (k <= p + length es)) as [Hle|Hgt].
      { left. etrans; [|apply accept_holds]. by apply take_prefix_mono. }
      destruct (node_before s Hs s' i T c L k Hg Ht Hat) as [Hn|Hn]; [lia| |by right].
      left. apply accept_keeps; [done|apply prefix_take].
    + rewrite fn_lookup_insert_ne in Hk by congruence.
      destruct (pi_ack s Hs i T1) as (Hle & _); [destruct Hat; lia|].
      destruct (node_before s Hs s' i T1 c1 L1 k Hg Ht1 Hat Hk) as [Hn|Hn]; [|by right].
      assert (T1 < T)%N as HTT by lia.
      destruct (pi_elected s Hs _ _ _ _ _ _ _ HTT Ht1 Ht Hat) as [He|He];
        [|right; by eapply dead_grows].
      left. by apply accept_keeps.
  - intros j c1 T1 T2 L1 c2 L2 k Hv Hc HT12 Ht1 Hat Hk. by eapply (ballot_before s Hs s').
  - intros c1 c2 T1 T2 L1 L2 k HT12 Ht1 Ht2 Hat.
    eapply (elected_before s Hs s' c1 c2 T1 T2 L1 L2 L1); try done. by eapply at_term_le.
  - intros j T1 c1 L1 Ht1 HT1. simpl in *. destruct (decide (i = j)) as [<-|Hne].
    + replace T1 with T in * by congruence. rewrite !fn_lookup_insert. rewrite Ht in Ht1.
      injection Ht1 as <- <-. destruct (Nat.max_spec (p_ack s (i, T)) (p + length es)) as [[_ ->]|[_ ->]].
      * apply accept_holds.
      * apply accept_keeps; [by eapply (pi_held s Hs)|apply prefix_take].
    + rewrite !fn_lookup_insert_ne by congruence. by eapply (pi_held s Hs).
  - apply (pi_last s Hs).
Qed.
End accept.

Lemma pstep_grows_inv s s' : PInv s -> pstep s s' -> grows s s' /\ PInv s'.
Proof.
  intros Hs Hstep. destruct Hstep as
    [s i T HT|s c T Hc HT|s i c T L Hi HT Hv Hc Hup|s c T Q L e HT HQ Hv Hc Hl Ht He
    |s c T L e HT Ht He|s i c T L p es Hi Hic HT Ht Hes Hp Hprev].
  - pose proof (adopt_grows s i T Hs HT) as Hg. split; [done|].
    eapply vote_rule_inv; [done|exact Hg|done|done|done|by left|by left].
  - pose proof (campaign_grows s c T Hs HT) as Hg. split; [done|].
    eapply vote_rule_inv; [done|exact Hg|done|done|done| |]; simpl.
    + intros j T1 c1 Hv. destruct (decide ((c, T) = (j, T1))) as [[= <- <-]|Hne].
      * right. rewrite fn_lookup_insert in Hv. injection Hv as <-. rewrite fn_lookup_insert. split; [lia|].
        split; [done|]. exists (p_log s c). rewrite fn_lookup_insert. split; [done|].
        right. split; [done|lia].
      * left. by rewrite fn_lookup_insert_ne in Hv by done.
    + intros T1 c1 L HL. destruct (decide ((T, c) = (T1, c1))) as [[= <- <-]|Hne].
      * right. rewrite fn_lookup_insert in HL. injection HL as <-. by rewrite fn_lookup_insert.
      * left. by rewrite fn_lookup_insert_ne in HL by done.
  - pose proof (grant_grows s i c T Hs Hv) as Hg. split; [done|].
    eapply vote_rule_inv; [done|exact Hg|done|done|done| |by left]; simpl.
    intros j T1 c1 Hv1. destruct (decide ((i, T) = (j, T1))) as [[= <- <-]|Hne].
    + right. rewrite fn_lookup_insert in Hv1. injection Hv1 as <-.
      split; [|split; [done|by exists L]].
      destruct (pi_clog s Hs _ _ _ Hc) as [Hvc _]. destruct (pi_vote s Hs _ _ _ Hvc). lia.
    + left. by rewrite fn_lookup_insert_ne in Hv1 by done.
  - assert (p_tlog s T = None) as HN.
    { destruct (p_tlog s T) as [[c' L']|] eqn:E; [|done]. exfalso.
      pose proof (elected_unique s Hs _ _ _ _ _ E HQ Hv). subst c'. by apply (Ht L'). }
    assert (may_lead s c T L) as Hlead by (right; eauto).
    split; [by apply lead_grows'|by apply lead_inv].
  - assert (p_log s c = L) as Hl by (by eapply (pi_leader s Hs)).
    assert (may_lead s c T L) as Hlead by (by left).
    split; [by apply lead_grows'|by apply lead_inv].
  - split; [by eapply accept_grows|by eapply (accept_inv s Hs i c T L p es)].
Qed.

#[export] Instance grows_refl : Reflexive grows.
Proof. intros s. split; eauto. Qed.

Lemma grows_trans s1 s2 s3 : grows s1 s2 -> grows s2 s3 -> grows s1 s3.
Proof.
  intros [T1 V1 C1 L1 A1 F1] [T2 V2 C2 L2 A2 F2]. split; eauto.
  - intros i. etrans; [apply T1|apply T2].
  - intros T c L HL. destruct (L1 _ _ _ HL) as (L' & HL' & Hp').
    destruct (L2 _ _ _ HL') as (L'' & HL'' & Hp''). exists L''. split; [done|by etrans].
  - intros i T. etrans; [apply A1|apply A2].
  - intros i T HT. rewrite F2 by (pose proof (T1 i); lia). by apply F1.
Qed.

Lemma psteps_grows_inv s s' : PInv s -> rtc pstep s s' -> grows s s' /\ PInv s'.
Proof.
  intros Hs Hsteps. induction Hsteps as [s|s1 s2 s3 Hstep _ IH]; [by split|].
  destruct (pstep_grows_inv s1 s2 Hs Hstep) as [Hg Hi]. destruct (IH Hi) as [Hg' Hi'].
  split; [by eapply grows_trans|done].
Qed.

(** ** What is committed stays *)

(** A majority acknowledged entry [k], of term [T] itself, to the leader of [T]. *)
Definition committed s T k : Prop :=
  exists c L Q, p_tlog s T = Some (c, L) /\ at_term L k T /\ is_quorum Q /\
    forall i, i ∈ Q -> k <= p_ack s (i, T).

(** The entries [P] are a prefix of what was committed in some term up to [B]. *)
Definition chosen s B (P : list LogEntry) : Prop :=
  P = [] \/ exists T k c L, (T <= B)%N /\ committed s T k /\ p_tlog s T = Some (c, L) /\
    P `prefix_of` take k L.

Lemma committed_not_dead s T k : committed s T k -> dead s T k -> False.
Proof.
  intros (c & L & Q & _ & _ & HQ & Hack) Hd. destruct (Hd Q HQ) as (j & Hj & _ & Hlt).
  specialize (Hack j Hj). lia.
Qed.

Lemma committed_grows s s' T k : PInv s -> grows s s' -> committed s T k -> committed s' T k.
Proof.
  intros Hs Hg (c & L & Q & Ht & Hat & HQ & Hack).
  destruct (gr_tlog _ _ Hg _ _ _ Ht) as (L' & Ht' & Hp). exists c, L', Q. split; [done|].
  split; [|split; [done|intros i Hi; etrans; [by apply Hack|apply (gr_ack _ _ Hg)]]].
  apply (at_term_take L L'); [|done]. symmetry. apply prefix_take_eq; [done|by eapply at_term_le].
Qed.

Lemma chosen_grows s s' B P : PInv s -> grows s s' -> chosen s B P -> chosen s' B P.
Proof.
  intros Hs Hg [->|(T & k & c & L & HT & Hc & Ht & HP)]; [by left|right].
  destruct (gr_tlog _ _ Hg _ _ _ Ht) as (L' & Ht' & Hp). exists T, k, c, L'.
  split; [done|]. split; [by eapply committed_grows|]. split; [done|].
  destruct Hc as (c1 & L1 & Q & Ht1 & Hat & _). rewrite Ht in Ht1. injection Ht1 as <- <-.
  rewrite (prefix_take_eq L L'); [done|done|by eapply at_term_le].
Qed.

Lemma chosen_mono s B B' P : (B <= B')%N -> chosen s B P -> chosen s B' P.
Proof.
  intros HB [->|(T & k & c & L & HT & H)]; [by left|right]. exists T, k, c, L. split; [lia|done].
Qed.

Lemma chosen_prefix s B P P' : P `prefix_of` P' -> chosen s B P' -> chosen s B P.
Proof.
  intros HP [->|(T & k & c & L & HT & Hc & Ht & HP')]; [left; by apply prefix_nil_inv|right].
  exists T, k, c, L. split_and!; try done. by etrans.
Qed.

(** Leader completeness. *)
Lemma chosen_tlog s B P T c L :
  PInv s -> chosen s B P -> p_tlog s T = Some (c, L) -> (B <= T)%N -> P `prefix_of` L.
Proof.
  intros Hs [->|(T0 & k & c0 & L0 & HT & Hc & Ht0 & HP)] Ht HB; [apply prefix_nil|].
  etrans; [exact HP|].
  pose proof Hc as (c1 & L1 & Q & Ht1 & Hat & _). rewrite Ht0 in Ht1. injection Ht1 as <- <-.
  destruct (decide (T0 = T)) as [->|Hne].
  - rewrite Ht in Ht0. injection Ht0 as <- <-. apply prefix_take.
  - assert (T0 < T)%N as HTT by lia.
    destruct (pi_elected s Hs _ _ _ _ _ _ _ HTT Ht0 Ht Hat) as [Hp|Hd]; [done|].
    by destruct (committed_not_dead s T0 k).
Qed.

(** Agreement: what is chosen, whenever and by whomever, is one sequence. *)
Lemma chosen_total s B B' P P' :
  PInv s -> chosen s B P -> chosen s B' P' -> P `prefix_of` P' \/ P' `prefix_of` P.
Proof.
  intros Hs [->|(T & k & c & L & HT & Hk & Ht & HP)] [->|(T' & k' & c' & L' & HT' & Hk' & Ht' & HP')];
    [left; apply prefix_nil|left; apply prefix_nil|right; apply prefix_nil|].
  assert (chosen s T P) as H1 by (right; exists T, k, c, L; by split_and!).
  assert (chosen s T' P') as H2 by (right; exists T', k', c', L'; by split_and!).
  destruct (decide (T <= T')%N) as [Hle|Hgt].
  - pose proof (chosen_tlog s T P T' c' L' Hs H1 Ht' Hle) as Hp.
    eapply prefix_weak_total; [exact Hp|]. etrans; [done|apply prefix_take].
  - assert (T' <= T)%N as Hle by lia.
    pose proof (chosen_tlog s T' P' T c L Hs H2 Ht Hle) as Hp.
    eapply prefix_weak_total; [|exact Hp]. etrans; [done|apply prefix_take].
Qed.

(** A leader may commit an entry of its own term held by a majority. *)
Lemma quorum_chosen s c T L k Q :
  p_tlog s T = Some (c, L) -> at_term L k T -> is_quorum Q ->
  (forall i, i ∈ Q -> k <= p_ack s (i, T)) -> chosen s T (take k L).
Proof.
  intros Ht Hat HQ Hack. right. exists T, k, c, L. split; [lia|]. split; [|by split].
  exists c, L, Q. by split_and!.
Qed.
End protocol.
