(* ===== verification/RaftSimulation.v ===== *)
(** * A node implements the protocol

    Relates the concrete [RaftNode] of one cluster member to the abstract
    protocol state, and proves that every method of the node is a sequence of
    [pstep]s of that member.  A call that throws or dies is related through what
    it leaves on the storage, which is all a restarted node sees. *)

From Stdlib Require Import NArith ZArith Lia.
From stdpp Require Import base tactics numbers list gmap functions relations strings.
From S2P Require Import Prelude RaftTypes RaftLog RaftNode RaftBehaviour RaftInvariant RaftProtocol.

Open Scope ftkv_scope.

Section simulation.
Context {St E : Type} `{HSt : RaftStorage St} `{HSpec : !RaftStorageSpec St} `{HE : RandomEngine E}.
Context (members : gset NodeId).
Abbreviation Node := (RaftNode St E).
Abbreviation PInv := (PInv members).
Abbreviation pstep := (pstep members).
Abbreviation chosen := (chosen members).
Abbreviation is_quorum := (is_quorum members).
Implicit Types (n : Node) (s : Protocol) (i j c : NodeId) (T : Term) (L l : list LogEntry).

(** ** The relation *)

(** What a message in flight says about the protocol. *)
Definition rpc_ok s (src dst : NodeId) (r : Rpc) : Prop :=
  match r with
  | VoteRequest q => rv_candidate_id q = src /\
      exists L, p_clog s (rv_term q, src) = Some L /\
        rv_last_log_index q = N.of_nat (length L) /\ rv_last_log_term q = last_term L
  | VoteResponse q => rvr_vote_granted q = true -> p_vote s (src, rvr_term q) = Some dst
  | AppendRequest q => ae_leader_id q = src /\
      exists L, p_tlog s (ae_term q) = Some (src, L) /\
        N.to_nat (ae_previous_log_index q) <= length L /\
        take (N.to_nat (ae_previous_log_index q)) L ++ ae_entries q `prefix_of` L /\
        (ae_previous_log_index q = 0%N \/ exists b,
           L !! (N.to_nat (ae_previous_log_index q) - 1) = Some b /\
           term b = ae_previous_log_term q) /\
        (N.to_nat (ae_leader_commit q) <=
           N.to_nat (ae_previous_log_index q) + length (ae_entries q)) /\
        chosen s (ae_term q) (take (N.to_nat (ae_leader_commit q)) L) /\
        (N.of_nat (S (N.to_nat (ae_previous_log_index q)) + length (ae_entries q)) <= vector_max)%N
  | AppendResponse q => aer_success q = true ->
      N.to_nat (aer_match_index q) <= p_ack s (src, aer_term q)
  end.

Definition msg_ok s (m : Message) : Prop :=
  is_u64 (message_term m) /\ rpc_ok s (from m) (to m) (rpc m).

(** A published entry is a chosen one, at its index. *)
Definition entry_ok s (ce : CommittedEntry) : Prop :=
  exists B P e, chosen s B P /\ (0 < ce_index ce)%N /\ P !! (N.to_nat (ce_index ce) - 1) = Some e /\
    is_no_op e = false /\ term e = ce_term ce /\ command e = ce_command ce.

Definition role_rel s i n : Prop :=
  match state_ n with
  | follower => True
  | candidate => p_clog s (current_term_ n, i) = Some (p_log s i) /\
      (forall v, v ∈ votes_received_ n -> p_vote s (v, current_term_ n) = Some i) /\
      forall L, p_tlog s (current_term_ n) <> Some (i, L)
  | leader => p_tlog s (current_term_ n) = Some (i, p_log s i) /\
      length (p_log s i) <= p_ack s (i, current_term_ n) /\
      forall p m, p ∈ peers (config_ n) -> match_index_ n !! p = Some m ->
        N.to_nat m <= p_ack s (p, current_term_ n)
  end.

Record node_rel s i n : Prop := {
  nr_inv : node_inv n;
  nr_id : node_id (config_ n) = i;
  nr_members : members_ n = members;
  nr_term : p_term s i = current_term_ n;
  nr_vote : p_vote s (i, current_term_ n) = voted_for_ n;
  nr_log : log_ n = default_entry :: p_log s i;
  nr_durable : persisted n;
  nr_chosen : chosen s (current_term_ n) (take (N.to_nat (commit_index_ n)) (p_log s i));
  nr_role : role_rel s i n;
  nr_outbox : Forall (fun m => from m = i /\ msg_ok s m) (outbox_ n);
  nr_published : Forall (entry_ok s) (committed_entries_ n)
}.

(** A stopped node is its storage. *)
Definition down_rel s i (st : St) : Prop :=
  medium_ok st /\ durable st = mkPersistent (p_term s i) (p_vote s (i, p_term s i)) (p_log s i).

(** ** Steps of one node *)

(** Steps that leave what belongs to the other nodes alone. *)
Record frame i s s' : Prop := {
  fr_steps : rtc pstep s s';
  fr_term : forall j, j <> i -> p_term s' j = p_term s j;
  fr_log : forall j, j <> i -> p_log s' j = p_log s j;
  fr_vote : forall j T, j <> i -> p_vote s' (j, T) = p_vote s (j, T);
  fr_clog : forall j T, j <> i -> p_clog s' (T, j) = p_clog s (T, j);
  fr_tlog : forall j T L, j <> i -> p_tlog s T = Some (j, L) <-> p_tlog s' T = Some (j, L)
}.

#[export] Instance frame_refl i : Reflexive (frame i).
Proof. intros s. split; try done. Qed.

Lemma frame_trans i s1 s2 s3 : frame i s1 s2 -> frame i s2 s3 -> frame i s1 s3.
Proof.
  intros [R1 T1 L1 V1 C1 H1] [R2 T2 L2 V2 C2 H2]. split.
  - by etrans.
  - intros j Hj. by rewrite T2, T1.
  - intros j Hj. by rewrite L2, L1.
  - intros j T Hj. by rewrite V2, V1.
  - intros j T Hj. by rewrite C2, C1.
  - intros j T L Hj. by rewrite H1, H2.
Qed.

Lemma frame_grows_inv i s s' : PInv s -> frame i s s' -> grows s s' /\ PInv s'.
Proof. intros Hs Hf. by apply (psteps_grows_inv members), (fr_steps _ _ _ Hf). Qed.

Lemma rpc_ok_grows s s' src dst r :
  PInv s -> grows s s' -> rpc_ok s src dst r -> rpc_ok s' src dst r.
Proof.
  intros Hs Hg. destruct r as [q|q|q|q]; simpl.
  - intros (Hc & L & HL & H). split; [done|]. exists L. split; [by eapply gr_clog|done].
  - intros H Hgr. by eapply gr_vote; [|apply H].
  - intros (Hid & L & HL & Hp & He & Hb & Hc & Hch & Hmax). split; [done|].
    destruct (gr_tlog _ _ Hg _ _ _ HL) as (L' & HL' & Hpre). exists L'. split; [done|].
    pose proof (prefix_length _ _ Hpre) as Hlen.
    pose proof (prefix_length _ _ He) as Hle. rewrite length_app, length_take_le in Hle by done.
    rewrite !(prefix_take_eq L L') by (done || lia).
    split; [lia|]. split; [by etrans|]. split; [|split; [done|by split; [apply (chosen_grows _ s)|]]].
    destruct Hb as [?|(b & Hb & Ht)]; [by left|right]. exists b. split; [|done].
    by eapply prefix_lookup_Some.
  - intros H Hsu. etrans; [by apply H|apply (gr_ack _ _ Hg)].
Qed.

Lemma msg_ok_grows s s' m : PInv s -> grows s s' -> msg_ok s m -> msg_ok s' m.
Proof. intros Hs Hg [H1 H2]. split; [done|by eapply rpc_ok_grows]. Qed.

Lemma entry_ok_grows s s' ce : PInv s -> grows s s' -> entry_ok s ce -> entry_ok s' ce.
Proof.
  intros Hs Hg (B & P & e & Hc & H). exists B, P, e. split; [by apply (chosen_grows _ s)|done].
Qed.

Lemma outbox_grows s s' i ms :
  PInv s -> grows s s' -> Forall (fun m => from m = i /\ msg_ok s m) ms ->
  Forall (fun m => from m = i /\ msg_ok s' m) ms.
Proof.
  intros Hs Hg H. eapply Forall_impl; [exact H|]. intros m [? ?]. split; [done|by eapply msg_ok_grows].
Qed.

Lemma published_grows s s' ces :
  PInv s -> grows s s' -> Forall (entry_ok s) ces -> Forall (entry_ok s') ces.
Proof. intros Hs Hg H. eapply Forall_impl; [exact H|]. intros ce. by apply entry_ok_grows. Qed.

(** The others do not notice. *)
Lemma role_frame i j s s' n :
  PInv s -> frame i s s' -> j <> i -> role_rel s j n -> role_rel s' j n.
Proof.
  intros Hs Hf Hj. destruct (frame_grows_inv _ _ _ Hs Hf) as [Hg _]. unfold role_rel.
  destruct (state_ n); [done| |].
  - rewrite (fr_clog _ _ _ Hf), (fr_log _ _ _ Hf) by done. intros (Hc & Hv & Ht).
    split; [done|]. split; [intros v Hvv; by eapply gr_vote; [|apply Hv]|].
    intros L HL. apply (Ht L). by apply (fr_tlog _ _ _ Hf).
  - rewrite (fr_log _ _ _ Hf) by done. rewrite <- (fr_tlog _ _ _ Hf) by done. intros (Hl & Ha & Hm).
    split; [done|]. split; [etrans; [done|apply (gr_ack _ _ Hg)]|].
    intros p m Hp Hpm. etrans; [by apply (Hm p)|apply (gr_ack _ _ Hg)].
Qed.

Lemma node_frame i j s s' n :
  PInv s -> frame i s s' -> j <> i -> node_rel s j n -> node_rel s' j n.
Proof.
  intros Hs Hf Hj Hn. destruct (frame_grows_inv _ _ _ Hs Hf) as [Hg _]. destruct Hn. split; auto.
  - by rewrite (fr_term _ _ _ Hf).
  - by rewrite (fr_vote _ _ _ Hf).
  - by rewrite (fr_log _ _ _ Hf).
  - rewrite (fr_log _ _ _ Hf) by done. by apply (chosen_grows _ s).
  - by eapply role_frame.
  - by eapply outbox_grows.
  - by eapply published_grows.
Qed.

Lemma down_frame i j s s' st : frame i s s' -> j <> i -> down_rel s j st -> down_rel s' j st.
Proof.
  intros Hf Hj [Hm Hd]. split; [done|].
  by rewrite (fr_term _ _ _ Hf), (fr_vote _ _ _ Hf), (fr_log _ _ _ Hf).
Qed.

(** The rules of the protocol move one node. *)

Ltac solve_frame :=
  split; simpl; intros; rewrite ?fn_lookup_insert_ne by congruence; try done.

Lemma adopt_frame s i T :
  (p_term s i < T)%N ->
  frame i s (mkProtocol (<[i := T]> (p_term s)) (p_vote s) (p_log s) (p_clog s) (p_tlog s) (p_ack s)).
Proof. intros HT. solve_frame. by apply rtc_once, p_adopt. Qed.

Lemma campaign_frame s i T :
  i ∈ members -> (p_term s i < T)%N ->
  frame i s (mkProtocol (<[i := T]> (p_term s)) (<[(i, T) := Some i]> (p_vote s)) (p_log s)
               (<[(T, i) := Some (p_log s i)]> (p_clog s)) (p_tlog s) (p_ack s)).
Proof. intros Hi HT. solve_frame. by apply rtc_once, p_campaign. Qed.

Lemma grant_frame s i c T L :
  i ∈ members -> p_term s i = T -> p_vote s (i, T) = None ->
  p_clog s (T, c) = Some L -> up_to_date L (p_log s i) ->
  frame i s (mkProtocol (p_term s) (<[(i, T) := Some c]> (p_vote s)) (p_log s)
               (p_clog s) (p_tlog s) (p_ack s)).
Proof. intros. solve_frame. apply rtc_once. by eapply p_grant. Qed.

Lemma lead_frame s i T L0 e :
  PInv s -> p_term s i = T -> p_log s i = L0 -> may_lead members s i T L0 -> term e = T ->
  frame i s (lead s i T (L0 ++ [e])).
Proof.
  intros Hs HT Hl Hlead He. split; simpl; intros; rewrite ?fn_lookup_insert_ne by congruence; try done.
  - apply rtc_once. destruct Hlead as [Ht|(Ht & Hc & Q & HQ & Hv)].
    + by apply p_append.
    + eapply p_elect; try done. intros L'. by rewrite Ht.
  - destruct (decide (T = T0)) as [<-|Hne]; [|by rewrite fn_lookup_insert_ne].
    rewrite fn_lookup_insert. split; [|congruence].
    destruct Hlead as [Ht|(Ht & _)]; rewrite Ht; congruence.
Qed.

Lemma accept_frame s i c T L p es :
  i ∈ members -> i <> c -> p_term s i = T -> p_tlog s T = Some (c, L) ->
  take p L ++ es `prefix_of` L -> p <= length L ->
  p = 0 \/ (exists a b, p_log s i !! (p - 1) = Some a /\ L !! (p - 1) = Some b /\ term a = term b) ->
  frame i s (mkProtocol (p_term s) (p_vote s) (<[i := merge (p_log s i) p es]> (p_log s))
               (p_clog s) (p_tlog s)
               (<[(i, T) := Nat.max (p_ack s (i, T)) (p + length es)]> (p_ack s))).
Proof. intros. solve_frame. apply rtc_once. by eapply p_accept. Qed.

(** ** Results of a call *)

Definition sim s i n' : Prop := exists s', frame i s s' /\ node_rel s' i n'.
Definition lost s i (f : failure) n' : Prop := exists s', frame i s s' /\ down_rel s' i (storage_ n').

Lemma sim_refl s i n : node_rel s i n -> sim s i n.
Proof. intros Hn. by exists s. Qed.

Lemma sim_trans s s' i n : frame i s s' -> sim s' i n -> sim s i n.
Proof. intros Hf (s2 & Hf' & Hn). exists s2. split; [by eapply frame_trans|done]. Qed.

Lemma lost_trans s s' i f n : frame i s s' -> lost s' i f n -> lost s i f n.
Proof. intros Hf (s2 & Hf' & Hn). exists s2. split; [by eapply frame_trans|done]. Qed.

Lemma rel_down s i n : node_rel s i n -> down_rel s i (storage_ n).
Proof.
  intros Hn. split; [apply storage_inv_medium, (inv_storage n), Hn|].
  rewrite (nr_durable _ _ _ Hn), (nr_log _ _ _ Hn), (nr_term _ _ _ Hn), (nr_vote _ _ _ Hn). done.
Qed.

(** A failed save leaves the old state or the state the protocol moved to. *)
Lemma lost_either s s' i n f n' ps :
  node_rel s i n -> frame i s s' -> broken_save f (storage_ n') ->
  ps = mkPersistent (p_term s' i) (p_vote s' (i, p_term s' i)) (p_log s' i) ->
  durable (storage_ n') = durable (storage_ n) \/ durable (storage_ n') = ps ->
  lost s i f n'.
Proof.
  intros Hn Hf [Hm _] Hps [Hd|Hd].
  - exists s. split; [done|]. split; [done|]. rewrite Hd. apply (rel_down _ _ _ Hn).
  - exists s'. split; [done|]. split; [done|]. by rewrite Hd.
Qed.

Lemma lost_same s i n f n' : node_rel s i n -> storage_ n' = storage_ n -> lost s i f n'.
Proof. intros Hn Hst. exists s. split; [done|]. rewrite Hst. by apply rel_down. Qed.

(** The node moved together with the protocol. *)
Lemma rel_moved s s' i n n' :
  PInv s -> frame i s s' -> node_rel s i n -> node_inv n' ->
  config_ n' = config_ n -> members_ n' = members_ n ->
  p_term s' i = current_term_ n' -> p_vote s' (i, current_term_ n') = voted_for_ n' ->
  log_ n' = default_entry :: p_log s' i -> persisted n' ->
  chosen s' (current_term_ n') (take (N.to_nat (commit_index_ n')) (p_log s' i)) ->
  role_rel s' i n' -> outbox_ n' = outbox_ n -> committed_entries_ n' = committed_entries_ n ->
  node_rel s' i n'.
Proof.
  intros Hs Hf Hn Hinv Hcf Hme HT Hv Hl Hd Hc Hr Ho Hp.
  destruct (frame_grows_inv _ _ _ Hs Hf) as [Hg _].
  split; try done.
  - rewrite Hcf. apply Hn.
  - rewrite Hme. apply Hn.
  - rewrite Ho. eapply outbox_grows; [done|done|apply Hn].
  - rewrite Hp. eapply published_grows; [done|done|apply Hn].
Qed.

(** Only volatile fields changed. *)
Lemma rel_volatile s i n n' :
  PInv s -> node_rel s i n -> node_inv n' -> config_ n' = config_ n -> members_ n' = members_ n ->
  current_term_ n' = current_term_ n -> voted_for_ n' = voted_for_ n -> log_ n' = log_ n ->
  storage_ n' = storage_ n -> commit_index_ n' = commit_index_ n -> role_rel s i n' ->
  outbox_ n' = outbox_ n -> committed_entries_ n' = committed_entries_ n ->
  node_rel s i n'.
Proof.
  intros Hs Hn Hinv Hcf Hme HT Hv Hl Hst Hc Hr Ho Hp. pose proof Hn as [].
  eapply rel_moved; try done; rewrite ?HT, ?Hv, ?Hl, ?Hc; try done.
  unfold persisted. by rewrite Hst, HT, Hv, Hl.
Qed.

Lemma rel_outbox s i n ms :
  node_rel s i n -> Forall (fun m => from m = i /\ msg_ok s m) ms ->
  node_rel s i (set_outbox_ (outbox_ n ++ ms) n).
Proof.
  intros [] Hms. split; try done; [by apply inv_sent|]. node_simpl. by apply Forall_app.
Qed.

Lemma rel_sent s i n ms r :
  node_rel s i n -> Forall (fun m => from m = i /\ msg_ok s m) ms ->
  node_rel s i (set_outbox_ (outbox_ n ++ ms) (set_append_request_id_ r n)).
Proof.
  intros [] Hms. split; try done; [by apply inv_outbox|]. node_simpl. by apply Forall_app.
Qed.

(** ** Replication by the leader *)

Lemma log_entry s i n k e :
  node_rel s i n -> (0 < k)%N -> log_ n !! N.to_nat k = Some e ->
  p_log s i !! (N.to_nat k - 1) = Some e.
Proof.
  intros Hn Hk. rewrite (nr_log _ _ _ Hn). destruct (N.to_nat k) as [|k'] eqn:Ek; [lia|].
  simpl. by rewrite Nat.sub_0_r.
Qed.

(** What a leader sends is a piece of its log, and its commit index lies within. *)
Lemma append_message_ok s i n m :
  node_rel s i n -> state_ n = leader -> is_append_message n m -> from m = i /\ msg_ok s m.
Proof.
  intros Hn Hs (p & k & e & rid & Hp & Hk & Hpos & Hle & He & ->).
  pose proof (nr_role _ _ _ Hn) as Hr. unfold role_rel in Hr. rewrite Hs in Hr.
  destruct Hr as (Ht & _). split; [apply Hn|]. unfold append_message.
  split; [apply (inv_term n), Hn|]. simpl. rewrite (nr_id _ _ _ Hn). split; [done|].
  exists (p_log s i). split; [done|].
  rewrite (nr_log _ _ _ Hn) in Hle |- *. simpl in Hle.
  replace (N.to_nat k) with (S (N.to_nat (k - 1))) by lia. simpl.
  rewrite take_drop. split; [lia|]. split; [done|]. split.
  - destruct (decide (k - 1 = 0)%N) as [?|Hne]; [by left|right]. exists e. split; [|done].
    eapply log_entry; [done|lia|done].
  - pose proof (inv_commit n (nr_inv _ _ _ Hn)) as Hc. rewrite (nr_log _ _ _ Hn) in Hc. simpl in Hc.
    pose proof (inv_length n (nr_inv _ _ _ Hn)) as Hmax. rewrite (nr_log _ _ _ Hn) in Hmax. simpl in Hmax.
    rewrite length_drop. split; [lia|]. split; [apply (nr_chosen _ _ _ Hn)|lia].
Qed.

Lemma rel_append_messages s i n ms r :
  node_rel s i n -> state_ n = leader -> Forall (is_append_message n) ms ->
  node_rel s i (set_outbox_ (outbox_ n ++ ms) (set_append_request_id_ r n)).
Proof.
  intros Hn Hs Hms. apply rel_sent; [done|]. eapply Forall_impl; [exact Hms|].
  intros m. by apply append_message_ok.
Qed.

Lemma publish_ok s B l start count :
  chosen s B (take (start + count) l) ->
  Forall (entry_ok s) (publish (default_entry :: l) (S start) count).
Proof.
  intros Hc. apply Forall_forall. intros ce Hce.
  apply list_elem_of_omap in Hce as (x & Hx & He). apply elem_of_seq in Hx.
  destruct x as [|x]; [lia|]. simpl in He. destruct (l !! x) as [e|] eqn:Hl; [|done].
  destruct (is_no_op e) eqn:Hno; [done|]. injection He as <-. simpl.
  exists B, (take (start + count) l), e. split; [done|]. cbn [ce_index ce_term ce_command]. split; [lia|].
  split; [|done]. rewrite lookup_take_lt by lia. by replace (N.to_nat _ - 1) with x by lia.
Qed.

Lemma rel_commit_to s i n c :
  node_rel s i n -> (commit_index_ n <= c)%N -> (c < N.of_nat (length (log_ n)))%N ->
  chosen s (current_term_ n) (take (N.to_nat c) (p_log s i)) ->
  node_rel s i (commit_to c n).
Proof.
  intros Hn Hle Hlt Hc. pose proof Hn as []. split; try done; [by apply inv_commit_to|].
  unfold commit_to. node_simpl. apply Forall_app. split; [done|].
  rewrite nr_log0, (inv_applied n nr_inv0). apply (publish_ok s (current_term_ n)).
  by replace (_ + _) with (N.to_nat c) by lia.
Qed.

Lemma quorum_size_members s i n :
  node_rel s i n -> quorum_size n = N.of_nat (size members / 2 + 1).
Proof.
  intros Hn. unfold quorum_size. rewrite (nr_members _ _ _ Hn). rewrite Nat2N.inj_add, Nat2N.inj_div. done.
Qed.

Lemma members_peers s i n :
  node_rel s i n -> members = {[i]} ∪ list_to_set (peers (config_ n)).
Proof.
  intros Hn. rewrite <- (nr_members _ _ _ Hn), (inv_members n (nr_inv _ _ _ Hn)).
  by rewrite (nr_id _ _ _ Hn).
Qed.

Lemma rel_member s i n : node_rel s i n -> i ∈ members.
Proof. intros Hn. rewrite (members_peers _ _ _ Hn). set_solver. Qed.

Lemma rel_peer s i n p : node_rel s i n -> p ∈ peers (config_ n) <-> p ∈ members /\ p <> i.
Proof.
  intros Hn. rewrite (members_peers _ _ _ Hn).
  pose proof (cfg_nodup _ (inv_config n (nr_inv _ _ _ Hn))) as [Hni _]%NoDup_cons.
  rewrite (nr_id _ _ _ Hn) in Hni. set_solver.
Qed.

(** The leader's counting finds a quorum of acknowledgements. *)
Lemma quorum_holds_chosen s i n c :
  node_rel s i n -> state_ n = leader -> quorum_holds c n ->
  chosen s (current_term_ n) (take (N.to_nat c) (p_log s i)).
Proof.
  intros Hn Hs [Hnew Hin (e & He & Hte) Hq].
  pose proof (nr_role _ _ _ Hn) as Hr. unfold role_rel in Hr. rewrite Hs in Hr.
  destruct Hr as (Ht & Hself & Hacks).
  set (R := replicas (match_index_ n) (peers (config_ n)) c) in *.
  pose proof (cfg_nodup _ (inv_config n (nr_inv _ _ _ Hn))) as [Hni Hnd]%NoDup_cons.
  rewrite (nr_id _ _ _ Hn) in Hni.
  assert (NoDup R) as HndR by (by apply NoDup_filter).
  assert (forall p, p ∈ R -> p ∈ peers (config_ n)) as HR
    by (intros p Hp; by apply list_elem_of_filter in Hp as [_ ?]).
  eapply (quorum_chosen members s i _ _ _ ({[i]} ∪ list_to_set R)); [done| | |].
  - split; [lia|]. exists e. split; [eapply log_entry; [done|lia|done]|done].
  - split.
    + rewrite (members_peers _ _ _ Hn). intros x. rewrite !elem_of_union, !elem_of_list_to_set.
      intros [?|Hx]; [by left|right; by apply HR].
    + rewrite size_union, size_singleton, list_to_set_size_nodup by (done || set_solver).
      rewrite (quorum_size_members _ _ _ Hn) in Hq. lia.
  - intros p [Hp%elem_of_singleton|Hp%elem_of_list_to_set]%elem_of_union.
    + subst p. rewrite (nr_log _ _ _ Hn) in Hin. simpl in Hin. lia.
    + pose proof (HR p Hp) as Hpp. apply list_elem_of_filter in Hp as [Hp _].
      destruct (match_index_ n !! p) as [m|] eqn:Hm; simpl in Hp; [|lia].
      specialize (Hacks p m Hpp Hm). lia.
Qed.

Lemma rel_maybe_committed s i n n1 :
  node_rel s i n -> state_ n = leader -> maybe_committed n n1 ->
  node_rel s i n1 /\ state_ n1 = leader.
Proof.
  intros Hn Hs [->|(c & Hc & ->)]; [done|]. split; [|done].
  pose proof (qh_new _ _ Hc). apply rel_commit_to; [done|lia|apply Hc|].
  by apply quorum_holds_chosen.
Qed.

(** ** Role changes *)

Lemma sim_become_follower s i n T nl :
  PInv s -> node_rel s i n -> is_u64 T ->
  wp (become_follower_locked T nl) n
    (fun _ n' => exists s', frame i s s' /\ node_rel s' i n' /\ state_ n' = follower /\
       current_term_ n' = N.max (current_term_ n) T) (lost s i).
Proof.
  intros Hs Hn HT. pose proof Hn as [].
  assert ((current_term_ n < T)%N -> p_vote s (i, T) = None) as Hnone.
  { intros Hlt. destruct (p_vote s (i, T)) as [v|] eqn:Hv; [|done].
    apply (pi_vote _ s Hs) in Hv. lia. }
  eapply wp_become_follower; [done|done|done| | |].
  - intros Hle t r Hd. exists s. split; [done|]. split; [|split; [done|unfold demoted; node_simpl; lia]].
    by eapply rel_volatile.
  - intros Hlt t r st Hd Hst.
    assert (p_term s i < T)%N as HT' by (by rewrite nr_term0).
    pose proof (adopt_frame s i T HT') as Hf.
    eexists. split; [exact Hf|]. split; [|split; [done|unfold demoted, adopt; node_simpl; lia]].
    destruct (frame_grows_inv _ _ _ Hs Hf) as [Hg _].
    eapply rel_moved; try done; unfold demoted, adopt; node_simpl; simpl.
    + by rewrite fn_lookup_insert.
    + by apply Hnone.
    + unfold persisted. node_simpl. by rewrite nr_log0.
    + eapply chosen_mono; [|by apply (chosen_grows _ s)]. lia.
  - intros Hlt f n' Hm Hd _.
    assert (p_term s i < T)%N as HT' by (by rewrite nr_term0).
    eapply lost_either; [exact Hn|by apply adopt_frame|done| |exact Hd].
    simpl. rewrite fn_lookup_insert, Hnone by done. done.
Qed.

(** A candidate with a majority of the votes leads its term. *)
Lemma candidate_may_lead s i n :
  PInv s -> node_rel s i n -> state_ n = candidate ->
  (quorum_size n <= N.of_nat (size (votes_received_ n)))%N ->
  may_lead members s i (current_term_ n) (p_log s i).
Proof.
  intros Hs Hn Hst Hq. pose proof (nr_role _ _ _ Hn) as Hr. unfold role_rel in Hr.
  rewrite Hst in Hr. destruct Hr as (Hc & Hv & Ht).
  assert (is_quorum (votes_received_ n)) as HQ.
  { split; [|rewrite (quorum_size_members _ _ _ Hn) in Hq; lia].
    intros v Hvv. apply Hv in Hvv. apply (pi_vote _ s Hs _ _ _ Hvv). }
  right. split; [|eauto].
  destruct (p_tlog s (current_term_ n)) as [[c L]|] eqn:E'; [|done].
  exfalso. pose proof (elected_unique _ s Hs _ _ _ _ _ E' HQ Hv). subst c. by apply (Ht L).
Qed.

Lemma sim_become_leader s i n :
  PInv s -> node_rel s i n -> state_ n = candidate ->
  (quorum_size n <= N.of_nat (size (votes_received_ n)))%N ->
  wp become_leader_locked n (fun _ n' => sim s i n') (lost s i).
Proof.
  intros Hs Hn Hst Hq. pose proof (candidate_may_lead s i n Hs Hn Hst Hq) as Hlead.
  pose proof Hn as []. set (e := mkEntry (current_term_ n) [] true).
  assert (frame i s (lead s i (current_term_ n) (p_log s i ++ [e]))) as Hf by (by apply lead_frame).
  destruct (frame_grows_inv _ _ _ Hs Hf) as [Hg Hs'].
  eapply wp_become_leader; [done|done| | |].
  - intros nx mt rq st n1 ms r np Hmaps Hd Hnp Hmc Hn1 Hms.
    assert (node_rel (lead s i (current_term_ n) (p_log s i ++ [e])) i (set_storage_ st np)) as Hr.
    { eapply (rel_moved s _ i n); [done|exact Hf|exact Hn|exact Hnp|..];
        unfold np, promoted; node_simpl; simpl; rewrite ?fn_lookup_insert; try done.
      - by rewrite nr_log0.
      - unfold persisted. node_simpl. rewrite nr_log0. simpl. by rewrite Hd.
      - rewrite take_app_le; [by apply (chosen_grows _ s)|].
        pose proof (inv_commit n nr_inv0) as Hc. rewrite nr_log0 in Hc. simpl in Hc. lia.
      - unfold role_rel. node_simpl. simpl. rewrite !fn_lookup_insert. split; [done|]. split; [done|].
        intros p m Hp. destruct (Hmaps p Hp) as [_ ->]. intros [= <-]. lia. }
    eapply sim_trans; [exact Hf|]. apply sim_refl.
    apply (rel_maybe_committed _ _ _ _ Hr) in Hmc as [Hr1 Hl1]; [|done].
    by apply rel_append_messages.
  - intros _ n' _ Hsto. by eapply lost_same.
  - intros f n' Hm Hd _. eapply lost_either; [exact Hn|exact Hf|done| |exact Hd].
    simpl. by rewrite fn_lookup_insert, nr_term0, nr_vote0.
Qed.

Lemma last_term_log n l e :
  log_ n = default_entry :: l -> last (log_ n) = Some e -> term e = last_term l.
Proof.
  intros -> He. unfold last_term. destruct l as [|a l]; [by injection He as <-|].
  change (last (default_entry :: a :: l)) with (last (a :: l)) in He. by rewrite He.
Qed.

Lemma sim_start_election s i n :
  PInv s -> node_rel s i n -> (current_term_ n < u64_max)%N ->
  wp start_election_locked n (fun _ n' => sim s i n') (lost s i).
Proof.
  intros Hs Hn Hmax. pose proof Hn as [].
  set (T := (current_term_ n + 1)%N).
  assert ((current_term_ n +u 1) = T) as HT by (by apply u64_add_small; lia).
  assert (p_term s i < T)%N as HTlt by lia.
  pose proof (campaign_frame s i T (rel_member _ _ _ Hn) HTlt) as Hf.
  destruct (frame_grows_inv _ _ _ Hs Hf) as [Hg Hs']. revert Hf Hg Hs'.
  set (s' := mkProtocol _ _ _ _ _ _). intros Hf Hg Hs'.
  assert (forall t r st, durable st = mkPersistent (current_term_ n +u 1) (Some (node_id (config_ n))) (p_log s i) ->
    node_inv (set_storage_ st (campaigning n t r)) ->
    node_rel s' i (set_storage_ st (campaigning n t r))) as Hrel.
  { intros t r st Hd Hinv.
    eapply (rel_moved s _ i n); [done|exact Hf|exact Hn|exact Hinv|..];
      unfold campaigning; node_simpl; simpl; rewrite ?HT, ?fn_lookup_insert; try done.
    - by rewrite nr_id0.
    - unfold persisted. node_simpl. rewrite nr_log0. simpl. by rewrite Hd, HT.
    - eapply chosen_mono; [|by apply (chosen_grows _ s)]. lia.
    - unfold role_rel. node_simpl. simpl. rewrite ?HT, ?fn_lookup_insert. split; [done|]. split.
      + intros v Hv. rewrite nr_id0 in Hv. apply elem_of_singleton in Hv as ->.
        by rewrite fn_lookup_insert.
      + intros L HL. apply (tlog_voter _ s Hs) in HL as [_ ?]. lia. }
  eapply wp_start_election; [done|done| | |].
  - intros t r st n1 Hd Hinv Hq.
    eapply wp_mono; [apply (sim_become_leader s' i n1 Hs' (Hrel t r st Hd Hinv))| |].
    + done.
    + unfold n1, campaigning at 2. node_simpl. rewrite size_singleton. exact Hq.
    + intros [] n2. by apply sim_trans.
    + intros f n2. by apply lost_trans.
  - intros t r st e n1 Hd Hinv He. exists s'. split; [done|]. apply rel_outbox; [by apply Hrel|].
    apply Forall_forall. intros m Hm. apply list_elem_of_fmap in Hm as (p & -> & Hp).
    unfold n1, campaigning; node_simpl. simpl. split; [done|]. split; [apply u64_add_is_u64|].
    simpl. rewrite nr_id0, HT, fn_lookup_insert. split; [done|]. exists (p_log s i). split; [done|].
    split; [|by eapply last_term_log]. etrans; [exact (inv_last _ Hinv)|]. unfold n1, campaigning; node_simpl.
    rewrite nr_log0. simpl. lia.
  - intros f n' Hm Hd _. eapply lost_either; [exact Hn|exact Hf|done| |exact Hd].
    simpl. by rewrite !fn_lookup_insert, HT, nr_id0.
Qed.

(** ** Votes *)

Lemma rel_response s i n sender r :
  node_rel s i n -> is_u64 (message_term (mkMessage i sender r)) -> rpc_ok s i sender r ->
  node_rel s i (set_outbox_ (outbox_ n ++ [mkMessage (node_id (config_ n)) sender r]) n).
Proof.
  intros Hn Hu Hr. apply rel_outbox; [done|]. rewrite (nr_id _ _ _ Hn).
  apply Forall_singleton. by split.
Qed.

(** The handler's test on the candidate's log is the protocol's. *)
Lemma candidate_current_up_to_date s i n q L :
  node_rel s i n -> candidate_current n q ->
  rv_last_log_index q = N.of_nat (length L) -> rv_last_log_term q = last_term L ->
  up_to_date L (p_log s i).
Proof.
  intros Hn (e & He & Hcur) Hi Ht. pose proof (nr_log _ _ _ Hn) as Hl.
  rewrite (last_term_log n _ e Hl He) in Hcur. rewrite Hi, Ht in Hcur.
  rewrite (inv_last n (nr_inv _ _ _ Hn)), Hl in Hcur. simpl in Hcur.
  destruct Hcur as [?|[? ?]]; [by left|right]. split; [done|lia].
Qed.

Lemma sim_request_vote s i n sender q :
  PInv s -> node_rel s i n -> sender ∈ peers (config_ n) -> (rv_term q <= current_term_ n)%N ->
  rpc_ok s sender i (VoteRequest q) ->
  wp (handle_request_vote_locked sender q) n (fun _ n' => sim s i n') (lost s i).
Proof.
  intros Hs Hn Hp Hterm (Hc & L & HL & Hi & Ht). pose proof Hn as [].
  pose proof (inv_term n nr_inv0) as Hu.
  assert ((current_term_ n <= rv_term q)%N -> candidate_current n q -> voted_for_ n = None ->
    frame i s (mkProtocol (p_term s) (<[(i, current_term_ n) := Some sender]> (p_vote s)) (p_log s)
               (p_clog s) (p_tlog s) (p_ack s))) as Hgrant.
  { intros Hle Hcur Hv. replace (rv_term q) with (current_term_ n) in HL by lia.
    eapply grant_frame; [by eapply rel_member|done|congruence|done|].
    by eapply candidate_current_up_to_date. }
  eapply wp_request_vote; [done|done|done| | |].
  - intros _. apply sim_refl. by apply rel_response.
  - intros _ Hle Hcur st t r [[Hv ->]|[Hv Hd]] n1 Hinv.
    + assert (node_rel s i n1) as Hr1.
      { eapply rel_volatile; try done. }
      apply sim_refl. change (outbox_ n) with (outbox_ n1). apply (rel_response _ _ n1); [done|done|].
      simpl. intros _. congruence.
    + specialize (Hgrant Hle Hcur Hv). eexists. split; [exact Hgrant|].
      destruct (frame_grows_inv _ _ _ Hs Hgrant) as [Hg _].
      change (outbox_ n) with (outbox_ n1). apply (rel_response _ _ n1); [|done|].
      * eapply (rel_moved s _ i n); [done|exact Hgrant|exact Hn|exact Hinv|..]; unfold n1, voted;
          node_simpl; simpl; rewrite ?fn_lookup_insert; try done.
        -- unfold persisted. node_simpl. rewrite nr_log0. by rewrite Hd.
        -- unfold role_rel in *. node_simpl. destruct (state_ n); [done| |done].
           simpl. destruct nr_role0 as (? & Hvs & ?). split; [done|]. split; [|done].
           intros v Hvv. by eapply (gr_vote _ _ Hg), Hvs.
      * simpl. intros _. by rewrite fn_lookup_insert.
  - intros _ Hle Hv Hcur f n' Hm Hd _ _.
    eapply lost_either; [exact Hn|by apply Hgrant|done| |exact Hd]. simpl.
    by rewrite nr_term0, fn_lookup_insert.
Qed.

Lemma sim_vote_response s i n sender q :
  PInv s -> node_rel s i n -> rpc_ok s sender i (VoteResponse q) ->
  wp (handle_request_vote_response_locked sender q) n (fun _ n' => sim s i n') (lost s i).
Proof.
  intros Hs Hn Hq. simpl in Hq. apply wp_vote_response; [intros _; by apply sim_refl|].
  intros Hst Ht Hg n1. assert (node_rel s i n1) as Hn1.
  { pose proof Hn as []. unfold n1. eapply rel_volatile; try done; [destruct nr_inv0; by constructor|].
    unfold role_rel in *. node_simpl. rewrite Hst in *. destruct nr_role0 as (? & Hv & ?).
    split; [done|]. split; [|done].
    intros v [->%elem_of_singleton|Hvv]%elem_of_union; [|by apply Hv]. rewrite <- Ht. by apply Hq. }
  split; [|intros _; by apply sim_refl]. intros Hsize. by apply sim_become_leader.
Qed.

(** ** Receiving entries *)

Lemma piece_entry L (p : nat) (es : list LogEntry) o b :
  take p L ++ es `prefix_of` L -> p <= length L -> es !! o = Some b -> L !! (p + o) = Some b.
Proof.
  intros He Hp Hb. eapply (prefix_lookup_Some (take p L ++ es)); [|exact He].
  rewrite lookup_app_r; rewrite length_take_le by done; [|lia]. by replace (p + o - p) with o by lia.
Qed.

Section receive.
Context (s : Protocol) (i : NodeId) (n : Node) (sender : NodeId) (q : AppendEntriesRequest).
Context (Hs : PInv s) (Hn : node_rel s i n) (Hpeer : sender ∈ peers (config_ n)).
Context (Hterm : ae_term q = current_term_ n) (Hq : rpc_ok s sender i (AppendRequest q)).
Abbreviation p := (N.to_nat (ae_previous_log_index q)).
Abbreviation es := (ae_entries q).

Lemma sender_not_self : i <> sender.
Proof. apply (rel_peer s i n) in Hpeer as [_ ?]; [|done]. congruence. Qed.

Lemma prev_matches_protocol L :
  prev_matches n q ->
  (ae_previous_log_index q = 0%N \/ exists b, L !! (p - 1) = Some b /\ term b = ae_previous_log_term q) ->
  p = 0 \/ exists a b, p_log s i !! (p - 1) = Some a /\ L !! (p - 1) = Some b /\ term a = term b.
Proof.
  intros [_ Hprev] Hb. destruct (decide (ae_previous_log_index q = 0%N)) as [->|Hne]; [by left|right].
  destruct Hprev as [?|(a & Ha & Hta)]; [done|]. destruct Hb as [?|(b & Hb & Htb)]; [done|].
  exists a, b. split; [eapply log_entry; [done|lia|done]|]. split; [done|congruence].
Qed.

(** Entries of the request and of the log with the same term at the same index
    are equal. *)
Lemma same_term_same_entry o a b :
  prev_matches n q -> log_ n !! (S p + o) = Some a -> es !! o = Some b -> term a = term b -> a = b.
Proof.
  intros Hpm Ha Hb Hab. destruct Hq as (_ & L & HL & Hp & He & Hprev & _). rewrite Hterm in HL.
  rewrite (nr_log _ _ _ Hn) in Ha. simpl in Ha.
  pose proof (piece_entry L p es o b He Hp Hb) as HLb.
  pose proof (term_agrees _ s Hs _ _ _ _ _ _ _ _ HL Ha HLb Hab (le_n _)). congruence.
Qed.

(** Below the commit index the terms agree as well. *)
Lemma committed_same_entry o a b :
  log_ n !! (S p + o) = Some a -> es !! o = Some b ->
  (N.of_nat (S p + o) <= commit_index_ n)%N -> a = b.
Proof.
  intros Ha Hb Hle. destruct Hq as (_ & L & HL & Hp & He & Hprev & _). rewrite Hterm in HL.
  rewrite (nr_log _ _ _ Hn) in Ha. simpl in Ha.
  pose proof (piece_entry L p es o b He Hp Hb) as HLb.
  assert (take (N.to_nat (commit_index_ n)) (p_log s i) `prefix_of` L) as Hpre.
  { eapply chosen_tlog; [exact Hs|apply (nr_chosen _ _ _ Hn)|exact HL|done]. }
  apply (take_prefix_lookup _ _ _ _ _ Ha) in Hpre; [congruence|lia].
Qed.

Lemma sim_append_from_leader :
  state_ n = follower -> Forall wf_entry es ->
  wp (append_from_leader sender q) n (fun _ n' => sim s i n') (lost s i).
Proof.
  intros Hst Hwf. pose proof Hn as []. pose proof (inv_term n nr_inv0) as Hu.
  destruct Hq as (Hid & L & HL & Hp & He & Hprev & Hlc & Hch & _). rewrite Hterm in HL, Hch.
  set (s' := mkProtocol (p_term s) (p_vote s) (<[i := merge (p_log s i) p es]> (p_log s))
    (p_clog s) (p_tlog s)
    (<[(i, current_term_ n) := Nat.max (p_ack s (i, current_term_ n)) (p + length es)]> (p_ack s))).
  assert (prev_matches n q -> frame i s s') as Hframe.
  { intros Hpm. eapply accept_frame; [by eapply rel_member|apply sender_not_self|done|done|done|done|].
    by apply prev_matches_protocol. }
  eapply wp_append_from_leader; [done|done|done|done| | | | |].
  - intros ci ct _. apply sim_refl. by apply rel_response.
  - intros Hpm (o & a & b & Ha & Hb & Hab & Hne). destruct Hne.
    rewrite nr_log0 in Ha. eapply same_term_same_entry; [done|by rewrite nr_log0|done|done].
  - intros _ n' _ Hsto. by eapply lost_same.
  - intros Hpm Hkeep st Hwhy n1 Hinv0 Hinv1. pose proof (Hframe Hpm) as Hf.
    destruct (frame_grows_inv _ _ _ Hs Hf) as [Hg Hs'].
    set (n0 := with_log n (merge (p_log s i) p es) st) in *.
    assert (take (p + length es) L `prefix_of` merge (p_log s i) p es) as Hholds.
    { eapply (accept_holds members s Hs i sender (current_term_ n) L p es); try done;
        [apply sender_not_self|by apply prev_matches_protocol]. }
    assert (p + length es <= length L) as HlenL.
    { apply prefix_length in He. by rewrite length_app, length_take_le in He. }
    assert (node_rel s' i n0) as Hn0.
    { eapply (rel_moved s _ i n); [done|exact Hf|exact Hn|exact Hinv0|..]; unfold n0, with_log;
        node_simpl; simpl; rewrite ?fn_lookup_insert; try done.
      - unfold persisted. node_simpl. simpl. destruct Hwhy as [[-> ->]|[_ Hd]]; [|done].
        unfold persisted in nr_durable0. by rewrite nr_durable0, nr_log0.
      - rewrite Hkeep. by apply (chosen_grows _ s).
      - unfold role_rel. node_simpl. by rewrite Hst. }
    assert (node_rel s' i n1) as Hn1.
    { unfold n1, follower_commit. destruct (N.ltb_spec (commit_index_ n0) (ae_leader_commit q)); [|done].
      pose proof (prefix_length _ _ Hholds) as Hlen. rewrite length_take_le in Hlen by done.
      assert (last_log_index n0 = N.of_nat (length (merge (p_log s i) p es))) as Hlast.
      { rewrite (inv_last n0 Hinv0). unfold n0, with_log. node_simpl. simpl. lia. }
      rewrite Hlast, N.min_l by lia.
      apply rel_commit_to; [done|lia| |].
      - unfold n0, with_log. node_simpl. simpl. lia.
      - unfold n0, with_log. node_simpl. simpl. rewrite fn_lookup_insert.
        rewrite (prefix_take_eq _ _ _ Hholds) by (rewrite length_take_le by done; lia).
        rewrite take_take, Nat.min_l by lia. by apply (chosen_grows _ s). }
    exists s'. split; [done|]. unfold acceptance. 
    assert (current_term_ n1 = current_term_ n) as Hcur.
    { unfold n1, follower_commit. by destruct (_ <? _)%N. }
    apply rel_response; [done| |]; simpl; rewrite Hcur; [done|]. intros _.
    rewrite fn_lookup_insert. lia.
  - intros Hpm _ f n' Hm Hd _ _. eapply lost_either; [exact Hn|by apply Hframe|done| |exact Hd].
    simpl. by rewrite nr_term0, nr_vote0, fn_lookup_insert.
Qed.
End receive.

Lemma sim_append_entries s i n sender q :
  PInv s -> node_rel s i n -> sender ∈ peers (config_ n) -> (ae_term q <= current_term_ n)%N ->
  rpc_ok s sender i (AppendRequest q) ->
  wp (handle_append_entries_locked sender q) n (fun _ n' => sim s i n') (lost s i).
Proof.
  intros Hs Hn Hp Hterm Hq. pose proof (inv_term n (nr_inv _ _ _ Hn)) as Hu.
  unfold handle_append_entries_locked. wp_steps.
  assert (forall ci ct, wp (reject sender q ci ct) n (fun _ n' => sim s i n') (lost s i)) as Hrej.
  { intros ci ct. apply wp_reject, sim_refl. by apply rel_response. }
  destruct (_ || _) eqn:Hb; [apply Hrej|].
  apply orb_false_iff in Hb as [_ Hge%N.ltb_ge].
  destruct (existsb _ _) eqn:Hv; [apply Hrej|].
  assert (is_u64 (ae_term q)) as Hu' by (unfold is_u64 in *; lia).
  pose proof (valid_entries_wf q Hu' Hv) as Hwf.
  wp_steps. destruct (bool_decide (state_ n <> follower) || _) eqn:Hfo.
  - eapply wp_mono; [by eapply sim_become_follower| |done].
    intros [] n1 (s1 & Hf & Hn1 & Hst & Ht). rewrite N.max_id in Ht.
    destruct (frame_grows_inv _ _ _ Hs Hf) as [Hg Hs1].
    eapply wp_mono; [apply (sim_append_from_leader s1 i n1); [done|done| | |by apply (rpc_ok_grows s)|done|done]| |].
    + apply (rel_peer _ _ _ _ Hn1). by apply (rel_peer _ _ _ _ Hn).
    + lia.
    + intros [] n2. by apply sim_trans.
    + intros f n2. by apply lost_trans.
  - apply orb_false_iff in Hfo as [Hst%bool_decide_eq_false _]. apply dec_stable in Hst.
    apply wp_reset; [apply (inv_config n), Hn|]. intros t r Htr.
    apply sim_append_from_leader; try done; [|node_simpl; lia].
    eapply rel_volatile; try done; [by apply inv_reset, Hn|].
    unfold role_rel. node_simpl. by rewrite Hst.
Qed.

(** ** Receiving answers *)

Lemma rel_acked s i n p m m' k :
  PInv s -> node_rel s i n -> state_ n = leader -> match_index_ n !! p = Some m ->
  p ∈ peers (config_ n) -> N.to_nat m' <= p_ack s (p, current_term_ n) ->
  node_inv (acked n p m' k) -> node_rel s i (acked n p m' k).
Proof.
  intros Hs Hn Hst Hm Hp Hack Hinv. eapply (rel_volatile s i n); try done.
  pose proof (nr_role _ _ _ Hn) as Hr. unfold role_rel, acked in *. node_simpl. rewrite Hst in *.
  destruct Hr as (Ht & Hl & Ha). split; [done|]. split; [done|]. intros x mx Hx Hmx.
  destruct (decide (p = x)) as [<-|Hne].
  - rewrite lookup_insert_eq in Hmx. by injection Hmx as <-.
  - rewrite lookup_insert_ne in Hmx by done. by apply Ha.
Qed.

Lemma rel_request_id s i n r : PInv s -> node_rel s i n -> node_rel s i (set_append_request_id_ r n).
Proof.
  intros Hs Hn. eapply rel_volatile; try done; [destruct (nr_inv _ _ _ Hn); by constructor|apply Hn].
Qed.

Lemma leader_acks s i n p m :
  node_rel s i n -> state_ n = leader -> p ∈ peers (config_ n) -> match_index_ n !! p = Some m ->
  N.to_nat m <= p_ack s (p, current_term_ n).
Proof.
  intros Hn Hst. pose proof (nr_role _ _ _ Hn) as Hr. unfold role_rel in Hr. rewrite Hst in Hr.
  destruct Hr as (_ & _ & Ha). apply Ha.
Qed.

Lemma sim_append_response s i n sender q :
  PInv s -> node_rel s i n -> sender ∈ peers (config_ n) ->
  rpc_ok s sender i (AppendResponse q) ->
  wp (handle_append_entries_response_locked sender q) n (fun _ n' => sim s i n') (lost s i).
Proof.
  intros Hs Hn Hp Hq. simpl in Hq. pose proof (nr_inv _ _ _ Hn) as Hinv.
  unfold handle_append_entries_response_locked. wp_steps.
  destruct (_ || _) eqn:Hb; [wp_steps; by apply sim_refl|].
  apply orb_false_iff in Hb as [Hst%bool_decide_eq_false Ht%negb_false_iff%N.eqb_eq].
  apply dec_stable in Hst. destruct (aer_success q).
  - apply wp_append_success; [done|done|done|intros _; by apply sim_refl|].
    intros Hle m k n2 ms rq Hm n1 Hinv1 Hmc _ Hms _.
    assert (node_rel s i n1) as Hn1.
    { eapply rel_acked; [done|done|done|exact Hm|done| |exact Hinv1].
      pose proof (leader_acks _ _ _ _ _ Hn Hst Hp Hm). rewrite <- Ht in *.
      specialize (Hq eq_refl). lia. }
    apply (rel_maybe_committed _ _ _ _ Hn1) in Hmc as [Hn2 Hl2]; [|done].
    apply sim_refl. by apply rel_append_messages.
  - apply wp_append_failure; [done|done|done| |].
    + intros _ rq. apply sim_refl. by apply rel_request_id.
    + intros m k0 msg rq rq' Hm _ n1 Hinv1 Hmsg _ _. apply sim_refl.
      assert (node_rel s i (set_append_request_id_ rq' n)) as Hn' by (by apply rel_request_id).
      assert (node_rel s i n1) as Hn1.
      { eapply (rel_acked s i _ sender m); [done|exact Hn'|done|done|done| |exact Hinv1].
        by eapply leader_acks. }
      apply rel_append_messages; [done|done|]. by apply Forall_singleton.
Qed.

(** ** The public methods *)

Lemma sim_step s i n m :
  PInv s -> node_rel s i n -> msg_ok s m ->
  wp (step_locked m) n (fun _ n' => sim s i n') (lost s i).
Proof.
  intros Hs Hn [Hu Hm]. unfold step_locked. wp_steps.
  destruct (negb _ || _) eqn:Hguard; [wp_steps; by apply sim_refl|].
  apply orb_false_iff in Hguard as [Hto%negb_false_iff%N.eqb_eq Hp%negb_false_iff%is_peer_spec]; [|apply Hn].
  rewrite (nr_id _ _ _ Hn) in Hto. rewrite Hto in Hm. wp_steps.
  apply (wp_mono _ _ (fun _ n1 => exists s1, frame i s s1 /\ node_rel s1 i n1 /\
    config_ n1 = config_ n /\ (message_term m <= current_term_ n1)%N) _ (lost s i)); [| |done].
  { apply wp_when; intros Hb.
    - apply N.ltb_lt in Hb.
      pose proof (ok_become_follower n (message_term m) None (nr_inv _ _ _ Hn) Hu) as H1.
      pose proof (sim_become_follower s i n (message_term m) None Hs Hn Hu) as H2.
      unfold wp in *. destruct (become_follower_locked _ _ n) as [n1 [[]|f|]]; [|done|done].
      destruct H1 as ((_ & _ & Hev) & _). destruct H2 as (s1 & Hf & Hn1 & _ & Ht).
      exists s1. split; [done|]. split; [done|]. split; [apply (ev_config _ _ Hev)|lia].
    - apply N.ltb_ge in Hb. exists s. by split_and!. }
  intros [] n1 (s1 & Hf & Hn1 & Hcf & Hle). rewrite <- Hcf in Hp.
  destruct (frame_grows_inv _ _ _ Hs Hf) as [Hg Hs1].
  pose proof (rpc_ok_grows _ _ _ _ _ Hs Hg Hm) as Hm1.
  wp_steps. unfold message_term in Hle.
  eapply (wp_mono _ _ (fun _ n' => sim s1 i n') _ (lost s1 i));
    [|intros [] n2; wp_steps; by apply sim_trans|intros f n2; by apply lost_trans].
  destruct (rpc m) as [r|r|r|r] eqn:Hrpc.
  - by apply sim_request_vote.
  - by apply sim_vote_response.
  - by apply sim_append_entries.
  - by apply sim_append_response.
Qed.

Lemma sim_tick s i n elapsed :
  PInv s -> node_rel s i n -> (current_term_ n < u64_max)%N ->
  wp (tick elapsed) n (fun _ n' => sim s i n') (lost s i).
Proof.
  intros Hs Hn Hmax. pose proof (nr_inv _ _ _ Hn) as Hinv. unfold tick.
  destruct (Z.ltb_spec elapsed 0) as [|Hpos]; wp_steps; [by eapply lost_same|].
  pose proof (inv_config n Hinv) as []. pose proof (inv_heartbeat n Hinv).
  pose proof (inv_election n Hinv). pose proof (inv_timeout n Hinv).
  destruct (decide (state_ n = leader)) as [Hst|Hst]; wp_steps.
  - apply wp_i64_sub; [unfold is_i64; lia|].
    destruct (Z.leb_spec (heartbeat_interval (config_ n) - heartbeat_elapsed_ n) elapsed); wp_steps.
    + assert (node_inv (set_heartbeat_elapsed_ 0 n)) as Hinv1
        by (destruct Hinv; constructor; node_simpl; auto; lia).
      assert (node_rel s i (set_heartbeat_elapsed_ 0 n)) as Hn1.
      { eapply rel_volatile; try done. apply Hn. }
      apply wp_broadcast; [done|done|]. intros ms r Hms _. apply sim_refl.
      by apply rel_append_messages.
    + apply wp_i64_add; [unfold is_i64; lia|]. wp_steps. apply sim_refl.
      eapply rel_volatile; try done; [destruct Hinv; constructor; node_simpl; auto; lia|apply Hn].
  - apply wp_i64_sub; [unfold is_i64; lia|].
    destruct (Z.leb_spec (election_timeout_ n - election_elapsed_ n) elapsed); wp_steps.
    + by apply sim_start_election.
    + apply wp_i64_add; [unfold is_i64; lia|]. wp_steps. apply sim_refl.
      eapply rel_volatile; try done; [destruct Hinv; constructor; node_simpl; auto; lia|apply Hn].
Qed.

Lemma sim_propose s i n cmd :
  PInv s -> node_rel s i n -> wp (propose cmd) n (fun _ n' => sim s i n') (lost s i).
Proof.
  intros Hs Hn. pose proof Hn as []. unfold propose. wp_steps.
  destruct (decide (state_ n <> leader)) as [Hst|Hst]; wp_steps; [by apply sim_refl|].
  apply dec_stable in Hst. destruct (_ =? _)%N; wp_steps; [by eapply lost_same|].
  unfold log_push_back. wp_steps.
  destruct (N.ltb_spec (N.of_nat (length (log_ n))) vector_max) as [Hlt|]; wp_steps; [|by eapply lost_same].
  set (e := mkEntry (current_term_ n) cmd false).
  pose proof (inv_push_back n e nr_inv0 (inv_term n nr_inv0) Hlt) as Hinv1.
  pose proof nr_role0 as Hr. unfold role_rel in Hr. rewrite Hst in Hr. destruct Hr as (Ht & Hack & Hm).
  assert (frame i s (lead s i (current_term_ n) (p_log s i ++ [e]))) as Hf
    by (apply lead_frame; [done|done|done|by left|done]).
  destruct (frame_grows_inv _ _ _ Hs Hf) as [Hg Hs'].
  eapply (inv_persist _ _ _ (p_log s i ++ [e])); [done|by node_simpl; rewrite nr_log0| |].
  - intros st Hd Hinv2. unfold last_log_index_locked. wp_steps.
    assert (node_rel (lead s i (current_term_ n) (p_log s i ++ [e])) i
      (set_storage_ st (set_log_ (log_ n ++ [e]) n))) as Hn2.
    { eapply (rel_moved s _ i n); [done|exact Hf|exact Hn|exact Hinv2|..]; node_simpl; simpl;
        rewrite ?fn_lookup_insert; try done.
      - by rewrite nr_log0.
      - unfold persisted. node_simpl. rewrite nr_log0. by rewrite Hd.
      - rewrite take_app_le; [by apply (chosen_grows _ s)|].
        pose proof (inv_commit n nr_inv0) as Hc. rewrite nr_log0 in Hc. simpl in Hc. lia.
      - unfold role_rel. node_simpl. rewrite Hst. simpl. rewrite !fn_lookup_insert.
        split; [done|]. split; [done|]. intros p m Hp Hpm.
        etrans; [by apply (Hm p)|apply (gr_ack _ _ Hg)]. }
    eapply wp_mono; [|intros b n1 Hb; apply wp_bind; exact Hb|intros f n1 Hx; exact Hx].
    apply wp_commit_and_broadcast; [done|done|].
    intros n1 ms r Hmc Hinv3 Hms _. wp_steps. eexists. split; [exact Hf|].
    apply (rel_maybe_committed _ _ _ _ Hn2) in Hmc as [Hn3 Hl3]; [|done].
    by apply rel_append_messages.
  - intros f st Hmed Hd _. eapply lost_either; [exact Hn|exact Hf|exact Hmed| |exact Hd].
    simpl. by rewrite fn_lookup_insert, nr_term0, nr_vote0.
Qed.

Lemma extract_answer_Forall (P : Message -> Prop) m before new a rest :
  extract_answer m before new = Some (a, rest) -> Forall P before -> Forall P new ->
  P a /\ Forall P rest.
Proof.
  revert before. induction new as [|x new IH]; intros before; simpl; [done|].
  intros Hx Hb [Hpx Hpn]%Forall_cons. destruct (answers m x).
  - injection Hx as <- <-. split; [done|]. by apply Forall_app.
  - eapply IH; [exact Hx| |done]. apply Forall_app. by split; [|apply Forall_singleton].
Qed.

Lemma rel_set_outbox s i n ms :
  node_rel s i n -> Forall (fun m => from m = i /\ msg_ok s m) ms -> node_rel s i (set_outbox_ ms n).
Proof. intros [] Hms. split; try done. by apply inv_sent. Qed.

Lemma sim_handle_request s i n m :
  PInv s -> node_rel s i n -> msg_ok s m ->
  wp (handle_request m) n
    (fun r n' => exists s', frame i s s' /\ node_rel s' i n' /\
       forall a, r = Some a -> from a = i /\ msg_ok s' a)
    (lost s i).
Proof.
  intros Hs Hn Hm. unfold handle_request.
  assert (wp (n ← get;
    let first_new_message := length (outbox_ n) in
    accepted ← step_locked m;
    if (accepted : bool) then
      n ← get;
      match extract_answer m (take first_new_message (outbox_ n))
              (drop first_new_message (outbox_ n)) with
      | Some (response, rest) => modify (set_outbox_ rest);; mret (Some response)
      | None => mret None
      end
    else mret None) n
    (fun r n' => exists s', frame i s s' /\ node_rel s' i n' /\
       forall a, r = Some a -> from a = i /\ msg_ok s' a) (lost s i)) as Hgo.
  { wp_steps. eapply wp_mono; [by apply (sim_step s)| |done].
    intros [] n1 (s1 & Hf & Hn1); wp_steps; [|exists s1; by split_and!].
    destruct (extract_answer _ _ _) as [[a rest]|] eqn:Hx; wp_steps; [|exists s1; by split_and!].
    apply (extract_answer_Forall (fun m => from m = i /\ msg_ok s1 m)) in Hx as [Ha Hrest].
    - exists s1. split; [done|]. split; [by apply rel_set_outbox|]. by intros ? [= <-].
    - apply Forall_take, Hn1.
    - apply Forall_drop, Hn1. }
  destruct (rpc m); try exact Hgo; wp_steps; by eapply lost_same.
Qed.

(** ** Restart *)

Lemma check_log_good current prev l :
  sorted l -> terms_le current l -> (forall e, l !! 0 = Some e -> (prev <= term e)%N) ->
  check_log current prev l = Ret tt.
Proof.
  revert prev. induction l as [|e l IH]; intros prev Hso Hle Hprev; simpl; [done|].
  specialize (Hprev e eq_refl). pose proof (Hle 0 e eq_refl) as He.
  destruct (N.eqb_spec (term e) 0); [lia|]. destruct (N.ltb_spec current (term e)); [lia|].
  destruct (N.ltb_spec (term e) prev); [lia|]. simpl. apply IH.
  - intros a b x y Hab Hx Hy. apply (Hso (S a) (S b)); [lia|done|done].
  - intros k x Hx. by apply (Hle (S k)).
  - intros x Hx. apply (Hso 0 1); [lia|done|done].
Qed.

(** The state a stopped node left is always accepted by the constructor. *)
Lemma restart_rel s i st cfg :
  PInv s -> down_rel s i st -> storage_inv st ->
  config_typed cfg -> validate_config cfg = Ret tt -> node_id cfg = i ->
  {[node_id cfg]} ∪ list_to_set (peers cfg) = members ->
  (N.of_nat (S (length (ps_log (durable st)))) <= vector_max)%N ->
  exists n : Node, make_node cfg (Some st) = Ret n /\ node_rel s i n.
Proof.
  intros Hs [Hmed Hd] Hinv Hty Hval Hid Hmem Hlen.
  pose proof (make_node_cases (E:=E) cfg st Hty Hinv) as Hcases.
  assert (exists n : Node, make_node cfg (Some st) = Ret n) as [n Hmk].
  { unfold make_node in *. rewrite Hval in *. simpl in *. rewrite storage_load_spec in * by done.
    simpl in *. rewrite Hmem in *.
    assert (match ps_voted_for (durable st) with
            | Some v => bool_decide (v ∈ members) | None => true end = true) as Hvote.
    { rewrite Hd. simpl. destruct (p_vote s (i, p_term s i)) as [v|] eqn:Hv; [|done].
      apply bool_decide_eq_true. apply (pi_vote _ s Hs) in Hv as (_ & _ & L & HL).
      apply (pi_clog _ s Hs) in HL as [Hvv _]. apply (pi_vote _ s Hs _ _ _ Hvv). }
    rewrite Hvote in *. simpl in *.
    destruct (pi_log _ s Hs i) as (_ & Hso & Hle).
    assert (check_log (ps_current_term (durable st)) 0 (ps_log (durable st)) = Ret tt) as Hcl
      by (apply check_log_good; rewrite ?Hd; [done|done|intros; lia]).
    rewrite Hcl in *. simpl in *.
    destruct (N.ltb_spec vector_max (N.of_nat (S (length (ps_log (durable st)))))); [lia|].
    unfold exec, reset_election_timeout_locked, mbind, M_bind, get in *. simpl in *.
    destruct (_ <? _)%Z; [done|by eexists]. }
  rewrite Hmk in Hcases. destruct Hcases as (Hni & Hper & Hcf & Hst & Hfo & Hci & Hout & Hce).
  exists n. split; [done|]. unfold persisted in Hper. rewrite Hst, Hd in Hper.
  injection Hper as HT Hv Hl. destruct (inv_log n Hni) as (l & Hlog & _).
  split; try done.
  - by rewrite Hcf.
  - by rewrite (inv_members n Hni), Hcf.
  - by rewrite <- HT.
  - by rewrite Hlog, Hl, Hlog.
  - unfold persisted. by rewrite Hst, Hd, <- HT, <- Hv, <- Hl.
  - rewrite Hci. by left.
  - unfold role_rel. by rewrite Hfo.
  - by rewrite Hout.
  - by rewrite Hce.
Qed.
End simulation.
