(* ===== verification/RaftCluster.v ===== *)
(** * A cluster of Raft nodes

    The members of one cluster, each either a running [RaftNode] or a stopped
    process of which only the storage is left, and a network that delivers any
    message ever sent, at any time, any number of times, to anyone.  An event is
    one call of a public method of [raft_node.cpp] on one node, the death of a
    process, or a restart; a call that throws or dies stops its node, which
    keeps what the storage holds.

    The cluster refines the protocol of [RaftProtocol]; the theorems at the end
    are the safety properties of Raft for the code as it is written. *)

From Stdlib Require Import NArith ZArith Lia.
From stdpp Require Import base tactics numbers list gmap functions relations strings.
From S2P Require Import Prelude RaftTypes RaftLog RaftNode RaftBehaviour RaftInvariant.
From S2P Require Import RaftProtocol RaftSimulation.

Open Scope ftkv_scope.

(** ** The system *)

Inductive Slot (St E : Type) :=
| Up (n : RaftNode St E)
| Down (st : St).
Arguments Up {St E} n.
Arguments Down {St E} st.

Record Cluster (St E : Type) := mkCluster {
  slots : NodeId -> Slot St E;
  network : list Message;
  published : list (NodeId * CommittedEntry)
}.
Arguments mkCluster {St E} slots network published.
Arguments slots {St E} c _.
Arguments network {St E} c.
Arguments published {St E} c.

Inductive Event :=
| Do (i : NodeId) (call : Call)
| Kill (i : NodeId)
| Restart (i : NodeId).

Definition event_node (e : Event) : NodeId :=
  match e with Do i _ | Kill i | Restart i => i end.

(** One configuration per member, as the constructor of [RaftNode] wants it. *)
Record cluster_config (members : gset NodeId) (config : NodeId -> RaftConfig) : Prop := {
  cc_id : forall i, i ∈ members -> node_id (config i) = i;
  cc_members : forall i, i ∈ members ->
    {[node_id (config i)]} ∪ list_to_set (peers (config i)) = members;
  cc_typed : forall i, i ∈ members -> config_typed (config i);
  cc_valid : forall i, i ∈ members -> validate_config (config i) = Ret tt
}.

Section cluster.
Context {St E : Type} `{HSt : RaftStorage St} `{HE : RandomEngine E}.
Context (members : gset NodeId) (config : NodeId -> RaftConfig).
Abbreviation Node := (RaftNode St E).
Abbreviation Cluster := (Cluster St E).
Implicit Types (n : Node) (c : Cluster) (i j : NodeId).

(** A call with what it hands to the transport and to the state machine. *)
Definition call_io (call : Call) : M Node (list Message * list CommittedEntry) :=
  match call with
  | Tick elapsed => tick elapsed;; mret ([], [])
  | Step m => _ ← step m; mret ([], [])
  | HandleRequest m => r ← handle_request m; mret (option_list r, [])
  | Propose cmd => _ ← propose cmd; mret ([], [])
  | TakeMessages => ms ← take_messages; mret (ms, [])
  | TakeCommittedEntries => es ← take_committed_entries; mret ([], es)
  end.

(** Only messages that were sent are delivered, and the election counter has
    not reached the end of its 64 bits. *)
Definition call_enabled (call : Call) n (net : list Message) : bool :=
  match call with
  | Tick _ => (current_term_ n <? u64_max)%N
  | Step m | HandleRequest m => bool_decide (m ∈ net)
  | _ => true
  end.

Definition enabled (e : Event) c : bool :=
  bool_decide (event_node e ∈ members) &&
  match e, slots c (event_node e) with
  | Do _ call, Up n => call_enabled call n (network c)
  | Kill _, Up _ => true
  | Restart _, Down _ => true
  | _, _ => false
  end.

Definition set_slot i (x : Slot St E) c : Cluster :=
  mkCluster (<[i := x]> (slots c)) (network c) (published c).

(** [None] is undefined behaviour, or an event that is not enabled. *)
Definition apply_event (e : Event) c : option Cluster :=
  if enabled e c then
    match e, slots c (event_node e) with
    | Do i call, Up n =>
      match call_io call n with
      | (n', Ret (ms, ces)) =>
          Some (mkCluster (<[i := Up n']> (slots c)) (network c ++ ms) (published c ++ (pair i <$> ces)))
      | (n', Fail _) => Some (set_slot i (Down (storage_ n')) c)
      | (_, Undefined) => None
      end
    | Kill i, Up n => Some (set_slot i (Down (storage_ n)) c)
    | Restart i, Down st =>
      match storage_reopen st with
      | (st', Ret _) =>
        match make_node (config i) (Some st') with
        | Ret n => Some (set_slot i (Up n) c)
        | Fail _ => Some (set_slot i (Down st') c)
        | Undefined => None
        end
      | (st', Fail _) => Some (set_slot i (Down st') c)
      | (_, Undefined) => None
      end
    | _, _ => None
    end
  else None.

Definition cstep c c' : Prop := exists e, apply_event e c = Some c'.

Fixpoint run_events (es : list Event) c : option Cluster :=
  match es with
  | [] => Some c
  | e :: es => c' ← apply_event e c; run_events es c'
  end.

Lemma run_events_steps es c c' : run_events es c = Some c' -> rtc cstep c c'.
Proof.
  revert c. induction es as [|e es IH]; intros c; simpl.
  - by intros [= <-].
  - destruct (apply_event e c) as [c1|] eqn:He; [|done]. intros Hr.
    eapply rtc_l; [by exists e|by apply IH].
Qed.

(** ** Refinement *)

Context `{HSpec : !RaftStorageSpec St}.

(** Every process is stopped and every storage is new. *)
Definition initial c : Prop :=
  network c = [] /\ published c = [] /\
  forall i, i ∈ members -> exists st, slots c i = Down st /\ medium_ok st /\
    durable st = default_persistent.

Definition reachable c : Prop := exists c0, initial c0 /\ rtc cstep c0 c.

Definition slot_rel (s : Protocol) i (x : Slot St E) : Prop :=
  match x with
  | Up n => node_rel members s i n
  | Down st => down_rel s i st
  end.

Record cluster_rel (s : Protocol) c : Prop := {
  cr_inv : PInv members s;
  cr_slots : forall i, i ∈ members -> slot_rel s i (slots c i);
  cr_network : Forall (msg_ok members s) (network c);
  cr_published : Forall (fun x => entry_ok members s x.2) (published c)
}.

Lemma initial_rel c : initial c -> cluster_rel pinit c.
Proof.
  intros (Hn & Hp & Hs). split; [apply pinit_inv| |by rewrite Hn|by rewrite Hp].
  intros i Hi. destruct (Hs i Hi) as (st & -> & Hm & Hd). split; [done|]. by rewrite Hd.
Qed.

(** One node moved; everything else follows. *)
Lemma cluster_moved s s' c i x ms ces :
  cluster_rel s c -> frame members i s s' -> slot_rel s' i x ->
  Forall (msg_ok members s') ms -> Forall (entry_ok members s') ces ->
  cluster_rel s' (mkCluster (<[i := x]> (slots c)) (network c ++ ms) (published c ++ (pair i <$> ces))).
Proof.
  intros [Hs Hsl Hnet Hpub] Hf Hx Hms Hces. destruct (frame_grows_inv _ _ _ _ Hs Hf) as [Hg Hs'].
  split; [done|..]; simpl.
  - intros j Hj. destruct (decide (i = j)) as [<-|Hne]; [by rewrite fn_lookup_insert|].
    rewrite fn_lookup_insert_ne by done. specialize (Hsl j Hj).
    destruct (slots c j); simpl in *; [by apply (node_frame _ i j s)|by apply (down_frame members i j s)].
  - apply Forall_app. split; [|done]. eapply Forall_impl; [exact Hnet|]. intros m. by apply (msg_ok_grows _ s).
  - apply Forall_app. split.
    + eapply Forall_impl; [exact Hpub|]. intros ce. by apply (entry_ok_grows _ s).
    + by apply Forall_fmap.
Qed.

Lemma cluster_slot s s' c i x :
  cluster_rel s c -> frame members i s s' -> slot_rel s' i x ->
  cluster_rel s' (set_slot i x c).
Proof.
  intros Hc Hf Hx. pose proof (cluster_moved s s' c i x [] [] Hc Hf Hx) as H.
  rewrite !app_nil_r in H. by apply H.
Qed.

(** A call with its outputs, against the protocol. *)
Lemma sim_call s i n call net :
  PInv members s -> node_rel members s i n -> Forall (msg_ok members s) net ->
  call_enabled call n net = true ->
  wp (call_io call) n
    (fun r n' => exists s', frame members i s s' /\ node_rel members s' i n' /\
       Forall (msg_ok members s') r.1 /\ Forall (entry_ok members s') r.2)
    (lost members s i).
Proof.
  intros Hs Hn Hnet He.
  assert (forall m, bool_decide (m ∈ net) = true -> msg_ok members s m) as Hmsg.
  { intros m Hm%bool_decide_eq_true. by eapply Forall_forall in Hnet. }
  destruct call as [el|m|m|cmd| |]; simpl in *; unfold step.
  - apply N.ltb_lt in He. wp_steps. eapply wp_mono; [by apply (sim_tick members s)| |done].
    intros [] n' (s' & Hf & Hn'). wp_steps. exists s'. by split_and!.
  - wp_steps. eapply wp_mono; [apply (sim_step members s i); auto| |done].
    intros b n' (s' & Hf & Hn'). wp_steps. exists s'. by split_and!.
  - wp_steps. eapply wp_mono; [apply (sim_handle_request members s i); auto| |done].
    intros r n' (s' & Hf & Hn' & Hr). wp_steps. exists s'. split; [done|]. split; [done|].
    split; [|done]. destruct r as [a|]; simpl; [|done]. apply Forall_singleton. by apply Hr.
  - wp_steps. eapply wp_mono; [by apply (sim_propose members s)| |done].
    intros r n' (s' & Hf & Hn'). wp_steps. exists s'. by split_and!.
  - unfold take_messages. wp_steps. exists s. split; [done|]. split; [by apply rel_set_outbox|].
    split; [|done]. eapply Forall_impl; [apply Hn|]. by intros m [_ ?].
  - unfold take_committed_entries. wp_steps. exists s. split; [done|].
    split; [|split; [done|apply Hn]]. pose proof (nr_inv members s i n Hn) as Hinv.
    destruct Hn. split; try done. destruct Hinv; by constructor.
Qed.

Context (Hconfig : cluster_config members config).

Lemma restart_outcome s i st :
  PInv members s -> i ∈ members -> down_rel s i st -> storage_inv st ->
  match make_node (config i) (Some st) with
  | Ret n => node_rel members s i (n : Node)
  | Fail _ => True
  | Undefined => False
  end.
Proof.
  intros Hs Hi Hd Hst.
  destruct (decide (N.of_nat (S (length (ps_log (durable st)))) <= vector_max)%N) as [Hle|Hgt].
  - destruct (restart_rel (E:=E) members s i st (config i)) as (n & -> & Hn); try done; by apply Hconfig.
  - pose proof (make_node_cases (E:=E) (config i) st (cc_typed _ _ Hconfig i Hi) Hst) as Hc.
    destruct (make_node (config i) (Some st)) as [n|f|]; [|done|done]. exfalso.
    destruct Hc as (Hn & Hp & _ & Hsto & _). pose proof (inv_length n Hn) as Hlen.
    destruct (inv_log n Hn) as (l & Hl & _). unfold persisted in Hp. rewrite Hsto, Hl in Hp.
    rewrite Hp in Hgt. rewrite Hl in Hlen. simpl in Hgt, Hlen. lia.
Qed.

(** Every enabled event has a defined outcome, and it is a run of the protocol. *)
Lemma event_refines s c e :
  cluster_rel s c -> enabled e c = true ->
  exists c' s', apply_event e c = Some c' /\ rtc (pstep members) s s' /\ cluster_rel s' c'.
Proof.
  intros Hc He. unfold apply_event. rewrite He. unfold enabled in He.
  apply andb_true_iff in He as [Hi%bool_decide_eq_true He].
  pose proof (cr_slots _ _ Hc _ Hi) as Hslot. pose proof (cr_inv _ _ Hc) as Hs.
  destruct e as [i call|i|i]; simpl in *; destruct (slots c i) as [n|st]; try done; simpl in Hslot.
  - pose proof (sim_call s i n call (network c) Hs Hslot (cr_network _ _ Hc) He) as Hcall.
    unfold wp in Hcall. destruct (call_io call n) as [n' [[ms ces]|f|]]; [| |done].
    + destruct Hcall as (s' & Hf & Hn' & Hms & Hces). eexists _, s'. split; [done|].
      split; [apply Hf|]. by apply cluster_moved with s.
    + destruct Hcall as (s' & Hf & Hd). eexists _, s'. split; [done|].
      split; [apply Hf|]. by apply cluster_slot with s.
  - eexists _, s. split; [done|]. split; [done|]. apply cluster_slot with s; [done|done|].
    by apply (rel_down members).
  - destruct Hslot as [Hmed Hd]. pose proof (storage_reopen_spec st Hmed) as Hre. unfold wp in Hre.
    destruct (storage_reopen st) as [st' [[]|f|]]; [| |done].
    + destruct Hre as [Hinv Hd']. rewrite Hd in Hd'.
      assert (down_rel s i st') as Hdown by (split; [by apply storage_inv_medium|done]).
      pose proof (restart_outcome s i st' Hs Hi Hdown Hinv) as Hmk.
      destruct (make_node (config i) (Some st')) as [n|f|]; [| |done].
      * eexists _, s. split; [done|]. split; [done|]. by apply cluster_slot with s.
      * eexists _, s. split; [done|]. split; [done|]. by apply cluster_slot with s.
    + destruct Hre as [Hmed' Hd']. eexists _, s. split; [done|]. split; [done|].
      apply cluster_slot with s; [done|done|]. split; [done|]. by rewrite Hd'.
Qed.

Lemma enabled_applied e c c' : apply_event e c = Some c' -> enabled e c = true.
Proof. unfold apply_event. by destruct (enabled e c). Qed.

Lemma steps_refine s c c' :
  cluster_rel s c -> rtc cstep c c' -> exists s', rtc (pstep members) s s' /\ cluster_rel s' c'.
Proof.
  intros Hc Hr. revert s Hc. induction Hr as [c|c c1 c2 [e He] _ IH]; intros s Hc; [by exists s|].
  destruct (event_refines s c e Hc (enabled_applied _ _ _ He)) as (c' & s1 & He' & Hs1 & Hc1).
  rewrite He in He'. injection He' as <-. destruct (IH s1 Hc1) as (s2 & Hs2 & Hc2).
  exists s2. split; [by etrans|done].
Qed.

Lemma reachable_rel c : reachable c -> exists s, rtc (pstep members) pinit s /\ cluster_rel s c.
Proof. intros (c0 & Hi & Hr). by apply (steps_refine pinit c0); [apply initial_rel|]. Qed.
End cluster.
