(* ===== verification/RaftSafety.v ===== *)
(** * Safety of the cluster

    The classical safety properties of Raft for the clusters of [RaftCluster],
    whose members run the modelled [raft_node.cpp]; each with a concrete
    three-node run in which its hypotheses hold. *)

From Stdlib Require Import NArith ZArith Lia.
From stdpp Require Import base tactics numbers list gmap functions relations strings.
From S2P Require Import Prelude RaftTypes RaftLog RaftNode RaftBehaviour RaftInvariant.
From S2P Require Import RaftProtocol RaftSimulation RaftCluster.

(** ** A concrete cluster *)

Section demo.
Definition demo_members : gset NodeId := {[1%N; 2%N; 3%N]}.

Definition demo_config (i : NodeId) : RaftConfig :=
  mkConfig i (filter (fun p => p <> i) [1%N; 2%N; 3%N]) 150 300 50 7.

Abbreviation DemoCluster := (Cluster InMemoryRaftStorage N).

Definition demo_start : DemoCluster :=
  mkCluster (fun _ => Down (mkInMemory default_persistent)) [] [].

Definition demo_run (es : list Event) : DemoCluster :=
  default demo_start (run_events demo_members demo_config es demo_start).

(** The message at a position of everything sent so far. *)
Definition sent (es : list Event) (k : nat) : Message :=
  default (mkMessage 0 0 (VoteResponse (mkVoteResponse 0 false))) (network (demo_run es) !! k).

(** Start all three; node 1 times out and asks node 2 for its vote; the answer
    makes it leader. *)
Definition demo_elect : list Event :=
  let a := [Restart 1; Restart 2; Restart 3; Do 1 (Tick 150); Do 1 TakeMessages] in
  let b := a ++ [Do 2 (HandleRequest (sent a 0))] in
  b ++ [Do 1 (Step (sent b 2)); Do 1 (Propose (bytes_of "x=1")); Do 1 TakeMessages].

(** Node 2 stores both entries; node 1 commits and publishes; node 2 learns of
    the commit from the next request and publishes too. *)
Definition demo_commit : list Event :=
  let a := demo_elect in
  let b := a ++ [Do 2 (HandleRequest (sent a 5))] in
  let c := b ++ [Do 1 (Step (sent b 7)); Do 1 TakeCommittedEntries; Do 1 TakeMessages] in
  c ++ [Do 2 (HandleRequest (sent c 8)); Do 2 TakeCommittedEntries].

Definition demo_elected : DemoCluster := demo_run demo_elect.
Definition demo_committed : DemoCluster := demo_run demo_commit.

(** The running node of a slot. *)
Definition demo_node (c : DemoCluster) (i : NodeId) : RaftNode InMemoryRaftStorage N :=
  match slots c i with
  | Up n => n
  | Down st => mkNode default_config st 0%N follower 0 None None [] 0 0 0 0 0 ∅ ∅ ∅ ∅ ∅ [] []
  end.

Lemma demo_cluster_config : cluster_config demo_members demo_config.
Proof.
  assert (forall i, i ∈ demo_members -> i = 1%N \/ i = 2%N \/ i = 3%N) as H.
  { intros i. unfold demo_members. set_solver. }
  split; intros i [-> | [-> | ->]]%H; try reflexivity; (split; [simpl; lia|]);
    cbn -[is_u64]; repeat (constructor; [unfold is_u64; lia|]); constructor.
Qed.

Lemma demo_initial : initial demo_members demo_start.
Proof. split; [done|]. split; [done|]. intros i _. eexists. repeat split; done. Qed.

Lemma demo_reachable es :
  is_Some (run_events demo_members demo_config es demo_start) ->
  reachable demo_members demo_config (demo_run es).
Proof.
  intros [c Hc]. exists demo_start. split; [apply demo_initial|]. unfold demo_run. rewrite Hc.
  by eapply run_events_steps.
Qed.

Lemma demo_later : rtc (cstep demo_members demo_config) demo_elected demo_committed.
Proof.
  apply (run_events_steps _ _ (drop (length demo_elect) demo_commit)). vm_compute. reflexivity.
Qed.
End demo.

Section safety.
Context {St E : Type} `{HSt : RaftStorage St} `{HSpec : !RaftStorageSpec St} `{HE : RandomEngine E}.
Context (members : gset NodeId) (config : NodeId -> RaftConfig).
Context (Hconfig : cluster_config members config).
Implicit Types (c : Cluster St E) (n : RaftNode St E) (i j : NodeId).

(** ** Shared lemmas *)

Lemma reachable_node c i n :
  reachable members config c -> i ∈ members -> slots c i = Up n ->
  exists s, cluster_rel members s c /\ node_rel members s i n.
Proof.
  intros Hr Hi Hn. destruct (reachable_rel members config Hconfig c Hr) as (s & _ & Hc).
  exists s. split; [done|]. pose proof (cr_slots _ _ _ Hc i Hi) as H. by rewrite Hn in H.
Qed.

Lemma later_node c c' s j n :
  cluster_rel members s c -> rtc (cstep members config) c c' -> j ∈ members -> slots c' j = Up n ->
  exists s', grows s s' /\ PInv members s' /\ node_rel members s' j n.
Proof.
  intros Hc Hr Hj Hn. destruct (steps_refine members config Hconfig s c c' Hc Hr) as (s' & Hs' & Hc').
  exists s'. destruct (psteps_grows_inv members s s' (cr_inv _ _ _ Hc) Hs') as [Hg Hinv].
  split; [done|]. split; [done|]. pose proof (cr_slots _ _ _ Hc' j Hj) as H. by rewrite Hn in H.
Qed.

Lemma leader_tlog s i n :
  node_rel members s i n -> state_ n = leader -> p_tlog s (current_term_ n) = Some (i, p_log s i).
Proof.
  intros Hn Hl. pose proof (nr_role _ _ _ _ Hn) as Hr. unfold role_rel in Hr. rewrite Hl in Hr. apply Hr.
Qed.

(** The persistent log of a slot, running or not. *)
Definition slot_log (x : Slot St E) : list LogEntry :=
  ps_log (durable (match x with Up n => storage_ n | Down st => st end)).

Lemma slot_log_rel s i x : slot_rel members s i x -> slot_log x = p_log s i.
Proof.
  intros Hx. assert (down_rel s i (match x with Up n => storage_ n | Down st => st end)) as [_ Hd].
  { destruct x; [by apply (rel_down members)|done]. }
  unfold slot_log. by rewrite Hd.
Qed.

Lemma prefixes_lookup {A} (l1 l2 : list A) k a b :
  l1 `prefix_of` l2 \/ l2 `prefix_of` l1 -> l1 !! k = Some a -> l2 !! k = Some b -> a = b.
Proof.
  intros [Hp|Hp] Ha Hb; [apply (prefix_lookup_Some _ _ _ _ Ha) in Hp|
    apply (prefix_lookup_Some _ _ _ _ Hb) in Hp]; congruence.
Qed.

(** ** Theorems *)

(** C5: refinement.  Whatever the events, the cluster behaves like the abstract
    protocol: every run from fresh storages corresponds to a run of [pstep] whose
    final state describes every node, every stopped node's storage, every message
    in flight and every published entry. *)
Theorem cluster_refines_protocol c0 c :
  initial members c0 -> rtc (cstep members config) c0 c ->
  exists s, rtc (pstep members) pinit s /\ cluster_rel members s c.
Proof. intros Hi Hr. apply (reachable_rel members config Hconfig). by exists c0. Qed.

(** C9: progress of every event.  In every reachable cluster, every event that can
    occur (any call on any node with any message ever sent, a death, a restart) has
    an outcome: no access is out of range, no signed operation overflows, and the
    loop that applies committed entries ends, since a run of it beyond its bound has
    no outcome in the model.  Afterwards every running node has applied exactly what
    it has committed, and has it in its log. *)
Theorem cluster_events_defined c e :
  reachable members config c -> enabled members e c = true ->
  exists c', apply_event members config e c = Some c' /\
    forall i n, i ∈ members -> slots c' i = Up n ->
      last_applied_ n = commit_index_ n /\ (commit_index_ n <= last_log_index n)%N.
Proof.
  intros Hr He. destruct (reachable_rel members config Hconfig c Hr) as (s & _ & Hc).
  destruct (event_refines members config Hconfig s c e Hc He) as (c' & s' & Hc' & _ & Hrel).
  exists c'. split; [done|]. intros i n Hi Hn. pose proof (cr_slots _ _ _ Hrel i Hi) as Hslot.
  rewrite Hn in Hslot. pose proof (nr_inv _ _ _ _ Hslot) as Hinv. split; [by apply inv_applied|].
  pose proof (inv_commit n Hinv). rewrite (inv_last n Hinv). lia.
Qed.

(** One leader per term. *)
Lemma one_leader_per_term c c' i j n n' :
  reachable members config c -> rtc (cstep members config) c c' ->
  i ∈ members -> j ∈ members -> slots c i = Up n -> slots c' j = Up n' ->
  state_ n = leader -> state_ n' = leader -> current_term_ n = current_term_ n' -> i = j.
Proof.
  intros Hr Hr' Hi Hj Hn Hn' Hl Hl' HT.
  destruct (reachable_node c i n Hr Hi Hn) as (s & Hc & Hrel).
  destruct (later_node c c' s j n' Hc Hr' Hj Hn') as (s' & Hg & _ & Hrel').
  destruct (gr_tlog _ _ Hg _ _ _ (leader_tlog s i n Hrel Hl)) as (L & HL & _).
  pose proof (leader_tlog s' j n' Hrel' Hl') as HL'. rewrite HT in HL. congruence.
Qed.

(** C2: election safety.  If node [i] leads a term and node [j] leads the same
    term, then or at any later time, with crashes and restarts in between, then
    [i] and [j] are the same node. *)
Theorem election_safety c c' i j n n' :
  reachable members config c -> rtc (cstep members config) c c' ->
  i ∈ members -> j ∈ members -> slots c i = Up n -> slots c' j = Up n' ->
  state_ n = leader -> state_ n' = leader -> current_term_ n = current_term_ n' -> i = j.
Proof. apply one_leader_per_term. Qed.

(** C14: leader append-only.  While a node leads a term its log only grows. *)
Theorem leader_append_only c c' i n n' :
  reachable members config c -> rtc (cstep members config) c c' ->
  i ∈ members -> slots c i = Up n -> slots c' i = Up n' ->
  state_ n = leader -> state_ n' = leader -> current_term_ n = current_term_ n' ->
  log_ n `prefix_of` log_ n'.
Proof.
  intros Hr Hr' Hi Hn Hn' Hl Hl' HT.
  destruct (reachable_node c i n Hr Hi Hn) as (s & Hc & Hrel).
  destruct (later_node c c' s i n' Hc Hr' Hi Hn') as (s' & Hg & _ & Hrel').
  destruct (gr_tlog _ _ Hg _ _ _ (leader_tlog s i n Hrel Hl)) as (L & HL & Hp).
  pose proof (leader_tlog s' i n' Hrel' Hl') as HL'. rewrite HT in HL.
  rewrite HL' in HL. injection HL as <-.
  rewrite (nr_log _ _ _ _ Hrel), (nr_log _ _ _ _ Hrel'). by apply prefix_cons.
Qed.

(** C4: log matching.  If the logs of two nodes hold an entry of the same term
    at the same index, they are identical up to that index. *)
Theorem log_matching c i j n n' k a b :
  reachable members config c -> i ∈ members -> j ∈ members ->
  slots c i = Up n -> slots c j = Up n' ->
  log_ n !! k = Some a -> log_ n' !! k = Some b -> term a = term b ->
  take (S k) (log_ n) = take (S k) (log_ n').
Proof.
  intros Hr Hi Hj Hn Hn' Ha Hb Hab.
  destruct (reachable_rel members config Hconfig c Hr) as (s & _ & Hc).
  pose proof (cr_slots _ _ _ Hc i Hi) as Hri. rewrite Hn in Hri. simpl in Hri.
  pose proof (cr_slots _ _ _ Hc j Hj) as Hrj. rewrite Hn' in Hrj. simpl in Hrj.
  rewrite (nr_log _ _ _ _ Hri) in *. rewrite (nr_log _ _ _ _ Hrj) in *.
  destruct k as [|k]; [done|]. simpl in Ha, Hb |- *. f_equal.
  destruct (pi_log _ s (cr_inv _ _ _ Hc) i) as (Hm & _). destruct (pi_log _ s (cr_inv _ _ _ Hc) j) as (Hm' & _).
  destruct (Hm _ _ Ha) as (c1 & L1 & Ht1 & Hp1). destruct (Hm' _ _ Hb) as (c2 & L2 & Ht2 & Hp2).
  rewrite <- Hab, Ht1 in Ht2. injection Ht2 as <- <-.
  apply lookup_lt_Some in Ha, Hb. apply prefix_is_take in Hp1, Hp2.
  rewrite length_take_le in Hp1, Hp2 by lia. simpl in *. congruence.
Qed.

(** C3: leader completeness.  An entry a node has committed is in the log, at the
    same index, of every leader of that or a later term, now and at any later
    time. *)
Theorem leader_completeness c c' i j n n' (k : nat) :
  reachable members config c -> rtc (cstep members config) c c' ->
  i ∈ members -> j ∈ members -> slots c i = Up n -> slots c' j = Up n' ->
  (N.of_nat k <= commit_index_ n)%N -> state_ n' = leader ->
  (current_term_ n <= current_term_ n')%N -> log_ n' !! k = log_ n !! k.
Proof.
  intros Hr Hr' Hi Hj Hn Hn' Hk Hl HT.
  destruct (reachable_node c i n Hr Hi Hn) as (s & Hc & Hrel).
  destruct (later_node c c' s j n' Hc Hr' Hj Hn') as (s' & Hg & Hs' & Hrel').
  pose proof (chosen_grows _ _ _ _ _ (cr_inv _ _ _ Hc) Hg (nr_chosen _ _ _ _ Hrel)) as Hch.
  pose proof (chosen_tlog _ _ _ _ _ _ _ Hs' Hch (leader_tlog s' j n' Hrel' Hl) HT) as Hp.
  pose proof (inv_commit n (nr_inv _ _ _ _ Hrel)) as Hlt.
  rewrite (nr_log _ _ _ _ Hrel) in *. rewrite (nr_log _ _ _ _ Hrel').
  destruct k as [|k]; [done|]. simpl in *.
  destruct (p_log s i !! k) as [e|] eqn:He; [|apply lookup_ge_None in He; lia].
  apply (take_prefix_lookup _ _ _ _ _ He Hp). lia.
Qed.

(** At an index two nodes have both committed, at whatever times, their logs hold
    the same entry. *)
Lemma committed_entries_agree c c' i j n n' (k : nat) :
  reachable members config c -> rtc (cstep members config) c c' ->
  i ∈ members -> j ∈ members -> slots c i = Up n -> slots c' j = Up n' ->
  (N.of_nat k <= commit_index_ n)%N -> (N.of_nat k <= commit_index_ n')%N ->
  log_ n' !! k = log_ n !! k.
Proof.
  intros Hr Hr' Hi Hj Hn Hn' Hk Hk'.
  destruct (reachable_node c i n Hr Hi Hn) as (s & Hc & Hrel).
  destruct (later_node c c' s j n' Hc Hr' Hj Hn') as (s' & Hg & Hs' & Hrel').
  pose proof (chosen_grows _ _ _ _ _ (cr_inv _ _ _ Hc) Hg (nr_chosen _ _ _ _ Hrel)) as Hch.
  pose proof (chosen_total _ _ _ _ _ _ Hs' Hch (nr_chosen _ _ _ _ Hrel')) as Htot.
  pose proof (inv_commit n (nr_inv _ _ _ _ Hrel)) as Hlt.
  pose proof (inv_commit n' (nr_inv _ _ _ _ Hrel')) as Hlt'.
  rewrite (nr_log _ _ _ _ Hrel) in *. rewrite (nr_log _ _ _ _ Hrel') in *.
  destruct k as [|k]; [done|]. simpl in *.
  destruct (p_log s i !! k) as [e|] eqn:He; [|apply lookup_ge_None in He; lia].
  destruct (p_log s' j !! k) as [e'|] eqn:He'; [|apply lookup_ge_None in He'; lia].
  f_equal. symmetry. apply (prefixes_lookup _ _ k _ _ Htot); by rewrite lookup_take_lt by lia.
Qed.

(** C1: state machine safety.  No two nodes ever hand different commands to the
    state machine for the same index, in any run, with any crashes and
    restarts in between. *)
Theorem state_machine_safety c i j (e e' : CommittedEntry) :
  reachable members config c -> (i, e) ∈ published c -> (j, e') ∈ published c ->
  ce_index e = ce_index e' -> e = e'.
Proof.
  intros Hr He He' Hidx. destruct (reachable_rel members config Hconfig c Hr) as (s & _ & Hc).
  pose proof (cr_published _ _ _ Hc) as Hpub. rewrite Forall_forall in Hpub.
  destruct (Hpub _ He) as (B & P & x & Hch & Hpos & Hx & _ & Ht & Hcmd).
  destruct (Hpub _ He') as (B' & P' & x' & Hch' & _ & Hx' & _ & Ht' & Hcmd'). simpl in *.
  rewrite <- Hidx in Hx'.
  pose proof (chosen_total _ _ _ _ _ _ (cr_inv _ _ _ Hc) Hch Hch') as Htot.
  pose proof (prefixes_lookup _ _ _ _ _ Htot Hx Hx'). subst x'.
  destruct e as [idx t cmd], e' as [idx' t' cmd']. simpl in *. congruence.
Qed.

(** C8: durability.  Every entry ever handed to a state machine is on the
    persistent storage of a majority of the members, whether these are running
    or stopped. *)
Theorem published_entries_durable c i (ce : CommittedEntry) :
  reachable members config c -> (i, ce) ∈ published c ->
  exists Q, is_quorum members Q /\ forall j, j ∈ Q -> exists e,
    slot_log (slots c j) !! (N.to_nat (ce_index ce) - 1) = Some e /\
    term e = ce_term ce /\ command e = ce_command ce /\ is_no_op e = false.
Proof.
  intros Hr He. destruct (reachable_rel members config Hconfig c Hr) as (s & _ & Hc).
  pose proof (cr_published _ _ _ Hc) as Hpub. rewrite Forall_forall in Hpub.
  destruct (Hpub _ He) as (B & P & x & Hch & Hpos & Hx & Hno & Ht & Hcmd). simpl in *.
  destruct Hch as [->|(T & k & cl & L & _ & Hcom & HL & HP)]; [done|].
  pose proof Hcom as (cl' & L' & Q & HL' & Hat & HQ & Hack). rewrite HL in HL'. injection HL' as <- <-.
  exists Q. split; [done|]. intros j Hj. exists x. split; [|done].
  assert (j ∈ members) as Hjm by (by apply (proj1 HQ)).
  rewrite (slot_log_rel s j); [|by apply (cr_slots _ _ _ Hc)].
  destruct (pi_node _ s (cr_inv _ _ _ Hc) j T cl L k HL Hat (Hack j Hj)) as [Hp|Hd].
  - eapply prefix_lookup_Some; [|exact Hp]. by eapply prefix_lookup_Some.
  - by destruct (committed_not_dead members s T k).
Qed.

(** C15: the defensive branches of the matching loop of
    [handle_append_entries_locked] are dead.  For every request of the current
    term that was ever sent, after a successful consistency check, an entry of the
    request and the local entry at its index with the same term are equal (so
    "log matching invariant violated" is never thrown), and below the commit
    index they are equal outright (so a committed entry is never rejected). *)
Theorem merge_conflicts_unreachable c i n m q o a b :
  reachable members config c -> i ∈ members -> slots c i = Up n ->
  m ∈ network c -> rpc m = AppendRequest q -> ae_term q = current_term_ n -> prev_matches n q ->
  log_ n !! (S (N.to_nat (ae_previous_log_index q)) + o) = Some a -> ae_entries q !! o = Some b ->
  (term a = term b -> a = b) /\
  ((N.of_nat (S (N.to_nat (ae_previous_log_index q)) + o) <= commit_index_ n)%N -> a = b).
Proof.
  intros Hr Hi Hn Hm Hq HT Hpm Ha Hb.
  destruct (reachable_node c i n Hr Hi Hn) as (s & Hc & Hrel).
  pose proof (cr_network _ _ _ Hc) as Hnet. rewrite Forall_forall in Hnet.
  destruct (Hnet m Hm) as [_ Hok]. rewrite Hq in Hok. split.
  - intros Hab. by eapply (same_term_same_entry members s i n (from m) q (cr_inv _ _ _ Hc) Hrel HT Hok).
  - intros Hle. by eapply (committed_same_entry members s i n (from m) q (cr_inv _ _ _ Hc) Hrel HT Hok).
Qed.

(** C10: restart.  Whatever a process was doing when it stopped, the storage it
    leaves is accepted by the checks of the constructor of [RaftNode], and the
    new node starts with exactly that term, vote and log. *)
Theorem restart_accepted c i st st' :
  reachable members config c -> i ∈ members -> slots c i = Down st ->
  storage_reopen st = (st', Ret tt) -> (N.of_nat (S (length (ps_log (durable st)))) <= vector_max)%N ->
  exists n : RaftNode St E, make_node (config i) (Some st') = Ret n /\
    current_term_ n = ps_current_term (durable st) /\ voted_for_ n = ps_voted_for (durable st) /\
    log_ n = default_entry :: ps_log (durable st).
Proof.
  intros Hr Hi Hd Hre Hlen. destruct (reachable_rel members config Hconfig c Hr) as (s & _ & Hc).
  pose proof (cr_slots _ _ _ Hc i Hi) as Hslot. rewrite Hd in Hslot. destruct Hslot as [Hm Hdur].
  pose proof (storage_reopen_spec st Hm) as Hspec. unfold wp in Hspec. rewrite Hre in Hspec.
  destruct Hspec as [Hinv Hsame].
  assert (down_rel s i st') as Hdown by (split; [by apply storage_inv_medium|congruence]).
  rewrite <- Hsame in Hlen.
  destruct (restart_rel (E:=E) members s i st' (config i) (cr_inv _ _ _ Hc) Hdown Hinv
    (cc_typed _ _ Hconfig i Hi) (cc_valid _ _ Hconfig i Hi) (cc_id _ _ Hconfig i Hi)
    (cc_members _ _ Hconfig i Hi) Hlen) as (n & Hmk & Hn).
  exists n. split; [done|]. rewrite Hdur. simpl.
  rewrite (nr_term _ _ _ _ Hn), (nr_vote _ _ _ _ Hn), (nr_log _ _ _ _ Hn). done.
Qed.
End safety.

(** ** Witnesses *)

Ltac demo_reach := apply demo_reachable; vm_compute; eexists; reflexivity.

Lemma cluster_refines_protocol_witness :
  exists s, rtc (pstep demo_members) pinit s /\ cluster_rel demo_members s demo_committed.
Proof.
  apply (cluster_refines_protocol demo_members demo_config demo_cluster_config demo_start).
  - apply demo_initial.
  - apply (run_events_steps _ _ demo_commit). vm_compute. reflexivity.
Defined.

Ltac demo_eval := vm_compute; reflexivity.

(** The leader's request carries the commit index to node 2, which applies two
    entries. *)
Lemma cluster_events_defined_witness :
  let before := take (length demo_commit - 2) demo_commit in
  exists c', apply_event demo_members demo_config (Do 2 (HandleRequest (sent before 8))) (demo_run before) = Some c' /\
    forall i n, i ∈ demo_members -> slots c' i = Up n ->
      last_applied_ n = commit_index_ n /\ (commit_index_ n <= last_log_index n)%N.
Proof.
  apply (cluster_events_defined demo_members demo_config demo_cluster_config); [demo_reach|demo_eval].
Defined.

Lemma election_safety_witness :
  state_ (demo_node demo_elected 1) = leader /\ state_ (demo_node demo_committed 1) = leader /\
  1%N = 1%N.
Proof.
  split; [demo_eval|]. split; [demo_eval|].
  apply (election_safety demo_members demo_config demo_cluster_config demo_elected demo_committed 1 1
    (demo_node demo_elected 1) (demo_node demo_committed 1));
    [demo_reach|apply demo_later|set_solver|set_solver|demo_eval..].
Defined.

Lemma leader_append_only_witness :
  log_ (demo_node demo_elected 1) `prefix_of` log_ (demo_node demo_committed 1).
Proof.
  apply (leader_append_only demo_members demo_config demo_cluster_config demo_elected demo_committed 1);
    [demo_reach|apply demo_later|set_solver|demo_eval..].
Defined.

Lemma log_matching_witness :
  take 2 (log_ (demo_node demo_committed 1)) = take 2 (log_ (demo_node demo_committed 2)).
Proof.
  apply (log_matching demo_members demo_config demo_cluster_config demo_committed 1 2 _ _ 1
    (mkEntry 1 [] true) (mkEntry 1 [] true)); [demo_reach|set_solver|set_solver|demo_eval..].
Defined.

Lemma leader_completeness_witness :
  log_ (demo_node demo_committed 1) !! 2 = log_ (demo_node demo_committed 2) !! 2.
Proof.
  apply (leader_completeness demo_members demo_config demo_cluster_config demo_committed demo_committed
    2 1); [demo_reach|reflexivity|set_solver|set_solver|demo_eval|demo_eval| |demo_eval|];
    vm_compute; discriminate.
Defined.

Definition demo_entry : CommittedEntry := mkCommitted 2 1 (bytes_of "x=1").

Lemma state_machine_safety_witness :
  exists e, (2%N, e) ∈ published demo_committed /\ demo_entry = e.
Proof.
  exists demo_entry. split; [vm_compute; do 2 constructor|].
  apply (state_machine_safety demo_members demo_config demo_cluster_config demo_committed 1 2);
    [demo_reach|vm_compute; constructor|vm_compute; do 2 constructor|reflexivity].
Defined.

Lemma published_entries_durable_witness :
  exists Q, is_quorum demo_members Q /\ forall j, j ∈ Q -> exists e,
    slot_log (slots demo_committed j) !! (N.to_nat (ce_index demo_entry) - 1) = Some e /\
    term e = ce_term demo_entry /\ command e = ce_command demo_entry /\ is_no_op e = false.
Proof.
  apply (published_entries_durable demo_members demo_config demo_cluster_config demo_committed 1);
    [demo_reach|vm_compute; constructor].
Defined.

(** The request node 2 has already accepted, delivered again. *)
Definition demo_request : AppendEntriesRequest :=
  match rpc (sent demo_elect 5) with
  | AppendRequest q => q
  | _ => mkAppendRequest 0 0 0 0 [] 0 0
  end.

Lemma merge_conflicts_unreachable_witness :
  exists a b, ae_entries demo_request !! 1 = Some b /\ a = b.
Proof.
  exists (mkEntry 1 (bytes_of "x=1") false), (mkEntry 1 (bytes_of "x=1") false). split; [demo_eval|].
  apply (merge_conflicts_unreachable demo_members demo_config demo_cluster_config demo_committed 2
    (demo_node demo_committed 2) (sent demo_elect 5) demo_request 1);
    [demo_reach|set_solver|demo_eval| |demo_eval|demo_eval| |demo_eval|demo_eval|].
  - apply (list_elem_of_lookup_2 _ 5). demo_eval.
  - split; [vm_compute; reflexivity|]. left. demo_eval.
  - vm_compute. discriminate.
Defined.

Definition demo_disk : InMemoryRaftStorage :=
  mkInMemory (mkPersistent 1 (Some 1%N) [mkEntry 1 [] true; mkEntry 1 (bytes_of "x=1") false]).

Lemma restart_accepted_witness :
  exists n : RaftNode InMemoryRaftStorage N,
    make_node (demo_config 2) (Some demo_disk) = Ret n /\
    current_term_ n = 1%N /\ voted_for_ n = Some 1%N /\
    log_ n = [default_entry; mkEntry 1 [] true; mkEntry 1 (bytes_of "x=1") false].
Proof.
  exact (restart_accepted demo_members demo_config demo_cluster_config
    (demo_run (demo_commit ++ [Kill 2])) 2 demo_disk demo_disk
    ltac:(demo_reach) ltac:(set_solver) ltac:(demo_eval) ltac:(demo_eval)
    ltac:(vm_compute; discriminate)).
Defined.
