(* ===== verification/RaftProperties.v ===== *)
(** * Theorems about a single node

    What the public methods of [RaftNode] and the algorithms behind them do,
    branch by branch, with concrete nodes taken from the run of [RaftSafety] as
    witnesses; and two behaviours of a node that survives a failed save. *)

From Stdlib Require Import NArith ZArith Lia.
From stdpp Require Import base tactics numbers list gmap functions relations strings.
From S2P Require Import Prelude RaftTypes RaftLog RaftNode RaftBehaviour RaftInvariant.
From S2P Require Import RaftProtocol RaftSimulation RaftCluster RaftSafety.

Open Scope ftkv_scope.

Section properties.
Context {St E : Type} `{HSt : RaftStorage St} `{HSpec : !RaftStorageSpec St} `{HE : RandomEngine E}.
Implicit Types n : RaftNode St E.

(** C21: no undefined behaviour, for a single node and arbitrary callers.  From a
    node the constructor returned, no sequence of public calls, with any messages
    whatever and with exceptions caught in between, reaches an access out of
    range, a signed overflow or an unbounded loop. *)
Theorem node_calls_defined (cfg : RaftConfig) (st : St) n cs :
  config_typed cfg -> storage_inv st -> make_node cfg (Some st) = Ret n ->
  Forall call_typed cs -> is_Some (run_calls cs n).
Proof.
  intros Hc Hst Hmk Hcs. pose proof (make_node_cases (E:=E) cfg st Hc Hst) as H. rewrite Hmk in H.
  apply run_calls_inv; [apply H|done].
Qed.

(** C19: durability before visibility.  When a public call returns, the storage
    holds exactly the node's current term, vote and log. *)
Theorem returned_call_durable n call n' :
  node_inv n -> persisted n -> call_typed call -> (current_term_ n < u64_max)%N ->
  run_call call n = (n', Ret tt) -> persisted n'.
Proof.
  intros Hn Hp Hc Hlt Hrun. pose proof (ok_call n call Hn Hc) as H. unfold wp in H. rewrite Hrun in H.
  destruct H as [_ H]. by apply H.
Qed.

(** C20: a node only moves forward.  Across a call that returns, the term and the
    commit index never decrease, a vote is never changed within a term, the
    committed part of the log stays the same and the configuration is constant. *)
Theorem returned_call_evolves n call n' :
  node_inv n -> call_typed call -> (current_term_ n < u64_max)%N ->
  run_call call n = (n', Ret tt) -> evolves n n'.
Proof.
  intros Hn Hc Hlt Hrun. pose proof (ok_call n call Hn Hc) as H. unfold wp in H. rewrite Hrun in H.
  destruct H as [_ H]. by apply H.
Qed.

(** [propose].  Anything but a leader answers nothing and changes nothing; a
    leader appends exactly the command in its current term, durably, and returns
    its index. *)
Theorem propose_appends n cmd n' r :
  node_inv n -> persisted n -> propose cmd n = (n', Ret r) ->
  match r with
  | None => state_ n <> leader /\ n' = n
  | Some i => state_ n = leader /\ i = N.of_nat (length (log_ n)) /\
      log_ n' = log_ n ++ [mkEntry (current_term_ n) cmd false] /\
      ps_log (durable (storage_ n')) = tail (log_ n) ++ [mkEntry (current_term_ n) cmd false]
  end.
Proof.
  intros Hn Hp Hrun. pose proof (ok_propose n cmd Hn) as H. unfold wp in H. rewrite Hrun in H.
  destruct H as [(_ & Hper & _) H]. destruct r as [i|]; [|done]. destruct H as (Hl & Hlog & Hi).
  split; [done|]. split; [done|]. split; [done|]. rewrite (Hper Hp), Hlog.
  destruct (inv_log n Hn) as (l & -> & _). done.
Qed.

(** C18: commitment.  [advance_commit_index_locked] moves the commit index to the
    largest index of an entry of the current term that a majority holds, publishes
    what lies in between and returns true; if there is none it returns false and
    changes nothing. *)
Theorem advance_commits_largest n :
  node_inv n -> state_ n = leader ->
  exists n' b, advance_commit_index_locked n = (n', Ret b) /\
    match b with
    | true => exists c, quorum_holds c n /\ (forall c', quorum_holds c' n -> (c' <= c)%N) /\
        n' = commit_to c n
    | false => (forall c, ~ quorum_holds c n) /\ n' = n
    end.
Proof.
  intros Hn Hl. assert (wp advance_commit_index_locked n (fun b n' => match b with
    | true => exists c, quorum_holds c n /\ (forall c', quorum_holds c' n -> (c' <= c)%N) /\
        n' = commit_to c n
    | false => (forall c, ~ quorum_holds c n) /\ n' = n end) (fun _ _ => False)) as H.
  { apply wp_advance_exact; [done|done|by split|]. intros c Hc Hmax. by exists c. }
  unfold wp in H. destruct (advance_commit_index_locked n) as [n' [b|f|]]; [|done|done]. by exists n', b.
Qed.

(** C17: voting, however the call ends.  [handle_request_vote_locked] grants exactly
    when the candidate speaks for itself, the request is not stale, no vote for
    anyone else was cast in this term and the candidate's log is at least as up to
    date.  A granted vote is on the storage before the answer is queued: the call
    either returns with the vote saved and the grant queued, or it fails in the save
    and has queued nothing.  A refusal changes nothing but the outbox and never
    fails. *)
Theorem request_vote_decision n sender request n' o :
  node_inv n -> persisted n -> sender ∈ peers (config_ n) ->
  handle_request_vote_locked sender request n = (n', o) ->
  let vote := mkPersistent (current_term_ n) (Some sender) (tail (log_ n)) in
  match o with
  | Ret _ =>
      may_grant n sender request /\ voted_for_ n' = Some sender /\ durable (storage_ n') = vote /\
        outbox_ n' = outbox_ n ++ [vote_answer n sender true] \/
      ~ may_grant n sender request /\ n' = set_outbox_ (outbox_ n ++ [vote_answer n sender false]) n
  | Fail f =>
      may_grant n sender request /\ voted_for_ n = None /\ outbox_ n' = outbox_ n /\
      (durable (storage_ n') = durable (storage_ n) \/ f = Crash /\ durable (storage_ n') = vote)
  | Undefined => False
  end.
Proof.
  intros Hn Hp Hs Hrun vote. destruct (inv_log n Hn) as (l & Hl & _).
  assert (vote = mkPersistent (current_term_ n) (Some sender) l) as Hvote by (unfold vote; by rewrite Hl).
  clearbody vote. refine (wp_elim _ _
    (fun _ n' => may_grant n sender request /\ voted_for_ n' = Some sender /\ durable (storage_ n') = vote /\
        outbox_ n' = outbox_ n ++ [vote_answer n sender true] \/
      ~ may_grant n sender request /\ n' = set_outbox_ (outbox_ n ++ [vote_answer n sender false]) n)
    (fun f n' => may_grant n sender request /\ voted_for_ n = None /\ outbox_ n' = outbox_ n /\
      (durable (storage_ n') = durable (storage_ n) \/ f = Crash /\ durable (storage_ n') = vote)) n' o _ Hrun).
  rewrite Hvote. apply (wp_request_vote _ l); [done|done|done|by right| |].
  - intros Hc Ht Hcur st t r Hst n1 _. left. unfold persisted in Hp. rewrite Hl in Hp. simpl in Hp.
    destruct Hst as [[Hv ->]|[Hv Hd]].
    + split; [by split_and!; auto|]. split; [done|]. split; [|done]. unfold n1, voted. node_simpl. congruence.
    + split; [by split_and!; auto|]. by split.
  - intros Hc Ht Hv Hcur f n1 _ Hd _ [Hn1 Hun]. split; [by split_and!; auto|]. split; [done|].
    split; [by rewrite Hn1|]. destruct f; [left; by apply Hun|]. naive_solver.
Qed.

(** The acceptance of a request: what [append_from_leader_merges] promises. *)
Definition merged n sender request n' : Prop :=
  let lm := merge (tail (log_ n)) (N.to_nat (ae_previous_log_index request)) (ae_entries request) in
  prev_matches n request /\ log_ n' = default_entry :: lm /\ persisted n' /\
  take (N.to_nat (commit_index_ n)) lm = take (N.to_nat (commit_index_ n)) (tail (log_ n)) /\
  commit_index_ n' = N.max (commit_index_ n) (N.min (ae_leader_commit request) (last_log_index n')) /\
  outbox_ n' = outbox_ n ++ [acceptance n sender request].

Lemma merged_follower_commit n sender request st l :
  let lm := merge l (N.to_nat (ae_previous_log_index request)) (ae_entries request) in
  let n1 := follower_commit (ae_leader_commit request) (with_log n lm st) in
  persisted n -> log_ n = default_entry :: l -> node_inv (with_log n lm st) ->
  prev_matches n request ->
  take (N.to_nat (commit_index_ n)) lm = take (N.to_nat (commit_index_ n)) l ->
  lm = l /\ st = storage_ n \/ lm <> l /\ durable st = mkPersistent (current_term_ n) (voted_for_ n) lm ->
  merged n sender request (set_outbox_ (outbox_ n1 ++ [acceptance n1 sender request]) n1).
Proof.
  intros lm n1 Hp Hl Hn0 Hpm Hkeep Hst. unfold merged. rewrite Hl. cbn [tail]. fold lm.
  assert (log_ n1 = default_entry :: lm /\ outbox_ n1 = outbox_ n /\ storage_ n1 = st /\
    current_term_ n1 = current_term_ n /\ voted_for_ n1 = voted_for_ n /\ config_ n1 = config_ n)
    as (Hlog1 & Hout & Hsto & Ht & Hv & Hcf).
  { unfold n1, follower_commit. by destruct (_ <? _)%N. }
  split; [done|]. split; [done|]. split; [|split; [done|split]].
  - unfold persisted in *. node_simpl. rewrite Hsto, Hlog1, Ht, Hv. cbn [tail].
    destruct Hst as [[Hlm ->]|[_ Hd]]; [|done]. by rewrite Hp, Hl, Hlm.
  - change (last_log_index (set_outbox_ _ n1)) with (last_log_index n1).
    assert (last_log_index n1 = last_log_index (with_log n lm st)) as ->
      by (unfold last_log_index; by rewrite Hlog1).
    unfold n1, follower_commit. pose proof (inv_commit _ Hn0) as Hc. rewrite (inv_last _ Hn0).
    unfold with_log in *. node_simpl. destruct (N.ltb_spec (commit_index_ n) (ae_leader_commit request));
      unfold commit_to; node_simpl; lia.
  - node_simpl. rewrite Hout. unfold acceptance. by rewrite Ht, Hcf.
Qed.

(** C16: replication, follower side.  [append_from_leader] (the part of
    [handle_append_entries_locked] after its guards) either rejects, for the
    reasons and with the hints of [reject_reason], changing nothing but the
    outbox; or the previous entry matches and the log becomes the reference
    [merge] of the log and the request, durably, committed entries untouched, with
    an acknowledgement of exactly the entries of the request. *)
Theorem append_from_leader_merges n sender request n' :
  node_inv n -> persisted n -> state_ n = follower -> Forall wf_entry (ae_entries request) ->
  append_from_leader sender request n = (n', Ret tt) ->
  (exists ci ct, reject_reason n request ci ct /\
     n' = set_outbox_ (outbox_ n ++ [rejection n sender request ci ct]) n) \/
  merged n sender request n'.
Proof.
  intros Hn Hp Hs Hwf Hrun. destruct (inv_log n Hn) as (l & Hl & _).
  assert (wp (append_from_leader sender request) n (fun _ n' =>
    (exists ci ct, reject_reason n request ci ct /\
       n' = set_outbox_ (outbox_ n ++ [rejection n sender request ci ct]) n) \/
    merged n sender request n') (fun _ _ => True)) as H.
  { apply (wp_append_from_leader n l); [done|done|done|done| |done|done| |done].
    - intros ci ct Hr. left. by exists ci, ct.
    - intros Hpm Hkeep st Hst n1 Hn0 Hn1. right. by apply merged_follower_commit. }
  by apply (wp_elim _ _ _ _ _ _ H) in Hrun.
Qed.

(** A campaign: the new term and the vote for itself are durable, everyone is
    asked for a vote, and a fresh timeout is drawn. *)
Definition campaigns n n' : Prop :=
  state_ n' = candidate /\ current_term_ n' = current_term_ n +u 1 /\
  voted_for_ n' = Some (node_id (config_ n)) /\ votes_received_ n' = {[node_id (config_ n)]} /\
  leader_id_ n' = None /\ log_ n' = log_ n /\ persisted n' /\
  election_elapsed_ n' = 0%Z /\
  (election_timeout_min (config_ n) <= election_timeout_ n' <= election_timeout_max (config_ n))%Z /\
  exists e, last (log_ n) = Some e /\ outbox_ n' = outbox_ n ++ vote_requests n' e.

(** A heartbeat: one request to each peer, in the order of the configuration. *)
Definition heartbeats n n' : Prop :=
  heartbeat_elapsed_ n' = 0%Z /\ state_ n' = leader /\ log_ n' = log_ n /\
  current_term_ n' = current_term_ n /\
  exists ms, outbox_ n' = outbox_ n ++ ms /\ to <$> ms = peers (config_ n) /\
    Forall (is_append_message n) ms.

Lemma campaigning_campaigns n t r st e l :
  log_ n = default_entry :: l ->
  durable st = mkPersistent (current_term_ n +u 1) (Some (node_id (config_ n))) l ->
  node_inv (set_storage_ st (campaigning n t r)) -> last (log_ n) = Some e ->
  (election_timeout_min (config_ n) <= t <= election_timeout_max (config_ n))%Z ->
  campaigns n (set_outbox_ (outbox_ n ++ vote_requests (set_storage_ st (campaigning n t r)) e)
    (set_storage_ st (campaigning n t r))).
Proof.
  intros Hl Hd Hinv He Ht. unfold campaigns, campaigning. node_simpl.
  split_and!; try done; try lia; [|by exists e]. unfold persisted. node_simpl. by rewrite Hl, Hd.
Qed.

Definition ticked n (elapsed : Z) n' : Prop :=
  if decide (state_ n = leader) then
    if (heartbeat_interval (config_ n) - heartbeat_elapsed_ n <=? elapsed)%Z then heartbeats n n'
    else n' = set_heartbeat_elapsed_ (heartbeat_elapsed_ n + elapsed) n
  else
    if (election_timeout_ n - election_elapsed_ n <=? elapsed)%Z then campaigns n n'
    else n' = set_election_elapsed_ (election_elapsed_ n + elapsed) n.

(** C31: time.  [tick] adds up time below the timeouts and changes nothing else;
    once the heartbeat interval is full a leader sends to every peer, and once the
    election timeout is full anyone else campaigns in the next term (a cluster of
    one, which wins at once, apart). *)
Theorem tick_behaviour n elapsed n' :
  node_inv n -> (0 <= elapsed)%Z -> (1 < quorum_size n)%N -> tick elapsed n = (n', Ret tt) ->
  ticked n elapsed n'.
Proof.
  intros Hn Hpos Hq Hrun. pose proof (inv_config n Hn) as []. pose proof (inv_heartbeat n Hn).
  pose proof (inv_election n Hn). pose proof (inv_timeout n Hn).
  assert (wp (tick elapsed) n (fun _ n' => ticked n elapsed n') (fun _ _ => True)) as Hwp;
    [|by apply (wp_elim _ _ _ _ _ _ Hwp) in Hrun].
  unfold tick, ticked. destruct (Z.ltb_spec elapsed 0) as [|_]; [lia|]. wp_steps.
  destruct (decide (state_ n = leader)) as [Hs|Hs]; wp_steps.
  - apply wp_i64_sub; [unfold is_i64; lia|].
    destruct (Z.leb_spec (heartbeat_interval (config_ n) - heartbeat_elapsed_ n) elapsed); wp_steps.
    + assert (node_inv (set_heartbeat_elapsed_ 0 n)) as Hn1
        by (destruct Hn; constructor; node_simpl; auto; lia).
      apply wp_broadcast; [done|done|]. intros ms r Hms Hto. unfold heartbeats. node_simpl.
      split_and!; try done. by exists ms.
    + apply wp_i64_add; [unfold is_i64; lia|]. by wp_steps.
  - apply wp_i64_sub; [unfold is_i64; lia|].
    destruct (Z.leb_spec (election_timeout_ n - election_elapsed_ n) elapsed); wp_steps.
    + destruct (inv_log n Hn) as (l & Hl & _).
      eapply wp_start_election; [done|done| | |done].
      * intros t r st n1 _ _ Hq1. exfalso. unfold quorum_size in *. unfold n1, campaigning in Hq1.
        node_simpl. lia.
      * intros t r st e n1 Hd Hinv He. exact (campaigning_campaigns n t r st e l Hl Hd Hinv He (inv_timeout _ Hinv)).
    + apply wp_i64_add; [unfold is_i64; lia|]. by wp_steps.
Qed.
End properties.

(** ** Witnesses *)

Lemma demo_node_ok c i n :
  reachable demo_members demo_config c -> i ∈ demo_members -> slots c i = Up n ->
  node_inv n /\ persisted n.
Proof.
  intros Hr Hi Hn.
  destruct (reachable_node demo_members demo_config demo_cluster_config c i n Hr Hi Hn) as (s & _ & Hrel).
  split; apply Hrel.
Qed.

Lemma demo_leader_ok :
  node_inv (demo_node demo_committed 1) /\ persisted (demo_node demo_committed 1).
Proof. apply (demo_node_ok demo_committed 1); [demo_reach|set_solver|demo_eval]. Qed.

Lemma demo_follower_ok :
  node_inv (demo_node demo_elected 2) /\ persisted (demo_node demo_elected 2).
Proof. apply (demo_node_ok demo_elected 2); [demo_reach|set_solver|demo_eval]. Qed.

Definition demo_fresh : RaftNode InMemoryRaftStorage N := demo_node (demo_run [Restart 1]) 1.

Lemma node_calls_defined_witness :
  is_Some (run_calls [Tick 500; Step (mkMessage 9 9 (VoteResponse (mkVoteResponse 3 true)));
    Propose []; TakeMessages] demo_fresh).
Proof.
  apply (node_calls_defined (demo_config 1) (mkInMemory default_persistent)).
  - apply (cc_typed _ _ demo_cluster_config). set_solver.
  - repeat split; done.
  - demo_eval.
  - repeat constructor.
Defined.

(** The node after a call. *)
Definition after {A} (m : M (RaftNode InMemoryRaftStorage N) A) (n : RaftNode InMemoryRaftStorage N) :
  RaftNode InMemoryRaftStorage N := (m n).1.

Lemma returned_call_durable_witness :
  persisted (after (run_call (Propose (bytes_of "y"))) (demo_node demo_committed 1)).
Proof.
  apply (returned_call_durable (demo_node demo_committed 1) (Propose (bytes_of "y")));
    [apply demo_leader_ok|apply demo_leader_ok|exact I|reflexivity|demo_eval].
Defined.

Lemma returned_call_evolves_witness :
  evolves (demo_node demo_elected 2) (after (run_call (Tick 400)) (demo_node demo_elected 2)).
Proof.
  apply (returned_call_evolves (demo_node demo_elected 2) (Tick 400));
    [apply demo_follower_ok|exact I|reflexivity|demo_eval].
Defined.

Lemma propose_appends_witness :
  state_ (demo_node demo_committed 1) = leader /\ 3%N = N.of_nat (length (log_ (demo_node demo_committed 1))).
Proof.
  destruct (propose_appends (demo_node demo_committed 1) (bytes_of "y")
    (after (propose (bytes_of "y")) (demo_node demo_committed 1)) (Some 3%N)) as (H1 & H2 & _);
    [apply demo_leader_ok|apply demo_leader_ok|demo_eval|]. by split.
Defined.

Lemma advance_commits_largest_witness :
  exists n' b, advance_commit_index_locked (demo_node demo_committed 1) = (n', Ret b) /\
    match b with
    | true => exists c, quorum_holds c (demo_node demo_committed 1) /\
        (forall c', quorum_holds c' (demo_node demo_committed 1) -> (c' <= c)%N) /\
        n' = commit_to c (demo_node demo_committed 1)
    | false => (forall c, ~ quorum_holds c (demo_node demo_committed 1)) /\
        n' = demo_node demo_committed 1
    end.
Proof. apply advance_commits_largest; [apply demo_leader_ok|demo_eval]. Defined.

(** Node 3 has learned of term 1 from the leader's first entry and has not voted. *)
Definition demo_voter : RaftNode InMemoryRaftStorage N :=
  demo_node (demo_run (demo_elect ++ [Do 3 (HandleRequest (sent demo_elect 4))])) 3.

Lemma demo_voter_ok : node_inv demo_voter /\ persisted demo_voter.
Proof.
  apply (demo_node_ok (demo_run (demo_elect ++ [Do 3 (HandleRequest (sent demo_elect 4))])) 3);
    [demo_reach|set_solver|demo_eval].
Qed.

Lemma request_vote_decision_witness :
  may_grant demo_voter 2 (mkVoteRequest 1 2 1 1) /\
  durable (storage_ (after (handle_request_vote_locked 2 (mkVoteRequest 1 2 1 1)) demo_voter)) =
    mkPersistent 1 (Some 2%N) [mkEntry 1 [] true].
Proof.
  assert (last (outbox_ (after (handle_request_vote_locked 2 (mkVoteRequest 1 2 1 1)) demo_voter)) =
    Some (mkMessage 3 2 (VoteResponse (mkVoteResponse 1 true)))) as Hout by demo_eval.
  destruct (request_vote_decision demo_voter 2 (mkVoteRequest 1 2 1 1)
    (after (handle_request_vote_locked 2 (mkVoteRequest 1 2 1 1)) demo_voter) (Ret tt))
    as [(H & _ & Hd & _)|[_ H]]; [apply demo_voter_ok|apply demo_voter_ok|vm_compute; do 2 constructor|demo_eval| |].
  - split; [exact H|]. rewrite Hd. demo_eval.
  - exfalso. rewrite H in Hout. vm_compute in Hout. discriminate Hout.
Defined.

Lemma append_from_leader_merges_witness :
  exists n', append_from_leader 1 demo_request (demo_node demo_elected 2) = (n', Ret tt) /\
    ((exists ci ct, reject_reason (demo_node demo_elected 2) demo_request ci ct /\
       n' = set_outbox_ (outbox_ (demo_node demo_elected 2) ++
              [rejection (demo_node demo_elected 2) 1 demo_request ci ct]) (demo_node demo_elected 2)) \/
     merged (demo_node demo_elected 2) 1 demo_request n').
Proof.
  exists (after (append_from_leader 1 demo_request) (demo_node demo_elected 2)). split; [demo_eval|].
  apply append_from_leader_merges; [apply demo_follower_ok|apply demo_follower_ok|demo_eval| |demo_eval].
  assert (ae_entries demo_request = [mkEntry 1 [] true; mkEntry 1 (bytes_of "x=1") false]) as -> by demo_eval.
  repeat constructor.
Defined.

Lemma tick_behaviour_witness :
  ticked (demo_node demo_elected 2) 150 (after (tick 150) (demo_node demo_elected 2)) /\
  state_ (after (tick 150) (demo_node demo_elected 2)) = candidate.
Proof.
  split; [|demo_eval].
  apply tick_behaviour; [apply demo_follower_ok|lia|vm_compute; reflexivity|demo_eval].
Defined.
