(* ===== verification/RaftReplication.v ===== *)
(** * Replication converges

    The exchange between a leader and one follower: the follower answers the
    leader's request, the leader handles the answer, and after a rejection it
    sends the request of an earlier index, as [retry_from] of [raft_node.cpp]
    chooses it from the conflict the follower reported.  From any reachable
    state of the cluster the exchange ends after finitely many rounds with the
    leader's log stored by the follower, however the two logs had diverged. *)

From Stdlib Require Import NArith ZArith Lia.
From stdpp Require Import base tactics numbers list gmap functions relations strings.
From S2P Require Import Prelude RaftTypes RaftLog RaftNode RaftBehaviour RaftInvariant.
From S2P Require Import RaftProtocol RaftSimulation RaftCluster RaftSafety.

Open Scope ftkv_scope.

Section answer.
Context {St E : Type} `{HSt : RaftStorage St} `{HSpec : !RaftStorageSpec St} `{HE : RandomEngine E}.
Abbreviation Node := (RaftNode St E).
Implicit Types (n f : Node) (q : AppendEntriesRequest) (a : AppendEntriesResponse).

(** ** The exchange *)

(** The last of the messages taken from a node that goes to a peer. *)
Definition latest (peer : NodeId) (ms : list Message) : option Message :=
  last (filter (fun m => to m = peer) ms).

Definition is_success (m : Message) : bool :=
  match rpc m with AppendResponse a => aer_success a | _ => false end.

(** What the leader hands to the network next for a peer. *)
Definition next_request (peer : NodeId) : M (Node * Node) (option Message) :=
  ms ← zoom fst (fun n nf => (n, nf.2)) take_messages; mret (latest peer ms).

(** The rounds that follow the request [m]; [true] when the follower accepted. *)
Fixpoint exchange (fuel : nat) (m : Message) : M (Node * Node) bool :=
  match fuel with
  | O => mret false
  | S fuel =>
    answer ← zoom snd (fun f nf => (nf.1, f)) (handle_request m);
    match answer with
    | None => mret false
    | Some a =>
      _ ← zoom fst (fun n nf => (n, nf.2)) (step a);
      if is_success a then mret true
      else
        next ← next_request (to m);
        match next with
        | Some m' => exchange fuel m'
        | None => mret false
        end
    end
  end.

(** A heartbeat of the leader and the rounds with [peer] it starts. *)
Definition catch_up (peer : NodeId) (elapsed : Z) (fuel : nat) : M (Node * Node) bool :=
  zoom fst (fun n nf => (n, nf.2)) (tick elapsed);;
  first ← next_request peer;
  match first with
  | Some m => exchange fuel m
  | None => mret false
  end.

Lemma wp_next_request peer n f (Q : option Message -> Node * Node -> Prop) X :
  Q (latest peer (outbox_ n)) (set_outbox_ [] n, f) -> wp (next_request peer) (n, f) Q X.
Proof. intros HQ. unfold next_request. wp_steps. apply wp_zoom. unfold take_messages. by wp_steps. Qed.

(** ** What the follower answers *)

Definition answered f q a : Prop :=
  aer_success a = true /\
    aer_match_index a = (ae_previous_log_index q + N.of_nat (length (ae_entries q)))%N \/
  aer_success a = false /\ reject_reason f q (aer_conflict_index a) (aer_conflict_term a).

Lemma reject_reason_frame f f1 q ci ct :
  log_ f1 = log_ f -> commit_index_ f1 = commit_index_ f ->
  reject_reason f1 q ci ct -> reject_reason f q ci ct.
Proof.
  intros Hl Hc Hr. destruct Hr as [Hs|e k Hp He Ht Hk|o a b [Hp1 Hp2] Ha Hb Hab Hle].
  - rewrite Hl. constructor. unfold last_log_index in *. by rewrite <- Hl.
  - econstructor; rewrite <- ?Hl; done.
  - eapply rr_committed; rewrite <- ?Hl, <- ?Hc; try done. split; by rewrite <- Hl.
Qed.

Lemma answered_frame f f1 q a :
  log_ f1 = log_ f -> commit_index_ f1 = commit_index_ f -> answered f1 q a -> answered f q a.
Proof.
  intros Hl Hc [?|[Hs Hr]]; [by left|right]. split; [done|]. by eapply reject_reason_frame.
Qed.

(** The one message a handler adds, and what it says. *)
Definition replied f sender q f' : Prop :=
  exists a, outbox_ f' = outbox_ f ++ [mkMessage (node_id (config_ f)) sender (AppendResponse a)] /\
    aer_request_id a = ae_request_id q /\ aer_term a = ae_term q /\
    current_term_ f' = ae_term q /\ answered f q a.

Lemma replied_frame f f1 sender q f' :
  log_ f1 = log_ f -> commit_index_ f1 = commit_index_ f -> outbox_ f1 = outbox_ f ->
  config_ f1 = config_ f -> replied f1 sender q f' -> replied f sender q f'.
Proof.
  intros Hl Hc Ho Hcf (a & Ha & Hid & Ht & Hcur & Hans). exists a. rewrite <- Ho, <- Hcf.
  split_and!; try done. by eapply answered_frame.
Qed.

(** Why the handler may fail instead: a failed save, or a request that contradicts
    the log or is too long for it. *)
Definition excused f q (x : failure) f' : Prop :=
  broken_save x (storage_ f') \/ mismatch f q \/
  (vector_max < N.of_nat (S (N.to_nat (ae_previous_log_index q)) + length (ae_entries q)))%N.

Lemma excused_frame f f1 q x f' : log_ f1 = log_ f -> excused f1 q x f' -> excused f q x f'.
Proof. intros Hl. unfold excused, mismatch. by rewrite Hl. Qed.

Lemma reply_from_leader f sender q :
  node_inv f -> state_ f = follower -> ae_term q = current_term_ f -> Forall wf_entry (ae_entries q) ->
  wp (append_from_leader sender q) f (fun _ f' => replied f sender q f') (excused f q).
Proof.
  intros Hf Hst HT Hwf. destruct (inv_log f Hf) as (l & Hl & _).
  apply (wp_append_from_leader f l); [done|done|done|done| | | | |].
  - intros ci ct Hr. eexists. node_simpl. split; [done|]. split; [done|].
    split; [done|]. split; [done|]. by right.
  - intros _ Hbad. by right; left.
  - intros Hlong n' _ _. by right; right.
  - intros Hpm _ st _ n1 _ _.
    assert (outbox_ n1 = outbox_ f /\ current_term_ n1 = current_term_ f /\ config_ n1 = config_ f)
      as (Hout & Ht & Hcf).
    { unfold n1, follower_commit. by destruct (_ <? _)%N. }
    eexists. node_simpl. unfold acceptance. rewrite Hout, Hcf. split; [done|].
    split; [done|]. split; [by rewrite HT|]. split; [by rewrite HT|].
    by left.
  - intros _ _ x n' Hb _ _ _. by left.
Qed.

Lemma reply_append_entries f sender q :
  node_inv f -> ae_leader_id q = sender -> ae_term q = current_term_ f ->
  existsb (entry_term_invalid q) (ae_entries q) = false ->
  wp (handle_append_entries_locked sender q) f (fun _ f' => replied f sender q f') (excused f q).
Proof.
  intros Hf Hid Ht Hv. pose proof (inv_term f Hf) as Hu. unfold handle_append_entries_locked. wp_steps.
  rewrite Hid, Ht, N.ltb_irrefl, Hv, bool_decide_eq_false_2 by auto. cbn [orb].
  assert (Forall wf_entry (ae_entries q)) as Hwf by (apply (valid_entries_wf q); [by rewrite Ht|done]).
  destruct (inv_log f Hf) as (l & Hl & _).
  assert (forall f1, node_inv f1 -> state_ f1 = follower -> log_ f1 = log_ f ->
    commit_index_ f1 = commit_index_ f -> outbox_ f1 = outbox_ f -> config_ f1 = config_ f ->
    current_term_ f1 = current_term_ f ->
    wp (append_from_leader sender q) f1 (fun _ f' => replied f sender q f') (excused f q)) as Hgo.
  { intros f1 Hf1 Hs1 Hl1 Hc1 Ho1 Hcf1 Ht1. eapply wp_mono; [apply reply_from_leader; try done; congruence| |].
    - intros [] f'. by apply replied_frame.
    - intros x f'. by apply excused_frame. }
  wp_steps. destruct (_ || _) eqn:Hb.
  - eapply wp_become_follower; [done|done|done| |intros; lia|intros; lia].
    intros _ t r Hd. by apply Hgo.
  - apply orb_false_iff in Hb as [Hs%bool_decide_eq_false _]. apply dec_stable in Hs.
    pose proof (cfg_max _ (inv_config f Hf)).
    apply wp_reset; [done|]. intros t r Htr. apply Hgo; try done. by apply inv_reset.
Qed.

Lemma peer_is_peer f p : node_inv f -> p ∈ peers (config_ f) -> is_peer f p = true.
Proof.
  intros Hf Hp. pose proof (cfg_nodup _ (inv_config f Hf)) as [Hni _]%NoDup_cons.
  apply andb_true_iff. rewrite !bool_decide_eq_true, (inv_members f Hf). set_solver.
Qed.

Lemma reply_handle_request f m q :
  node_inv f -> rpc m = AppendRequest q -> to m = node_id (config_ f) -> from m ∈ peers (config_ f) ->
  ae_leader_id q = from m -> is_u64 (ae_term q) -> (current_term_ f <= ae_term q)%N ->
  existsb (entry_term_invalid q) (ae_entries q) = false ->
  wp (handle_request m) f
    (fun r f' => exists a, r = Some (mkMessage (node_id (config_ f)) (from m) (AppendResponse a)) /\
       aer_request_id a = ae_request_id q /\ aer_term a = ae_term q /\
       current_term_ f' = ae_term q /\ answered f q a)
    (excused f q).
Proof.
  intros Hf Hm Hto Hp Hid Hu Hle Hv. unfold handle_request. rewrite Hm. wp_steps.
  unfold step_locked. wp_steps. rewrite Hto, N.eqb_refl, peer_is_peer by done. cbn [negb orb].
  unfold message_term. rewrite Hm. wp_steps. destruct (inv_log f Hf) as (l & Hl & _).
  apply (wp_mono _ _ (fun _ f1 => node_inv f1 /\ ae_term q = current_term_ f1 /\ log_ f1 = log_ f /\
    commit_index_ f1 = commit_index_ f /\ outbox_ f1 = outbox_ f /\ config_ f1 = config_ f) _
    (excused f q)); [| |done].
  { apply wp_when; intros Hb; [apply N.ltb_lt in Hb|apply N.ltb_ge in Hb; split_and!; try done; lia].
    eapply wp_become_follower; [done|done|done|intros; lia|done|].
    intros _ x f' Hx _ _. by left. }
  intros [] f1 (Hf1 & Ht & Hl1 & Hc1 & Ho1 & Hcf1). wp_steps.
  eapply wp_mono; [by apply reply_append_entries| |intros x f2; by apply excused_frame].
  intros [] f2 Hr. apply (replied_frame f) in Hr as (a & Ha & Hrid & Hta & Hcur & Hans); try done.
  wp_steps. rewrite Ha, take_app_length, drop_app_length, extract_single.
  - wp_steps. exists a. split_and!; try done.
  - unfold answers. rewrite Hm. simpl. by rewrite Hrid, !N.eqb_refl.
Qed.
End answer.

(** ** A rejection makes progress *)

Section progress.
Context {St E : Type} `{HSt : RaftStorage St} `{HSpec : !RaftStorageSpec St} `{HE : RandomEngine E}.
Context (members : gset NodeId).
Abbreviation Node := (RaftNode St E).
Abbreviation PInv := (PInv members).
Abbreviation node_rel := (node_rel members).
Implicit Types (s : Protocol) (n f : Node).

Context (s : Protocol) (Hs : PInv s) (j : NodeId) (f : Node) (Hf : node_rel s j f).
Context (i : NodeId) (L : list LogEntry) (q : AppendEntriesRequest).
Abbreviation prev := (N.to_nat (ae_previous_log_index q)).
Context (HL : p_tlog s (ae_term q) = Some (i, L)) (Hle : (current_term_ f <= ae_term q)%N).
Context (Hprev : prev <= length L) (Hes : take prev L ++ ae_entries q `prefix_of` L).
Context (Hterm : ae_previous_log_index q = 0%N \/
  exists b, L !! (prev - 1) = Some b /\ term b = ae_previous_log_term q).

Lemma follower_entry k a : log_ f !! S k = Some a -> p_log s j !! k = Some a.
Proof. by rewrite (nr_log _ _ _ _ Hf). Qed.

(** The follower's committed entries are the leader's: none is ever rejected. *)
Lemma committed_not_rejected o a b :
  log_ f !! (S prev + o) = Some a -> ae_entries q !! o = Some b ->
  (N.of_nat (S prev + o) <= commit_index_ f)%N -> a = b.
Proof.
  intros Ha Hb Hc. apply (follower_entry (prev + o)) in Ha.
  pose proof (piece_entry L prev _ o b Hes Hprev Hb) as HLb.
  assert (take (N.to_nat (commit_index_ f)) (p_log s j) `prefix_of` L) as Hpre
    by (eapply chosen_tlog; [exact Hs|apply (nr_chosen _ _ _ _ Hf)|exact HL|done]).
  apply (take_prefix_lookup _ _ _ _ _ Ha) in Hpre; [congruence|lia].
Qed.

(** Log matching: no entry of the request contradicts the follower's log. *)
Lemma no_mismatch : ~ mismatch f q.
Proof.
  intros (o & a & b & Ha & Hb & Hab & Hne). destruct Hne.
  rewrite (nr_log _ _ _ _ Hf) in Ha. simpl in Ha.
  pose proof (piece_entry L prev _ o b Hes Hprev Hb) as HLb.
  pose proof (term_agrees _ s Hs _ _ _ _ _ _ _ _ HL Ha HLb Hab (le_n _)). congruence.
Qed.

(** The follower holds what it acknowledged: a rejected request starts later. *)
Lemma rejected_above_match ci ct (m : nat) :
  reject_reason f q ci ct -> m <= p_ack s (j, ae_term q) -> m < prev.
Proof.
  intros Hr Hm. destruct (decide (m < prev)) as [|Hge]; [done|exfalso].
  assert (take prev L `prefix_of` p_log s j) as Hheld.
  { etrans; [|eapply (held members s Hs); [exact HL|by rewrite (nr_term _ _ _ _ Hf)]].
    apply take_prefix_mono. lia. }
  destruct Hr as [Hshort|e k Hpos He Hne _|o a b _ Ha Hb Hab Hc].
  - apply prefix_length in Hheld. rewrite length_take_le in Hheld by done.
    rewrite (inv_last f (nr_inv _ _ _ _ Hf)), (nr_log _ _ _ _ Hf) in Hshort. simpl in Hshort. lia.
  - destruct Hterm as [?|(b & Hb & Hbt)]; [lia|].
    replace prev with (S (prev - 1)) in He by lia. apply follower_entry in He.
    apply (take_prefix_lookup _ _ _ _ _ Hb) in Hheld; [congruence|lia].
  - by rewrite (committed_not_rejected o a b Ha Hb Hc) in Hab.
Qed.

(** Entries of the leader with the follower's conflicting term lie before the
    conflict, or the logs would agree there. *)
Lemma conflict_below x e e' :
  (0 < ae_previous_log_index q)%N -> log_ f !! prev = Some e -> term e <> ae_previous_log_term q ->
  L !! x = Some e' -> term e' = term e -> S x < prev.
Proof.
  intros Hpos He Hne Hx Hee. destruct (decide (S x < prev)) as [|Hge]; [done|exfalso].
  destruct Hterm as [?|(b & Hb & Hbt)]; [lia|].
  replace prev with (S (prev - 1)) in He by lia. apply follower_entry in He.
  assert (L !! (prev - 1) = Some e) as HLe
    by (apply (term_agrees members s Hs j _ i L (prev - 1) x e e' HL He Hx); [congruence|lia]).
  congruence.
Qed.

(** The next index the leader settles on after a rejection is smaller. *)
Lemma retry_below n a (m k0 : N) :
  log_ n = default_entry :: L -> N.to_nat m <= p_ack s (j, ae_term q) ->
  reject_reason f q (aer_conflict_index a) (aer_conflict_term a) -> resume_point n a k0 ->
  (retry_index n m k0 <= ae_previous_log_index q)%N.
Proof.
  intros Hn Hm Hr Hk0. pose proof (rejected_above_match _ _ _ Hr Hm) as Hlow.
  enough (k0 <= ae_previous_log_index q)%N by (unfold retry_index; lia).
  remember (aer_conflict_index a) as ci eqn:Hci. remember (aer_conflict_term a) as ct eqn:Hct.
  destruct Hr as [Hshort|e k Hpos He Hne [Hrun _]|o x y _ Hx Hy Hxy Hc].
  - rewrite (inv_last f (nr_inv _ _ _ _ Hf)) in Hshort.
    destruct Hk0 as [->|(? & ? & ? & ? & _)]; [|congruence]. lia.
  - destruct Hk0 as [->|(t & x & e' & Ht & Hx & He' & Hte & ->)]; [lia|].
    rewrite <- Hct in Ht. injection Ht as <-. destruct x as [|x]; [lia|]. rewrite Hn in He'.
    pose proof (conflict_below x e e' Hpos He Hne He' Hte). lia.
  - by rewrite (committed_not_rejected o x y Hx Hy Hc) in Hxy.
Qed.
End progress.

(** ** The leader's side *)

Section leader_side.
Context {St E : Type} `{HSt : RaftStorage St} `{HSpec : !RaftStorageSpec St} `{HE : RandomEngine E}.
Abbreviation Node := (RaftNode St E).
Implicit Types (n : Node) (a : AppendEntriesResponse).

(** The request the leader waits on: the last one it sent to [j]. *)
Record pending n j m : Prop := {
  pend_message : is_append_message n m;
  pend_to : to m = j;
  pend_tag : tagged (append_request_id_ n) m
}.

(** What lies between two commit indexes was handed to the state machine. *)
Record delivers n n' : Prop := {
  dl_commit : (commit_index_ n <= commit_index_ n')%N;
  dl_keeps : forall ce, ce ∈ committed_entries_ n -> ce ∈ committed_entries_ n';
  dl_new : forall k e, log_ n !! N.to_nat k = Some e -> is_no_op e = false ->
    (commit_index_ n < k <= commit_index_ n')%N ->
    mkCommitted k (term e) (command e) ∈ committed_entries_ n'
}.

Lemma delivers_same n n' :
  commit_index_ n' = commit_index_ n -> committed_entries_ n' = committed_entries_ n -> delivers n n'.
Proof. intros Hc He. split; [lia|by rewrite He|lia]. Qed.

Lemma delivers_trans n n1 n2 : log_ n1 = log_ n -> delivers n n1 -> delivers n1 n2 -> delivers n n2.
Proof.
  intros Hl [H1 H2 H3] [H4 H5 H6]. rewrite Hl in H6. split; [lia|auto|].
  intros k e Hk He Hle. destruct (decide (k <= commit_index_ n1)%N); [apply H5, H3; auto; lia|].
  apply H6; auto; lia.
Qed.

Lemma publish_elem log (start count k : nat) e :
  log !! k = Some e -> is_no_op e = false -> start <= k < start + count ->
  mkCommitted (N.of_nat k) (term e) (command e) ∈ publish log start count.
Proof.
  intros Hk He Hle. apply list_elem_of_omap. exists k. split; [by apply elem_of_seq|]. by rewrite Hk, He.
Qed.

Lemma delivers_committed n n' : node_inv n -> maybe_committed n n' -> delivers n n'.
Proof.
  intros Hn [->|(c & Hc & ->)]; [by apply delivers_same|]. pose proof (qh_new _ _ Hc).
  pose proof (inv_applied n Hn) as Happ. split; unfold commit_to; node_simpl; [lia|set_solver|].
  intros k e Hk He Hle. apply elem_of_app. right. rewrite <- (N2Nat.id k) at 1.
  apply publish_elem; [done|done|lia].
Qed.

(** What the exchange leaves alone. *)
Record same_reign n n' : Prop := {
  reign_state : state_ n' = leader;
  reign_term : current_term_ n' = current_term_ n;
  reign_log : log_ n' = log_ n;
  reign_config : config_ n' = config_ n;
  reign_members : members_ n' = members_ n;
  reign_delivers : delivers n n'
}.

Lemma reign_refl n : state_ n = leader -> same_reign n n.
Proof. intros Hst. by split; [..|apply delivers_same]. Qed.

Lemma reign_sent n n' ms r :
  same_reign n n' -> same_reign n (set_outbox_ ms (set_append_request_id_ r n')).
Proof. intros [? ? ? ? ? []]. by split. Qed.

Lemma reign_taken n n' : same_reign n n' -> same_reign n (set_outbox_ [] n').
Proof. intros [? ? ? ? ? []]. by split. Qed.

(** Once a majority holds the whole log, all of it is committed. *)
Definition settled n : Prop :=
  (exists e, last (log_ n) = Some e /\ term e = current_term_ n) ->
  (quorum_size n <=
     1 + N.of_nat (length (replicas (match_index_ n) (peers (config_ n)) (last_log_index n))))%N ->
  commit_index_ n = last_log_index n.

Lemma advanced_settled n n' :
  node_inv n -> maybe_committed n n' -> node_inv n' ->
  (forall c, quorum_holds c n -> (c <= commit_index_ n')%N) -> settled n'.
Proof.
  intros Hn Hmc Hn' Hmax (e & He & Hte) Hq.
  assert (log_ n' = log_ n /\ current_term_ n' = current_term_ n /\ members_ n' = members_ n /\
    match_index_ n' = match_index_ n /\ config_ n' = config_ n /\ (commit_index_ n <= commit_index_ n')%N)
    as (Hl & Ht & Hme & Hma & Hcf & Hle).
  { destruct Hmc as [->|(c & Hc & ->)]; split_and!; try done. pose proof (qh_new _ _ Hc).
    unfold commit_to. node_simpl. lia. }
  pose proof (inv_commit n' Hn') as Hc'. pose proof (inv_last n' Hn') as Hlast.
  destruct (decide (commit_index_ n < last_log_index n')%N) as [Hlt|]; [|lia].
  enough (last_log_index n' <= commit_index_ n')%N by lia. apply Hmax.
  unfold quorum_size in Hq. rewrite Hme, Hma, Hcf in Hq. split; [done| | |done]; rewrite <- Hl.
  - lia.
  - exists e. rewrite last_lookup in He. split; [|congruence]. rewrite <- He. f_equal. lia.
Qed.

Lemma latest_snoc j ms m : to m = j -> latest j (ms ++ [m]) = Some m.
Proof.
  intros Hm. unfold latest. rewrite filter_app, filter_cons_True, filter_nil by done. apply last_snoc.
Qed.

Lemma step_response n j a (Q : bool -> Node -> Prop) X :
  node_inv n -> state_ n = leader -> j ∈ peers (config_ n) -> aer_term a = current_term_ n ->
  wp (if aer_success a then on_append_success j a else on_append_failure j a) n (fun _ => Q true) X ->
  wp (step (mkMessage j (node_id (config_ n)) (AppendResponse a))) n Q X.
Proof.
  intros Hn Hst Hj Ht HQ. unfold step, step_locked. wp_steps. cbn [to from rpc message_term].
  rewrite N.eqb_refl, peer_is_peer, Ht, N.ltb_irrefl by done. cbn [negb orb when]. wp_steps.
  unfold handle_append_entries_response_locked. wp_steps.
  rewrite Hst, Ht, N.eqb_refl. cbn [negb orb]. rewrite bool_decide_eq_false_2 by auto. cbn [orb].
  destruct (aer_success a); eapply wp_mono; [exact HQ| |done|exact HQ| |done]; intros []; done.
Qed.

Lemma step_acknowledged n j a (X : failure -> Node -> Prop) :
  node_inv n -> state_ n = leader -> j ∈ peers (config_ n) -> aer_term a = current_term_ n ->
  aer_success a = true -> aer_match_index a = last_log_index n ->
  wp (step (mkMessage j (node_id (config_ n)) (AppendResponse a))) n
    (fun _ n' => same_reign n n' /\ settled n' /\
       match_index_ n' = <[j := last_log_index n]> (match_index_ n)) X.
Proof.
  intros Hn Hst Hj Ht Hsu Hm. apply step_response; [done|done|done|done|]. rewrite Hsu.
  pose proof (inv_log_pos n Hn). rewrite inv_last in * by done.
  destruct (inv_leader n Hn Hst j Hj) as (m0 & k0 & Hm0 & _ & Hmk & Hk).
  apply wp_append_success; [done|done|done|lia|].
  intros _ m k n2 ms rq Hmj n1 Hn1 Hmc Hn2 _ Hmax. rewrite Hm0 in Hmj. injection Hmj as <-. node_simpl.
  pose proof (advanced_settled n1 n2 Hn1 Hmc Hn2 Hmax) as Hset.
  assert (same_reign n n2) as Hreign.
  { pose proof (delivers_committed n1 n2 Hn1 Hmc) as [].
    destruct Hmc as [->|(c & _ & ->)]; by split. }
  assert (match_index_ n2 = match_index_ n1) as -> by (by destruct Hmc as [->|(c & _ & ->)]).
  split; [by apply reign_sent|]. split; [exact Hset|]. unfold n1, acked. node_simpl. f_equal. lia.
Qed.

Lemma step_rejected n j a (X : failure -> Node -> Prop) :
  node_inv n -> state_ n = leader -> j ∈ peers (config_ n) -> aer_term a = current_term_ n ->
  aer_success a = false -> append_request_id_ n !! j = Some (aer_request_id a) ->
  wp (step (mkMessage j (node_id (config_ n)) (AppendResponse a))) n
    (fun _ n' => same_reign n n' /\ match_index_ n' = match_index_ n /\
       exists m k0 msg, match_index_ n !! j = Some m /\
       resume_point n a k0 /\ next_index_ n' !! j = Some (retry_index n m k0) /\ pending n' j msg /\
       latest j (outbox_ n') = Some msg) X.
Proof.
  intros Hn Hst Hj Ht Hsu Hid. apply step_response; [done|done|done|done|]. rewrite Hsu.
  apply wp_append_failure; [done|done|done|done|].
  intros m k0 msg rq rq' Hm Hk0 n1 _ Hmsg Hto Htag.
  split; [by apply reign_sent; split; [..|apply delivers_same]|].
  split; [unfold n1, acked; node_simpl; by apply insert_id|]. exists m, k0, msg. split; [done|].
  split; [done|]. split; [apply lookup_insert_eq|].
  split; [done|]. by apply latest_snoc.
Qed.
End leader_side.

(** ** Convergence *)

Section converge.
Context {St E : Type} `{HSt : RaftStorage St} `{HSpec : !RaftStorageSpec St} `{HE : RandomEngine E}.
Context (members : gset NodeId).
Abbreviation Node := (RaftNode St E).
Abbreviation PInv := (PInv members).
Abbreviation node_rel := (node_rel members).
Implicit Types (s : Protocol) (n f : Node).

(** The follower stores the whole log of the leader, and the leader knows. *)
Record converged n j (nf : Node * Node) : Prop := {
  cv_reign : same_reign n nf.1;
  cv_match : match_index_ nf.1 = <[j := last_log_index n]> (match_index_ n);
  cv_stored : log_ n `prefix_of` log_ nf.2;
  cv_settled : settled nf.1
}.

(** A save of the follower failed; the leader still leads. *)
Definition follower_failed n (x : failure) (nf : Node * Node) : Prop :=
  same_reign n nf.1 /\ exists ps st, storage_save ps st = (storage_ nf.2, Fail x).

Lemma reign_trans n n1 n2 : same_reign n n1 -> same_reign n1 n2 -> same_reign n n2.
Proof.
  intros Hr Hr1. pose proof Hr as [? ? ? ? ? Hd]. destruct Hr1 as [? ? ? ? ? Hd1].
  split; try congruence. by eapply delivers_trans.
Qed.

Lemma converged_trans n n1 j nf :
  same_reign n n1 -> match_index_ n1 = match_index_ n -> converged n1 j nf -> converged n j nf.
Proof.
  intros Hr Hm [H1 H2 H3 H4]. pose proof (reign_log _ _ Hr) as Hl. unfold last_log_index in H2.
  rewrite Hl, Hm in H2. rewrite Hl in H3. split; [by eapply reign_trans|done..].
Qed.

(** The entries a leader sends pass the follower's checks. *)
Lemma entries_valid s i L q :
  PInv s -> p_tlog s (ae_term q) = Some (i, L) ->
  take (N.to_nat (ae_previous_log_index q)) L ++ ae_entries q `prefix_of` L ->
  N.to_nat (ae_previous_log_index q) <= length L ->
  existsb (entry_term_invalid q) (ae_entries q) = false.
Proof.
  intros Hs HL Hes Hp. apply not_true_is_false. intros (e & He & Hbad)%existsb_exists.
  apply list_elem_of_In, list_elem_of_lookup in He as [o Ho].
  apply (piece_entry L _ _ _ _ Hes Hp) in Ho.
  destruct (pi_tlog _ s Hs _ _ _ HL) as [(_ & _ & Hle) _]. specialize (Hle _ _ Ho).
  unfold entry_term_invalid in Hbad. destruct (N.eqb_spec (term e) 0); [lia|].
  destruct (N.ltb_spec (ae_term q) (term e)); [lia|done].
Qed.

(** One answer of the follower, with the protocol state it leads to. *)
Lemma follower_round s i j n f m :
  PInv s -> node_rel s i n -> node_rel s j f -> i ∈ members -> i <> j -> state_ n = leader ->
  (current_term_ f <= current_term_ n)%N -> pending n j m ->
  exists k q, next_index_ n !! j = Some k /\ (0 < k)%N /\ (k <= N.of_nat (length (log_ n)))%N /\
  ae_previous_log_index q = (k - 1)%N /\ ae_entries q = drop (N.to_nat k) (log_ n) /\
  request_id m = Some (ae_request_id q) /\ ae_term q = current_term_ n /\
  rpc_ok members s i j (AppendRequest q) /\
  wp (handle_request m) f
    (fun r f' => exists s' a, frame members j s s' /\ node_rel s' j f' /\
       r = Some (mkMessage j i (AppendResponse a)) /\ msg_ok members s' (mkMessage j i (AppendResponse a)) /\
       aer_request_id a = ae_request_id q /\ aer_term a = current_term_ n /\
       current_term_ f' = current_term_ n /\ answered f q a)
    (fun x f' => broken_save x (storage_ f')).
Proof.
  intros Hs Hn Hf Hi Hij Hst Hle [Hmsg Hto Htag].
  destruct (append_message_ok members s i n m Hn Hst Hmsg) as [Hfrom Hmok].
  destruct Hmsg as (p & k & e & rid & Hp & Hk & Hpos & Hkl & He & ->). cbn [to] in Hto.
  change (p = j) in Hto. change (node_id (config_ n) = i) in Hfrom. subst p.
  set (q := mkAppendRequest (current_term_ n) (node_id (config_ n)) (k - 1) (term e)
    (drop (N.to_nat k) (log_ n)) (commit_index_ n) rid).
  assert (i ∈ peers (config_ f)) as Hif by (apply (rel_peer members s j f); done).
  assert (rpc_ok members s i j (AppendRequest q)) as Hq by (rewrite <- Hfrom; apply Hmok).
  exists k, q. do 8 (split; [done|]).
  destruct Hq as (_ & L & HL & Hpl & Hes & _).
  pose proof (entries_valid s i L q Hs HL Hes Hpl) as Hv.
  pose proof (sim_handle_request members s j f _ Hs Hf Hmok) as Hsim.
  pose proof (reply_handle_request f (append_message n j k e rid) q (nr_inv _ _ _ _ Hf) eq_refl
    (eq_sym (nr_id _ _ _ _ Hf)) ltac:(by rewrite <- Hfrom in Hif) eq_refl
    (inv_term n (nr_inv _ _ _ _ Hn)) Hle Hv) as Hr.
  cbn [append_message from] in Hr. rewrite Hfrom in Hr.
  eapply wp_mono; [exact (wp_conj _ _ _ _ _ _ Hsim Hr)| |].
  2:{ intros x f' [_ [?|[Hbad|Hlong]]]; [done| |].
      - by destruct (no_mismatch members s Hs j f Hf i L q HL Hpl Hes).
      - unfold q in Hlong. cbn [ae_previous_log_index ae_entries] in Hlong. rewrite length_drop in Hlong.
        pose proof (inv_length n (nr_inv _ _ _ _ Hn)). lia. }
  intros r f' [(s' & Hfr & Hf' & Hans) (a & -> & Hid & Ht & Hcur & Hansw)].
  exists s', a. rewrite (nr_id _ _ _ _ Hf) in *. split_and!; try done. by apply Hans.
Qed.

(** What an acknowledgement of the last index means. *)
Lemma acknowledged_holds s i j n f a :
  PInv s -> node_rel s i n -> node_rel s j f -> state_ n = leader ->
  current_term_ f = current_term_ n -> aer_term a = current_term_ n ->
  aer_success a = true -> aer_match_index a = last_log_index n ->
  msg_ok members s (mkMessage j i (AppendResponse a)) -> log_ n `prefix_of` log_ f.
Proof.
  intros Hs Hn Hf Hst Hcur Ht Hsu Hm [_ Hack]. cbn in Hack. specialize (Hack Hsu).
  rewrite Hm, Ht, (inv_last n (nr_inv _ _ _ _ Hn)), (nr_log _ _ _ _ Hn) in Hack. simpl in Hack.
  rewrite (nr_log _ _ _ _ Hn), (nr_log _ _ _ _ Hf). apply prefix_cons.
  pose proof (held members s Hs j _ _ _ (leader_tlog members s i n Hn Hst)) as Hheld.
  rewrite (nr_term _ _ _ _ Hf), Hcur, take_ge in Hheld by lia. by apply Hheld.
Qed.

(** A rejection leads to a request of a smaller index. *)
Lemma leader_retries s s' i j n f q a :
  PInv s -> PInv s' -> node_rel s i n -> node_rel s' i n -> node_rel s j f -> j ∈ peers (config_ n) ->
  state_ n = leader -> (current_term_ f <= current_term_ n)%N -> ae_term q = current_term_ n ->
  rpc_ok members s i j (AppendRequest q) -> msg_ok members s' (mkMessage j i (AppendResponse a)) ->
  append_request_id_ n !! j = Some (aer_request_id a) -> aer_term a = current_term_ n ->
  aer_success a = false -> reject_reason f q (aer_conflict_index a) (aer_conflict_term a) ->
  wp (step (mkMessage j i (AppendResponse a))) n
    (fun _ n' => same_reign n n' /\ match_index_ n' = match_index_ n /\ sim members s' i n' /\
       exists msg k, pending n' j msg /\ latest j (outbox_ n') = Some msg /\
       next_index_ n' !! j = Some k /\ (k <= ae_previous_log_index q)%N)
    (fun _ _ => False).
Proof.
  intros Hs Hs' Hn Hn' Hf Hj Hst Hle Ht Hq Hans Hid Hta Hsu Hr.
  pose proof (sim_step members s' i n _ Hs' Hn' Hans) as Hsim.
  pose proof (step_rejected n j a (fun _ _ => False) (nr_inv _ _ _ _ Hn) Hst Hj Hta Hsu Hid) as Hstep.
  rewrite (nr_id _ _ _ _ Hn) in Hstep.
  eapply wp_mono; [exact (wp_conj _ _ _ _ _ _ Hsim Hstep)| |by intros ? ? []].
  intros _ n1 [Hsim1 (Hreign & Hmi & m & k0 & msg & Hm & Hk0 & Hnext & Hpend & Hlatest)].
  split; [done|]. split; [done|]. split; [done|]. eexists msg, _. split; [done|]. split; [done|]. split; [done|].
  destruct Hq as (_ & L & HL & Hpl & Hes & Hprev & _).
  pose proof (leader_tlog members s i n Hn Hst) as HLn. rewrite <- Ht, HL in HLn. injection HLn as HLn.
  eapply (retry_below members s Hs j f Hf i L q); try done; [by rewrite Ht|by rewrite HLn; apply Hn|].
  rewrite Ht. by eapply leader_acks.
Qed.

(** The exchange moves the two nodes and no other. *)
Definition moves_both s i j (nf : Node * Node) : Prop :=
  exists s', PInv s' /\ node_rel s' i nf.1 /\ node_rel s' j nf.2 /\
    forall p (x : Node), p <> i -> p <> j -> node_rel s p x -> node_rel s' p x.

Lemma moves_trans s s1 i j nf :
  (forall p (x : Node), p <> i -> p <> j -> node_rel s p x -> node_rel s1 p x) ->
  moves_both s1 i j nf -> moves_both s i j nf.
Proof. intros H (s' & H1 & H2 & H3 & H4). exists s'. split_and!; auto. Qed.

Lemma exchange_converges fuel s i j n f m k :
  PInv s -> node_rel s i n -> node_rel s j f -> i ∈ members -> j ∈ members -> i <> j ->
  state_ n = leader -> (current_term_ f <= current_term_ n)%N -> pending n j m ->
  next_index_ n !! j = Some k -> N.to_nat k <= fuel ->
  wp (exchange fuel m) (n, f) (fun b nf => b = true /\ converged n j nf /\ moves_both s i j nf)
    (follower_failed n).
Proof.
  revert s n f m k. induction fuel as [|fuel IH]; intros s n f m k Hs Hn Hf Hi Hj Hij Hst Hle Hm Hk Hfuel;
    destruct (follower_round s i j n f m Hs Hn Hf Hi Hij Hst Hle Hm)
      as (k' & q & Hk' & Hpos & Hkl & Hprev & Hes & Hrid & Hqt & Hq & Hround);
    rewrite Hk in Hk'; injection Hk' as <-; [lia|].
  cbn [exchange]. wp_steps. apply wp_zoom.
  eapply wp_mono; [exact Hround| |].
  2:{ intros x f1 [_ Hrun]. split; [by apply reign_refl|done]. }
  intros r f1 (s1 & a & Hfr & Hf1 & -> & Hans & Hid & Hta & Hcur & Hcase). cbn [fst snd]. wp_steps.
  destruct (frame_grows_inv members _ _ _ Hs Hfr) as [_ Hs1].
  pose proof (node_frame members j i s s1 n Hs Hfr Hij Hn) as Hn1.
  assert (j ∈ peers (config_ n)) as Hp by (apply (rel_peer members s i n); auto).
  pose proof (nr_inv _ _ _ _ Hn) as Hinv. apply wp_zoom. cbn [fst snd].
  destruct Hcase as [[Hsu Hmi]|[Hsu Hr]].
  - assert (aer_match_index a = last_log_index n) as Hlast.
    { rewrite Hmi, Hprev, Hes, length_drop, inv_last by done. lia. }
    pose proof (step_acknowledged n j a (fun _ _ => False) Hinv Hst Hp Hta Hsu Hlast) as Hstep.
    rewrite (nr_id _ _ _ _ Hn) in Hstep. pose proof (sim_step members s1 i n _ Hs1 Hn1 Hans) as Hsim.
    eapply wp_mono; [exact (wp_conj _ _ _ _ _ _ Hsim Hstep)| |by intros ? ? []].
    intros _ n1 [(s2 & Hfr2 & Hn2) (Hreign & Hset & Hmatch)]. cbn [is_success rpc]. rewrite Hsu. wp_steps.
    destruct (frame_grows_inv members _ _ _ Hs1 Hfr2) as [_ Hs2].
    split; [done|]. split; [split; [done|done|by apply (acknowledged_holds s1 i j n f1 a)|done]|].
    exists s2. split; [done|]. split; [done|]. split.
    + by apply (node_frame members i j s1 s2 f1 Hs1 Hfr2 (not_eq_sym Hij)).
    + intros p x Hpi Hpj Hx. apply (node_frame members i p s1); [done|done|done|].
      by apply (node_frame members j p s).
  - assert (append_request_id_ n !! j = Some (aer_request_id a)) as Htag.
    { pose proof (pend_tag _ _ _ Hm) as Htag. unfold tagged in Htag.
      by rewrite (pend_to _ _ _ Hm), Hrid, <- Hid in Htag. }
    pose proof (leader_retries s s1 i j n f q a Hs Hs1 Hn Hn1 Hf Hp Hst Hle Hqt Hq Hans Htag Hta Hsu Hr)
      as Hstep.
    eapply wp_mono; [exact Hstep| |done].
    intros _ n1 (Hreign & Hmi & (s2 & Hfr2 & Hn2) & msg & k1 & Hpend & Hlatest & Hk1 & Hk1le).
    cbn [is_success rpc]. rewrite Hsu. wp_steps. apply wp_next_request. cbn [fst snd].
    rewrite (pend_to _ _ _ Hm), Hlatest.
    destruct (frame_grows_inv members _ _ _ Hs1 Hfr2) as [_ Hs2].
    pose proof (node_frame members i j s1 s2 f1 Hs1 Hfr2 (not_eq_sym Hij) Hf1) as Hf2.
    apply reign_taken in Hreign.
    eapply wp_mono; [apply (IH s2 (set_outbox_ [] n1) f1 msg k1); try done| |].
    + by apply rel_set_outbox.
    + apply Hreign.
    + rewrite (reign_term _ _ Hreign). lia.
    + by destruct Hpend.
    + lia.
    + intros b nf (-> & Hc & Hmv). split; [done|]. split; [by eapply converged_trans|].
      eapply moves_trans; [|exact Hmv]. intros p x Hpi Hpj Hx.
      apply (node_frame members i p s1); [done|done|done|]. by apply (node_frame members j p s).
    + intros x nf [Hr' Hx]. split; [by eapply reign_trans|done].
Qed.
End converge.

(** ** Reachable clusters *)

Lemma latest_broadcast j o ms :
  j ∈ to <$> ms -> exists m, m ∈ ms /\ to m = j /\ latest j (o ++ ms) = Some m.
Proof.
  intros (m0 & -> & Hm0)%list_elem_of_fmap. unfold latest. rewrite filter_app.
  destruct (last (filter (fun m => to m = to m0) ms)) as [m|] eqn:Hl.
  - exists m. apply last_Some_elem_of in Hl as Hin. apply list_elem_of_filter in Hin as [Hto Hin].
    split; [done|]. split; [done|]. by rewrite last_app, Hl.
  - apply last_None in Hl. exfalso. assert (m0 ∈ filter (fun m => to m = to m0) ms) as Hin
      by (by apply list_elem_of_filter). rewrite Hl in Hin. by apply not_elem_of_nil in Hin.
Qed.

Section reachable.
Context {St E : Type} `{HSt : RaftStorage St} `{HSpec : !RaftStorageSpec St} `{HE : RandomEngine E}.
Context (members : gset NodeId) (config : NodeId -> RaftConfig).
Context (Hconfig : cluster_config members config).
Abbreviation PInv := (PInv members).
Abbreviation node_rel := (node_rel members).
Implicit Types (c : Cluster St E) (n f : RaftNode St E) (i j : NodeId).

(** A heartbeat leaves a request for every peer. *)
Lemma heartbeat_pending n j elapsed (X : failure -> RaftNode St E -> Prop) :
  node_inv n -> state_ n = leader -> j ∈ peers (config_ n) -> (heartbeat_interval (config_ n) <= elapsed)%Z ->
  wp (tick elapsed) n
    (fun _ n' => same_reign n n' /\ match_index_ n' = match_index_ n /\
       exists m, pending n' j m /\ latest j (outbox_ n') = Some m) X.
Proof.
  intros Hn Hst Hj Hel. pose proof (inv_config n Hn) as []. pose proof (inv_heartbeat n Hn).
  unfold tick. destruct (Z.ltb_spec elapsed 0); [lia|]. wp_steps.
  rewrite decide_True by done. wp_steps. apply wp_i64_sub; [unfold is_i64; lia|].
  destruct (Z.leb_spec (heartbeat_interval (config_ n) - heartbeat_elapsed_ n) elapsed); [|lia]. wp_steps.
  apply wp_broadcast_tagged; [|done|].
  { destruct Hn; constructor; node_simpl; auto; lia. }
  intros ms r Hms Hto Htag. split; [by apply reign_sent; split; [..|apply delivers_same]|].
  split; [done|]. node_simpl.
  destruct (latest_broadcast j (outbox_ n) ms) as (m & Hm & Hmj & Hl); [by rewrite Hto|].
  rewrite Forall_forall in Hms, Htag. exists m. split; [|done]. split; [by apply Hms|done|by apply Htag].
Qed.

(** Log repair ends: one heartbeat and at most as many rounds as the leader has
    log entries, and the follower holds the leader's log. *)
Lemma catch_up_converges s i j n f elapsed fuel :
  PInv s -> node_rel s i n -> node_rel s j f -> i ∈ members -> j ∈ members -> i <> j ->
  state_ n = leader -> (current_term_ f <= current_term_ n)%N -> (current_term_ n < u64_max)%N ->
  (heartbeat_interval (config_ n) <= elapsed)%Z -> length (log_ n) <= fuel ->
  wp (catch_up j elapsed fuel) (n, f)
    (fun b nf => b = true /\ converged n j nf /\ moves_both members s i j nf) (follower_failed n).
Proof.
  intros Hs Hn Hf Hi Hj Hij Hst Hle Hmax Hel Hfuel.
  assert (j ∈ peers (config_ n)) as Hp by (apply (rel_peer members s i n); auto).
  unfold catch_up. wp_steps. apply wp_zoom. cbn [fst snd].
  pose proof (sim_tick members s i n elapsed Hs Hn Hmax) as Hsim.
  pose proof (heartbeat_pending n j elapsed (fun _ _ => False) (nr_inv _ _ _ _ Hn) Hst Hp Hel) as Hbeat.
  eapply wp_mono; [exact (wp_conj _ _ _ _ _ _ Hsim Hbeat)| |by intros ? ? []].
  intros [] n1 [(s1 & Hfr & Hn1) (Hreign & Hmi & m & Hm & Hlatest)]. wp_steps.
  apply wp_next_request. cbn [fst snd]. rewrite Hlatest. apply reign_taken in Hreign.
  destruct (frame_grows_inv members _ _ _ Hs Hfr) as [_ Hs1].
  pose proof (node_frame members i j s s1 f Hs Hfr (not_eq_sym Hij) Hf) as Hf1.
  pose proof (pend_message _ _ _ Hm) as (p & k & e & rid & _ & Hk & _ & Hkl & _ & Hmeq).
  assert (p = j) as -> by (rewrite <- (pend_to _ _ _ Hm), Hmeq; done).
  change (log_ n1) with (log_ (set_outbox_ [] n1)) in Hkl. rewrite (reign_log _ _ Hreign) in Hkl.
  eapply wp_mono; [eapply (exchange_converges members fuel s1 i j (set_outbox_ [] n1) f m k); try done| |].
  - by apply rel_set_outbox.
  - apply Hreign.
  - by rewrite (reign_term _ _ Hreign).
  - by destruct Hm.
  - lia.
  - intros b nf (-> & Hcv & Hmv). split; [done|]. split; [by eapply converged_trans|].
    eapply moves_trans; [|exact Hmv]. intros p x Hpi _. by apply (node_frame members i p s).
  - intros x nf [Hr' Hx]. split; [by eapply reign_trans|done].
Qed.

(** ** Commitment *)

(** The leader alone sees the exchange with one follower. *)
Definition with_follower {A} (f : RaftNode St E) (m : M (RaftNode St E * RaftNode St E) A)
    : M (RaftNode St E) (RaftNode St E) := fun n =>
  match m (n, f) with
  | ((n', f'), Ret _) => (n', Ret f')
  | ((n', _), Fail x) => (n', Fail x)
  | ((n', _), Undefined) => (n', Undefined)
  end.

Lemma wp_with_follower {A} f (m : M _ A) n Q X :
  wp m (n, f) (fun _ nf => Q nf.2 nf.1) (fun x nf => X x nf.1) -> wp (with_follower f m) n Q X.
Proof. unfold wp, with_follower. by destruct (m (n, f)) as [[n' f'] []]. Qed.

(** One heartbeat for each follower in turn. *)
Fixpoint replicate_to (elapsed : Z) (fuel : nat) (fs : list (RaftNode St E))
    : M (RaftNode St E) (list (RaftNode St E)) :=
  match fs with
  | [] => mret []
  | f :: fs =>
    f' ← with_follower f (catch_up (node_id (config_ f)) elapsed fuel);
    fs' ← replicate_to elapsed fuel fs;
    mret (f' :: fs')
  end.

Definition ids (fs : list (RaftNode St E)) : list NodeId := (fun f => node_id (config_ f)) <$> fs.

(** A node the leader [n] can bring up to date. *)
Record behind s i n f : Prop := {
  bh_rel : node_rel s (node_id (config_ f)) f;
  bh_member : node_id (config_ f) ∈ members;
  bh_other : node_id (config_ f) <> i;
  bh_term : (current_term_ f <= current_term_ n)%N
}.

(** What the leader knows after the followers [fs] were served. *)
Record served n (fs fs' : list (RaftNode St E)) n' : Prop := {
  sv_reign : same_reign n n';
  sv_stored : Forall (fun f => log_ n `prefix_of` log_ f) fs';
  sv_match : forall j, match_index_ n' !! j =
    if decide (j ∈ ids fs) then Some (last_log_index n) else match_index_ n !! j;
  sv_settled : fs = [] \/ settled n'
}.

(** Some save failed with [x]. *)
Definition save_failed (x : failure) : Prop :=
  exists ps (st st' : St), storage_save ps st = (st', Fail x).

Lemma served_cons n n1 n2 f f' fs fs' :
  node_id (config_ f) ∉ ids fs -> converged n (node_id (config_ f)) (n1, f') ->
  (fs = [] -> n2 = n1) -> served n1 fs fs' n2 -> served n (f :: fs) (f' :: fs') n2.
Proof.
  intros Hni [Hr Hm Hst Hset] Hnil [Hr2 Hst2 Hm2 Hset2]. cbn [fst snd] in *.
  pose proof (reign_log _ _ Hr) as Hl. split.
  - by eapply reign_trans.
  - rewrite Hl in Hst2. by constructor.
  - intros j. rewrite Hm2, Hm. unfold last_log_index. rewrite Hl.
    change (ids (f :: fs)) with (node_id (config_ f) :: ids fs).
    destruct (decide (j ∈ ids fs)); [rewrite decide_True by (by right); done|].
    destruct (decide (j = node_id (config_ f))) as [->|Hne].
    + by rewrite decide_True, lookup_insert_eq by left.
    + rewrite decide_False, lookup_insert_ne by (rewrite ?elem_of_cons; naive_solver). done.
  - right. destruct Hset2 as [->|]; [|done]. by rewrite Hnil.
Qed.

Lemma replicate_serves elapsed fuel fs s i n :
  PInv s -> node_rel s i n -> i ∈ members -> state_ n = leader -> (current_term_ n < u64_max)%N ->
  (heartbeat_interval (config_ n) <= elapsed)%Z -> length (log_ n) <= fuel ->
  Forall (behind s i n) fs -> NoDup (ids fs) ->
  wp (replicate_to elapsed fuel fs) n
    (fun fs' n' => served n fs fs' n' /\ node_inv n' /\ (fs = [] -> n' = n)) (fun x _ => save_failed x).
Proof.
  intros Hs Hn Hi. revert s n Hs Hn. induction fs as [|f fs IH]; intros s n Hs Hn Hst Hmax Hel Hfuel Hfs Hnd;
    cbn [replicate_to].
  { wp_steps. split; [|split; [apply Hn|done]]. split; [by apply reign_refl|done| |by left].
    intros j. rewrite decide_False; [done|]. apply not_elem_of_nil. }
  apply Forall_cons in Hfs as [[Hf Hmem Hne Hle] Hfs].
  change (ids (f :: fs)) with (node_id (config_ f) :: ids fs) in Hnd. apply NoDup_cons in Hnd as [Hni Hnd].
  wp_steps. apply wp_with_follower.
  eapply wp_mono; [by apply (catch_up_converges s i); try apply not_eq_sym| |].
  2:{ intros x nf [_ (ps & st & Hx)]. by exists ps, st, (storage_ nf.2). }
  intros b [n1 f'] (_ & Hcv & s' & Hs' & Hn1 & _ & Hothers). cbn [fst snd] in *. wp_steps.
  destruct (cv_reign _ _ _ Hcv) as [H1 H2 H3 H4 H5 _]. cbn [fst] in *.
  eapply wp_mono; [apply (IH s' n1); try done; rewrite ?H2, ?H3, ?H4; try done| |done].
  - apply Forall_forall. intros x Hx. rewrite Forall_forall in Hfs. destruct (Hfs x Hx) as [? ? ? ?].
    split; [apply Hothers; try done|done|done|by rewrite H2].
    intros Heq. apply Hni. rewrite <- Heq. by apply (list_elem_of_fmap_2 (fun f => node_id (config_ f))).
  - intros fs' n2 (Hsv & Hinv & Hnil). wp_steps. split; [by eapply served_cons|]. by split.
Qed.

(** The last entry of a leader is of its own term. *)
Lemma leader_last s i n :
  PInv s -> node_rel s i n -> state_ n = leader ->
  exists e, last (log_ n) = Some e /\ term e = current_term_ n.
Proof.
  intros Hs Hn Hst. pose proof (leader_tlog members s i n Hn Hst) as Ht.
  pose proof (pi_last members s Hs _ _ _ Ht) as Hl. destruct (tlog_voter members s Hs _ _ _ Ht) as [_ HT].
  rewrite (nr_log _ _ _ _ Hn), last_cons. unfold last_term in Hl.
  destruct (last (p_log s i)) as [e|]; [by exists e|lia].
Qed.

Lemma settled_commits n js :
  settled n -> (exists e, last (log_ n) = Some e /\ term e = current_term_ n) ->
  NoDup js -> (quorum_size n <= 1 + N.of_nat (length js))%N ->
  (forall j, j ∈ js -> j ∈ peers (config_ n) /\ match_index_ n !! j = Some (last_log_index n)) ->
  commit_index_ n = last_log_index n.
Proof.
  intros Hset Hlast Hnd Hq Hjs. apply Hset; [done|]. etrans; [exact Hq|].
  enough (length js <= length (replicas (match_index_ n) (peers (config_ n)) (last_log_index n))) by lia.
  apply submseteq_length, NoDup_submseteq; [done|]. intros j Hj.
  destruct (Hjs j Hj) as [Hp Hm]. apply list_elem_of_filter. by rewrite Hm.
Qed.

(** C12: commitment is live.  In every reachable cluster, a leader that sends one
    heartbeat to each of some followers which together with it form a majority,
    none of them ahead of its term, ends with its whole log committed and applied:
    each of these followers has stored the log, whatever it held before, and the
    leader still leads.  The only other outcome is a failed save of a follower. *)
Theorem majority_commits c i n fs elapsed fuel :
  reachable members config c -> i ∈ members -> slots c i = Up n -> state_ n = leader ->
  (forall f, f ∈ fs -> exists j, j ∈ members /\ j <> i /\ slots c j = Up f /\
     (current_term_ f <= current_term_ n)%N) ->
  NoDup (ids fs) -> fs <> [] -> (quorum_size n <= 1 + N.of_nat (length fs))%N ->
  (current_term_ n < u64_max)%N -> (heartbeat_interval (config_ n) <= elapsed)%Z ->
  length (log_ n) <= fuel ->
  wp (replicate_to elapsed fuel fs) n
    (fun fs' n' => same_reign n n' /\ commit_index_ n' = last_log_index n /\
       last_applied_ n' = last_log_index n /\ Forall (fun f => log_ n `prefix_of` log_ f) fs')
    (fun x _ => save_failed x).
Proof.
  intros Hr Hi Hn Hst Hfs Hnd Hne Hq Hmax Hel Hfuel.
  destruct (reachable_node members config Hconfig c i n Hr Hi Hn) as (s & Hc & Hrel).
  pose proof (cr_inv _ _ _ Hc) as Hs.
  assert (Forall (behind s i n) fs) as Hbehind.
  { apply Forall_forall. intros f Hf. destruct (Hfs f Hf) as (j & Hj & Hji & Hup & Hle).
    pose proof (cr_slots _ _ _ Hc j Hj) as Hfrel. rewrite Hup in Hfrel.
    pose proof (nr_id _ _ _ _ Hfrel) as Hid. split; by rewrite ?Hid. }
  eapply wp_mono; [by apply (replicate_serves elapsed fuel fs s i n)| |done].
  intros fs' n' ([Hreign Hst' Hm Hset] & Hinv & _). destruct Hset as [?|Hset]; [done|].
  pose proof Hreign as [H1 H2 H3 H4 H5 _].
  assert (last_log_index n' = last_log_index n) as Hlast by (unfold last_log_index; by rewrite H3).
  assert (commit_index_ n' = last_log_index n) as Hcom; [|by rewrite (inv_applied n' Hinv)].
  rewrite <- Hlast. apply (settled_commits n' (ids fs) Hset); [rewrite H3, H2; by eapply leader_last|done| |].
  - unfold quorum_size, ids. rewrite H5, length_fmap. exact Hq.
  - intros j Hj. rewrite Hlast, H4, Hm, decide_True by done. split; [|done].
    apply list_elem_of_fmap in Hj as (f & -> & Hf). rewrite Forall_forall in Hbehind.
    destruct (Hbehind f Hf). by apply (rel_peer members s i n).
Qed.
End reachable.

(** ** A concrete divergence *)

(** Node 3 leads term 1 and appends three entries nobody else stores; node 1
    leads term 2 and stores two entries on node 2; node 2 leads term 3. *)
Definition demo_diverge : list Event :=
  let a := [Restart 1; Restart 2; Restart 3; Do 3 (Tick 150); Do 3 TakeMessages] in
  let b := a ++ [Do 2 (HandleRequest (sent a 1))] in
  let c := b ++ [Do 3 (Step (sent b 2)); Do 3 (Propose (bytes_of "y=1")); Do 3 (Propose (bytes_of "y=2"));
                 Do 3 TakeMessages; Do 1 (Tick 150); Do 1 (Tick 150); Do 1 TakeMessages] in
  let d := c ++ [Do 2 (HandleRequest (sent c 11))] in
  let e := d ++ [Do 1 (Step (sent d 13)); Do 1 (Propose (bytes_of "x=1")); Do 1 TakeMessages] in
  let f := e ++ [Do 2 (HandleRequest (sent e 16)); Do 2 (Tick 150); Do 2 TakeMessages] in
  let g := f ++ [Do 1 (HandleRequest (sent f 19))] in
  g ++ [Do 2 (Step (sent g 21))].

Definition demo_diverged : Cluster InMemoryRaftStorage N := demo_run demo_diverge.

Lemma demo_diverged_logs :
  term <$> log_ (demo_node demo_diverged 2) = [0; 2; 2; 3]%N /\
  term <$> log_ (demo_node demo_diverged 3) = [0; 1; 1; 1]%N.
Proof. split; demo_eval. Qed.

(** The follower rejects once, then replaces its whole log. *)
Lemma demo_diverged_repaired :
  match catch_up 3 50 4 (demo_node demo_diverged 2, demo_node demo_diverged 3) with
  | ((_, f), Ret b) => b && bool_decide (term <$> log_ f = [0; 2; 2; 3]%N)
  | _ => false
  end = true.
Proof. demo_eval. Qed.

(** The leader and node 3 are a majority: the log of term 3 is committed. *)
Lemma majority_commits_witness :
  wp (replicate_to 50 4 [demo_node demo_diverged 3]) (demo_node demo_diverged 2)
    (fun fs' n' => same_reign (demo_node demo_diverged 2) n' /\
       commit_index_ n' = last_log_index (demo_node demo_diverged 2) /\
       last_applied_ n' = last_log_index (demo_node demo_diverged 2) /\
       Forall (fun f => log_ (demo_node demo_diverged 2) `prefix_of` log_ f) fs')
    (fun x _ => save_failed (St := InMemoryRaftStorage) x) /\
  match replicate_to 50 4 [demo_node demo_diverged 3] (demo_node demo_diverged 2) with
  | (n', Ret _) => (commit_index_ n' =? 3)%N
  | _ => false
  end = true.
Proof.
  split; [|demo_eval].
  apply (majority_commits demo_members demo_config demo_cluster_config demo_diverged 2);
    [demo_reach|set_solver|demo_eval|demo_eval| | |done|..].
  - intros f ->%list_elem_of_singleton. exists 3%N.
    split; [set_solver|]. split; [done|]. split; [demo_eval|vm_compute; discriminate].
  - apply NoDup_singleton.
  - vm_compute. discriminate.
  - vm_compute. reflexivity.
  - vm_compute. discriminate.
  - assert (length (log_ (demo_node demo_diverged 2)) = 4) as -> by demo_eval. lia.
Defined.
