(* ===== verification/RaftElection.v ===== *)
(** * A majority can elect a leader

    The exchange of an election: a node whose election timer runs out campaigns
    ([start_election_locked] of [raft_node.cpp]) and puts its request to some
    voters, each of which answers it.  When the voters and the candidate are a
    majority, none of them is ahead of the candidate in term or log, and saves
    succeed, the candidate leads the next term. *)

From Stdlib Require Import NArith ZArith Lia.
From stdpp Require Import base tactics numbers list gmap functions relations strings.
From S2P Require Import Prelude RaftTypes RaftLog RaftNode RaftBehaviour RaftInvariant.
From S2P Require Import RaftProtocol RaftSimulation RaftCluster RaftSafety RaftReplication.

Open Scope ftkv_scope.

Section election.
Context {St E : Type} `{HSt : RaftStorage St} `{HSpec : !RaftStorageSpec St} `{HE : RandomEngine E}.
Abbreviation Node := (RaftNode St E).
Implicit Types (n v : Node) (q : RequestVoteRequest).

(** ** The exchange *)

(** One voter answers [m], the candidate handles the answer. *)
Definition poll (m : Message) : M (Node * Node) bool :=
  answer ← zoom snd (fun v nv => (nv.1, v)) (handle_request m);
  match answer with
  | None => mret false
  | Some a => zoom fst (fun n nv => (n, nv.2)) (step a)
  end.

(** The voters in turn, each with the request of [ms] addressed to it. *)
Fixpoint collect (ms : list Message) (vs : list Node) : M Node (list Node) :=
  match vs with
  | [] => mret []
  | v :: vs =>
    v' ← match latest (node_id (config_ v)) ms with
         | Some m => with_follower v (poll m)
         | None => mret v
         end;
    vs' ← collect ms vs;
    mret (v' :: vs')
  end.

(** The timer runs out, then the voters are asked. *)
Definition run_election (elapsed : Z) (vs : list Node) : M Node (list Node) :=
  tick elapsed;; ms ← take_messages; collect ms vs.

(** ** The voter *)

Lemma voted_term v p st t r : current_term_ (voted v p st t r) = current_term_ v.
Proof. done. Qed.

Lemma outbox_term v o : current_term_ (set_outbox_ o v) = current_term_ v.
Proof. done. Qed.

Lemma grant_handle_request v m q :
  node_inv v -> rpc m = VoteRequest q -> to m = node_id (config_ v) -> from m ∈ peers (config_ v) ->
  rv_candidate_id q = from m -> is_u64 (rv_term q) -> (current_term_ v < rv_term q)%N ->
  candidate_current v q ->
  wp (handle_request m) v
    (fun r v' => r = Some (mkMessage (node_id (config_ v)) (from m) (VoteResponse (mkVoteResponse (rv_term q) true))) /\
       current_term_ v' = rv_term q)
    (fun x v' => broken_save x (storage_ v')).
Proof.
  intros Hv Hm Hto Hp Hid Hu Hlt Hcur. unfold handle_request. rewrite Hm. wp_steps.
  unfold step_locked. wp_steps. rewrite Hto, N.eqb_refl, peer_is_peer by done. cbn [negb orb].
  unfold message_term. rewrite Hm. destruct (inv_log v Hv) as (l & Hl & _).
  rewrite (proj2 (N.ltb_lt _ _) Hlt). cbn [when]. wp_steps.
  eapply wp_become_follower; [done|done|done|intros; lia| |by intros].
  intros _ t r st Hd Hv1. wp_steps. set (v1 := set_storage_ st _) in *.
  assert (config_ v1 = config_ v /\ log_ v1 = log_ v /\ outbox_ v1 = outbox_ v /\
    voted_for_ v1 = None /\ current_term_ v1 = rv_term q) as (Hcf & Hl1 & Ho & Hvf & Ht) by done.
  clearbody v1. apply (wp_request_vote v1 l); [done|by rewrite Hcf|by rewrite Hl1| | |by intros].
  - intros Hno. destruct Hno. split; [done|]. split; [by rewrite Ht|]. split; [by left|].
    destruct Hcur as (e & He & Hc). exists e. unfold last_log_index. by rewrite Hl1.
  - intros _ _ _ st' t' r' _ n1 _.
    assert (current_term_ n1 = rv_term q) as Ht1 by (unfold n1; by rewrite voted_term).
    clearbody n1. wp_steps. rewrite Ho, take_app_length, drop_app_length, extract_single.
    + apply wp_bind, wp_modify, wp_ret. split; [|by rewrite !outbox_term].
      unfold vote_answer. by rewrite Hcf, Ht.
    + unfold answers. rewrite Hm. simpl. by rewrite N.eqb_refl.
Qed.

(** ** The candidate *)

Definition no_op (T : Term) : LogEntry := mkEntry T [] true.

(** The election of term [T] after the voters [ps] were heard. *)
Record standing n0 T (ps : list NodeId) n : Prop := {
  sd_inv : node_inv n;
  sd_config : config_ n = config_ n0;
  sd_members : members_ n = members_ n0;
  sd_term : current_term_ n = T;
  sd_role :
    state_ n = leader /\ log_ n = log_ n0 ++ [no_op T] \/
    state_ n = candidate /\ log_ n = log_ n0 /\ (forall p, p ∈ ps -> p ∈ votes_received_ n) /\
      (length ps = 1 \/ (N.of_nat (size (votes_received_ n)) < quorum_size n)%N)
}.

Lemma standing_taken n0 T ps n : standing n0 T ps n -> standing n0 T ps (set_outbox_ [] n).
Proof. intros [? ? ? ? ?]. split; [by apply inv_sent|done..]. Qed.

Lemma become_leader_stands n0 T ps n :
  node_inv n -> config_ n = config_ n0 -> members_ n = members_ n0 -> current_term_ n = T ->
  log_ n = log_ n0 -> (N.of_nat (length (log_ n0)) < vector_max)%N ->
  wp become_leader_locked n (fun _ n' => standing n0 T ps n') (fun x n' => broken_save x (storage_ n')).
Proof.
  intros Hn Hcf Hme HT Hl Hlen. destruct (inv_log n Hn) as (l & Hl' & _).
  eapply (wp_become_leader n l); [done|done| |rewrite Hl; lia|by intros].
  intros nx mt rq st n1 ms r np _ _ _ Hmc Hn1 _.
  assert (state_ n1 = leader /\ log_ n1 = log_ n0 ++ [no_op T] /\ config_ n1 = config_ n0 /\
    members_ n1 = members_ n0 /\ current_term_ n1 = T) as (H1 & H2 & H3 & H4 & H5).
  { unfold no_op. rewrite <- Hl, <- HT, <- Hcf, <- Hme. destruct Hmc as [->|(c & _ & ->)]; by split_and!. }
  split; try done; [by apply inv_outbox|]. by left.
Qed.

Lemma count_vote n0 T ps n j :
  standing n0 T ps n -> ps <> [] -> j ∈ peers (config_ n0) -> is_u64 T ->
  (N.of_nat (length (log_ n0)) < vector_max)%N ->
  wp (step (mkMessage j (node_id (config_ n)) (VoteResponse (mkVoteResponse T true)))) n
    (fun _ n' => standing n0 T (j :: ps) n') (fun x n' => broken_save x (storage_ n')).
Proof.
  intros [Hn Hcf Hme HT Hrole] Hps Hj Hu Hlen. rewrite <- Hcf in Hj.
  unfold step, step_locked. wp_steps. cbn [to from rpc message_term].
  rewrite N.eqb_refl, peer_is_peer, HT, N.ltb_irrefl by done. cbn [negb orb when rvr_term]. wp_steps.
  apply wp_vote_response.
  - intros Hno. wp_steps. destruct Hrole as [Hlead|(Hst & _)]; [|by destruct Hno].
    split; try done. by left.
  - intros Hst _ _ n1. assert (node_inv n1) as Hn1 by (unfold n1; destruct Hn; by constructor).
    destruct Hrole as [[? _]|(_ & Hl & Hv & _)]; [congruence|]. split.
    + intros _. eapply wp_mono; [by apply (become_leader_stands n0 T (j :: ps))| |done].
      intros [] n2 Hs. by wp_steps.
    + intros Hlt. wp_steps. split; try done. right. split; [done|]. split; [done|]. split; [|by right].
      intros p [->|Hp]%elem_of_cons; unfold n1; node_simpl; [set_solver|].
      apply elem_of_union_r. by apply Hv.
Qed.

(** A voter the candidate can win over. *)
Record wins_over n0 q v : Prop := {
  wo_inv : node_inv v;
  wo_peer : node_id (config_ v) ∈ peers (config_ n0);
  wo_candidate : node_id (config_ n0) ∈ peers (config_ v);
  wo_term : (current_term_ v < rv_term q)%N;
  wo_log : candidate_current v q
}.

Definition ask n0 q (j : NodeId) : Message := mkMessage (node_id (config_ n0)) j (VoteRequest q).

Lemma broken_failed x (st : St) : broken_save x st -> save_failed (St := St) x.
Proof. intros [_ (ps & st0 & Hx)]. by exists ps, st0, st. Qed.

Lemma poll_stands n0 q ps n v :
  rv_candidate_id q = node_id (config_ n0) -> is_u64 (rv_term q) ->
  (N.of_nat (length (log_ n0)) < vector_max)%N -> wins_over n0 q v ->
  standing n0 (rv_term q) ps n -> ps <> [] ->
  wp (poll (ask n0 q (node_id (config_ v)))) (n, v)
    (fun _ nv => standing n0 (rv_term q) (node_id (config_ v) :: ps) nv.1 /\
       current_term_ nv.2 = rv_term q)
    (fun x _ => save_failed (St := St) x).
Proof.
  intros Hid Hu Hlen [Hv Hp Hc Ht Hl] Hn Hps. unfold poll. wp_steps. apply wp_zoom. cbn [fst snd].
  eapply wp_mono; [by apply (grant_handle_request v (ask n0 q (node_id (config_ v))) q)| |].
  2:{ intros x v'. apply broken_failed. }
  intros r v' [-> Hvt]. cbn [ask from]. rewrite <- (sd_config _ _ _ _ Hn). apply wp_zoom. cbn [fst snd].
  eapply wp_mono; [by apply (count_vote n0 (rv_term q) ps n (node_id (config_ v)))| |].
  - intros b n1 Hn1. by split.
  - intros x n'. apply broken_failed.
Qed.

Lemma collect_stands n0 q ms vs ps n :
  rv_candidate_id q = node_id (config_ n0) -> is_u64 (rv_term q) ->
  (N.of_nat (length (log_ n0)) < vector_max)%N ->
  (forall v, v ∈ vs -> wins_over n0 q v /\ latest (node_id (config_ v)) ms = Some (ask n0 q (node_id (config_ v)))) ->
  standing n0 (rv_term q) ps n -> ps <> [] ->
  wp (collect ms vs) n (fun _ n' => standing n0 (rv_term q) (reverse (ids vs) ++ ps) n')
    (fun x _ => save_failed (St := St) x).
Proof.
  intros Hid Hu Hlen. revert ps n. induction vs as [|v vs IH]; intros ps n Hvs Hn Hps; cbn [collect].
  { by wp_steps. }
  destruct (Hvs v) as [Hv ->]; [left|]. wp_steps. apply wp_with_follower.
  eapply wp_mono; [by apply (poll_stands n0 q ps n v)| |done].
  intros b [n1 v'] [Hn1 _]. cbn [fst snd] in *. wp_steps.
  change (ids (v :: vs)) with (node_id (config_ v) :: ids vs).
  rewrite reverse_cons, <- app_assoc. cbn [app].
  eapply wp_mono; [apply (IH (node_id (config_ v) :: ps) n1); [|done|done]| |done].
  - intros x Hx. apply Hvs. by right.
  - intros vs' n2 Hn2. by wp_steps.
Qed.

(** Everyone was heard: the candidate leads. *)
Lemma standing_wins n0 T ps n :
  standing n0 T ps n -> NoDup ps -> 1 < length ps -> (quorum_size n0 <= N.of_nat (length ps))%N ->
  state_ n = leader /\ log_ n = log_ n0 ++ [no_op T].
Proof.
  intros [_ _ Hme _ [?|(_ & _ & Hv & Hq)]] Hnd Hlen Hle; [done|exfalso].
  destruct Hq as [?|Hq]; [lia|]. unfold quorum_size in *. rewrite Hme in Hq.
  assert (length ps <= size (votes_received_ n)); [|lia].
  rewrite <- (list_to_set_size_nodup ps Hnd). apply subseteq_size. intros p Hp%elem_of_list_to_set. auto.
Qed.

(** ** The campaign *)

Lemma quorum_of_two n j : node_inv n -> j ∈ peers (config_ n) -> (1 < quorum_size n)%N.
Proof.
  intros Hn Hj. pose proof (cfg_nodup _ (inv_config n Hn)) as Hnd.
  assert (members_ n = list_to_set (node_id (config_ n) :: peers (config_ n))) as Hm
    by (rewrite (inv_members n Hn); done).
  unfold quorum_size. rewrite Hm, list_to_set_size_nodup by done. cbn [length].
  destruct (peers (config_ n)) as [|p ps]; [by apply not_elem_of_nil in Hj|]. cbn [length].
  assert (1 <= N.of_nat (S (S (length ps))) / 2)%N; [|lia]. apply N.div_le_lower_bound; lia.
Qed.

Definition campaign_request n (e : LogEntry) : RequestVoteRequest :=
  mkVoteRequest (current_term_ n + 1) (node_id (config_ n)) (last_log_index n) (term e).

Lemma tick_campaigns n e elapsed :
  node_inv n -> state_ n <> leader -> (1 < quorum_size n)%N -> (current_term_ n < u64_max)%N ->
  (election_timeout_max (config_ n) <= elapsed)%Z -> last (log_ n) = Some e ->
  wp (tick elapsed) n
    (fun _ n' => standing n (current_term_ n + 1) [node_id (config_ n)] n' /\
       state_ n' = candidate /\ log_ n' = log_ n /\
       forall j, j ∈ peers (config_ n) -> latest j (outbox_ n') = Some (ask n (campaign_request n e) j))
    (fun x _ => save_failed (St := St) x).
Proof.
  intros Hn Hst Hq Hmax Hel He. pose proof (inv_config n Hn) as []. pose proof (inv_heartbeat n Hn).
  pose proof (inv_timeout n Hn). pose proof (inv_election n Hn).
  unfold tick. destruct (Z.ltb_spec elapsed 0); [lia|]. wp_steps.
  rewrite decide_False by done. wp_steps. apply wp_i64_sub; [unfold is_i64; lia|].
  destruct (Z.leb_spec (election_timeout_ n - election_elapsed_ n) elapsed); [|lia].
  destruct (inv_log n Hn) as (l & Hl & _). eapply (wp_start_election n l); [done|done| | |].
  - intros t r st n1 _ _ Hle. change (quorum_size n1) with (quorum_size n) in Hle. lia.
  - intros t r st e' n1 _ Hn1 He'. rewrite He in He'. injection He' as <-.
    assert (current_term_ n1 = current_term_ n + 1)%N as HT
      by (unfold n1, campaigning; node_simpl; apply u64_add_small; lia).
    split; [split; try done; [by apply inv_sent|]|split; [done|split; [done|]]].
    + right. split; [done|]. split; [done|]. split; [|by left].
      intros p ->%list_elem_of_singleton. unfold n1, campaigning. node_simpl. set_solver.
    + intros j Hj. node_simpl. destruct (latest_broadcast j (outbox_ n1) (vote_requests n1 e))
        as (m & Hm & Hmj & Hlast).
      { unfold vote_requests. rewrite <- list_fmap_compose. apply list_elem_of_fmap. by exists j. }
      rewrite Hlast. f_equal. apply list_elem_of_fmap in Hm as (p & -> & _). cbn [to] in Hmj. subst p.
      unfold ask, campaign_request. by rewrite HT.
  - intros x n' Hx _ _. by eapply broken_failed.
Qed.
End election.

(** ** Reachable clusters *)

Section reachable.
Context {St E : Type} `{HSt : RaftStorage St} `{HSpec : !RaftStorageSpec St} `{HE : RandomEngine E}.
Context (members : gset NodeId) (config : NodeId -> RaftConfig).
Context (Hconfig : cluster_config members config).
Implicit Types (c : Cluster St E) (n v : RaftNode St E) (i j : NodeId).

Lemma last_log_term n e : node_inv n -> last (log_ n) = Some e -> last_term (tail (log_ n)) = term e.
Proof.
  intros Hn. destruct (inv_log n Hn) as (l & -> & _). cbn [tail]. rewrite last_cons. unfold last_term.
  by destruct (last l); intros [= <-].
Qed.

(** The voting rule on logs is what the handler compares. *)
Lemma up_to_date_current n v e :
  node_inv n -> node_inv v -> last (log_ n) = Some e -> up_to_date (tail (log_ n)) (tail (log_ v)) ->
  candidate_current v (campaign_request n e).
Proof.
  intros Hn Hv He Hup. destruct (inv_log v Hv) as (l & Hl & _). destruct (last_log v l Hl) as [ev Hev].
  exists ev. split; [done|]. unfold campaign_request. cbn [rv_last_log_term rv_last_log_index].
  unfold up_to_date in Hup. rewrite (last_log_term n e), (last_log_term v ev) in Hup by done.
  rewrite !inv_last by done. destruct (inv_log n Hn) as (ln & Hln & _). rewrite Hl, Hln in *.
  cbn [tail length] in *. destruct Hup as [?|[? ?]]; [by left|right]. split; [congruence|lia].
Qed.

(** C13: elections are live.  In every reachable cluster, a node that is not leader,
    whose election timer runs out and whose request reaches voters that form a
    majority with it, leads the next term when none of them is ahead of it in term
    or has a more up-to-date log; it has appended the no-op of its term.  The only
    other outcome is a failed save. *)
Theorem majority_elects c i n vs elapsed :
  reachable members config c -> i ∈ members -> slots c i = Up n -> state_ n <> leader ->
  (forall v, v ∈ vs -> exists j, j ∈ members /\ j <> i /\ slots c j = Up v /\
     (current_term_ v <= current_term_ n)%N /\ up_to_date (tail (log_ n)) (tail (log_ v))) ->
  NoDup (ids vs) -> vs <> [] -> (quorum_size n <= 1 + N.of_nat (length vs))%N ->
  (current_term_ n < u64_max)%N -> (election_timeout_max (config_ n) <= elapsed)%Z ->
  (N.of_nat (length (log_ n)) < vector_max)%N ->
  wp (run_election elapsed vs) n
    (fun _ n' => state_ n' = leader /\ current_term_ n' = (current_term_ n + 1)%N /\
       log_ n' = log_ n ++ [no_op (current_term_ n + 1)])
    (fun x _ => save_failed (St := St) x).
Proof.
  intros Hr Hi Hn Hst Hvs Hnd Hne Hq Hmax Hel Hlen.
  destruct (reachable_node members config Hconfig c i n Hr Hi Hn) as (s & Hc & Hrel).
  pose proof (nr_inv _ _ _ _ Hrel) as Hinv. pose proof (nr_id _ _ _ _ Hrel) as Hid.
  destruct (inv_log n Hinv) as (l & Hl & _). destruct (last_log n l Hl) as [e He].
  assert (forall v, v ∈ vs -> wins_over n (campaign_request n e) v) as Hwin.
  { intros v Hv. destruct (Hvs v Hv) as (j & Hj & Hji & Hup & Hle & Hlog).
    pose proof (cr_slots _ _ _ Hc j Hj) as Hvrel. rewrite Hup in Hvrel.
    pose proof (nr_inv _ _ _ _ Hvrel) as Hvinv. split; [done| | | |by apply up_to_date_current].
    - rewrite (nr_id _ _ _ _ Hvrel). by apply (rel_peer members s i n).
    - rewrite Hid. by apply (rel_peer members s j v).
    - cbn [campaign_request rv_term]. lia. }
  assert (forall j, j ∈ ids vs -> j ∈ peers (config_ n)) as Hpeers.
  { intros j (v & -> & Hv)%list_elem_of_fmap. apply (wo_peer _ _ _ (Hwin v Hv)). }
  destruct vs as [|v0 vs']; [done|]. set (vs := v0 :: vs') in *.
  assert (1 < quorum_size n)%N as Hq2.
  { apply (quorum_of_two n (node_id (config_ v0))); [done|]. apply Hpeers. by left. }
  unfold run_election. wp_steps. eapply wp_mono; [by apply (tick_campaigns n e)| |done].
  intros b n1 (Hstand%standing_taken & _ & _ & Hask). unfold take_messages. wp_steps.
  eapply wp_mono; [apply (collect_stands n (campaign_request n e) _ vs [node_id (config_ n)] (set_outbox_ [] n1));
    try done| |done].
  - cbn [campaign_request rv_term]. unfold is_u64. lia.
  - intros v Hv. split; [by apply Hwin|]. apply Hask. apply (wo_peer _ _ _ (Hwin v Hv)).
  - intros r n' Hstand'. cbn [campaign_request rv_term] in Hstand'.
    assert (length (reverse (ids vs) ++ [node_id (config_ n)]) = S (length vs)) as Hlen'.
    { rewrite length_app, length_reverse. unfold ids. rewrite length_fmap. simpl. lia. }
    destruct (standing_wins _ _ _ _ Hstand') as [H1 H2].
    + pose proof (cfg_nodup _ (inv_config n Hinv)) as [Hni _]%NoDup_cons.
      rewrite reverse_Permutation. apply NoDup_app. split; [done|]. split; [|apply NoDup_singleton].
      intros x Hx ->%list_elem_of_singleton. by apply Hni, Hpeers.
    + rewrite Hlen'. unfold vs. simpl. lia.
    + rewrite Hlen'. lia.
    + split; [done|]. split; [apply (sd_term _ _ _ _ Hstand')|done].
Qed.
End reachable.

(** Node 2 succeeds the leader of term 1 with the vote of node 3, which missed
    everything. *)
Lemma majority_elects_witness :
  wp (run_election 300 [demo_node demo_committed 3]) (demo_node demo_committed 2)
    (fun _ n' => state_ n' = leader /\
       current_term_ n' = (current_term_ (demo_node demo_committed 2) + 1)%N /\
       log_ n' = log_ (demo_node demo_committed 2) ++
         [no_op (current_term_ (demo_node demo_committed 2) + 1)])
    (fun x _ => save_failed (St := InMemoryRaftStorage) x) /\
  match run_election 300 [demo_node demo_committed 3] (demo_node demo_committed 2) with
  | (n', Ret _) => bool_decide (state_ n' = leader) && (current_term_ n' =? 2)%N
  | _ => false
  end = true.
Proof.
  split; [|demo_eval].
  apply (majority_elects demo_members demo_config demo_cluster_config demo_committed 2);
    [demo_reach|set_solver|demo_eval|vm_compute; discriminate| | |done|..].
  - intros v ->%list_elem_of_singleton. exists 3%N. split; [set_solver|]. split; [done|].
    split; [demo_eval|]. split; [vm_compute; discriminate|]. left. vm_compute. reflexivity.
  - apply NoDup_singleton.
  - vm_compute. discriminate.
  - vm_compute. reflexivity.
  - vm_compute. discriminate.
  - vm_compute. reflexivity.
Defined.
