(* ===== verification/RaftRecovery.v ===== *)
(** * A majority recovers

    Fault tolerance as the cluster promises it: whatever happened before (nodes
    killed in the middle of a save, messages lost, duplicated or reordered, rival
    leaders, diverged logs), any majority whose storage works can go on alone.  The
    schedule is one of the events of [RaftCluster]: the majority restarts, the
    member with the most up-to-date log campaigns until its term is the highest,
    the others vote for it, it takes a proposal and replicates its log, and the
    proposal is handed to its state machine. *)

From Stdlib Require Import NArith ZArith Lia.
From stdpp Require Import base tactics numbers list gmap functions relations strings.
From S2P Require Import Prelude RaftTypes RaftLog RaftNode RaftBehaviour RaftInvariant.
From S2P Require Import RaftProtocol RaftSimulation RaftCluster RaftSafety RaftReplication RaftElection.

Open Scope ftkv_scope.

(** ** The greatest of a list *)

Section greatest.
Context {A : Type} (R : A -> A -> Prop) (Htrans : Transitive R) (Htotal : forall x y, R x y \/ R y x).

Lemma greatest (l : list A) : l <> [] -> exists x, x ∈ l /\ forall y, y ∈ l -> R x y.
Proof.
  induction l as [|a l IH]; [done|intros _]. destruct l as [|b l].
  { exists a. split; [left|]. intros y ->%list_elem_of_singleton. by destruct (Htotal a a). }
  destruct IH as (x & Hx & Hmax); [done|]. destruct (Htotal a x) as [Hax|Hxa].
  - exists a. split; [left|]. intros y [->|Hy]%elem_of_cons; [by destruct (Htotal a a)|].
    etrans; [exact Hax|]. by apply Hmax.
  - exists x. split; [by right|]. intros y [->|Hy]%elem_of_cons; [done|]. by apply Hmax.
Qed.
End greatest.

#[export] Instance up_to_date_trans : Transitive up_to_date.
Proof. unfold up_to_date. intros x y z Hxy Hyz. lia. Qed.

Lemma up_to_date_total x y : up_to_date x y \/ up_to_date y x.
Proof. unfold up_to_date. lia. Qed.

(** ** What a schedule leaves alone *)

Section apart.
Context {St E : Type}.
Implicit Types (c : Cluster St E) (i j k : NodeId).

(** What a node left alone and a network that loses nothing see of a schedule. *)
Record apart (ks : list NodeId) c c' : Prop := {
  ap_slots : forall k, k ∉ ks -> slots c' k = slots c k;
  ap_network : forall m, m ∈ network c -> m ∈ network c'
}.

Lemma apart_refl ks c : apart ks c c.
Proof. by split. Qed.

Lemma apart_trans ks c c1 c2 : apart ks c c1 -> apart ks c1 c2 -> apart ks c c2.
Proof. intros [H1 H2] [H3 H4]. split; [|auto]. intros k Hk. by rewrite H3, H1. Qed.

Lemma apart_weaken ks ks' c c' : ks ⊆ ks' -> apart ks c c' -> apart ks' c c'.
Proof. intros Hsub [H1 H2]. split; [|done]. intros k Hk. apply H1. set_solver. Qed.

Lemma apart_pair i j k c c' : apart [i; j] c c' -> k <> i -> k <> j -> slots c' k = slots c k.
Proof. intros Hap Hki Hkj. apply Hap. set_solver. Qed.

Lemma apart_cons i j js c c1 c2 :
  apart [i; j] c c1 -> apart (i :: js) c1 c2 -> apart (i :: j :: js) c c2.
Proof.
  intros H1 H2. apply (apart_trans _ _ c1); [eapply apart_weaken, H1|eapply apart_weaken, H2]; set_solver.
Qed.

Lemma apart_unvisited i j js c c' :
  apart (i :: js) c c' -> j <> i -> j ∉ js -> slots c' j = slots c j.
Proof. intros Hap Hj Hjs. apply Hap. set_solver. Qed.

End apart.

(** ** Schedules of some nodes *)

Section schedule.
Context {St E : Type} `{HSt : RaftStorage St} `{HE : RandomEngine E}.
Context (members : gset NodeId) (config : NodeId -> RaftConfig) (Q : gset NodeId).
Context (HQ : Q ⊆ members).
Abbreviation Node := (RaftNode St E).
Implicit Types (c : Cluster St E) (n f v : Node) (i j : NodeId).

(** Events of the nodes of [Q] alone lead from [c] to [c']. *)
Definition leads_to c c' : Prop :=
  exists es, run_events members config es c = Some c' /\ Forall (fun e => event_node e ∈ Q) es.

Lemma leads_refl c : leads_to c c.
Proof. by exists []. Qed.

Lemma run_events_app es es' c :
  run_events members config (es ++ es') c = run_events members config es c ≫= run_events members config es'.
Proof.
  revert c. induction es as [|e es IH]; intros c; [done|]. simpl.
  destruct (apply_event members config e c); simpl; [apply IH|done].
Qed.

Lemma leads_trans c c1 c2 : leads_to c c1 -> leads_to c1 c2 -> leads_to c c2.
Proof.
  intros (es & Hes & HQs) (es' & Hes' & HQs'). exists (es ++ es').
  rewrite run_events_app, Hes. split; [done|by apply Forall_app].
Qed.

Lemma leads_event e c c' :
  event_node e ∈ Q -> apply_event members config e c = Some c' -> leads_to c c'.
Proof. intros He Hc. exists [e]. simpl. rewrite Hc. split; [done|by apply Forall_singleton]. Qed.

(** A call that throws what a save threw, or a storage that does not open. *)
Inductive storage_fault c : Event -> Prop :=
| fault_save i call n n' x :
    slots c i = Up n -> call_io call n = (n', Fail x) -> save_failed (St := St) x ->
    storage_fault c (Do i call)
| fault_open j st st' x :
    slots c j = Down st -> storage_reopen st = (st', Fail x) -> storage_fault c (Restart j).

(** The next event of a node of [Q] runs into its storage. *)
Definition faulty c : Prop :=
  exists e, event_node e ∈ Q /\ enabled members e c = true /\ storage_fault c e.

(** The nodes of [Q] can bring about [P], unless a storage fails on the way. *)
Definition can c (P : Cluster St E -> Prop) : Prop :=
  exists c', leads_to c c' /\ (P c' \/ faulty c').

Lemma can_ret c (P : Cluster St E -> Prop) : P c -> can c P.
Proof. intros HP. exists c. split; [apply leads_refl|by left]. Qed.

Lemma can_leads c c' (P : Cluster St E -> Prop) : leads_to c c' -> P c' -> can c P.
Proof. intros Hl HP. exists c'. by auto. Qed.

Lemma can_bind c P R :
  can c P -> (forall c', leads_to c c' -> P c' -> can c' R) -> can c R.
Proof.
  intros (c1 & Hl1 & [HP|Hf]) Hk; [|by exists c1; auto].
  destruct (Hk c1 Hl1 HP) as (c2 & Hl2 & HR). exists c2. split; [by eapply leads_trans|done].
Qed.

(** A call of a node, with what it hands to the network and the state machine. *)
Lemma leads_do c i n call n' ms ces :
  i ∈ Q -> slots c i = Up n -> call_enabled call n (network c) = true ->
  call_io call n = (n', Ret (ms, ces)) ->
  exists c', leads_to c c' /\ apart [i] c c' /\ slots c' i = Up n' /\
    (forall m, m ∈ ms -> m ∈ network c') /\ (forall ce, ce ∈ ces -> (i, ce) ∈ published c').
Proof.
  intros Hi Hn He Hio. eexists. split; [|split; [|split]].
  - apply (leads_event (Do i call)); [done|]. unfold apply_event, enabled. simpl.
    rewrite Hn, He, Hio, bool_decide_eq_true_2 by set_solver. done.
  - split; simpl; [|set_solver]. intros k Hk. apply fn_lookup_insert_ne. set_solver.
  - simpl. apply fn_lookup_insert.
  - simpl. split; [set_solver|]. intros ce Hce. apply elem_of_app. right.
    by apply list_elem_of_fmap_2.
Qed.

Lemma faulty_call c i n call n' x :
  i ∈ Q -> slots c i = Up n -> call_enabled call n (network c) = true ->
  call_io call n = (n', Fail x) -> save_failed (St := St) x -> faulty c.
Proof.
  intros Hi Hn He Hio Hx. exists (Do i call). split; [done|]. split; [|by eapply fault_save].
  unfold enabled. simpl. by rewrite Hn, He, bool_decide_eq_true_2 by set_solver.
Qed.

Lemma can_call c i n call (P : Node -> Prop) (X : failure -> Node -> Prop) :
  i ∈ Q -> slots c i = Up n -> call_enabled call n (network c) = true ->
  wp (call_io call) n (fun _ n' => P n') X -> (forall x n', X x n' -> save_failed (St := St) x) ->
  can c (fun c' => exists n', apart [i] c c' /\ slots c' i = Up n' /\ P n').
Proof.
  unfold wp. intros Hi Hn He Hwp HX. destruct (call_io call n) as [n' [[ms ces]|x|]] eqn:Hio; [| |done].
  - destruct (leads_do c i n call n' ms ces Hi Hn He Hio) as (c' & Hl & Hap & Hn' & _).
    apply (can_leads c c'); [done|]. by exists n'.
  - exists c. split; [apply leads_refl|]. right. by eapply faulty_call; [..|eapply HX].
Qed.

(** ** Two nodes talking

    A program on two nodes is a schedule of the cluster when each of its messages
    was sent before it is delivered. *)
Record reaches i j c (nf : Node * Node) c' : Prop := {
  rc_leads : leads_to c c';
  rc_apart : apart [i; j] c c';
  rc_fst : slots c' i = Up nf.1;
  rc_snd : slots c' j = Up nf.2
}.

Definition played {A} i j (p : M (Node * Node) A) (ok : A -> Cluster St E -> Prop) c : Prop :=
  forall nf, slots c i = Up nf.1 -> slots c j = Up nf.2 ->
  match p nf with
  | (nf', Ret a) => exists c', reaches i j c nf' c' /\ ok a c'
  | (_, Fail x) => save_failed (St := St) x -> exists c', leads_to c c' /\ faulty c'
  | (_, Undefined) => True
  end.

Lemma played_ret {A} i j (a : A) (ok : A -> Cluster St E -> Prop) c : ok a c -> played i j (mret a) ok c.
Proof.
  intros Hok nf Hn Hf. exists c. split; [|done]. split; [apply leads_refl|apply apart_refl|done|done].
Qed.

Lemma played_bind {A B} i j (p : M _ A) (k : A -> M _ B) ok1 ok2 c :
  played i j p ok1 c ->
  (forall a c1, ok1 a c1 -> played i j (k a) ok2 c1) ->
  played i j (p ≫= k) ok2 c.
Proof.
  intros Hp Hk nf Hn Hf. specialize (Hp nf Hn Hf). unfold mbind, M_bind.
  destruct (p nf) as [nf1 [a|x|]]; [|done|done]. destruct Hp as (c1 & [Hl1 Hap1 Hn1 Hf1] & Hok).
  specialize (Hk a c1 Hok nf1 Hn1 Hf1). destruct (k a nf1) as [nf2 [b|x|]]; [| |done].
  - destruct Hk as (c2 & [Hl2 Hap2 Hn2 Hf2] & Hok2). exists c2. split; [|done].
    split; [by eapply leads_trans|by eapply apart_trans|done|done].
  - intros Hx. destruct (Hk Hx) as (c2 & Hl2 & Hfl). exists c2. split; [by eapply leads_trans|done].
Qed.

(** A program that fails only when a save fails. *)
Lemma played_can {A} i j (p : M (Node * Node) A) ok c nf P X :
  played i j p ok c -> slots c i = Up nf.1 -> slots c j = Up nf.2 ->
  wp p nf P X -> (forall x nf', X x nf' -> save_failed (St := St) x) ->
  can c (fun c' => exists a nf', P a nf' /\ apart [i; j] c c' /\ slots c' i = Up nf'.1 /\ slots c' j = Up nf'.2).
Proof.
  intros Hp Hn Hf Hwp HX. specialize (Hp nf Hn Hf). unfold wp in Hwp.
  destruct (p nf) as [nf' [a|x|]]; [| |done].
  - destruct Hp as (c' & [Hl Hap Hn' Hf'] & _). apply (can_leads c c'); [done|]. by exists a, nf'.
  - destruct Hp as (c' & Hl & Hfl); [by eapply HX|]. exists c'. by auto.
Qed.

Context (i j : NodeId) (Hi : i ∈ Q) (Hj : j ∈ Q) (Hij : i <> j).

Lemma played_fst {A} (p : M Node A) call ms ok c :
  (forall n, call_io call n = (a ← p; mret (ms a, [])) n) ->
  (forall n, slots c i = Up n -> call_enabled call n (network c) = true) ->
  (forall a c', (forall m, m ∈ ms a -> m ∈ network c') -> ok a c') ->
  played i j (zoom fst (fun n nf => (n, nf.2)) p) ok c.
Proof.
  intros Hio He Hok [n f] Hn Hf. unfold zoom. cbn [fst snd] in *. specialize (Hio n).
  unfold mbind, M_bind in Hio. destruct (p n) as [n' [a|x|]]; [| |done].
  - destruct (leads_do c i n call n' (ms a) [] Hi Hn (He n Hn) Hio) as (c' & Hl & Hap & Hn' & Hms & _).
    exists c'. split; [|by apply Hok]. split; [done|eapply apart_weaken; [|done]; set_solver|done|].
    cbn [snd]. rewrite (ap_slots _ _ _ Hap); [done|]. set_solver.
  - intros Hx. exists c. split; [apply leads_refl|]. by apply (faulty_call c i n call n' x); auto.
Qed.

Lemma played_snd {A} (p : M Node A) call ms ok c :
  (forall n, call_io call n = (a ← p; mret (ms a, [])) n) ->
  (forall n, slots c j = Up n -> call_enabled call n (network c) = true) ->
  (forall a c', (forall m, m ∈ ms a -> m ∈ network c') -> ok a c') ->
  played i j (zoom snd (fun f nf => (nf.1, f)) p) ok c.
Proof.
  intros Hio He Hok [n f] Hn Hf. unfold zoom. cbn [fst snd] in *. specialize (Hio f).
  unfold mbind, M_bind in Hio. destruct (p f) as [f' [a|x|]]; [| |done].
  - destruct (leads_do c j f call f' (ms a) [] Hj Hf (He f Hf) Hio) as (c' & Hl & Hap & Hf' & Hms & _).
    exists c'. split; [|by apply Hok]. split; [done|eapply apart_weaken; [|done]; set_solver| |done].
    cbn [fst]. rewrite (ap_slots _ _ _ Hap); [done|]. set_solver.
  - intros Hx. exists c. split; [apply leads_refl|]. by apply (faulty_call c j f call f' x); auto.
Qed.

Lemma played_answer m c :
  m ∈ network c ->
  played i j (zoom snd (fun f nf => (nf.1, f)) (handle_request m))
    (fun r c' => forall a, r = Some a -> a ∈ network c') c.
Proof.
  intros Hm. apply (played_snd _ (HandleRequest m) option_list); [done| |].
  - intros n _. simpl. by apply bool_decide_eq_true_2.
  - intros r c' Hr a ->. apply Hr. simpl. left.
Qed.

Lemma played_step m c :
  m ∈ network c ->
  played i j (zoom fst (fun n nf => (n, nf.2)) (step m)) (fun _ _ => True) c.
Proof.
  intros Hm. apply (played_fst _ (Step m) (fun _ => [])); [done| |done].
  intros n _. simpl. by apply bool_decide_eq_true_2.
Qed.

Lemma played_request peer c :
  played i j (next_request peer) (fun r c' => forall m, r = Some m -> m ∈ network c') c.
Proof.
  eapply played_bind.
  - by apply (played_fst _ TakeMessages (fun ms => ms) (fun ms c' => forall m, m ∈ ms -> m ∈ network c')).
  - intros ms c1 Hms. apply played_ret. intros m Hm%last_Some_elem_of. apply Hms.
    by apply list_elem_of_filter in Hm as [_ ?].
Qed.

Lemma played_poll m c : m ∈ network c -> played i j (poll m) (fun _ _ => True) c.
Proof.
  intros Hm. eapply played_bind; [by apply played_answer|].
  intros [a|] c1 Ha; [apply played_step; by apply Ha|by apply played_ret].
Qed.

Lemma played_exchange fuel m c : m ∈ network c -> played i j (exchange fuel m) (fun _ _ => True) c.
Proof.
  revert m c. induction fuel as [|fuel IH]; intros m c Hm; cbn [exchange]; [by apply played_ret|].
  eapply played_bind; [by apply played_answer|]. intros [a|] c1 Ha; [|by apply played_ret].
  eapply played_bind; [apply played_step; by apply Ha|]. intros _ c2 _.
  destruct (is_success a); [by apply played_ret|].
  eapply played_bind; [apply played_request|]. intros [m'|] c3 Hm'; [|by apply played_ret].
  by apply IH, Hm'.
Qed.

Lemma played_catch_up peer elapsed fuel c :
  (forall n, slots c i = Up n -> (current_term_ n < u64_max)%N) ->
  played i j (catch_up peer elapsed fuel) (fun _ _ => True) c.
Proof.
  intros Hmax. eapply played_bind.
  - apply (played_fst _ (Tick elapsed) (fun _ => []) (fun _ _ => True)); [done| |done].
    intros n Hn. by apply N.ltb_lt, Hmax.
  - intros [] c1 _. eapply played_bind; [apply played_request|].
    intros [m|] c2 Hm; [|by apply played_ret]. by apply played_exchange, Hm.
Qed.
End schedule.

Lemma follower_saves {St E} `{RaftStorage St} n x (nf : RaftNode St E * RaftNode St E) :
  follower_failed n x nf -> save_failed (St := St) x.
Proof. intros [_ (ps & st & Hx)]. by eexists _, _, _. Qed.

(** ** The phases of a recovery *)

Section recovery.
Context {St E : Type} `{HSt : RaftStorage St} `{HSpec : !RaftStorageSpec St} `{HE : RandomEngine E}.
Context (members : gset NodeId) (config : NodeId -> RaftConfig) (Q : gset NodeId).
Context (Hconfig : cluster_config members config) (HQ : Q ⊆ members).
Abbreviation Node := (RaftNode St E).
Abbreviation leads_to := (leads_to members config Q).
Abbreviation can := (can members config Q).
Abbreviation reachable := (reachable members config).
Implicit Types (c : Cluster St E) (n f v : Node) (i j : NodeId).

Lemma leads_reachable c c' : reachable c -> leads_to c c' -> reachable c'.
Proof.
  intros (c0 & Hi & Hr) (es & Hes & _). exists c0. split; [done|]. etrans; [exact Hr|].
  by eapply run_events_steps.
Qed.

(** *** Restart *)

Definition disk (x : Slot St E) : St := match x with Up n => storage_ n | Down st => st end.

(** What a process that was stopped and started again has: what its disk held. *)
Record rebooted c j n : Prop := {
  rb_follower : state_ n = follower;
  rb_term : current_term_ n = ps_current_term (durable (disk (slots c j)));
  rb_log : tail (log_ n) = ps_log (durable (disk (slots c j)))
}.

Lemma stop c j :
  j ∈ Q -> exists c', leads_to c c' /\ apart [j] c c' /\ slots c' j = Down (disk (slots c j)).
Proof.
  intros Hj. destruct (slots c j) as [n|st] eqn:Hn.
  - eexists. split; [|split].
    + apply (leads_event members config Q (Kill j)); [done|]. unfold apply_event, enabled. simpl.
      by rewrite Hn, bool_decide_eq_true_2 by set_solver.
    + split; [|done]. intros k Hk. apply fn_lookup_insert_ne. set_solver.
    + apply fn_lookup_insert.
  - exists c. split; [apply leads_refl|]. by split; [apply apart_refl|].
Qed.

(** A storage that opens holds what a node can be built from. *)
Lemma start_node c j st st' :
  reachable c -> j ∈ Q -> slots c j = Down st ->
  (N.of_nat (length (ps_log (durable st))) < vector_max)%N -> storage_reopen st = (st', Ret tt) ->
  exists n, make_node (config j) (Some st') = Ret n /\ state_ n = follower /\
    durable st = mkPersistent (current_term_ n) (voted_for_ (n : Node)) (tail (log_ n)).
Proof.
  intros Hr Hj Hst Hlen Hop. assert (j ∈ members) as Hm by set_solver.
  destruct (reachable_rel members config Hconfig c Hr) as (s & _ & Hc).
  pose proof (cr_slots _ _ _ Hc j Hm) as Hslot. rewrite Hst in Hslot. destruct Hslot as [Hmed Hd].
  pose proof (storage_reopen_spec st Hmed) as Hre. unfold wp in Hre. rewrite Hop in Hre.
  destruct Hre as [Hinv Hd'].
  destruct (restart_rel (E:=E) members s j st' (config j)) as (n & Hmk & Hn); try by apply Hconfig.
  - apply Hc.
  - split; [by apply storage_inv_medium|]. by rewrite Hd'.
  - done.
  - rewrite Hd'. lia.
  - pose proof (make_node_cases (E:=E) (config j) st' (cc_typed _ _ Hconfig j Hm) Hinv) as Hcases.
    rewrite Hmk in Hcases. destruct Hcases as (_ & Hper & _ & Hsto & Hfo & _).
    exists n. split; [done|]. split; [done|]. unfold persisted in Hper. by rewrite <- Hd', <- Hsto.
Qed.

Lemma start c j st :
  reachable c -> j ∈ Q -> slots c j = Down st ->
  (N.of_nat (length (ps_log (durable st))) < vector_max)%N ->
  can c (fun c' => exists n, apart [j] c c' /\ slots c' j = Up n /\ state_ n = follower /\
    durable st = mkPersistent (current_term_ n) (voted_for_ n) (tail (log_ n))).
Proof.
  intros Hr Hj Hst Hlen. assert (j ∈ members) as Hm by set_solver.
  assert (enabled members (Restart j) c = true) as He
    by (unfold enabled; simpl; by rewrite Hst, bool_decide_eq_true_2).
  destruct (storage_reopen st) as [st' [[]|x|]] eqn:Hop.
  - destruct (start_node c j st st' Hr Hj Hst Hlen Hop) as (n & Hmk & Hfo & Hd).
    exists (set_slot j (Up n) c). split; [|left; exists n; split; [|split; [apply fn_lookup_insert|done]]].
    + apply (leads_event members config Q (Restart j)); [done|]. unfold apply_event. rewrite He. simpl.
      by rewrite Hst, Hop, Hmk.
    + split; [|done]. intros k Hk. apply fn_lookup_insert_ne. set_solver.
  - exists c. split; [apply leads_refl|]. right. exists (Restart j). split; [done|].
    split; [done|]. by eapply fault_open.
  - destruct (reachable_rel members config Hconfig c Hr) as (s & _ & Hc).
    pose proof (cr_slots _ _ _ Hc j Hm) as Hslot. rewrite Hst in Hslot. destruct Hslot as [Hmed _].
    pose proof (storage_reopen_spec st Hmed) as Hre. unfold wp in Hre. by rewrite Hop in Hre.
Qed.

Lemma reboot c j :
  reachable c -> j ∈ Q -> (N.of_nat (length (ps_log (durable (disk (slots c j))))) < vector_max)%N ->
  can c (fun c' => exists n, apart [j] c c' /\ slots c' j = Up n /\ rebooted c j n).
Proof.
  intros Hr Hj Hlen. destruct (stop c j Hj) as (c1 & Hl1 & Hap1 & Hd).
  apply (can_bind _ _ _ _ (fun c' => c' = c1)); [by apply (can_leads _ _ _ c c1)|]. intros ? _ ->.
  eapply can_bind; [by apply (start c1 j); [eapply leads_reachable| | |]|].
  intros c2 _ (n & Hap2 & Hn & Hfo & Hdu). apply can_ret. exists n.
  split; [by eapply apart_trans|]. split; [done|]. by split; rewrite ?Hdu.
Qed.

Lemma reboot_all js c :
  reachable c -> NoDup js ->
  (forall j, j ∈ js -> j ∈ Q /\ (N.of_nat (length (ps_log (durable (disk (slots c j))))) < vector_max)%N) ->
  can c (fun c' => apart js c c' /\ forall j, j ∈ js -> exists n, slots c' j = Up n /\ rebooted c j n).
Proof.
  revert c. induction js as [|j js IH]; intros c Hr Hnd Hjs.
  { apply can_ret. split; [apply apart_refl|]. by intros j ?%not_elem_of_nil. }
  apply NoDup_cons in Hnd as [Hni Hnd]. destruct (Hjs j) as [Hj Hlen]; [left|].
  eapply can_bind; [by apply (reboot c j)|]. intros c1 Hl1 (n & Hap1 & Hn & Hrb).
  assert (forall k, k ∈ js -> slots c1 k = slots c k) as Hsame.
  { intros k Hk. apply (ap_slots _ _ _ Hap1). by intros ->%list_elem_of_singleton. }
  eapply can_bind; [apply (IH c1 (leads_reachable _ _ Hr Hl1) Hnd)|].
  { intros k Hk. rewrite Hsame by done. apply Hjs. by right. }
  intros c2 _ [Hap2 Hall]. apply can_ret. split.
  - apply (apart_trans _ _ c1); [eapply apart_weaken, Hap1|eapply apart_weaken, Hap2]; set_solver.
  - intros k [->|Hk]%elem_of_cons.
    + exists n. by rewrite (ap_slots _ _ _ Hap2).
    + destruct (Hall k Hk) as (n' & Hn' & [H1 H2 H3]). exists n'. split; [done|].
      split; by rewrite <- ?(Hsame k Hk).
Qed.

(** *** Election *)

Lemma leads_take c i n :
  i ∈ Q -> slots c i = Up n ->
  exists c', leads_to c c' /\ apart [i] c c' /\ slots c' i = Up (set_outbox_ [] n) /\
    forall m, m ∈ outbox_ n -> m ∈ network c'.
Proof.
  intros Hi Hn. destruct (leads_do members config Q HQ c i n TakeMessages (set_outbox_ [] n) (outbox_ n) [] Hi Hn
    eq_refl eq_refl) as (c' & Hl & Hap & Hn' & Hms & _). by exists c'.
Qed.

(** The request of a campaign for term [T]. *)
Definition bid n (T : Term) (e : LogEntry) : RequestVoteRequest :=
  mkVoteRequest T (node_id (config_ n)) (last_log_index n) (term e).

Lemma standing_rebase n0 n1 T ps n :
  config_ n1 = config_ n0 -> members_ n1 = members_ n0 -> log_ n1 = log_ n0 ->
  standing n1 T ps n -> standing n0 T ps n.
Proof. intros Hcf Hme Hl [H1 H2 H3 H4 H5]. rewrite Hl in H5. split; congruence. Qed.

(** One timeout: the requests of the next term are on their way. *)
Lemma campaign_once c i n e :
  i ∈ Q -> slots c i = Up n -> node_inv n -> state_ n <> leader -> (1 < quorum_size n)%N ->
  (current_term_ n < u64_max)%N -> last (log_ n) = Some e ->
  can c (fun c' => exists n', apart [i] c c' /\ slots c' i = Up n' /\
    standing n (current_term_ n + 1) [node_id (config_ n)] n' /\ state_ n' = candidate /\ log_ n' = log_ n /\
    forall p, p ∈ peers (config_ n) -> ask n (bid n (current_term_ n + 1) e) p ∈ network c').
Proof.
  intros Hi Hn Hinv Hst Hq Hmax He. set (el := election_timeout_max (config_ n)).
  pose proof (tick_campaigns n e el Hinv Hst Hq Hmax ltac:(done) He) as Htick.
  eapply can_bind.
  { eapply (can_call members config Q HQ c i n (Tick el)); [done|done|by apply N.ltb_lt| |intros x n' Hx; exact Hx].
    simpl. apply wp_bind. eapply wp_mono; [exact Htick|intros [] n' H; apply wp_ret; exact H|done]. }
  intros c1 _ (n1 & Hap1 & Hn1 & Hstand & Hcand & Hlog & Hask).
  destruct (leads_take c1 i n1 Hi Hn1) as (c2 & Hl2 & Hap2 & Hn2 & Hms).
  apply (can_leads _ _ _ c1 c2); [done|]. exists (set_outbox_ [] n1). split; [by eapply apart_trans|].
  split; [done|]. split; [by apply standing_taken|]. split; [done|]. split; [done|].
  intros p Hp. specialize (Hask p Hp). apply last_Some_elem_of, list_elem_of_filter in Hask as [_ Hin].
  by apply Hms.
Qed.

(** Timeouts until the term is high enough. *)
Lemma campaign k c i n e :
  i ∈ Q -> slots c i = Up n -> node_inv n -> state_ n <> leader -> (1 < quorum_size n)%N ->
  (current_term_ n + N.of_nat k < u64_max)%N -> last (log_ n) = Some e ->
  let T := (current_term_ n + N.of_nat k + 1)%N in
  can c (fun c' => exists n', apart [i] c c' /\ slots c' i = Up n' /\
    standing n T [node_id (config_ n)] n' /\
    forall p, p ∈ peers (config_ n) -> ask n (bid n T e) p ∈ network c').
Proof.
  revert c n. induction k as [|k IH]; intros c n Hi Hn Hinv Hst Hq Hmax He T;
    (eapply can_bind; [apply (campaign_once c i n e); try done; lia|]);
    intros c1 _ (n1 & Hap1 & Hn1 & Hs & Hcand & Hlog & Hask).
  - apply can_ret. replace T with (current_term_ n + 1)%N by lia. by exists n1.
  - destruct Hs as [Hinv1 Hcf Hme HT _]. eapply can_bind; [apply (IH c1 n1); try done|].
    + congruence.
    + unfold quorum_size. by rewrite Hme.
    + lia.
    + by rewrite Hlog.
    + intros c2 _ (n2 & Hap2 & Hn2 & Hs2 & Hask2). apply can_ret.
      replace (current_term_ n1 + N.of_nat k + 1)%N with T in * by lia.
      exists n2. split; [by eapply apart_trans|]. split; [done|].
      rewrite Hcf in *. split; [by eapply standing_rebase|]. intros p Hp. specialize (Hask2 p Hp).
      unfold ask, bid, last_log_index in *. by rewrite Hcf, Hlog in Hask2.
Qed.

(** The voters are asked one after the other. *)
Lemma poll_all n0 q js ps c n :
  let i := node_id (config_ n0) in
  i ∈ Q -> rv_candidate_id q = i -> is_u64 (rv_term q) -> (N.of_nat (length (log_ n0)) < vector_max)%N ->
  NoDup js -> slots c i = Up n -> standing n0 (rv_term q) ps n -> ps <> [] ->
  (forall j, j ∈ js -> j ∈ Q /\ j <> i /\ ask n0 q j ∈ network c /\
     exists v, slots c j = Up v /\ node_id (config_ v) = j /\ wins_over n0 q v) ->
  can c (fun c' => exists n', apart (i :: js) c c' /\ slots c' i = Up n' /\
    standing n0 (rv_term q) (reverse js ++ ps) n' /\
    forall j, j ∈ js -> exists v, slots c' j = Up v /\ current_term_ v = rv_term q).
Proof.
  intros i Hi Hid Hu Hlen. revert c n ps. induction js as [|j js IH]; intros c n ps Hnd Hn Hst Hps Hjs.
  { apply can_ret. exists n. split; [apply apart_refl|]. split; [done|]. split; [done|].
    by intros j ?%not_elem_of_nil. }
  apply NoDup_cons in Hnd as [Hni Hnd].
  destruct (Hjs j) as (Hj & Hji & Hm & v & Hv & Hvid & Hwin); [left|].
  pose proof (poll_stands n0 q ps n v Hid Hu Hlen Hwin Hst Hps) as Hpoll. rewrite Hvid in Hpoll.
  eapply can_bind.
  { eapply (played_can members config Q i j (poll (ask n0 q j)) _ c (n, v)); [|done|done|exact Hpoll|].
    - apply (played_poll members config Q HQ i j Hi Hj (not_eq_sym Hji)); exact Hm.
    - intros x nf Hx. exact Hx. }
  intros c1 _ (b & [n1 v1] & [Hst1 Ht1] & Hap1 & Hn1 & Hv1). cbn [fst snd] in *.
  eapply can_bind; [apply (IH c1 n1 (j :: ps) Hnd Hn1 Hst1); [done|]|].
  { intros k Hk. destruct (Hjs k) as (Hk1 & Hk2 & Hk3 & w & Hw & Hk4); [by right|].
    split; [done|]. split; [done|]. split; [by apply Hap1|]. exists w.
    rewrite (apart_pair i j k c c1); [done|done|done|]. by intros ->. }
  intros c2 _ (n2 & Hap2 & Hn2 & Hst2 & Hall). apply can_ret.
  exists n2. split; [by eapply apart_cons|]. split; [done|]. split; [by rewrite reverse_cons, <- app_assoc|].
  intros k [->|Hk]%elem_of_cons; [|by apply Hall].
  exists v1. by rewrite (apart_unvisited i j js c1 c2).
Qed.

(** *** Proposal *)

(** A leader takes a proposal: the entry is at the end of its log. *)
Record extended n cmd (np : Node) : Prop := {
  ex_log : log_ np = log_ n ++ [mkEntry (current_term_ n) cmd false];
  ex_commit : commit_index_ np = commit_index_ n;
  ex_term : current_term_ np = current_term_ n;
  ex_config : config_ np = config_ n;
  ex_members : members_ np = members_ n
}.

Lemma propose_extends n cmd :
  node_inv n -> state_ n = leader -> (N.of_nat (length (log_ n)) < vector_max)%N ->
  wp (propose cmd) n (fun _ n' => exists np, extended n cmd np /\ same_reign np n')
    (fun x _ => save_failed (St := St) x).
Proof.
  intros Hn Hst Hlen. destruct (inv_log n Hn) as (l & Hl & _). unfold propose. wp_steps.
  rewrite decide_False by auto. destruct (N.eqb_spec (N.of_nat (length (log_ n))) u64_max) as [|_]; [lia|].
  unfold log_push_back. wp_steps. rewrite (proj2 (N.ltb_lt _ _) Hlen). wp_steps.
  set (e := mkEntry (current_term_ n) cmd false).
  pose proof (inv_push_back n e Hn (inv_term n Hn) Hlen) as Hn1.
  eapply (inv_persist _ _ _ (l ++ [e])); [done|by node_simpl; rewrite Hl| |].
  2:{ intros x st Hx _ _. by eapply broken_failed. }
  intros st _ Hnp. unfold last_log_index_locked. wp_steps.
  eapply wp_mono; [|intros b n1 Hb; apply wp_bind; exact Hb|intros x n1 Hx; exact Hx].
  apply wp_commit_and_broadcast; [done|done|]. intros n1 ms r Hmc _ _ _. wp_steps.
  set (np := set_storage_ st _) in *. exists np. split; [done|]. apply reign_sent.
  pose proof (delivers_committed np n1 Hnp Hmc) as []. destruct Hmc as [->|(k & _ & ->)]; by split.
Qed.

(** *** Replication *)

Lemma replicate_all (np : Node) i js dn c n :
  reachable c -> i ∈ Q -> slots c i = Up n -> same_reign np n -> (current_term_ np < u64_max)%N ->
  NoDup js -> js <> [] \/ settled n ->
  (forall j, j ∈ dn -> match_index_ n !! j = Some (last_log_index np)) ->
  (forall j, j ∈ js -> j ∈ Q /\ j <> i /\
     exists f, slots c j = Up f /\ (current_term_ f <= current_term_ np)%N) ->
  can c (fun c' => exists n', slots c' i = Up n' /\ same_reign np n' /\ settled n' /\
    forall j, j ∈ js ++ dn -> match_index_ n' !! j = Some (last_log_index np)).
Proof.
  revert dn c n. induction js as [|j js IH]; intros dn c n Hr Hi Hn Hreign Hmax Hnd Hset Hdn Hjs.
  { destruct Hset as [?|Hset]; [done|]. apply can_ret. exists n. by split_and!. }
  apply NoDup_cons in Hnd as [Hni Hnd]. destruct (Hjs j) as (Hj & Hji & f & Hf & Hle); [left|].
  assert (i ∈ members /\ j ∈ members) as [Him Hjm] by set_solver.
  destruct (reachable_node members config Hconfig c i n Hr Him Hn) as (s & Hc & Hrel).
  pose proof (cr_slots _ _ _ Hc j Hjm) as Hfrel. rewrite Hf in Hfrel.
  destruct Hreign as [Hst HT Hlog Hcf Hme Hdel].
  pose proof (catch_up_converges members s i j n f (heartbeat_interval (config_ n)) (length (log_ n))
    (cr_inv _ _ _ Hc) Hrel Hfrel Him Hjm (not_eq_sym Hji) Hst ltac:(lia) ltac:(lia) ltac:(done) ltac:(done))
    as Hcatch.
  eapply can_bind.
  { eapply (played_can members config Q i j (catch_up j _ _) _ c (n, f)); [|done|done|exact Hcatch|].
    - apply (played_catch_up members config Q HQ i j Hi Hj (not_eq_sym Hji)).
      intros x Hx. rewrite Hn in Hx. injection Hx as <-. lia.
    - intros x nf. apply follower_saves. }
  intros c1 Hl1 (b & [n1 f1] & (_ & [Hreign1 Hm1 _ Hset1] & _) & Hap1 & Hn1 & Hf1). cbn [fst snd] in *.
  eapply can_bind; [apply (IH (j :: dn) c1 n1); try done|].
  - by eapply leads_reachable.
  - by eapply reign_trans.
  - by right.
  - intros k Hk. rewrite Hm1. unfold last_log_index in *. rewrite Hlog in *.
    destruct (decide (k = j)) as [->|Hkj]; [apply lookup_insert_eq|].
    rewrite lookup_insert_ne by done. apply Hdn. by apply elem_of_cons in Hk as [?|?].
  - intros k Hk. destruct (Hjs k) as (Hk1 & Hk2 & g & Hg & Hgt); [by right|].
    split; [done|]. split; [done|]. exists g. split; [|done].
    rewrite (apart_pair i j k c c1); [done|done|done|]. by intros ->.
  - intros c2 _ (n2 & Hn2 & Hr2 & Hs2 & Hm2). apply can_ret. exists n2. split_and!; try done.
    intros k Hk. apply Hm2. rewrite !elem_of_app, !elem_of_cons in *. tauto.
Qed.

(** *** From a majority to a leader *)

(** The running node of a slot holds [P]. *)
Definition running c j (P : Node -> Prop) : Prop := exists n, slots c j = Up n /\ P n.

Definition log_at c j : list LogEntry := match slots c j with Up n => tail (log_ n) | Down _ => [] end.
Definition term_at c j : Term := match slots c j with Up n => current_term_ n | Down _ => 0%N end.

Context (Hmajority : size members < 2 * size Q) (Hpeers : 1 < size members).

Lemma quorum_of_majority n :
  members_ n = members -> (quorum_size n <= N.of_nat (size Q))%N /\ (1 < quorum_size n)%N.
Proof.
  intros Hm. unfold quorum_size. rewrite Hm. set (x := size members) in *. set (y := size Q) in *.
  clearbody x y. clear -Hmajority Hpeers. split; [|pose proof (N.div_le_lower_bound (N.of_nat x) 2 1); lia].
  pose proof (N.Div0.div_lt_upper_bound (N.of_nat x) 2 (N.of_nat y)). lia.
Qed.

(** The candidate: its log is the most up-to-date of the majority. *)
Lemma best_candidate c :
  exists i, i ∈ Q /\ forall j, j ∈ Q -> up_to_date (log_at c i) (log_at c j).
Proof.
  destruct (greatest (fun i j => up_to_date (log_at c i) (log_at c j)) (fun x y z => up_to_date_trans _ _ _)
    (fun x y => up_to_date_total _ _) (elements Q)) as (i & Hi & Hmax).
  - intros Hnil%elements_empty_inv. apply leibniz_equiv in Hnil. rewrite Hnil in Hmajority.
    rewrite size_empty in Hmajority. lia.
  - exists i. split; [set_solver|]. intros j Hj. apply Hmax. set_solver.
Qed.

Lemma highest_term c : exists j, j ∈ Q /\ forall k, k ∈ Q -> (term_at c k <= term_at c j)%N.
Proof.
  destruct (greatest (fun i j => (term_at c j <= term_at c i)%N) (fun x y z Hxy Hyz => N.le_trans _ _ _ Hyz Hxy)
    (fun x y => N.le_ge_cases _ _) (elements Q)) as (i & Hi & Hmax).
  - intros Hnil%elements_empty_inv. apply leibniz_equiv in Hnil. rewrite Hnil in Hmajority.
    rewrite size_empty in Hmajority. lia.
  - exists i. split; [set_solver|]. intros j Hj. apply Hmax. set_solver.
Qed.

(** A follower with room in its log and in its term. *)
Record ready n : Prop := {
  rd_follower : state_ n = follower;
  rd_term : (current_term_ n + 1 < u64_max)%N;
  rd_log : (N.of_nat (length (log_ n)) + 2 <= vector_max)%N
}.

(** A node leads the term [T], the rest of the majority is at that term. *)
Record presides c i T n : Prop := {
  ps_slot : slots c i = Up n;
  ps_state : state_ n = leader;
  ps_term : current_term_ n = T;
  ps_room : (N.of_nat (length (log_ n)) < vector_max)%N;
  ps_rest : forall j, j ∈ Q -> j <> i -> running c j (fun f => current_term_ f = T)
}.

(** A voter of the majority is won over. *)
Lemma voter_won c s i n e T j :
  cluster_rel members s c -> i ∈ Q -> slots c i = Up n -> last (log_ n) = Some e -> j ∈ Q -> j <> i ->
  running c j ready -> up_to_date (log_at c i) (log_at c j) -> (term_at c j < T)%N ->
  exists v, slots c j = Up v /\ node_id (config_ v) = j /\ wins_over n (bid n T e) v.
Proof.
  intros Hc Hi Hn He Hj Hji (v & Hv & _) Hup Hlt. unfold log_at, term_at in *. rewrite Hn, Hv in *.
  assert (i ∈ members /\ j ∈ members) as [Him Hjm] by set_solver.
  pose proof (cr_slots _ _ _ Hc i Him) as Hnr. pose proof (cr_slots _ _ _ Hc j Hjm) as Hvr.
  rewrite Hn in Hnr. rewrite Hv in Hvr. simpl in Hnr, Hvr.
  pose proof (nr_id _ _ _ _ Hnr) as Hni. pose proof (nr_id _ _ _ _ Hvr) as Hvi.
  exists v. split; [done|]. split; [done|]. split; [apply Hvr| | |done|].
  - rewrite Hvi. by apply (rel_peer members s i n).
  - rewrite Hni. by apply (rel_peer members s j v); auto.
  - apply (up_to_date_current n v e (nr_inv _ _ _ _ Hnr) (nr_inv _ _ _ _ Hvr) He Hup).
Qed.

Lemma others_majority i :
  i ∈ Q -> let js := elements (Q ∖ {[i]}) in
  NoDup js /\ (forall j, j ∈ js <-> j ∈ Q /\ j <> i) /\ S (length js) = size Q.
Proof.
  intros Hi js. split; [apply NoDup_elements|]. split; [unfold js; set_solver|].
  assert (size (Q ∖ {[i]}) = length js) as Hs by done.
  rewrite <- Hs, size_difference, size_singleton by set_solver.
  assert (size Q <> 0) by (intros ?%size_empty_inv; set_solver). lia.
Qed.

Lemma leader_recovers c :
  reachable c -> (forall j, j ∈ Q -> running c j ready) ->
  can c (fun c' => exists i T n, i ∈ Q /\ presides c' i T n /\ (T < u64_max)%N /\
    forall j, j ∈ Q -> (term_at c j < T)%N).
Proof.
  intros Hr Hrd. destruct (best_candidate c) as (i & Hi & Hbest).
  destruct (highest_term c) as (h & Hh & Hhigh). destruct (Hrd h Hh) as (nh & Hnh & Hrh).
  destruct (Hrd i Hi) as (n & Hn & [Hfo _ Hroom]). assert (i ∈ members) as Him by set_solver.
  destruct (reachable_node members config Hconfig c i n Hr Him Hn) as (s & Hc & Hrel).
  pose proof (nr_inv _ _ _ _ Hrel) as Hinv. pose proof (nr_id _ _ _ _ Hrel) as Hid.
  destruct (inv_log n Hinv) as (l & Hl & _). destruct (last_log n l Hl) as [e He].
  destruct (quorum_of_majority n (nr_members _ _ _ _ Hrel)) as [Hq Hq1].
  assert (term_at c h = current_term_ nh) as Hth by (unfold term_at; by rewrite Hnh).
  assert (current_term_ n <= term_at c h)%N as Hle.
  { specialize (Hhigh i Hi). unfold term_at in Hhigh at 1. by rewrite Hn in Hhigh. }
  pose proof (rd_term _ Hrh) as Hmax.
  set (k := N.to_nat (term_at c h - current_term_ n)).
  eapply can_bind; [apply (campaign k c i n e); try done; [congruence|lia]|].
  intros c1 _ (n1 & Hap1 & Hn1 & Hst1 & Hask).
  replace (current_term_ n + N.of_nat k + 1)%N with (term_at c h + 1)%N in * by lia.
  set (T := (term_at c h + 1)%N) in *. destruct (others_majority i Hi) as (Hnd & Hjs & Hsize).
  set (js := elements (Q ∖ {[i]})) in *.
  assert (forall j, j ∈ Q -> (term_at c j < T)%N) as HT by (intros j Hj; specialize (Hhigh j Hj); lia).
  eapply can_bind; [apply (poll_all n (bid n T e) js [node_id (config_ n)] c1 n1); rewrite ?Hid; try done|].
  - cbn [bid rv_term]. unfold is_u64. lia.
  - lia.
  - by rewrite Hid in Hst1.
  - intros j [Hj Hji]%Hjs. assert (j ∈ members) as Hjm by set_solver.
    destruct (voter_won c s i n e T j) as (v & Hv & Hvid & Hwin); auto.
    split; [done|]. split; [done|]. split.
    + apply Hask, (rel_peer members s i n); auto.
    + exists v. split; [|done]. rewrite (ap_slots _ _ _ Hap1); [done|]. by intros ->%list_elem_of_singleton.
  - rewrite Hid in *. cbn [bid rv_term] in *. intros c2 _ (n2 & _ & Hn2 & Hst2 & Hrest). apply can_ret.
    assert (length (reverse js ++ [i]) = size Q) as Hcount
      by (rewrite length_app, length_reverse; simpl; lia).
    destruct (standing_wins _ _ _ _ Hst2) as [Hlead Hlog].
    + rewrite reverse_Permutation. apply NoDup_app. split; [done|]. split; [|apply NoDup_singleton].
      intros x [_ Hx]%Hjs. by intros ?%list_elem_of_singleton.
    + lia.
    + lia.
    + exists i, T, n2. split; [done|]. split; [|split; [lia|done]].
      split; [done|done|apply Hst2| |].
      * rewrite Hlog, length_app. cbn [length]. lia.
      * intros j Hj Hji. apply Hrest, Hjs. done.
Qed.

(** *** From a leader to a commitment *)

Lemma proposal_commits c i T n cmd :
  reachable c -> i ∈ Q -> presides c i T n -> (T < u64_max)%N ->
  can c (fun c' => exists idx, (i, mkCommitted idx T cmd) ∈ published c').
Proof.
  intros Hr Hi [Hn Hst HT Hroom Hrest] Hmax. assert (i ∈ members) as Him by set_solver.
  destruct (reachable_node members config Hconfig c i n Hr Him Hn) as (s & _ & Hrel).
  pose proof (nr_inv _ _ _ _ Hrel) as Hinv.
  pose proof (propose_extends n cmd Hinv Hst Hroom) as Hprop.
  eapply can_bind.
  { eapply (can_call members config Q HQ c i n (Propose cmd)); [done|done|done| |intros x n' Hx; exact Hx].
    simpl. apply wp_bind. eapply wp_mono; [exact Hprop|intros r n' H; apply wp_ret; exact H|done]. }
  intros c1 Hl1 (n1 & Hap1 & Hn1 & np & Hext & Hreign).
  destruct Hext as [Hlog Hcom Hnt Hcf Hme]. destruct (others_majority i Hi) as (Hnd & Hjs & Hsize).
  set (js := elements (Q ∖ {[i]})) in *.
  eapply can_bind; [apply (replicate_all np i js [] c1 n1); try done|].
  - by eapply leads_reachable.
  - by rewrite Hnt, HT.
  - left. intros Hnil. rewrite Hnil in Hsize. simpl in Hsize. lia.
  - by intros j ?%not_elem_of_nil.
  - intros j [Hj Hji]%Hjs. split; [done|]. split; [done|].
    destruct (Hrest j Hj Hji) as (f & Hf & Hft). exists f.
    rewrite (ap_slots _ _ _ Hap1); [|by intros ->%list_elem_of_singleton]. split; [done|]. rewrite Hnt, HT, Hft. done.
  - intros c2 Hl2 (n2 & Hn2 & Hreign2 & Hset & Hmatch).
    assert (reachable c2) as Hr2 by (eapply leads_reachable; [eapply leads_reachable|]; done).
    destruct (reachable_node members config Hconfig c2 i n2 Hr2 Him Hn2) as (s2 & Hc2 & Hrel2).
    destruct Hreign2 as [Hst2 HT2 Hlog2 Hcf2 Hme2 Hdel].
    assert (last_log_index n2 = last_log_index np) as Hlast by (unfold last_log_index; by rewrite Hlog2).
    assert (commit_index_ n2 = last_log_index n2) as Hcommit.
    { destruct (quorum_of_majority n2 (nr_members _ _ _ _ Hrel2)) as [Hq _].
      apply (settled_commits n2 js Hset); [by eapply leader_last; [apply Hc2| |]|done|lia|].
      intros j Hj. split; [|rewrite Hlast; apply Hmatch; by rewrite app_nil_r].
      apply Hjs in Hj as [Hj Hji]. apply (rel_peer members s2 i n2); auto. }
    destruct (leads_do members config Q HQ c2 i n2 TakeCommittedEntries _ [] (committed_entries_ n2) Hi Hn2
      eq_refl eq_refl) as (c3 & Hl3 & _ & _ & _ & Hpub).
    apply (can_leads _ _ _ c2 c3); [done|]. exists (N.of_nat (length (log_ n))). apply Hpub.
    replace (mkCommitted _ _ _) with (mkCommitted (N.of_nat (length (log_ n)))
      (term (mkEntry (current_term_ n) cmd false)) (command (mkEntry (current_term_ n) cmd false)))
      by (simpl; by rewrite HT).
    apply (dl_new _ _ Hdel); [|done|].
    + rewrite Hlog, Nat2N.id. by rewrite lookup_app_r, Nat.sub_diag by lia.
    + rewrite Hcommit, Hcom. pose proof (inv_commit n Hinv). pose proof (inv_log_pos n Hinv).
      rewrite (inv_last n2 (nr_inv _ _ _ _ Hrel2)), Hlog2, Hlog, length_app. simpl. lia.
Qed.

(** ** Recovery *)

Lemma rebooted_ready c c1 j n :
  reachable c1 -> j ∈ Q -> slots c1 j = Up n -> rebooted c j n ->
  (ps_current_term (durable (disk (slots c j))) + 1 < u64_max)%N ->
  (N.of_nat (length (ps_log (durable (disk (slots c j))))) + 3 <= vector_max)%N -> ready n.
Proof.
  intros Hr Hj Hn [Hfo HT Hl] Hmax Hlen. assert (j ∈ members) as Hjm by set_solver.
  destruct (reachable_node members config Hconfig c1 j n Hr Hjm Hn) as (s & _ & Hrel).
  destruct (inv_log n (nr_inv _ _ _ _ Hrel)) as (l & Hlog & _). rewrite Hlog in Hl. cbn [tail] in Hl.
  split; [done|by rewrite HT|]. rewrite Hlog, Hl. cbn [length]. lia.
Qed.

Lemma recovery c cmd :
  reachable c ->
  (forall j, j ∈ Q ->
     (ps_current_term (durable (disk (slots c j))) + 1 < u64_max)%N /\
     (N.of_nat (length (ps_log (durable (disk (slots c j))))) + 3 <= vector_max)%N) ->
  can c (fun c' => exists i idx T, i ∈ Q /\ (i, mkCommitted idx T cmd) ∈ published c' /\
    forall j, j ∈ Q -> (ps_current_term (durable (disk (slots c j))) < T)%N).
Proof.
  intros Hr Hbound. eapply can_bind; [apply (reboot_all (elements Q) c Hr (NoDup_elements Q))|].
  { intros j Hj%elem_of_elements. split; [done|]. destruct (Hbound j Hj). lia. }
  intros c1 Hl1 [_ Hall]. pose proof (leads_reachable _ _ Hr Hl1) as Hr1.
  eapply can_bind; [apply (leader_recovers c1 Hr1)|].
  { intros j Hj. destruct (Hall j) as (n & Hn & Hrb); [by apply elem_of_elements|].
    exists n. split; [done|]. destruct (Hbound j Hj). by apply (rebooted_ready c c1 j n). }
  intros c2 Hl2 (i & T & n & Hi & Hpres & Hmax & HT).
  eapply can_bind; [by apply (proposal_commits c2 i T n cmd (leads_reachable _ _ Hr1 Hl2))|].
  intros c3 _ (idx & Hpub). apply can_ret. exists i, idx, T. split; [done|]. split; [done|].
  intros j Hj. destruct (Hall j) as (m & Hm & Hrb); [by apply elem_of_elements|].
  rewrite <- (rb_term _ _ _ Hrb). specialize (HT j Hj). unfold term_at in HT. by rewrite Hm in HT.
Qed.

(** C11: fault tolerance.  From every reachable state of the cluster, whatever
    crashed, was lost or diverged before, the members of any majority [Q] can by
    their own steps commit any command: there is a schedule of restarts, timeouts,
    proposals and deliveries of messages that were sent, of nodes of [Q] alone, at
    the end of which a member of [Q] has handed the command to its state machine,
    in a term above every term on the disks of [Q].  Only a storage can prevent it:
    otherwise the schedule ends before an event of a member of [Q] that throws what
    a save threw, or whose storage does not open.  It needs a second member and
    room for two entries and two terms on these disks. *)
Theorem majority_recovers c cmd :
  reachable c ->
  (forall j, j ∈ Q ->
     (ps_current_term (durable (disk (slots c j))) + 1 < u64_max)%N /\
     (N.of_nat (length (ps_log (durable (disk (slots c j))))) + 3 <= vector_max)%N) ->
  exists es c', run_events members config es c = Some c' /\ Forall (fun e => event_node e ∈ Q) es /\
    ((exists i idx T, i ∈ Q /\ (i, mkCommitted idx T cmd) ∈ published c' /\
        forall j, j ∈ Q -> (ps_current_term (durable (disk (slots c j))) < T)%N) \/
     exists e, event_node e ∈ Q /\ enabled members e c' = true /\ storage_fault c' e).
Proof.
  intros Hr Hbound. destruct (recovery c cmd Hr Hbound) as (c' & (es & Hes & HQs) & Hend).
  by exists es, c'.
Qed.
End recovery.

(** ** A concrete recovery *)

(** A storage that does not fail prevents nothing. *)
Lemma reliable_no_fault {St E} `{HSt : RaftStorage St} `{HR : !ReliableStorage St} `{HE : RandomEngine E}
    (c : Cluster St E) e : ~ storage_fault c e.
Proof.
  intros [i call n n' x _ _ (ps & st & st' & Hx)|j st st' x _ Hx]; [by apply save_reliable in Hx|].
  by apply reopen_reliable in Hx.
Qed.

(** Node 2, which leads term 3, dies; nodes 1 and 3 have diverged. *)
Definition demo_orphaned : Cluster InMemoryRaftStorage N := demo_run (demo_diverge ++ [Kill 2]).
Definition demo_survivors : gset NodeId := {[1%N; 3%N]}.

Lemma majority_recovers_witness :
  exists es c', run_events demo_members demo_config es demo_orphaned = Some c' /\
    Forall (fun e => event_node e ∈ demo_survivors) es /\
    exists i idx T, i ∈ demo_survivors /\ (i, mkCommitted idx T (bytes_of "z=9")) ∈ published c' /\
      forall j, j ∈ demo_survivors -> (ps_current_term (durable (disk (slots demo_orphaned j))) < T)%N.
Proof.
  destruct (majority_recovers demo_members demo_config demo_survivors demo_cluster_config) with
    (c := demo_orphaned) (cmd := bytes_of "z=9") as (es & c' & Hes & HQ & [Hdone|(e & _ & _ & Hf)]).
  - unfold demo_survivors. set_solver.
  - vm_compute. lia.
  - vm_compute. lia.
  - demo_reach.
  - intros j [->%elem_of_singleton| ->%elem_of_singleton]%elem_of_union; vm_compute; split; done.
  - by exists es, c'.
  - by apply reliable_no_fault in Hf.
Defined.
