(* ===== verification/RaftFaults.v ===== *)
(** * Behaviour outside the fail-stop assumption

    [RaftCluster] stops a node whose call throws.  The RPC server of the program
    does not: [run_handler] of [src/src/grpc/grpc_server.cpp] turns the exception into
    an error status and keeps the node.  The theorems here say what such a node does
    with the request when it comes again, for every storage that meets the contract
    [RaftStorageSpec], and which logs that [raft_node.cpp] accepts it refuses to
    load. *)

From Stdlib Require Import NArith ZArith Lia.
From stdpp Require Import base tactics numbers list gmap functions strings.
From S2P Require Import Prelude RaftTypes RaftLog RaftNode RaftBehaviour RaftInvariant.
From S2P Require Import RaftProtocol RaftSimulation RaftCluster RaftSafety RaftProperties RaftReplication.
From S2P Require Import KvStore FilePersistence FileSnapshot DurableStorage StorageProperties.

Section faults.
Context {St E : Type} `{HSt : RaftStorage St} `{HSpec : !RaftStorageSpec St} `{HE : RandomEngine E}.
Abbreviation Node := (RaftNode St E).
Implicit Types (n : Node) (m : Message).

(** A request from a peer to this node. *)
Definition addressed n m : Prop := to m = node_id (config_ n) /\ from m ∈ peers (config_ n).

(** A request of the current term reaches its handler, and the one message the
    handler adds is the answer. *)
Lemma wp_current_request n m (handler : M Node unit) (Q : option Message -> Node -> Prop) X :
  node_inv n -> addressed n m -> (message_term m <= current_term_ n)%N ->
  match rpc m with
  | VoteRequest q => handler = handle_request_vote_locked (from m) q
  | AppendRequest q => handler = handle_append_entries_locked (from m) q
  | _ => False
  end ->
  wp handler n (fun _ n' => exists a, outbox_ n' = outbox_ n ++ [a] /\ answers m a = true /\
    Q (Some a) (set_outbox_ (outbox_ n) n')) X ->
  wp (handle_request m) n Q X.
Proof.
  intros Hn [Hto Hp] Hle Hh Hwp. unfold handle_request.
  assert (wp (step_locked m) n (fun b n' => b = true /\ exists a, outbox_ n' = outbox_ n ++ [a] /\
    answers m a = true /\ Q (Some a) (set_outbox_ (outbox_ n) n')) X) as Hstep.
  { unfold step_locked. wp_steps. rewrite Hto, N.eqb_refl, peer_is_peer by done. cbn [negb orb].
    rewrite (proj2 (N.ltb_ge _ _)) by done. cbn [when]. wp_steps.
    destruct (rpc m); try done; subst handler; (eapply wp_mono; [exact Hwp| |done]); intros [] n' Hn'; by wp_steps. }
  destruct (rpc m) eqn:Hm; try done; wp_steps; (eapply wp_mono; [exact Hstep| |done]);
    intros b n' (-> & x & Ho & Ha & HQ); wp_steps; rewrite Ho, take_app_length, drop_app_length, extract_single by done;
    by wp_steps.
Qed.

Lemma granted_answers n m q :
  rpc m = VoteRequest q -> answers m (vote_answer n (from m) true) = true.
Proof. intros Hm. unfold answers. rewrite Hm. simpl. by rewrite N.eqb_refl. Qed.

(** A vote request of the current term only throws when the save of the vote does. *)
Lemma vote_throws n m q n1 e :
  node_inv n -> addressed n m -> rpc m = VoteRequest q -> rv_term q = current_term_ n ->
  handle_request m n = (n1, Fail (Exn e)) ->
  may_grant n (from m) q /\ voted_for_ n = None /\ node_inv n1 /\
  unsaved (set_voted_for_ (Some (from m)) n) (durable (storage_ n)) (Exn e) n1.
Proof.
  intros Hn Ha Hm Ht Hrun. destruct (inv_log n Hn) as (l & Hl & _).
  assert (wp (handle_request m) n (fun _ _ => True) (fun f n1 => may_grant n (from m) q /\ voted_for_ n = None /\
    (f <> Crash -> node_inv n1) /\ unsaved (set_voted_for_ (Some (from m)) n) (durable (storage_ n)) f n1)) as H.
  { eapply (wp_current_request n m (handle_request_vote_locked (from m) q)); [done|done| |by rewrite Hm|].
    { unfold message_term. rewrite Hm. lia. }
    apply (wp_request_vote n l); [done|apply Ha|done| | |].
    - intros _. eexists. split; [done|]. split; [|done]. unfold answers. rewrite Hm. simpl. by rewrite N.eqb_refl.
    - intros _ _ _ st t r _ n2 _. eexists. split; [done|]. by split; [eapply granted_answers|].
    - intros Hc Hle Hv Hcur f n2 _ _ Hi Hu. split; [by split_and!; auto|]. done. }
  apply (wp_elim _ _ _ _ _ _ H) in Hrun as (? & ? & Hi & ?). split_and!; try done. by apply Hi.
Qed.

(** A vote that is in memory is granted again without a save. *)
Lemma vote_repeated n m q :
  node_inv n -> addressed n m -> rpc m = VoteRequest q -> rv_term q = current_term_ n ->
  voted_for_ n = Some (from m) -> rv_candidate_id q = from m -> candidate_current n q ->
  exists n', handle_request m n = (n', Ret (Some (vote_answer n (from m) true))) /\ storage_ n' = storage_ n.
Proof.
  intros Hn Ha Hm Ht Hv Hc Hcur. destruct (inv_log n Hn) as (l & Hl & _).
  assert (wp (handle_request m) n (fun r n' => r = Some (vote_answer n (from m) true) /\ storage_ n' = storage_ n)
    (fun _ _ => False)) as H.
  { eapply (wp_current_request n m (handle_request_vote_locked (from m) q)); [done|done| |by rewrite Hm|].
    { unfold message_term. rewrite Hm. lia. }
    apply (wp_request_vote n l); [done|apply Ha|done| | |congruence].
    - intros []. split_and!; try done; [lia|by right].
    - intros _ _ _ st t r [[_ ->]|[? _]] n2 _; [|congruence]. eexists. split; [done|].
      by split; [eapply granted_answers|]. }
  unfold wp in H. destruct (handle_request m n) as [n' [r|f|]]; [|done|done]. destruct H as [-> H]. eauto.
Qed.

(** A node that restarts on a storage in order finds its durable state there. *)
Lemma restarted n st st' n' :
  node_inv n -> storage_inv st -> storage_reopen st = (st', Ret tt) ->
  make_node (config_ n) (Some st') = Ret n' ->
  node_inv (n' : Node) /\ durable st = mkPersistent (current_term_ n') (voted_for_ n') (tail (log_ n')).
Proof.
  intros Hn Hst Hre Hmk. pose proof (storage_reopen_spec _ (storage_inv_medium _ Hst)) as Hspec.
  unfold wp in Hspec. rewrite Hre in Hspec. destruct Hspec as [Hi Hd].
  assert (config_typed (config_ n)) as Htyped by (destruct (inv_config n Hn); by split).
  pose proof (make_node_cases (E:=E) (config_ n) st' Htyped Hi) as Hcases.
  rewrite Hmk in Hcases. destruct Hcases as (Hn' & Hp & _ & <- & _). by rewrite <- Hd.
Qed.

Lemma log_of_tail n n' : node_inv n -> node_inv n' -> tail (log_ n') = tail (log_ n) -> log_ n' = log_ n.
Proof. intros Hn Hn'. destruct (inv_log n Hn) as (l & -> & _), (inv_log n' Hn') as (l' & -> & _). simpl. congruence. Qed.

(** C32: two votes in one term.  The vote is assigned before it is saved.  So
    whenever the handler of a vote request of the current term throws and the node
    lives on, the same request is granted when it comes again, without a save: the
    durable state has no vote.  If the process then restarts, it is ready to vote
    for every other candidate of that term whose log is current. *)
Theorem failed_save_double_vote n m q n1 e :
  node_inv n -> persisted n -> addressed n m -> rpc m = VoteRequest q -> rv_term q = current_term_ n ->
  handle_request m n = (n1, Fail (Exn e)) ->
  exists n2, handle_request m n1 = (n2, Ret (Some (vote_answer n (from m) true))) /\
    durable (storage_ n2) = mkPersistent (current_term_ n) None (tail (log_ n)) /\
    forall st n3 c q', storage_reopen (storage_ n2) = (st, Ret tt) -> make_node (config_ n) (Some st) = Ret n3 ->
      rv_candidate_id q' = c -> rv_term q' = current_term_ n -> candidate_current n q' ->
      may_grant (n3 : Node) c q'.
Proof.
  intros Hn Hp Ha Hm Ht Hrun.
  destruct (vote_throws n m q n1 e Hn Ha Hm Ht Hrun) as ((Hc & _ & _ & Hcur) & Hv & Hn1 & Heq & Hd).
  destruct (vote_repeated n1 m q) as (n2 & Hrun2 & Hst); try done; try (by rewrite Heq).
  assert (durable (storage_ n1) = mkPersistent (current_term_ n) None (tail (log_ n))) as Hdur
    by (rewrite Hd by done; unfold persisted in Hp; by rewrite Hp, Hv).
  exists n2. split; [by rewrite Hrun2, Heq|]. rewrite Hst. split; [done|].
  intros st n3 c q' Hre Hmk Hc' Ht' Hcur'.
  destruct (restarted n (storage_ n1) st n3 Hn (inv_storage n1 Hn1) Hre Hmk) as [Hn3 Hd3].
  rewrite Hdur in Hd3. injection Hd3 as HT3 Hv3 Hl3.
  split_and!; [done|lia|by left|]. unfold candidate_current, last_log_index in *.
  by rewrite (log_of_tail n n3 Hn Hn3).
Qed.

(** ** Entries *)

Abbreviation prev q := (N.to_nat (ae_previous_log_index q)).
Abbreviation merged_log n q := (merge (tail (log_ n)) (prev q) (ae_entries q)).

(** [n0] is [n] once it has accepted the sender as its leader. *)
Record refreshed n n0 : Prop := {
  rf_inv : node_inv n0;
  rf_state : state_ n0 = follower;
  rf_config : config_ n0 = config_ n;
  rf_term : current_term_ n0 = current_term_ n;
  rf_vote : voted_for_ n0 = voted_for_ n;
  rf_log : log_ n0 = log_ n;
  rf_commit : commit_index_ n0 = commit_index_ n;
  rf_outbox : outbox_ n0 = outbox_ n;
  rf_storage : storage_ n0 = storage_ n
}.

(** A request of the current term is rejected at once or reaches the log. *)
Lemma wp_current_append n m q (Q : option Message -> Node -> Prop) X :
  node_inv n -> addressed n m -> rpc m = AppendRequest q -> ae_term q = current_term_ n ->
  (forall a n', aer_success a = false -> (ae_leader_id q <> from m \/
     existsb (entry_term_invalid q) (ae_entries q) = true) ->
     Q (Some (mkMessage (node_id (config_ n)) (from m) (AppendResponse a))) n') ->
  (forall n0, refreshed n n0 -> ae_leader_id q = from m -> Forall wf_entry (ae_entries q) ->
     existsb (entry_term_invalid q) (ae_entries q) = false ->
     wp (append_from_leader (from m) q) n0 (fun _ n' => exists a,
       outbox_ n' = outbox_ n ++ [mkMessage (node_id (config_ n)) (from m) (AppendResponse a)] /\
       aer_request_id a = ae_request_id q /\
       Q (Some (mkMessage (node_id (config_ n)) (from m) (AppendResponse a))) (set_outbox_ (outbox_ n) n')) X) ->
  wp (handle_request m) n Q X.
Proof.
  intros Hn Ha Hm Ht Hrej Hgo.
  assert (forall a, aer_request_id a = ae_request_id q ->
    answers m (mkMessage (node_id (config_ n)) (from m) (AppendResponse a)) = true) as Hans.
  { intros a Hid. unfold answers. rewrite Hm. simpl. by rewrite Hid, !N.eqb_refl. }
  eapply (wp_current_request n m (handle_append_entries_locked (from m) q)); [done|done| |by rewrite Hm|].
  { unfold message_term. rewrite Hm. lia. }
  assert (forall ci ct, (ae_leader_id q <> from m \/ existsb (entry_term_invalid q) (ae_entries q) = true) ->
    wp (reject (from m) q ci ct) n (fun _ n' => exists a, outbox_ n' = outbox_ n ++ [a] /\ answers m a = true /\
      Q (Some a) (set_outbox_ (outbox_ n) n')) X) as Hreject.
  { intros ci ct Hwhy. apply wp_reject. eexists. split; [done|]. split; [by apply Hans|]. by apply Hrej. }
  assert (forall n0, refreshed n n0 -> ae_leader_id q = from m ->
    existsb (entry_term_invalid q) (ae_entries q) = false ->
    wp (append_from_leader (from m) q) n0 (fun _ n' => exists a, outbox_ n' = outbox_ n ++ [a] /\
      answers m a = true /\ Q (Some a) (set_outbox_ (outbox_ n) n')) X) as Happ.
  { intros n0 Hr Hid Hv. eapply wp_mono; [apply (Hgo n0); try done| |done].
    - apply (valid_entries_wf q); [|done]. rewrite Ht. apply Hn.
    - intros [] n' (a & Ho & Hida & HQ). eexists. split; [done|]. split; [by apply Hans|done]. }
  unfold handle_append_entries_locked. wp_steps.
  destruct (decide (ae_leader_id q = from m)) as [Hid|Hid].
  2:{ rewrite bool_decide_eq_true_2 by done. cbn [orb]. apply Hreject. by left. }
  rewrite bool_decide_eq_false_2 by auto. rewrite Ht, N.ltb_irrefl. cbn [orb].
  destruct (existsb _ _) eqn:Hv; [apply Hreject; by right|]. wp_steps.
  destruct (inv_log n Hn) as (l & Hl & _). destruct (_ || _) eqn:Hb.
  - eapply wp_become_follower; [done|apply Hn|done| |intros; lia|intros; lia].
    intros _ t r Hd. wp_steps. apply Happ; [by split|done|done].
  - apply orb_false_iff in Hb as [Hs%bool_decide_eq_false _]. apply dec_stable in Hs.
    pose proof (cfg_max _ (inv_config n Hn)).
    apply wp_reset; [done|]. intros t r Htr. wp_steps. apply Happ; [|done|done].
    split; try done. by apply inv_reset.
Qed.

(** What a merge holds, and where it leaves the log alone. *)
Lemma merge_holds l p es : p <= length l -> es `prefix_of` drop p (merge l p es).
Proof.
  intros Hp. unfold merge. destruct (decide _) as [H|H]; [done|].
  rewrite drop_app_length' by (rewrite length_take; lia). done.
Qed.

Lemma take_merge l p es : p <= length l -> take p (merge l p es) = take p l.
Proof.
  intros Hp. unfold merge. destruct (decide _) as [H|H]; [done|].
  rewrite take_app_le by (rewrite length_take; lia). by rewrite take_take, Nat.min_id.
Qed.

(** Entries that are in the log are acknowledged and nothing is saved. *)
Lemma present_accepted n m q :
  node_inv n -> addressed n m -> rpc m = AppendRequest q -> ae_term q = current_term_ n ->
  ae_leader_id q = from m -> existsb (entry_term_invalid q) (ae_entries q) = false ->
  prev_matches n q -> ae_entries q `prefix_of` drop (prev q) (tail (log_ n)) ->
  exists n', handle_request m n = (n', Ret (Some (acceptance n (from m) q))) /\
    storage_ n' = storage_ n /\ log_ n' = log_ n.
Proof.
  intros Hn Ha Hm Ht Hid Hv Hpm Hpre. destruct (inv_log n Hn) as (l & Hl & _).
  pose proof (inv_length n Hn) as Hlen. rewrite Hl in Hlen, Hpre. cbn [tail length] in *.
  destruct Hpm as [Hp Hprev]. assert (prev q <= length l) as Hpl by (rewrite Hl in Hp; cbn [length] in Hp; lia).
  pose proof (prefix_length _ _ Hpre) as Hfit. rewrite length_drop in Hfit.
  assert (forall o a b, (default_entry :: l) !! (S (prev q) + o) = Some a -> ae_entries q !! o = Some b -> a = b) as Hsame.
  { intros o a b Hla Hb. change (l !! (prev q + o) = Some a) in Hla.
    apply (prefix_lookup_Some _ _ _ _ Hb) in Hpre. rewrite lookup_drop in Hpre. congruence. }
  assert (wp (handle_request m) n (fun r n' => r = Some (acceptance n (from m) q) /\
    storage_ n' = storage_ n /\ log_ n' = log_ n) (fun _ _ => False)) as H.
  { apply (wp_current_append n m q); [done..|intros a n' _ [?|?]; [done|congruence]|].
    intros n0 Hr _ Hwf _. pose proof Hr as [].
    assert (merge l (prev q) (ae_entries q) = l) as Hmerge by (unfold merge; by rewrite decide_True).
    apply (wp_append_from_leader n0 l); [done|done|congruence|done| | | | |]; rewrite ?Hmerge.
    - intros ci ct [Hs|e k Hpos He Hne _|o a b _ Hla Hb Hne _]; exfalso.
      + rewrite inv_last in Hs by done. rewrite rf_log0, Hl in Hs. cbn [length] in Hs. lia.
      + rewrite rf_log0 in He. destruct Hprev as [|(e' & He' & Ht')]; [lia|]. congruence.
      + rewrite rf_log0, Hl in Hla. apply Hne. by rewrite (Hsame o a b).
    - intros _ (o & a & b & Hla & Hb & _ & Hne). apply Hne. rewrite rf_log0, Hl in Hla. by apply (Hsame o).
    - intros Hlong. lia.
    - intros _ _ st [[_ ->]|[? _]] n1 _ _; [|done].
      assert (outbox_ n1 = outbox_ n /\ current_term_ n1 = current_term_ n /\ config_ n1 = config_ n /\
        storage_ n1 = storage_ n /\ log_ n1 = log_ n) as (Ho & HT & Hcf & Hst & Hl1).
      { rewrite <- rf_outbox0, <- rf_term0, <- rf_config0, <- rf_storage0, Hl.
        unfold n1, follower_commit. by destruct (_ <? _)%N. }
      unfold acceptance. rewrite HT, Hcf. node_simpl. rewrite Ho. eexists. split; [done|]. split; [done|].
      split; [done|]. by rewrite <- Hst, <- Hl1.
    - intros _ []. done. }
  unfold wp in H. destruct (handle_request m n) as [n' [r|f|]]; [|done|done]. destruct H as (-> & ? & ?). eauto.
Qed.

(** A request of the current term that throws after it changed the log threw in
    the save. *)
Lemma append_throws n m q n1 e :
  node_inv n -> addressed n m -> rpc m = AppendRequest q -> ae_term q = current_term_ n ->
  (N.of_nat (S (prev q) + length (ae_entries q)) <= vector_max)%N ->
  handle_request m n = (n1, Fail (Exn e)) -> log_ n1 <> log_ n ->
  exists n0, refreshed n n0 /\ ae_leader_id q = from m /\
    existsb (entry_term_invalid q) (ae_entries q) = false /\ prev_matches n q /\ node_inv n1 /\
    unsaved (with_log n0 (merged_log n q) (storage_ n)) (durable (storage_ n)) (Exn e) n1.
Proof.
  intros Hn Ha Hm Ht Hlen Hrun Hne. destruct (inv_log n Hn) as (l & Hl & _).
  assert (wp (handle_request m) n (fun _ _ => True) (fun f n1 => log_ n1 = log_ n \/
    exists n0, refreshed n n0 /\ ae_leader_id q = from m /\
    existsb (entry_term_invalid q) (ae_entries q) = false /\ prev_matches n q /\ (f <> Crash -> node_inv n1) /\
    unsaved (with_log n0 (merged_log n q) (storage_ n)) (durable (storage_ n)) f n1)) as H.
  { apply (wp_current_append n m q); [done..|]. intros n0 Hr Hid Hwf Hv. pose proof Hr as [].
    assert (forall x : Node, outbox_ x = outbox_ n -> config_ x = config_ n -> forall a, aer_request_id a = ae_request_id q ->
      exists a', outbox_ x ++ [mkMessage (node_id (config_ x)) (from m) (AppendResponse a)] =
        outbox_ n ++ [mkMessage (node_id (config_ n)) (from m) (AppendResponse a')] /\
      aer_request_id a' = ae_request_id q /\ True) as Hans by (intros x -> -> a Hid'; by exists a).
    apply (wp_append_from_leader n0 l); [done|done|congruence|done| | | | |].
    - intros ci ct _. node_simpl. by apply Hans.
    - intros _ _. by left.
    - intros ?. lia.
    - intros _ _ st _ n2 _ _. node_simpl. apply Hans; [| |done];
        unfold n2, follower_commit; by destruct (_ <? _)%N.
    - intros [Hp Hprev] _ f n2 _ _ Hi Hu. right. exists n0. rewrite rf_log0 in Hp, Hprev.
      assert (merged_log n q = merge l (prev q) (ae_entries q)) as -> by (by rewrite Hl).
      rewrite rf_storage0 in Hu. by split_and!. }
  apply (wp_elim _ _ _ _ _ _ H) in Hrun as [?|(n0 & ? & ? & ? & ? & Hi & ?)]; [done|].
  exists n0. split_and!; try done. by apply Hi.
Qed.

(** The merged log satisfies the check on the previous entry. *)
Lemma prev_matches_merged n n1 q :
  node_inv n -> prev_matches n q -> log_ n1 = default_entry :: merged_log n q -> prev_matches n1 q.
Proof.
  intros Hn [Hp Hprev] Hl1. destruct (inv_log n Hn) as (l & Hl & _). rewrite Hl in *. cbn [tail length] in *.
  pose proof (length_merge l (prev q) (ae_entries q) ltac:(lia)) as Hlen. split; rewrite Hl1.
  - cbn [length]. lia.
  - destruct Hprev as [|(e & He & Ht)]; [by left|right]. exists e. split; [|done]. rewrite <- He.
    apply (take_eq_lookup _ _ (S (prev q))); [|lia]. cbn [take]. by rewrite take_merge by lia.
Qed.

(** C33: an acknowledgement without a durable entry.  The entries are in the log
    before they are saved.  So whenever the handler of a request of the current term
    throws after it changed the log, and the node lives on, the same request is
    acknowledged when it comes again, without a save: the durable state is the one
    from before the first request, although the leader now counts the node for every
    entry of the request. *)
Theorem failed_save_false_acknowledgement n m q n1 e :
  node_inv n -> persisted n -> addressed n m -> rpc m = AppendRequest q -> ae_term q = current_term_ n ->
  (N.of_nat (S (prev q) + length (ae_entries q)) <= vector_max)%N ->
  handle_request m n = (n1, Fail (Exn e)) -> log_ n1 <> log_ n ->
  exists n2, handle_request m n1 = (n2, Ret (Some (acceptance n (from m) q))) /\
    log_ n2 = default_entry :: merged_log n q /\
    durable (storage_ n2) = mkPersistent (current_term_ n) (voted_for_ n) (tail (log_ n)) /\
    ps_log (durable (storage_ n2)) <> tail (log_ n2).
Proof.
  intros Hn Hp Ha Hm Ht Hlen Hrun Hne.
  destruct (append_throws n m q n1 e Hn Ha Hm Ht Hlen Hrun Hne) as (n0 & Hr & Hid & Hv & Hpm & Hn1 & Heq & Hd).
  pose proof Hr as []. unfold persisted in Hp.
  assert (log_ n1 = default_entry :: merged_log n q) as Hl1 by (by rewrite Heq).
  assert (config_ n1 = config_ n /\ current_term_ n1 = current_term_ n) as [Hcf HT] by (by rewrite Heq).
  destruct (present_accepted n1 m q) as (n2 & Hrun2 & Hst & Hl2).
  - done.
  - unfold addressed. by rewrite Hcf.
  - done.
  - by rewrite HT.
  - done.
  - done.
  - apply (prev_matches_merged n); done.
  - rewrite Hl1. cbn [tail]. apply merge_holds. destruct Hpm as [Hpm _].
    destruct (inv_log n Hn) as (l & Hl & _). rewrite Hl in *. cbn [tail length] in *. lia.
  - exists n2. unfold acceptance in *. rewrite Hcf, HT in Hrun2. split; [done|]. split; [congruence|].
    rewrite Hst, Hd by done. split; [by rewrite Hp|]. rewrite Hp, Hl2. simpl. intros Hx. apply Hne.
    by apply log_of_tail; [| |symmetry].
Qed.

(** ** What the constructor accepts *)

Lemma check_log_adjacent T prev l k a b :
  check_log T prev l = Ret tt -> l !! k = Some a -> l !! S k = Some b -> (term a <= term b)%N.
Proof.
  revert prev k. induction l as [|x l IH]; intros prev k; simpl; [done|].
  destruct (_ || _)%N; [done|]. intros Hc Ha Hb. destruct k as [|k]; simpl in *; [|by eapply IH].
  injection Ha as <-. destruct l as [|y l]; [done|]. injection Hb as <-. simpl in Hc.
  destruct (_ || _)%N eqn:Hy; [done|].
  apply orb_false_iff in Hy as [_ Hy%N.ltb_ge]. done.
Qed.

(** An accepted request leaves the merged log on the storage. *)
Lemma accepted_durable n m q n' a :
  node_inv n -> persisted n -> addressed n m -> rpc m = AppendRequest q -> ae_term q = current_term_ n ->
  handle_request m n = (n', Ret (Some a)) ->
  match rpc a with AppendResponse x => aer_success x = true | _ => False end ->
  prev_matches n q /\ node_inv n' /\ ps_log (durable (storage_ n')) = merged_log n q.
Proof.
  intros Hn Hp Ha Hm Ht Hrun Hacc. destruct (inv_log n Hn) as (l & Hl & _).
  assert (wp (handle_request m) n (fun r n' => forall x i j, r = Some (mkMessage i j (AppendResponse x)) ->
    aer_success x = true -> prev_matches n q /\ node_inv n' /\ ps_log (durable (storage_ n')) = merged_log n q)
    (fun _ _ => True)) as H.
  { apply (wp_current_append n m q); [done..| |].
    { intros x n2 Hx _ y i j [= <- <- <-]. congruence. }
    intros n0 Hr Hid Hwf Hv. pose proof Hr as [].
    apply (wp_append_from_leader n0 l); [done|done|congruence|done| |done|done| |done].
    - intros ci ct _. node_simpl. rewrite rf_outbox0. eexists. split; [by rewrite <- rf_config0|]. split; [done|].
      intros x i j [= <- <- <-]. done.
    - intros Hpm _ st Hst n1 Hn2 Hn3.
      assert (outbox_ n1 = outbox_ n /\ config_ n1 = config_ n /\ storage_ n1 = st) as (Ho & Hcf & Hs1).
      { rewrite <- rf_outbox0, <- rf_config0. unfold n1, follower_commit. by destruct (_ <? _)%N. }
      node_simpl. rewrite Ho. unfold acceptance. rewrite Hcf. eexists. split; [done|]. split; [done|].
      intros x i j _ _. split; [by destruct Hpm as [Hp1 Hp2]; rewrite rf_log0 in Hp1, Hp2|].
      split; [apply inv_sent, inv_sent; exact Hn3|]. node_simpl. rewrite Hs1, Hl. cbn [tail].
      destruct Hst as [[Hlm ->]|[_ ->]]; [|done]. unfold persisted in Hp. by rewrite rf_storage0, Hp, Hl, Hlm. }
  apply (wp_elim _ _ _ _ _ _ H) in Hrun. destruct a as [i j r]. simpl in Hacc.
  destruct r as [| | |x]; try done. by eapply Hrun.
Qed.

(** C34: an accepted log that does not load.  The handler checks that the terms of
    incoming entries are positive and not above the request's, not that they do not
    decrease; the constructor checks both.  So after the acceptance of any request
    of the current term two neighbours of which decrease, the process cannot start
    again on what it saved: the constructor throws. *)
Theorem accepted_log_rejected_on_restart n m q n' r k a b st :
  node_inv n -> persisted n -> addressed n m -> rpc m = AppendRequest q -> ae_term q = current_term_ n ->
  handle_request m n = (n', Ret (Some r)) ->
  match rpc r with AppendResponse x => aer_success x = true | _ => False end ->
  ae_entries q !! k = Some a -> ae_entries q !! S k = Some b -> (term b < term a)%N ->
  storage_reopen (storage_ n') = (st, Ret tt) ->
  exists e, (make_node (config_ n) (Some st) : outcome Node) = Fail (Exn e).
Proof.
  intros Hn Hp Ha Hm Ht Hrun Hacc Hk Hk' Hlt Hre.
  destruct (accepted_durable n m q n' r Hn Hp Ha Hm Ht Hrun Hacc) as ([Hprev _] & Hn' & Hd).
  pose proof (storage_reopen_spec _ (storage_inv_medium _ (inv_storage n' Hn'))) as Hspec.
  unfold wp in Hspec. rewrite Hre in Hspec. destruct Hspec as [Hi Hdst].
  assert (config_typed (config_ n)) as Htyped by (destruct (inv_config n Hn); by split).
  pose proof (make_node_cases (E:=E) (config_ n) st Htyped Hi) as Hcases.
  destruct (make_node (config_ n) (Some st)) as [n3|[e|]|] eqn:Hmk; [exfalso|by eexists|done|done].
  assert (check_log (ps_current_term (durable st)) 0 (ps_log (durable st)) = Ret tt) as Hcheck.
  { unfold make_node in Hmk. destruct (validate_config _) as [[]|f|]; simpl in Hmk; [|done|done].
    rewrite storage_load_spec in Hmk by done. simpl in Hmk. destruct (negb _); [done|].
    by destruct (check_log _ _ _) as [[]|f|]. }
  rewrite Hdst, Hd in Hcheck.
  destruct (inv_log n Hn) as (l & Hl & _). rewrite Hl in *. cbn [tail length] in *.
  assert (forall j x, ae_entries q !! j = Some x -> merge l (prev q) (ae_entries q) !! (prev q + j) = Some x) as Hin.
  { intros j x Hx. rewrite <- lookup_drop. eapply prefix_lookup_Some; [done|]. apply merge_holds. lia. }
  pose proof (check_log_adjacent _ _ _ (prev q + k) a b Hcheck (Hin k a Hk)) as Hle.
  rewrite <- Nat.add_succ_r in Hle. specialize (Hle (Hin (S k) b Hk')). lia.
Qed.
End faults.

(** ** Why a handler throws

    In a cluster, a request that a member sent can only fail in a save: the merge
    finds no contradiction and the log has room. *)
Section reasons.
Context {St E : Type} `{HSt : RaftStorage St} `{HSpec : !RaftStorageSpec St} `{HE : RandomEngine E}.
Context (members : gset NodeId).
Implicit Types (s : Protocol) (f : RaftNode St E).

Definition in_save (x : failure) f : Prop := broken_save x (storage_ f).

Lemma append_fails_in_save s j f f1 m q :
  PInv members s -> node_rel members s j f -> msg_ok members s m -> rpc m = AppendRequest q ->
  node_inv f1 -> log_ f1 = log_ f -> (ae_term q <= current_term_ f1)%N ->
  wp (handle_append_entries_locked (from m) q) f1 (fun _ _ => True) in_save.
Proof.
  intros Hs Hf [Hu Hok] Hm Hf1 Hl1 Hle. rewrite Hm in Hok.
  destruct Hok as (Hid & L & HL & Hpl & Hes & _ & _ & _ & Hmax).
  destruct (N.eqb_spec (ae_term q) (current_term_ f1)) as [Ht|Ht].
  - pose proof (entries_valid members s (from m) L q Hs HL Hes Hpl) as Hv.
    eapply wp_mono; [by apply reply_append_entries|done|].
    intros x f' [Hb|[Hbad|Hlong]]; [done| |lia]. exfalso.
    apply (no_mismatch members s Hs j f Hf (from m) L q HL Hpl Hes). unfold mismatch in *. by rewrite <- Hl1.
  - unfold handle_append_entries_locked. wp_steps. rewrite (proj2 (N.ltb_lt (ae_term q) _)) by lia.
    rewrite orb_true_r. by apply wp_reject.
Qed.

Lemma request_fails_in_save s j f m :
  PInv members s -> node_rel members s j f -> msg_ok members s m -> is_request m = true ->
  wp (handle_request m) f (fun _ _ => True) in_save.
Proof.
  intros Hs Hf Hmsg Hreq. pose proof (nr_inv _ _ _ _ Hf) as Hn. destruct (inv_log f Hn) as (l & Hl & _).
  assert (wp (step_locked m) f (fun _ _ => True) in_save) as Hstep.
  { unfold step_locked. wp_steps. destruct (negb _ || negb _) eqn:Hb; [by wp_steps|].
    apply orb_false_iff in Hb as [_ Hp%negb_false_iff%(is_peer_spec f _ Hn)].
    wp_steps. apply (wp_mono _ _ (fun _ f1 => node_inv f1 /\ log_ f1 = log_ f /\ config_ f1 = config_ f /\
      (message_term m <= current_term_ f1)%N) _ in_save); [| |done].
    { apply wp_when; intros Hb; [apply N.ltb_lt in Hb|apply N.ltb_ge in Hb; by split_and!].
      eapply wp_become_follower; [done|apply Hmsg|done|intros; lia| |by intros].
      intros _ t r st Hd Hf1. by split_and!. }
    intros [] f1 (Hf1 & Hl1 & Hcf & Hle). wp_steps. unfold is_request in Hreq.
    destruct (rpc m) as [q| |q|] eqn:Hm; try done.
    - apply (wp_request_vote f1 l); [done| |congruence| | |].
      + by rewrite Hcf.
      + by intros; wp_steps.
      + by intros; wp_steps.
      + by intros.
    - eapply wp_mono; [eapply (append_fails_in_save s j f); try done| |done].
      + unfold message_term in Hle. by rewrite Hm in Hle.
      + intros [] f2 _. by wp_steps. }
  unfold handle_request. unfold is_request in Hreq.
  destruct (rpc m); try done; wp_steps; (eapply wp_mono; [exact Hstep| |done]); intros [] f1 _; wp_steps;
    repeat case_match; by wp_steps.
Qed.
End reasons.

(** ** Nodes over snapshot files

    A node whose storage is a [KvStore] over a file, as the program runs it.  It
    learns of term 1 from a heartbeat of node 2; what the file system does then is
    up to the plan: the first save takes eleven calls. *)

Abbreviation FileNode := (RaftNode (KvStore FilePersistence) N).

Definition file_start (plan : list fault) : FileNode :=
  match make_node (demo_config 1) (Some (demo_store plan)) with
  | Ret n => n
  | _ => mkNode default_config (demo_store []) 0%N follower 0 None None [] 0 0 0 0 0 ∅ ∅ ∅ ∅ ∅ [] []
  end.

Definition entries_message (entries : list LogEntry) (T : Term) : Message :=
  mkMessage 2 1 (AppendRequest (mkAppendRequest T 2 0 0 entries 0 1)).

Definition file_node (plan : list fault) : FileNode := (handle_request (entries_message [] 1) (file_start plan)).1.

(** The first save works; the flush of the second and the close after it fail. *)
Definition lost_flush : list fault := replicate 11 (Fine 0) ++ replicate 8 (Fine 0) ++ [Error 3; Error 0].

Definition returns {A} (o : outcome A) : bool := match o with Ret _ => true | _ => false end.

Lemma file_node_ok plan :
  returns (make_node (demo_config 1) (Some (demo_store plan)) : outcome FileNode) = true ->
  returns (handle_request (entries_message [] 1) (file_start plan)).2 = true ->
  node_inv (file_node plan) /\ persisted (file_node plan).
Proof.
  intros Hmk Hrun. unfold file_node, file_start in *.
  assert (storage_inv (demo_store plan)) as Hst by (split; [split; reflexivity|by eexists]).
  pose proof (make_node_cases (E:=N) (demo_config 1) (demo_store plan)
    (cc_typed _ _ demo_cluster_config 1%N ltac:(set_solver)) Hst) as Hc.
  destruct (make_node (demo_config 1) (Some (demo_store plan))) as [n|f|]; [|done|done].
  destruct Hc as (Hn & Hp & _).
  pose proof (ok_handle_request n (entries_message [] 1) Hn ltac:(done)) as H. unfold wp in H.
  destruct (handle_request _ n) as [n' [r|f|]]; [|done|done]. destruct H as [(? & Hp' & _) _].
  split; [done|]. by apply Hp'.
Qed.

Ltac eval_refl := vm_compute; reflexivity.

Definition ask_vote : Message := mkMessage 3 1 (VoteRequest (mkVoteRequest 1 3 0 0)).


Definition thrown_by (m : Message) (n : FileNode) : exn :=
  match (handle_request m n).2 with Fail (Exn e) => e | _ => OutOfRange end.

Definition shaken : FileNode := file_node lost_flush.

Lemma shaken_ok : node_inv shaken /\ persisted shaken.
Proof. apply file_node_ok; eval_refl. Qed.

Lemma shaken_addressed m : (to m = 1 -> from m = 2 \/ from m = 3 -> addressed shaken m)%N.
Proof.
  intros Hto Hfrom. unfold addressed.
  assert (node_id (config_ shaken) = 1%N /\ peers (config_ shaken) = [2; 3]%N) as [-> ->] by (split; eval_refl).
  split; [done|]. destruct Hfrom as [-> | ->]; repeat constructor.
Qed.

(** The vote is lost with the flush, and granted when the request is repeated. *)
Lemma failed_save_double_vote_witness :
  thrown_by ask_vote shaken =
    StorageError (error_message "failed to flush storage file" (temporary demo_path)) /\
  exists n2, handle_request ask_vote (handle_request ask_vote shaken).1 =
      (n2, Ret (Some (mkMessage 1 3 (VoteResponse (mkVoteResponse 1 true))))) /\
    durable (storage_ n2) = mkPersistent 1 None [].
Proof.
  split; [eval_refl|].
  destruct (failed_save_double_vote shaken ask_vote (mkVoteRequest 1 3 0 0) (handle_request ask_vote shaken).1
    (thrown_by ask_vote shaken)) as (n2 & Hrun & Hd & _);
    [apply shaken_ok|apply shaken_ok|apply shaken_addressed; [reflexivity|by right]|reflexivity|eval_refl|eval_refl|].
  exists n2. rewrite Hrun, Hd. split; [do 2 f_equal|eval_refl].
Defined.

Definition one_entry : Message := entries_message [mkEntry 1 (bytes_of "x") false] 1.

Lemma failed_save_false_acknowledgement_witness :
  exists n2, handle_request one_entry (handle_request one_entry shaken).1 =
      (n2, Ret (Some (mkMessage 1 2 (AppendResponse (mkAppendResponse 1 true 1 2 None 1))))) /\
    durable (storage_ n2) = mkPersistent 1 None [].
Proof.
  destruct (failed_save_false_acknowledgement shaken one_entry
    (mkAppendRequest 1 2 0 0 [mkEntry 1 (bytes_of "x") false] 0 1) (handle_request one_entry shaken).1
    (thrown_by one_entry shaken)) as (n2 & Hrun & _ & Hd & _);
    [apply shaken_ok|apply shaken_ok|apply shaken_addressed; [reflexivity|by left]|reflexivity|eval_refl
    |vm_compute; discriminate|eval_refl| |].
  { intros H%(f_equal length). vm_compute in H. discriminate H. }
  exists n2. rewrite Hrun, Hd. split; [do 2 f_equal|eval_refl].
Defined.

(** The same node in term 2, over a file system without faults. *)
Definition steady : FileNode := (handle_request (entries_message [] 2) (file_node [])).1.

Lemma steady_ok : node_inv steady /\ persisted steady.
Proof.
  pose proof (file_node_ok [] ltac:(eval_refl) ltac:(eval_refl)) as [Hn Hp].
  pose proof (ok_handle_request (file_node []) (entries_message [] 2) Hn ltac:(done)) as H. unfold wp in H.
  assert (returns (handle_request (entries_message [] 2) (file_node [])).2 = true) as Hr by eval_refl.
  unfold steady. destruct (handle_request _ (file_node [])) as [n' [r|f|]]; [|done|done].
  destruct H as [(? & Hp' & _) _]. split; [done|]. by apply Hp'.
Qed.

Definition decreasing : list LogEntry := [mkEntry 2 [] false; mkEntry 1 [] false].
Definition decreasing_done : FileNode := (handle_request (entries_message decreasing 2) steady).1.

Lemma accepted_log_rejected_on_restart_witness :
  ps_log (durable (storage_ decreasing_done)) = decreasing /\
  exists e, (make_node (config_ steady) (Some (storage_reopen (storage_ decreasing_done)).1) : outcome FileNode) =
    Fail (Exn e).
Proof.
  split; [eval_refl|].
  apply (accepted_log_rejected_on_restart steady (entries_message decreasing 2)
    (mkAppendRequest 2 2 0 0 decreasing 0 1) decreasing_done
    (mkMessage 1 2 (AppendResponse (mkAppendResponse 2 true 2 3 None 1))) 0 (mkEntry 2 [] false) (mkEntry 1 [] false));
    [apply steady_ok|apply steady_ok| |reflexivity|eval_refl|eval_refl|reflexivity|reflexivity|reflexivity
    |reflexivity|eval_refl].
  unfold addressed. assert (node_id (config_ steady) = 1%N /\ peers (config_ steady) = [2; 3]%N) as [-> ->]
    by (split; eval_refl). split; [done|repeat constructor].
Defined.

(** The term wraps.  An election in the last 64-bit term continues in term 0,
    which the storage then holds. *)
Theorem election_term_wraps :
  exists (n0 n1 : RaftNode InMemoryRaftStorage N),
    make_node (demo_config 1) (Some (mkInMemory (mkPersistent u64_max None []))) = Ret n0 /\
    tick 300 n0 = (n1, Ret tt) /\ current_term_ n1 = 0%N /\ state_ n1 = candidate /\
    durable (storage_ n1) = mkPersistent 0 (Some 1%N) [].
Proof.
  eexists _, _. split; [eval_refl|]. split; [eval_refl|]. split; [eval_refl|]. split; eval_refl.
Qed.
