(* ===== verification/GrpcProperties.v ===== *)
(** * Properties of the RPC layer

    The retry loop of the client, the client composed with the server over a
    channel that works, and the client composed with the key-value service over a
    channel that loses requests and replies. *)

From Stdlib Require Import NArith ZArith Lia Strings.Byte Strings.String.
From stdpp Require Import base tactics numbers list gmap strings.
From S2P Require Import Prelude KvInterface RaftTypes RaftNode RaftBehaviour RaftInvariant Grpc.
From S2P Require Import RaftCluster RaftSafety RaftProperties.

(** ** Options *)

(** Accepted options, with a backoff whose double is a [std::int64_t]. *)
Record options_ok (o : GrpcClientOptions) : Prop := {
  oo_valid : validate_options o = Ret tt;
  oo_double : (2 * maximum_backoff o <= i64_max)%Z
}.

Lemma validate_options_spec o :
  validate_options o = Ret tt <->
  (0 < timeout o)%Z /\ (0 < max_attempts o)%N /\ (0 <= initial_backoff o <= maximum_backoff o)%Z.
Proof.
  unfold validate_options.
  destruct (Z.leb_spec (timeout o) 0), (N.eqb_spec (max_attempts o) 0), (Z.ltb_spec (initial_backoff o) 0),
    (Z.ltb_spec (maximum_backoff o) 0), (Z.ltb_spec (maximum_backoff o) (initial_backoff o));
    simpl; (split; [try done; lia|try done; lia]).
Qed.

Lemma retryable_not_ok s : is_retryable (error_code s) = true -> status_ok s = false.
Proof. unfold status_ok. by destruct (error_code s). Qed.

Lemma exn_status_final `{LibraryTexts} e : status_ok (exn_status e) = false /\ is_retryable (error_code (exn_status e)) = false.
Proof. by destruct e. Qed.

(** ** The retry loop *)

(** The pause after attempt [i + 1]. *)
Definition backoff_at (o : GrpcClientOptions) (i : nat) : Z :=
  Z.min (maximum_backoff o) (initial_backoff o * 2 ^ Z.of_nat i).

Lemma backoff_at_S o i :
  (0 <= maximum_backoff o)%Z -> Z.min (maximum_backoff o) (backoff_at o i * 2) = backoff_at o (S i).
Proof. unfold backoff_at. rewrite Nat2Z.inj_succ, Z.pow_succ_r by lia. lia. Qed.

Lemma backoff_at_bounds o i : options_ok o -> (0 <= backoff_at o i <= maximum_backoff o)%Z.
Proof.
  intros [(_ & _ & H)%validate_options_spec _]. unfold backoff_at.
  pose proof (Z.pow_nonneg 2 (Z.of_nat i)). nia.
Qed.

Lemma double_backoff {T} o i (t : T) : options_ok o -> i64_double (backoff_at o i) t = (t, Ret (backoff_at o i * 2)%Z).
Proof.
  intros Ho. pose proof (backoff_at_bounds o i Ho). destruct Ho as [_ Ho]. unfold i64_double.
  assert (i64_ok (backoff_at o i * 2) = true) as -> by (apply i64_ok_spec; unfold is_i64; lia). done.
Qed.

(** Whether the loop ends with this answer at this attempt. *)
Definition ends (o : GrpcClientOptions) (s : Status) (attempt : N) : bool :=
  status_ok s || negb (is_retryable (error_code s)) || (attempt =? max_attempts o)%N.

Lemma ends_spec o s a :
  ends o s a = true <-> is_retryable (error_code s) = false \/ a = max_attempts o.
Proof.
  unfold ends. rewrite !orb_true_iff, negb_true_iff, N.eqb_eq.
  destruct (is_retryable (error_code s)) eqn:Hr; [|naive_solver].
  apply retryable_not_ok in Hr. rewrite Hr. naive_solver.
Qed.

Section retry.
Context `{LT : LibraryTexts} {T R : Type} (o : GrpcClientOptions) (Ho : options_ok o).

(** A rule for the loop: [I] holds before every attempt, and [D] describes the
    answer of an attempt. *)
Lemma wp_invoke (op : M T (Status * option R)) (I : T -> Prop) (D : Status * option R -> T -> Prop) X t :
  I t ->
  (forall t, I t -> wp op t (fun r t' => D r t' /\ (is_retryable (error_code r.1) = true -> I t')) X) ->
  wp (invoke_with_retry o op) t (fun res t' => D (ir_status res, ir_response res) t') X.
Proof.
  intros HI Hop. unfold invoke_with_retry. pose proof (oo_valid _ Ho) as (_ & Hpos & Hb)%validate_options_spec.
  assert (forall remaining i pauses t, I t -> (N.of_nat i + N.of_nat remaining = max_attempts o)%N -> remaining <> 0 ->
    wp (retry_loop o op remaining (N.of_nat i + 1) (backoff_at o i) pauses) t
       (fun res t' => D (ir_status res, ir_response res) t') X) as Hloop.
  - induction remaining as [|remaining IH]; intros i pauses t0 Ht0 Hsum Hne; [done|]. simpl.
    apply wp_bind. eapply wp_mono; [by apply Hop| |done]. intros [st r] t1 [HD HI1].
    destruct (ends o st (N.of_nat i + 1)) eqn:He; unfold ends in He; simpl in *; rewrite He; [by apply wp_ret|].
    apply (not_true_iff_false (ends o st (N.of_nat i + 1))) in He. rewrite ends_spec in He.
    apply wp_bind. unfold wp at 1. rewrite double_backoff by done. rewrite backoff_at_S by lia.
    replace (N.of_nat i + 1 + 1)%N with (N.of_nat (S i) + 1)%N by lia. apply IH; [|lia|].
    + apply HI1. destruct (is_retryable _); naive_solver.
    + intros ->. apply He. right. lia.
  - specialize (Hloop (N.to_nat (max_attempts o)) 0 [] t). unfold backoff_at in Hloop at 1. simpl in Hloop.
    rewrite Z.mul_1_r, Z.min_r in Hloop by lia. apply Hloop; [done|lia|lia].
Qed.
End retry.

(** ** A channel that works *)

(** What a client's call over the server gives, from what the handler's body does. *)
Definition served `{LibraryTexts} {S R} (name : string) (r : S * outcome R) : S * outcome R :=
  match r with
  | (s, Fail (Exn e)) => (s, Fail (Exn (grpc_error name (exn_status e) 1)))
  | r => r
  end.

Lemma call_served `{LibraryTexts} {S R} o name (cleared : R) (m : M S R) s :
  validate_options o = Ret tt ->
  call o name cleared (run_handler false false m) s = served name (m s).
Proof.
  intros (_ & Hpos & _)%validate_options_spec. unfold call, invoke_with_retry.
  destruct (N.to_nat (max_attempts o)) as [|k] eqn:Hk; [lia|]. simpl. unfold mbind, M_bind, run_handler.
  destruct (m s) as [s' [r|[e|]|]]; [done| |done|done].
  destruct (exn_status_final e) as [H1 H2]. simpl. rewrite H1, H2. simpl. by rewrite H1.
Qed.

(** ** A channel that loses messages *)

Inductive Delivery := Delivered | LostRequest | LostReply.

(** What the client sees of one attempt; [plan] says what happens to each. *)
Definition lossy {S R} (serve : M S (Status * option R)) : M (list Delivery * S) (Status * option R) :=
  fun '(plan, s) =>
  match plan with
  | LostRequest :: plan => ((plan, s), Ret (mkStatus UNAVAILABLE "", None))
  | LostReply :: plan =>
      match serve s with
      | (s', Ret _) => ((plan, s'), Ret (mkStatus DEADLINE_EXCEEDED "", None))
      | (s', Fail f) => ((plan, s'), Fail f)
      | (s', Undefined) => ((plan, s'), Undefined)
      end
  | _ => match serve s with (s', r) => ((tail plan, s'), r) end
  end.

Section lossy.
Context `{LT : LibraryTexts} {S R : Type}.

Lemma wp_lossy (m : M S R) plan s (Q : Status * option R -> S -> Prop) (X : failure -> S -> Prop) :
  (forall st r, is_retryable (error_code st) = true -> Q (st, r) s) ->
  wp m s
    (fun r s' => Q (mkStatus OK "", Some r) s' /\
                 forall st r', is_retryable (error_code st) = true -> Q (st, r') s')
    (fun f s' => match f with
                 | Exn e => Q (exn_status e, None) s' /\
                            forall st r', is_retryable (error_code st) = true -> Q (st, r') s'
                 | Crash => X Crash s'
                 end) ->
  wp (lossy (run_handler false false m)) (plan, s) (fun r t => Q r t.2) (fun f t => X f t.2).
Proof.
  unfold wp, lossy, run_handler. intros Hlost Hm. destruct plan as [|[] plan]; [| |by apply Hlost|];
    destruct (m s) as [s' [r|[e|]|]]; simpl; naive_solver.
Qed.
End lossy.

Section at_least_once.
Context `{LT : LibraryTexts} {S R : Type} (o : GrpcClientOptions) (Ho : options_ok o).

(** The state after an attempt and, if it went well, its answer. *)
Definition attempted (I : S -> Prop) (D : R -> S -> Prop) (r : Status * option R) (s : S) : Prop :=
  I s /\ (status_ok r.1 = true -> exists a, r.2 = Some a /\ D a s).

Lemma attempted_failed I D st r s : status_ok st = false -> I s -> attempted I D (st, r) s.
Proof. intros Hst HI. split; [done|]. simpl. congruence. Qed.

(** The rule for a call over such a channel: the body may run any number of times,
    so [I] must survive it; [D] describes the answer of the last run. *)
Lemma wp_at_least_once name (cleared : R) (m : M S R) (I : S -> Prop) (D : R -> S -> Prop)
    (C : S -> Prop) plan s :
  I s ->
  (forall s, I s -> wp m s (fun r s' => I s' /\ D r s')
                      (fun f s' => match f with Exn _ => I s' | Crash => C s' end)) ->
  wp (call o name cleared (lossy (run_handler false false m))) (plan, s)
    (fun r t => I t.2 /\ D r t.2)
    (fun f t => match f with Exn _ => I t.2 | Crash => C t.2 end).
Proof.
  intros HI Hm. unfold call. apply wp_bind. eapply wp_mono.
  - apply (wp_invoke o Ho _ (fun t => I t.2) (fun r t => attempted I D r t.2)); [done|].
    intros [plan' s'] HI'. simpl in HI'. eapply wp_mono.
    + apply (wp_lossy m plan' s' (attempted I D) (fun f s => match f with Exn _ => I s | Crash => C s end)).
      * intros st r ?%retryable_not_ok. by apply attempted_failed.
      * eapply wp_mono; [by apply Hm| |].
        -- intros r s1 [HI1 HD]. split; [split; [done|by eexists]|].
           intros st r' ?%retryable_not_ok. by apply attempted_failed.
        -- intros [e|] s1 H1; [|done]. split; [by apply attempted_failed, H1; apply exn_status_final|].
           intros st r' ?%retryable_not_ok. by apply attempted_failed.
    + intros r t Ht. split; [done|]. intros _. apply Ht.
    + done.
  - intros [st r n ps] t [HI' HD]. simpl in *. destruct (status_ok st); [|by apply wp_throw].
    destruct (HD eq_refl) as (a & -> & Ha). by apply wp_ret.
  - done.
Qed.
End at_least_once.

(** The key-value service seen through a channel that loses messages. *)
Section remote_store.
Context `{LT : LibraryTexts} {S : Type} `{HS : KeyValueStore S} `{HSpec : !KeyValueStoreSpec S}.
Context (o : GrpcClientOptions).

Definition remote_get (key : bytes) := client_get o (fun k => lossy (run_handler false false (service_Get k))) key.
Definition remote_put (key value : bytes) :=
  client_put o (fun k v => lossy (run_handler false false (service_Put k v))) key value.
Definition remote_erase (key : bytes) :=
  client_erase o (fun k => lossy (run_handler false false (service_Delete k))) key.

Lemma remote_get_exact plan s k :
  options_ok o -> kv_inv s ->
  wp (remote_get k) (plan, s)
    (fun r t => t.2 = s /\ r = kv_entries s !! k) (fun f t => f <> Crash /\ t.2 = s).
Proof.
  intros Ho Hs. unfold remote_get, client_get. apply wp_bind. eapply wp_mono.
  - apply (wp_at_least_once o Ho _ _ (service_Get k) (fun s' => s' = s)
      (fun a _ => (if wg_found a then Some (wg_value a) else None) = kv_entries s !! k) (fun _ => False)); [done|].
    intros s' ->. unfold service_Get. apply wp_bind. eapply wp_mono; [by apply kv_get_spec| |done].
    intros r s' [-> ->]. apply wp_ret. split; [done|]. by destruct (kv_entries s !! k).
  - intros a t [Ht Ha]. by apply wp_ret.
  - intros [e|] t Ht; done.
Qed.

Lemma remote_put_at_least_once plan s k v :
  options_ok o -> kv_inv s ->
  wp (remote_put k v) (plan, s)
    (fun _ t => kv_inv t.2 /\ kv_entries t.2 = <[k := v]> (kv_entries s))
    (fun f t => f <> Crash -> kv_inv t.2 /\
       (kv_entries t.2 = kv_entries s \/ kv_entries t.2 = <[k := v]> (kv_entries s))).
Proof.
  intros Ho Hs. unfold remote_put, client_put. eapply wp_mono.
  - apply (wp_at_least_once o Ho _ _ (service_Put k v)
      (fun s' => kv_inv s' /\ (kv_entries s' = kv_entries s \/ kv_entries s' = <[k := v]> (kv_entries s)))
      (fun _ s' => kv_entries s' = <[k := v]> (kv_entries s)) (fun _ => True)); [split; [done|by left]|].
    intros s' [Hi He]. eapply wp_mono; [by apply kv_put_spec| |].
    + intros r s1 [Hi1 He1]. assert (kv_entries s1 = <[k:=v]> (kv_entries s)) as Hnew
        by (rewrite He1; destruct He as [->| ->]; [done|apply insert_insert_eq]). naive_solver.
    + intros [e|] s1 H1; [|done]. destruct H1 as [Hi1 ->]; done.
  - naive_solver.
  - intros [e|] t Ht; naive_solver.
Qed.

Lemma remote_erase_at_least_once plan s k :
  options_ok o -> kv_inv s ->
  wp (remote_erase k) (plan, s)
    (fun b t => kv_inv t.2 /\ kv_entries t.2 = delete k (kv_entries s) /\
                (b = true -> is_Some (kv_entries s !! k)))
    (fun f t => f <> Crash -> kv_inv t.2 /\
       (kv_entries t.2 = kv_entries s \/ kv_entries t.2 = delete k (kv_entries s))).
Proof.
  intros Ho Hs. unfold remote_erase, client_erase. eapply wp_mono.
  - apply (wp_at_least_once o Ho _ _ (service_Delete k)
      (fun s' => kv_inv s' /\ (kv_entries s' = kv_entries s \/ kv_entries s' = delete k (kv_entries s)))
      (fun b s' => kv_entries s' = delete k (kv_entries s) /\ (b = true -> is_Some (kv_entries s !! k)))
      (fun _ => True)); [split; [done|by left]|].
    intros s' [Hi He]. eapply wp_mono; [by apply kv_erase_spec| |].
    + intros b s1 (Hi1 & He1 & Hb). assert (kv_entries s1 = delete k (kv_entries s)) as Hnew
        by (rewrite He1; destruct He as [->| ->]; [done|apply delete_delete_eq]).
      split; [naive_solver|]. split; [done|]. intros ->. symmetry in Hb. apply bool_decide_eq_true in Hb.
      destruct He as [He|He]; rewrite He in Hb; [done|]. rewrite lookup_delete_eq in Hb. by destruct Hb.
    + intros [e|] s1 H1; [|done]. destruct H1 as [Hi1 ->]; done.
  - naive_solver.
  - intros [e|] t Ht; naive_solver.
Qed.

(** C38: the store over a bad network.  Whatever requests and replies are lost: a
    [get] that returns gives the value the store has, and changes nothing; a [put]
    that returns has taken effect; after an [erase] that returns the key is gone and
    nothing else has changed, and it reports [true] only if the key was there.  An
    update that throws has taken effect entirely or not at all. *)
Theorem remote_store_at_least_once plan s k v :
  options_ok o -> kv_inv s ->
  wp (remote_get k) (plan, s)
    (fun r t => t.2 = s /\ r = kv_entries s !! k) (fun f t => f <> Crash /\ t.2 = s) /\
  wp (remote_put k v) (plan, s)
    (fun _ t => kv_inv t.2 /\ kv_entries t.2 = <[k := v]> (kv_entries s))
    (fun f t => f <> Crash -> kv_inv t.2 /\
       (kv_entries t.2 = kv_entries s \/ kv_entries t.2 = <[k := v]> (kv_entries s))) /\
  wp (remote_erase k) (plan, s)
    (fun b t => kv_inv t.2 /\ kv_entries t.2 = delete k (kv_entries s) /\
                (b = true -> is_Some (kv_entries s !! k)))
    (fun f t => f <> Crash -> kv_inv t.2 /\
       (kv_entries t.2 = kv_entries s \/ kv_entries t.2 = delete k (kv_entries s))).
Proof.
  intros Ho Hs. split_and!;
    [by apply remote_get_exact|by apply remote_put_at_least_once|by apply remote_erase_at_least_once].
Qed.
End remote_store.

(** ** The schedule of the attempts *)
Section schedule.
Context {T R : Type} (o : GrpcClientOptions).
Context (next : T -> T) (answer : T -> Status * option R).

(** The [k]-th attempt is answered in the state the attempts before it left. *)
Definition attempt (k : nat) (t : T) : Status * option R := answer (Nat.iter k next t).

Lemma retry_loop_schedule t remaining i :
  options_ok o -> (N.of_nat i + N.of_nat remaining = max_attempts o)%N -> remaining <> 0 ->
  exists k, i <= k /\ (N.of_nat k < max_attempts o)%N /\
    retry_loop o (fun t => (next t, Ret (answer t))) remaining (N.of_nat i + 1) (backoff_at o i)
        (backoff_at o <$> seq 0 i) (Nat.iter i next t) =
      (Nat.iter (S k) next t,
       Ret (mkResult (attempt k t).1 (attempt k t).2 (N.of_nat k + 1) (backoff_at o <$> seq 0 k))) /\
    (forall j, i <= j < k -> is_retryable (error_code (attempt j t).1) = true) /\
    (is_retryable (error_code (attempt k t).1) = false \/ (N.of_nat k + 1 = max_attempts o)%N).
Proof.
  intros Ho. pose proof (oo_valid _ Ho) as (_ & Hpos & Hb)%validate_options_spec.
  revert i. induction remaining as [|remaining IH]; intros i Hsum Hne; [done|].
  cbn [retry_loop]. unfold mbind, M_bind at 1. fold (attempt i t).
  destruct (ends o (attempt i t).1 (N.of_nat i + 1)) eqn:He.
  - exists i. split; [done|]. split; [lia|]. pose proof He as He'. unfold ends in He'. rewrite He'.
    split; [done|]. split; [lia|]. by apply ends_spec.
  - pose proof He as He'. unfold ends in He'. rewrite He'.
    apply not_true_iff_false in He. rewrite ends_spec in He.
    unfold mbind, M_bind. rewrite double_backoff, backoff_at_S by (done || lia).
    destruct (IH (S i)) as (k & Hik & Hk & Hrun & Hbefore & Hend); [lia|intros ->; apply He; lia|].
    exists k. split; [lia|]. split; [done|]. split; [|split; [|done]].
    + rewrite <- Hrun. rewrite seq_S, fmap_app. f_equal. lia.
    + intros j Hj. destruct (decide (j = i)) as [->|]; [|apply Hbefore; lia].
      destruct (is_retryable _); naive_solver.
Qed.

(** C37: the retry policy.  With accepted options whose backoff can be doubled, a
    call makes at most [max_attempts] attempts: every attempt but the last was
    answered with a retryable status, the last one was not or used up the attempts,
    its answer is the result, and the pause after attempt [i + 1] was
    [min(maximum_backoff, initial_backoff * 2^i)]. *)
Theorem retry_schedule t :
  options_ok o ->
  exists k, (N.of_nat k < max_attempts o)%N /\
    invoke_with_retry o (fun t => (next t, Ret (answer t))) t =
      (Nat.iter (S k) next t,
       Ret (mkResult (attempt k t).1 (attempt k t).2 (N.of_nat k + 1)
              ((fun i => Z.min (maximum_backoff o) (initial_backoff o * 2 ^ Z.of_nat i)) <$> seq 0 k))) /\
    (forall j, j < k -> is_retryable (error_code (attempt j t).1) = true) /\
    (is_retryable (error_code (attempt k t).1) = false \/ (N.of_nat k + 1 = max_attempts o)%N).
Proof.
  intros Ho. pose proof (oo_valid _ Ho) as (_ & Hpos & Hb)%validate_options_spec.
  destruct (retry_loop_schedule t (N.to_nat (max_attempts o)) 0) as (k & _ & Hk & Hrun & Hbefore & Hend);
    [done|lia|lia|].
  exists k. split; [done|]. split; [|split; [|done]].
  - assert (backoff_at o 0 = initial_backoff o) as H0 by (unfold backoff_at; simpl; lia).
    rewrite H0 in Hrun. exact Hrun.
  - intros j Hj. apply Hbefore. lia.
Qed.
End schedule.

(** ** Raft calls over a channel that works *)
Section raft_calls.
Context {St E : Type} `{HSt : RaftStorage St} `{HSpec : !RaftStorageSpec St} `{HE : RandomEngine E} `{LT : LibraryTexts}.
Abbreviation Node := (RaftNode St E).
Implicit Types n : Node.

(** What a peer's call gives, from what [handle_request] does to the message. *)
Definition relayed {A} (name : string) (accept : Rpc -> A -> Prop) (n : Node) (message : Message)
    (result : Node * outcome A) : Prop :=
  match handle_request message n with
  | (n', Ret (Some m)) => exists r, accept (rpc m) r /\ result = (n', Ret r)
  | (n', Ret None) => n' = n /\ exists what, result =
      (n, Fail (Exn (grpc_error name (mkStatus INVALID_ARGUMENT what) 1)))
  | (n', Fail (Exn e)) => result = (n', Fail (Exn (grpc_error name (exn_status e) 1)))
  | (n', Fail Crash) => result = (n', Fail Crash)
  | (_, Undefined) => False
  end.

Lemma status_is_snapshot o n :
  validate_options o = Ret tt ->
  client_status o (run_handler false false service_GetStatus) n = (n, Ret (snapshot n)).
Proof.
  intros (_ & Hpos & _)%validate_options_spec. unfold client_status, invoke_with_retry.
  destruct (N.to_nat (max_attempts o)) as [|k] eqn:Hk; [lia|].
  unfold snapshot, service_GetStatus, run_handler, mbind, M_bind, gets, snapshot. simpl.
  by destruct (state_ n), (leader_id_ n).
Qed.

(** C36: peers talk to the node itself.  A [request_vote] or [append_entries] of a
    client, through the wire format and the server, runs [handle_request] on exactly
    that request and returns exactly its answer; a request from a stranger is
    refused without effect, and an exception of the node reaches the client as one
    [GrpcError] after a single attempt.  [status] returns the snapshot of the node. *)
Theorem peer_calls_relayed o n :
  validate_options o = Ret tt -> node_inv n ->
  (forall q, is_u64 (rv_term q) ->
     relayed "RequestVote" (fun a r => a = VoteResponse r) n
       (mkMessage (rv_candidate_id q) (node_id (config_ n)) (VoteRequest q))
       (client_request_vote o (fun w => run_handler false false (service_RequestVote w)) (rv_candidate_id q) q n)) /\
  (forall q, is_u64 (ae_term q) ->
     relayed "AppendEntries" (fun a r => a = AppendResponse r) n
       (mkMessage (ae_leader_id q) (node_id (config_ n)) (AppendRequest q))
       (client_append_entries o (fun w => run_handler false false (service_AppendEntries w)) (ae_leader_id q) q n)) /\
  client_status o (run_handler false false service_GetStatus) n = (n, Ret (snapshot n)).
Proof.
  intros Ho Hn. split; [intros q Hq|split; [intros q Hq|by apply status_is_snapshot]].
  - unfold client_request_vote, mbind, M_bind. rewrite decide_False by naive_solver.
    rewrite call_served by done. unfold service_RequestVote, mbind, M_bind, relayed.
    cbn [get]. rewrite vote_request_wire. simpl wvq_candidate_id.
    pose proof (ok_handle_request n (mkMessage (rv_candidate_id q) (node_id (config_ n)) (VoteRequest q)) Hn Hq) as H.
    unfold wp in H. destruct (handle_request _ n) as [n' [[m|]|[e|]|]]; [| |done|done|done].
    + destruct H as (_ & _ & Ha). unfold answers in Ha. apply andb_true_iff in Ha as [_ Ha]. simpl in Ha.
      destruct (rpc m) as [| [t g] | |]; try done. by eexists.
    + destruct H as (_ & _ & ->). split; [done|]. by eexists.
  - unfold client_append_entries, mbind, M_bind. rewrite decide_False by naive_solver.
    rewrite call_served by done. unfold service_AppendEntries, mbind, M_bind, relayed.
    cbn [get]. rewrite append_request_wire. simpl waq_leader_id.
    pose proof (ok_handle_request n (mkMessage (ae_leader_id q) (node_id (config_ n)) (AppendRequest q)) Hn Hq) as H.
    unfold wp in H. destruct (handle_request _ n) as [n' [[m|]|[e|]|]]; [| |done|done|done].
    + destruct H as (_ & _ & Ha). unfold answers in Ha. apply andb_true_iff in Ha as [_ Ha]. simpl in Ha.
      destruct (rpc m) as [| | | r]; try done. exists r. split; [done|]. simpl. by rewrite append_response_wire.
    + destruct H as (_ & _ & ->). split; [done|]. by eexists.
Qed.
End raft_calls.

#[local] Existing Instance example_texts.

(** ** The limits of retrying *)

(** A retried deletion misreports.  When the reply to the first attempt of an
    [erase] is lost, the client's second attempt finds the key gone: the call
    returns [false] although it was this call that deleted the key. *)
Theorem erase_retry_misreports :
  exists s', remote_erase default_options (bytes_of "k")
      ([LostReply], mkInMemoryStore {[ bytes_of "k" := bytes_of "v" ]}) = (([], s'), Ret false) /\
    mem_entries_ s' = ∅.
Proof. eexists. split; vm_compute; reflexivity. Qed.

(** ** Witnesses *)

Lemma default_options_ok : options_ok default_options.
Proof. split; [reflexivity|]. simpl. lia. Qed.

Definition demo_store : InMemoryKeyValueStore := mkInMemoryStore {[ bytes_of "k" := bytes_of "v" ]}.

Lemma remote_store_at_least_once_witness :
  wp (remote_erase default_options (bytes_of "k")) ([LostReply], demo_store)
    (fun b t => kv_entries t.2 = delete (bytes_of "k") (kv_entries demo_store)) (fun _ _ => True) /\
  exists s', remote_put default_options (bytes_of "k") (bytes_of "w") ([LostRequest; LostReply], demo_store) =
      (([], s'), Ret tt) /\ mem_entries_ s' = {[ bytes_of "k" := bytes_of "w" ]}.
Proof.
  split.
  - destruct (remote_store_at_least_once default_options [LostReply] demo_store (bytes_of "k") []
      default_options_ok ltac:(exact I)) as (_ & _ & H).
    eapply wp_mono; [exact H| |done]. by intros b t (_ & Ht & _).
  - eexists. split; vm_compute; reflexivity.
Defined.

(** Two answers that ask for a retry, then success. *)
Definition demo_answer (k : nat) : Status * option nat :=
  match k with
  | 0 => (mkStatus UNAVAILABLE "", None)
  | 1 => (mkStatus ABORTED "", None)
  | _ => (mkStatus OK "", Some k)
  end.

Lemma retry_schedule_witness :
  exists k, (N.of_nat k < 3)%N /\
    invoke_with_retry default_options (fun t => (S t, Ret (demo_answer t))) 0 =
      (3, Ret (mkResult (mkStatus OK "") (Some 2) 3 [10; 20]%Z)).
Proof.
  destruct (retry_schedule default_options S demo_answer 0 default_options_ok) as (k & Hk & _).
  exists k. split; [exact Hk|]. vm_compute. reflexivity.
Defined.

(** A leader's request, relayed to a follower of the demonstration cluster. *)
Lemma peer_calls_relayed_witness :
  let result := client_append_entries default_options
    (fun w => run_handler false false (service_AppendEntries w)) 1 demo_request (demo_node demo_elected 2) in
  relayed "AppendEntries" (fun a r => a = AppendResponse r) (demo_node demo_elected 2)
    (mkMessage 1 2 (AppendRequest demo_request)) result /\
  result.2 = Ret (mkAppendResponse 1 true 2 3 None 2).
Proof.
  split.
  - destruct (peer_calls_relayed default_options (demo_node demo_elected 2)) as (_ & H & _);
      [reflexivity|apply demo_follower_ok|].
    exact (H demo_request ltac:(vm_compute; reflexivity)).
  - vm_compute. reflexivity.
Defined.
