(* ===== verification/Deployment.v ===== *)
(** * Deployments

    The members of one cluster, each a process that runs [NodeRuntime] of
    [src/src/node/node_runtime.cpp] over the RPC layer, or a stopped process of
    which the storage is left.  The wire keeps every request a ticker has taken
    from its node and every answer a server has given; the network may lose,
    delay, repeat and reorder them.

    The steps include everything the threads of the program do: a server handler
    that catches an exception of its node and keeps it, and an election in the last
    64-bit term.  These two can leave the behaviour of [RaftCluster]: the first when
    a save failed.  Every run up to the first such step, and so every run without
    one, is a run of the cluster, and the safety of Raft carries over to the threads,
    queues and retries of the runtime. *)

From Stdlib Require Import NArith ZArith Lia Strings.Byte Strings.String.
From stdpp Require Import base tactics numbers list gmap functions relations strings.
From S2P Require Import Prelude RaftTypes RaftNode RaftBehaviour RaftInvariant RuntimeConfig Grpc Runtime.
From S2P Require Import RuntimeProperties RaftProtocol RaftSimulation RaftCluster RaftSafety.
From S2P Require Import KvStore FilePersistence FileSnapshot DurableStorage StorageProperties RaftFaults.

Inductive Host (St E : Type) :=
| Running (r : NodeRuntime St E)
| Halted (st : St).
Arguments Running {St E} r.
Arguments Halted {St E} st.

Record Deployment (St E : Type) := mkDeployment {
  hosts : NodeId -> Host St E;
  wire : list Message
}.
Arguments mkDeployment {St E} hosts wire.
Arguments hosts {St E} d _.
Arguments wire {St E} d.

Inductive DEvent :=
| Act (i : NodeId) (a : Action)
| Boot (i : NodeId) (kv : outcome unit)   (* [kv]: what opening [kv.snapshot] gives *)
| Halt (i : NodeId).

Definition devent_node (e : DEvent) : NodeId := match e with Act i _ | Boot i _ | Halt i => i end.

Section deployment.
Context {St E : Type} `{HSt : RaftStorage St} `{HE : RandomEngine E} `{LT : LibraryTexts}.
Context (members : gset NodeId) (config : NodeId -> NodeRuntimeConfig).
Abbreviation Runtime := (NodeRuntime St E).
Abbreviation Deployment := (Deployment St E).
Abbreviation node_config := (fun i => raft_config (config i)).
Implicit Types (d : Deployment) (c : Cluster St E) (r : Runtime) (i j : NodeId).

(** The answer a worker gets was given by the peer it called. *)
Definition answered (w : nat) (x : Rpc) r (net : list Message) : bool :=
  match workers_ r !! w with
  | Some (WSending m) => bool_decide (mkMessage (to m) (rc_node_id (rt_config r)) x ∈ net)
  | _ => false
  end.

(** What the network may do: a request that was sent reaches the node it is
    addressed to, at any time and any number of times, and an answer is one that the
    peer gave. *)
Definition possible i (a : Action) r (net : list Message) : bool :=
  match a with
  | WorkerReply w (Some x) => answered w x r net
  | Serve _ _ m => bool_decide (m ∈ net) && (to m =? i)%N
  | _ => true
  end.

Definition set_host i (h : Host St E) (ms : list Message) d : Deployment :=
  mkDeployment (<[i := h]> (hosts d)) (wire d ++ ms).

(** [None] is undefined behaviour, or an event that cannot happen. *)
Definition apply_devent (e : DEvent) d : option Deployment :=
  if decide (devent_node e ∈ members) then
    match e, hosts d (devent_node e) with
    | Act i a, Running r =>
      if possible i a r (wire d) then
        match perform a r with
        | Some (Alive r', ms) => Some (set_host i (Running r') ms d)
        | Some (Died st, _) => Some (set_host i (Halted st) [] d)
        | None => None
        end
      else None
    | Boot i kv, Halted st =>
      match storage_reopen st with
      | (st', Ret _) =>
        match make_runtime (config i) st' kv with
        | Ret r => Some (set_host i (Running r) [] d)
        | Fail _ => Some (set_host i (Halted st') [] d)
        | Undefined => None
        end
      | (st', Fail _) => Some (set_host i (Halted st') [] d)
      | (_, Undefined) => None
      end
    | Halt i, Running r => Some (set_host i (Halted (storage_ (raft_node_ r))) [] d)
    | _, _ => None
    end
  else None.

(** A run: the events that happen, in order. *)
Fixpoint run_devents (es : list DEvent) d : option Deployment :=
  match es with
  | [] => Some d
  | e :: es => d' ← apply_devent e d; run_devents es d'
  end.

Lemma run_devents_app es es' d d1 d' :
  run_devents es d = Some d1 -> run_devents es' d1 = Some d' -> run_devents (es ++ es') d = Some d'.
Proof.
  revert d. induction es as [|e es IH]; intros d; simpl; [by intros [= <-]|].
  destruct (apply_devent e d) as [d2|]; [|done]. by apply IH.
Qed.

Context `{HSpec : !RaftStorageSpec St}.

(** Every process is stopped and every storage is new. *)
Definition dinitial d : Prop :=
  wire d = [] /\
  forall i, i ∈ members -> exists st, hosts d i = Halted st /\ medium_ok st /\ durable st = default_persistent.

(** The steps after which a node may differ from every node of the cluster: a
    server handler keeps a node one of whose saves threw ([run_handler] of
    [grpc_server.cpp]), or the ticker takes a step in the last 64-bit term,
    which an election wraps. *)
Inductive derailment d : DEvent -> Prop :=
| kept_exception i r after m n' x :
    hosts d i = Running r -> handle_request m (raft_node_ r) = (n', Fail (Exn x)) ->
    broken_save (Exn x) (storage_ n') -> derailment d (Act i (Serve false after m))
| last_term i r elapsed :
    hosts d i = Running r -> (u64_max <= current_term_ (raft_node_ r))%N ->
    derailment d (Act i (TickerStep elapsed)).

(** A run in which such a step happens. *)
Definition derailed (es : list DEvent) d : Prop :=
  exists es1 e es2 d1, es = es1 ++ e :: es2 /\ run_devents es1 d = Some d1 /\ derailment d1 e.

Lemma derailed_now e es d : derailment d e -> derailed (e :: es) d.
Proof. intros He. by exists [], e, es, d. Qed.

Lemma derailed_before es es' d : derailed es d -> derailed (es ++ es') d.
Proof. intros (es1 & e & es2 & d1 & -> & H). exists es1, e, (es2 ++ es'), d1. by rewrite <- app_assoc. Qed.

Lemma derailed_after es es' d d1 : run_devents es d = Some d1 -> derailed es' d1 -> derailed (es ++ es') d.
Proof.
  intros Hr (es1 & e & es2 & d2 & -> & H1 & He). exists (es ++ es1), e, es2, d2. rewrite <- app_assoc.
  split; [done|]. split; [by eapply run_devents_app|done].
Qed.

(** A check for concrete runs: no handler throws and no term is the last. *)
Definition derails (e : DEvent) d : bool :=
  match e, hosts d (devent_node e) with
  | Act _ (Serve _ _ m), Running r =>
      match handle_request m (raft_node_ r) with (_, Fail (Exn _)) => true | _ => false end
  | Act _ (TickerStep _), Running r => (u64_max <=? current_term_ (raft_node_ r))%N
  | _, _ => false
  end.

Fixpoint derails_in (es : list DEvent) d : bool :=
  match es with
  | [] => false
  | e :: es => derails e d || match apply_devent e d with Some d' => derails_in es d' | None => false end
  end.

Lemma derails_in_sound es d : derails_in es d = false -> ~ derailed es d.
Proof.
  intros Hes (es1 & e & es2 & d1 & -> & Hr & He). revert d Hes Hr.
  induction es1 as [|e1 es1 IH]; intros d; simpl; intros [Hd Hes]%orb_false_iff.
  - intros [= <-]. unfold derails in Hd. destruct He as [i r a m n' x Hh Hrun _|i r el Hh Hterm]; simpl in Hd; rewrite Hh in Hd.
    + by rewrite Hrun in Hd.
    + apply N.leb_gt in Hd. lia.
  - destruct (apply_devent e1 d) as [d2|]; [|done]. by apply IH.
Qed.

(** ** The cluster inside a deployment *)

Definition host_slot (h : Host St E) : Slot St E :=
  match h with Running r => Up (raft_node_ r) | Halted st => Down st end.

(** The messages the threads of a process hold. *)
Definition worker_messages (pc : WorkerPc) : list Message :=
  match pc with WSending m => [m] | _ => [] end.

Definition ticker_messages (t : TickerPc) : list Message :=
  match t with TEnqueue ms => ms | _ => [] end.

Definition held r : list Message :=
  message_queue_ r ++ ticker_messages (ticker_ r) ++ (workers_ r ≫= worker_messages).

Record host_ok i (net : list Message) r : Prop := {
  ho_config : rt_config r = config i;
  ho_held : forall m, m ∈ held r -> m ∈ net
}.

Record deploys d (c : Cluster St E) : Prop := {
  dp_slots : forall i, i ∈ members -> slots c i = host_slot (hosts d i);
  dp_wire : forall m, m ∈ wire d -> m ∈ network c;
  dp_hosts : forall i r, i ∈ members -> hosts d i = Running r -> host_ok i (wire d) r
}.

(** ** What the threads hold was sent *)

Lemma elem_of_insert_bind (ws : list WorkerPc) w pc m :
  m ∈ (<[w := pc]> ws ≫= worker_messages) -> m ∈ worker_messages pc \/ m ∈ (ws ≫= worker_messages).
Proof.
  intros (x & Hm & Hx)%list_elem_of_bind. apply list_elem_of_lookup in Hx as [k Hk].
  apply list_lookup_insert_Some in Hk as [(-> & <- & _)|[_ Hk]]; [by left|right].
  apply list_elem_of_bind. exists x. split; [done|]. by eapply list_elem_of_lookup_2.
Qed.

Lemma bind_wake (ws : list WorkerPc) : (wake <$> ws) ≫= worker_messages = ws ≫= worker_messages.
Proof. induction ws as [|x ws IH]; [done|]. rewrite fmap_cons, !bind_cons, IH. by destruct x. Qed.

Lemma held_worker r w pc m : m ∈ held (set_worker w pc r) -> m ∈ held r \/ m ∈ worker_messages pc.
Proof. unfold held. simpl. rewrite !elem_of_app. intros [?|[?|[?|?]%elem_of_insert_bind]]; auto. Qed.

Lemma held_ticker r t m : m ∈ held (set_ticker t r) -> m ∈ held r \/ m ∈ ticker_messages t.
Proof. unfold held. simpl. rewrite !elem_of_app. naive_solver. Qed.

Lemma held_notify r m : m ∈ held (notify_all r) -> m ∈ held r.
Proof. unfold held. simpl. by rewrite bind_wake. Qed.

(** The messages a worker takes or the ticker enqueues were held before. *)
Lemma held_sending r w m : workers_ r !! w = Some (WSending m) -> m ∈ held r.
Proof.
  intros Hw. unfold held. rewrite !elem_of_app. right. right. apply list_elem_of_bind. exists (WSending m).
  split; [by apply list_elem_of_singleton|by eapply list_elem_of_lookup_2].
Qed.

(** A step adds only what it hands to the network. *)
Definition keeps r r' (ms : list Message) : Prop :=
  rt_config r' = rt_config r /\ forall m, m ∈ held r' -> m ∈ held r \/ m ∈ ms.

Lemma keeps_worker r w pc ms :
  (forall m, m ∈ worker_messages pc -> m ∈ held r) -> keeps r (set_worker w pc r) ms.
Proof. intros Hpc. split; [done|]. intros m [?|?%Hpc]%held_worker; by left. Qed.

Lemma keeps_ticker r r' t ms :
  rt_config r' = rt_config r -> (forall m, m ∈ held r' -> m ∈ held r \/ m ∈ ms) ->
  (forall m, m ∈ ticker_messages t -> m ∈ held r \/ m ∈ ms) -> keeps r (set_ticker t r') ms.
Proof. intros Hc Hr Ht. split; [done|]. intros m [?%Hr|?%Ht]%held_ticker; done. Qed.

Lemma ticker_keeps el r r' ms : ticker_step el r = Some (Alive r', ms) -> keeps r r' ms.
Proof.
  unfold ticker_step, on_node, moved. destruct (ticker_ r) as [| | | | |ts| |] eqn:Ht; try done.
  - intros [= <- <-]. destruct (running_ r); apply keeps_ticker; set_solver.
  - intros [= <- <-]. destruct (running_ r); apply keeps_ticker; set_solver.
  - destruct (tick _ _) as [n [[]|f|]]; [|done|done]. intros [= <- <-]. apply keeps_ticker; set_solver.
  - destruct (take_messages _) as [n [xs|f|]]; [|done|done]. intros [= <- <-]. apply keeps_ticker; [done|set_solver|].
    destruct xs; set_solver.
  - destruct (lock_free r); [|done]. intros [= <- <-]. apply keeps_ticker; [done| |set_solver].
    intros m. unfold held. simpl. rewrite Ht. simpl. set_solver.
  - intros [= <- <-]. apply keeps_ticker; [done| |set_solver]. intros m ?%held_notify. by left.
Qed.

Lemma worker_step_keeps w r r' ms : worker_step w r = Some (Alive r', ms) -> keeps r r' ms.
Proof.
  unfold worker_step, moved. destruct (workers_ r !! w) as [[| | |m|]|] eqn:Hw; try done.
  - destruct (lock_free r); [|done]. destruct (message_queue_ r) as [|m q] eqn:Hq.
    + intros [= <- <-]. destruct (running_ r); apply keeps_worker; set_solver.
    + intros [= <- <-]. split; [done|]. intros x [Hx|Hx]%held_worker; left; unfold held in *; simpl in *; rewrite Hq; set_solver.
  - intros [= <- <-]. apply keeps_worker; set_solver.
  - destruct (is_call r m); [done|]. intros [= <- <-]. apply keeps_worker; set_solver.
Qed.

Lemma worker_reply_keeps w reply r r' ms : worker_reply w reply r = Some (Alive r', ms) -> keeps r r' ms.
Proof.
  unfold worker_reply, on_node, moved. destruct (workers_ r !! w) as [[| | |m|]|] eqn:Hw; try done.
  destruct (is_call r m); [|done]. destruct (decide _) as [|_]; [done|]. destruct reply as [x|].
  - destruct (answer_fits (rpc m) x); [|done]. destruct (step _ _) as [n [b|f|]]; [|done|done]. intros [= <- <-].
    apply (keeps_worker (set_node n r)); set_solver.
  - intros [= <- <-]. apply keeps_worker; set_solver.
Qed.

Lemma control_keeps build created r r' ms : control_step build created r = Some (Alive r', ms) -> keeps r r' ms.
Proof.
  unfold control_step, moved. intros H. split.
  - destruct (control_ r) as [| |[|k]| | | | | | | | |]; try done; simpl in H; repeat case_match; simplify_eq; done.
  - destruct (control_ r) as [| |[|k]| | | | | | | | |]; try done; simpl in H;
      repeat case_match; simplify_eq; unfold held; simpl; rewrite ?bind_app, ?bind_wake; set_solver.
Qed.

Lemma serve_keeps_held before after m r r' ms : serve before after m r = Some (Alive r', ms) -> keeps r r' ms.
Proof.
  unfold serve, on_node. destruct (server_running (server_ r)); [|done].
  destruct (serve_request _ _ _ _) as [n [x|f|]]; [|done|done]. intros [= <- _]. split; [done|]. set_solver.
Qed.

Lemma perform_keeps a r r' ms : perform a r = Some (Alive r', ms) -> keeps r r' ms.
Proof.
  destruct a; simpl.
  - apply ticker_keeps.
  - apply worker_step_keeps.
  - apply worker_reply_keeps.
  - unfold spurious, moved. destruct (workers_ r !! w) as [[]|]; try done. intros [= <- <-]. apply keeps_worker; set_solver.
  - unfold begin_start, moved. destruct (control_ r); try done; intros [= <- <-]; (split; [done|set_solver]).
  - unfold begin_stop, moved. destruct (control_ r); try done; intros [= <- <-]; (split; [done|set_solver]).
  - apply control_keeps.
  - apply serve_keeps_held.
Qed.

Lemma perform_host_ok i net a r r' ms :
  host_ok i net r -> perform a r = Some (Alive r', ms) -> host_ok i (net ++ ms) r'.
Proof.
  intros [Hc Hh] [Hc' Hh']%perform_keeps. split; [congruence|]. intros m Hm. apply elem_of_app.
  destruct (Hh' m Hm); auto.
Qed.

(** ** Every event is a run of the cluster *)

Context (Hconfig : cluster_config members node_config).
Abbreviation cstep := (cstep members node_config).

Lemma deploys_move d c c' i (h : Host St E) ms :
  deploys d c -> slots c' i = host_slot h ->
  (forall j, j <> i -> slots c' j = slots c j) ->
  (forall m, m ∈ network c -> m ∈ network c') -> (forall m, m ∈ ms -> m ∈ network c') ->
  (forall r, h = Running r -> host_ok i (wire d ++ ms) r) -> deploys (set_host i h ms d) c'.
Proof.
  intros [Hs Hw Hh] Hi Hj Hnet Hms Hok. split; simpl.
  - intros j Hjm. destruct (decide (i = j)) as [<-|Hne]; [by rewrite fn_lookup_insert|].
    rewrite fn_lookup_insert_ne by done. rewrite Hj by done. by apply Hs.
  - intros m [?|?]%elem_of_app; auto.
  - intros j r Hjm. destruct (decide (i = j)) as [<-|Hne].
    + rewrite fn_lookup_insert. apply Hok.
    + rewrite fn_lookup_insert_ne by done. intros Hr. destruct (Hh j r Hjm Hr) as [Hc Hheld].
      split; [done|]. intros m Hm. apply elem_of_app. left. by apply Hheld.
Qed.

(** What one call does to the cluster. *)
Lemma call_step c i n call :
  i ∈ members -> slots c i = Up n -> call_enabled call n (network c) = true ->
  match call_io call n with
  | (n', Ret (ms, ces)) =>
      cstep c (mkCluster (<[i := Up n']> (slots c)) (network c ++ ms) (published c ++ (pair i <$> ces)))
  | (n', Fail _) => cstep c (set_slot i (Down (storage_ n')) c)
  | (_, Undefined) => True
  end.
Proof.
  intros Hi Hn He. destruct (call_io call n) as [n' [[ms ces]|f|]] eqn:Hio; [| |done];
    exists (Do i call); unfold apply_event, enabled; simpl; rewrite Hn, bool_decide_eq_true_2, He by done;
    simpl; by rewrite Hio.
Qed.

Lemma kill_step c i n : i ∈ members -> slots c i = Up n -> cstep c (set_slot i (Down (storage_ n)) c).
Proof.
  intros Hi Hn. exists (Kill i). unfold apply_event, enabled. simpl. rewrite Hn, bool_decide_eq_true_2 by done.
  done.
Qed.

(** A deployment moves to [d'] and the cluster can follow. *)
Definition follows d' c : Prop := exists c', rtc cstep c c' /\ deploys d' c'.

Lemma follow_stutter d c i r r' ms :
  deploys d c -> i ∈ members -> hosts d i = Running r -> raft_node_ r' = raft_node_ r ->
  (forall m, m ∈ ms -> m ∈ network c) -> host_ok i (wire d ++ ms) r' ->
  follows (set_host i (Running r') ms d) c.
Proof.
  intros Hd Hi Hr Hn Hms Hok. exists c. split; [done|]. apply (deploys_move d c); try done.
  - rewrite (dp_slots _ _ Hd i Hi), Hr. simpl. by rewrite Hn.
  - by intros r0 [= <-].
Qed.

Lemma follow_death d c i r st :
  deploys d c -> i ∈ members -> hosts d i = Running r -> st = storage_ (raft_node_ r) ->
  follows (set_host i (Halted st) [] d) c.
Proof.
  intros Hd Hi Hr ->. pose proof (dp_slots _ _ Hd i Hi) as Hs. rewrite Hr in Hs. simpl in Hs.
  eexists. split; [apply rtc_once; by apply kill_step|]. apply (deploys_move d c); simpl; try done.
  - by rewrite fn_lookup_insert.
  - intros j Hj. by rewrite fn_lookup_insert_ne.
  - set_solver.
Qed.

(** A call that returns, with the outputs [out] of the cluster's model of it. *)
Lemma follow_call d c i r call n' out r' ms :
  deploys d c -> i ∈ members -> hosts d i = Running r -> call_enabled call (raft_node_ r) (network c) = true ->
  call_io call (raft_node_ r) = (n', Ret (out, [])) -> raft_node_ r' = n' ->
  (forall m, m ∈ ms -> m ∈ out) -> host_ok i (wire d ++ ms) r' ->
  follows (set_host i (Running r') ms d) c.
Proof.
  intros Hd Hi Hr He Hio Hn Hms Hok. pose proof (dp_slots _ _ Hd i Hi) as Hs. rewrite Hr in Hs. simpl in Hs.
  pose proof (call_step c i _ call Hi Hs He) as Hstep. rewrite Hio in Hstep.
  eexists. split; [by apply rtc_once|]. apply (deploys_move d c); simpl; try done.
  - rewrite fn_lookup_insert. simpl. by rewrite Hn.
  - intros j Hj. by rewrite fn_lookup_insert_ne.
  - intros m Hm. apply elem_of_app. by left.
  - intros m Hm. apply elem_of_app. right. by apply Hms.
  - by intros r0 [= <-].
Qed.

(** A call that fails ends the process. *)
Lemma follow_failure d c i r call n' f :
  deploys d c -> i ∈ members -> hosts d i = Running r -> call_enabled call (raft_node_ r) (network c) = true ->
  call_io call (raft_node_ r) = (n', Fail f) -> follows (set_host i (Halted (storage_ n')) [] d) c.
Proof.
  intros Hd Hi Hr He Hio. pose proof (dp_slots _ _ Hd i Hi) as Hs. rewrite Hr in Hs. simpl in Hs.
  pose proof (call_step c i _ call Hi Hs He) as Hstep. rewrite Hio in Hstep.
  eexists. split; [by apply rtc_once|]. apply (deploys_move d c); simpl; try done.
  - by rewrite fn_lookup_insert.
  - intros j Hj. by rewrite fn_lookup_insert_ne.
  - set_solver.
Qed.

(** The state a step leaves behind, as an update of the deployment. *)
Definition after_step i d (x : Outcome St E * list Message) : Deployment :=
  match x with
  | (Alive r', ms) => set_host i (Running r') ms d
  | (Died st, _) => set_host i (Halted st) [] d
  end.

Lemma ticker_follows d c i r el x :
  deploys d c -> i ∈ members -> hosts d i = Running r -> (current_term_ (raft_node_ r) < u64_max)%N ->
  perform (TickerStep el) r = Some x -> follows (after_step i d x) c.
Proof.
  intros Hd Hi Hr Hpos%N.ltb_lt Hx. pose proof (dp_hosts _ _ Hd i r Hi Hr) as Hok.
  assert (forall r' ms, x = (Alive r', ms) -> host_ok i (wire d ++ ms) r') as Hok'
    by (intros r' ms ->; by eapply perform_host_ok).
  simpl in Hx. unfold ticker_step, on_node, moved in Hx.
  destruct (ticker_ r) as [| | | | |ts| |]; try done.
  - injection Hx as <-. eapply follow_stutter; try done; [set_solver|by apply Hok'].
  - injection Hx as <-. eapply follow_stutter; try done; [set_solver|by apply Hok'].
  - destruct (tick (Z.of_N el) (raft_node_ r)) as [n' [[]|f|]] eqn:Ht; [| |done].
    + injection Hx as <-. eapply (follow_call d c i r (Tick (Z.of_N el)) n' []); try done; [|by apply Hok'].
      simpl. unfold mbind, M_bind. by rewrite Ht.
    + injection Hx as <-. eapply (follow_failure d c i r (Tick (Z.of_N el)) n' f); try done.
      simpl. unfold mbind, M_bind. by rewrite Ht.
  - destruct (take_messages (raft_node_ r)) as [n' [ts|f|]] eqn:Ht; [| |done].
    + injection Hx as <-. eapply (follow_call d c i r TakeMessages n' ts); try done; [|by apply Hok'].
      simpl. unfold mbind, M_bind. by rewrite Ht.
    + done.
  - destruct (lock_free r); [|done]. injection Hx as <-. eapply follow_stutter; try done; [set_solver|by apply Hok'].
  - injection Hx as <-. eapply follow_stutter; try done; [set_solver|by apply Hok'].
Qed.

Lemma reply_follows d c i r w reply x :
  deploys d c -> i ∈ members -> hosts d i = Running r -> possible i (WorkerReply w reply) r (wire d) = true ->
  perform (WorkerReply w reply) r = Some x -> follows (after_step i d x) c.
Proof.
  intros Hd Hi Hr Hpos Hx. pose proof (dp_hosts _ _ Hd i r Hi Hr) as Hok.
  assert (forall r' ms, x = (Alive r', ms) -> host_ok i (wire d ++ ms) r') as Hok'
    by (intros r' ms ->; by eapply perform_host_ok).
  simpl in Hx, Hpos. unfold answered in Hpos. unfold worker_reply, on_node, moved in Hx.
  destruct (workers_ r !! w) as [[| | |m|]|]; try done. destruct (is_call r m); [|done].
  destruct (decide _) as [|_]; [injection Hx as <-; by eapply follow_death|]. destruct reply as [a|].
  - destruct (answer_fits (rpc m) a); [|done]. apply bool_decide_eq_true in Hpos.
    set (reply := mkMessage (to m) (rc_node_id (rt_config r)) a) in *.
    assert (call_enabled (Step reply) (raft_node_ r) (network c) = true) as He
      by (apply bool_decide_eq_true; by apply (dp_wire _ _ Hd)).
    destruct (step reply (raft_node_ r)) as [n' [b|f|]] eqn:Hs; [| |done].
    + injection Hx as <-. eapply (follow_call d c i r (Step reply) n' []); try done; [|by apply Hok'].
      simpl. unfold mbind, M_bind. by rewrite Hs.
    + injection Hx as <-. eapply (follow_failure d c i r (Step reply) n' f); try done.
      simpl. unfold mbind, M_bind. by rewrite Hs.
  - injection Hx as <-. eapply follow_stutter; try done; [set_solver|by apply Hok'].
Qed.

(** A request on the wire names its sender, so the server rebuilds the message. *)
Lemma wire_request (c : Cluster St E) s i r m sender :
  cluster_rel members s c -> node_rel members s i (raft_node_ r) -> m ∈ network c -> to m = i ->
  request_sender (rpc m) = Some sender ->
  mkMessage sender (node_id (config_ (raft_node_ r))) (rpc m) = m /\ from m = sender /\ msg_ok members s m.
Proof.
  intros Hc Hn Hm Hto Hs. pose proof (cr_network _ _ _ Hc) as Hnet. rewrite Forall_forall in Hnet.
  destruct (Hnet m Hm) as [Hu Hok]. rewrite (nr_id _ _ _ _ Hn), <- Hto.
  assert (from m = sender) as Hfrom
    by (destruct (rpc m); try done; simpl in *; injection Hs as <-; symmetry; apply Hok).
  rewrite <- Hfrom. split; [by destruct m|]. by split.
Qed.

Lemma serve_follows d c i r before after m x :
  reachable members node_config c -> deploys d c -> i ∈ members -> hosts d i = Running r ->
  possible i (Serve before after m) r (wire d) = true ->
  perform (Serve before after m) r = Some x ->
  derailment d (Act i (Serve before after m)) \/ follows (after_step i d x) c.
Proof.
  intros Hreach Hd Hi Hr Hpos Hx. pose proof (dp_hosts _ _ Hd i r Hi Hr) as Hok.
  assert (forall r' ms, x = (Alive r', ms) -> host_ok i (wire d ++ ms) r') as Hok'
    by (intros r' ms ->; by eapply perform_host_ok).
  pose proof (dp_slots _ _ Hd i Hi) as Hs. rewrite Hr in Hs. simpl in Hs.
  destruct (reachable_node members node_config Hconfig c i _ Hreach Hi Hs) as (s & Hc & Hn).
  simpl in Hpos. apply andb_true_iff in Hpos as [Hm%bool_decide_eq_true Hto%N.eqb_eq].
  apply (dp_wire _ _ Hd) in Hm.
  simpl in Hx. unfold serve, on_node in Hx. destruct (server_running (server_ r)); [|done].
  destruct (request_sender (rpc m)) as [sender|] eqn:Hsend; [destruct before|].
  - right. unfold serve_request in Hx. destruct (rpc m); try done; injection Hx as <-;
      (eapply follow_stutter; try done; [set_solver|by apply Hok']).
  - destruct (wire_request c s i r m sender Hc Hn Hm Hto Hsend) as (Heq & Hfrom & Hmsg).
    pose proof (serve_request_handled after m sender _ (nr_inv _ _ _ _ Hn) (proj1 Hmsg) Hsend) as Hh.
    unfold handled in Hh. rewrite Heq in Hh.
    pose proof (ok_handle_request _ m (nr_inv _ _ _ _ Hn) (proj1 Hmsg)) as Hans.
    pose proof (sim_handle_request members s i _ m (cr_inv _ _ _ Hc) Hn Hmsg) as Hsim.
    pose proof (request_fails_in_save members s i _ m (cr_inv _ _ _ Hc) Hn Hmsg) as Hsave.
    unfold wp in Hans, Hsim, Hsave.
    assert (call_enabled (HandleRequest m) (raft_node_ r) (network c) = true) as He by (by apply bool_decide_eq_true).
    destruct (handle_request m (raft_node_ r)) as [n' [[a|]|[e|]|]] eqn:Hrun; [right|right|left|right|done].
    + destruct Hh as [st Hh]. rewrite Hh in Hx. injection Hx as <-.
      eapply (follow_call d c i r (HandleRequest m) n' [a]); try done; [| |by apply Hok'].
      * simpl. unfold mbind, M_bind. by rewrite Hrun.
      * destruct Hsim as (s' & _ & _ & Ha). destruct (Ha a eq_refl) as [Hafrom _].
        destruct Hans as (_ & _ & Hto'). unfold answers in Hto'. apply andb_true_iff in Hto' as [Hto'%N.eqb_eq _].
        destruct after; simpl; [set_solver|]. intros y ->%list_elem_of_singleton. apply list_elem_of_singleton.
        rewrite (ho_config _ _ _ Hok). pose proof (cc_id _ _ Hconfig i Hi) as Hid. simpl in Hid. rewrite Hid.
        destruct a as [src dst body]. simpl in *. congruence.
    + destruct Hh as [-> [st Hh]]. rewrite Hh in Hx. injection Hx as <-.
      eapply follow_stutter; try done; [set_solver|by apply Hok'].
    + econstructor; [done|done|]. apply Hsave. unfold is_request. by destruct (rpc m).
    + rewrite Hh in Hx. injection Hx as <-. eapply (follow_failure d c i r (HandleRequest m) n' Crash); try done.
      simpl. unfold mbind, M_bind. by rewrite Hrun.
  - right. unfold serve_request in Hx. destruct (rpc m); try done; injection Hx as <-;
      (eapply follow_stutter; try done; [set_solver|by apply Hok']).
Qed.

(** Steps that do not touch the node. *)
Definition touches_node (a : Action) : bool :=
  match a with TickerStep _ | WorkerReply _ _ | Serve _ _ _ => true | _ => false end.

Lemma quiet_step a r x :
  touches_node a = false -> perform a r = Some x ->
  exists r', x = (Alive r', []) /\ raft_node_ r' = raft_node_ r.
Proof.
  intros Ha Hx. destruct a; try done; simpl in Hx;
    unfold worker_step, spurious, begin_start, begin_stop, control_step, server_start, server_shutdown,
      mbind, M_bind, get, modify, throw, fail, moved in Hx;
    repeat case_match; simplify_eq; by eexists.
Qed.

Lemma act_follows d c i r a x :
  reachable members node_config c -> deploys d c -> i ∈ members -> hosts d i = Running r ->
  possible i a r (wire d) = true -> perform a r = Some x ->
  derailment d (Act i a) \/ follows (after_step i d x) c.
Proof.
  intros Hreach Hd Hi Hr Hpos Hx. destruct (touches_node a) eqn:Ha.
  - destruct a; try done; [|right; by eapply reply_follows|by eapply serve_follows].
    destruct (N.lt_ge_cases (current_term_ (raft_node_ r)) u64_max); [right; by eapply ticker_follows|].
    left. by econstructor.
  - right. destruct (quiet_step a r x Ha Hx) as (r' & -> & Hn). eapply follow_stutter; try done; [set_solver|].
    eapply perform_host_ok; [by apply (dp_hosts _ _ Hd)|done].
Qed.

(** What a restart does to the cluster. *)
Lemma restart_step c i st st' o :
  i ∈ members -> slots c i = Down st -> storage_reopen st = (st', o) ->
  match o with
  | Ret _ => match make_node (node_config i) (Some st') with
             | Ret n => cstep c (set_slot i (Up n) c)
             | Fail _ => cstep c (set_slot i (Down st') c)
             | Undefined => True
             end
  | Fail _ => cstep c (set_slot i (Down st') c)
  | Undefined => True
  end.
Proof.
  intros Hi Hd Hre.
  assert (enabled members (Restart i) c = true) as He
    by (unfold enabled; simpl; by rewrite Hd, bool_decide_eq_true_2 by done).
  destruct o as [[]|f|]; [|exists (Restart i); unfold apply_event; by rewrite He; simpl; rewrite Hd, Hre|done].
  destruct (make_node (node_config i) (Some st')) eqn:Hmk; [| |done];
    exists (Restart i); unfold apply_event; rewrite He; simpl; rewrite Hd, Hre; simpl in Hmk; by rewrite Hmk.
Qed.

(** Replacing one host by another whose slot the cluster has reached. *)
Lemma follow_slot d c i h x :
  deploys d c -> rtc cstep c (set_slot i x c) -> host_slot h = x ->
  (forall r, h = Running r -> host_ok i (wire d) r) -> follows (set_host i h [] d) c.
Proof.
  intros Hd Hsteps Hx Hok. eexists. split; [exact Hsteps|]. apply (deploys_move d c); simpl; try done.
  - by rewrite fn_lookup_insert.
  - intros j Hj. by rewrite fn_lookup_insert_ne.
  - set_solver.
  - intros r Hr. rewrite app_nil_r. by apply Hok.
Qed.

Lemma boot_follows d c i kv st st' o :
  reachable members node_config c -> deploys d c -> i ∈ members -> hosts d i = Halted st ->
  storage_reopen st = (st', o) ->
  match o with
  | Ret _ => match make_runtime (config i) st' kv with
             | Ret r => follows (set_host i (Running r) [] d) c
             | Fail _ => follows (set_host i (Halted st') [] d) c
             | Undefined => True
             end
  | Fail _ => follows (set_host i (Halted st') [] d) c
  | Undefined => True
  end.
Proof.
  intros Hreach Hd Hi Hst Hre. pose proof (dp_slots _ _ Hd i Hi) as Hs. rewrite Hst in Hs. simpl in Hs.
  pose proof (restart_step c i st st' o Hi Hs Hre) as Hstep. destruct o as [[]|f|]; [| |done].
  2:{ eapply follow_slot; [done|by apply rtc_once|done|done]. }
  unfold make_runtime.
  cbv beta in Hstep. destruct (make_node (raft_config (config i)) (Some st')) as [n|f|] eqn:Hmk; simpl; [| |done].
  2:{ eapply follow_slot; [done|by apply rtc_once|done|done]. }
  assert (storage_ n = st') as Hsto.
  { destruct (reachable_rel members node_config Hconfig c Hreach) as (s & _ & Hc).
    pose proof (cr_slots _ _ _ Hc i Hi) as Hslot. rewrite Hs in Hslot. destruct Hslot as [Hmed _].
    pose proof (storage_reopen_spec st Hmed) as Hspec. unfold wp in Hspec. rewrite Hre in Hspec.
    pose proof (make_node_cases (E:=E) _ st' (cc_typed _ _ Hconfig i Hi) (proj1 Hspec)) as Hcases.
    simpl in Hcases. rewrite Hmk in Hcases. apply Hcases. }
  assert (follows (set_host i (Halted st') [] d) c) as Hback.
  { eexists. split.
    - eapply rtc_l; [exact Hstep|]. apply rtc_once, (kill_step _ i n); [done|]. simpl. by rewrite fn_lookup_insert.
    - apply (deploys_move d c); simpl; try done.
      + rewrite fn_lookup_insert. by rewrite Hsto.
      + intros j Hj. by rewrite !fn_lookup_insert_ne.
      + set_solver. }
  destruct kv as [[]|f|]; [|done|done]. simpl. unfold make_server. destruct (decide _); [done|]. simpl.
  destruct (foldr _ _ _) as [[]|f|]; [simpl|done|done].
  eapply follow_slot; [done|by apply rtc_once|done|]. intros r [= <-]. split; [done|]. set_solver.
Qed.

Lemma event_follows d c e d' :
  reachable members node_config c -> deploys d c -> apply_devent e d = Some d' ->
  derailment d e \/ follows d' c.
Proof.
  intros Hreach Hd. unfold apply_devent. destruct (decide _) as [Hi|]; [|done].
  destruct e as [i a|i kv|i]; simpl in *; destruct (hosts d i) as [r|st] eqn:Hh; try done.
  - destruct (possible i a r (wire d)) eqn:Hpos; [|done].
    destruct (perform a r) as [[[r'|st] ms]|] eqn:Hx; [| |done]; intros [= <-].
    + by apply (act_follows d c i r a (Alive r', ms)).
    + by apply (act_follows d c i r a (Died st, ms)).
  - destruct (storage_reopen st) as [st' o] eqn:Hre.
    pose proof (boot_follows d c i kv st st' o Hreach Hd Hi Hh Hre) as H.
    destruct o as [[]|f|]; [|intros [= <-]; by right|done].
    destruct (make_runtime _ _ _); [intros [= <-]; by right|intros [= <-]; by right|done].
  - intros [= <-]. right. by eapply follow_death.
Qed.

Lemma reachable_later c c' :
  reachable members node_config c -> rtc cstep c c' -> reachable members node_config c'.
Proof. intros (c0 & Hi & Hr) Hr'. exists c0. split; [done|]. by etrans. Qed.

Lemma deployment_steps es d d' c :
  reachable members node_config c -> deploys d c -> run_devents es d = Some d' ->
  derailed es d \/ follows d' c.
Proof.
  revert d c. induction es as [|e es IH]; intros d c Hreach Hd; simpl.
  { intros [= <-]. right. by exists c. }
  destruct (apply_devent e d) as [d1|] eqn:He; [|done]. intros Hr.
  destruct (event_follows d c e d1 Hreach Hd He) as [Hbad|(c1 & Hc1 & Hd1)]; [left; by apply derailed_now|].
  destruct (IH d1 c1 (reachable_later _ _ Hreach Hc1) Hd1 Hr) as [Hbad|(c2 & Hc2 & Hd2)].
  - left. apply (derailed_after [e] es d d1); [simpl; by rewrite He|done].
  - right. exists c2. split; [by etrans|done].
Qed.

Lemma deployment_start d :
  dinitial d -> exists c, reachable members node_config c /\ deploys d c.
Proof.
  intros [Hw Hs]. exists (mkCluster (fun i => host_slot (hosts d i)) [] []). split.
  - eexists. split; [|done]. split; [done|]. split; [done|]. intros i Hi. simpl.
    destruct (Hs i Hi) as (st & -> & Hm & Hdur). by exists st.
  - split; [done|rewrite Hw; set_solver|]. intros i r Hi Hr. destruct (Hs i Hi) as (st & Hh & _). congruence.
Qed.

Lemma deployment_run d0 es d :
  dinitial d0 -> run_devents es d0 = Some d ->
  derailed es d0 \/ exists c, reachable members node_config c /\ deploys d c.
Proof.
  intros Hi Hr. destruct (deployment_start d0 Hi) as (c0 & Hc0 & Hd0).
  destruct (deployment_steps es d0 d c0 Hc0 Hd0 Hr) as [?|(c & Hc & Hd)]; [by left|right].
  exists c. split; [by eapply reachable_later|done].
Qed.

(** C6: deployments refine the cluster.  Take any run of the running system, with
    its tickers, workers, queues, client calls, retries and server handlers in any
    interleaving, restarts and failing storages included.  Its state is the state of
    a reachable cluster of Raft nodes (the same nodes, and every message on the wire
    was sent there), unless in the run a server handler kept a node whose save had
    thrown, or a ticker took a step in term 2^64 - 1. *)
Theorem deployment_refines_cluster d0 es d :
  dinitial d0 -> run_devents es d0 = Some d ->
  derailed es d0 \/
  exists c, reachable members node_config c /\
    (forall i, i ∈ members -> slots c i = host_slot (hosts d i)) /\
    (forall m, m ∈ wire d -> m ∈ network c).
Proof.
  intros Hi Hr. destruct (deployment_run d0 es d Hi Hr) as [?|(c & Hc & [Hs Hw _])]; [by left|right]. by exists c.
Qed.

(** C7: safety of the running system.  If two processes lead in the same term, now
    or at any later time, they are the same process; and an index both have
    committed holds the same entry in their logs.  This holds of every run in which
    no server handler keeps a node whose save has thrown and no ticker takes a step
    in term 2^64 - 1. *)
Theorem deployment_safe d0 es d es' d' i j r r' :
  dinitial d0 -> run_devents es d0 = Some d -> run_devents es' d = Some d' ->
  ~ derailed (es ++ es') d0 -> i ∈ members -> j ∈ members ->
  hosts d i = Running r -> hosts d' j = Running r' ->
  (state_ (raft_node_ r) = leader -> state_ (raft_node_ r') = leader ->
   current_term_ (raft_node_ r) = current_term_ (raft_node_ r') -> i = j) /\
  (forall k, (N.of_nat k <= commit_index_ (raft_node_ r))%N -> (N.of_nat k <= commit_index_ (raft_node_ r'))%N ->
   log_ (raft_node_ r') !! k = log_ (raft_node_ r) !! k).
Proof.
  intros H0 Hrun Hrun' Hno Hi Hj Hr Hr'.
  destruct (deployment_run d0 es d H0 Hrun) as [Hbad|(c & Hc & Hd)]; [by destruct Hno; apply derailed_before|].
  destruct (deployment_steps es' d d' c Hc Hd Hrun') as [Hbad|(c' & Hc' & Hd')];
    [by destruct Hno; eapply derailed_after|].
  pose proof (dp_slots _ _ Hd i Hi) as Hs. rewrite Hr in Hs.
  pose proof (dp_slots _ _ Hd' j Hj) as Hs'. rewrite Hr' in Hs'. split.
  - by apply (one_leader_per_term members node_config Hconfig c c').
  - intros k. by apply (committed_entries_agree members node_config Hconfig c c' i j).
Qed.
End deployment.

(** ** A concrete deployment over snapshot files

    Three processes; node 3 dies while it saves its vote and starts again, node 1
    is elected by node 2, replicates its no-op entry and commits it on both. *)

#[local] Existing Instance example_texts.

Definition deploy_config (i : NodeId) : NodeRuntimeConfig :=
  mkRuntimeConfig i (bytes_of "0.0.0.0:7000") (bytes_of "data")
    (delete i {[ 1%N := bytes_of "a:7000"; 2%N := bytes_of "b:7000"; 3%N := bytes_of "c:7000" ]}) 150 300 50.

Abbreviation DemoDeployment := (Deployment (KvStore FilePersistence) N).

Definition deploy_start : DemoDeployment :=
  mkDeployment (fun i => Halted (demo_store (if decide (i = 3%N) then replicate 5 (Fine 0) ++ [Death 0] else []))) [].

Definition deploy_run (es : list DEvent) : DemoDeployment :=
  default deploy_start (run_devents demo_members deploy_config es deploy_start).

(** The message at a position of the wire. *)
Definition on_wire (es : list DEvent) (k : nat) : Message :=
  default (mkMessage 0 0 (VoteResponse (mkVoteResponse 0 false))) (wire (deploy_run es) !! k).

Definition launch (i : NodeId) : list DEvent := Boot i (Ret tt) :: (Act i <$> demo_started).

(** One round of the ticker of node 1, and two calls of its first worker of which
    the first fails. *)
Definition round (elapsed : N) : list DEvent :=
  Act 1 <$> [TickerStep 0; TickerStep 0; TickerStep elapsed; TickerStep 0; TickerStep 0; TickerStep 0].
Definition second_call : list DEvent := Act 1 <$> [WorkerStep 0; WorkerReply 0 None; WorkerStep 0].
Definition answer (es : list DEvent) (k : nat) : DEvent := Act 1 (WorkerReply 0 (Some (rpc (on_wire es k)))).

Definition deploy_elect : list DEvent :=
  let a := launch 1 ++ launch 2 ++ launch 3 ++ round 400 ++ [Act 1 (WorkerStep 0)] in
  let b := a ++ [Act 3 (Serve false false (on_wire a 1)); Act 2 (Serve false false (on_wire a 0))] in
  b ++ [answer b 2; Boot 3 (Ret tt)].

Definition deploy_commit : list DEvent :=
  let a := deploy_elect ++ round 10 ++ second_call in
  let b := a ++ [Act 2 (Serve false false (on_wire a 3))] in
  let c := b ++ [answer b 5] ++ round 60 ++ second_call in
  c ++ [Act 2 (Serve false false (on_wire c 6))].

Lemma deploy_cluster_config : cluster_config demo_members (fun i => raft_config (deploy_config i)).
Proof.
  assert (forall i, i ∈ demo_members -> i = 1%N \/ i = 2%N \/ i = 3%N) as H.
  { intros i. unfold demo_members. set_solver. }
  assert (forall i, i ∈ demo_members ->
    node_id (raft_config (deploy_config i)) :: peers (raft_config (deploy_config i)) ∈
      [[1; 2; 3]; [2; 1; 3]; [3; 1; 2]]%N) as Hids.
  { intros i [-> | [-> | ->]]%H; vm_compute; repeat constructor. }
  split.
  - by intros i _.
  - intros i [-> | [-> | ->]]%H; vm_compute; reflexivity.
  - intros i Hi. split; [simpl; lia|]. cbv beta. specialize (Hids i Hi).
    apply list_elem_of_In in Hids as [<-|[<-|[<-|[]]]]; repeat (constructor; [unfold is_u64; lia|]); constructor.
  - intros i [-> | [-> | ->]]%H; vm_compute; reflexivity.
Qed.

Lemma deploy_initial : dinitial demo_members deploy_start.
Proof.
  split; [done|]. intros i _. eexists. split; [done|]. split; [|reflexivity].
  split; [split; reflexivity|by eexists].
Qed.

(** All events of a list can happen, and none derails the run. *)
Definition deploy_ok (es : list DEvent) : bool :=
  match run_devents demo_members deploy_config es deploy_start with Some _ => true | None => false end &&
  negb (derails_in demo_members deploy_config es deploy_start).

Lemma deploy_runs es :
  deploy_ok es = true ->
  run_devents demo_members deploy_config es deploy_start = Some (deploy_run es) /\
  ~ derailed demo_members deploy_config es deploy_start.
Proof.
  unfold deploy_ok, deploy_run. intros [Hr Hd%negb_true_iff]%andb_true_iff.
  split; [by destruct (run_devents _ _ es deploy_start)|by apply derails_in_sound].
Qed.

(** What runs on a host. *)
Definition running_node (es : list DEvent) (i : NodeId) : option (RaftNode (KvStore FilePersistence) N) :=
  match hosts (deploy_run es) i with Running r => Some (raft_node_ r) | Halted _ => None end.

Ltac deploy_reach := apply deploy_runs; vm_compute; reflexivity.

Lemma deployment_refines_cluster_witness :
  exists (c : Cluster (KvStore FilePersistence) N) n, reachable demo_members (fun i => raft_config (deploy_config i)) c /\
    slots c 1%N = Up n /\ state_ n = leader /\ commit_index_ n = 1%N.
Proof.
  destruct (deployment_refines_cluster demo_members deploy_config deploy_cluster_config deploy_start deploy_commit
    (deploy_run deploy_commit) deploy_initial) as [Hbad|(c & Hc & Hs & _)]; [deploy_reach| |].
  { exfalso. revert Hbad. deploy_reach. }
  specialize (Hs 1%N ltac:(set_solver)).
  assert ((fun n => (state_ n, commit_index_ n)) <$> running_node deploy_commit 1 = Some (leader, 1%N)) as Hn
    by (vm_compute; reflexivity).
  unfold running_node in Hn. destruct (hosts (deploy_run deploy_commit) 1%N) as [r|st]; [|discriminate].
  exists c, (raft_node_ r). injection Hn as Hl Hci. by split_and!.
Defined.

(** The leader and node 2 have committed the same entry. *)
Lemma deployment_safe_witness :
  exists n n', running_node deploy_commit 1 = Some n /\ running_node deploy_commit 2 = Some n' /\
    commit_index_ n = 1%N /\ commit_index_ n' = 1%N /\ log_ n' !! 1 = log_ n !! 1.
Proof.
  assert (commit_index_ <$> running_node deploy_commit 1 = Some 1%N) as H1 by (vm_compute; reflexivity).
  assert (commit_index_ <$> running_node deploy_commit 2 = Some 1%N) as H2 by (vm_compute; reflexivity).
  pose proof (fun r r' => deployment_safe demo_members deploy_config deploy_cluster_config deploy_start deploy_commit
    (deploy_run deploy_commit) [] (deploy_run deploy_commit) 1%N 2%N r r' deploy_initial ltac:(deploy_reach) eq_refl
    ltac:(rewrite app_nil_r; deploy_reach) ltac:(set_solver) ltac:(set_solver)) as H.
  unfold running_node in *.
  destruct (hosts (deploy_run deploy_commit) 1%N) as [r|st]; [|discriminate H1].
  destruct (hosts (deploy_run deploy_commit) 2%N) as [r'|st]; [|discriminate H2].
  injection H1 as H1. injection H2 as H2. destruct (H r r' eq_refl eq_refl) as [_ Hlog].
  exists (raft_node_ r), (raft_node_ r').
  split; [exact eq_refl|]. split; [exact eq_refl|]. split; [exact H1|]. split; [exact H2|].
  apply Hlog; [rewrite H1|rewrite H2]; simpl; lia.
Defined.
