(* ===== verification/Process.v ===== *)
(** * The server process

    Models [run_node] and [request_stop] of [src/src/main.cpp]: the process reads
    its configuration, builds and starts the runtime, waits for a signal, stops the
    runtime and exits.  The threads of the runtime take their own steps
    ([Runtime]); the main thread blocks in [start] and [stop] while the control
    thread of the runtime works them off. *)

From Stdlib Require Import NArith ZArith Lia Strings.Byte Strings.String.
From stdpp Require Import base tactics numbers list gmap relations strings.
From S2P Require Import Prelude RaftTypes RaftNode RaftBehaviour RaftInvariant RuntimeConfig Grpc Runtime.
From S2P Require Import RuntimeProperties.

(** Where [run_node] is.  An exception leaves it and becomes exit code 1. *)
Inductive MainPc :=
| PBoot                 (* handlers installed, about to build the runtime *)
| PStarting             (* in [runtime.start()] *)
| PWaiting              (* in the [while] *)
| PStopping             (* in [runtime.stop()] *)
| PExited (code : N)
| PDied.                (* ended by an uncaught exception of another thread *)

Section process.
Context {St E : Type} `{HSt : RaftStorage St} `{HE : RandomEngine E} `{LT : LibraryTexts}.

Record Process := mkProcess {
  main_pc : MainPc;
  runtime : option (NodeRuntime St E);
  stop_requested : bool
}.
Implicit Types (p : Process) (r : NodeRuntime St E).

(** The signal handler. *)
Definition request_stop p : Process := mkProcess (main_pc p) (runtime p) true.

Definition exited (code : N) p : Process := mkProcess (PExited code) None (stop_requested p).

(** Leaving [run_node] destroys the runtime; its destructor calls [stop] again. *)
Definition leave (code : N) r p : option Process :=
  match destroy_runtime r with
  | Some (Alive _, _) => Some (exited code p)
  | _ => None
  end.

(** One step of the main thread; [storage] and [kv] are what opening the two
    snapshot files gives.  [start] has thrown when the runtime is idle again. *)
Definition run_node (env : Env) (storage : St) (kv : outcome unit) p : option Process :=
  match main_pc p, runtime p with
  | PBoot, _ =>
    match config ← from_environment env; make_runtime config storage kv with
    | Ret r =>
      match begin_start r with
      | Some (Alive r', _) => Some (mkProcess PStarting (Some r') (stop_requested p))
      | _ => None
      end
    | Fail (Exn _) => Some (exited 1 p)
    | _ => None
    end
  | PStarting, Some r =>
    match control_ r with
    | CStarted => Some (mkProcess PWaiting (Some r) (stop_requested p))
    | CIdle => leave 1 r p
    | _ => None
    end
  | PWaiting, Some r =>
    if stop_requested p then
      match begin_stop r with
      | Some (Alive r', _) => Some (mkProcess PStopping (Some r') (stop_requested p))
      | _ => None
      end
    else Some p
  | PStopping, Some r =>
    match control_ r with
    | CIdle => leave 0 r p
    | _ => None
    end
  | _, _ => None
  end.
End process.

Arguments Process St E : clear implicits.

(** ** Runs of the process *)

Section runs.
Context {St E : Type} `{HSt : RaftStorage St} `{HSpec : !RaftStorageSpec St} `{HE : RandomEngine E} `{LT : LibraryTexts}.
Context (env : Env) (storage : St) (kv : outcome unit).
Implicit Types (p : Process St E) (r : NodeRuntime St E).

Definition booting : Process St E := mkProcess PBoot None false.

Definition alive p : bool := match main_pc p with PExited _ | PDied => false | _ => true end.

(** The main thread, a signal, or a thread of the runtime after any number of
    requests from peers. *)
Inductive proc_step p : Process St E -> Prop :=
| proc_main p' : run_node env storage kv p = Some p' -> proc_step p p'
| proc_signal : alive p = true -> stop_requested p = false -> proc_step p (request_stop p)
| proc_thread r r0 a r' ms :
    runtime p = Some r -> rtc serve_step r r0 -> thread_action a = true ->
    perform a r0 = Some (Alive r', ms) ->
    proc_step p (mkProcess (main_pc p) (Some r') (stop_requested p))
| proc_death r r0 a st ms :
    runtime p = Some r -> rtc serve_step r r0 -> thread_action a = true ->
    perform a r0 = Some (Died st, ms) ->
    proc_step p (mkProcess PDied None (stop_requested p)).

(** Steps one after the other: [None] the main thread, [Some a] a thread of the
    runtime. *)
Fixpoint proc_run (es : list (option Action)) p : option (Process St E) :=
  match es with
  | [] => Some p
  | None :: es =>
    match run_node env storage kv p with Some p' => proc_run es p' | None => None end
  | Some a :: es =>
    match runtime p with
    | Some r =>
      match perform a r with
      | Some (Alive r', _) =>
        if thread_action a then proc_run es (mkProcess (main_pc p) (Some r') (stop_requested p)) else None
      | _ => None
      end
    | None => None
    end
  end.

Lemma proc_run_steps es p p' : proc_run es p = Some p' -> rtc proc_step p p'.
Proof.
  revert p. induction es as [|[a|] es IH]; intros p; simpl; [by intros [= ->]| |].
  - destruct (runtime p) as [r|] eqn:Hr; [|done].
    destruct (perform a r) as [[[r'|st] ms]|] eqn:Hp; [|done|done].
    destruct (thread_action a) eqn:Ha; [|done]. intros H. eapply rtc_l; [|by apply IH].
    by eapply proc_thread.
  - destruct (run_node env storage kv p) as [p1|] eqn:Hp; [|done]. intros H. eapply rtc_l; [|by apply IH].
    by apply proc_main.
Qed.

(** *** The node stays well formed *)

Lemma on_node_inv {A} (m : M (RaftNode St E) A) r k r' ms :
  wp m (raft_node_ r) (fun _ n => node_inv n) (fun _ _ => True) ->
  (forall a n, k a (set_node n r) = Some (Alive r', ms) -> raft_node_ r' = n) ->
  on_node m r k = Some (Alive r', ms) -> node_inv (raft_node_ r').
Proof.
  intros Hm Hk. unfold on_node, wp in *. destruct (m (raft_node_ r)) as [n [a|f|]]; [|done|done].
  intros Ho. by rewrite (Hk a n Ho).
Qed.

Lemma thread_node_inv a r r' ms :
  node_inv (raft_node_ r) -> thread_action a = true -> perform a r = Some (Alive r', ms) ->
  node_inv (raft_node_ r').
Proof.
  intros Hn Ha. destruct a as [el|w|w reply|w| | |build created|]; try done; simpl.
  - unfold ticker_step, moved. destruct (ticker_ r) as [| | | | |ms'| |]; try done.
    + by intros [= <- <-].
    + by intros [= <- <-].
    + eapply on_node_inv; [|by intros ? ? [= <- <-]].
      eapply wp_mono; [by apply ok_tick|by intros ? ? []|by intros].
    + eapply on_node_inv; [|by intros ? ? [= <- <-]]. unfold take_messages. wp_steps. by apply inv_sent.
    + destruct (lock_free r); [|done]. by intros [= <- <-].
    + by intros [= <- <-].
  - unfold worker_step, moved. destruct (workers_ r !! w) as [[| | |m|]|]; try done.
    + destruct (lock_free r); [|done]. destruct (message_queue_ r); by intros [= <- <-].
    + by intros [= <- <-].
    + destruct (is_call r m); [done|]. by intros [= <- <-].
  - unfold worker_reply, moved. destruct (workers_ r !! w) as [[| | |m|]|]; try done.
    destruct (is_call r m); [|done]. destruct (decide _) as [|_]; [done|]. destruct reply as [a|].
    + destruct (answer_fits (rpc m) a) eqn:Hfit; [|done].
      assert (is_u64 (message_term (mkMessage (to m) (rc_node_id (rt_config r)) a))) as Hu
        by (unfold answer_fits in Hfit; by destruct (rpc m), a; try done; apply N.ltb_lt in Hfit).
      eapply on_node_inv; [|by intros ? ? [= <- <-]].
      eapply wp_mono; [by apply ok_step|by intros ? ? [[] _]|by intros].
    + by intros [= <- <-].
  - unfold spurious, moved. destruct (workers_ r !! w) as [[]|]; try done. by intros [= <- <-].
  - unfold control_step, moved. destruct (control_ r) as [| |[|k]| | | | | | | | |]; try done.
    + destruct (server_start build (server_ r)) as [s [[]|f|]]; [by intros [= <- <-]|by intros [= <- <-]|done].
    + by intros [= <- <-].
    + destruct created; by intros [= <- <-].
    + destruct created; by intros [= <- <-].
    + destruct (lock_free r); [|done]. by intros [= <- <-].
    + by intros [= <- <-].
    + by intros [= <- <-].
    + by intros [= <- <-].
    + destruct (finished (ticker_ r)); [|done]. by intros [= <- <-].
    + destruct (forallb worker_done (workers_ r)); [|done]. by intros [= <- <-].
    + destruct (server_shutdown (server_ r)) as [s [[]|f|]]; [by intros [= <- <-]|done|done].
Qed.

Lemma serve_node r r' : serve_step r r' -> node_inv (raft_node_ r) ->
  node_inv (raft_node_ r') /\ control_ r' = control_ r /\ running_ r' = running_ r.
Proof.
  intros (before & after & m & ms & Hu & Hs) Hn. simpl in Hs. unfold serve, on_node in Hs.
  destruct (server_running (server_ r)); [|done].
  pose proof (serve_request_inv before after m (raft_node_ r) Hn Hu) as H. unfold wp in H.
  destruct (serve_request _ _ _ _) as [n [x|f|]]; [|done|done]. by injection Hs as <- _.
Qed.

Lemma serves_node r r' : rtc serve_step r r' -> node_inv (raft_node_ r) ->
  node_inv (raft_node_ r') /\ control_ r' = control_ r /\ running_ r' = running_ r.
Proof.
  induction 1 as [r|r r1 r2 H1 _ IH]; intros Hn; [done|].
  destruct (serve_node r r1 H1 Hn) as (Hn1 & <- & <-). by apply IH.
Qed.

(** Once started, only [stop] changes what the control thread does. *)
Lemma thread_keeps_started a r r' ms :
  control_ r = CStarted -> thread_action a = true -> perform a r = Some (Alive r', ms) ->
  control_ r' = CStarted.
Proof.
  intros Hc Ha. destruct a as [el|w|w reply|w| | |build created|]; try done; simpl.
  - unfold ticker_step, on_node, moved. destruct (ticker_ r) as [| | | | |ms'| |]; try done;
      try (by intros [= <- <-]).
    + destruct (tick _ _) as [n [[]|f|]]; [by intros [= <- <-]|done|done].
    + destruct (lock_free r); [by intros [= <- <-]|done].
  - unfold worker_step, moved. destruct (workers_ r !! w) as [[| | |m|]|]; try done; try (by intros [= <- <-]).
    + destruct (lock_free r); [|done]. destruct (message_queue_ r); by intros [= <- <-].
    + destruct (is_call r m); [done|by intros [= <- <-]].
  - unfold worker_reply, on_node, moved. destruct (workers_ r !! w) as [[| | |m|]|]; try done.
    destruct (is_call r m); [|done]. destruct (decide _) as [|_]; [done|]. destruct reply as [a|];
      [|by intros [= <- <-]].
    destruct (answer_fits (rpc m) a); [|done]. destruct (step _ _) as [n [b|f|]]; [by intros [= <- <-]|done|done].
  - unfold spurious, moved. destruct (workers_ r !! w) as [[]|]; try done. by intros [= <- <-].
  - unfold control_step. by rewrite Hc.
Qed.

(** *** What holds in every phase *)

Definition proc_inv p : Prop :=
  match main_pc p, runtime p with
  | PBoot, None | PExited _, None | PDied, None => True
  | PStarting, Some r => node_inv (raft_node_ r)
  | PWaiting, Some r => node_inv (raft_node_ r) /\ control_ r = CStarted
  | PStopping, Some r => stop_inv r /\ stop_requested p = true
  | _, _ => False
  end.

Context (Hstorage : storage_inv storage).

Lemma made_node config r :
  from_environment env = Ret config -> make_runtime config storage kv = Ret r ->
  node_inv (raft_node_ r) /\ control_ r = CIdle.
Proof.
  intros He Hr. pose proof (from_environment_checked env) as Hok. rewrite He in Hok.
  rewrite (make_runtime_cases env) in Hr by done.
  pose proof (make_node_cases (E:=E) (raft_config config) storage (raft_config_typed config Hok) Hstorage) as Hn.
  destruct (make_node _ _) as [n|f|]; [|done|done]. simpl in Hr. destruct kv; [|done|done].
  injection Hr as <-. split; [apply Hn|done].
Qed.

(** The destructor of a stopped runtime finds nothing to do. *)
Lemma leave_idle code r p : control_ r = CIdle -> leave code r p = Some (exited code p).
Proof. intros Hc. unfold leave, destroy_runtime, begin_stop. by rewrite Hc. Qed.

Lemma begin_stop_inv r r' ms :
  node_inv (raft_node_ r) -> control_ r = CStarted -> begin_stop r = Some (Alive r', ms) -> stop_inv r'.
Proof. intros Hn Hc. unfold begin_stop. rewrite Hc. intros [= <- <-]. by split. Qed.

Lemma run_node_inv p p' : proc_inv p -> run_node env storage kv p = Some p' -> proc_inv p'.
Proof.
  unfold proc_inv, run_node. destruct (main_pc p) eqn:Hpc, (runtime p) as [r|] eqn:Hr; try done.
  - intros _. destruct (from_environment env) as [config|[e|]|] eqn:He; simpl; try done; [|by intros [= <-]].
    destruct (make_runtime config storage kv) as [r|[e|]|] eqn:Hmk; [|by intros [= <-]|done|done].
    destruct (made_node config r He Hmk) as [Hn Hc]. unfold begin_start. rewrite Hc. by intros [= <-].
  - intros Hn. destruct (control_ r) eqn:Hc; try done; rewrite ?leave_idle by done; by intros [= <-].
  - intros [Hn Hc]. destruct (stop_requested p) eqn:Hs; [|intros [= <-]; by rewrite Hpc, Hr].
    destruct (begin_stop r) as [[[r'|st] ms]|] eqn:Hb; [|done|done]. intros [= <-]. simpl.
    split; [|done]. by eapply begin_stop_inv.
  - intros _. destruct (control_ r) eqn:Hc; try done. rewrite leave_idle by done. by intros [= <-].
Qed.

Lemma proc_step_inv p p' : proc_inv p -> proc_step p p' -> proc_inv p'.
Proof.
  intros Hp Hstep. destruct Hstep as [p' Hrun|Hal Hs|r r0 a r' ms Hr Hserve Ha Hperf|r r0 a st ms Hr Hserve Ha Hperf].
  - by eapply run_node_inv.
  - unfold proc_inv in *. simpl. destruct (main_pc p), (runtime p); try done. by destruct Hp.
  - unfold proc_inv in *. simpl. rewrite Hr in Hp. destruct (main_pc p); try done.
    + destruct (serves_node r r0 Hserve Hp) as (Hn0 & _). by eapply thread_node_inv.
    + destruct Hp as [Hn Hc]. destruct (serves_node r r0 Hserve Hn) as (Hn0 & Hc0 & _).
      split; [by eapply thread_node_inv|]. eapply thread_keeps_started; [|done|done]. congruence.
    + destruct Hp as [Hi Hs]. split; [|done]. apply (stop_step_descends r r' Hi). by exists r0, a, ms.
  - done.
Qed.

(** *** Shutdown *)

Definition proc_rank p : nat * nat * nat :=
  match main_pc p, runtime p with
  | PStopping, Some r => let '(a, b, c) := stop_rank r in (a, b, S c)
  | _, _ => (0, 0, 0)
  end.

(** A process that stops, or is gone. *)
Definition leaving p : Prop :=
  proc_inv p /\ match main_pc p with PStopping | PExited _ | PDied => True | _ => False end.

Lemma leaving_descends p p' : leaving p -> proc_step p p' -> leaving p' /\ lex3 (proc_rank p') (proc_rank p).
Proof.
  intros [Hi Hl] Hstep. pose proof (proc_step_inv p p' Hi Hstep) as Hi'.
  unfold leaving, proc_rank, proc_inv in *.
  destruct Hstep as [p' Hrun|Hal Hs|r r0 a r' ms Hr Hserve Ha Hperf|r r0 a st ms Hr Hserve Ha Hperf]; simpl in *.
  - unfold run_node in Hrun. destruct (main_pc p), (runtime p) as [r|] eqn:Hr; try done.
    destruct (control_ r) eqn:Hc; try done. rewrite leave_idle in Hrun by done. injection Hrun as <-.
    simpl. split; [done|].
    unfold stop_rank. simpl. lia.
  - unfold alive in Hal. destruct (main_pc p), (runtime p); try done. destruct Hi. congruence.
  - rewrite Hr in Hi. destruct (main_pc p) eqn:Hpc; try done. rewrite Hr. split; [done|].
    destruct Hi as [Hi _]. destruct (stop_step_descends r r' Hi) as [_ Hlt]; [by exists r0, a, ms|].
    unfold stop_rank in *. simpl in *. lia.
  - rewrite Hr in Hi. destruct (main_pc p) eqn:Hpc; try done. rewrite Hr. split; [done|].
    unfold stop_rank. simpl. lia.
Qed.

(** The main thread, or a thread of the runtime without a spurious wake-up, can
    take a step. *)
Definition advances p : Prop :=
  is_Some (run_node env storage kv p) \/ exists r, runtime p = Some r /\ can_go_on r.

(** C22: a signal ends the process.  Whatever a started process is doing when the
    handler of SIGINT or SIGTERM has set [stop_requested], the next look of
    [run_node] at the flag begins the shutdown; from there no schedule of the
    threads goes on for ever, and as long as the process has not ended some thread
    can take a step.  It ends with exit code 0, or dies of an uncaught exception of
    a thread of the runtime; it never exits otherwise. *)
Theorem signal_ends_process p :
  rtc proc_step booting p -> main_pc p = PWaiting ->
  exists p1, run_node env storage kv (request_stop p) = Some p1 /\ main_pc p1 = PStopping /\
    sn proc_step p1 /\
    forall p2, rtc proc_step p1 p2 -> advances p2 \/ main_pc p2 = PExited 0 \/ main_pc p2 = PDied.
Proof.
  intros Hsteps Hw.
  assert (proc_inv p) as Hi.
  { clear Hw. assert (proc_inv booting) as H0 by done. induction Hsteps as [|x y z Hxy _ IH]; [done|].
    apply IH. by eapply proc_step_inv. }
  unfold proc_inv in Hi. rewrite Hw in Hi. destruct (runtime p) as [r|] eqn:Hr; [|done].
  destruct Hi as [Hn Hc]. set (r1 := set_control CClear (set_running false r)).
  exists (mkProcess PStopping (Some r1) true).
  assert (leaving (mkProcess PStopping (Some r1) true)) as Hl by (split; [split; [by split|done]|done]).
  split; [unfold run_node; simpl; rewrite Hw, Hr; simpl; unfold begin_stop; by rewrite Hc|]. split; [done|].
  split; [by eapply (sn_lex3 _ leaving proc_rank); [apply leaving_descends|]|].
  intros p2 Hsteps2.
  assert ((main_pc p2 = PStopping \/ main_pc p2 = PExited 0 \/ main_pc p2 = PDied) /\ proc_inv p2) as [Hpc Hi2].
  { destruct Hl as [Hi1 _]. clear -Hsteps2 Hi1 Hstorage.
    assert (main_pc (mkProcess PStopping (Some r1) true) = PStopping \/
      main_pc (mkProcess PStopping (Some r1) true) = PExited 0 \/
      main_pc (mkProcess PStopping (Some r1) true) = PDied) as H1 by (by left).
    induction Hsteps2 as [|x y z Hxy _ IH]; [done|]. apply IH; [by eapply proc_step_inv|]. clear IH.
    destruct Hxy as [y Hrun| | |]; simpl; auto. unfold run_node in Hrun.
    destruct H1 as [H1|[H1|H1]]; rewrite H1 in Hrun; destruct (runtime x) as [rx|]; try done.
    destruct (control_ rx) eqn:Hc'; try done. rewrite leave_idle in Hrun by done. injection Hrun as <-. auto. }
  destruct Hpc as [Hpc|Hpc]; [left|by right]. unfold proc_inv in Hi2. rewrite Hpc in Hi2.
  destruct (runtime p2) as [r2|] eqn:Hr2; [|done]. destruct Hi2 as [Hi2 _].
  destruct (decide (control_ r2 = CIdle)) as [He|Hne].
  - left. unfold run_node. rewrite Hpc, Hr2, He, leave_idle by done. by eexists.
  - right. exists r2. split; [done|]. by apply stop_progress.
Qed.
End runs.

(** ** A concrete process *)

#[local] Existing Instance example_texts.

Definition demo_env : Env := fun name =>
  if decide (name = "FTKV_NODE_ID") then Some (bytes_of "1")
  else if decide (name = "FTKV_LISTEN_ADDRESS") then Some (bytes_of "127.0.0.1:0")
  else if decide (name = "FTKV_DATA_DIR") then Some (bytes_of "data")
  else if decide (name = "FTKV_PEERS") then Some (bytes_of "2=b:1,3=c:1")
  else None.

(** It boots, starts its server, two workers and the ticker, and waits; one worker
    is about to sleep. *)
Definition demo_process_events : list (option Action) :=
  [None; Some (ControlStep (Some 7%N) true); Some (ControlStep None true); Some (ControlStep None true);
   Some (ControlStep None true); Some (ControlStep None true); None; Some (WorkerStep 0); Some (TickerStep 0)].

Definition demo_disk0 : InMemoryRaftStorage := mkInMemory default_persistent.

Definition demo_process : Process InMemoryRaftStorage N :=
  default booting (proc_run demo_env demo_disk0 (Ret tt) demo_process_events booting).

Lemma signal_ends_process_witness :
  exists p1, run_node demo_env demo_disk0 (Ret tt) (request_stop demo_process) = Some p1 /\
    main_pc p1 = PStopping /\ sn (proc_step demo_env demo_disk0 (Ret tt)) p1.
Proof.
  assert (storage_inv demo_disk0) as Hst by (repeat split; done).
  destruct (signal_ends_process demo_env demo_disk0 (Ret tt) Hst demo_process) as (p1 & H1 & H2 & H3 & _).
  - apply (proc_run_steps _ _ _ demo_process_events). vm_compute. reflexivity.
  - vm_compute. reflexivity.
  - by exists p1.
Defined.
