(* ===== verification/Main.v ===== *)
(** * The command line

    Models [src/src/main.cpp] and [state_name] of [src/src/node/node_runtime.cpp]:
    the dispatch on the arguments, the two probes and the exit codes.
    [run_node] is the subject of [Process]; here it is an argument, as are the
    version string of the build and the channel to a target. *)

From Stdlib Require Import NArith ZArith Lia Strings.Byte Strings.String.
From stdpp Require Import base tactics numbers list pretty strings.
From S2P Require Import Prelude RaftTypes RaftNode Grpc GrpcProperties.
From S2P Require Import RaftCluster RaftSafety.

Definition state_name (s : NodeState) : string :=
  match s with follower => "follower" | candidate => "candidate" | leader => "leader" end.

(** The line of [print_status]. *)
Definition print_status (status : NodeSnapshot) : string :=
  "node_id=" +:+ pretty (ns_node_id status) +:+ " state=" +:+ state_name (ns_state status) +:+
  " term=" +:+ pretty (ns_current_term status) +:+
  " leader_id=" +:+ pretty (default 0%N (ns_leader_id status)) +:+
  " commit_index=" +:+ pretty (ns_commit_index status) +:+
  " last_applied=" +:+ pretty (ns_last_applied status) +:+
  " last_log_index=" +:+ pretty (ns_last_log_index status).

(** The lines a run writes and its exit code. *)
Record Output := mkOutput { out_lines : list string; err_lines : list string; exit_code : N }.

Definition probe_options : GrpcClientOptions := mkOptions 500 2 25 50.

Definition make_probe_client (target : bytes) : outcome GrpcClientOptions := make_client target probe_options.

Definition usage : Output :=
  mkOutput [] ["usage: ftkv_server [--version | --healthcheck TARGET | --status TARGET]"] 1.

Section main.
Context `{LT : LibraryTexts} {T : Type}.
Context (version : string) (run_node : M T unit).
Context (stub_GetStatus : bytes -> M T (Status * option WireStatus)).

Definition run_probe (mode target : bytes) : M T Output :=
  options ← lift (make_probe_client target);
  status ← client_status options (stub_GetStatus target);
  mret (mkOutput (if decide (mode = bytes_of "--status") then [print_status status] else []) [] 0).

(** The [try] block of [main]. *)
Definition dispatch (argv : list bytes) : M T Output :=
  match argv with
  | [_] => run_node;; mret (mkOutput [] [] 0)
  | [_; option] =>
      if decide (option = bytes_of "--version") then mret (mkOutput ["ftkv_server " +:+ version] [] 0)
      else mret usage
  | [_; option; target] =>
      if decide (option = bytes_of "--healthcheck" \/ option = bytes_of "--status")
      then run_probe option target
      else mret usage
  | _ => mret usage
  end.

Definition what (e : exn) : string := status_text (exn_status e).

Definition main (argv : list bytes) : M T Output := fun t =>
  match dispatch argv t with
  | (t', Fail (Exn e)) => (t', Ret (mkOutput [] ["ftkv_server: " +:+ what e] 1))
  | r => r
  end.
End main.

Section probes.
Context {St E : Type} `{HSt : RaftStorage St} `{HE : RandomEngine E} `{LT : LibraryTexts}.
Implicit Types n : RaftNode St E.

(** A target behind a network: the first attempts end with the statuses of a list,
    and once the list is used up the server of the node answers. *)
Definition flaky_target : M (list Status * RaftNode St E) (Status * option WireStatus) := fun '(losses, n) =>
  match losses with
  | status :: losses => ((losses, n), Ret (status, None))
  | [] => zoom snd (fun n s => (s.1, n)) (run_handler false false service_GetStatus) ([], n)
  end.

(** The status a node that answers is reported with. *)
Definition answer_of n : WireStatus :=
  mkWireStatus (node_id (config_ n)) (role_of_state (state_ n)) (current_term_ n)
    (bool_decide (is_Some (leader_id_ n))) (default 0%N (leader_id_ n)) (commit_index_ n) (last_applied_ n)
    (last_log_index n).

Lemma flaky_served n : flaky_target ([], n) = (([], n), Ret (mkStatus OK "", Some (answer_of n))).
Proof. done. Qed.

(** The two attempts of a probe. *)
Lemma probe_attempts losses n :
  Forall (fun status => status_ok status = false) losses ->
  invoke_with_retry probe_options flaky_target (losses, n) =
    let answered attempts pauses := Ret (mkResult (mkStatus OK "") (Some (answer_of n)) attempts pauses) in
    match losses with
    | [] => (([], n), answered 1%N [])
    | st :: rest =>
        if is_retryable (error_code st)
        then match rest with
             | [] => (([], n), answered 2%N [25%Z])
             | st' :: rest' => ((rest', n), Ret (mkResult st' None 2 [25%Z]))
             end
        else ((rest, n), Ret (mkResult st None 1 []))
    end.
Proof.
  intros Hl. unfold invoke_with_retry. cbn [retry_loop N.to_nat Pos.to_nat probe_options max_attempts].
  destruct Hl as [|st rest Hst Hrest].
  { change (N.to_nat 2) with 2. unfold retry_loop, mbind, M_bind. by rewrite flaky_served. }
  change (N.to_nat 2) with 2. unfold retry_loop, mbind, M_bind. cbn [flaky_target fst snd].
  rewrite Hst. cbn [orb]. destruct (is_retryable (error_code st)); cbn [negb orb]; [|done].
  change (1 =? max_attempts probe_options)%N with false. cbv beta iota.
  change (i64_double (initial_backoff probe_options) (rest, n)) with ((rest, n), Ret (A := Z) 50%Z). cbv beta iota.
  destruct Hrest as [|st' rest' Hst' _]; [by rewrite flaky_served|]. cbn [flaky_target fst snd].
  change (1 + 1 =? max_attempts probe_options)%N with true. by rewrite orb_true_r.
Qed.

(** C40: the probes, against every target.  If the attempts that are lost end with
    errors of any code and text: [--status] prints the fields of the node in one line
    and [--healthcheck] prints nothing, both with exit code 0, when the node answers
    the first attempt, or the second after a retryable error; otherwise both exit
    with 1 and print the number of attempts, one for an error that is not retried and
    two at most, and the text of the last error.  Neither changes the node.  An empty
    target is refused. *)
Theorem probes_report version run_node name mode target losses n :
  mode = bytes_of "--status" \/ mode = bytes_of "--healthcheck" -> target <> [] ->
  Forall (fun status => status_ok status = false) losses ->
  let report := mkOutput
    (if decide (mode = bytes_of "--status")
     then ["node_id=" +:+ pretty (node_id (config_ n)) +:+
           " state=" +:+ match state_ n with
                         | follower => "follower" | candidate => "candidate" | leader => "leader"
                         end +:+
           " term=" +:+ pretty (current_term_ n) +:+
           " leader_id=" +:+ match leader_id_ n with Some l => pretty l | None => "0" end +:+
           " commit_index=" +:+ pretty (commit_index_ n) +:+
           " last_applied=" +:+ pretty (last_applied_ n) +:+
           " last_log_index=" +:+ pretty (last_log_index n)]
     else []) [] 0 in
  let complaint attempts status := mkOutput []
    ["ftkv_server: GetStatus failed after " +:+ attempts +:+ " attempt(s)" +:+
     (if decide (status_text status = "") then "" else ": " +:+ status_text status)] 1 in
  main version run_node (fun _ => flaky_target) [name; mode; target] (losses, n) =
    match losses with
    | [] => (([], n), Ret report)
    | status :: rest =>
        if is_retryable (error_code status)
        then match rest with
             | [] => (([], n), Ret report)
             | status' :: rest' => ((rest', n), Ret (complaint "2" status'))
             end
        else ((rest, n), Ret (complaint "1" status))
    end /\
  main version run_node (fun _ => flaky_target) [name; mode; []] (losses, n) =
    ((losses, n), Ret (mkOutput [] ["ftkv_server: gRPC target must not be empty"] 1)).
Proof.
  intros Hmode Htarget Hloss report complaint. unfold main, dispatch.
  destruct (decide (_ \/ _)) as [_|Hn]; [|naive_solver]. split; [|reflexivity].
  unfold run_probe, make_probe_client, make_client. rewrite decide_False by done.
  change (make_channel_client false probe_options) with (Ret probe_options).
  unfold client_status, mbind, M_bind, lift. rewrite probe_attempts by done.
  assert (bool_decide (is_Some (leader_id_ n)) = match leader_id_ n with Some _ => true | None => false end) as Hled
    by (by destruct (leader_id_ n)).
  destruct losses as [|st rest]; [|destruct (is_retryable (error_code st)); [destruct rest as [|st' rest]|]];
    cbn [fst snd ir_status ir_response ir_attempts default from_option answer_of ws_role ws_node_id].
  - unfold answer_of. rewrite Hled. by destruct (state_ n), (leader_id_ n).
  - unfold answer_of. rewrite Hled. by destruct (state_ n), (leader_id_ n).
  - inversion_clear Hloss as [|? ? _ Hrest]. inversion_clear Hrest as [|? ? Hst' _]. by rewrite Hst'.
  - inversion_clear Hloss as [|? ? Hst _]. by rewrite Hst.
Qed.
End probes.

#[local] Existing Instance example_texts.

(** The first attempt times out, the second is answered. *)
Lemma probes_report_witness :
  main (T := list Status * RaftNode InMemoryRaftStorage N) "1.0" (mret tt) (fun _ => flaky_target)
    [bytes_of "ftkv_server"; bytes_of "--status"; bytes_of "a:1"]
    ([mkStatus DEADLINE_EXCEEDED "Deadline Exceeded"], demo_node demo_committed 1) =
    (([], demo_node demo_committed 1), Ret (mkOutput
      ["node_id=1 state=leader term=1 leader_id=1 commit_index=2 last_applied=2 last_log_index=2"] [] 0)).
Proof.
  destruct (probes_report "1.0" (mret tt) (bytes_of "ftkv_server") (bytes_of "--status") (bytes_of "a:1")
    [mkStatus DEADLINE_EXCEEDED "Deadline Exceeded"] (demo_node demo_committed 1)) as [H _];
    [left; reflexivity|discriminate|repeat constructor|].
  rewrite H. vm_compute. reflexivity.
Defined.
